(* ===== verification/_CoqProject ===== *)
-Q . S2P
Prelude.v
GoStrings.v
ApiTypes.v
Interfaces.v
ObjectVersion.v
ObjStoreMap.v
MemoryStore.v
StoreInvariant.v
StoreRefinement.v
CompositeStore.v
StoreList.v
StoreWatch.v
Collection.v
ScheduleQueue.v
NodePool.v
PodScheduler.v
PodManager.v
PortManager.v
NodeManager.v
NodeEvents.v
NodeMonitor.v
AgentDirs.v
AgentTypes.v
PodConditions.v
ContainerActor.v
PodActor.v
PodLifecycle.v
SessionService.v
SessionWrapper.v
CoreClient.v
NodeBuckets.v
AgentStore.v
Actors.v
ContainerRuntime.v
Expansion.v
ContainerConfig.v
SecurityContext.v
LinuxConfig.v
ImageManager.v
NodeActor.v
CoreBroker.v
GrpcServer.v
CommandPath.v
NodeReports.v
AgentExamples.v
StatusUpdate.v
SessionManager.v
AppStatus.v
SessionUpdater.v
AppPool.v
AppManager.v
NodeStatus.v
SimNode.v
SimRuns.v
AgentStart.v
ControlPlane.v
Placement.v
AppInvariant.v
AppScaling.v
AppSync.v
