(* ===== verification/Prelude.v ===== *)
(** * Verification of fornax-serverless

    fornax-serverless runs applications as pods on nodes and hands out sessions on those pods.  This
    library models the Go code of its control plane ([src/pkg/fornaxcore], [src/pkg/store],
    [src/pkg/collection], [src/pkg/util]), of its node agent ([src/pkg/nodeagent]) and of the simulated nodes its load
    tests use ([src/cmd/simulation]) and proves what makes them correct.

    ** The program

    - Clients write applications and sessions into the _memory stores_ ([src/pkg/store/inmemory]), one per
      resource, which number every change and tell watchers about it.
    - The _application manager_ ([src/pkg/fornaxcore/application]) watches both stores.  Per application it
      keeps a pool of pods and sessions, creates and deletes pods, binds pending sessions to idle pods and
      writes the status back.
    - The _pod manager_ ([.../pod]) caches all pods and announces changes; the _pod scheduler_
      ([.../podscheduler]) queues new pods and places them on nodes; the _session manager_ ([.../session])
      writes session status and asks nodes to open and close sessions.
    - The _gRPC server_ ([.../grpc/server]), the _node monitor_ ([.../nodemonitor]) and the _node manager_
      ([.../node]) take the numbered reports of the nodes and pass them on to the other managers.
    - In a pod that serves sessions, the _session wrapper_ ([src/cmd/sessionwrapper]) starts and ends their processes.
    - On a node, actors exchange messages: the _node actor_ obeys the control plane and reports, each pod has
      a _pod actor_, each container a _container actor_ with its probers, each session a _session actor_; the
      _port manager_ hands out host ports; the _control plane actor_ sends the reports and hands the commands of the control
      plane to the node actor.
    - A _simulated node_ ([src/cmd/simulation/node]) speaks the protocol of an agent without running anything, with a
      goroutine per command.

    ** Which file models what

    - [Prelude]: results, the state-and-error monad [SM] with its notation, relations every run keeps
      ([within]), integers at their width ([i32], [i64], [u64]), map iteration ([GoRange]) and [sort.Slice]
      ([GoSort]); [GoStrings]: [strings], [strconv].
    - [ApiTypes]: the objects and [src/pkg/util]; [Interfaces]: what managers promise each other.
    - [ObjectVersion] ([k8s_api_object_versioner.go], [k8s_util.go]), [ObjStoreMap] ([store_map.go]),
      [MemoryStore] ([simple_memory_store.go], [simple_memory_store_watcher.go], [watch_cache.go]); theorems in
      [StoreInvariant], [StoreRefinement] (with the specification [VersionedMap]), [StoreList], [StoreWatch];
      [CompositeStore] ([composite_store.go]), the store of applications over a memory store and etcd.
    - [Collection] ([priority_queue.go], [concurrent_set.go]), [ScheduleQueue] ([schedule_queue.go]),
      [NodePool] ([schedule_node_pool.go], [schedule_condition.go]), [PodScheduler] ([pod_scheduler.go]).
    - [PodManager] ([pod_manager.go]), [NodeManager] ([node_manager.go]), [NodeEvents] (node manager and
      scheduler together), [NodeMonitor] ([node_monitor.go]), [GrpcServer] ([fornaxcore_server.go],
      [nodemessage_dispatcher.go]).
    - [StatusUpdate] ([factory.go] and the update loops), [SessionManager] ([session_manager.go]),
      [AppStatus] ([application_status.go]), [SessionUpdater] ([async_session_status_updater.go]).
    - [AppPool] ([application_pool.go]), [AppManager] ([application_manager.go], [application_pod.go],
      [application_session.go]); theorems in [AppInvariant], [AppScaling], [AppSync].
    - [ControlPlane]: the managers over one state [cluster], and reports followed from the wire to the stores;
      [Placement]: the scheduler behind the pod manager, and a new pod followed to the wire of a node;
      [CommandPath]: a command followed from the server over the stream to the node actor; [NodeBuckets] ([node.go],
      [store/pool.go]).
    - [PortManager] ([node_port_manager.go]), [AgentTypes] ([types.go], [pod_status.go], [message.go]),
      [PodConditions] (the conditions and state codes of [pod_status.go] and [message.go]),
      [ContainerActor] ([container_actor.go], [container_probe.go]), [PodActor] ([pod_actor.go], [pod.go],
      [session_actor.go], [null_sessionservice.go]), [NodeActor] ([node_actor.go], the sending half of [fornaxcore_actor.go]),
      [CoreBroker] (its receiving half), [AgentStart] ([dependency.go], [cadvisor_provider.go]),
      [SessionService] ([grpc/session_server.go]), [AgentStore] ([sqlite.go], [storefactory.go], start of
      [node.go]); theorems on the life of a pod in [PodLifecycle], on the reports in [NodeReports]; [AgentExamples] runs a
      whole agent.
    - Below the actors: [Actors] ([actor.go], mailboxes with their bound), [ContainerRuntime] ([runtime.go]),
      [Expansion] ([expand.go]), [ContainerConfig] ([kubelet_labels.go], [k8s_helper.go], [kubelet_util.go], the CRI
      configurations of [pod_container.go] and [pod_sandbox.go]), [NodeStatus] ([node_status.go], [network.go]),
      [CoreClient] ([fornaxcore_client.go]), [SecurityContext] ([security_context.go] with the Kubernetes helpers it calls),
      [LinuxConfig] (huge pages, memory settings, mounts and the Linux part of sandboxes), [AgentDirs] (directories of pods and
      [ValidateNodeConfiguration]), [ImageManager] ([image_manager.go]).
    - [SimNode] ([node_actor.go], [node.go] and [node_status.go] of the simulated node), theorems and runs in [SimRuns].
    - In a pod: [SessionWrapper] ([cmd/sessionwrapper/main.go]), the other end of [SessionService].

    The state of a component is a record with the fields of the Go struct, an operation has the name of the
    Go function, with a prefix ([pm_], [nm_], [q_], [pa_], [wr_], ...) where two components share a name.

    ** What is proved

    - _Stores._  The memory store refines a map with one revision counter ([store_refines_versioned_map]); no
      update is lost; lists are complete and in order; pages continue; the events of a watch replay to the
      stored objects; house keeping changes nothing a client sees; page tokens survive encoding; an
      application that etcd no longer has stays in memory only if a call made its copy after the deletion had been
      followed, and a created application can be read.
    - _Queues and scheduling._  The priority queue refines a keyed bag; a pod is queued at most once;
      placing a pod never overcommits a node and never loses the pod; the chunks partition the nodes.
    - _Pods and nodes._  Pod events replay to the cache; a requested termination is not forgotten; the
      messages of a node are handled in order, a change that does not follow is refused and answered by a
      request for a full report; a full report decides which pods a node has; a node that is gone is not
      offered to the scheduler.
    - _Applications and sessions._  Pools stay consistent under every interleaving; pods are scaled within the
      limits and never at the cost of a session; sessions are served in order; deletion closes sessions
      before the pool is dropped; status writes are atomic under concurrent writers, and the asynchronous updaters, the batched one of
      sessions too, once it has the map its constructor leaves nil, forget nothing and come to rest ([session_updates_settle]).
    - _Node agent._  Host ports are shared by two pods only after ports were given back that their pod did not hold any
      more ([ports_shared_only_by_stray_release]), and removing a pod gives back exactly what it
      took; a pod is terminated only when no container recorded in it is left in the runtime; sessions are closed before
      containers; house keeping finishes a failed termination; a silent session is given up by the fifth check that finds it
      overdue and an answering one is kept; the writes to the local database may arrive in any order, and
      a restarted agent goes on with its last revision.  The runtime service does for the pod actors what they
      assume of it ([runtime_serves_pods]); an actor handles its messages once and in order, and actors whose
      messages only go down never block each other; what is written into labels is read back; variables are
      expanded as the syntax says, but for an operator before a character of several bytes; a container gets the image of its reference and the security settings its context asks for; a node is ready exactly when its parts are known;
      the conditions of a pod say exactly what its containers do; huge page limits and memory settings are those asked for;
      the directories of a pod are made and removed without touching others; starting opens every service once.
    - _Both ends._  A new pod is put on a node that has room and the node is told ([new_pod_reaches_node]); the commands
      dispatched to a node arrive at its node actor once and in order, and all of them unless a stream broke ([dispatched_commands_arrive]); the
      wrapper in a pod keeps its sessions alive at the agent ([wrapper_keeps_sessions_alive]), ends their processes and then
      itself ([graceful_stop_ends], [wrapper_exits_clean]).  The control plane accepts every report of a ready agent that it receives in order
      ([agent_reports_accepted]), also of a simulated node whose goroutines interleave ([sim_reports_accepted]) and
      whose commands all come to an end ([sim_commands_finish]), and a session report reaches the session store
      ([session_report_reaches_store]).

    Behaviour that differs from what the code means to do is shown by examples next to the theorems, such as
    [last_page_item_lost], [pending_pod_picked_repeatedly] or [two_pods_share_a_host_port].

    ** How the code is modelled

    - A Go function that may fail is a [result]; one that changes state is [SM S A], which threads the state
      also through errors.  A nil dereference, an index out of range or a failed type assertion is an error
      whose text starts with "panic:".
    - Objects that several components share through pointers (pods, nodes, sessions, queue items, the cells
      of the store) live in heaps, and the holders keep locations.  Sub-maps and slices with one owner are
      values.  The variable of a [range] loop is one variable for the whole loop (Go 1.18); [PortManager] keeps
      the pointers taken to it.
    - A call that holds its component's lock is one step.  Goroutines and interleavings are step relations
      ([am_step], [async_step], [batch_step], [node_step], [pod_step], [svc_step], [wrapper_step], [actor_step], [sim_step],
      [broker_step], [link_step], [port_step], [composite_step], ...) or explicit lists of what others do in between
      (the store calls [env] of the update loops, the container events [waits] of a termination).  Channels
      and mailboxes are lists without a bound, except in [Actors], which shows what the bound does, in [CoreBroker] and in the
      two updaters.
    - Time is a number of nanoseconds passed as [now].  Random names are arguments.  The order in which a map
      is iterated is any order the class [GoRange] allows; [sort.Slice] is any sorting permutation
      ([GoSort]).
    - Code that is not in the tree is an interface with the laws the code relies on: [ClientGo] (names of
      objects), [QuantityLib] (resource quantities), [TokenCodec], [SessionCodec] (encodings that can be read
      back), [NetLib], [PersistStore] (etcd, with [PersistStoreOK]: a map from keys to objects), and for the agent [AgentDeps]/[NodeDeps] (container runtime, cgroups, file system,
      local database, of which [AgentStore] is a model), where [AgentDepsOK] says when the runtime has removed a container; [ContainerRuntime] builds it
      from [CRI] (the calls of the container runtime interface, with [CRIOK]) and [AgentHost]; [ConfigLib] is the JSON codec and the
      selection of resource fields, [HostLib] what a host says of its huge pages and addresses.  The theorems about
      one manager are proved against the interface of the others; [ControlPlane] shows that the managers
      satisfy them.

    ** Bounds and fuel

    - Revisions stay below 2^63 ([StoreInvariant], [NodeReports]); the counter of a store is one atomic
      integer, and other stores may raise it between two calls.
    - [heap_up] and [heap_down] run with the length of the heap as fuel, [sort.Search] with its interval,
      [revive_loop] with the length of the back-off queue; the theorems show that this is enough.  Loops over
      slices and maps are structural.
    - The status loops make four and three attempts, as the code does; the retries of [BackoffExec] are
      bounded by the argument [retries], any number.
    - Host ports are 32-bit integers; the theorems of [PortManager] ask the range to stay below 2^31.  The
      scaling policy rounds through [float64_of_int] as the code does, which is exact up to 2^53.
    - The gRPC server has four handler channels; the revision list starts with 20000 slots, so witnesses
      never evaluate it element by element.

    ** Not modelled

    - Calls of the operating system, the container runtime behind the CRI, cgroups, cAdvisor, images and
      volumes: calls of [agent_call], [cri_call], [ImageService] and [AgentHost], or arguments of a step; making the requests
      of life-cycle hooks; Windows.
    - Opening sockets, TLS, flags and main programs, logging and metrics; generated code (deep copies, client
      sets, OpenAPI, protocol buffers); the copied Kubernetes packages in [src/kubernetes] but for the helpers [ContainerConfig], [Expansion], [LinuxConfig] and [SecurityContext] name; test and
      performance programs.
    - Fields of pods and nodes that no modelled code reads. *)

From stdpp Require Export base gmap strings list sorting fin_maps.
From Stdlib Require Export ZArith Lia ZifyNat Ascii.
From Stdlib Require Import String.

#[global] Set Default Goal Selector "!".
#[global] Unset Printing Records.

Declare Scope go_scope.
Delimit Scope go_scope with go.

(** ** Results of fallible Go functions

    A Go function returning [(T, error)] is modelled by [result T]; the errors the
    callers compare against are constructors of [GoError], every other one carries the
    text it is built from. *)

Inductive GoError :=
  | KeyExistsError
  | KeyNotFoundError
  | TooLargeResourceVersionError
  | InternalError
  | BadRequestError
  | InvalidError
  | ConflictError
  | PodNotFoundError
  | PodNotTerminatedYetError
  | PodIsDeletedError
  | InsufficientResourceError
  | PodBindToNodeError
  | NodeRevisionOutOfOrderError
  | NodeAlreadyExistError
  | NodeNotFoundError
  | InSufficientHostPortError
  | NamespaceTerminatingError
  | NotFoundError
  | AggregateError (n : nat)
  | OtherError (text : string).

#[export] Instance GoError_eq_dec : EqDecision GoError.
Proof. solve_decision. Defined.

Inductive result (A : Type) :=
  | Ok (a : A)
  | Err (e : GoError).
Arguments Ok {A} a.
Arguments Err {A} e.

#[export] Instance result_eq_dec {A} `{EqDecision A} : EqDecision (result A).
Proof. solve_decision. Defined.

Definition bind_result {A B} (r : result A) (k : A -> result B) : result B :=
  match r with Ok a => k a | Err e => Err e end.

Notation "'let?' x ':=' c 'in' k" := (bind_result c (fun x => k))
  (at level 10, x pattern, c at level 100, k at level 200) : go_scope.
Open Scope go_scope.

Lemma bind_result_Ok {A B} (r : result A) (k : A -> result B) b :
  bind_result r k = Ok b <-> exists a, r = Ok a /\ k a = Ok b.
Proof. destruct r; simpl; naive_solver. Qed.

(** A method that reads and writes the fields of its receiver and may fail: the state after the
    call is there on every path, errors included. *)
Definition SM (St A : Type) : Type := St -> result A * St.

Definition sm_ret {St A} (a : A) : SM St A := fun s => (Ok a, s).
Definition sm_fail {St A} (e : GoError) : SM St A := fun s => (Err e, s).
Definition sm_lift {St A} (r : result A) : SM St A := fun s => (r, s).
Definition sm_get {St} : SM St St := fun s => (Ok s, s).
Definition sm_modify {St} (f : St -> St) : SM St unit := fun s => (Ok (), f s).
Definition sm_bind {St A B} (c : SM St A) (k : A -> SM St B) : SM St B := fun s =>
  match c s with
  | (Ok a, s') => k a s'
  | (Err e, s') => (Err e, s')
  end.

(** A call whose error is inspected or dropped by the caller. *)
Definition sm_try {St A} (c : SM St A) : SM St (result A) := fun s =>
  let '(r, s') := c s in (Ok r, s').

(** [for _, x := range l { body(x) }] with a body that cannot leave the loop. *)
Fixpoint sm_for {St A} (l : list A) (body : A -> SM St unit) : SM St unit :=
  match l with
  | [] => sm_ret ()
  | x :: l => sm_bind (body x) (fun _ => sm_for l body)
  end.

(** The errors of the calls of a loop, in order; the loop goes on after an error. *)
Fixpoint sm_collect {St A} (l : list A) (body : A -> SM St unit) : SM St (list GoError) :=
  match l with
  | [] => sm_ret []
  | x :: l =>
    sm_bind (sm_try (body x)) (fun r =>
    sm_bind (sm_collect l body) (fun errs =>
    sm_ret (match r with Ok _ => errs | Err e => e :: errs end)))
  end.

Notation "'do!' x '<-' c ';' k" := (sm_bind c (fun x => k))
  (at level 100, x pattern, c at level 99, k at level 200, right associativity) : go_scope.

Create HintDb smdb.
Lemma sm_bind_eq {St A B} (c : SM St A) (k : A -> SM St B) s :
  sm_bind c k s = match c s with (Ok a, s') => k a s' | (Err e, s') => (Err e, s') end.
Proof. done. Qed.
Lemma sm_ret_eq {St A} (a : A) (s : St) : sm_ret a s = (Ok a, s).
Proof. done. Qed.
Lemma sm_fail_eq {St A} e (s : St) : @sm_fail St A e s = (Err e, s).
Proof. done. Qed.
Lemma sm_lift_eq {St A} (r : result A) (s : St) : sm_lift r s = (r, s).
Proof. done. Qed.
Lemma sm_get_eq {St} (s : St) : sm_get s = (Ok s, s).
Proof. done. Qed.
Lemma sm_modify_eq {St} f (s : St) : sm_modify f s = (Ok (), f s).
Proof. done. Qed.
#[export] Hint Rewrite @sm_bind_eq @sm_ret_eq @sm_fail_eq @sm_lift_eq @sm_get_eq @sm_modify_eq : smdb.

(** One step of a stateful computation. *)
Ltac sm_simpl := autorewrite with smdb; cbn beta iota zeta.
Ltac sm_simpl_in H := autorewrite with smdb in H; cbn beta iota zeta in H.

(** [within R c]: whatever [c] returns, the state it leaves is related to the one it found. *)
Definition within {St A} (R : relation St) (c : SM St A) : Prop := forall s, R s (c s).2.

Section Within.
Context {St : Type} (R : relation St) {HR : PreOrder R}.

Lemma within_bind {A B} (c : SM St A) (k : A -> SM St B) :
  within R c -> (forall x, within R (k x)) -> within R (sm_bind c k).
Proof using HR.
  intros Hc Hk s. rewrite sm_bind_eq. specialize (Hc s). destruct (c s) as [[x|e] s']; simpl in *; [|done].
  etrans; [done|apply Hk].
Qed.
Lemma within_ret {A} (x : A) : within R (sm_ret x).
Proof using HR. by intros s. Qed.
Lemma within_fail {A} e : within R (@sm_fail St A e).
Proof using HR. by intros s. Qed.
Lemma within_lift {A} (r : result A) : within R (sm_lift r).
Proof using HR. by intros s. Qed.
Lemma within_read {A} (f : St -> A) : within R (fun s => (Ok (f s), s)).
Proof using HR. by intros s. Qed.
Lemma within_try {A} (c : SM St A) : within R c -> within R (sm_try c).
Proof. intros Hc s. specialize (Hc s). unfold sm_try. by destruct (c s). Qed.
Lemma within_for {A} (l : list A) body : (forall x, within R (body x)) -> within R (sm_for l body).
Proof using HR. intros Hb. induction l; simpl; [apply within_ret|by apply within_bind]. Qed.
Lemma within_collect {A} (l : list A) body : (forall x, within R (body x)) -> within R (sm_collect l body).
Proof using HR.
  intros Hb. induction l; simpl; [apply within_ret|]. apply within_bind; [by apply within_try|].
  intros r. apply within_bind; [done|]. intros errs. apply within_ret.
Qed.
End Within.

(** ** Machine integers: the width-[w] wrap-arounds of Go's conversions *)

Definition wrapu (w z : Z) : Z := (z mod 2 ^ w)%Z.
Definition wraps (w z : Z) : Z := ((z + 2 ^ (w - 1)) mod 2 ^ w - 2 ^ (w - 1))%Z.

Abbreviation u64 := (wrapu 64).
Abbreviation u32 := (wrapu 32).
Abbreviation i32 := (wraps 32).
Abbreviation i64 := (wraps 64).

Definition MaxUint64 : Z := (2 ^ 64 - 1)%Z.
Definition MaxInt64 : Z := (2 ^ 63 - 1)%Z.

Lemma wrapu_small w z : (0 <= z < 2 ^ w)%Z -> wrapu w z = z.
Proof. apply Z.mod_small. Qed.

Lemma wraps_small w z :
  (0 < w)%Z -> (- 2 ^ (w - 1) <= z < 2 ^ (w - 1))%Z -> wraps w z = z.
Proof.
  intros Hw Hz. unfold wraps.
  assert (2 ^ w = 2 * 2 ^ (w - 1))%Z as Hpow.
  { rewrite <- Z.pow_succ_r by lia. f_equal. lia. }
  rewrite Z.mod_small; lia.
Qed.

(** [float64(z)] for an integer [z]: exact up to 2^53, rounded half-even above. *)
Definition float64_of_int (z : Z) : Z :=
  let e := (Z.log2 (Z.abs z) - 52)%Z in
  if (e <=? 0)%Z then z
  else
    let q := (Z.abs z / 2 ^ e)%Z in
    let r := (Z.abs z mod 2 ^ e)%Z in
    let h := (2 ^ (e - 1))%Z in
    let q' := if (h <? r)%Z || ((r =? h)%Z && Z.odd q) then (q + 1)%Z else q in
    (Z.sgn z * (q' * 2 ^ e))%Z.

Lemma float64_of_int_exact z : (Z.abs z < 2 ^ 53)%Z -> float64_of_int z = z.
Proof.
  intros Hz. unfold float64_of_int.
  destruct (decide (z = 0)%Z) as [->|Hnz]; [done|].
  assert (Z.log2 (Z.abs z) < 53)%Z by (apply Z.log2_lt_pow2; lia).
  destruct (Z.leb_spec (Z.log2 (Z.abs z) - 52) 0); [done|lia].
Qed.

(** [lia] with quotients and remainders expanded. *)
Ltac dlia := zify; Z.to_euclidean_division_equations; lia.

(** Integer division of Go truncates towards zero. *)
Abbreviation godiv := Z.quot.

(** ** Lists *)

(** Overwriting a slot exchanges one element. *)
Lemma list_insert_perm {A} (l : list A) a b k :
  l !! k = Some b -> a :: l ≡ₚ b :: <[k := a]> l.
Proof.
  revert k. induction l as [|x l IH]; intros [|k] Hk; simplify_eq/=.
  - apply Permutation_swap.
  - rewrite Permutation_swap, (IH k Hk). apply Permutation_swap.
Qed.

(** An earlier element of a sorted list is related to a later one. *)
Lemma StronglySorted_lookup {A} (R : A -> A -> Prop) (l : list A) i j x y :
  StronglySorted R l -> (i < j)%nat -> l !! i = Some x -> l !! j = Some y -> R x y.
Proof.
  intros Hs. revert i j. induction Hs as [|a l _ IH Ha]; intros [|i] [|j] Hij Hx Hy;
    simplify_eq/=; try lia.
  - eapply Forall_lookup_1; eauto.
  - apply (IH i j); [lia|done|done].
Qed.

Lemma sublist_fmap {A B} (f : A -> B) (l1 l2 : list A) :
  l1 `sublist_of` l2 -> (f <$> l1) `sublist_of` (f <$> l2).
Proof. induction 1; csimpl; by constructor. Qed.

(** ** Iteration over Go maps

    The order in which [range] visits a map is unspecified, so every definition that
    ranges over one takes it from an instance of [GoRange]; the theorems hold for every
    instance.  [range_list] is the instance the witnesses compute with. *)
Class GoRange := {
  range : forall {K A : Type} `{Countable K}, gmap K A -> list (K * A);
  range_perm : forall {K A : Type} `{Countable K} (m : gmap K A),
    range m ≡ₚ map_to_list m
}.

#[export] Instance range_list : GoRange | 100.
Proof. by refine {| range := fun K A _ _ m => map_to_list m |}. Defined.

Section Range.
Context {GR : GoRange} {K A : Type} `{Countable K}.
Implicit Types m : gmap K A.

Lemma elem_of_range m k a : (k, a) ∈ range m <-> m !! k = Some a.
Proof. rewrite range_perm. apply elem_of_map_to_list. Qed.

Lemma NoDup_range_keys m : NoDup (range m).*1.
Proof. rewrite range_perm. apply NoDup_fst_map_to_list. Qed.

Lemma NoDup_range m : NoDup (range m).
Proof. eapply NoDup_fmap_1, NoDup_range_keys. Qed.

Lemma length_range m : List.length (range m) = size m.
Proof. rewrite range_perm. apply length_map_to_list. Qed.
End Range.

(** ** Sorting

    [sort.Sort] is not stable, so the order it leaves equal elements in is unspecified:
    clients use an instance of [GoSort] through its two laws. *)
Definition le_of {A} (less : A -> A -> bool) (x y : A) : Prop := less y x = false.

#[export] Instance le_of_dec {A} (less : A -> A -> bool) : RelDecision (le_of less).
Proof. intros x y. unfold le_of. apply _. Defined.

(** The contract of [Less]: a strict weak order. *)
Class StrictWeak {A} (less : A -> A -> bool) := {
  less_irrefl : forall x, less x x = false;
  less_asym : forall x y, less x y = true -> less y x = false;
  less_negtrans : forall x y z, less y x = false -> less z y = false -> less z x = false
}.

#[export] Instance le_of_total {A} (less : A -> A -> bool) `{!StrictWeak less} :
  Total (le_of less).
Proof.
  intros x y. unfold le_of. destruct (less y x) eqn:E; [right|by left].
  by apply less_asym.
Qed.

#[export] Instance le_of_trans {A} (less : A -> A -> bool) `{!StrictWeak less} :
  Transitive (le_of less).
Proof. intros x y z. unfold le_of. apply less_negtrans. Qed.

(** Comparing through a rank is a strict weak order. *)
Lemma strict_weak_rank {A} (rank : A -> Z) :
  StrictWeak (fun x y => (rank x <? rank y)%Z).
Proof. split; intros *; rewrite ?Z.ltb_ge, ?Z.ltb_lt; lia. Qed.

Class GoSort := {
  gosort : forall {A : Type}, (A -> A -> bool) -> list A -> list A;
  gosort_perm : forall {A : Type} (less : A -> A -> bool) l, gosort less l ≡ₚ l;
  gosort_sorted : forall {A : Type} (less : A -> A -> bool) l,
    StrictWeak less -> Sorted (le_of less) (gosort less l)
}.

#[export] Instance gosort_merge : GoSort | 100.
Proof.
  refine {| gosort := fun A less l => merge_sort (le_of less) l |}.
  - intros. apply merge_sort_Permutation.
  - intros A less l Hsw. apply (Sorted_merge_sort _).
Defined.

(** [sort.Search(n, f)]: the smallest index the bisection settles on. *)
Fixpoint sort_Search_loop (fuel : nat) (f : nat -> bool) (i j : nat) : nat :=
  match fuel with
  | 0 => i
  | S fuel =>
    if i <? j then
      let h := (i + j) / 2 in
      if f h then sort_Search_loop fuel f i h
      else sort_Search_loop fuel f (S h) j
    else i
  end.

(** The interval shrinks at every turn, so [n] turns are enough. *)
Definition sort_Search (n : nat) (f : nat -> bool) : nat := sort_Search_loop n f 0 n.
