(* ===== verification/GoStrings.v ===== *)
(** * The parts of Go's [strings] and [strconv] packages the sources use

    Go strings are byte strings; they are modelled by [string].  [FormatUint]/[ParseUint]
    carry the resource versions of every stored object, so their round trip is what lets
    the store treat a version string as a number. *)

From S2P Require Import Prelude.
From Stdlib Require Import String.

(** ** [strings] *)

Definition HasPrefix (s prefix : string) : bool := String.prefix prefix s.

Definition HasSuffix (s suffix : string) : bool :=
  let n := String.length s in
  let k := String.length suffix in
  (k <=? n) && String.eqb (String.substring (n - k) k s) suffix.

Definition TrimPrefix (s prefix : string) : string :=
  if HasPrefix s prefix
  then String.substring (String.length prefix) (String.length s - String.length prefix) s
  else s.

(** [strings.Split(s, sep)] for a separator of one byte. *)
Fixpoint Split (s : string) (sep : ascii) : list string :=
  match s with
  | EmptyString => [EmptyString]
  | String a s' =>
    if Ascii.eqb a sep then EmptyString :: Split s' sep
    else match Split s' sep with
         | [] => [String a EmptyString]
         | x :: xs => String a x :: xs
         end
  end.

Fixpoint Join (l : list string) (sep : ascii) : string :=
  match l with
  | [] => EmptyString
  | [x] => x
  | x :: xs => String.append x (String sep (Join xs sep))
  end.

Lemma Split_not_nil s sep : Split s sep <> [].
Proof.
  destruct s as [|a s]; simpl; [done|].
  destruct (Ascii.eqb a sep); [done|]. by destruct (Split s sep).
Qed.

Lemma Join_Split s sep : Join (Split s sep) sep = s.
Proof.
  induction s as [|a s IH]; simpl; [done|].
  destruct (Ascii.eqb a sep) eqn:E.
  - apply Ascii.eqb_eq in E as ->. pose proof (Split_not_nil s sep).
    simpl. destruct (Split s sep) eqn:Hs; [done|]. by rewrite <- IH.
  - destruct (Split s sep) as [|x [|y ys]] eqn:Hs.
    + by apply Split_not_nil in Hs.
    + simpl in *. congruence.
    + rewrite <- IH. done.
Qed.

(** No component of a split contains the separator. *)
Fixpoint has_char (s : string) (c : ascii) : bool :=
  match s with EmptyString => false | String a s => Ascii.eqb a c || has_char s c end.

Lemma Split_no_sep s sep : Forall (fun c => has_char c sep = false) (Split s sep).
Proof.
  induction s as [|a s IH]; simpl; [by repeat constructor|].
  destruct (Ascii.eqb a sep) eqn:E; [by constructor|].
  destruct (Split s sep) as [|x xs] eqn:Hs; [by apply Split_not_nil in Hs|].
  apply Forall_cons in IH as [Hx Hxs]. constructor; [|done]. simpl. by rewrite E.
Qed.

Lemma Split_app_sep x s sep :
  has_char x sep = false -> Split (String.append x (String sep s)) sep = x :: Split s sep.
Proof.
  induction x as [|a x IH]; simpl; intros H; [by rewrite Ascii.eqb_refl|].
  apply orb_false_iff in H as [-> H]. by rewrite IH.
Qed.

Lemma Split_plain x sep : has_char x sep = false -> Split x sep = [x].
Proof.
  induction x as [|a x IH]; simpl; intros H; [done|].
  apply orb_false_iff in H as [-> H]. by rewrite IH.
Qed.

Lemma Split_Join l sep :
  l <> [] -> Forall (fun c => has_char c sep = false) l -> Split (Join l sep) sep = l.
Proof.
  intros Hne Hl. induction Hl as [|x [|y l] Hx Hl IH]; [done| |].
  - by apply Split_plain.
  - change (Join (x :: y :: l) sep) with (String.append x (String sep (Join (y :: l) sep))).
    rewrite Split_app_sep by done. by rewrite IH.
Qed.

#[export] Instance Split_inj sep : Inj (=) (=) (fun s => Split s sep).
Proof.
  intros s1 s2 H. apply (f_equal (fun l => Join l sep)) in H. by rewrite !Join_Split in H.
Qed.

Lemma prefix_append p s : String.prefix p (String.append p s) = true.
Proof.
  induction p as [|a p IH]; [by destruct s|]. simpl. by destruct (ascii_dec a a).
Qed.

Lemma prefix_spec p s : String.prefix p s = true <-> exists t, s = String.append p t.
Proof.
  split; [|intros [t ->]; apply prefix_append].
  revert s; induction p as [|a p IH]; intros s H; [by exists s|].
  destruct s as [|b s]; [done|]. simpl in H.
  destruct (ascii_dec a b) as [->|]; [|done].
  destruct (IH _ H) as [t ->]. by exists t.
Qed.

Lemma length_string_app p s :
  String.length (String.append p s) = String.length p + String.length s.
Proof. induction p as [|a p IH]; simpl; [done|]. by rewrite IH. Qed.

Lemma substring_full s : String.substring 0 (String.length s) s = s.
Proof. induction s as [|a s IH]; simpl; [done|]. by rewrite IH. Qed.

Lemma substring_append p s :
  String.substring (String.length p) (String.length s) (String.append p s) = s.
Proof. induction p as [|a p IH]; simpl; [apply substring_full|done]. Qed.

Lemma TrimPrefix_append p s : TrimPrefix (String.append p s) p = s.
Proof.
  unfold TrimPrefix, HasPrefix. rewrite prefix_append, length_string_app.
  replace (String.length p + String.length s - String.length p) with (String.length s) by lia.
  apply substring_append.
Qed.

(** ** [strconv] *)

(** Digits of bases up to 36; letters of either case are read. *)
Definition digit_char (d : Z) : ascii := ascii_of_nat (Z.to_nat (if (d <? 10)%Z then 48 + d else 87 + d)).
Definition char_digit (base : Z) (c : ascii) : option Z :=
  let n := Z.of_nat (nat_of_ascii c) in
  let d := (if (48 <=? n) && (n <=? 57) then n - 48
            else if (97 <=? n) && (n <=? 122) then n - 87
            else if (65 <=? n) && (n <=? 90) then n - 55
            else base)%Z in
  if (d <? base)%Z then Some d else None.

Fixpoint format_digits (base : Z) (fuel : nat) (n : Z) (acc : string) : string :=
  match fuel with
  | 0 => acc
  | S fuel =>
    let acc := String (digit_char (n mod base)) acc in
    if (n <? base)%Z then acc else format_digits base fuel (n / base) acc
  end.

(** [strconv.FormatUint(n, 10)] and [strconv.FormatUint(n, 16)]; a 64-bit number has at most 20 digits. *)
Definition FormatUint (n : Z) : string := format_digits 10 20 n EmptyString.
Definition FormatUint16 (n : Z) : string := format_digits 16 20 n EmptyString.

Inductive NumError := ErrSyntax | ErrRange.

(** The digit loop of [strconv.ParseUint]: a value that no longer fits in 64 bits is
    reported before the rest of the string is looked at. *)
Fixpoint parse_digits (base : Z) (s : string) (acc : Z) : Z + NumError :=
  match s with
  | EmptyString => inl acc
  | String c s' =>
    match char_digit base c with
    | None => inr ErrSyntax
    | Some d =>
      let acc' := (acc * base + d)%Z in
      if (MaxUint64 <? acc')%Z then inr ErrRange else parse_digits base s' acc'
    end
  end.

(** [strconv.ParseUint(s, base, 64)] for a base from 2 to 36 *)
Definition parse_uint (base : Z) (s : string) : Z + NumError :=
  if String.eqb s EmptyString then inr ErrSyntax else parse_digits base s 0.
Definition ParseUint (s : string) : Z + NumError := parse_uint 10 s.
Definition ParseUint16 (s : string) : Z + NumError := parse_uint 16 s.

(** [strconv.Atoi]: the value returned when the error is discarded, as the callers do. *)
Definition Atoi_value (s : string) : Z :=
  let neg := HasPrefix s "-" in
  let s' := if neg || HasPrefix s "+" then String.substring 1 (String.length s - 1) s else s in
  match ParseUint s' with
  | inl n =>
    if neg then (if (2 ^ 63 <? n)%Z then - 2 ^ 63 else - n)%Z
    else (if (MaxInt64 <? n)%Z then MaxInt64 else n)%Z
  | inr ErrRange => if neg then (- 2 ^ 63)%Z else MaxInt64
  | inr ErrSyntax => 0%Z
  end.

(** [strconv.FormatInt(z, 10)], [strconv.Itoa]; [strconv.ParseInt(s, 10, 64)], [strconv.Atoi] *)
Definition FormatInt (z : Z) : string :=
  if (z <? 0)%Z then String.append "-" (FormatUint (- z)) else FormatUint z.
Definition ParseInt (s : string) : Z + NumError :=
  let neg := HasPrefix s "-" in
  let s' := if neg || HasPrefix s "+" then String.substring 1 (String.length s - 1) s else s in
  match ParseUint s' with
  | inl n =>
    if neg then (if (2 ^ 63 <? n)%Z then inr ErrRange else inl (- n)%Z)
    else (if (MaxInt64 <? n)%Z then inr ErrRange else inl n)
  | inr e => inr e
  end.

Lemma char_digit_digit_char base d : (2 <= base <= 36)%Z -> (0 <= d < base)%Z -> char_digit base (digit_char d) = Some d.
Proof.
  intros Hb Hd. unfold char_digit, digit_char. destruct (Z.ltb_spec d 10).
  - rewrite nat_ascii_embedding by lia. rewrite Z2Nat.id by lia.
    replace (48 <=? 48 + d)%Z with true by lia. replace (48 + d <=? 57)%Z with true by lia. cbn [andb].
    replace (48 + d - 48 <? base)%Z with true by lia. f_equal. lia.
  - rewrite nat_ascii_embedding by lia. rewrite Z2Nat.id by lia.
    replace (87 + d <=? 57)%Z with false by lia. rewrite andb_false_r.
    replace (97 <=? 87 + d)%Z with true by lia. replace (87 + d <=? 122)%Z with true by lia. cbn [andb].
    replace (87 + d - 87 <? base)%Z with true by lia. f_equal. lia.
Qed.

(** Parsing the digits of [n] in front of [acc] multiplies the running value up. *)
Lemma parse_format_digits base fuel n acc v :
  (2 <= base <= 36)%Z -> (0 <= n)%Z -> (n < base ^ Z.of_nat fuel)%Z -> (0 <= v)%Z ->
  (0 < fuel) ->
  exists k : Z,
    (n < k)%Z /\
    forall (Hfits : (v * k + n <= MaxUint64)%Z),
      parse_digits base (format_digits base fuel n acc) v = parse_digits base acc (v * k + n).
Proof.
  intros Hb. revert n acc v. induction fuel as [|fuel IH]; intros n acc v Hn Hlt Hv Hpos; [lia|].
  assert (0 <= n mod base < base)%Z as Hmod by (apply Z.mod_pos_bound; lia).
  assert (n = base * (n / base) + n mod base)%Z as Hdiv by (apply Z.div_mod; lia).
  assert (char_digit base (digit_char (n mod base)) = Some (n mod base)%Z) as Hdig.
  { by apply char_digit_digit_char. }
  simpl. destruct (Z.ltb_spec n base) as [Hs|Hs].
  - exists base. split; [lia|]. intros Hfits. simpl. rewrite Hdig.
    rewrite Z.mod_small in * by lia.
    by replace (MaxUint64 <? v * base + n)%Z with false by lia.
  - assert (n / base < base ^ Z.of_nat fuel)%Z as Hq.
    { apply Z.div_lt_upper_bound; [lia|].
      rewrite <- Z.pow_succ_r by lia. by rewrite <- Nat2Z.inj_succ. }
    assert (1 <= n / base)%Z as Hq1 by (apply Z.div_le_lower_bound; lia).
    assert (0 < fuel) as Hf.
    { destruct fuel; [|lia]. change (base ^ Z.of_nat 0)%Z with 1%Z in Hq. lia. }
    destruct (IH (n / base)%Z (String (digit_char (n mod base)) acc) v) as (k & Hk & Heq);
      [lia|done|lia|done|].
    exists (k * base)%Z. split; [nia|]. intros Hfits.
    assert ((v * k + n / base) * base + n mod base = v * (k * base) + n)%Z as Hval by lia.
    assert (0 <= v * k + n / base)%Z as Hx by nia.
    rewrite Heq by (generalize dependent (v * k + n / base)%Z; nia). simpl. rewrite Hdig, Hval.
    by replace (MaxUint64 <? v * (k * base) + n)%Z with false by lia.
Qed.

Lemma format_digits_not_empty base fuel n acc :
  acc <> EmptyString \/ 0 < fuel -> format_digits base fuel n acc <> EmptyString.
Proof.
  revert n acc. induction fuel as [|fuel IH]; intros n acc H; simpl; [naive_solver lia|].
  destruct (n <? base)%Z; [done|]. apply IH. by left.
Qed.

Lemma FormatUint_not_empty n : FormatUint n <> EmptyString.
Proof. apply format_digits_not_empty. right. lia. Qed.

Lemma parse_format_uint base n :
  (10 <= base <= 36)%Z -> (0 <= n <= MaxUint64)%Z -> parse_uint base (format_digits base 20 n EmptyString) = inl n.
Proof.
  intros Hb Hn. unfold parse_uint.
  destruct (String.eqb_spec (format_digits base 20 n EmptyString) EmptyString) as [He|_].
  { exfalso. eapply format_digits_not_empty; [|exact He]. right. lia. }
  destruct (parse_format_digits base 20 n EmptyString 0) as (k & Hk & Heq); [lia|lia| |lia|lia|].
  - assert (10 ^ 20 <= base ^ 20)%Z by (apply Z.pow_le_mono_l; lia). unfold MaxUint64 in *.
    change (Z.of_nat 20) with 20%Z. lia.
  - rewrite Heq by lia. simpl. f_equal.
Qed.
Lemma ParseUint_FormatUint n :
  (0 <= n <= MaxUint64)%Z -> ParseUint (FormatUint n) = inl n.
Proof. apply parse_format_uint. lia. Qed.
Lemma ParseUint16_FormatUint16 n :
  (0 <= n <= MaxUint64)%Z -> ParseUint16 (FormatUint16 n) = inl n.
Proof. apply parse_format_uint. lia. Qed.

(** A number starts with no sign. *)
Lemma parsed_no_sign s n sign : sign = "-"%char \/ sign = "+"%char -> ParseUint s = inl n -> HasPrefix s (String sign "") = false.
Proof.
  intros Hs Hp. destruct s as [|c s]; [done|]. unfold HasPrefix. cbn.
  destruct (ascii_dec sign c) as [<-|]; [|done]. exfalso. by destruct Hs as [-> | ->]; unfold ParseUint, parse_uint in Hp; cbn in Hp.
Qed.
Lemma ParseInt_FormatInt z : (- 2 ^ 63 <= z <= MaxInt64)%Z -> ParseInt (FormatInt z) = inl z.
Proof.
  intros Hz. unfold FormatInt, ParseInt, MaxInt64 in *. destruct (Z.ltb_spec z 0).
  - rewrite (eq_refl : HasPrefix (String.append "-" (FormatUint (- z))) "-" = String.prefix "-" _), prefix_append.
    cbn [orb]. rewrite length_string_app. replace (String.length "-" + _ - 1) with (String.length (FormatUint (- z))) by (simpl; lia).
    rewrite (substring_append "-" (FormatUint (- z)) : String.substring 1 _ _ = _).
    rewrite ParseUint_FormatUint by (unfold MaxUint64; lia). replace (2 ^ 63 <? - z)%Z with false by lia. f_equal. lia.
  - assert (ParseUint (FormatUint z) = inl z) as Hp by (apply ParseUint_FormatUint; unfold MaxUint64; lia).
    rewrite (parsed_no_sign _ z "-"), (parsed_no_sign _ z "+") by (done || (by left) || (by right)). cbn [orb].
    rewrite Hp. by replace (2 ^ 63 - 1 <? z)%Z with false by lia.
Qed.
