(* ===== verification/ApiTypes.v ===== *)
(** * API objects and the predicates of [pkg/util]

    The Kubernetes-style objects the control plane moves around ([pkg/apis/core/v1] and the
    fields of [k8s.io/api/core/v1] that the sources read or write), with the helper
    functions of [pkg/util/application.go], [pod.go], [meta.go], [node.go] and the
    validation of [application_types.go] and [applicationsession_types.go].

    A timestamp is a number of nanoseconds, a nil pointer is [None].  The two third-party
    pieces the code leans on are interfaces: [ClientGo] for the object keys of
    [k8s.io/client-go/tools/cache], [QuantityLib] for [resource.Quantity]. *)

From S2P Require Import Prelude GoStrings.
From Stdlib Require Import String.
Open Scope Z_scope.

(** ** Object metadata *)

Record ObjectMeta := mkObjectMeta {
  om_Name : string;
  om_Namespace : string;
  om_UID : string;
  om_ResourceVersion : string;
  om_CreationTimestamp : Z;
  om_DeletionTimestamp : option Z;
  om_DeletionGracePeriodSeconds : option Z;
  om_Labels : gmap string string;
  om_Annotations : gmap string string;
  om_Finalizers : list string
}.

#[export] Instance ObjectMeta_eq_dec : EqDecision ObjectMeta.
Proof. solve_decision. Defined.

Definition om_set_ResourceVersion (v : string) (m : ObjectMeta) : ObjectMeta :=
  mkObjectMeta (om_Name m) (om_Namespace m) (om_UID m) v (om_CreationTimestamp m)
    (om_DeletionTimestamp m) (om_DeletionGracePeriodSeconds m) (om_Labels m)
    (om_Annotations m) (om_Finalizers m).
Definition om_set_CreationTimestamp (t : Z) (m : ObjectMeta) : ObjectMeta :=
  mkObjectMeta (om_Name m) (om_Namespace m) (om_UID m) (om_ResourceVersion m) t
    (om_DeletionTimestamp m) (om_DeletionGracePeriodSeconds m) (om_Labels m)
    (om_Annotations m) (om_Finalizers m).
Definition om_set_DeletionTimestamp (t : option Z) (m : ObjectMeta) : ObjectMeta :=
  mkObjectMeta (om_Name m) (om_Namespace m) (om_UID m) (om_ResourceVersion m)
    (om_CreationTimestamp m) t (om_DeletionGracePeriodSeconds m) (om_Labels m)
    (om_Annotations m) (om_Finalizers m).
Definition om_set_DeletionGracePeriodSeconds (t : option Z) (m : ObjectMeta) : ObjectMeta :=
  mkObjectMeta (om_Name m) (om_Namespace m) (om_UID m) (om_ResourceVersion m)
    (om_CreationTimestamp m) (om_DeletionTimestamp m) t (om_Labels m)
    (om_Annotations m) (om_Finalizers m).
Definition om_set_Labels (l : gmap string string) (m : ObjectMeta) : ObjectMeta :=
  mkObjectMeta (om_Name m) (om_Namespace m) (om_UID m) (om_ResourceVersion m)
    (om_CreationTimestamp m) (om_DeletionTimestamp m) (om_DeletionGracePeriodSeconds m) l
    (om_Annotations m) (om_Finalizers m).
Definition om_set_Annotations (l : gmap string string) (m : ObjectMeta) : ObjectMeta :=
  mkObjectMeta (om_Name m) (om_Namespace m) (om_UID m) (om_ResourceVersion m)
    (om_CreationTimestamp m) (om_DeletionTimestamp m) (om_DeletionGracePeriodSeconds m)
    (om_Labels m) l (om_Finalizers m).
Definition om_set_Finalizers (l : list string) (m : ObjectMeta) : ObjectMeta :=
  mkObjectMeta (om_Name m) (om_Namespace m) (om_UID m) (om_ResourceVersion m)
    (om_CreationTimestamp m) (om_DeletionTimestamp m) (om_DeletionGracePeriodSeconds m)
    (om_Labels m) (om_Annotations m) l.

(** Every API object is metadata, a spec and a status. *)
Record Object (S T : Type) := mkObject { om : ObjectMeta; Spec : S; Status : T }.
Arguments mkObject {S T}.
Arguments om {S T}.
Arguments Spec {S T}.
Arguments Status {S T}.

#[export] Instance Object_eq_dec {S T} `{EqDecision S, EqDecision T} : EqDecision (Object S T).
Proof. solve_decision. Defined.

Section ObjectSetters.
Context {S T : Type}.
Definition map_om (f : ObjectMeta -> ObjectMeta) (o : Object S T) : Object S T :=
  mkObject (f (om o)) (Spec o) (Status o).
Definition set_Spec (s : S) (o : Object S T) : Object S T := mkObject (om o) s (Status o).
Definition set_Status (t : T) (o : Object S T) : Object S T := mkObject (om o) (Spec o) t.
Definition DeletionTimestamp (o : Object S T) := om_DeletionTimestamp (om o).
Definition UID (o : Object S T) := om_UID (om o).
End ObjectSetters.

(** ** Keys: [cache.MetaNamespaceKeyFunc] of client-go, used by [util.Name] *)

Class ClientGo := {
  MetaNamespaceKeyFunc : string -> string -> string;
  (** documented: "The key uses the format <namespace>/<name> unless <namespace> is empty,
      then it's just <name>", and Kubernetes names contain no slash *)
}.

(** [cache.MetaNamespaceKeyFunc] following its documentation; witnesses compute with it. *)
#[export] Instance client_go_keys : ClientGo | 100 := {|
  MetaNamespaceKeyFunc := fun ns name =>
    if String.eqb ns "" then name else String.append ns (String.append "/" name)
|}.

Section Meta.
Context {CG : ClientGo} {S T : Type}.

Definition Name (o : Object S T) : string :=
  MetaNamespaceKeyFunc (om_Namespace (om o)) (om_Name (om o)).

Definition AddFinalizer (m : ObjectMeta) (finalizer : string) : ObjectMeta :=
  om_set_Finalizers
    (filter (fun v => v <> finalizer) (om_Finalizers m) ++ [finalizer]) m.

Definition RemoveFinalizer (m : ObjectMeta) (finalizer : string) : ObjectMeta :=
  om_set_Finalizers (filter (fun v => v <> finalizer) (om_Finalizers m)) m.

Definition MergeObjectMeta (fromMeta toMeta : ObjectMeta) : ObjectMeta :=
  let to1 := om_set_ResourceVersion (om_ResourceVersion fromMeta) toMeta in
  let to2 := om_set_Labels (om_Labels fromMeta) to1 in
  let to3 := om_set_Annotations (om_Annotations fromMeta) to2 in
  let to4 :=
    match om_DeletionTimestamp fromMeta, om_DeletionTimestamp to3 with
    | Some t, None => om_set_DeletionTimestamp (Some t) to3
    | _, _ => to3
    end in
  match om_DeletionGracePeriodSeconds fromMeta, om_DeletionGracePeriodSeconds to4 with
  | Some g, None => om_set_DeletionGracePeriodSeconds (Some g) to4
  | _, _ => to4
  end.

(** Both versions go through [Atoi] and its error is dropped. *)
Definition ResourceVersionLargerThan (newObj oldObj : Object S T) : bool :=
  Atoi_value (om_ResourceVersion (om oldObj)) <? Atoi_value (om_ResourceVersion (om newObj)).
End Meta.

Lemma Name_map_om {CG : ClientGo} {S T} f (o : Object S T) :
  om_Namespace (f (om o)) = om_Namespace (om o) -> om_Name (f (om o)) = om_Name (om o) ->
  Name (map_om f o) = Name o.
Proof. unfold Name. simpl. by intros -> ->. Qed.

Lemma AddFinalizer_spec m f x :
  x ∈ om_Finalizers (AddFinalizer m f) <-> x = f \/ x ∈ om_Finalizers m.
Proof.
  simpl. rewrite elem_of_app, list_elem_of_filter, list_elem_of_singleton.
  destruct (decide (x = f)); naive_solver.
Qed.

Lemma RemoveFinalizer_spec m f x :
  x ∈ om_Finalizers (RemoveFinalizer m f) <-> x <> f /\ x ∈ om_Finalizers m.
Proof. simpl. by rewrite list_elem_of_filter. Qed.

Lemma AddFinalizer_idemp m f : AddFinalizer (AddFinalizer m f) f = AddFinalizer m f.
Proof.
  unfold AddFinalizer, om_set_Finalizers. simpl. f_equal. f_equal.
  rewrite filter_app. rewrite list_filter_filter_l by done.
  rewrite filter_cons_False by naive_solver. by rewrite app_nil_r.
Qed.

(** ** Resource quantities: the interface of [resource.Quantity]

    A quantity denotes an exact number ([qval], in nano units); [Add], [Sub], [Cmp] and
    [Sign] are exact on that number; [AsInt64] and [ScaledValue] read it as an integer. *)
Class QuantityLib := {
  Quantity : Type;
  qval : Quantity -> Z;
  qzero : Quantity;
  NewQuantity : Z -> Quantity;
  qAdd : Quantity -> Quantity -> Quantity;
  qSub : Quantity -> Quantity -> Quantity;
  AsInt64 : Quantity -> Z;
  ScaledValue : Quantity -> Z -> Z;
  qval_zero : qval qzero = 0;
  qval_new : forall z, qval (NewQuantity z) = z * 10 ^ 9;
  qval_add : forall a b, qval (qAdd a b) = qval a + qval b;
  qval_sub : forall a b, qval (qSub a b) = qval a - qval b
}.

#[export] Instance quantity_Z : QuantityLib | 100.
Proof.
  refine {|
    Quantity := Z; qval := fun z => z; qzero := 0; NewQuantity := fun z => z * 10 ^ 9;
    qAdd := Z.add; qSub := Z.sub; AsInt64 := fun z => Z.quot z (10 ^ 9);
    ScaledValue := fun z scale => - (- z / 10 ^ (9 + scale))
  |}; done.
Defined.

Inductive ResourceName :=
  ResourceCPU | ResourceMemory | ResourceStorage | ResourceEphemeralStorage | ResourcePods.

#[export] Instance ResourceName_eq_dec : EqDecision ResourceName.
Proof. solve_decision. Defined.
#[export] Instance ResourceName_countable : Countable ResourceName.
Proof.
  refine (inj_countable'
    (fun r => match r with
       ResourceCPU => 0 | ResourceMemory => 1 | ResourceStorage => 2
       | ResourceEphemeralStorage => 3 | ResourcePods => 4 end)%nat
    (fun n => match n with
       0 => ResourceCPU | 1 => ResourceMemory | 2 => ResourceStorage
       | 3 => ResourceEphemeralStorage | _ => ResourcePods end)%nat _).
  by intros [].
Defined.

Section Quantity.
Context {QL : QuantityLib}.

Abbreviation ResourceList := (gmap ResourceName Quantity).

Definition qSign (q : Quantity) : Z := Z.sgn (qval q).
Definition qCmp (a b : Quantity) : Z :=
  match qval a ?= qval b with Lt => -1 | Eq => 0 | Gt => 1 end.

(** [rl.Cpu()], [rl.Memory()], ...: the entry, or a zero quantity. *)
Definition rl_get (rl : ResourceList) (n : ResourceName) : Quantity :=
  default qzero (rl !! n).

(** [util.ResourceQuantity]: the format argument only selects how the number prints. *)
Definition ResourceQuantity (quantity : Z) (resourceName : ResourceName) : Quantity :=
  NewQuantity quantity.

Lemma qSign_pos q : (0 <? qSign q) = (0 <? qval q).
Proof.
  unfold qSign. destruct (Z.ltb_spec 0 (qval q)).
  - rewrite Z.sgn_pos; lia.
  - apply Z.ltb_ge. by apply Z.sgn_nonpos.
Qed.
End Quantity.
Abbreviation ResourceList := (gmap ResourceName Quantity).

(** ** Pods ([k8s.io/api/core/v1], the fields in use) *)

Inductive PodPhase :=
  PodPhaseUnset | PodPending | PodRunning | PodSucceeded | PodFailed | PodUnknown.
#[export] Instance PodPhase_eq_dec : EqDecision PodPhase.
Proof. solve_decision. Defined.

Record ContainerPort := mkContainerPort {
  cp_Name : string; cp_HostPort : Z; cp_ContainerPort : Z; cp_Protocol : string; cp_HostIP : string
}.
#[export] Instance ContainerPort_eq_dec : EqDecision ContainerPort.
Proof. solve_decision. Defined.

Inductive EnvValue := EnvLiteral (v : string) | EnvFieldRef (apiVersion fieldPath : string).
#[export] Instance EnvValue_eq_dec : EqDecision EnvValue.
Proof. solve_decision. Defined.
Record EnvVar := mkEnvVar { ev_Name : string; ev_Value : EnvValue }.
#[export] Instance EnvVar_eq_dec : EqDecision EnvVar.
Proof. solve_decision. Defined.

(** Which probes and lifecycle handlers a container has; running them is up to the container
    runtime. *)
Record ContainerHooks := mkHooks {
  StartupProbe : bool;
  LivenessProbe : bool;
  ReadinessProbe : bool;
  PostStart : bool;
  PreStop : bool
}.
#[export] Instance ContainerHooks_eq_dec : EqDecision ContainerHooks.
Proof. solve_decision. Defined.
Definition no_hooks : ContainerHooks := mkHooks false false false false false.

Record Container {QL : QuantityLib} := mkContainer {
  c_Name : string;
  c_Image : string;
  c_Ports : list ContainerPort;
  c_Env : list EnvVar;
  c_Requests : ResourceList;
  c_Hooks : ContainerHooks
}.

Record PodSpec {QL : QuantityLib} := mkPodSpec {
  Containers : list Container;
  InitContainers : list Container;
  HostNetwork : bool
}.
Record PodStatus := mkPodStatus {
  Phase : PodPhase;
  HostIP : string;
  StartTime : option Z;
  ps_Message : string;
  ps_Reason : string
}.
#[export] Instance PodStatus_eq_dec : EqDecision PodStatus.
Proof. solve_decision. Defined.

Definition set_Phase (p : PodPhase) (s : PodStatus) : PodStatus :=
  mkPodStatus p (HostIP s) (StartTime s) (ps_Message s) (ps_Reason s).

Abbreviation Pod := (Object PodSpec PodStatus).

(** ** Labels and annotations ([pkg/apis/core/v1/label.go], [finalizer.go]) *)

Definition LabelFornaxCoreNode := "node.fornax-serverless.centaurusinfra.io"%string.
Definition LabelFornaxCorePod := "pod.fornax-serverless.centaurusinfra.io"%string.
Definition LabelFornaxCoreNodeDaemon := "daemon.fornax-serverless.centaurusinfra.io"%string.
Definition LabelFornaxCoreApplication :=
  "application.core.fornax-serverless.centaurusinfra.io"%string.
Definition LabelFornaxCoreApplicationSession :=
  "applicationsession.core.fornax-serverless.centaurusinfra.io"%string.
Definition LabelFornaxCoreSessionService :=
  "sessionservice.core.fornax-serverless.centaurusinfra.io"%string.
Definition AnnotationFornaxCoreHibernatePod :=
  "hibernatepod.core.fornax-serverless.centaurusinfra.io"%string.
Definition AnnotationFornaxCoreSessionServicePod :=
  "sessionservicepod.core.fornax-serverless.centaurusinfra.io"%string.
Definition FinalizerApplicationPod := "pod.core.fornax-serverless.centaurusinfra.io"%string.
Definition FinalizerOpenSession :=
  "opensession.core.fornax-serverless.centaurusinfra.io"%string.
Definition ApplicationGrvKey := "/core.fornax-serverless.centaurusinfra.io/applications"%string.
Definition ApplicationSessionGrvKey :=
  "/core.fornax-serverless.centaurusinfra.io/applicationsessions"%string.

(** ** [pkg/util/pod.go] *)

Section PodUtil.
Context {CG : ClientGo} {QL : QuantityLib}.

Definition PodIsRunning (pod : Pod) : bool := bool_decide (Phase (Status pod) = PodRunning).
Definition PodIsPending (pod : Pod) : bool := bool_decide (Phase (Status pod) = PodPending).
Definition PodIsTerminated (pod : Pod) : bool :=
  bool_decide (Phase (Status pod) = PodSucceeded) || bool_decide (Phase (Status pod) = PodFailed).
Definition PodNotTerminated (pod : Pod) : bool := negb (PodIsTerminated pod).

Definition PodInGracePeriod (now : Z) (pod : Pod) : bool :=
  match om_DeletionGracePeriodSeconds (om pod), DeletionTimestamp pod with
  | Some graceSeconds, Some deleteTimeStamp =>
    now <? deleteTimeStamp + graceSeconds * 10 ^ 9
  | _, _ => false
  end.
Definition PodNotInGracePeriod (now : Z) (pod : Pod) : bool := negb (PodInGracePeriod now pod).

Definition PodHasSession (pod : Pod) : string * bool :=
  match om_Labels (om pod) !! LabelFornaxCoreApplicationSession with
  | Some label => (label, true)
  | None => (EmptyString, false)
  end.
Definition PodHasHibernateAnnotation (pod : Pod) : bool :=
  bool_decide (is_Some (om_Annotations (om pod) !! AnnotationFornaxCoreHibernatePod)).
Definition PodHasSessionServiceAnnotation (pod : Pod) : bool :=
  bool_decide (is_Some (om_Annotations (om pod) !! AnnotationFornaxCoreSessionServicePod)).
Definition GetPodSessionNames (pod : Pod) : list string :=
  match om_Labels (om pod) !! LabelFornaxCoreApplicationSession with
  | Some label => Split label ","
  | None => []
  end.

(** One container's requests added to the running list.  The ephemeral-storage branch reads
    the accumulator under one name and writes it under another, as the source does. *)
Definition add_container_request (rl : ResourceList) (v : Container) : ResourceList :=
  let step (rl : ResourceList) (req readAs writeAs : ResourceName) : ResourceList :=
    if 0 <? qSign (rl_get (c_Requests v) req)
    then <[ writeAs := qAdd (rl_get rl readAs) (rl_get (c_Requests v) req) ]> rl
    else rl in
  let rl := step rl ResourceCPU ResourceCPU ResourceCPU in
  let rl := step rl ResourceMemory ResourceMemory ResourceMemory in
  let rl := step rl ResourceEphemeralStorage ResourceEphemeralStorage ResourceStorage in
  let rl := step rl ResourceStorage ResourceStorage ResourceStorage in
  step rl ResourcePods ResourcePods ResourcePods.

Definition GetPodResourceList (v1pod : Pod) : ResourceList :=
  foldl add_container_request ∅ (Containers (Spec v1pod)).

(** [MergePod]: the status and spec reported by the node replace the cached ones; a pod
    reported as terminated gets a deletion timestamp. *)
Definition MergePod (now : Z) (fromPod toPod : Pod) : Pod :=
  let m := MergeObjectMeta (om fromPod) (om toPod) in
  let m :=
    if PodIsTerminated fromPod then
      match om_DeletionTimestamp m with
      | Some _ => m
      | None =>
        match DeletionTimestamp fromPod with
        | Some t => om_set_DeletionTimestamp (Some t) m
        | None => om_set_DeletionTimestamp (Some now) m
        end
      end
    else m in
  mkObject m (Spec fromPod) (Status fromPod).

Lemma PodNotTerminated_running pod : PodIsRunning pod = true -> PodNotTerminated pod = true.
Proof.
  unfold PodIsRunning, PodNotTerminated, PodIsTerminated.
  by destruct (Phase (Status pod)).
Qed.

Lemma MergePod_Name now fromPod toPod : Name (MergePod now fromPod toPod) = Name toPod.
Proof.
  unfold Name, MergePod, MergeObjectMeta. simpl.
  repeat case_match; simplify_eq/=; done.
Qed.

(** A merge never clears a deletion timestamp: the request to delete a pod is sticky. *)
Lemma MergePod_deletion_sticky now fromPod toPod t :
  DeletionTimestamp toPod = Some t ->
  DeletionTimestamp (MergePod now fromPod toPod) = Some t.
Proof.
  unfold DeletionTimestamp, MergePod, MergeObjectMeta. simpl. intros Ht.
  repeat (case_match; simplify_eq/=); congruence.
Qed.
End PodUtil.

(** ** Sessions ([applicationsession_types.go]) *)

Inductive SessionStatusT :=
  | SessionStatusUnspecified | SessionStatusPending | SessionStatusStarting
  | SessionStatusAvailable | SessionStatusInUse | SessionStatusClosing
  | SessionStatusClosed | SessionStatusTimeout.
#[export] Instance SessionStatusT_eq_dec : EqDecision SessionStatusT.
Proof. solve_decision. Defined.

Record AccessEndPoint := mkAccessEndPoint {
  ae_Protocol : string; ae_IPAddress : string; ae_Port : Z
}.
#[export] Instance AccessEndPoint_eq_dec : EqDecision AccessEndPoint.
Proof. solve_decision. Defined.

Record ApplicationSessionSpec := mkSessionSpec {
  ApplicationName : string;
  SessionData : string;
  KillInstanceWhenSessionClosed : bool;
  CloseGracePeriodSeconds : option Z;
  OpenTimeoutSeconds : Z
}.
#[export] Instance ApplicationSessionSpec_eq_dec : EqDecision ApplicationSessionSpec.
Proof. solve_decision. Defined.

Record ApplicationSessionStatus := mkSessionStatus {
  PodReference : option string;
  AccessEndPoints : list AccessEndPoint;
  SessionStatus : SessionStatusT;
  ClientSessions : list string;
  AvailableTime : option Z;
  CloseTime : option Z;
  AvailableTimeMicro : Z
}.
#[export] Instance ApplicationSessionStatus_eq_dec : EqDecision ApplicationSessionStatus.
Proof. solve_decision. Defined.

Definition set_SessionStatus (v : SessionStatusT) (s : ApplicationSessionStatus) :=
  mkSessionStatus (PodReference s) (AccessEndPoints s) v (ClientSessions s) (AvailableTime s)
    (CloseTime s) (AvailableTimeMicro s).
Definition set_PodReference (v : option string) (s : ApplicationSessionStatus) :=
  mkSessionStatus v (AccessEndPoints s) (SessionStatus s) (ClientSessions s) (AvailableTime s)
    (CloseTime s) (AvailableTimeMicro s).
Definition set_AccessEndPoints (v : list AccessEndPoint) (s : ApplicationSessionStatus) :=
  mkSessionStatus (PodReference s) v (SessionStatus s) (ClientSessions s) (AvailableTime s)
    (CloseTime s) (AvailableTimeMicro s).
Definition set_ClientSessions (v : list string) (s : ApplicationSessionStatus) :=
  mkSessionStatus (PodReference s) (AccessEndPoints s) (SessionStatus s) v (AvailableTime s)
    (CloseTime s) (AvailableTimeMicro s).
Definition set_Available (t : option Z) (micro : Z) (s : ApplicationSessionStatus) :=
  mkSessionStatus (PodReference s) (AccessEndPoints s) (SessionStatus s) (ClientSessions s) t
    (CloseTime s) micro.
Definition set_CloseTime (t : option Z) (s : ApplicationSessionStatus) :=
  mkSessionStatus (PodReference s) (AccessEndPoints s) (SessionStatus s) (ClientSessions s)
    (AvailableTime s) t (AvailableTimeMicro s).

Abbreviation ApplicationSession := (Object ApplicationSessionSpec ApplicationSessionStatus).

(** ** [pkg/util/application.go]: session predicates *)

Section SessionUtil.
Implicit Types session : ApplicationSession.

Definition SessionIsOpen session : bool :=
  bool_decide (SessionStatus (Status session) <> SessionStatusUnspecified) &&
  bool_decide (SessionStatus (Status session) <> SessionStatusPending) &&
  bool_decide (SessionStatus (Status session) <> SessionStatusClosed) &&
  bool_decide (SessionStatus (Status session) <> SessionStatusTimeout).
Definition SessionIsClosed session : bool :=
  bool_decide (SessionStatus (Status session) = SessionStatusClosed).
Definition SessionIsClosing session : bool :=
  bool_decide (SessionStatus (Status session) = SessionStatusClosing).
Definition SessionIsPending session : bool :=
  bool_decide (DeletionTimestamp session = None) &&
  (bool_decide (SessionStatus (Status session) = SessionStatusPending) ||
   bool_decide (SessionStatus (Status session) = SessionStatusUnspecified)).
Definition SessionIsStarting session : bool :=
  bool_decide (SessionStatus (Status session) = SessionStatusStarting).
Definition SessionInTerminalState session : bool :=
  bool_decide (SessionStatus (Status session) = SessionStatusClosed) ||
  bool_decide (SessionStatus (Status session) = SessionStatusTimeout).

Definition DefaultApplicationSesionDeleteGracePeriodSeconds : Z := 5.
Definition SessionInGracePeriod (now : Z) session : bool :=
  let gracefulseconds :=
    default DefaultApplicationSesionDeleteGracePeriodSeconds
      (om_DeletionGracePeriodSeconds (om session)) in
  match DeletionTimestamp session with
  | Some t => now - gracefulseconds * 10 ^ 9 <? t
  | None => false
  end.
End SessionUtil.

(** ** Applications ([application_types.go]) *)

Inductive ScalingPolicyTypeT :=
  | ScalingPolicyTypeUnset | ScalingPolicyTypeIdleSessionPercent | ScalingPolicyTypeIdleSessionNum.
#[export] Instance ScalingPolicyTypeT_eq_dec : EqDecision ScalingPolicyTypeT.
Proof. solve_decision. Defined.

Record WaterMarks := mkWaterMarks { HighWaterMark : Z; LowWaterMark : Z }.
#[export] Instance WaterMarks_eq_dec : EqDecision WaterMarks.
Proof. solve_decision. Defined.

Record ScalingPolicyR := mkScalingPolicy {
  MinimumInstance : Z;
  MaximumInstance : Z;
  Burst : Z;
  ScalingPolicyType : ScalingPolicyTypeT;
  IdleSessionNumThreshold : option WaterMarks;
  IdleSessionPercentThreshold : option WaterMarks
}.
#[export] Instance ScalingPolicyR_eq_dec : EqDecision ScalingPolicyR.
Proof. solve_decision. Defined.

Record ApplicationSpec {QL : QuantityLib} := mkApplicationSpec {
  as_Containers : list Container;
  UsingNodeSessionService : bool;
  ConfigData : gmap string string;
  ScalingPolicy : ScalingPolicyR
}.

Record ApplicationStatus := mkApplicationStatus {
  DesiredInstances : Z;
  TotalInstances : Z;
  PendingInstances : Z;
  DeletingInstances : Z;
  AllocatedInstances : Z;
  IdleInstances : Z
}.
#[export] Instance ApplicationStatus_eq_dec : EqDecision ApplicationStatus.
Proof. solve_decision. Defined.

Abbreviation Application := (Object ApplicationSpec ApplicationStatus).

Inductive DeploymentAction :=
  DeploymentActionNone | DeploymentActionCreateInstance | DeploymentActionDeleteInstance.

Section ApplicationUtil.
Context {QL : QuantityLib}.

Definition DefaultApplicationPodBurst : Z := 2.
Definition ApplicationScalingBurst (app : Application) : Z :=
  let b := Burst (ScalingPolicy (Spec app)) in
  if b =? 0 then DefaultApplicationPodBurst else b.

(** *** Validation *)
Inductive FieldErrorType := ErrorTypeRequired | ErrorTypeInvalid | ErrorTypeNotFound.
Record FieldError := mkFieldError { fe_Type : FieldErrorType; fe_Field : string }.

Definition check (b : bool) (t : FieldErrorType) (f : string) : list FieldError :=
  if b then [mkFieldError t f] else [].

Definition marks_inverted (w : option WaterMarks) : bool :=
  match w with Some w => HighWaterMark w <? LowWaterMark w | None => false end.

Definition Application_Validate (app : Application) : list FieldError :=
  let sp := ScalingPolicy (Spec app) in
  check (bool_decide (as_Containers (Spec app) = [])) ErrorTypeRequired "Spec.Containers" ++
  check (MaximumInstance sp =? 0) ErrorTypeInvalid "Spec.ScalingPolicy.MaximumInstance" ++
  check (MaximumInstance sp <? MinimumInstance sp) ErrorTypeInvalid
    "Spec.ScalingPolicy.MaximumInstance" ++
  check (bool_decide (ScalingPolicyType sp = ScalingPolicyTypeIdleSessionNum) &&
         bool_decide (IdleSessionNumThreshold sp = None))
    ErrorTypeNotFound "Spec.IdleSessionNumThreshold" ++
  check (bool_decide (ScalingPolicyType sp = ScalingPolicyTypeIdleSessionPercent) &&
         bool_decide (IdleSessionPercentThreshold sp = None))
    ErrorTypeNotFound "Spec.IdleSessionPercentThreshold" ++
  check (marks_inverted (IdleSessionPercentThreshold sp)) ErrorTypeInvalid
    "Spec.IdleSessionPercentThreshold" ++
  check (match IdleSessionPercentThreshold sp with
         | Some w => 100 <? HighWaterMark w | None => false end)
    ErrorTypeInvalid "Spec.IdleSessionPercentThreshold" ++
  check (marks_inverted (IdleSessionNumThreshold sp)) ErrorTypeInvalid
    "Spec.IdleSessionNumThreshold".

Definition ApplicationSession_Validate (s : ApplicationSession) : list FieldError :=
  check (String.eqb (ApplicationName (Spec s)) EmptyString) ErrorTypeRequired
    "Spec.ApplicationName" ++
  check (String.eqb (SessionData (Spec s)) EmptyString) ErrorTypeRequired "Spec.SessionData".

Lemma check_nil b t f : check b t f = [] <-> b = false.
Proof. by destruct b. Qed.

(** The scaling policies an accepted application can carry. *)
Record ValidPolicy (sp : ScalingPolicyR) : Prop := {
  vp_max : MaximumInstance sp <> 0;
  vp_min_max : MinimumInstance sp <= MaximumInstance sp;
  vp_num : ScalingPolicyType sp = ScalingPolicyTypeIdleSessionNum ->
    exists w, IdleSessionNumThreshold sp = Some w;
  vp_pct : ScalingPolicyType sp = ScalingPolicyTypeIdleSessionPercent ->
    exists w, IdleSessionPercentThreshold sp = Some w;
  vp_num_marks : forall w, IdleSessionNumThreshold sp = Some w ->
    LowWaterMark w <= HighWaterMark w;
  vp_pct_marks : forall w, IdleSessionPercentThreshold sp = Some w ->
    LowWaterMark w <= HighWaterMark w <= 100
}.

Lemma not_None_ex {A} (o : option A) : o <> None -> exists a, o = Some a.
Proof. destruct o; [eauto|done]. Qed.

Lemma Application_Validate_sound app :
  Application_Validate app = [] ->
  as_Containers (Spec app) <> [] /\ ValidPolicy (ScalingPolicy (Spec app)).
Proof.
  unfold Application_Validate.
  rewrite !app_nil, !check_nil, !andb_false_iff, !bool_decide_eq_false.
  intros (Hc & Hmax & Hmm & Hnum & Hpct & Hpm & Hp100 & Hnm).
  split; [done|]. split; [lia|lia| | | |].
  - intros Ht. apply not_None_ex. tauto.
  - intros Ht. apply not_None_ex. tauto.
  - intros w Hw. rewrite Hw in Hnm. simpl in Hnm. lia.
  - intros w Hw. rewrite Hw in Hpm, Hp100. simpl in *. lia.
Qed.
End ApplicationUtil.

(** ** Nodes ([pkg/util/node.go]) *)

Inductive NodePhase := NodePhaseUnset | NodePending | NodeRunning | NodeTerminated.
#[export] Instance NodePhase_eq_dec : EqDecision NodePhase.
Proof. solve_decision. Defined.
Inductive NodeConditionType := NodeReady | NodeOtherCondition (n : string).
#[export] Instance NodeConditionType_eq_dec : EqDecision NodeConditionType.
Proof. solve_decision. Defined.
Inductive ConditionStatus := ConditionTrue | ConditionFalse | ConditionUnknown.
#[export] Instance ConditionStatus_eq_dec : EqDecision ConditionStatus.
Proof. solve_decision. Defined.

Record NodeSpec := mkNodeSpec { PodCIDR : string; PodCIDRs : list string }.
#[export] Instance NodeSpec_eq_dec : EqDecision NodeSpec.
Proof. solve_decision. Defined.
Record NodeStatus {QL : QuantityLib} := mkNodeStatus {
  ns_Phase : NodePhase;
  Conditions : list (NodeConditionType * ConditionStatus);
  Allocatable : ResourceList
}.
Abbreviation Node := (Object NodeSpec NodeStatus).

Section NodeUtil.
Context {QL : QuantityLib}.

Definition MergeNodeStatus (oldcopy newnode : Node) : Node := set_Status (Status newnode) oldcopy.

Definition IsNodeCondtionReady (v1node : Node) : bool :=
  existsb (fun v => bool_decide (v.1 = NodeReady) && bool_decide (v.2 = ConditionTrue))
    (Conditions (Status v1node)).

Definition IsNodeRunning (v1node : Node) : bool :=
  bool_decide (ns_Phase (Status v1node) = NodeRunning).
End NodeUtil.

(** ** Theorems on the helpers *)

(** [SessionIsOpen] holds of four of the eight statuses, [Starting] and [Closing] among them:
    any test for those two that comes after a test for "open" cannot succeed. *)
Lemma SessionIsOpen_statuses (s : ApplicationSession) :
  SessionIsOpen s = bool_decide (SessionStatus (Status s) ∈
    [SessionStatusStarting; SessionStatusAvailable; SessionStatusInUse; SessionStatusClosing]).
Proof. unfold SessionIsOpen. by destruct (SessionStatus (Status s)). Qed.

Section ResourceSums.
Context {QL : QuantityLib}.

(** What a container asks for under a name, negative requests counting for nothing. *)
Definition requested (n : ResourceName) (v : Container) : Z :=
  Z.max 0 (qval (rl_get (c_Requests v) n)).

Lemma qval_rl_insert (rl : ResourceList) n m q :
  qval (rl_get (<[n := q]> rl) m) = if decide (n = m) then qval q else qval (rl_get rl m).
Proof.
  unfold rl_get. rewrite lookup_insert. by case_decide.
Qed.

Lemma add_container_request_sum rl v n :
  n = ResourceCPU \/ n = ResourceMemory \/ n = ResourcePods ->
  qval (rl_get (add_container_request rl v) n) = qval (rl_get rl n) + requested n v.
Proof.
  intros Hn. unfold add_container_request, requested. rewrite !qSign_pos.
  destruct Hn as [->|[->| ->]];
  repeat match goal with
    | |- context [(0 <? ?q)] => destruct (Z.ltb_spec 0 q)
    | |- context [decide (?a = ?b)] =>
      first [rewrite (decide_True (P := a = b)) by done
            |rewrite (decide_False (P := a = b)) by done]
    | _ => rewrite qval_rl_insert
    | _ => rewrite qval_add
    end; lia.
Qed.

Lemma add_container_requests_sum l rl n :
  n = ResourceCPU \/ n = ResourceMemory \/ n = ResourcePods ->
  qval (rl_get (foldl add_container_request rl l) n) =
  qval (rl_get rl n) + foldr Z.add 0 (requested n <$> l).
Proof.
  intros Hn. revert rl. induction l as [|v l IH]; intros rl; csimpl; [lia|].
  rewrite IH, add_container_request_sum by done. lia.
Qed.

Lemma GetPodResourceList_sum (pod : Pod) n :
  n = ResourceCPU \/ n = ResourceMemory \/ n = ResourcePods ->
  qval (rl_get (GetPodResourceList pod) n) =
  foldr Z.add 0 (requested n <$> Containers (Spec pod)).
Proof.
  intros Hn. unfold GetPodResourceList. rewrite add_container_requests_sum by done.
  unfold rl_get at 1. rewrite lookup_empty. simpl. by rewrite qval_zero.
Qed.

Lemma requested_sum_nonneg n l : 0 <= foldr Z.add 0 (requested n <$> l).
Proof. induction l as [|v l IH]; csimpl; [lia|]. unfold requested at 1. lia. Qed.
End ResourceSums.
