(* ===== verification/Interfaces.v ===== *)
(** * Interfaces between the managers

    [nodeagent.NodeAgentClient] ([pkg/fornaxcore/grpc/nodeagent]): the commands the control plane
    sends to the agent of a node, over the state [W] of the network.  The pod objects that the pod
    manager and the pod scheduler share are cells of a heap. *)

From S2P Require Import Prelude GoStrings ApiTypes.
From Stdlib Require Import String.
#[local] Open Scope Z_scope.

Class NodeAgentClient {QL : QuantityLib} (W : Type) := {
  na_CreatePod : string -> Pod -> SM W unit;
  na_TerminatePod : string -> Pod -> SM W unit;
  na_HibernatePod : string -> Pod -> SM W unit;
  na_OpenSession : string -> Pod -> ApplicationSession -> SM W unit;
  na_CloseSession : string -> Pod -> ApplicationSession -> SM W unit
}.

(** A [*v1.Pod]: the object's address, and its name, which never changes. *)
Record PodRef := mkPodRef { ref_ptr : nat; ref_name : string }.
#[export] Instance PodRef_eq_dec : EqDecision PodRef.
Proof. solve_decision. Defined.
#[export] Instance PodRef_inhabited : Inhabited PodRef := populate (mkPodRef 0 "").
Abbreviation PodHeap := (gmap nat Pod).

(** [podscheduler.PodScheduler]: a pod is queued by reference and removed by name. *)
Class PodSchedulerI (W : Type) := {
  sched_AddPod : PodRef -> Z -> W -> W;
  sched_RemovePod : string -> W -> W
}.

#[export] Hint Mode PodSchedulerI ! : typeclass_instances.

Inductive PodEventType :=
  PodEventTypeCreate | PodEventTypeUpdate | PodEventTypeDelete | PodEventTypeTerminate.
#[export] Instance PodEventType_eq_dec : EqDecision PodEventType.
Proof. solve_decision. Defined.
Record PodEvent {QL : QuantityLib} := mkPodEvent { pe_NodeId : string; pe_Pod : Pod; pe_Type : PodEventType }.

Inductive NodeEventType := NodeEventTypeCreate | NodeEventTypeUpdate | NodeEventTypeDelete.
#[export] Instance NodeEventType_eq_dec : EqDecision NodeEventType.
Proof. solve_decision. Defined.
