(* ===== verification/ObjectVersion.v ===== *)
(** * Resource versions, continue tokens and update functions of the object store

    [pkg/store/k8s_api_object_versioner.go] and [pkg/store/k8s_util.go].  Every stored object
    carries its revision as a decimal string; the store compares revisions as [uint64].

    The continue token of a paged list is a JSON record in base64; that encoding is an interface
    ([TokenCodec]) whose single law is the round trip.  [path.Clean] is modelled on the rooted
    paths it is called with. *)

From S2P Require Import Prelude GoStrings ApiTypes.
From Stdlib Require Import String.
Open Scope Z_scope.

(** ** Resource versions *)

Section ObjectVersion.
Context {S T : Type}.
Implicit Types obj : Object S T.

Definition SetObjectResourceVersion obj (resourceVersion : Z) : Object S T :=
  let versionString := if resourceVersion =? 0 then EmptyString else FormatUint resourceVersion in
  map_om (om_set_ResourceVersion versionString) obj.

Definition PrepareObjectForStorage obj : Object S T := map_om (om_set_ResourceVersion "") obj.

(** The value [strconv.ParseUint] returns next to its error. *)
Definition ParseUint_value (s : string) : Z :=
  match ParseUint s with inl n => n | inr ErrRange => MaxUint64 | inr ErrSyntax => 0 end.

Definition GetObjectResourceVersion obj : result Z :=
  let version := om_ResourceVersion (om obj) in
  if String.eqb version EmptyString then Ok 0
  else match ParseUint version with inl n => Ok n | inr _ => Err (OtherError "strconv.ParseUint") end.

(** [rv, _ := GetObjectResourceVersion(obj)]: callers that drop the error see this value. *)
Definition ObjectRV obj : Z :=
  let version := om_ResourceVersion (om obj) in
  if String.eqb version EmptyString then 0 else ParseUint_value version.

Definition ParseResourceVersion (resourceVersion : string) : result Z :=
  if String.eqb resourceVersion "" || String.eqb resourceVersion "0" then Ok 0
  else match ParseUint resourceVersion with inl n => Ok n | inr _ => Err InvalidError end.

(** [None] is the panic on an unparsable version. *)
Definition CompareResourceVersion (lhs rhs : Object S T) : option Z :=
  match GetObjectResourceVersion lhs, GetObjectResourceVersion rhs with
  | Ok lhsVersion, Ok rhsVersion =>
    Some (if lhsVersion =? rhsVersion then 0 else if lhsVersion <? rhsVersion then -1 else 1)
  | _, _ => None
  end.

Definition ValidateMinimumResourceVersion (minimumResourceVersion : string) (actualRevision : Z) :
    result unit :=
  if String.eqb minimumResourceVersion "" then Ok ()
  else match ParseResourceVersion minimumResourceVersion with
       | Err _ => Err BadRequestError
       | Ok minimumRV =>
         if actualRevision <? minimumRV then Err TooLargeResourceVersionError else Ok ()
       end.

(** ** [k8s_util.go] *)

(** The metadata [UpdateList] writes into a list object. *)
Record ListMeta := mkListMeta {
  lm_ResourceVersion : string; lm_Continue : string; lm_RemainingItemCount : option Z
}.

Definition UpdateList (resourceVersion : Z) (nextKey : string) (count : option Z) : result ListMeta :=
  if resourceVersion =? 0 then Err (OtherError "illegal resource version from storage")
  else Ok (mkListMeta (FormatUint resourceVersion) nextKey count).

(** [apistorage.SelectionPredicate]: label and field selectors, a page limit and a token.
    [Matches] may fail, which is [None]. *)
Record SelectionPredicate := mkPredicate {
  pred_Matches : Object S T -> option bool;
  pred_Empty : bool;
  pred_Limit : Z;
  pred_Continue : string
}.

Definition AppendListItem (v : list (Object S T)) obj (rev : Z) (pred : SelectionPredicate) :
    list (Object S T) :=
  let obj := SetObjectResourceVersion obj rev in
  match pred_Matches pred obj with Some true => v ++ [obj] | _ => v end.

(** [apistorage.UpdateFunc], without the time to live no caller uses. *)
Definition UpdateFunc : Type := Object S T -> Z -> result (Object S T).

Definition UpdateState (existintObj : Object S T) (userUpdate : UpdateFunc) : result (Object S T) :=
  match GetObjectResourceVersion existintObj with
  | Err _ => Err (OtherError "couldn't get resource version")
  | Ok rv =>
    let? ret := userUpdate existintObj rv in
    Ok (PrepareObjectForStorage ret)
  end.

Definition HasDeletionTimestamp obj : bool := bool_decide (is_Some (DeletionTimestamp obj)).

Definition ShouldDeleteSpec obj : bool :=
  match om_Finalizers (om obj), DeletionTimestamp obj with
  | [], Some _ =>
    match om_DeletionGracePeriodSeconds (om obj) with None => true | Some g => g =? 0 end
  | _, _ => false
  end.

Definition GetTryUpdateFunc (updating : Object S T) : UpdateFunc := fun existing _ =>
  let? existingVersion := GetObjectResourceVersion existing in
  if existingVersion =? ObjectRV updating then Ok updating
  else Err (OtherError "object is already updated to a newer version, get it and update again").

(** *** Laws *)

Lemma SetGet_ResourceVersion obj rev :
  0 <= rev <= MaxUint64 -> GetObjectResourceVersion (SetObjectResourceVersion obj rev) = Ok rev.
Proof.
  intros Hr. unfold GetObjectResourceVersion, SetObjectResourceVersion. simpl.
  destruct (Z.eqb_spec rev 0) as [->|Hne]; [done|].
  destruct (String.eqb_spec (FormatUint rev) EmptyString) as [He|_].
  { by apply FormatUint_not_empty in He. }
  by rewrite ParseUint_FormatUint.
Qed.

Lemma GetObjectResourceVersion_value obj rv :
  GetObjectResourceVersion obj = Ok rv -> ObjectRV obj = rv.
Proof.
  unfold GetObjectResourceVersion, ObjectRV, ParseUint_value.
  destruct (String.eqb _ _); [congruence|]. destruct (ParseUint _); congruence.
Qed.

Lemma ObjectRV_Set obj rev :
  0 <= rev <= MaxUint64 -> ObjectRV (SetObjectResourceVersion obj rev) = rev.
Proof. intros. by apply GetObjectResourceVersion_value, SetGet_ResourceVersion. Qed.

Lemma SetObjectResourceVersion_idemp obj r1 r2 :
  SetObjectResourceVersion (SetObjectResourceVersion obj r1) r2 = SetObjectResourceVersion obj r2.
Proof. done. Qed.

Lemma CompareResourceVersion_refl obj rv :
  GetObjectResourceVersion obj = Ok rv -> CompareResourceVersion obj obj = Some 0.
Proof. unfold CompareResourceVersion. intros ->. by rewrite Z.eqb_refl. Qed.

(** A conditional update succeeds exactly on the version it was computed from. *)
Lemma GetTryUpdateFunc_Ok updating existing rv meta o :
  GetObjectResourceVersion existing = Ok rv ->
  GetTryUpdateFunc updating existing meta = Ok o <-> ObjectRV updating = rv /\ o = updating.
Proof.
  unfold GetTryUpdateFunc. intros ->. simpl.
  destruct (Z.eqb_spec rv (ObjectRV updating)) as [->|Hne]; naive_solver.
Qed.
End ObjectVersion.
Arguments SelectionPredicate : clear implicits.
Arguments UpdateFunc : clear implicits.
#[global] Opaque FormatUint.

(** ** Continue tokens *)

Record continueToken := mkContinueToken {
  ct_APIVersion : string; ct_ResourceVersion : Z; ct_StartKey : string
}.

(** [json.Marshal] of a token followed by [base64.RawURLEncoding], and back. *)
Class TokenCodec := {
  token_encode : continueToken -> string;
  token_decode : string -> result continueToken;
  token_round_trip : forall c, token_decode (token_encode c) = Ok c
}.

(** [path.Clean] of a rooted path: empty and ["."] components disappear, [".."] removes the
    component before it (and nothing at the root). *)
Fixpoint clean_components (acc : list string) (l : list string) : list string :=
  match l with
  | [] => rev acc
  | c :: l =>
    if String.eqb c "" || String.eqb c "." then clean_components acc l
    else if String.eqb c ".." then clean_components (tail acc) l
    else clean_components (c :: acc) l
  end.

Definition path_Clean (p : string) : string :=
  String.append "/" (Join (clean_components [] (Split p "/")) "/").

Section Continue.
Context {TC : TokenCodec}.

Definition DecodeContinue (continueValue keyPrefix : string) : result (string * Z) :=
  match token_decode continueValue with
  | Err _ => Err (OtherError "continue key is not valid")
  | Ok c =>
    if String.eqb (ct_APIVersion c) "meta.k8s.io/v1" then
      if ct_ResourceVersion c =? 0 then Err (OtherError "incorrect encoded start resourceVersion")
      else if String.eqb (ct_StartKey c) "" then Err (OtherError "encoded start key empty")
      else
        let key := ct_StartKey c in
        let key := if HasPrefix key "/" then key else String.append "/" key in
        let cleaned := path_Clean key in
        if String.eqb cleaned key
        then Ok (String.append keyPrefix
                   (String.substring 1 (String.length cleaned - 1) cleaned), ct_ResourceVersion c)
        else Err (OtherError "continue key is not valid")
    else Err (OtherError "server does not recognize this encoded version")
  end.

Definition EncodeContinue (key keyPrefix : string) (resourceVersion : Z) : result string :=
  let nextKey := TrimPrefix key keyPrefix in
  if String.eqb nextKey key
  then Err (OtherError "unable to encode next field: the key and key prefix do not match")
  else Ok (token_encode (mkContinueToken "meta.k8s.io/v1" (i64 resourceVersion) nextKey)).

(** A path component [path.Clean] leaves alone. *)
Definition proper_component (c : string) : bool :=
  negb (String.eqb c "" || String.eqb c "." || String.eqb c "..").

Lemma clean_components_proper l acc :
  Forall (fun c => proper_component c = true) l -> clean_components acc l = rev acc ++ l.
Proof.
  revert acc. induction l as [|c l IH]; intros acc; simpl; [by rewrite app_nil_r|].
  intros [Hc Hl]%Forall_cons. unfold proper_component in Hc.
  apply negb_true_iff, orb_false_iff in Hc as [-> ->].
  rewrite IH by done. simpl. by rewrite <- app_assoc.
Qed.

Lemma path_Clean_proper k :
  Forall (fun c => proper_component c = true) (Split k "/") ->
  path_Clean (String.append "/" k) = String.append "/" k.
Proof.
  intros Hk. unfold path_Clean.
  change (Split (String.append "/" k) "/") with (EmptyString :: Split k "/").
  change (clean_components [] (EmptyString :: ?l)) with (clean_components [] l).
  rewrite clean_components_proper by done. cbn [rev app]. by rewrite Join_Split.
Qed.

Lemma proper_not_rooted k :
  Forall (fun c => proper_component c = true) (Split k "/") -> HasPrefix k "/" = false /\ k <> "".
Proof.
  destruct k as [|a k]; [by intros [? _]%Forall_cons|]. cbn [Split]. unfold HasPrefix.
  destruct (Ascii.eqb_spec a "/") as [->|Hne]; [by intros [? _]%Forall_cons|].
  intros _. split; [|done]. cbn [String.prefix]. by destruct (ascii_dec "/" a).
Qed.

(** Cleaning leaves proper components only, and every one of them was in the path or kept so far. *)
Lemma clean_components_Forall (Q : string -> Prop) acc l :
  Forall Q acc -> Forall Q l -> Forall (fun c => proper_component c = true) acc ->
  Forall Q (clean_components acc l) /\
  Forall (fun c => proper_component c = true) (clean_components acc l).
Proof.
  revert acc. induction l as [|c l IH]; intros acc Ha Hl Hp; simpl.
  { split; by apply Forall_rev. }
  apply Forall_cons in Hl as [Hc Hl].
  destruct (String.eqb c "" || String.eqb c ".") eqn:E1; [by apply IH|].
  destruct (String.eqb c "..") eqn:E2; [by apply IH; [apply Forall_tail| |apply Forall_tail]|].
  apply IH; [by constructor|done|constructor; [|done]].
  unfold proper_component. by rewrite E1, E2.
Qed.

Lemma path_Clean_components p :
  exists k, path_Clean p = String.append "/" k /\
    (k = EmptyString \/ Forall (fun c => proper_component c = true) (Split k "/")).
Proof.
  eexists. split; [done|].
  destruct (clean_components_Forall (fun c => has_char c "/" = false) [] (Split p "/"))
    as [Hns Hp]; [done|apply Split_no_sep|done|].
  destruct (clean_components [] (Split p "/")) as [|c l] eqn:E; [by left|].
  right. by rewrite Split_Join.
Qed.

Lemma DecodeContinue_prefix v keyPrefix key rv :
  DecodeContinue v keyPrefix = Ok (key, rv) ->
  rv <> 0 /\ exists k, key = String.append keyPrefix k /\
    (k = EmptyString \/ Forall (fun c => proper_component c = true) (Split k "/")).
Proof.
  unfold DecodeContinue. destruct (token_decode v) as [c|]; [|done].
  destruct (String.eqb (ct_APIVersion c) _); [|done].
  destruct (Z.eqb_spec (ct_ResourceVersion c) 0); [done|].
  destruct (String.eqb (ct_StartKey c) ""); [done|].
  destruct (path_Clean_components (if HasPrefix (ct_StartKey c) "/" then ct_StartKey c
    else String.append "/" (ct_StartKey c))) as (k & -> & Hk).
  destruct (String.eqb _ _); [|done]. intros [= <- <-]. split; [done|]. exists k.
  split; [|done]. simpl. by rewrite Nat.sub_0_r, substring_full.
Qed.

Lemma DecodeContinue_EncodeContinue keyPrefix k rv :
  keyPrefix <> "" -> Forall (fun c => proper_component c = true) (Split k "/") ->
  0 < rv <= MaxInt64 ->
  exists token, EncodeContinue (String.append keyPrefix k) keyPrefix rv = Ok token /\
    DecodeContinue token keyPrefix = Ok (String.append keyPrefix k, rv).
Proof.
  intros Hp Hk Hrv. destruct (proper_not_rooted k Hk) as [Hroot Hne].
  unfold EncodeContinue. rewrite TrimPrefix_append.
  destruct (String.eqb_spec k (String.append keyPrefix k)) as [He|_].
  { apply (f_equal String.length) in He. rewrite length_string_app in He.
    destruct keyPrefix; [done|]. simpl in He. lia. }
  eexists. split; [done|]. unfold DecodeContinue. rewrite token_round_trip.
  cbn [ct_APIVersion ct_ResourceVersion ct_StartKey String.eqb Ascii.eqb Bool.eqb].
  rewrite wraps_small by (unfold MaxInt64 in *; lia).
  replace (rv =? 0) with false by lia.
  destruct (String.eqb_spec k EmptyString) as [|_]; [done|].
  rewrite Hroot. rewrite path_Clean_proper by done. rewrite String.eqb_refl.
  do 3 f_equal. simpl. rewrite Nat.sub_0_r. apply substring_full.
Qed.
End Continue.

(** A codec that meets the interface: the token's index in binary digits. *)
Fixpoint bits_of_pos (p : positive) : string :=
  match p with
  | xH => EmptyString
  | xO p => String "0" (bits_of_pos p)
  | xI p => String "1" (bits_of_pos p)
  end.
Fixpoint pos_of_bits (s : string) : positive :=
  match s with
  | EmptyString => xH
  | String a s => if Ascii.eqb a "0" then xO (pos_of_bits s) else xI (pos_of_bits s)
  end.

Lemma pos_of_bits_of_pos p : pos_of_bits (bits_of_pos p) = p.
Proof. induction p as [p IH|p IH|]; simpl; by rewrite ?IH. Qed.

#[export] Instance token_codec_bits : TokenCodec | 100.
Proof.
  refine {|
    token_encode := fun c =>
      bits_of_pos (encode (ct_APIVersion c, ct_ResourceVersion c, ct_StartKey c));
    token_decode := fun s =>
      match decode (pos_of_bits s) with
      | Some (a, b, c) => Ok (mkContinueToken a b c)
      | None => Err (OtherError "malformed token")
      end
  |}.
  intros [a b c]. simpl. rewrite pos_of_bits_of_pos. by rewrite decode_encode.
Defined.

(** ** Properties *)

(** A page token names the key and revision the page ended at: decoding what [EncodeContinue]
    produced for a key below the listed prefix gives that key and revision back. *)
Theorem continue_token_round_trip {TC : TokenCodec} keyPrefix k rv :
  keyPrefix <> "" -> Forall (fun c => proper_component c = true) (Split k "/") ->
  0 < rv <= MaxInt64 ->
  exists token, EncodeContinue (String.append keyPrefix k) keyPrefix rv = Ok token /\
    DecodeContinue token keyPrefix = Ok (String.append keyPrefix k, rv).
Proof. apply DecodeContinue_EncodeContinue. Qed.

Lemma continue_token_round_trip_witness :
  exists token, EncodeContinue "/apps/ns/a" "/apps/" 7 = Ok token /\
    DecodeContinue token "/apps/" = Ok ("/apps/ns/a"%string, 7).
Proof.
  apply (continue_token_round_trip "/apps/" "ns/a" 7);
    [discriminate|repeat constructor|vm_compute; split; congruence].
Defined.

(** Whatever token a client sends, the key a list resumes from lies below the prefix that was
    listed: it is the prefix itself or the prefix followed by components none of which is empty,
    ["."] or [".."], so a token cannot climb out of it. *)
Theorem continue_token_confined {TC : TokenCodec} token keyPrefix key rv :
  DecodeContinue token keyPrefix = Ok (key, rv) ->
  rv <> 0 /\ exists k, key = String.append keyPrefix k /\
    (k = EmptyString \/ Forall (fun c => proper_component c = true) (Split k "/")).
Proof. apply DecodeContinue_prefix. Qed.

Lemma continue_token_confined_witness :
  let token := token_encode (mkContinueToken "meta.k8s.io/v1" 7 "ns/a") in
  DecodeContinue token "/apps/" = Ok ("/apps/ns/a"%string, 7) /\
  exists k, "/apps/ns/a"%string = String.append "/apps/" k.
Proof.
  intros token. assert (DecodeContinue token "/apps/" = Ok ("/apps/ns/a"%string, 7)) as H
    by (vm_compute; reflexivity).
  split; [exact H|].
  destruct (continue_token_confined token "/apps/" _ 7 H) as (_ & k & Hk & _). by exists k.
Defined.
