(* ===== verification/ObjStoreMap.v ===== *)
(** * The key tree and the revision list of the memory store

    [pkg/store/inmemory/store_map.go].  [objStoreMap] is a tree of Go maps indexed by the
    components of a key; a leaf points to an [objWithIndex].  The revision list ([objList]) holds
    the same pointers by position, and [shrink] moves an object by writing its new position
    through the pointer, so both structures refer to one store of [objWithIndex] cells.

    The sub-maps of the tree are owned by their parent, so they are values. *)

From S2P Require Import Prelude GoStrings ApiTypes ObjectVersion.
From Stdlib Require Import String.

#[local] Open Scope nat_scope.

Abbreviation loc := nat (only parsing).

(** ** The tree *)

(** [objMapOrObj]: exactly one of its two pointers is non-nil. *)
Inductive objMapOrObj :=
  | TObj (obj : loc)
  | TMap (objMap : gmap string objMapOrObj).
Abbreviation objStoreMap := (gmap string objMapOrObj).

Section Tree.
(** [store.GetObjectResourceVersion(o.obj.obj)], through the cells. *)
Context (leafRV : loc -> result Z).
Implicit Types (mm : objStoreMap) (keys : list string).

Fixpoint countNode (t : objMapOrObj) : Z :=
  match t with
  | TObj _ => 1
  | TMap mm => map_fold (fun _ t' count => (count + countNode t')%Z) 0%Z mm
  end.
Definition countItemsInMap mm : Z := countNode (TMap mm).

(** A component that is not found is skipped and the next one is looked up in the same map. *)
Fixpoint count_loop mm keys : result Z :=
  match keys with
  | [] => Ok 0%Z
  | key :: rest =>
    match mm !! key, rest with
    | None, _ => count_loop mm rest
    | Some (TObj _), [] => Ok 1%Z
    | Some (TMap mm'), [] => Ok (countItemsInMap mm')
    | Some (TObj _), _ => Err (OtherError "middle node of keys is not a map")
    | Some (TMap mm'), _ => count_loop mm' rest
    end
  end.

Definition tree_count mm keys : result Z :=
  match keys with [] => Ok (countItemsInMap mm) | _ => count_loop mm keys end.

Fixpoint tree_get mm keys : option loc :=
  match keys with
  | [] => None
  | key :: rest =>
    match mm !! key with
    | None => None
    | Some (TObj obj) => Some obj
    | Some (TMap mm') => tree_get mm' rest
    end
  end.

Definition putObj mm (key : string) (obj : loc) (expectedRV : Z) : result objStoreMap :=
  match mm !! key with
  | Some (TObj o) =>
    let? objRv := leafRV o in
    if (expectedRV <? objRv)%Z then Err TooLargeResourceVersionError
    else Ok (<[key := TObj obj]> mm)
  | Some (TMap _) => Err InternalError
  | None => Ok (<[key := TObj obj]> mm)
  end.

Fixpoint tree_put mm keys (obj : loc) (expectedRV : Z) : result objStoreMap :=
  match keys with
  | [] => Err (OtherError "Empty keys are provided")
  | [key] =>
    match mm !! key with
    | Some (TMap _) => Err (OtherError "leaf node of keys is a map")
    | _ => putObj mm key obj expectedRV
    end
  | key :: rest =>
    match mm !! key with
    | None => let? newmm := tree_put ∅ rest obj expectedRV in Ok (<[key := TMap newmm]> mm)
    | Some (TObj _) => Err (OtherError "middle node of keys is not a map")
    | Some (TMap mm') =>
      let? newmm := tree_put mm' rest obj expectedRV in Ok (<[key := TMap newmm]> mm)
    end
  end.

Fixpoint tree_del mm keys : result objStoreMap :=
  match keys with
  | [] => Err (OtherError "Empty keys are provided")
  | [key] =>
    match mm !! key with
    | None => Ok mm
    | Some (TObj _) => Ok (delete key mm)
    | Some (TMap _) => Err (OtherError "leaf node of keys is a map")
    end
  | key :: rest =>
    match mm !! key with
    | None => Ok mm
    | Some (TObj _) => Err (OtherError "middle node of keys is not a map")
    | Some (TMap mm') => let? newmm := tree_del mm' rest in Ok (<[key := TMap newmm]> mm)
    end
  end.

(** *** Laws of the tree *)

Lemma tree_put_cons2 mm k1 k2 ks obj rv :
  tree_put mm (k1 :: k2 :: ks) obj rv =
  match mm !! k1 with
  | None => let? newmm := tree_put ∅ (k2 :: ks) obj rv in Ok (<[k1 := TMap newmm]> mm)
  | Some (TObj _) => Err (OtherError "middle node of keys is not a map")
  | Some (TMap mm') => let? newmm := tree_put mm' (k2 :: ks) obj rv in Ok (<[k1 := TMap newmm]> mm)
  end.
Proof. done. Qed.

Lemma tree_get_empty keys : tree_get ∅ keys = None.
Proof. destruct keys; simpl; [done|]. by rewrite lookup_empty. Qed.

Lemma tree_get_insert_ne mm k t k' ks :
  k <> k' -> tree_get (<[k := t]> mm) (k' :: ks) = tree_get mm (k' :: ks).
Proof. intros. simpl. by rewrite lookup_insert_ne. Qed.

Lemma putObj_Ok mm key obj rv mm' :
  putObj mm key obj rv = Ok mm' -> mm' = <[key := TObj obj]> mm.
Proof.
  unfold putObj. intros H. repeat case_match; simplify_eq; try done.
  apply bind_result_Ok in H as (r & _ & H). case_match; by simplify_eq.
Qed.

(** A successful [put] is seen by every [get] whose key continues the stored one, and by no
    other. *)
Lemma tree_get_put mm keys obj rv mm' keys' :
  tree_put mm keys obj rv = Ok mm' ->
  tree_get mm' keys' = if decide (keys `prefix_of` keys') then Some obj else tree_get mm keys'.
Proof.
  revert mm mm' keys'. induction keys as [|k [|k2 ks] IH]; intros mm mm' keys' H; [done| |].
  - assert (mm' = <[k := TObj obj]> mm) as -> by (simpl in H; repeat case_match; try done;
      by eapply putObj_Ok).
    destruct keys' as [|k' ks']; [rewrite decide_False; [done|by apply prefix_nil_not]|].
    destruct (decide (k = k')) as [<-|Hk].
    + simpl. rewrite lookup_insert_eq, decide_True; [done|]. apply prefix_cons, prefix_nil.
    + rewrite tree_get_insert_ne by done. rewrite decide_False; [done|].
      by intros Hp%prefix_cons_inv_1.
  - rewrite tree_put_cons2 in H.
    destruct keys' as [|k' ks']; [rewrite decide_False; [|by apply prefix_nil_not]|].
    { done. }
    assert (exists sub newmm, tree_put sub (k2 :: ks) obj rv = Ok newmm /\
      mm' = <[k := TMap newmm]> mm /\
      forall l, tree_get mm (k :: l) = tree_get sub l) as (sub & newmm & Hput & -> & Hsub).
    { simpl. destruct (mm !! k) as [[o|m']|] eqn:Hk; [done| |];
        apply bind_result_Ok in H as (n & Hn & [= <-]); eexists _, _; (split; [done|]);
        split; [done|done|done|]. intros l. by rewrite tree_get_empty. }
    destruct (decide (k = k')) as [<-|Hk].
    + rewrite Hsub. simpl. rewrite lookup_insert_eq. rewrite (IH _ _ ks' Hput).
      case_decide as Hp; case_decide as Hp'; try done.
      * by destruct Hp'; apply prefix_cons.
      * by destruct Hp; apply prefix_cons_inv_2 in Hp'.
    + rewrite tree_get_insert_ne by done. rewrite decide_False; [done|].
      by intros Hp%prefix_cons_inv_1.
Qed.

Lemma tree_del_cons2 mm k1 k2 ks :
  tree_del mm (k1 :: k2 :: ks) =
  match mm !! k1 with
  | None => Ok mm
  | Some (TObj _) => Err (OtherError "middle node of keys is not a map")
  | Some (TMap mm') => let? newmm := tree_del mm' (k2 :: ks) in Ok (<[k1 := TMap newmm]> mm)
  end.
Proof. done. Qed.

(** A successful [del] hides the key and what continues it, and nothing else. *)
Lemma tree_get_del mm keys mm' keys' :
  tree_del mm keys = Ok mm' ->
  tree_get mm' keys' = if decide (keys `prefix_of` keys') then None else tree_get mm keys'.
Proof using.
  revert mm mm' keys'. induction keys as [|k [|k2 ks] IH]; intros mm mm' keys' H; [done| |].
  - destruct keys' as [|k' ks']; [rewrite decide_False; [done|by apply prefix_nil_not]|].
    simpl in H. destruct (decide (k = k')) as [<-|Hk].
    + rewrite decide_True by apply prefix_cons, prefix_nil. simpl.
      destruct (mm !! k) as [[]|] eqn:Hmk; simplify_eq; by rewrite ?lookup_delete_eq, ?Hmk.
    + rewrite decide_False by (by intros Hp%prefix_cons_inv_1). simpl.
      destruct (mm !! k) as [[]|]; simplify_eq; by rewrite ?lookup_delete_ne.
  - rewrite tree_del_cons2 in H.
    destruct keys' as [|k' ks']; [rewrite decide_False; [done|by apply prefix_nil_not]|].
    destruct (mm !! k) as [[o|m']|] eqn:Hmk; [done| |].
    + apply bind_result_Ok in H as (n & Hn & [= <-]).
      destruct (decide (k = k')) as [<-|Hk].
      * simpl. rewrite lookup_insert_eq, Hmk, (IH _ _ ks' Hn).
        case_decide as Hp; case_decide as Hp'; try done.
        -- by destruct Hp'; apply prefix_cons.
        -- by destruct Hp; apply prefix_cons_inv_2 in Hp'.
      * rewrite tree_get_insert_ne by done. rewrite decide_False; [done|].
        by intros Hp%prefix_cons_inv_1.
    + simplify_eq. case_decide as Hp; [|done].
      apply prefix_cons_inv_1 in Hp as <-. simpl. by rewrite Hmk.
Qed.

(** *** Trees of uniform depth

    Every key of a store is its prefix followed by a namespace and a name, so all the keys have
    the same number of components and all the objects sit at the same depth. *)
Fixpoint uniform (d : nat) (mm : objStoreMap) : Prop :=
  map_Forall (fun _ t =>
    match t, d with
    | TObj _, 1 => True
    | TMap mm', S (S _ as d') => uniform d' mm'
    | _, _ => False
    end) mm.

Lemma uniform_empty d : uniform d ∅.
Proof using. clear leafRV. destruct d as [|[|d]]; apply map_Forall_empty. Qed.

Lemma uniform_1 mm : uniform 1 mm <-> map_Forall (fun _ t => exists o, t = TObj o) mm.
Proof using. clear leafRV. split; intros H k t Hk; specialize (H k t Hk); destruct t; naive_solver. Qed.

Lemma uniform_SS d mm :
  uniform (S (S d)) mm <-> map_Forall (fun _ t => exists m, t = TMap m /\ uniform (S d) m) mm.
Proof using. clear leafRV. split; intros H k t Hk; specialize (H k t Hk); destruct t; naive_solver. Qed.

Lemma tree_put_uniform d mm keys obj rv :
  uniform d mm -> List.length keys = d -> d <> 0 ->
  (forall o, tree_get mm keys = Some o -> exists r, leafRV o = Ok r /\ (r <= rv)%Z) ->
  exists mm', tree_put mm keys obj rv = Ok mm' /\ uniform d mm'.
Proof.
  revert mm keys. induction d as [|[|d] IH]; intros mm keys Hu Hl Hd Hrv; [done| |].
  - destruct keys as [|k [|? ?]]; try done. simpl in *.
    destruct (mm !! k) as [[o|m]|] eqn:Hk.
    + destruct (Hrv o eq_refl) as (r & Hr & Hle). unfold putObj. rewrite Hk, Hr. simpl.
      replace (rv <? r)%Z with false by lia. eexists. split; [done|].
      by apply map_Forall_insert_2.
    + by specialize (Hu k _ Hk).
    + unfold putObj. rewrite Hk. eexists. split; [done|]. by apply map_Forall_insert_2.
  - destruct keys as [|k [|k2 ks]]; try done.
    rewrite tree_put_cons2. apply uniform_SS in Hu as Hu'. simpl in Hrv.
    destruct (mm !! k) as [t|] eqn:Hk.
    + destruct (Hu' k t Hk) as (m & -> & Hm).
      destruct (IH m (k2 :: ks)) as (m' & -> & Hm'); [done|simpl in *; lia|done|done|].
      eexists. split; [done|]. by apply map_Forall_insert_2.
    + destruct (IH ∅ (k2 :: ks)) as (m' & -> & Hm');
        [apply uniform_empty|simpl in *; lia|done|by rewrite tree_get_empty|].
      eexists. split; [done|]. by apply map_Forall_insert_2.
Qed.

(** A newer object in the tree makes [put] fail without changing anything. *)
Lemma tree_put_stale d mm keys obj rv o r :
  uniform d mm -> List.length keys = d -> tree_get mm keys = Some o -> leafRV o = Ok r ->
  (rv < r)%Z -> tree_put mm keys obj rv = Err TooLargeResourceVersionError.
Proof.
  revert mm keys. induction d as [|[|d] IH]; intros mm keys Hu Hl Hg Hr Hlt.
  - by destruct keys.
  - destruct keys as [|k [|? ?]]; try done. simpl in *. unfold putObj.
    destruct (mm !! k) as [[o'|m]|] eqn:Hk; simplify_eq.
    rewrite Hr. simpl. by replace (rv <? r)%Z with true by lia.
  - destruct keys as [|k [|k2 ks]]; try done. rewrite tree_put_cons2.
    simpl in Hg. apply uniform_SS in Hu as Hu'.
    destruct (mm !! k) as [t|] eqn:Hk; [|done]. destruct (Hu' k t Hk) as (m & -> & Hm).
    rewrite (IH m (k2 :: ks)); [done|done|simpl in *; lia|done|done|done].
Qed.

Lemma tree_del_uniform d mm keys :
  uniform d mm -> List.length keys = d -> d <> 0 ->
  exists mm', tree_del mm keys = Ok mm' /\ uniform d mm'.
Proof using. clear leafRV.
  revert mm keys. induction d as [|[|d] IH]; intros mm keys Hu Hl Hd; [done| |].
  - destruct keys as [|k [|? ?]]; try done. simpl in *.
    destruct (mm !! k) as [[o|m]|] eqn:Hk; [|by specialize (Hu k _ Hk)|by eauto].
    eexists. split; [done|]. by apply map_Forall_delete.
  - destruct keys as [|k [|k2 ks]]; try done. rewrite tree_del_cons2.
    apply uniform_SS in Hu as Hu'.
    destruct (mm !! k) as [t|] eqn:Hk; [|by eauto].
    destruct (Hu' k t Hk) as (m & -> & Hm).
    destruct (IH m (k2 :: ks)) as (m' & -> & Hm'); [done|simpl in *; lia|done|].
    eexists. split; [done|]. by apply map_Forall_insert_2.
Qed.
End Tree.

Lemma prefix_same_length (l1 l2 : list string) :
  List.length l1 = List.length l2 -> l1 `prefix_of` l2 <-> l1 = l2.
Proof.
  intros Hl. split; [|by intros ->]. intros [l ->].
  rewrite length_app in Hl. destruct l; [by rewrite app_nil_r|simpl in Hl; lia].
Qed.

(** *** Counting *)

(** The objects of a tree of uniform depth with their keys. *)
Fixpoint leaves (d : nat) (mm : objStoreMap) : list (list string * loc) :=
  kt ← map_to_list mm;
  match kt.2, d with
  | TObj o, _ => [([kt.1], o)]
  | TMap mm', S d' => (fun x => (kt.1 :: x.1, x.2)) <$> leaves d' mm'
  | TMap _, 0 => []
  end.

Lemma leaves_1 mm : uniform 1 mm ->
  leaves 1 mm = (fun kt => ([kt.1], match kt.2 with TObj o => o | TMap _ => 0 end)) <$> map_to_list mm.
Proof.
  rewrite uniform_1. intros H. simpl.
  assert (forall kt, kt ∈ map_to_list mm -> exists o, kt.2 = TObj o) as Hl.
  { intros [k t] Hk%elem_of_map_to_list. by apply (H k). }
  clear H. induction (map_to_list mm) as [|[k t] l IH]; [done|]. simpl.
  destruct (Hl (k, t)) as [o Ho]; [left|]. simpl in Ho. subst t. simpl. f_equal.
  apply IH. intros kt Hk. apply Hl. by right.
Qed.

#[local] Arguments leaves : simpl never.

Lemma leaves_SS d mm :
  leaves (S (S d)) mm =
  kt ← map_to_list mm;
  match kt.2 with
  | TObj o => [([kt.1], o)]
  | TMap mm' => (fun x => (kt.1 :: x.1, x.2)) <$> leaves (S d) mm'
  end.
Proof. done. Qed.

Lemma elem_of_leaves d mm ks o :
  uniform d mm -> d <> 0 ->
  (ks, o) ∈ leaves d mm <-> List.length ks = d /\ tree_get mm ks = Some o.
Proof.
  revert mm ks. induction d as [|[|d] IH]; intros mm ks Hu Hd; [done| |].
  - rewrite leaves_1, list_elem_of_fmap by done. rewrite uniform_1 in Hu. split.
    + intros ([k t] & [= -> ->] & Hk%elem_of_map_to_list). simpl.
      destruct (Hu k t Hk) as [o' ->]. by rewrite Hk.
    + intros [Hl Hg]. destruct ks as [|k [|? ?]]; try done. simpl in Hg.
      destruct (mm !! k) as [t|] eqn:Hk; [|done]. destruct (Hu k t Hk) as [o' ->]. simplify_eq.
      exists (k, TObj o). split; [done|]. by apply elem_of_map_to_list.
  - rewrite uniform_SS in Hu. rewrite leaves_SS, list_elem_of_bind. split.
    + intros ([k t] & Hx & Hk%elem_of_map_to_list). destruct (Hu k t Hk) as (m' & -> & Hm').
      simpl in Hx. apply list_elem_of_fmap in Hx as ([ks' o'] & [= -> ->] & Hx).
      apply IH in Hx as [Hl Hg]; [|done|done]. simpl. rewrite Hl, Hk. done.
    + intros [Hl Hg]. destruct ks as [|k ks]; [done|]. simpl in Hl, Hg.
      destruct (mm !! k) as [t|] eqn:Hk; [|done]. destruct (Hu k t Hk) as (m' & -> & Hm').
      exists (k, TMap m'). split; [|by apply elem_of_map_to_list]. simpl.
      apply list_elem_of_fmap. exists (ks, o). split; [done|]. apply IH; [done|done|].
      split; [lia|done].
Qed.

Lemma countItemsInMap_sum mm :
  countItemsInMap mm = foldr Z.add 0%Z ((fun kt => countNode kt.2) <$> map_to_list mm).
Proof.
  unfold countItemsInMap. cbn [countNode]. rewrite map_fold_foldr.
  induction (map_to_list mm) as [|[k t] l IH]; [done|]. csimpl. rewrite IH. lia.
Qed.

Lemma count_leaves d mm :
  uniform d mm -> d <> 0 -> countItemsInMap mm = Z.of_nat (List.length (leaves d mm)).
Proof.
  revert mm. induction d as [|[|d] IH]; intros mm Hu Hd; [done| |].
  - rewrite leaves_1, length_fmap, countItemsInMap_sum by done. rewrite uniform_1 in Hu.
    assert (forall kt, kt ∈ map_to_list mm -> countNode kt.2 = 1%Z) as Hl.
    { intros [k t] Hk%elem_of_map_to_list. by destruct (Hu k t Hk) as [o ->]. }
    clear Hu. induction (map_to_list mm) as [|kt l IHl]; [done|]. csimpl.
    rewrite Hl, IHl by (set_solver || left). lia.
  - rewrite countItemsInMap_sum. rewrite uniform_SS in Hu.
    rewrite leaves_SS.
    assert (forall kt, kt ∈ map_to_list mm -> exists m', kt.2 = TMap m' /\ uniform (S d) m') as Hl.
    { intros [k t] Hk%elem_of_map_to_list. by apply (Hu k). }
    clear Hu. induction (map_to_list mm) as [|[k t] l IHl]; [done|]. csimpl.
    rewrite IHl by (intros kt Hk; apply Hl; by right). rewrite length_app.
    destruct (Hl (k, t)) as (m' & Ht & Hm'); [left|]. simpl in Ht. subst t.
    change (countNode (TMap m')) with (countItemsInMap m').
    rewrite IH, length_fmap by done. lia.
Qed.

Lemma NoDup_leaves_keys d mm : uniform d mm -> d <> 0 -> NoDup (leaves d mm).*1.
Proof.
  revert mm. induction d as [|[|d] IH]; intros mm Hu Hd; [done| |].
  - rewrite leaves_1 by done. rewrite <- list_fmap_compose.
    erewrite (list_fmap_ext _ ((fun k : string => [k]) ∘ fst)) by done.
    rewrite list_fmap_compose. apply (NoDup_fmap_2 _), NoDup_fst_map_to_list.
  - rewrite uniform_SS in Hu. rewrite leaves_SS.
    assert (forall kt, kt ∈ map_to_list mm -> exists m', kt.2 = TMap m' /\ uniform (S d) m') as Hl.
    { intros [k t] Hk%elem_of_map_to_list. by apply (Hu k). }
    pose proof (NoDup_fst_map_to_list mm) as Hnd. clear Hu.
    induction (map_to_list mm) as [|[k t] l IHl]; [constructor|]. csimpl in *.
    apply NoDup_cons in Hnd as [Hk Hnd]. rewrite fmap_app. apply NoDup_app.
    destruct (Hl (k, t)) as (m' & Ht & Hm'); [left|]. simpl in Ht. subst t.
    split; [|split].
    + rewrite <- list_fmap_compose. erewrite (list_fmap_ext _ (cons k ∘ fst)) by done.
      rewrite list_fmap_compose. apply (NoDup_fmap_2 _), IH; done.
    + intros ks Hks Hks'. rewrite <- list_fmap_compose in Hks.
      apply list_elem_of_fmap in Hks as (x & -> & _). simpl in Hks'.
      apply list_elem_of_fmap in Hks' as ([ks' o] & Hkk & Hb). simpl in Hkk. subst ks'.
      apply list_elem_of_bind in Hb as ([k' t'] & Hb & Hk').
      assert (k' = k) as ->.
      { destruct (Hl (k', t')) as (m2 & Ht & _); [by right|]. simpl in Ht. subst t'. simpl in Hb.
        by apply list_elem_of_fmap in Hb as ([? ?] & [= -> _ _] & _). }
      apply Hk. apply list_elem_of_fmap. by exists (k, t').
    + apply IHl; [|done]. intros kt Hkt. apply Hl. by right.
Qed.

(** ** The revision list *)

Section ObjList.
Context {S T : Type}.

Record objWithIndex := mkObjWithIndex {
  owi_key : string;
  owi_obj : Object S T;
  owi_index : nat;
  owi_deleted : bool
}.
Abbreviation Cells := (gmap loc objWithIndex).

Definition owi_set_index (i : nat) (o : objWithIndex) : objWithIndex :=
  mkObjWithIndex (owi_key o) (owi_obj o) i (owi_deleted o).

Record objList := mkObjList { objs : list (option loc); lastObjIndex : nat }.

Definition objList_Len (l : objList) : nat := List.length (objs l).

(** [v == nil || v.deleted] *)
Definition slot_dead (cells : Cells) (v : option loc) : bool :=
  match v with
  | None => true
  | Some l => match cells !! l with Some o => owi_deleted o | None => false end
  end.

(** The variables of the loop in [shrink]. *)
Record shrink_state := mkShrink {
  sh_diff : Z; sh_newList : list (option loc); sh_i : nat; sh_lastIndex : nat; sh_cells : Cells
}.

Definition shrink_step (length : nat) (st : shrink_state) (v : option loc) : shrink_state :=
  let '(mkShrink diff newList i lastIndex cells) := st in
  if slot_dead cells v && (0 <? diff)%Z then mkShrink (diff - 1) newList i lastIndex cells
  else
    let newList := if i <? length then <[i := v]> newList else newList ++ [v] in
    match v with
    | Some l => mkShrink diff newList (i + 1) i (alter (owi_set_index i) l cells)
    | None => mkShrink diff newList (i + 1) lastIndex cells
    end.

(** [diff] is a [uint64]: a target longer than the list wraps around. *)
Definition shrink (cells : Cells) (list : objList) (length : nat) : Cells * objList :=
  let diff := u64 (Z.of_nat (objList_Len list) - Z.of_nat length) in
  if (diff <=? 0)%Z then (cells, list)
  else
    let st := foldl (shrink_step length) (mkShrink diff (replicate length None) 0 0 cells)
                (objs list) in
    (sh_cells st, mkObjList (sh_newList st) (sh_lastIndex st)).

Definition grow (list : objList) (length : nat) : objList :=
  mkObjList (objs list ++ replicate length None) (lastObjIndex list).

(** *** What [shrink] computes *)

(** The list without its first [diff] dead slots. *)
Fixpoint keep (cells : Cells) (diff : Z) (l : list (option loc)) : list (option loc) :=
  match l with
  | [] => []
  | v :: l =>
    if slot_dead cells v && (0 <? diff)%Z then keep cells (diff - 1) l else v :: keep cells diff l
  end.

(** The position of the last non-nil slot; [d] when there is none. *)
Fixpoint last_some (d i : nat) (l : list (option loc)) : nat :=
  match l with
  | [] => d
  | Some _ :: l => last_some i (i + 1) l
  | None :: l => last_some d (i + 1) l
  end.

(** Every object takes the position it is at. *)
Fixpoint reindex (cells : Cells) (i : nat) (l : list (option loc)) : Cells :=
  match l with
  | [] => cells
  | Some o :: l => reindex (alter (owi_set_index i) o cells) (i + 1) l
  | None :: l => reindex cells (i + 1) l
  end.

Lemma slot_dead_alter cells i l v :
  slot_dead (alter (owi_set_index i) l cells) v = slot_dead cells v.
Proof.
  destruct v as [o|]; simpl; [|done]. rewrite lookup_alter.
  case_decide as E; [subst|done]. by destruct (cells !! o).
Qed.

Lemma keep_alter cells i l diff vs :
  keep (alter (owi_set_index i) l cells) diff vs = keep cells diff vs.
Proof.
  revert diff. induction vs as [|v vs IH]; intros diff; simpl; [done|].
  rewrite slot_dead_alter. by rewrite !IH.
Qed.

Lemma shrink_loop length diff K li cells vs :
  foldl (shrink_step length)
    (mkShrink diff (K ++ replicate (length - List.length K) None) (List.length K) li cells) vs =
  let K' := K ++ keep cells diff vs in
  mkShrink (diff - (Z.of_nat (List.length vs) - Z.of_nat (List.length (keep cells diff vs))))
    (K' ++ replicate (length - List.length K') None) (List.length K')
    (last_some li (List.length K) (keep cells diff vs))
    (reindex cells (List.length K) (keep cells diff vs)).
Proof.
  revert diff K li cells. induction vs as [|v vs IH]; intros diff K li cells.
  { simpl. rewrite !app_nil_r. f_equal; lia. }
  cbn [foldl keep]. unfold shrink_step at 2.
  destruct (slot_dead cells v && (0 <? diff)%Z) eqn:Hd.
  { rewrite IH. cbn zeta. f_equal. cbn [List.length]. lia. }
  assert ((if List.length K <? length
           then <[List.length K := v]> (K ++ replicate (length - List.length K) None)
           else (K ++ replicate (length - List.length K) None) ++ [v]) =
          (K ++ [v]) ++ replicate (length - List.length (K ++ [v])) None) as ->.
  { rewrite length_app. cbn [List.length]. destruct (Nat.ltb_spec (List.length K) length).
    - rewrite insert_app_r_alt by lia. rewrite Nat.sub_diag.
      destruct (length - List.length K) as [|n] eqn:En; [lia|].
      rewrite <- app_assoc. cbn. by replace (length - (List.length K + 1)) with n by lia.
    - replace (length - List.length K) with 0 by lia.
      replace (length - (List.length K + 1)) with 0 by lia. cbn. by rewrite !app_nil_r. }
  replace (List.length K + 1) with (List.length (K ++ [v])) by (rewrite length_app; done).
  destruct v as [l|]; rewrite IH; cbn zeta; rewrite ?keep_alter; cbn [last_some reindex List.length];
    rewrite <- !app_assoc; cbn [app]; rewrite ?length_app; cbn [List.length];
    f_equal; lia.
Qed.

Lemma shrink_spec cells list length :
  u64 (Z.of_nat (objList_Len list) - Z.of_nat length) <> 0%Z ->
  let K := keep cells (u64 (Z.of_nat (objList_Len list) - Z.of_nat length)) (objs list) in
  shrink cells list length =
    (reindex cells 0 K, mkObjList (K ++ replicate (length - List.length K) None) (last_some 0 0 K)).
Proof.
  intros Hd K. unfold shrink.
  assert (0 <= u64 (Z.of_nat (objList_Len list) - Z.of_nat length))%Z by (apply Z.mod_pos_bound; lia).
  destruct (Z.leb_spec (u64 (Z.of_nat (objList_Len list) - Z.of_nat length)) 0); [lia|].
  pose proof (shrink_loop length (u64 (Z.of_nat (objList_Len list) - Z.of_nat length)) [] 0
    cells (objs list)) as Hloop.
  cbn [app List.length] in Hloop. rewrite Nat.sub_0_r in Hloop. rewrite Hloop. done.
Qed.

Lemma keep_sublist cells diff l : keep cells diff l `sublist_of` l.
Proof.
  revert diff. induction l as [|v l IH]; intros diff; simpl; [constructor|].
  destruct (_ && _); [by apply sublist_cons|by apply sublist_skip].
Qed.

Lemma keep_live cells diff l v : v ∈ l -> slot_dead cells v = false -> v ∈ keep cells diff l.
Proof.
  intros Hv Hd. revert diff. induction l as [|w l IH]; intros diff; [by apply elem_of_nil in Hv|].
  simpl. apply elem_of_cons in Hv as [<-|Hv].
  - rewrite Hd. simpl. left.
  - destruct (_ && _); [by apply IH|right; by apply IH].
Qed.

(** [keep] drops exactly [diff] slots when that many are dead. *)
Lemma keep_length cells diff l :
  (0 <= diff <= Z.of_nat (List.length (filter (fun v => slot_dead cells v = true) l)))%Z ->
  (Z.of_nat (List.length (keep cells diff l)) = Z.of_nat (List.length l) - diff)%Z.
Proof.
  revert diff. induction l as [|v l IH]; intros diff; [simpl; lia|].
  rewrite filter_cons. cbn [keep]. destruct (slot_dead cells v) eqn:Hd.
  - rewrite decide_True by done. cbn [List.length andb].
    destruct (Z.ltb_spec 0 diff) as [Hp|Hp]; intros H.
    + rewrite IH; cbn [List.length]; lia.
    + cbn [List.length]. rewrite Nat2Z.inj_succ, IH; lia.
  - rewrite decide_False by done. intros H. cbn [andb List.length].
    rewrite Nat2Z.inj_succ, IH; cbn [List.length]; lia.
Qed.

Lemma last_some_ge K d i : (d <= i -> d <= last_some d i K)%nat.
Proof.
  revert d i. induction K as [|[l|] K IH]; intros d i Hd; simpl; [done| |].
  - etransitivity; [done|]. apply IH. lia.
  - apply IH. lia.
Qed.

Lemma last_some_bound K d i j l :
  d <= i -> K !! j = Some (Some l) -> i + j <= last_some d i K.
Proof.
  revert d i j. induction K as [|v K IH]; intros d i j Hd Hj; [done|].
  destruct j as [|j]; simpl in Hj.
  - simplify_eq. simpl. rewrite Nat.add_0_r. apply last_some_ge. lia.
  - destruct v; simpl; [pose proof (IH i (i + 1) j)|pose proof (IH d (i + 1) j)];
      rewrite Hj in *; lia.
Qed.

Lemma last_some_lt K d i : d <= i -> last_some d i K < Nat.max (d + 1) (i + List.length K).
Proof.
  revert d i. induction K as [|[l|] K IH]; intros d i Hd; simpl; [lia| |].
  - specialize (IH i (i + 1)). lia.
  - specialize (IH d (i + 1)). lia.
Qed.

Lemma reindex_not_in cells i K l : Some l ∉ K -> reindex cells i K !! l = cells !! l.
Proof.
  revert cells i. induction K as [|[o|] K IH]; intros cells i Hl; simpl; [done| |].
  - apply not_elem_of_cons in Hl as [Hne Hl]. rewrite IH by done. apply lookup_alter_ne. congruence.
  - apply not_elem_of_cons in Hl as [_ Hl]. by rewrite IH.
Qed.

Lemma reindex_in cells i K j l :
  K !! j = Some (Some l) -> (forall j', K !! j' = Some (Some l) -> j' = j) ->
  reindex cells i K !! l = owi_set_index (i + j) <$> cells !! l.
Proof.
  revert cells i j. induction K as [|v K IH]; intros cells i j Hj Hu; [done|].
  assert (forall j', K !! j' = Some (Some l) -> Datatypes.S j' = j) as HuS.
  { intros j' Hj'. by apply (Hu (Datatypes.S j')). }
  destruct j as [|j]; simpl in Hj.
  - simplify_eq. simpl. rewrite reindex_not_in.
    + rewrite lookup_alter_eq. by rewrite Nat.add_0_r.
    + intros [j' Hj']%list_elem_of_lookup. specialize (HuS j' Hj'). lia.
  - rewrite Nat.add_succ_r, <- Nat.add_succ_l, <- Nat.add_1_r.
    assert (forall j', K !! j' = Some (Some l) -> j' = j) as Hu'.
    { intros j' Hj'. specialize (HuS j' Hj'). lia. }
    destruct v as [o|]; simpl; rewrite (IH _ _ j) by done; [|done].
    rewrite lookup_alter_ne; [done|]. intros ->. specialize (Hu 0 eq_refl). lia.
Qed.

Lemma reindex_data cells i K l :
  (fun c => (owi_key c, owi_obj c, owi_deleted c)) <$> (reindex cells i K !! l) =
  (fun c => (owi_key c, owi_obj c, owi_deleted c)) <$> (cells !! l).
Proof.
  revert cells i. induction K as [|[o|] K IH]; intros cells i; simpl; [done| |by rewrite IH].
  rewrite IH, lookup_alter. case_decide; [subst|done]. by destruct (cells !! l).
Qed.
End ObjList.

Lemma NoDup_filter_lookup {A} (P : A -> Prop) `{!forall x, Decision (P x)} (l : list A) :
  (forall i j v, l !! i = Some v -> l !! j = Some v -> P v -> i = j) -> NoDup (filter P l).
Proof.
  induction l as [|v l IH]; intros Hi0; [constructor|].
  assert (NoDup (filter P l)) as Hl.
  { apply IH. intros i j w Hi Hj Hw. specialize (Hi0 (S i) (S j) w Hi Hj Hw). congruence. }
  rewrite filter_cons. case_decide as Hv; [|done]. constructor; [|done].
  intros [_ [i Hi]%list_elem_of_lookup]%list_elem_of_filter.
  specialize (Hi0 0 (S i) v eq_refl Hi Hv). done.
Qed.

Lemma sublist_order {A} (l1 l2 : list A) i j x y :
  l1 `sublist_of` l2 -> l1 !! i = Some x -> l1 !! j = Some y -> i < j ->
  exists i' j', i' < j' /\ l2 !! i' = Some x /\ l2 !! j' = Some y.
Proof.
  intros Hs. revert i j. induction Hs as [|z l1 l2 Hs IH|z l1 l2 Hs IH]; intros i j Hi Hj Hij.
  - done.
  - destruct j as [|j]; [lia|]. simpl in Hj. destruct i as [|i]; simpl in Hi.
    + simplify_eq. apply list_elem_of_lookup_2 in Hj.
      apply (elem_of_sublist _ l2) in Hj; [|done]. apply list_elem_of_lookup in Hj as [j' Hj'].
      exists 0, (Datatypes.S j'). split; [lia|]. done.
    + destruct (IH i j Hi Hj) as (i' & j' & ? & ? & ?); [lia|].
      exists (Datatypes.S i'), (Datatypes.S j'). split; [lia|]. done.
  - destruct (IH i j Hi Hj Hij) as (i' & j' & ? & ? & ?).
    exists (Datatypes.S i'), (Datatypes.S j'). split; [lia|]. done.
Qed.
Arguments objWithIndex : clear implicits.
