(* ===== verification/MemoryStore.v ===== *)
(** * The in-memory object store

    [pkg/store/inmemory/simple_memory_store.go], [simple_memory_store_watcher.go] and
    [watch_cache.go].  One store holds the objects of one resource: a key tree, the list of the
    objects in revision order and the watchers.  Each method is one step on that state; the
    package variable [_MemoryRev] is part of the state, and since every store of the process
    shares it, other stores may raise it between two steps.

    [out] parameters are results; an [out] reset by [runtime.SetZeroValue] is [None]. *)

From S2P Require Import Prelude GoStrings ApiTypes ObjectVersion ObjStoreMap.
From Stdlib Require Import String.
#[local] Open Scope Z_scope.

Definition DefaultObjRevListInitSize : nat := Z.to_nat 20000.
Definition DefaultObjRevListGrowThreashold : nat := Z.to_nat 10000.
Definition NilSlotShrinkLowThrehold : Z := 10000.
Definition NilSlotShrinkHighThrehold : Z := 20000.

Inductive ResourceVersionMatch :=
  MatchUnset | MatchNotOlderThan | MatchExact | MatchOther (text : string).

Inductive EventType := Added | Modified | Deleted | Bookmark | ErrorEvent.
#[export] Instance EventType_eq_dec : EqDecision EventType.
Proof. solve_decision. Defined.

Section MemoryStore.
Context {S T : Type} {TC : TokenCodec}.
Abbreviation Obj := (Object S T).

(** [apistorage.ListOptions] and [GetOptions] *)
Record ListOptions := mkListOptions {
  lo_ResourceVersion : string;
  lo_ResourceVersionMatch : ResourceVersionMatch;
  lo_Predicate : SelectionPredicate S T;
  lo_Recursive : bool
}.
Record GetOptions := mkGetOptions { go_IgnoreNotFound : bool; go_ResourceVersion : string }.

Record objEvent := mkObjEvent {
  ev_key : string;
  ev_obj : option Obj;
  ev_oldObj : option Obj;
  ev_rev : Z;
  ev_isDeleted : bool;
  ev_isCreated : bool
}.

Record WatchEvent := mkWatchEvent { we_Type : EventType; we_Object : option Obj }.
Record WatchEventWithOldObj := mkWatchEventWithOldObj {
  wo_Type : EventType; wo_Object : option Obj; wo_OldObject : option Obj
}.

(** [memoryStoreWatcher], with the variables of its [run] goroutine.  Channels are the lists of
    what was sent and not yet received. *)
Record memoryStoreWatcher := mkWatcher {
  w_stopped : bool;
  w_recursive : bool;
  w_keyPrefix : string;
  w_predicate : SelectionPredicate S T;
  w_incomingChan : list objEvent;
  w_outgoingChan : list WatchEvent;
  w_outgoingChanWithOldObj : list WatchEventWithOldObj;
  w_startingRev : Z;
  w_eventWithOldObj : bool
}.

Record MemoryStore := mkMemoryStore {
  MemoryRev : Z;
  kvs : objStoreMap;
  revSortedObjList : objList;
  cells : gmap loc (objWithIndex S T);
  next_loc : loc;
  watchers : list memoryStoreWatcher
}.

Definition set_kvs (m : objStoreMap) (ms : MemoryStore) : MemoryStore :=
  mkMemoryStore (MemoryRev ms) m (revSortedObjList ms) (cells ms) (next_loc ms) (watchers ms).
Definition set_watchers (l : list memoryStoreWatcher) (ms : MemoryStore) : MemoryStore :=
  mkMemoryStore (MemoryRev ms) (kvs ms) (revSortedObjList ms) (cells ms) (next_loc ms) l.
Definition set_list (cs : gmap loc (objWithIndex S T)) (l : objList) (ms : MemoryStore) : MemoryStore :=
  mkMemoryStore (MemoryRev ms) (kvs ms) l cs (next_loc ms) (watchers ms).

Definition NewMemoryStore (memoryRev : Z) : MemoryStore :=
  mkMemoryStore memoryRev ∅ (mkObjList (replicate DefaultObjRevListInitSize None) 0) ∅ 0%nat [].

(** ** Helpers of the methods *)

(** [&objWithIndex{...}] *)
Definition new_owi (o : objWithIndex S T) : SM MemoryStore loc := fun ms =>
  (Ok (next_loc ms),
   mkMemoryStore (MemoryRev ms) (kvs ms) (revSortedObjList ms)
     (<[next_loc ms := o]> (cells ms)) (next_loc ms + 1)%nat (watchers ms)).

(** [existingObj := ms.kvs.get(keys)] with the pointer followed. *)
Definition kvs_get (ms : MemoryStore) (key : string) : option (loc * objWithIndex S T) :=
  match tree_get (kvs ms) (Split key "/") with
  | Some l => match cells ms !! l with Some o => Some (l, o) | None => None end
  | None => None
  end.

Definition leafRV (ms : MemoryStore) (l : loc) : result Z :=
  match cells ms !! l with
  | Some o => GetObjectResourceVersion (owi_obj o)
  | None => Err InternalError
  end.

Definition kvs_put (key : string) (l : loc) (expectedRV : Z) : SM MemoryStore unit := fun ms =>
  match tree_put (leafRV ms) (kvs ms) (Split key "/") l expectedRV with
  | Ok m => (Ok (), set_kvs m ms)
  | Err e => (Err e, ms)
  end.

Definition kvs_del (key : string) : SM MemoryStore unit := fun ms =>
  match tree_del (kvs ms) (Split key "/") with
  | Ok m => (Ok (), set_kvs m ms)
  | Err e => (Err e, ms)
  end.

(** [ms.revSortedObjList.objs[i] = v]; an index out of range would panic. *)
Definition set_slot (i : nat) (v : option loc) : SM MemoryStore unit := fun ms =>
  let l := revSortedObjList ms in
  if (i <? objList_Len l)%nat
  then (Ok (), set_list (cells ms) (mkObjList (<[i := v]> (objs l)) (lastObjIndex l)) ms)
  else (Err (OtherError "panic: index out of range"), ms).

Definition reserveRevAndSlot : SM MemoryStore (Z * nat) := fun ms =>
  let rev := u64 (MemoryRev ms + 1) in
  let l := revSortedObjList ms in
  let uindex := (lastObjIndex l + 1)%nat in
  let l := mkObjList (objs l) uindex in
  let l := if (objList_Len l <? uindex + DefaultObjRevListGrowThreashold)%nat
           then grow l DefaultObjRevListGrowThreashold else l in
  (Ok (rev, uindex), mkMemoryStore rev (kvs ms) l (cells ms) (next_loc ms) (watchers ms)).

Definition send_to (event : objEvent) (v : memoryStoreWatcher) : memoryStoreWatcher :=
  mkWatcher (w_stopped v) (w_recursive v) (w_keyPrefix v) (w_predicate v)
    (w_incomingChan v ++ [event]) (w_outgoingChan v) (w_outgoingChanWithOldObj v)
    (w_startingRev v) (w_eventWithOldObj v).

Definition sendEvent (event : objEvent) : SM MemoryStore unit :=
  sm_modify (fun ms =>
    set_watchers (send_to event <$> filter (fun v => w_stopped v = false) (watchers ms)) ms).

(** ** The methods *)

Definition Count (ms : MemoryStore) (key : string) : result Z :=
  tree_count (kvs ms) (Split key "/").

Definition Create (key : string) (obj : Obj) : SM MemoryStore Obj :=
  let obj := PrepareObjectForStorage obj in
  do! ms <- sm_get ;
  match kvs_get ms key with
  | Some _ => sm_fail KeyExistsError
  | None =>
    do! (rev, index) <- reserveRevAndSlot ;
    let newObj := SetObjectResourceVersion obj rev in
    do! objWi <- new_owi (mkObjWithIndex key newObj index false) ;
    do! _ <- kvs_put key objWi 0 ;
    do! _ <- set_slot index (Some objWi) ;
    do! _ <- sendEvent (mkObjEvent key (Some newObj) None rev false true) ;
    sm_ret newObj
  end.

Definition Delete (key : string) (preconditions : option (string -> Obj -> result unit))
    (validateDeletion : option (Obj -> result unit)) (cachedExistingObject : option Obj) :
    SM MemoryStore Obj :=
  do! _ <- sm_lift (match cachedExistingObject with
               | Some o => match GetObjectResourceVersion o with
                           | Ok _ => Ok () | Err _ => Err InternalError end
               | None => Ok () end) ;
  do! ms <- sm_get ;
  match kvs_get ms key with
  | None => sm_fail KeyNotFoundError
  | Some (_, existingObj) =>
    let currObj := owi_obj existingObj in
    do! _ <- sm_lift (match GetObjectResourceVersion currObj with
                 | Ok _ => Ok () | Err _ => Err InternalError end) ;
    do! _ <- sm_lift (match preconditions with Some check => check key currObj | None => Ok () end) ;
    do! _ <- sm_lift (match validateDeletion with Some check => check currObj | None => Ok () end) ;
    do! (rev, index) <- reserveRevAndSlot ;
    let deletedObj := SetObjectResourceVersion currObj rev in
    do! deletedObjWi <- new_owi (mkObjWithIndex key deletedObj index true) ;
    do! _ <- kvs_del key ;
    do! _ <- set_slot (owi_index existingObj) None ;
    do! _ <- set_slot index (Some deletedObjWi) ;
    do! _ <- sendEvent (mkObjEvent key None (Some deletedObj) rev true false) ;
    sm_ret currObj
  end.

Definition Get (ms : MemoryStore) (key : string) (opts : GetOptions) : result (option Obj) :=
  match kvs_get ms key with
  | None => if go_IgnoreNotFound opts then Ok None else Err KeyNotFoundError
  | Some (_, existingObj) =>
    match GetObjectResourceVersion (owi_obj existingObj) with
    | Err _ => Err InternalError
    | Ok currObjRv =>
      let? _ := ValidateMinimumResourceVersion (go_ResourceVersion opts) currObjRv in
      Ok (Some (owi_obj existingObj))
    end
  end.

Definition GuaranteedUpdate (key : string) (ignoreNotFound : bool)
    (preconditions : option (string -> Obj -> result unit)) (tryUpdate : UpdateFunc S T)
    (cachedExistingObject : option Obj) : SM MemoryStore (option Obj) :=
  do! ms <- sm_get ;
  match kvs_get ms key with
  | None => if ignoreNotFound then sm_ret None else sm_fail KeyNotFoundError
  | Some (_, curObjWi) =>
    let currObj := owi_obj curObjWi in
    do! currRv <- sm_lift (match GetObjectResourceVersion currObj with
                           | Ok rv => Ok rv | Err _ => Err InternalError end) ;
    do! _ <- sm_lift (match cachedExistingObject with
                 | Some o => match GetObjectResourceVersion o with
                             | Ok _ => Ok () | Err _ => Err InternalError end
                 | None => Ok () end) ;
    do! _ <- sm_lift (match preconditions with Some check => check key currObj | None => Ok () end) ;
    do! ret <- sm_lift (UpdateState currObj tryUpdate) ;
    do! (rev, index) <- reserveRevAndSlot ;
    let ret := SetObjectResourceVersion ret rev in
    do! newObjWi <- new_owi (mkObjWithIndex key ret index false) ;
    do! _ <- kvs_put key newObjWi currRv ;
    do! _ <- set_slot (owi_index curObjWi) None ;
    do! _ <- set_slot index (Some newObjWi) ;
    do! _ <- sendEvent (mkObjEvent key (Some ret) (Some currObj) rev false false) ;
    sm_ret (Some ret)
  end.

Definition CreateOrUpdate (key : string) (obj : Obj) (mergeFunc : option (Obj -> Obj -> result Obj)) :
    SM MemoryStore (option Obj) :=
  do! ms <- sm_get ;
  match kvs_get ms key with
  | None => do! o <- Create key obj ; sm_ret (Some o)
  | Some (_, curObjWi) =>
    let currObj := owi_obj curObjWi in
    match mergeFunc with
    | None => sm_fail (OtherError "Do not have merge function to update existing object")
    | Some merge =>
      do! updatedObj <- sm_lift (merge currObj obj) ;
      GuaranteedUpdate key false None (GetTryUpdateFunc updatedObj) (Some currObj)
    end
  end.

Definition GetOrCreate (key : string) (objToCreate : Obj) : SM MemoryStore Obj :=
  do! ms <- sm_get ;
  match kvs_get ms key with
  | None => Create key objToCreate
  | Some (_, curObjWi) => sm_ret (owi_obj curObjWi)
  end.

Definition CreateOrReplace (key : string) (objToCreate : Obj) : SM MemoryStore Obj :=
  do! ms <- sm_get ;
  match kvs_get ms key with
  | None => Create key objToCreate
  | Some (_, curObjWi) =>
    let currObj := owi_obj curObjWi in
    do! currRv <- sm_lift (match GetObjectResourceVersion currObj with
                           | Ok rv => Ok rv | Err _ => Err InternalError end) ;
    do! (rev, index) <- reserveRevAndSlot ;
    let newObj := SetObjectResourceVersion objToCreate rev in
    do! newObjWi <- new_owi (mkObjWithIndex key newObj index false) ;
    do! _ <- kvs_put key newObjWi currRv ;
    do! _ <- set_slot (owi_index curObjWi) None ;
    do! _ <- set_slot index (Some newObjWi) ;
    do! _ <- sendEvent (mkObjEvent key (Some newObj) (Some currObj) rev false false) ;
    sm_ret newObj
  end.

(** [ShouldDeleteSpec] of a zeroed [output] is false; the error of [Delete] is dropped, its
    effects on the store and on [output] are not. *)
Definition EnsureUpdateAndDelete (key : string) (ignoreNotFound : bool)
    (preconditions : option (string -> Obj -> result unit)) (updatedObj : Obj) :
    SM MemoryStore (option Obj) :=
  do! output <- GuaranteedUpdate key ignoreNotFound preconditions (GetTryUpdateFunc updatedObj) None ;
  match output with
  | Some o =>
    if ShouldDeleteSpec o then fun ms =>
      match Delete key preconditions (Some (fun _ => Ok ())) (Some o) ms with
      | (Ok out, ms') => (Ok (Some out), ms')
      | (Err _, ms') => (Ok output, ms')
      end
    else sm_ret output
  | None => sm_ret None
  end.

Definition houseKeeping (ms : MemoryStore) : MemoryStore :=
  let c := countItemsInMap (kvs ms) in
  if u64 (c + NilSlotShrinkHighThrehold) <? Z.of_nat (lastObjIndex (revSortedObjList ms)) then
    let '(cs, l) := shrink (cells ms) (revSortedObjList ms)
                      (Z.to_nat (u64 (c + NilSlotShrinkLowThrehold))) in
    set_list cs l ms
  else ms.

(** ** Lists *)

Definition slot_obj (ms : MemoryStore) (v : option loc) : option (objWithIndex S T) :=
  match v with Some l => cells ms !! l | None => None end.

Definition binarySearchInObjList (ms : MemoryStore) (rv : Z) : nat :=
  let l := revSortedObjList ms in
  sort_Search (objList_Len l) (fun i =>
    match slot_obj ms (mjoin (objs l !! (i mod objList_Len l)%nat)) with
    | None => false
    | Some obj => rv <=? ObjectRV (owi_obj obj)
    end).

(** The variables of the loop in [GetList]. *)
Record list_state := mkListState {
  ls_items : list Obj; ls_lastKey : string; ls_lastRev : Z; ls_hasMore : bool; ls_remaining : Z
}.

(** One object of the loop: [None] is the error on an unknown match rule. *)
Definition list_visit (match_ : ResourceVersionMatch) (pred : SelectionPredicate S T) (withRV : Z)
    (v : objWithIndex S T) (items : list Obj) : option (list Obj) :=
  let rv := ObjectRV (owi_obj v) in
  match match_ with
  | MatchNotOlderThan =>
    Some (if withRV <=? rv then AppendListItem items (owi_obj v) rv pred else items)
  | MatchExact | MatchUnset =>
    Some (if withRV <? rv then AppendListItem items (owi_obj v) rv pred else items)
  | MatchOther _ => None
  end.

(** [for i := startingIndex; i <= objBufferLen; i++], over the slots in that range. *)
Fixpoint list_loop (ms : MemoryStore) (match_ : ResourceVersionMatch) (pred : SelectionPredicate S T)
    (keyPrefix : string) (withRV limit objBufferLen : Z) (i : Z) (slots : list (option loc))
    (st : list_state) : result list_state :=
  match slots with
  | [] => Ok st
  | v :: slots =>
    let next := list_loop ms match_ pred keyPrefix withRV limit objBufferLen (i + 1) slots in
    (* got enough items: check if there are still slots in the list *)
    let limit_check (st : list_state) :=
      if Z.of_nat (List.length (ls_items st)) =? limit then
        Ok (if i <? u64 (objBufferLen - 1)
            then mkListState (ls_items st) (ls_lastKey st) (ls_lastRev st) true
                   (i64 (u64 (objBufferLen - 1 - i)))
            else st)
      else next st in
    match slot_obj ms v with
    | Some v =>
      if negb (owi_deleted v) then
        let st := mkListState (ls_items st) (owi_key v) (ObjectRV (owi_obj v)) (ls_hasMore st)
                    (ls_remaining st) in
        if negb (HasPrefix (owi_key v) keyPrefix) then next st
        else match list_visit match_ pred withRV v (ls_items st) with
             | None => Err (OtherError "unknown ResourceVersionMatch value")
             | Some items =>
               limit_check (mkListState items (ls_lastKey st) (ls_lastRev st) (ls_hasMore st)
                              (ls_remaining st))
             end
      else limit_check st
    | None => limit_check st
    end
  end.

Definition getSingleObjectAsList (ms : MemoryStore) (key : string) (opts : ListOptions) :
    result (ListMeta * list Obj) :=
  let resourceVersion := lo_ResourceVersion opts in
  let pred := lo_Predicate opts in
  let? fromRV :=
    if String.eqb resourceVersion "" then Ok None
    else match ParseResourceVersion resourceVersion with
         | Ok rv => Ok (Some rv) | Err _ => Err BadRequestError end in
  match kvs_get ms key with
  | None => let? m := UpdateList (MemoryRev ms) "" None in Ok (m, [])
  | Some (_, obj) =>
    let? rv := GetObjectResourceVersion (owi_obj obj) in
    let? items :=
      match fromRV with
      | None => Ok (AppendListItem [] (owi_obj obj) rv pred)
      | Some from =>
        match lo_ResourceVersionMatch opts with
        | MatchNotOlderThan => Ok (if from <=? rv then AppendListItem [] (owi_obj obj) rv pred else [])
        | MatchExact => Ok (if rv =? from then AppendListItem [] (owi_obj obj) rv pred else [])
        | MatchUnset => Ok (if from <? rv then AppendListItem [] (owi_obj obj) rv pred else [])
        | MatchOther _ => Err (OtherError "unknown ResourceVersionMatch value")
        end
      end in
    let? m := UpdateList rv "" None in Ok (m, items)
  end.

(** Where a recursive list starts: [(returnedRV, withRV, startingIndex)]. *)
Definition list_start (ms : MemoryStore) (keyPrefix : string) (opts : ListOptions) :
    result (Z * Z * nat) :=
  let resourceVersion := lo_ResourceVersion opts in
  let pred := lo_Predicate opts in
  let? fromRV :=
    if String.eqb resourceVersion "" then Ok None
    else match ParseResourceVersion resourceVersion with
         | Ok rv => Ok (Some rv) | Err _ => Err BadRequestError end in
  if negb (String.eqb (pred_Continue pred) "") then
    if negb (String.eqb resourceVersion "") && negb (String.eqb resourceVersion "0")
    then Err BadRequestError
    else
      match DecodeContinue (pred_Continue pred) keyPrefix with
      | Err _ => Err BadRequestError
      | Ok (continueKey, continueRV) =>
        if continueRV =? 0 then Err BadRequestError
        else
          let '(withRV, returnedRV) :=
            if 0 <? continueRV then (u64 continueRV, u64 continueRV) else (0, 1) in
          let startingIndex :=
            match kvs_get ms continueKey with
            | Some (_, obj) =>
              if ObjectRV (owi_obj obj) =? withRV then owi_index obj
              else binarySearchInObjList ms withRV
            | None => 0%nat
            end in
          Ok (returnedRV, withRV, startingIndex)
      end
  else
    match fromRV with
    | Some rv => if 0 <? rv then Ok (rv, rv, binarySearchInObjList ms rv) else Ok (1, 0, 0%nat)
    | None => Ok (1, 0, 0%nat)
    end.

Definition list_prefix (key : string) (recursive : bool) : string :=
  if recursive && negb (HasSuffix key "/") then String.append key "/" else key.

Definition GetList (ms : MemoryStore) (key : string) (opts : ListOptions) :
    result (ListMeta * list Obj) :=
  if negb (lo_Recursive opts) then getSingleObjectAsList ms key opts
  else
    let keyPrefix := list_prefix key true in
    let pred := lo_Predicate opts in
    let? (returnedRV, withRV, startingIndex) := list_start ms keyPrefix opts in
    let l := revSortedObjList ms in
    if (objList_Len l <=? startingIndex)%nat
    then let? m := UpdateList returnedRV "" None in Ok (m, [])
    else
      let limit := if 0 <? pred_Limit pred then pred_Limit pred else MaxInt64 in
      let? st := list_loop ms (lo_ResourceVersionMatch opts) pred keyPrefix withRV limit
        (Z.of_nat (lastObjIndex l)) (Z.of_nat startingIndex)
        (drop startingIndex (take (lastObjIndex l + 1) (objs l)))
        (mkListState [] "" withRV false 0) in
      if ls_hasMore st then
        let? continueToken := EncodeContinue (ls_lastKey st) keyPrefix (ls_lastRev st) in
        let? m := UpdateList returnedRV continueToken
          (if pred_Empty pred then Some (ls_remaining st) else None) in
        Ok (m, ls_items st)
      else let? m := UpdateList returnedRV "" None in Ok (m, ls_items st).

(** ** Watches *)

Definition watcher_filter (wc : memoryStoreWatcher) (obj : option Obj) : bool :=
  pred_Empty (w_predicate wc) ||
  match obj with
  | Some obj => match pred_Matches (w_predicate wc) obj with Some b => b | None => false end
  | None => false
  end.

Definition transformToWatchEvent (wc : memoryStoreWatcher) (e : objEvent) : option WatchEvent :=
  if (if w_recursive wc then HasPrefix (ev_key e) (w_keyPrefix wc)
      else String.eqb (ev_key e) (w_keyPrefix wc)) then
    let curObj := ev_obj e in
    let oldObj := ev_oldObj e in
    if ev_isDeleted e then
      if watcher_filter wc oldObj then Some (mkWatchEvent Deleted oldObj) else None
    else if ev_isCreated e then
      if watcher_filter wc curObj then Some (mkWatchEvent Added curObj) else None
    else if pred_Empty (w_predicate wc) then Some (mkWatchEvent Modified curObj)
    else
      let curObjPasses := watcher_filter wc curObj in
      let oldObjPasses := watcher_filter wc oldObj in
      if curObjPasses && oldObjPasses then Some (mkWatchEvent Modified curObj)
      else if curObjPasses && negb oldObjPasses then Some (mkWatchEvent Modified curObj)
      else if curObjPasses && negb oldObjPasses then Some (mkWatchEvent Added curObj)
      else if negb curObjPasses && oldObjPasses then Some (mkWatchEvent Deleted oldObj)
      else None
  else None.

Definition transformToWatchEventWithOldObj (e : WatchEvent) (oldObj : option Obj) :
    option WatchEventWithOldObj :=
  match we_Type e with
  | Added => Some (mkWatchEventWithOldObj (we_Type e) (we_Object e) None)
  | Deleted => Some (mkWatchEventWithOldObj (we_Type e) (we_Object e) None)
  | Modified => Some (mkWatchEventWithOldObj (we_Type e) (we_Object e) oldObj)
  | _ => None
  end.

Definition set_outgoing (l1 : list WatchEvent) (l2 : list WatchEventWithOldObj)
    (wc : memoryStoreWatcher) : memoryStoreWatcher :=
  mkWatcher (w_stopped wc) (w_recursive wc) (w_keyPrefix wc) (w_predicate wc) (w_incomingChan wc)
    l1 l2 (w_startingRev wc) (w_eventWithOldObj wc).

(** The body both loops of [run] share. *)
Definition emit (wc : memoryStoreWatcher) (event : objEvent) : memoryStoreWatcher :=
  match transformToWatchEvent wc event with
  | None => wc
  | Some wcEvent =>
    if w_eventWithOldObj wc then
      match transformToWatchEventWithOldObj wcEvent (ev_oldObj event) with
      | Some e => set_outgoing (w_outgoingChan wc) (w_outgoingChanWithOldObj wc ++ [e]) wc
      | None => wc
      end
    else set_outgoing (w_outgoingChan wc ++ [wcEvent]) (w_outgoingChanWithOldObj wc) wc
  end.

(** [run] up to its receive loop: the events that were already in the store. *)
Definition run_existing (wc : memoryStoreWatcher) (existingObjEvents : list objEvent) :
    memoryStoreWatcher := foldl emit wc existingObjEvents.

(** One turn of the receive loop. *)
Definition run_receive (wc : memoryStoreWatcher) : memoryStoreWatcher :=
  match w_incomingChan wc with
  | [] => wc
  | event :: rest =>
    let wc := mkWatcher (w_stopped wc) (w_recursive wc) (w_keyPrefix wc) (w_predicate wc) rest
      (w_outgoingChan wc) (w_outgoingChanWithOldObj wc) (w_startingRev wc)
      (w_eventWithOldObj wc) in
    if w_startingRev wc <? ev_rev event then emit wc event else wc
  end.

Definition NewMemoryStoreWatcher (key : string) (opts : ListOptions) (startingRev : Z)
    (withOldObj : bool) : memoryStoreWatcher :=
  mkWatcher false (lo_Recursive opts) (list_prefix key (lo_Recursive opts)) (lo_Predicate opts)
    [] [] [] startingRev withOldObj.

Definition slot_event (v : objWithIndex S T) : objEvent :=
  let oRev := ObjectRV (owi_obj v) in
  if owi_deleted v then mkObjEvent (owi_key v) None (Some (owi_obj v)) oRev true false
  else mkObjEvent (owi_key v) (Some (owi_obj v)) None oRev false true.

Fixpoint events_loop (ms : MemoryStore) (match_ : ResourceVersionMatch) (prefix : string) (rev : Z)
    (slots : list (option loc)) (objEvents : list objEvent) : result (list objEvent) :=
  match slots with
  | [] => Ok objEvents
  | v :: slots =>
    match slot_obj ms v with
    | None => events_loop ms match_ prefix rev slots objEvents
    | Some v =>
      if negb (HasPrefix (owi_key v) prefix) then events_loop ms match_ prefix rev slots objEvents
      else
        let e := slot_event v in
        match match_ with
        | MatchNotOlderThan =>
          events_loop ms match_ prefix rev slots
            (if rev <=? ev_rev e then objEvents ++ [e] else objEvents)
        | MatchExact | MatchUnset =>
          events_loop ms match_ prefix rev slots
            (if rev <? ev_rev e then objEvents ++ [e] else objEvents)
        | MatchOther _ => Err (OtherError "Unknown ResourceVersionMatch value")
        end
    end
  end.

Definition getObjEventsAfterRev (ms : MemoryStore) (key : string) (opts : ListOptions) :
    result (list objEvent) :=
  let prefix := list_prefix key (lo_Recursive opts) in
  let? rev := ParseResourceVersion (lo_ResourceVersion opts) in
  let uindex := binarySearchInObjList ms rev in
  events_loop ms (lo_ResourceVersionMatch opts) prefix rev
    (drop uindex (objs (revSortedObjList ms))) [].

(** The watcher is registered before the stored events are collected, also when that fails. *)
Definition watch (key : string) (opts : ListOptions) (withOldObj : bool) : SM MemoryStore nat :=
  do! rev <- sm_lift (ParseResourceVersion (lo_ResourceVersion opts)) ;
  do! ms <- sm_get ;
  let rev' := if 1 <? rev then rev else MemoryRev ms in
  let id := List.length (watchers ms) in
  let watcher := NewMemoryStoreWatcher key opts rev' withOldObj in
  do! _ <- sm_modify (set_watchers (watchers ms ++ [watcher])) ;
  do! objEvents <- (if 1 <? rev then sm_lift (getObjEventsAfterRev ms key opts) else sm_ret []) ;
  do! _ <- sm_modify (set_watchers (watchers ms ++ [run_existing watcher objEvents])) ;
  sm_ret id.

(** ** The event cache ([watch_cache.go]) *)

Record watchCache := mkWatchCache { wch_size : nat; wch_events : list objEvent }.

Definition cache_getObjEventsAfterRev (wc : watchCache) (key : string) (rev : Z) : list objEvent :=
  filter (fun event => HasPrefix (ev_key event) key && (rev <? ev_rev event) = true) (wch_events wc).

Definition addObjEvents (wc : watchCache) (event : objEvent) : watchCache :=
  mkWatchCache (wch_size wc) (wch_events wc ++ [event]).

Definition cache_shrink (wc : watchCache) : watchCache :=
  if (wch_size wc <? List.length (wch_events wc))%nat
  then mkWatchCache (wch_size wc) (take (wch_size wc) (wch_events wc))
  else wc.
End MemoryStore.
Arguments MemoryStore : clear implicits.
Arguments memoryStoreWatcher : clear implicits.
Arguments ListOptions : clear implicits.
Arguments objEvent : clear implicits.
#[global] Opaque DefaultObjRevListInitSize DefaultObjRevListGrowThreashold.

Lemma DefaultObjRevListInitSize_pos : (0 < DefaultObjRevListInitSize)%nat.
Proof. apply Nat.ltb_lt. vm_compute. reflexivity. Qed.
Lemma DefaultObjRevListGrowThreashold_pos : (0 < DefaultObjRevListGrowThreashold)%nat.
Proof. apply Nat.ltb_lt. vm_compute. reflexivity. Qed.
