(* ===== verification/StoreInvariant.v ===== *)
(** * The invariant of the memory store

    The key tree and the revision list describe the same objects: every object of the tree is
    found in the list at the index it carries, every live slot of the list is in the tree, and
    the revisions grow along the list.  Each method keeps it ([store_inv]), under the one
    assumption the store makes on its callers: all keys have [depth] components. *)

From S2P Require Import Prelude GoStrings ApiTypes ObjectVersion ObjStoreMap MemoryStore.
From Stdlib Require Import String.
#[local] Open Scope Z_scope.

Section Versioned.
Context {S T : Type}.
Abbreviation Obj := (Object S T).

(** The object carries a revision the store has handed out. *)
Definition versioned (rev : Z) (o : Obj) : Prop :=
  exists o' r, o = SetObjectResourceVersion o' r /\ 0 < r <= rev.

Lemma versioned_RV rev o :
  rev <= MaxUint64 -> versioned rev o ->
  GetObjectResourceVersion o = Ok (ObjectRV o) /\ 0 < ObjectRV o <= rev.
Proof.
  intros Hrev (o' & r & -> & Hr).
  assert (GetObjectResourceVersion (SetObjectResourceVersion o' r) = Ok r) as Hg
    by (apply SetGet_ResourceVersion; lia).
  apply GetObjectResourceVersion_value in Hg as Hv. by rewrite Hv.
Qed.

(** Writing back the version an object carries changes nothing, so the assignment
    [AppendListItem] makes to the stored object is not observable. *)
Lemma versioned_Set rev o : rev <= MaxUint64 -> versioned rev o ->
  SetObjectResourceVersion o (ObjectRV o) = o.
Proof.
  intros Hrev (o' & r & -> & Hr). rewrite ObjectRV_Set by lia. done.
Qed.

Lemma versioned_mono rev rev' o : rev <= rev' -> versioned rev o -> versioned rev' o.
Proof. intros ? (o' & r & ? & ?). exists o', r. split; [done|lia]. Qed.

End Versioned.

Section StoreInvariant.
Context {S T : Type} (depth : nat) (Hdepth : depth <> 0%nat).
Abbreviation Obj := (Object S T).
Implicit Types ms : MemoryStore S T.

Definition key_ok (key : string) : Prop := List.length (Split key "/") = depth.

#[export] Instance key_ok_dec key : Decision (key_ok key).
Proof. unfold key_ok. apply _. Defined.

Abbreviation slots ms := (objs (revSortedObjList ms)).
Abbreviation lastIdx ms := (lastObjIndex (revSortedObjList ms)).

Record store_inv ms : Prop := {
  si_rev : 0 < MemoryRev ms <= MaxUint64;
  si_uniform : uniform depth (kvs ms);
  si_fresh : forall l c, cells ms !! l = Some c -> (l < next_loc ms)%nat;
  si_last : (lastIdx ms < List.length (slots ms))%nat;
  si_tree : forall ks l, List.length ks = depth -> tree_get (kvs ms) ks = Some l ->
    exists c, cells ms !! l = Some c /\ Split (owi_key c) "/" = ks /\ owi_deleted c = false /\
      slots ms !! owi_index c = Some (Some l);
  si_slot : forall i l, slots ms !! i = Some (Some l) ->
    exists c, cells ms !! l = Some c /\ owi_index c = i /\ (i <= lastIdx ms)%nat /\
      key_ok (owi_key c) /\ versioned (MemoryRev ms) (owi_obj c) /\
      (owi_deleted c = false -> tree_get (kvs ms) (Split (owi_key c) "/") = Some l);
  si_sorted : forall i j li lj ci cj, (i < j)%nat ->
    slots ms !! i = Some (Some li) -> slots ms !! j = Some (Some lj) ->
    cells ms !! li = Some ci -> cells ms !! lj = Some cj ->
    ObjectRV (owi_obj ci) < ObjectRV (owi_obj cj)
}.

Lemma store_inv_new rev : 0 < rev <= MaxUint64 -> store_inv (NewMemoryStore rev).
Proof.
  intros Hrev. split; simpl; [done|apply uniform_empty|by intros ? ? ?%lookup_empty_Some| | | |].
  - rewrite length_replicate. apply DefaultObjRevListInitSize_pos.
  - intros ks l _. by rewrite tree_get_empty.
  - intros i l [? _]%lookup_replicate. done.
  - intros i j li lj ci cj _ [? _]%lookup_replicate. done.
Qed.

(** ** The object under a key *)

Definition store_lookup ms (key : string) : option Obj := owi_obj ∘ snd <$> kvs_get ms key.

Lemma kvs_get_inv ms key :
  store_inv ms -> key_ok key ->
  match kvs_get ms key with
  | None => tree_get (kvs ms) (Split key "/") = None
  | Some (l, c) =>
    tree_get (kvs ms) (Split key "/") = Some l /\ cells ms !! l = Some c /\ owi_key c = key /\
    owi_deleted c = false /\ slots ms !! owi_index c = Some (Some l) /\
    versioned (MemoryRev ms) (owi_obj c)
  end.
Proof.
  intros Hinv Hk. unfold kvs_get.
  destruct (tree_get (kvs ms) (Split key "/")) as [l|] eqn:Hg; [|done].
  destruct (si_tree ms Hinv _ l Hk Hg) as (c & Hc & Hkey & Hdel & Hslot). rewrite Hc.
  apply (inj (fun s => Split s "/")) in Hkey.
  destruct (si_slot ms Hinv _ _ Hslot) as (c' & Hc' & _ & _ & _ & Hver & _). simplify_eq. done.
Qed.

Lemma tree_get_kvs_get ms key l c :
  tree_get (kvs ms) (Split key "/") = Some l -> cells ms !! l = Some c ->
  kvs_get ms key = Some (l, c).
Proof. unfold kvs_get. by intros -> ->. Qed.

(** Two slots never hold the same object. *)
Lemma slots_inj ms i j l :
  store_inv ms -> slots ms !! i = Some (Some l) -> slots ms !! j = Some (Some l) -> i = j.
Proof.
  intros Hinv Hi Hj.
  destruct (si_slot ms Hinv i l Hi) as (c & Hc & <- & _).
  destruct (si_slot ms Hinv j l Hj) as (c' & Hc' & <- & _). congruence.
Qed.

(** ** [reserveRevAndSlot] *)

Definition reserved ms : MemoryStore S T :=
  let l := revSortedObjList ms in
  mkMemoryStore (MemoryRev ms + 1) (kvs ms)
    (let l := mkObjList (objs l) (lastObjIndex l + 1) in
     if (objList_Len l <? lastObjIndex l + DefaultObjRevListGrowThreashold)%nat
     then grow l DefaultObjRevListGrowThreashold else l)
    (cells ms) (next_loc ms) (watchers ms).

Lemma reserve_eq ms :
  store_inv ms -> MemoryRev ms < MaxUint64 ->
  reserveRevAndSlot ms = (Ok (MemoryRev ms + 1, (lastIdx ms + 1)%nat), reserved ms).
Proof.
  intros Hinv Hr. unfold reserveRevAndSlot. pose proof (si_rev ms Hinv).
  rewrite wrapu_small by (unfold MaxUint64 in *; lia). done.
Qed.

(** The state between reserving a slot and filling it. *)
Record reserved_inv ms : Prop := {
  ri_inv : store_inv ms;
  ri_free : slots ms !! lastIdx ms = Some None;
  ri_older : forall i l c, slots ms !! i = Some (Some l) -> cells ms !! l = Some c ->
    ObjectRV (owi_obj c) < MemoryRev ms
}.

Lemma reserved_slots ms i l :
  slots (reserved ms) !! i = Some (Some l) <-> slots ms !! i = Some (Some l).
Proof.
  unfold reserved. simpl. destruct (_ <? _)%nat; simpl; [|done].
  rewrite lookup_app_Some. split; [|tauto]. intros [H|[_ [? _]%lookup_replicate]]; done.
Qed.

Lemma reserved_spec ms :
  store_inv ms -> MemoryRev ms < MaxUint64 -> reserved_inv (reserved ms).
Proof.
  intros Hinv Hr. pose proof (si_rev ms Hinv). pose proof (si_last ms Hinv) as Hlast.
  assert (lastIdx (reserved ms) = lastIdx ms + 1)%nat as Hli.
  { unfold reserved. simpl. by destruct (_ <? _)%nat. }
  assert (lastIdx (reserved ms) < List.length (slots (reserved ms)))%nat as Hlt.
  { rewrite Hli. unfold reserved, objList_Len. simpl.
    pose proof DefaultObjRevListGrowThreashold_pos.
    destruct (Nat.ltb_spec (List.length (slots ms))
      (lastIdx ms + 1 + DefaultObjRevListGrowThreashold)) as [Hg|Hg]; simpl; [|lia].
    rewrite length_app, length_replicate. lia. }
  split.
  - split; [simpl; lia|apply Hinv|apply Hinv|done|..].
    + intros ks l Hl Hg. destruct (si_tree ms Hinv ks l Hl Hg) as (c & ? & ? & ? & ?).
      exists c. by rewrite reserved_slots.
    + intros i l Hi. rewrite reserved_slots in Hi. destruct (si_slot ms Hinv i l Hi) as (c & ? & ? & ? & ? & ? & ?).
      exists c. repeat split_and!; try done; [lia|].
      eapply versioned_mono; [|done]. simpl. lia.
    + intros i j li lj ci cj Hij Hi Hj. rewrite reserved_slots in Hi, Hj.
      by apply (si_sorted ms Hinv i j).
  - apply lookup_lt_is_Some in Hlt as [[l|] Hl]; [|done].
    rewrite reserved_slots in Hl. destruct (si_slot ms Hinv _ _ Hl) as (_ & _ & _ & ? & _). lia.
  - intros i l c Hi Hc. rewrite reserved_slots in Hi.
    destruct (si_slot ms Hinv i l Hi) as (c' & ? & _ & _ & _ & Hver & _). simplify_eq/=.
    apply versioned_RV in Hver; lia.
Qed.

(** ** Filling the slot

    What [Create], [Delete], [GuaranteedUpdate] and [CreateOrReplace] do after the reservation:
    a new cell, the new tree, the old slot cleared and the new one filled. *)
Definition published ms (key : string) (obj : Obj) (del : bool) (kvs' : objStoreMap)
    (old : option nat) : MemoryStore S T :=
  let i := lastIdx ms in
  mkMemoryStore (MemoryRev ms) kvs'
    (mkObjList (<[i := Some (next_loc ms)]>
       (match old with Some o => <[o := None]> (slots ms) | None => slots ms end)) i)
    (<[next_loc ms := mkObjWithIndex key obj i del]> (cells ms)) (next_loc ms + 1) (watchers ms).

Definition old_slot ms (key : string) : option nat := owi_index ∘ snd <$> kvs_get ms key.

(** The tree after the operation differs from the one before at the key only. *)
Definition tree_updated ms (key : string) (del : bool) (kvs' : objStoreMap) : Prop :=
  uniform depth kvs' /\
  forall ks, List.length ks = depth ->
    tree_get kvs' ks = if decide (ks = Split key "/") then (if del then None else Some (next_loc ms))
                       else tree_get (kvs ms) ks.

Lemma published_slots ms key obj del kvs' old j l :
  store_inv ms ->
  slots (published ms key obj del kvs' old) !! j = Some (Some l) <->
  (j = lastIdx ms /\ l = next_loc ms) \/
  (j <> lastIdx ms /\ old <> Some j /\ slots ms !! j = Some (Some l)).
Proof.
  intros Hinv. pose proof (si_last ms Hinv) as Hlast. simpl.
  set (base := match old with Some o => <[o := None]> (slots ms) | None => slots ms end).
  assert (List.length base = List.length (slots ms)) as Hlen.
  { subst base. destruct old; by rewrite ?length_insert. }
  destruct (decide (j = lastIdx ms)) as [->|Hj].
  - rewrite list_lookup_insert_eq by lia. naive_solver.
  - rewrite list_lookup_insert_ne by done. subst base. destruct old as [o|]; [|naive_solver].
    destruct (decide (o = j)) as [->|Hoj].
    + split; [intros Hx%list_lookup_insert_Some|]; naive_solver.
    + rewrite list_lookup_insert_ne by done. naive_solver.
Qed.

Lemma published_cells ms key obj del kvs' old l c :
  store_inv ms ->
  cells ms !! l = Some c -> cells (published ms key obj del kvs' old) !! l = Some c.
Proof.
  intros Hinv Hc. simpl. rewrite lookup_insert_ne; [done|].
  pose proof (si_fresh ms Hinv l c Hc). lia.
Qed.

Lemma published_inv ms key obj o' del kvs' :
  reserved_inv ms -> key_ok key -> obj = SetObjectResourceVersion o' (MemoryRev ms) ->
  tree_updated ms key del kvs' ->
  store_inv (published ms key obj del kvs' (old_slot ms key)).
Proof.
  intros [Hinv Hfree Holder] Hk Hobj [Hu Htree]. pose proof (si_rev ms Hinv) as Hrev.
  pose proof (kvs_get_inv ms key Hinv Hk) as Hget.
  assert (forall l c, slots ms !! owi_index c = Some (Some l) -> cells ms !! l = Some c ->
    Split (owi_key c) "/" <> Split key "/" ->
    old_slot ms key <> Some (owi_index c) /\ owi_index c <> lastIdx ms) as Hother.
  { intros l c Hs Hc Hne. split; [|intros E; rewrite E in Hs; congruence].
    unfold old_slot. destruct (kvs_get ms key) as [[l0 c0]|]; [|done]. simpl.
    destruct Hget as (_ & Hc0 & <- & _ & Hs0 & _). intros [= E]. rewrite E in Hs0. congruence. }
  split.
  - done.
  - done.
  - simpl. intros l c [[<- _]|[_ Hc]]%lookup_insert_Some; [lia|].
    pose proof (si_fresh ms Hinv l c Hc). lia.
  - simpl. pose proof (si_last ms Hinv). destruct (old_slot ms key); by rewrite !length_insert.
  - intros ks l Hl Hg. simpl in Hg. rewrite Htree in Hg by done.
    case_decide as Hks.
    + destruct del; [done|]. simplify_eq. eexists. split; [apply lookup_insert_eq|].
      split; [done|]. split; [done|]. apply published_slots; [done|]. by left.
    + destruct (si_tree ms Hinv ks l Hl Hg) as (c & Hc & Hkey & Hdel & Hs).
      exists c. split; [by apply published_cells|]. split; [done|]. split; [done|].
      apply published_slots; [done|]. right.
      destruct (Hother l c Hs Hc) as [? ?]; [congruence|done].
  - intros i l Hi. apply published_slots in Hi as [[-> ->]|(Hi & Hold & Hs)]; [..|done].
    + eexists. split; [apply lookup_insert_eq|]. split; [done|]. split; [done|]. split; [done|].
      split; [exists o', (MemoryRev ms); split; [done|simpl; lia]|].
      simpl. intros ->. rewrite Htree by done. by rewrite decide_True.
    + destruct (si_slot ms Hinv i l Hs) as (c & Hc & Hix & Hle & Hko & Hver & Hlive).
      exists c. split; [by apply published_cells|]. split; [done|]. split; [done|]. split; [done|].
      split; [done|]. intros Hdel. specialize (Hlive Hdel). simpl. rewrite Htree by done.
      rewrite decide_False; [done|]. intros E. destruct Hold. unfold old_slot.
      rewrite E in Hlive. by rewrite (tree_get_kvs_get ms key l c Hlive Hc), <- Hix.
  - intros i j li lj ci cj Hij Hi Hj Hci Hcj.
    apply published_slots in Hi as [[-> ->]|(Hi & _ & Hsi)]; [..|done].
    { apply published_slots in Hj as [[-> ->]|(Hj & _ & Hsj)]; [..|done]; [lia|].
      destruct (si_slot ms Hinv j lj Hsj) as (? & _ & _ & ? & _). lia. }
    destruct (si_slot ms Hinv i li Hsi) as (c & Hc & _).
    rewrite (published_cells ms _ _ _ _ _ _ _ Hinv Hc) in Hci. simplify_eq.
    apply published_slots in Hj as [[-> ->]|(Hj & _ & Hsj)]; [..|done].
    + simpl in Hcj. rewrite lookup_insert_eq in Hcj. simplify_eq/=.
      rewrite ObjectRV_Set by lia. by apply (Holder i li).
    + destruct (si_slot ms Hinv j lj Hsj) as (c' & Hc' & _).
      rewrite (published_cells ms _ _ _ _ _ _ _ Hinv Hc') in Hcj. simplify_eq.
      by apply (si_sorted ms Hinv i j li lj).
Qed.

Lemma published_lookup ms key obj del kvs' old key' :
  store_inv ms -> key_ok key -> key_ok key' -> tree_updated ms key del kvs' ->
  store_lookup (published ms key obj del kvs' old) key' =
  if decide (key' = key) then (if del then None else Some obj) else store_lookup ms key'.
Proof.
  intros Hinv Hk Hk' [_ Htree]. unfold store_lookup, kvs_get at 1.
  cbn [kvs published]. rewrite Htree by done.
  destruct (decide (key' = key)) as [->|Hne].
  - rewrite decide_True by done. destruct del; [done|]. simpl. by rewrite lookup_insert_eq.
  - rewrite decide_False by (by intros E%(inj (fun s => Split s "/"))).
    unfold kvs_get. destruct (tree_get (kvs ms) (Split key' "/")) as [l|] eqn:Hg; [|done].
    destruct (si_tree ms Hinv _ l Hk' Hg) as (c & Hc & _).
    by rewrite Hc, (published_cells ms _ _ _ _ _ _ _ Hinv Hc).
Qed.

(** ** The effect of a write *)

(** [ms'] is [ms] after one successful write of [v] under [key] ([None]: the key is gone), with
    the next revision and [ev] sent to the watchers that have not stopped. *)
Record wrote ms ms' (key : string) (v : option Obj) (ev : objEvent S T) : Prop := {
  wr_inv : store_inv ms';
  wr_rev : MemoryRev ms' = MemoryRev ms + 1;
  wr_lookup : forall key', key_ok key' ->
    store_lookup ms' key' = if decide (key' = key) then v else store_lookup ms key';
  wr_watchers : watchers ms' = send_to ev <$> filter (fun w => w_stopped w = false) (watchers ms)
}.

Lemma store_inv_set_watchers ms ws : store_inv ms -> store_inv (set_watchers ws ms).
Proof. intros [? ? ? ? ? ? ?]. by split. Qed.

(** Another store of the process has taken revisions. *)
Lemma store_inv_set_rev ms r :
  store_inv ms -> MemoryRev ms <= r <= MaxUint64 ->
  store_inv (mkMemoryStore r (kvs ms) (revSortedObjList ms) (cells ms) (next_loc ms) (watchers ms)).
Proof.
  intros Hinv Hr. pose proof (si_rev ms Hinv).
  split; simpl; [lia|apply Hinv|apply Hinv|apply Hinv|apply Hinv| |apply Hinv].
  intros i l Hi. destruct (si_slot ms Hinv i l Hi) as (c & ? & ? & ? & ? & ? & ?). exists c.
  repeat split_and!; try done. eapply versioned_mono; [|done]. lia.
Qed.

Lemma reserved_get ms key : kvs_get (reserved ms) key = kvs_get ms key.
Proof. done. Qed.

Lemma published_wrote ms key obj o' del kvs' ev :
  store_inv ms -> MemoryRev ms < MaxUint64 -> key_ok key ->
  obj = SetObjectResourceVersion o' (MemoryRev ms + 1) ->
  tree_updated (reserved ms) key del kvs' ->
  wrote ms (set_watchers (send_to ev <$> filter (fun w => w_stopped w = false) (watchers ms))
      (published (reserved ms) key obj del kvs' (old_slot ms key)))
    key (if del then None else Some obj) ev.
Proof.
  intros Hinv Hr Hk Hobj Ht. pose proof (reserved_spec ms Hinv Hr) as Hri.
  split; [|done| |done].
  - apply store_inv_set_watchers. by eapply (published_inv (reserved ms)).
  - intros key' Hk'.
    pose proof (published_lookup (reserved ms) key obj del kvs' (old_slot ms key) key'
      (ri_inv _ Hri) Hk Hk' Ht) as Hl. done.
Qed.

(** [kvs.put] on the state with the new cell, when the stored object is not newer. *)
Lemma kvs_put_spec ms key o expected :
  reserved_inv ms -> key_ok key ->
  (forall l c, kvs_get ms key = Some (l, c) -> ObjectRV (owi_obj c) <= expected) ->
  let ms1 := (new_owi o ms).2 in
  exists kvs', kvs_put key (next_loc ms) expected ms1 = (Ok (), set_kvs kvs' ms1) /\
    tree_updated ms key false kvs'.
Proof.
  intros [Hinv _ _] Hk Hle ms1. unfold kvs_put.
  destruct (tree_put_uniform (leafRV ms1) depth (kvs ms) (Split key "/") (next_loc ms) expected)
    as (kvs' & Hput & Hu); [apply Hinv|done|done| |].
  { intros l Hl. destruct (si_tree ms Hinv _ l Hk Hl) as (c & Hc & _ & _ & Hs).
    destruct (si_slot ms Hinv _ _ Hs) as (c' & Hc' & _ & _ & _ & Hver & _). simplify_eq.
    apply versioned_RV in Hver as [Hrv _]; [|apply Hinv].
    exists (ObjectRV (owi_obj c)). split.
    - unfold leafRV. simpl. rewrite lookup_insert_ne; [by rewrite Hc|].
      pose proof (si_fresh ms Hinv l c Hc). lia.
    - apply (Hle l c). by apply tree_get_kvs_get. }
  exists kvs'. change (kvs ms1) with (kvs ms). rewrite Hput. split; [done|]. split; [done|].
  intros ks Hks. rewrite (tree_get_put _ _ _ _ _ _ ks Hput).
  destruct (decide (ks = Split key "/")) as [->|Hne]; [by rewrite decide_True|].
  rewrite decide_False; [done|]. rewrite prefix_same_length; [congruence|]. by rewrite Hk, Hks.
Qed.

Lemma kvs_del_spec ms key o :
  reserved_inv ms -> key_ok key ->
  let ms1 := (new_owi o ms).2 in
  exists kvs', kvs_del key ms1 = (Ok (), set_kvs kvs' ms1) /\ tree_updated ms key true kvs'.
Proof.
  intros [Hinv _ _] Hk ms1. unfold kvs_del.
  destruct (tree_del_uniform depth (kvs ms) (Split key "/")) as (kvs' & Hdel & Hu);
    [apply Hinv|done|done|].
  exists kvs'. change (kvs ms1) with (kvs ms). rewrite Hdel. split; [done|]. split; [done|].
  intros ks Hks. rewrite (tree_get_del _ _ _ ks Hdel).
  destruct (decide (ks = Split key "/")) as [->|Hne]; [by rewrite decide_True|].
  rewrite decide_False; [done|]. rewrite prefix_same_length; [congruence|]. by rewrite Hk, Hks.
Qed.

Lemma set_slot_eq ms i v :
  (i < List.length (slots ms))%nat ->
  set_slot i v ms =
    (Ok (), set_list (cells ms) (mkObjList (<[i := v]> (slots ms)) (lastIdx ms)) ms).
Proof. intros Hi. unfold set_slot, objList_Len. by rewrite (proj2 (Nat.ltb_lt _ _) Hi). Qed.

(** The tail the four writing methods share, on the state after the reservation. *)
Lemma fill_new {A} ms key obj treeop kvs' ev (r : A) :
  reserved_inv ms ->
  let c := mkObjWithIndex key obj (lastIdx ms) false in
  treeop (next_loc ms) (new_owi c ms).2 = (Ok (), set_kvs kvs' (new_owi c ms).2) ->
  (do! l <- new_owi c ; do! _ <- treeop l ; do! _ <- set_slot (lastIdx ms) (Some l) ;
   do! _ <- sendEvent ev ; sm_ret r) ms =
  (Ok r, set_watchers (send_to ev <$> filter (fun w => w_stopped w = false) (watchers ms))
           (published ms key obj false kvs' None)).
Proof.
  intros [Hinv _ _] c Ht. pose proof (si_last ms Hinv).
  rewrite sm_bind_eq. cbn [new_owi fst snd] in *. rewrite sm_bind_eq, Ht.
  rewrite sm_bind_eq, set_slot_eq by done. done.
Qed.

Lemma fill_over {A} ms key obj del old treeop kvs' ev (r : A) :
  reserved_inv ms -> (old < List.length (slots ms))%nat ->
  let c := mkObjWithIndex key obj (lastIdx ms) del in
  treeop (next_loc ms) (new_owi c ms).2 = (Ok (), set_kvs kvs' (new_owi c ms).2) ->
  (do! l <- new_owi c ; do! _ <- treeop l ; do! _ <- set_slot old None ;
   do! _ <- set_slot (lastIdx ms) (Some l) ; do! _ <- sendEvent ev ; sm_ret r) ms =
  (Ok r, set_watchers (send_to ev <$> filter (fun w => w_stopped w = false) (watchers ms))
           (published ms key obj del kvs' (Some old))).
Proof.
  intros [Hinv _ _] Hold c Ht. pose proof (si_last ms Hinv).
  rewrite sm_bind_eq. cbn [new_owi fst snd] in *. rewrite sm_bind_eq, Ht.
  rewrite sm_bind_eq, set_slot_eq by done.
  rewrite sm_bind_eq, set_slot_eq by (simpl; by rewrite length_insert). done.
Qed.

Lemma lastIdx_reserved ms : lastIdx (reserved ms) = (lastIdx ms + 1)%nat.
Proof. unfold reserved. simpl. by destruct (_ <? _)%nat. Qed.

(** ** The methods *)

Definition created (ms : MemoryStore S T) (obj : Obj) : Obj :=
  SetObjectResourceVersion (PrepareObjectForStorage obj) (MemoryRev ms + 1).

Lemma Create_spec ms key obj :
  store_inv ms -> key_ok key -> MemoryRev ms < MaxUint64 ->
  match store_lookup ms key with
  | Some _ => Create key obj ms = (Err KeyExistsError, ms)
  | None => exists ms', Create key obj ms = (Ok (created ms obj), ms') /\
      wrote ms ms' key (Some (created ms obj))
        (mkObjEvent key (Some (created ms obj)) None (MemoryRev ms + 1) false true)
  end.
Proof.
  intros Hinv Hk Hr. unfold store_lookup, Create.
  rewrite sm_bind_eq, sm_get_eq. cbn beta iota.
  destruct (kvs_get ms key) as [[l c]|] eqn:Hg; simpl; [done|].
  pose proof (reserved_spec ms Hinv Hr) as Hri.
  rewrite sm_bind_eq, (reserve_eq ms Hinv Hr). cbn beta iota zeta.
  rewrite <- lastIdx_reserved.
  destruct (kvs_put_spec (reserved ms) key (mkObjWithIndex key (created ms obj)
    (lastIdx (reserved ms)) false) 0 Hri Hk) as (kvs' & Hput & Ht).
  { rewrite reserved_get, Hg. done. }
  eexists. split.
  - exact (fill_new (reserved ms) key (created ms obj) (fun l => kvs_put key l 0) kvs' _ _ Hri Hput).
  - replace None with (old_slot ms key) by (unfold old_slot; by rewrite Hg).
    by apply (published_wrote ms key _ (PrepareObjectForStorage obj) false).
Qed.

Lemma old_slot_bound ms key l c :
  store_inv ms -> key_ok key -> kvs_get ms key = Some (l, c) ->
  (owi_index c < List.length (slots (reserved ms)))%nat.
Proof.
  intros Hinv Hk Hg. pose proof (kvs_get_inv ms key Hinv Hk) as H. rewrite Hg in H.
  destruct H as (_ & _ & _ & _ & Hs & _). apply (reserved_slots ms) in Hs.
  by eapply lookup_lt_Some.
Qed.

(** Replacing the object under a key, whatever the new content. *)
Lemma overwrite_spec {A} ms key l c o' ev (r : A) :
  store_inv ms -> key_ok key -> MemoryRev ms < MaxUint64 -> kvs_get ms key = Some (l, c) ->
  let obj := SetObjectResourceVersion o' (MemoryRev ms + 1) in
  exists ms',
    (do! l <- new_owi (mkObjWithIndex key obj (lastIdx ms + 1) false) ;
     do! _ <- kvs_put key l (ObjectRV (owi_obj c)) ; do! _ <- set_slot (owi_index c) None ;
     do! _ <- set_slot (lastIdx ms + 1) (Some l) ; do! _ <- sendEvent ev ; sm_ret r)
      (reserved ms) = (Ok r, ms') /\
    wrote ms ms' key (Some obj) ev.
Proof.
  intros Hinv Hk Hr Hg obj. pose proof (reserved_spec ms Hinv Hr) as Hri.
  rewrite <- lastIdx_reserved.
  destruct (kvs_put_spec (reserved ms) key (mkObjWithIndex key obj (lastIdx (reserved ms)) false)
    (ObjectRV (owi_obj c)) Hri Hk) as (kvs' & Hput & Ht).
  { rewrite reserved_get, Hg. intros ? ? [= <- <-]. done. }
  eexists. split.
  - apply (fill_over (reserved ms) key obj false (owi_index c)
      (fun l => kvs_put key l (ObjectRV (owi_obj c))) kvs' ev r Hri); [|exact Hput].
    by eapply old_slot_bound.
  - replace (Some (owi_index c)) with (old_slot ms key) by (unfold old_slot; by rewrite Hg).
    by apply (published_wrote ms key obj o' false).
Qed.

Lemma lookup_RV ms key l c :
  store_inv ms -> key_ok key -> kvs_get ms key = Some (l, c) ->
  GetObjectResourceVersion (owi_obj c) = Ok (ObjectRV (owi_obj c)).
Proof.
  intros Hinv Hk Hg. pose proof (kvs_get_inv ms key Hinv Hk) as H. rewrite Hg in H.
  destruct H as (_ & _ & _ & _ & _ & Hver). by apply versioned_RV in Hver as [? _]; [|apply Hinv].
Qed.

(** The checks [Delete] and [GuaranteedUpdate] make on what the caller passed. *)
Definition check_cached (cached : option Obj) : result unit :=
  match cached with
  | Some o => match GetObjectResourceVersion o with Ok _ => Ok () | Err _ => Err InternalError end
  | None => Ok ()
  end.
Definition check_pre (pre : option (string -> Obj -> result unit)) (key : string) (o : Obj) :
    result unit := match pre with Some check => check key o | None => Ok () end.
Definition check_val (val : option (Obj -> result unit)) (o : Obj) : result unit :=
  match val with Some check => check o | None => Ok () end.

Definition deleted_event ms (key : string) (o : Obj) : objEvent S T :=
  mkObjEvent key None (Some (SetObjectResourceVersion o (MemoryRev ms + 1))) (MemoryRev ms + 1)
    true false.

Lemma Delete_spec ms key pre val cached :
  store_inv ms -> key_ok key -> MemoryRev ms < MaxUint64 ->
  match (let? _ := check_cached cached in
         match store_lookup ms key with
         | None => Err KeyNotFoundError
         | Some o => let? _ := check_pre pre key o in let? _ := check_val val o in Ok o
         end) with
  | Err e => Delete key pre val cached ms = (Err e, ms)
  | Ok o => exists ms', Delete key pre val cached ms = (Ok o, ms') /\
      wrote ms ms' key None (deleted_event ms key o)
  end.
Proof.
  intros Hinv Hk Hr. unfold store_lookup, Delete.
  rewrite sm_bind_eq, sm_lift_eq. fold (check_cached cached).
  destruct (check_cached cached) as [[]|e]; simpl bind_result; [|done].
  rewrite sm_bind_eq, sm_get_eq. cbn beta iota.
  destruct (kvs_get ms key) as [[l c]|] eqn:Hg; simpl fmap; [|done].
  rewrite sm_bind_eq, sm_lift_eq, (lookup_RV ms key l c Hinv Hk Hg). cbn [option_fmap option_map compose snd].
  rewrite sm_bind_eq, sm_lift_eq. fold (check_pre pre key (owi_obj c)).
  destruct (check_pre pre key (owi_obj c)) as [[]|e]; simpl bind_result; [|done].
  rewrite sm_bind_eq, sm_lift_eq. fold (check_val val (owi_obj c)).
  destruct (check_val val (owi_obj c)) as [[]|e]; simpl bind_result; [|done].
  rewrite sm_bind_eq, (reserve_eq ms Hinv Hr). cbn beta iota zeta.
  pose proof (reserved_spec ms Hinv Hr) as Hri. rewrite <- lastIdx_reserved.
  destruct (kvs_del_spec (reserved ms) key (mkObjWithIndex key
    (SetObjectResourceVersion (owi_obj c) (MemoryRev ms + 1)) (lastIdx (reserved ms)) true) Hri Hk)
    as (kvs' & Hdel & Ht).
  eexists. split.
  - apply (fill_over (reserved ms) key _ true (owi_index c) (fun _ => kvs_del key) kvs' _ _ Hri);
      [by eapply old_slot_bound|exact Hdel].
  - replace (Some (owi_index c)) with (old_slot ms key) by (unfold old_slot; by rewrite Hg).
    by apply (published_wrote ms key _ (owi_obj c) true).
Qed.

Definition modified_event ms (key : string) (o old : Obj) : objEvent S T :=
  mkObjEvent key (Some o) (Some old) (MemoryRev ms + 1) false false.

Lemma GuaranteedUpdate_spec ms key ignore pre upd cached :
  store_inv ms -> key_ok key -> MemoryRev ms < MaxUint64 ->
  match store_lookup ms key with
  | None => GuaranteedUpdate key ignore pre upd cached ms =
            (if ignore then Ok None else Err KeyNotFoundError, ms)
  | Some cur =>
    match (let? _ := check_cached cached in let? _ := check_pre pre key cur in
           UpdateState cur upd) with
    | Err e => GuaranteedUpdate key ignore pre upd cached ms = (Err e, ms)
    | Ok o =>
      let o := SetObjectResourceVersion o (MemoryRev ms + 1) in
      exists ms', GuaranteedUpdate key ignore pre upd cached ms = (Ok (Some o), ms') /\
        wrote ms ms' key (Some o) (modified_event ms key o cur)
    end
  end.
Proof.
  intros Hinv Hk Hr. unfold store_lookup, GuaranteedUpdate.
  rewrite sm_bind_eq, sm_get_eq. cbn beta iota.
  destruct (kvs_get ms key) as [[l c]|] eqn:Hg; simpl fmap; [|by destruct ignore].
  rewrite sm_bind_eq, sm_lift_eq, (lookup_RV ms key l c Hinv Hk Hg). cbn [option_fmap option_map compose snd].
  rewrite sm_bind_eq, sm_lift_eq. fold (check_cached cached).
  destruct (check_cached cached) as [[]|e]; simpl bind_result; [|done].
  rewrite sm_bind_eq, sm_lift_eq. fold (check_pre pre key (owi_obj c)).
  destruct (check_pre pre key (owi_obj c)) as [[]|e]; simpl bind_result; [|done].
  rewrite sm_bind_eq, sm_lift_eq.
  destruct (UpdateState (owi_obj c) upd) as [o|e]; [|done].
  rewrite sm_bind_eq, (reserve_eq ms Hinv Hr). cbn beta iota zeta.
  by apply (overwrite_spec ms key l c).
Qed.

Lemma CreateOrReplace_spec ms key obj :
  store_inv ms -> key_ok key -> MemoryRev ms < MaxUint64 ->
  match store_lookup ms key with
  | None => CreateOrReplace key obj ms = Create key obj ms
  | Some cur =>
    let o := SetObjectResourceVersion obj (MemoryRev ms + 1) in
    exists ms', CreateOrReplace key obj ms = (Ok o, ms') /\
      wrote ms ms' key (Some o) (modified_event ms key o cur)
  end.
Proof.
  intros Hinv Hk Hr. unfold store_lookup, CreateOrReplace.
  rewrite sm_bind_eq, sm_get_eq. cbn beta iota.
  destruct (kvs_get ms key) as [[l c]|] eqn:Hg; simpl fmap; [|done].
  rewrite sm_bind_eq, sm_lift_eq, (lookup_RV ms key l c Hinv Hk Hg). cbn [option_fmap option_map compose snd].
  rewrite sm_bind_eq, (reserve_eq ms Hinv Hr). cbn beta iota zeta.
  by apply (overwrite_spec ms key l c).
Qed.

(** ** House keeping *)

(** The facts about the kept slots [K] that [shrink] relies on. *)
Section Shrink.
Context ms (K : list (option loc)) (Hinv : store_inv ms) (Hsub : K `sublist_of` slots ms)
  (Hlive : forall v, v ∈ slots ms -> slot_dead (cells ms) v = false -> v ∈ K).

Lemma shrink_slots n i o :
  (K ++ replicate n None) !! i = Some (Some o) <-> K !! i = Some (Some o).
Proof. rewrite lookup_app_Some. split; [|tauto]. by intros [H|[_ [? _]%lookup_replicate]]. Qed.

Lemma shrink_from i o : K !! i = Some (Some o) -> exists i', slots ms !! i' = Some (Some o).
Proof.
  intros Hi%list_elem_of_lookup_2. by eapply elem_of_sublist, list_elem_of_lookup in Hi.
Qed.

Lemma shrink_ne i j o : K !! i = Some (Some o) -> K !! j = Some (Some o) -> (i < j)%nat -> False.
Proof.
  intros Hi Hj Hlt.
  destruct (sublist_order K (slots ms) i j _ _ Hsub Hi Hj Hlt) as (i' & j' & Hlt' & Hi' & Hj').
  pose proof (slots_inj ms i' j' o Hinv Hi' Hj'). lia.
Qed.

Lemma shrink_cell i o c : K !! i = Some (Some o) -> cells ms !! o = Some c ->
  reindex (cells ms) 0 K !! o = Some (owi_set_index i c).
Proof.
  intros Hi Hc. rewrite (reindex_in (cells ms) 0 K i o Hi); [by rewrite Hc|].
  intros j Hj. destruct (Nat.lt_trichotomy i j) as [Hlt|[->|Hlt]]; [exfalso|done|exfalso].
  - by apply (shrink_ne i j o).
  - by apply (shrink_ne j i o).
Qed.

Lemma shrink_tree ks o : List.length ks = depth -> tree_get (kvs ms) ks = Some o ->
  exists c i, cells ms !! o = Some c /\ K !! i = Some (Some o) /\ owi_deleted c = false /\
    Split (owi_key c) "/" = ks.
Proof.
  intros Hk Ho. destruct (si_tree ms Hinv _ o Hk Ho) as (c & Hc & Hkey & Hdel & Hslot).
  assert (Some o ∈ K) as [i Hi]%list_elem_of_lookup.
  { apply Hlive; [by eapply list_elem_of_lookup_2|]. simpl. by rewrite Hc. }
  by exists c, i.
Qed.

Lemma shrink_inv_aux n : (0 < n + List.length K)%nat ->
  store_inv (set_list (reindex (cells ms) 0 K)
    (mkObjList (K ++ replicate n None) (last_some 0 0 K)) ms).
Proof.
  intros Hn. split; simpl; [apply Hinv|apply Hinv| | | | |].
  - intros o c Ho. pose proof (reindex_data (cells ms) 0 K o) as Hd. rewrite Ho in Hd.
    destruct (cells ms !! o) as [c0|] eqn:Hc0; [|done]. by apply (si_fresh ms Hinv o c0).
  - rewrite length_app, length_replicate. pose proof (last_some_lt K 0 0). lia.
  - intros ks o Hl Hg. destruct (shrink_tree ks o Hl Hg) as (c & i & Hc & Hi & Hdel & Hkey).
    exists (owi_set_index i c). split; [by apply shrink_cell|]. split; [done|]. split; [done|].
    by apply shrink_slots.
  - intros i o Hi%shrink_slots. destruct (shrink_from i o Hi) as [i' Hi'].
    destruct (si_slot ms Hinv i' o Hi') as (c & Hc & _ & _ & Hko & Hver & Hlv).
    exists (owi_set_index i c). split; [by apply shrink_cell|]. split; [done|].
    split; [by apply (last_some_bound K 0 0 i o)|]. done.
  - intros i j oi oj ci cj Hij Hi%shrink_slots Hj%shrink_slots Hci Hcj.
    destruct (sublist_order K (slots ms) i j _ _ Hsub Hi Hj Hij) as (i' & j' & Hij' & Hi' & Hj').
    destruct (si_slot ms Hinv i' oi Hi') as (c1 & Hc1 & _).
    destruct (si_slot ms Hinv j' oj Hj') as (c2 & Hc2 & _).
    rewrite (shrink_cell i oi c1 Hi Hc1) in Hci. rewrite (shrink_cell j oj c2 Hj Hc2) in Hcj.
    simplify_eq/=. by apply (si_sorted ms Hinv i' j' oi oj).
Qed.
End Shrink.

(** Removing dead slots and moving the rest up keeps the two structures in step. *)
Lemma shrink_inv ms n cs l :
  store_inv ms -> (0 < n)%nat -> shrink (cells ms) (revSortedObjList ms) n = (cs, l) ->
  store_inv (set_list cs l ms) /\
  forall key, key_ok key -> store_lookup (set_list cs l ms) key = store_lookup ms key.
Proof.
  intros Hinv Hn Hs.
  destruct (decide (u64 (Z.of_nat (objList_Len (revSortedObjList ms)) - Z.of_nat n) = 0)) as [E|E].
  { unfold shrink in Hs. rewrite E in Hs. simplify_eq/=. destruct Hinv. by split. }
  rewrite shrink_spec in Hs by done. revert Hs.
  set (d := u64 (Z.of_nat (objList_Len (revSortedObjList ms)) - Z.of_nat n)). intros [= <- <-].
  pose proof (keep_sublist (cells ms) d (slots ms)) as Hsub.
  pose proof (fun v => keep_live (cells ms) d (slots ms) v) as Hlive.
  split; [by apply shrink_inv_aux; [done..|lia]|].
  intros key Hk. unfold store_lookup, kvs_get. simpl.
  destruct (tree_get (kvs ms) (Split key "/")) as [o|] eqn:Ho; [|done].
  destruct (shrink_tree ms _ Hinv Hlive _ o Hk Ho) as (c & i & Hc & Hi & _).
  by rewrite (shrink_cell ms _ Hinv Hsub i o c Hi Hc), Hc.
Qed.

(** The objects [count] finds in the tree are the live slots of the list. *)
Definition live_slots ms : list (option loc) :=
  filter (fun v => slot_dead (cells ms) v = false) (slots ms).

Lemma elem_of_live_slots ms l :
  store_inv ms ->
  Some l ∈ live_slots ms <-> exists ks, (ks, l) ∈ leaves depth (kvs ms).
Proof.
  intros Hinv. unfold live_slots. rewrite list_elem_of_filter. split.
  - intros [Hlive [i Hi]%list_elem_of_lookup].
    destruct (si_slot ms Hinv i l Hi) as (c & Hc & _ & _ & Hk & _ & Hg).
    simpl in Hlive. rewrite Hc in Hlive. exists (Split (owi_key c) "/").
    apply elem_of_leaves; [apply Hinv|done|]. by split; [|apply Hg].
  - intros [ks [Hl Hg]%elem_of_leaves]; [|apply Hinv|done].
    destruct (si_tree ms Hinv ks l Hl Hg) as (c & Hc & _ & Hd & Hs).
    simpl. rewrite Hc. split; [done|]. by eapply list_elem_of_lookup_2.
Qed.

Lemma count_live ms :
  store_inv ms -> countItemsInMap (kvs ms) = Z.of_nat (List.length (live_slots ms)).
Proof.
  intros Hinv. rewrite (count_leaves depth) by (done || apply Hinv).
  rewrite <- (length_fmap (fun x => Some x.2)). f_equal. apply Permutation_length, NoDup_Permutation.
  - erewrite (list_fmap_ext _ (Some ∘ snd)) by done. rewrite list_fmap_compose.
    apply (NoDup_fmap_2 _).
    pose proof (NoDup_leaves_keys depth (kvs ms) (si_uniform ms Hinv) Hdepth) as Hnd.
    assert (forall ks l, (ks, l) ∈ leaves depth (kvs ms) ->
      exists c, cells ms !! l = Some c /\ Split (owi_key c) "/" = ks) as Hleaf.
    { intros ks l [Hl Hg]%elem_of_leaves; [|apply Hinv|done].
      destruct (si_tree ms Hinv ks l Hl Hg) as (c & Hc & Hk & _). eauto. }
    induction (leaves depth (kvs ms)) as [|[ks l] L IH]; [constructor|]. csimpl in *.
    apply NoDup_cons in Hnd as [Hks Hnd]. constructor.
    + intros ([ks' l'] & -> & Hin)%list_elem_of_fmap.
      destruct (Hleaf ks l') as (c & Hc & Hk1); [left|].
      destruct (Hleaf ks' l') as (c' & Hc' & Hk2); [by right|]. simplify_eq.
      apply Hks, list_elem_of_fmap. eexists. split; [|done]. done.
    + apply IH; [done|]. intros ? ? Hin. apply Hleaf. by right.
  - apply NoDup_filter_lookup. intros i j [l|] Hi Hj Hd; [|done]. by apply (slots_inj ms i j l).
  - intros [l|].
    + rewrite elem_of_live_slots by done. rewrite list_elem_of_fmap. split.
      * intros ([ks l'] & [= ->] & Hin). eauto.
      * intros [ks Hin]. by exists (ks, l).
    + unfold live_slots. rewrite list_elem_of_fmap, list_elem_of_filter. simpl. naive_solver.
Qed.

(** Dead and live slots make up the list. *)
Lemma dead_live ms :
  (List.length (filter (fun v => slot_dead (cells ms) v = true) (slots ms)) +
   List.length (live_slots ms) = List.length (slots ms))%nat.
Proof.
  unfold live_slots. induction (slots ms) as [|v l IH]; [done|].
  rewrite !filter_cons. destruct (slot_dead (cells ms) v); simpl; lia.
Qed.

Lemma houseKeeping_spec ms :
  store_inv ms -> Z.of_nat (List.length (slots ms)) <= MaxInt64 ->
  let ms' := houseKeeping ms in
  store_inv ms' /\ MemoryRev ms' = MemoryRev ms /\ watchers ms' = watchers ms /\
  (forall key, key_ok key -> store_lookup ms' key = store_lookup ms key) /\
  (Z.of_nat (lastIdx ms) <= Z.of_nat (List.length (live_slots ms)) + NilSlotShrinkHighThrehold ->
     ms' = ms) /\
  (Z.of_nat (List.length (live_slots ms)) + NilSlotShrinkHighThrehold < Z.of_nat (lastIdx ms) ->
     Z.of_nat (List.length (slots ms')) =
     Z.of_nat (List.length (live_slots ms)) + NilSlotShrinkLowThrehold).
Proof.
  intros Hinv Hmem. unfold houseKeeping. rewrite (count_live ms Hinv).
  pose proof (si_last ms Hinv) as Hlast. pose proof (dead_live ms) as Hdl.
  set (c := Z.of_nat (List.length (live_slots ms))) in *.
  assert (0 <= c <= MaxInt64) by (unfold c; lia).
  unfold NilSlotShrinkHighThrehold, NilSlotShrinkLowThrehold in *.
  assert (MaxInt64 = 2 ^ 63 - 1) as Hmax by done.
  rewrite !wrapu_small by lia.
  destruct (Z.ltb_spec (c + 20000) (Z.of_nat (lastIdx ms))) as [Hsh|Hsh];
    [|split; [done|]; split; [done|]; split; [done|]; split; [done|]; split; [done|lia]].
  destruct (shrink (cells ms) (revSortedObjList ms) (Z.to_nat (c + 10000))) as [cs l] eqn:Hs.
  destruct (shrink_inv ms (Z.to_nat (c + 10000)) cs l Hinv) as [Hinv' Hlk]; [lia|done|].
  split; [done|]. split; [done|]. split; [done|]. split; [done|]. split; [lia|]. intros _.
  assert (u64 (Z.of_nat (objList_Len (revSortedObjList ms)) - Z.of_nat (Z.to_nat (c + 10000))) =
    Z.of_nat (List.length (slots ms)) - (c + 10000)) as Hd.
  { unfold objList_Len. rewrite wrapu_small; lia. }
  rewrite shrink_spec in Hs by lia. simplify_eq/=.
  rewrite length_app, length_replicate, Hd.
  pose proof (keep_length (cells ms) (Z.of_nat (List.length (slots ms)) - (c + 10000)) (slots ms)).
  lia.
Qed.
End StoreInvariant.

(** House keeping never changes what clients see.  When the list has grown more than 20000
    slots past the number of stored objects it is cut down to that number plus 10000, by dropping
    dead slots only; otherwise nothing happens. *)
Theorem house_keeping_exact {S T} (depth : nat) (ms : MemoryStore S T) :
  depth <> 0%nat -> store_inv depth ms ->
  Z.of_nat (List.length (objs (revSortedObjList ms))) <= MaxInt64 ->
  let ms' := houseKeeping ms in
  let live := Z.of_nat (List.length (live_slots ms)) in
  store_inv depth ms' /\ MemoryRev ms' = MemoryRev ms /\ watchers ms' = watchers ms /\
  (forall key, key_ok depth key -> store_lookup ms' key = store_lookup ms key) /\
  (Z.of_nat (lastObjIndex (revSortedObjList ms)) <= live + NilSlotShrinkHighThrehold -> ms' = ms) /\
  (live + NilSlotShrinkHighThrehold < Z.of_nat (lastObjIndex (revSortedObjList ms)) ->
     Z.of_nat (List.length (objs (revSortedObjList ms'))) = live + NilSlotShrinkLowThrehold).
Proof. intros Hd Hinv Hm. by apply houseKeeping_spec. Qed.

(** An empty store whose list has run 30000 slots ahead. *)
Definition stretched_store : MemoryStore unit unit :=
  mkMemoryStore 100 ∅ (mkObjList (replicate (Z.to_nat 40000) None) (Z.to_nat 30000)) ∅ 0%nat [].

Lemma house_keeping_exact_witness :
  Z.of_nat (List.length (objs (revSortedObjList (houseKeeping stretched_store)))) = 10000.
Proof.
  assert (Z.of_nat (List.length (objs (revSortedObjList stretched_store))) = 40000) as Hlen
    by (vm_compute; reflexivity).
  destruct (house_keeping_exact 4 stretched_store) as (_ & _ & _ & _ & _ & H).
  - discriminate.
  - split; [split; vm_compute; congruence|apply uniform_empty|intros l c H; inversion H
      |apply Nat.ltb_lt; vm_compute; reflexivity|intros ks l _ H; by rewrite tree_get_empty in H| |].
    + intros i l [H _]%lookup_replicate. discriminate.
    + intros i j li lj ci cj _ [H _]%lookup_replicate. discriminate.
  - rewrite Hlen. vm_compute. congruence.
  - apply H. vm_compute. reflexivity.
Defined.
