(* ===== verification/StoreRefinement.v ===== *)
(** * The memory store refines a versioned map

    The contract of the store is a map from keys to objects with one revision counter
    ([VersionedMap]).  [store_refines] shows that the methods of [MemoryStore] give the answers
    of that specification and keep the relation; the rest of the file derives what clients of the
    store rely on: optimistic concurrency, complete lists, and watches a client can replay. *)

From S2P Require Import Prelude GoStrings ApiTypes ObjectVersion ObjStoreMap MemoryStore StoreInvariant.
From Stdlib Require Import String.
#[local] Open Scope Z_scope.

(** ** The specification *)

Module VersionedMap.
Section VersionedMap.
Context {S T : Type}.
Abbreviation Obj := (Object S T).

Record vmap := mkVMap { rev : Z; objects : gmap string Obj }.

(** Store [o] under [key] with the next revision. *)
Definition write (key : string) (o : Obj) (a : vmap) : Obj * vmap :=
  let o := SetObjectResourceVersion o (rev a + 1) in
  (o, mkVMap (rev a + 1) (<[key := o]> (objects a))).

Definition create (key : string) (o : Obj) (a : vmap) : result (option Obj) * vmap :=
  match objects a !! key with
  | Some _ => (Err KeyExistsError, a)
  | None => let '(o, a) := write key (PrepareObjectForStorage o) a in (Ok (Some o), a)
  end.

Definition remove (key : string) (check : Obj -> result unit) (a : vmap) : result (option Obj) * vmap :=
  match objects a !! key with
  | None => (Err KeyNotFoundError, a)
  | Some o =>
    match check o with
    | Err e => (Err e, a)
    | Ok _ => (Ok (Some o), mkVMap (rev a + 1) (delete key (objects a)))
    end
  end.

Definition update (key : string) (ignoreNotFound : bool) (f : Obj -> result Obj) (a : vmap) :
    result (option Obj) * vmap :=
  match objects a !! key with
  | None => (if ignoreNotFound then Ok None else Err KeyNotFoundError, a)
  | Some o =>
    match f o with
    | Err e => (Err e, a)
    | Ok o' => let '(o', a) := write key o' a in (Ok (Some o'), a)
    end
  end.
End VersionedMap.
Arguments vmap : clear implicits.
End VersionedMap.
Import VersionedMap.

(** ** Calls *)

Section Refinement.
Context {S T : Type} (depth : nat) (Hdepth : depth <> 0%nat).
Abbreviation Obj := (Object S T).
Abbreviation MStore := (MemoryStore S T).
Abbreviation Pre := (option (string -> Obj -> result unit)).

Inductive store_op :=
  | OpCreate (key : string) (obj : Obj)
  | OpDelete (key : string) (pre : Pre) (val : option (Obj -> result unit)) (cached : option Obj)
  | OpUpdate (key : string) (ignoreNotFound : bool) (pre : Pre) (tryUpdate : UpdateFunc S T)
      (cached : option Obj)
  | OpCreateOrUpdate (key : string) (obj : Obj) (merge : option (Obj -> Obj -> result Obj))
  | OpGetOrCreate (key : string) (obj : Obj)
  | OpCreateOrReplace (key : string) (obj : Obj)
  | OpEnsureUpdateAndDelete (key : string) (ignoreNotFound : bool) (pre : Pre) (obj : Obj)
  | OpGet (key : string) (opts : GetOptions)
  | OpHouseKeeping
  (** another store of the process takes revisions *)
  | OpOther (n : Z).

Definition sm_some {St A} (c : SM St A) : SM St (option A) := do! a <- c ; sm_ret (Some a).

Definition run (op : store_op) : SM MStore (option Obj) :=
  match op with
  | OpCreate key obj => sm_some (Create key obj)
  | OpDelete key pre val cached => sm_some (Delete key pre val cached)
  | OpUpdate key ignore pre upd cached => GuaranteedUpdate key ignore pre upd cached
  | OpCreateOrUpdate key obj merge => CreateOrUpdate key obj merge
  | OpGetOrCreate key obj => sm_some (GetOrCreate key obj)
  | OpCreateOrReplace key obj => sm_some (CreateOrReplace key obj)
  | OpEnsureUpdateAndDelete key ignore pre obj => EnsureUpdateAndDelete key ignore pre obj
  | OpGet key opts => fun ms => (Get ms key opts, ms)
  | OpHouseKeeping => fun ms => (Ok None, houseKeeping ms)
  | OpOther n => fun ms =>
    (Ok None, mkMemoryStore (MemoryRev ms + n) (kvs ms) (revSortedObjList ms) (cells ms)
                (next_loc ms) (watchers ms))
  end.

(** What the specification answers to the same call. *)
Definition spec_delete key (pre : Pre) val (cached : option Obj) (a : vmap S T) : result (option Obj) * vmap S T :=
  match check_cached cached with
  | Err e => (Err e, a)
  | Ok _ => remove key (fun o => let? _ := check_pre pre key o in check_val val o) a
  end.

Definition spec_update key ignore (pre : Pre) upd (cached : option Obj) (a : vmap S T) :
    result (option Obj) * vmap S T :=
  update key ignore (fun o => let? _ := check_cached cached in
                              let? _ := check_pre pre key o in UpdateState o upd) a.

Definition run_spec (op : store_op) (a : vmap S T) : result (option Obj) * vmap S T :=
  match op with
  | OpCreate key obj => create key obj a
  | OpDelete key pre val cached => spec_delete key pre val cached a
  | OpUpdate key ignore pre upd cached => spec_update key ignore pre upd cached a
  | OpCreateOrUpdate key obj merge =>
    match objects a !! key, merge with
    | None, _ => create key obj a
    | Some _, None => (Err (OtherError "Do not have merge function to update existing object"), a)
    | Some cur, Some merge =>
      match merge cur obj with
      | Err e => (Err e, a)
      | Ok o => spec_update key false None (GetTryUpdateFunc o) None a
      end
    end
  | OpGetOrCreate key obj =>
    match objects a !! key with Some o => (Ok (Some o), a) | None => create key obj a end
  | OpCreateOrReplace key obj =>
    match objects a !! key with
    | None => create key obj a
    | Some _ => let '(o, a) := write key obj a in (Ok (Some o), a)
    end
  | OpEnsureUpdateAndDelete key ignore pre obj =>
    match spec_update key ignore pre (GetTryUpdateFunc obj) None a with
    | (Ok (Some o), a') =>
      if ShouldDeleteSpec o then
        match spec_delete key pre None None a' with
        | (Ok out, a'') => (Ok out, a'')
        | (Err _, a'') => (Ok (Some o), a'')
        end
      else (Ok (Some o), a')
    | r => r
    end
  | OpGet key opts =>
    (match objects a !! key with
     | None => if go_IgnoreNotFound opts then Ok None else Err KeyNotFoundError
     | Some o => let? _ := ValidateMinimumResourceVersion (go_ResourceVersion opts) (ObjectRV o) in
                 Ok (Some o)
     end, a)
  | OpHouseKeeping => (Ok None, a)
  | OpOther n => (Ok None, mkVMap (rev a + n) (objects a))
  end.

(** The calls the relation is kept by: keys of the right depth, and a counter that has not reached
    the top of its range (a process starts [2^62] below it). *)
Definition op_ok (op : store_op) (ms : MStore) : Prop :=
  MemoryRev ms + 2 <= MaxUint64 /\
  match op with
  | OpCreate key _ | OpDelete key _ _ _ | OpUpdate key _ _ _ _ | OpCreateOrUpdate key _ _
  | OpGetOrCreate key _ | OpCreateOrReplace key _ | OpEnsureUpdateAndDelete key _ _ _
  | OpGet key _ => key_ok depth key
  | OpHouseKeeping => Z.of_nat (List.length (objs (revSortedObjList ms))) <= MaxInt64
  | OpOther n => 0 <= n /\ MemoryRev ms + n <= MaxUint64
  end.

Record refines (ms : MStore) (a : vmap S T) : Prop := {
  rf_inv : store_inv depth ms;
  rf_rev : MemoryRev ms = rev a;
  rf_lookup : forall key, key_ok depth key -> store_lookup ms key = objects a !! key;
  rf_dom : forall key, is_Some (objects a !! key) -> key_ok depth key
}.

Lemma refines_new r : 0 < r <= MaxUint64 -> refines (NewMemoryStore r) (mkVMap r ∅).
Proof.
  intros Hr. split; [by apply store_inv_new|done| |].
  - intros key _. unfold store_lookup, kvs_get. simpl. by rewrite tree_get_empty, lookup_empty.
  - intros key [o Ho]. simpl in Ho. by rewrite lookup_empty in Ho.
Qed.

(** A write of the store is a write of the map. *)
Lemma refines_wrote ms ms' a key v ev :
  refines ms a -> key_ok depth key -> wrote depth ms ms' key v ev ->
  refines ms' (mkVMap (rev a + 1)
    (match v with Some o => <[key := o]> (objects a) | None => delete key (objects a) end)).
Proof.
  intros [Hinv Hrev Hlk Hdom] Hk [Hinv' Hrev' Hlk' _]. split; [done|simpl; lia| |]; simpl.
  - intros key' Hk'. rewrite Hlk' by done. case_decide as E.
    + subst key'. destruct v; by rewrite ?lookup_insert_eq, ?lookup_delete_eq.
    + rewrite Hlk by done. destruct v; by rewrite ?lookup_insert_ne, ?lookup_delete_ne by congruence.
  - intros key' Hs. destruct (decide (key' = key)) as [->|E]; [done|]. apply Hdom.
    destruct v; by rewrite ?lookup_insert_ne, ?lookup_delete_ne in Hs by congruence.
Qed.

(** One call: equal answers, related states. *)
Definition agrees (x : result (option Obj) * MStore) (y : result (option Obj) * vmap S T) : Prop :=
  x.1 = y.1 /\ refines x.2 y.2.

Lemma Create_agrees ms a key obj :
  refines ms a -> key_ok depth key -> MemoryRev ms < MaxUint64 ->
  agrees (sm_some (Create key obj) ms) (create key obj a).
Proof.
  intros Hrf Hk Hr. pose proof (Create_spec depth Hdepth ms key obj (rf_inv _ _ Hrf) Hk Hr) as H.
  unfold create, sm_some. rewrite sm_bind_eq. rewrite (rf_lookup _ _ Hrf key Hk) in H.
  destruct (objects a !! key) as [o|]; [by rewrite H|].
  destruct H as (ms' & -> & Hw). unfold write, created in *. rewrite <- (rf_rev _ _ Hrf) in *.
  split; [done|]. rewrite (rf_rev _ _ Hrf) in *.
  by apply (refines_wrote ms ms' a key _ _ Hrf Hk Hw).
Qed.

Lemma Delete_agrees ms a key pre val cached :
  refines ms a -> key_ok depth key -> MemoryRev ms < MaxUint64 ->
  agrees (sm_some (Delete key pre val cached) ms) (spec_delete key pre val cached a).
Proof.
  intros Hrf Hk Hr.
  pose proof (Delete_spec depth Hdepth ms key pre val cached (rf_inv _ _ Hrf) Hk Hr) as H.
  unfold spec_delete, remove, sm_some. rewrite sm_bind_eq. rewrite (rf_lookup _ _ Hrf key Hk) in H.
  destruct (check_cached cached) as [[]|e]; simpl in *; [|by rewrite H].
  destruct (objects a !! key) as [o|]; [|by rewrite H].
  destruct (check_pre pre key o) as [[]|e]; simpl in *; [|by rewrite H].
  destruct (check_val val o) as [[]|e]; simpl in *; [|by rewrite H].
  destruct H as (ms' & -> & Hw). split; [done|].
  by apply (refines_wrote ms ms' a key _ _ Hrf Hk Hw).
Qed.

Lemma Update_agrees ms a key ignore pre upd cached :
  refines ms a -> key_ok depth key -> MemoryRev ms < MaxUint64 ->
  agrees (GuaranteedUpdate key ignore pre upd cached ms) (spec_update key ignore pre upd cached a).
Proof.
  intros Hrf Hk Hr.
  pose proof (GuaranteedUpdate_spec depth Hdepth ms key ignore pre upd cached (rf_inv _ _ Hrf) Hk Hr)
    as H.
  unfold spec_update, update. rewrite (rf_lookup _ _ Hrf key Hk) in H.
  destruct (objects a !! key) as [o|]; [|by rewrite H].
  destruct (let? _ := check_cached cached in _) as [o'|e]; [|by rewrite H].
  destruct H as (ms' & -> & Hw). unfold write. rewrite <- (rf_rev _ _ Hrf) in *.
  split; [done|]. rewrite (rf_rev _ _ Hrf) in *.
  by apply (refines_wrote ms ms' a key _ _ Hrf Hk Hw).
Qed.

Lemma refines_RV ms a key o :
  refines ms a -> objects a !! key = Some o ->
  GetObjectResourceVersion o = Ok (ObjectRV o) /\ 0 < ObjectRV o <= rev a.
Proof.
  intros Hrf Ho. assert (key_ok depth key) as Hk by (apply (rf_dom _ _ Hrf); eauto).
  rewrite <- (rf_lookup _ _ Hrf key Hk) in Ho. unfold store_lookup in Ho.
  pose proof (kvs_get_inv depth ms key (rf_inv _ _ Hrf) Hk) as Hg.
  destruct (kvs_get ms key) as [[l c]|]; simplify_eq/=. destruct Hg as (_ & _ & _ & _ & _ & Hv).
  rewrite <- (rf_rev _ _ Hrf). apply (versioned_RV (MemoryRev ms)); [|done].
  apply (si_rev depth ms (rf_inv _ _ Hrf)).
Qed.

(** [kvs.get] as the map sees it. *)
Lemma refines_get ms a key :
  refines ms a -> key_ok depth key ->
  match objects a !! key with
  | None => kvs_get ms key = None
  | Some o => exists l c, kvs_get ms key = Some (l, c) /\ owi_obj c = o
  end.
Proof.
  intros Hrf Hk. rewrite <- (rf_lookup _ _ Hrf key Hk). unfold store_lookup.
  destruct (kvs_get ms key) as [[l c]|]; simpl; eauto.
Qed.

Lemma CreateOrUpdate_agrees ms a key obj merge :
  refines ms a -> key_ok depth key -> MemoryRev ms < MaxUint64 ->
  agrees (CreateOrUpdate key obj merge ms) (run_spec (OpCreateOrUpdate key obj merge) a).
Proof.
  intros Hrf Hk Hr. unfold CreateOrUpdate. rewrite sm_bind_eq, sm_get_eq. cbn [run_spec].
  pose proof (refines_get ms a key Hrf Hk) as Hg.
  destruct (objects a !! key) as [o|] eqn:Ho.
  - destruct Hg as (l & c & -> & Hc). destruct merge as [merge|]; [|by split].
    rewrite Hc, sm_bind_eq, sm_lift_eq. destruct (merge o obj) as [o'|e]; [|by split].
    pose proof (Update_agrees ms a key false None (GetTryUpdateFunc o') (Some o) Hrf Hk Hr) as H.
    unfold spec_update, update in *. rewrite Ho in *. unfold check_cached in *.
    by rewrite (proj1 (refines_RV ms a key o Hrf Ho)) in H.
  - rewrite Hg. by apply Create_agrees.
Qed.

Lemma GetOrCreate_agrees ms a key obj :
  refines ms a -> key_ok depth key -> MemoryRev ms < MaxUint64 ->
  agrees (sm_some (GetOrCreate key obj) ms) (run_spec (OpGetOrCreate key obj) a).
Proof.
  intros Hrf Hk Hr. unfold GetOrCreate, sm_some. rewrite !sm_bind_eq, sm_get_eq. cbn [run_spec].
  pose proof (refines_get ms a key Hrf Hk) as Hg.
  destruct (objects a !! key) as [o|] eqn:Ho.
  - destruct Hg as (l & c & -> & <-). by split.
  - rewrite Hg. by apply Create_agrees.
Qed.

Lemma CreateOrReplace_agrees ms a key obj :
  refines ms a -> key_ok depth key -> MemoryRev ms < MaxUint64 ->
  agrees (sm_some (CreateOrReplace key obj) ms) (run_spec (OpCreateOrReplace key obj) a).
Proof.
  intros Hrf Hk Hr.
  pose proof (CreateOrReplace_spec depth Hdepth ms key obj (rf_inv _ _ Hrf) Hk Hr) as H.
  rewrite (rf_lookup _ _ Hrf key Hk) in H. unfold sm_some. rewrite sm_bind_eq. cbn [run_spec].
  destruct (objects a !! key) as [o|] eqn:Ho.
  - destruct H as (ms' & -> & Hw). unfold write. rewrite <- (rf_rev _ _ Hrf) in *.
    split; [done|]. rewrite (rf_rev _ _ Hrf) in *.
    by apply (refines_wrote ms ms' a key _ _ Hrf Hk Hw).
  - rewrite H. by apply Create_agrees.
Qed.

Lemma update_rev ms a key ignore pre upd cached o ms' :
  refines ms a -> key_ok depth key -> MemoryRev ms < MaxUint64 ->
  GuaranteedUpdate key ignore pre upd cached ms = (Ok (Some o), ms') ->
  MemoryRev ms' = MemoryRev ms + 1.
Proof.
  intros Hrf Hk Hr Hg.
  pose proof (GuaranteedUpdate_spec depth Hdepth ms key ignore pre upd cached (rf_inv _ _ Hrf) Hk Hr)
    as H.
  destruct (store_lookup ms key) as [cur|]; [|rewrite Hg in H; by destruct ignore].
  destruct (let? _ := check_cached cached in _) as [o'|e]; [|by rewrite Hg in H].
  destruct H as (ms2 & H & Hw). rewrite Hg in H. simplify_eq. apply Hw.
Qed.

Lemma EnsureUpdateAndDelete_agrees ms a key ignore pre obj :
  refines ms a -> key_ok depth key -> MemoryRev ms + 2 <= MaxUint64 ->
  agrees (EnsureUpdateAndDelete key ignore pre obj ms)
    (run_spec (OpEnsureUpdateAndDelete key ignore pre obj) a).
Proof.
  intros Hrf Hk Hr. unfold EnsureUpdateAndDelete. rewrite sm_bind_eq. cbn [run_spec].
  destruct (Update_agrees ms a key ignore pre (GetTryUpdateFunc obj) None Hrf Hk) as [H1 H2]; [lia|].
  destruct (GuaranteedUpdate _ _ _ _ _ ms) as [r ms'] eqn:Hu.
  destruct (spec_update _ _ _ _ _ a) as [r' a'] eqn:Ha. simpl in H1, H2. subst r'.
  destruct r as [[o|]|e]; [|by split|by split].
  destruct (ShouldDeleteSpec o); [|by split].
  assert (MemoryRev ms' = MemoryRev ms + 1) as Hrev by (eapply update_rev; [done|done|lia|done]).
  destruct (Delete_agrees ms' a' key pre (Some (fun _ => Ok ())) (Some o) H2 Hk) as [D1 D2]; [lia|].
  assert (exists r, GetObjectResourceVersion o = Ok r) as [rv Hrv].
  { unfold spec_update, update in Ha. destruct (objects a !! key); [|by destruct ignore].
    destruct (let? _ := check_cached None in _); [|done].
    unfold write in Ha. simplify_eq/=. eexists. apply SetGet_ResourceVersion.
    pose proof (si_rev _ ms (rf_inv _ _ Hrf)). rewrite (rf_rev _ _ Hrf) in *. lia. }
  unfold sm_some in D1, D2. rewrite sm_bind_eq in D1, D2.
  assert (spec_delete key pre (Some (fun _ => Ok ())) (Some o) a' = spec_delete key pre None None a')
    as Hsd.
  { unfold spec_delete, check_cached. rewrite Hrv. done. }
  rewrite Hsd in D1, D2.
  destruct (Delete key pre _ (Some o) ms') as [[out|e] ms''];
    destruct (spec_delete key pre None None a') as [[out'|e'] a'']; simpl in D1, D2; by simplify_eq.
Qed.

Lemma Get_agrees ms a key opts :
  refines ms a -> key_ok depth key -> Get ms key opts = (run_spec (OpGet key opts) a).1.
Proof.
  intros Hrf Hk. unfold Get. pose proof (refines_get ms a key Hrf Hk) as Hg. simpl.
  destruct (objects a !! key) as [o|] eqn:Ho; [|by rewrite Hg].
  destruct Hg as (l & c & -> & <-). by rewrite (proj1 (refines_RV ms a key _ Hrf Ho)).
Qed.

Lemma run_agrees op ms a : refines ms a -> op_ok op ms -> agrees (run op ms) (run_spec op a).
Proof.
  intros Hrf [Hr Hok]. destruct op; cbn [run].
  - apply Create_agrees; [done|done|lia].
  - apply Delete_agrees; [done|done|lia].
  - apply Update_agrees; [done|done|lia].
  - apply CreateOrUpdate_agrees; [done|done|lia].
  - apply GetOrCreate_agrees; [done|done|lia].
  - apply CreateOrReplace_agrees; [done|done|lia].
  - by apply EnsureUpdateAndDelete_agrees.
  - split; [by apply Get_agrees|done].
  - destruct (houseKeeping_spec depth Hdepth ms (rf_inv _ _ Hrf) Hok) as (? & ? & _ & Hlk & _).
    split; [done|]. destruct Hrf as [Hinv Hrev Hl Hd]. split; simpl; [done|congruence| |done].
    intros key Hk. by rewrite Hlk, Hl.
  - split; [done|]. destruct Hrf as [Hinv Hrev Hl Hd].
    split; simpl; [|congruence|done|done]. apply (store_inv_set_rev depth Hdepth ms); [done|lia].
Qed.

(** A sequence of calls, with the answers. *)
Fixpoint run_all (ops : list store_op) (ms : MStore) : list (result (option Obj)) * MStore :=
  match ops with
  | [] => ([], ms)
  | op :: ops => let '(r, ms) := run op ms in let '(rs, ms) := run_all ops ms in (r :: rs, ms)
  end.
Fixpoint run_spec_all (ops : list store_op) (a : vmap S T) : list (result (option Obj)) * vmap S T :=
  match ops with
  | [] => ([], a)
  | op :: ops => let '(r, a) := run_spec op a in let '(rs, a) := run_spec_all ops a in (r :: rs, a)
  end.
Fixpoint ops_ok (ops : list store_op) (ms : MStore) : Prop :=
  match ops with
  | [] => True
  | op :: ops => op_ok op ms /\ ops_ok ops (run op ms).2
  end.

Lemma run_all_agrees ops ms a :
  refines ms a -> ops_ok ops ms ->
  (run_all ops ms).1 = (run_spec_all ops a).1 /\ refines (run_all ops ms).2 (run_spec_all ops a).2.
Proof.
  revert ms a. induction ops as [|op ops IH]; intros ms a Hrf Hok; [done|].
  destruct Hok as [Hop Hok]. destruct (run_agrees op ms a Hrf Hop) as [Hr Hrf']. simpl.
  destruct (run op ms) as [r ms'], (run_spec op a) as [r' a']. simpl in *. subst r'.
  destruct (IH ms' a' Hrf' Hok) as [H1 H2].
  destruct (run_all ops ms'), (run_spec_all ops a'). simpl in *. by subst.
Qed.

(** C1: the memory store implements a map from keys to objects with a revision counter.  From an
    empty store, any sequence of creates, deletes, (conditional) updates, reads and house
    keeping, with other stores taking revisions in between, gives exactly the answers of the
    map, errors included, and ends in a state that still represents it. *)
Theorem store_refines_versioned_map (r : Z) (ops : list store_op) :
  0 < r <= MaxUint64 -> ops_ok ops (NewMemoryStore r) ->
  (run_all ops (NewMemoryStore r)).1 = (run_spec_all ops (mkVMap r ∅)).1 /\
  refines (run_all ops (NewMemoryStore r)).2 (run_spec_all ops (mkVMap r ∅)).2.
Proof. intros Hr Hok. apply run_all_agrees; [by apply refines_new|done]. Qed.

Lemma update_same_version ms a key cur o :
  refines ms a -> MemoryRev ms < MaxUint64 -> objects a !! key = Some cur ->
  ObjectRV o = ObjectRV cur ->
  let o' := SetObjectResourceVersion o (MemoryRev ms + 1) in
  exists ms', GuaranteedUpdate key false None (GetTryUpdateFunc o) None ms = (Ok (Some o'), ms') /\
    refines ms' (mkVMap (rev a + 1) (<[key := o']> (objects a))).
Proof.
  intros Hrf Hr Ho Hv o'. assert (key_ok depth key) as Hk by (apply (rf_dom _ _ Hrf); eauto).
  destruct (refines_RV ms a key cur Hrf Ho) as [Hrv _].
  destruct (Update_agrees ms a key false None (GetTryUpdateFunc o) None Hrf Hk Hr) as [H1 H2].
  assert (spec_update key false None (GetTryUpdateFunc o) None a =
    (Ok (Some o'), mkVMap (rev a + 1) (<[key := o']> (objects a)))) as Hs.
  { unfold spec_update, update. rewrite Ho. cbn [check_cached check_pre bind_result].
    unfold UpdateState. rewrite Hrv. unfold GetTryUpdateFunc. rewrite Hrv. cbn [bind_result].
    rewrite Hv, Z.eqb_refl. unfold write. cbn [bind_result].
    subst o'. by rewrite (rf_rev _ _ Hrf). }
  rewrite Hs in H1, H2. destruct (GuaranteedUpdate _ _ _ _ _ ms) as [x ms'].
  simpl in *. subst x. eauto.
Qed.

Lemma update_other_version ms a key ignore cur o :
  refines ms a -> MemoryRev ms < MaxUint64 -> objects a !! key = Some cur ->
  ObjectRV o <> ObjectRV cur ->
  exists e, GuaranteedUpdate key ignore None (GetTryUpdateFunc o) None ms = (Err e, ms).
Proof.
  intros Hrf Hr Ho Hv. assert (key_ok depth key) as Hk by (apply (rf_dom _ _ Hrf); eauto).
  destruct (refines_RV ms a key cur Hrf Ho) as [Hrv _].
  pose proof (GuaranteedUpdate_spec depth Hdepth ms key ignore None (GetTryUpdateFunc o) None
    (rf_inv _ _ Hrf) Hk Hr) as H.
  rewrite (rf_lookup _ _ Hrf key Hk), Ho in H. cbn [check_cached check_pre bind_result] in H.
  unfold UpdateState in H. rewrite Hrv in H. unfold GetTryUpdateFunc at 1 in H. rewrite Hrv in H.
  cbn [bind_result] in H. replace (ObjectRV cur =? ObjectRV o) with false in H by lia.
  cbn [bind_result] in H. eauto.
Qed.

(** C3: no update is lost.  Of two updates computed from the same version of an object the first
    succeeds and gives the object a revision larger than any in the store; the second, coming
    after it, fails and changes nothing. *)
Theorem no_lost_update ms a key cur o1 o2 :
  refines ms a -> MemoryRev ms + 1 < MaxUint64 -> objects a !! key = Some cur ->
  ObjectRV o1 = ObjectRV cur -> ObjectRV o2 = ObjectRV cur ->
  exists o1' ms1 e,
    GuaranteedUpdate key false None (GetTryUpdateFunc o1) None ms = (Ok (Some o1'), ms1) /\
    store_lookup ms1 key = Some o1' /\ Spec o1' = Spec o1 /\ Status o1' = Status o1 /\
    (forall k o, objects a !! k = Some o -> ObjectRV o < ObjectRV o1') /\
    GuaranteedUpdate key false None (GetTryUpdateFunc o2) None ms1 = (Err e, ms1).
Proof.
  intros Hrf Hr Ho H1 H2. pose proof (rf_inv _ _ Hrf) as Hinv. pose proof (si_rev depth ms Hinv).
  destruct (update_same_version ms a key cur o1 Hrf ltac:(lia) Ho H1) as (ms1 & Hu & Hrf1).
  set (o1' := SetObjectResourceVersion o1 (MemoryRev ms + 1)) in *.
  assert (key_ok depth key) as Hk by (apply (rf_dom _ _ Hrf); eauto).
  assert (ObjectRV o1' = MemoryRev ms + 1) as Hv by (apply ObjectRV_Set; lia).
  assert (forall k o, objects a !! k = Some o -> ObjectRV o < ObjectRV o1') as Hmax.
  { intros k o Hko. destruct (refines_RV ms a k o Hrf Hko) as [_ ?].
    rewrite Hv, (rf_rev _ _ Hrf). lia. }
  destruct (update_other_version ms1 _ key false o1' o2 Hrf1) as [e He].
  { rewrite (rf_rev _ _ Hrf1). simpl. rewrite <- (rf_rev _ _ Hrf). lia. }
  { apply lookup_insert_eq. }
  { specialize (Hmax key cur Ho). lia. }
  exists o1', ms1, e. split; [done|].
  split; [by rewrite (rf_lookup _ _ Hrf1 key Hk); apply lookup_insert_eq|]. done.
Qed.
End Refinement.

(** ** A concrete run *)

Definition example_object (name : string) : Object unit unit :=
  mkObject (mkObjectMeta name "ns" name "" 0 None None ∅ ∅ []) () ().

(** Two objects, one of them updated from the version that was read, with a stale update after it. *)
Definition example_ops : list (store_op (S := unit) (T := unit)) :=
  [OpCreate "/apps/ns/a" (example_object "a");
   OpCreate "/apps/ns/b" (example_object "b");
   OpUpdate "/apps/ns/a" false None
     (GetTryUpdateFunc (SetObjectResourceVersion (example_object "a") 101)) None;
   OpUpdate "/apps/ns/a" false None
     (GetTryUpdateFunc (SetObjectResourceVersion (example_object "a") 101)) None;
   OpHouseKeeping; OpOther 5;
   OpGet "/apps/ns/b" (mkGetOptions false "")].

Lemma example_ops_ok : ops_ok 4 example_ops (NewMemoryStore 100).
Proof. vm_compute. repeat split; discriminate. Qed.

Lemma store_refines_versioned_map_witness :
  (run_all example_ops (NewMemoryStore 100)).1 = (run_spec_all example_ops (mkVMap 100 ∅)).1 /\
  refines 4 (run_all example_ops (NewMemoryStore 100)).2 (run_spec_all example_ops (mkVMap 100 ∅)).2.
Proof.
  apply (store_refines_versioned_map 4); [discriminate|split; vm_compute; congruence|].
  exact example_ops_ok.
Defined.

Lemma no_lost_update_witness :
  exists ms1 e,
    GuaranteedUpdate "/apps/ns/b" false None (GetTryUpdateFunc
      (SetObjectResourceVersion (example_object "b") 102)) None
      (run_all example_ops (NewMemoryStore 100)).2 = (Ok (Some
      (SetObjectResourceVersion (example_object "b") 109)), ms1) /\
    GuaranteedUpdate "/apps/ns/b" false None (GetTryUpdateFunc
      (SetObjectResourceVersion (example_object "b") 102)) None ms1 = (Err e, ms1).
Proof.
  destruct (run_all_agrees 4 ltac:(discriminate) example_ops (NewMemoryStore 100) (mkVMap 100 ∅))
    as [_ Hrf]; [apply refines_new; split; vm_compute; congruence|exact example_ops_ok|].
  destruct (no_lost_update 4 ltac:(discriminate) _ _ "/apps/ns/b"
    (SetObjectResourceVersion (example_object "b") 102)
    (SetObjectResourceVersion (example_object "b") 102)
    (SetObjectResourceVersion (example_object "b") 102) Hrf)
    as (o1' & ms1 & e & H1 & _ & _ & _ & _ & H2);
    [vm_compute; reflexivity|vm_compute; reflexivity|reflexivity|reflexivity|].
  exists ms1, e. split; [|exact H2].
  assert (o1' = SetObjectResourceVersion (example_object "b") 109) as ->; [|exact H1].
  apply (f_equal fst) in H1. vm_compute in H1. injection H1 as <-. vm_compute. reflexivity.
Defined.

(** ** Keys of another depth *)

(** The tree walk stops at the first object it meets, so a key that continues the key of a stored
    object reads that object, and cannot be created. *)
Lemma longer_key_reads_shorter :
  let st := (run_all example_ops (NewMemoryStore 100)).2 in
  Get st "/apps/ns/b/logs/1" (mkGetOptions false "") = Get st "/apps/ns/b" (mkGetOptions false "") /\
  (Create "/apps/ns/b/logs/1" (example_object "1") st).1 = Err KeyExistsError.
Proof. vm_compute. split; reflexivity. Qed.
