(* ===== verification/CompositeStore.v ===== *)
(** * The store of applications

    [pkg/store/composite/composite_store.go].  The API server keeps the applications twice: the objects as
    their users wrote them in a persistent store (etcd, behind the [storage.Interface] of the API server
    library), and a copy with the current status in a memory store, which the rest of the control plane
    reads and watches.  Every call goes to the persistent store first and then to the copy; two goroutines
    follow the changes of the one store in the other.

    The persistent store is the interface [PersistStore]; [PersistStoreOK] says that it is a map from keys to
    objects.  Its watch delivers the changes in order: [spec_events] are those not handled yet.

    The composite store takes no lock, so calls may overlap.  [composite_step] takes a call apart: its part on the
    persistent store, and later its part on the copy, with anything in between; [late] are the keys whose
    copy was made after the deletion of the original had been followed, as in [get_resurrects_deleted].
    [whole_step] has the calls one after the other. *)

From S2P Require Import Prelude GoStrings ApiTypes ObjectVersion ObjStoreMap MemoryStore StoreInvariant StoreRefinement.
From Stdlib Require Import String.
Import VersionedMap.
#[local] Open Scope Z_scope.
#[local] Open Scope go_scope.

(** [storage.Interface] of the API server library.  An update with [ignoreNotFound] of a missing key starts
    from an empty object; it tells whether it changed anything. *)
Class PersistStore (S T E : Type) := {
  ps_Create : string -> Object S T -> SM E (Object S T);
  ps_Delete : string -> option (string -> Object S T -> result unit) -> option (Object S T -> result unit) ->
    option (Object S T) -> SM E (Object S T);
  ps_Get : string -> GetOptions -> E -> result (option (Object S T));
  ps_GetList : string -> E -> result (list (Object S T));
  ps_GuaranteedUpdate : string -> bool -> option (string -> Object S T -> result unit) -> UpdateFunc S T ->
    option (Object S T) -> SM E (Object S T * bool)
}.
#[export] Hint Mode PersistStore - - ! : typeclass_instances.

Section Composite.
Context {S T E : Type} {PS : PersistStore S T E}.
Abbreviation Obj := (Object S T).
Abbreviation Pre := (option (string -> Obj -> result unit)).
(** [mergeFunc from to], [keyFunc] and [newFunc]. *)
Context (mergeFunc : Obj -> Obj -> result Obj) (keyFunc : Obj -> string) (zero : Obj).

Record CompositeStore := mkComposite {
  specPersistStore : E;
  statusMemoryStore : MemoryStore S T;
  spec_events : list (string * option Obj)
}.
Implicit Types c : CompositeStore.

(** ** The two stores *)

Definition on_spec {A} (x : SM E A) (events : A -> list (string * option Obj)) : SM CompositeStore A := fun c =>
  match x (specPersistStore c) with
  | (Ok a, e) => (Ok a, mkComposite e (statusMemoryStore c) (spec_events c ++ events a))
  | (Err err, e) => (Err err, mkComposite e (statusMemoryStore c) (spec_events c))
  end.
Definition on_status {A} (x : SM (MemoryStore S T) A) : SM CompositeStore A := fun c =>
  let '(r, ms) := x (statusMemoryStore c) in (r, mkComposite (specPersistStore c) ms (spec_events c)).

Definition spec_Create (key : string) (obj : Obj) : SM CompositeStore Obj :=
  on_spec (ps_Create key obj) (fun o => [(key, Some o)]).
Definition spec_Delete (key : string) (pre : Pre) (val : option (Obj -> result unit)) (cached : option Obj) :
    SM CompositeStore Obj :=
  on_spec (ps_Delete key pre val cached) (fun _ => [(key, None)]).
Definition spec_Update (key : string) (ignoreNotFound : bool) (pre : Pre) (upd : UpdateFunc S T) (cached : option Obj) :
    SM CompositeStore Obj :=
  do! (o, changed) <- on_spec (ps_GuaranteedUpdate key ignoreNotFound pre upd cached)
    (fun r => if r.2 : bool then [(key, Some r.1)] else []);
  sm_ret o.
Definition spec_Get (key : string) (opts : GetOptions) : SM CompositeStore (option Obj) := fun c =>
  (ps_Get key opts (specPersistStore c), c).
Definition status_Get (key : string) (opts : GetOptions) : SM CompositeStore (option Obj) :=
  on_status (fun ms => (Get ms key opts, ms)).

(** ** [storage.Interface] *)

Definition c_Create (key : string) (obj : Obj) : SM CompositeStore Obj :=
  do! specOut <- spec_Create key obj;
  do! r <- sm_try (on_status (CreateOrReplace key specOut));
  match r with Ok statusOut => sm_ret statusOut | Err _ => sm_fail InternalError end.

Definition c_Delete (key : string) (pre : Pre) (val : option (Obj -> result unit)) (cached : option Obj) :
    SM CompositeStore Obj :=
  do! _ <- spec_Delete key pre val cached;
  on_status (Delete key None None None).

(** The status of an object of the persistent store, from memory or made anew; an object that is being
    deleted is not made anew. *)
Definition status_of (key : string) (specObj : Obj) : SM CompositeStore Obj :=
  if HasDeletionTimestamp specObj then
    do! o <- status_Get key (mkGetOptions true "");
    sm_ret (default zero o)
  else on_status (GetOrCreate key specObj).
Definition merged (statusOut specOut : Obj) : Obj :=
  match mergeFunc statusOut specOut with Ok o => o | Err _ => specOut end.

Definition c_Get (key : string) (opts : GetOptions) : SM CompositeStore Obj :=
  do! o <- spec_Get key opts;
  let specOut := default zero o in
  do! statusOut <- status_of key specOut;
  sm_ret (merged statusOut specOut).

Fixpoint merge_items (items : list Obj) : SM CompositeStore (list Obj) :=
  match items with
  | [] => sm_ret []
  | specObj :: items =>
    do! r <- sm_try (status_of (keyFunc specObj) specObj);
    do! rest <- merge_items items;
    sm_ret ((match r with Ok statusOut => merged statusOut specObj | Err _ => specObj end) :: rest)
  end.
Definition c_GetList (key : string) : SM CompositeStore (list Obj) :=
  do! items <- (fun c => (ps_GetList key (specPersistStore c), c));
  merge_items items.

Definition ensureFinalizerUpdated (key : string) : SM CompositeStore unit :=
  do! status <- status_Get key (mkGetOptions true "");
  do! spec <- spec_Get key (mkGetOptions true "");
  let statusOut := default zero status in
  let specOut := default zero spec in
  let fs := om_Finalizers (om statusOut) in
  let specOut := if (List.length fs =? List.length (om_Finalizers (om specOut)))%nat then specOut
                 else map_om (om_set_Finalizers fs) specOut in
  do! _ <- spec_Update key true None (GetTryUpdateFunc specOut) None;
  sm_ret ().

Definition c_GuaranteedUpdate (key : string) (ignoreNotFound : bool) (pre : Pre) (upd : UpdateFunc S T)
    (cached : option Obj) : SM CompositeStore (option Obj) :=
  do! _ <- sm_try (ensureFinalizerUpdated key);
  do! specOut <- spec_Update key ignoreNotFound pre upd cached;
  on_status (CreateOrUpdate key specOut (Some mergeFunc)).

(** ** The goroutines of [Run] *)

(** One change of the persistent store is copied. *)
Definition follow_spec : SM CompositeStore unit := fun c =>
  match spec_events c with
  | [] => (Ok (), c)
  | (key, ev) :: rest =>
    let c := mkComposite (specPersistStore c) (statusMemoryStore c) rest in
    match ev with
    | None => (do! _ <- sm_try (on_status (Delete key None None None)); sm_ret ()) c
    | Some obj => (do! _ <- sm_try (on_status (CreateOrUpdate key obj (Some mergeFunc))); sm_ret ()) c
    end
  end.

(** One change of the memory store: an object that is gone for good is deleted. *)
Definition follow_status (key : string) (deleted : option Obj) : SM CompositeStore unit :=
  match deleted with
  | Some statusObj =>
    if ShouldDeleteSpec statusObj then
      do! r <- sm_try (spec_Get key (mkGetOptions false ""));
      match r with
      | Ok (Some specOut) =>
        if HasDeletionTimestamp specOut then
          do! _ <- sm_try (spec_Delete key None (Some (fun _ => Ok ())) None); sm_ret ()
        else sm_ret ()
      | _ => sm_ret ()
      end
    else sm_ret ()
  | None => sm_ret ()
  end.

End Composite.
Arguments CompositeStore S T E : clear implicits.

(** ** What the API server relies on

    The persistent store is a map: a call that fails changes nothing, one that succeeds changes its key. *)
Class PersistStoreOK (S T E : Type) {PS : PersistStore S T E} (keyFunc : Object S T -> string) := {
  ps_view : E -> gmap string (Object S T);
  ps_create_ok key o e o' e' : ps_Create key o e = (Ok o', e') -> ps_view e' = <[key := o']> (ps_view e);
  ps_create_err key o e err e' : ps_Create key o e = (Err err, e') -> ps_view e' = ps_view e;
  ps_delete_ok key pre val cached e o e' : ps_Delete key pre val cached e = (Ok o, e') -> ps_view e' = delete key (ps_view e);
  ps_delete_err key pre val cached e err e' : ps_Delete key pre val cached e = (Err err, e') -> ps_view e' = ps_view e;
  ps_update_ok key ignore pre upd cached e o changed e' :
    ps_GuaranteedUpdate key ignore pre upd cached e = (Ok (o, changed), e') -> ps_view e' = <[key := o]> (ps_view e);
  ps_update_err key ignore pre upd cached e err e' :
    ps_GuaranteedUpdate key ignore pre upd cached e = (Err err, e') -> ps_view e' = ps_view e;
  ps_get_ok key rv e o : ps_Get key (mkGetOptions false rv) e = Ok o -> exists o', o = Some o' /\ ps_view e !! key = Some o';
  ps_get_found key o e : ps_view e !! key = Some o -> ps_Get key (mkGetOptions false "") e = Ok (Some o);
  ps_list_ok key e items o : ps_GetList key e = Ok items -> o ∈ items -> ps_view e !! keyFunc o = Some o
}.

Section Covered.
Context {S T E : Type} {PS : PersistStore S T E} (depth : nat) (Hdepth : depth <> 0%nat).
Context (mergeFunc : Object S T -> Object S T -> result (Object S T)) (keyFunc : Object S T -> string) (zero : Object S T).
Context {PO : PersistStoreOK S T E keyFunc}.
Abbreviation Obj := (Object S T).
Abbreviation Composite := (CompositeStore S T E).
Implicit Types c : Composite.

Abbreviation view c := (ps_view (specPersistStore c)).
(** The last of the changes of a key that are not handled yet. *)
Definition last_event (key : string) (evs : list (string * option Obj)) : option (option Obj) :=
  last (map snd (filter (fun ev => ev.1 = key) evs)).
#[local] Arguments last_event : simpl never.

(** No copy without original: an object in memory that the persistent store does not have is one whose
    deletion is still to be followed, or one of the [late] ones. *)
Record covered_late (L : gset string) c (a : vmap S T) : Prop := {
  cv_refines : refines depth (statusMemoryStore c) a;
  cv_events : Forall (fun ev => key_ok depth ev.1) (spec_events c);
  cv_view key : view c !! key = None ->
    last_event key (spec_events c) = Some None \/
    last_event key (spec_events c) = None /\ (key ∈ L \/ objects a !! key = None)
}.

Lemma last_event_snoc key k ev evs :
  last_event key (evs ++ [(k, ev)]) = if decide (k = key) then Some ev else last_event key evs.
Proof.
  unfold last_event. rewrite filter_app, filter_cons, filter_nil. simpl. case_decide.
  - rewrite map_app. apply last_snoc.
  - by rewrite app_nil_r.
Qed.
Lemma last_event_cons key k ev evs :
  last_event key ((k, ev) :: evs) =
  if decide (k = key) then Some (default ev (last_event key evs)) else last_event key evs.
Proof.
  unfold last_event. rewrite filter_cons. simpl. case_decide; [|done]. simpl.
  destruct (map snd (filter _ evs)) as [|x l] eqn:E2 using rev_ind; [done|].
  by rewrite app_comm_cons, !last_snoc.
Qed.

(** A step of the memory store at one key. *)
Lemma covered_status_at (L L' : gset string) c a ms a' key :
  covered_late L c a -> refines depth ms a' -> (forall k, k <> key -> objects a' !! k = objects a !! k) ->
  (forall k, k <> key -> k ∈ L -> k ∈ L') ->
  is_Some (view c !! key) \/ last_event key (spec_events c) = Some None \/ key ∈ L' \/ objects a' !! key = None ->
  covered_late L' (mkComposite (specPersistStore c) ms (spec_events c)) a'.
Proof.
  intros [Hr He Hv] Hms Hother HL Hkey. split; [done|done|]. cbn. intros k Hk.
  destruct (decide (k = key)) as [->|Hne].
  - destruct Hkey as [[o Ho]|[Hl|Hkey]]; [congruence|by left|]. destruct (Hv key Hk) as [|[? _]]; [by left|by right].
  - rewrite Hother by done. destruct (Hv k Hk) as [|[? [Hin|Hn]]]; [by left|right; split; [done|left; auto]|right; split; [done|by right]].
Qed.

Context (L : gset string).
Abbreviation covered := (covered_late L).

(** Steps of the persistent store. *)
Lemma covered_spec_put c a e key o evs :
  covered c a -> key_ok depth key -> ps_view e = <[key := o]> (view c) -> evs = [] \/ evs = [(key, Some o)] ->
  covered (mkComposite e (statusMemoryStore c) (spec_events c ++ evs)) a.
Proof.
  intros [Hr He Hv] Hk Hview Hevs. split; [done| |].
  - cbn. apply Forall_app. split; [done|]. destruct Hevs as [->| ->]; by repeat constructor.
  - cbn. intros k. rewrite Hview. intros [Hkv Hne]%lookup_insert_None.
    assert (last_event k (spec_events c ++ evs) = last_event k (spec_events c)) as ->; [|by apply Hv].
    destruct Hevs as [->| ->]; [by rewrite app_nil_r|]. rewrite last_event_snoc. by rewrite decide_False.
Qed.
Lemma covered_spec_delete c a e key :
  covered c a -> key_ok depth key -> ps_view e = delete key (view c) ->
  covered (mkComposite e (statusMemoryStore c) (spec_events c ++ [(key, None)])) a.
Proof.
  intros [Hr He Hv] Hk Hview. split; [done| |].
  - cbn. apply Forall_app. split; [done|]. by repeat constructor.
  - cbn. intros k Hkv. rewrite last_event_snoc. case_decide as Hkk; [by left|].
    apply Hv. rewrite Hview in Hkv. by rewrite lookup_delete_ne in Hkv.
Qed.
Lemma covered_spec_same c a e : covered c a -> ps_view e = view c -> covered (mkComposite e (statusMemoryStore c) (spec_events c)) a.
Proof. intros [Hr He Hv] Hview. split; [done|done|]. cbn. intros k. rewrite Hview. apply Hv. Qed.

Lemma sm_some_snd {St A} (x : SM St A) (st : St) : (sm_some x st).2 = (x st).2.
Proof. unfold sm_some. rewrite sm_bind_eq. by destruct (x st) as [[]]. Qed.

(** The calls that concern one key, in the specification. *)
Definition key_op (op : @store_op S T) (key : string) : Prop :=
  match op with
  | OpDelete k _ _ _ | OpCreateOrUpdate k _ _ | OpGetOrCreate k _ | OpCreateOrReplace k _ | OpUpdate k _ _ _ _
  | OpEnsureUpdateAndDelete k _ _ _ => k = key
  | _ => False
  end.
Lemma create_other key obj (a : vmap S T) k : k <> key -> objects (create key obj a).2 !! k = objects a !! k.
Proof. intros Hne. unfold create. destruct (objects a !! key); [done|]. cbn. by rewrite lookup_insert_ne. Qed.
Lemma remove_other key f (a : vmap S T) k : k <> key -> objects (remove key f a).2 !! k = objects a !! k.
Proof.
  intros Hne. unfold remove. destruct (objects a !! key); [|done]. destruct (f o); [|done]. cbn. by rewrite lookup_delete_ne.
Qed.
Lemma update_other key ign f (a : vmap S T) k : k <> key -> objects (update key ign f a).2 !! k = objects a !! k.
Proof.
  intros Hne. unfold update. destruct (objects a !! key); [|done]. destruct (f o); [|done]. cbn. by rewrite lookup_insert_ne.
Qed.
Lemma spec_delete_other key pre val cached (a : vmap S T) k :
  k <> key -> objects (spec_delete key pre val cached a).2 !! k = objects a !! k.
Proof. intros Hne. unfold spec_delete. destruct (check_cached cached); [by apply remove_other|done]. Qed.
Lemma run_spec_other op key (a : vmap S T) k : key_op op key -> k <> key -> objects (run_spec op a).2 !! k = objects a !! k.
Proof.
  intros Hop Hne. destruct op; simpl in Hop; try done; subst key0; cbn [run_spec].
  - by apply spec_delete_other.
  - by apply update_other.
  - destruct (objects a !! key); [|by apply create_other]. destruct merge as [m|]; [|done].
    destruct (m o obj); [by apply update_other|done].
  - destruct (objects a !! key); [done|by apply create_other].
  - destruct (objects a !! key); [cbn; by rewrite lookup_insert_ne|by apply create_other].
  - unfold spec_update. match goal with |- context [update key ?i ?f a] =>
      pose proof (update_other key i f a k Hne) as Hu; destruct (update key i f a) as [[[o|]|e] a'] end;
      cbn [snd] in *; try done.
    destruct (ShouldDeleteSpec o); [|done].
    pose proof (spec_delete_other key pre None None a' k Hne) as Hd.
    destruct (spec_delete key pre None None a') as [[]]; cbn [snd] in *; congruence.
Qed.

Lemma covered_run c a op key :
  covered c a -> op_ok depth op (statusMemoryStore c) -> key_op op key ->
  is_Some (view c !! key) \/ objects (run_spec op a).2 !! key = None ->
  covered (mkComposite (specPersistStore c) (run op (statusMemoryStore c)).2 (spec_events c)) (run_spec op a).2.
Proof.
  intros Hc Hok Hop Hkey. apply (covered_status_at L L c a _ _ key); [done| | |done|tauto].
  - destruct (run_agrees depth Hdepth op _ _ (cv_refines _ _ _ Hc) Hok) as [_ H]. done.
  - intros k Hne. by apply run_spec_other with (key := key).
Qed.

(** ** Every call keeps the copies covered *)

(** [keeps P c]: [c] leads from a covered state, in which [P] holds, to a covered state. *)
Definition room (n : Z) c : Prop := MemoryRev (statusMemoryStore c) + n <= MaxUint64.
Definition cover c : Prop := exists a, covered c a.

Lemma cover_run {A} (x : SM (MemoryStore S T) A) op key c :
  (forall ms, (x ms).2 = (run op ms).2) -> cover c -> op_ok depth op (statusMemoryStore c) -> key_op op key ->
  (forall a, is_Some (view c !! key) \/ objects (run_spec op a).2 !! key = None) ->
  cover (on_status x c).2 /\ view (on_status x c).2 = view c.
Proof.
  intros Hx [a Ha] Hok Hop Hkey. unfold on_status. specialize (Hx (statusMemoryStore c)).
  destruct (x (statusMemoryStore c)) as [r ms]. cbn in Hx. subst ms. split; [|done].
  exists (run_spec op a).2. by apply covered_run with (key := key).
Qed.

Lemma cover_spec_Create c key obj :
  cover c -> key_ok depth key ->
  cover (spec_Create key obj c).2 /\ statusMemoryStore (spec_Create key obj c).2 = statusMemoryStore c /\
  forall o, (spec_Create key obj c).1 = Ok o -> is_Some (view (spec_Create key obj c).2 !! key).
Proof.
  intros [a Ha] Hk. unfold spec_Create, on_spec. destruct (ps_Create key obj _) as [[o|err] e] eqn:Ep; cbn [fst snd statusMemoryStore].
  - apply ps_create_ok in Ep. split; [exists a; eapply covered_spec_put; eauto|]. split; [done|].
    intros _ _. cbn. rewrite Ep, lookup_insert_eq. by eexists.
  - apply ps_create_err in Ep. split; [exists a; by apply covered_spec_same|by split].
Qed.
Lemma cover_spec_Delete c key pre val cached :
  cover c -> key_ok depth key ->
  cover (spec_Delete key pre val cached c).2 /\
  statusMemoryStore (spec_Delete key pre val cached c).2 = statusMemoryStore c.
Proof.
  intros [a Ha] Hk. unfold spec_Delete, on_spec. destruct (ps_Delete key pre val cached _) as [[o|err] e] eqn:Ep; cbn [snd statusMemoryStore].
  - apply ps_delete_ok in Ep. split; [exists a; by apply covered_spec_delete|done].
  - apply ps_delete_err in Ep. split; [exists a; by apply covered_spec_same|done].
Qed.
Lemma cover_spec_Update c key ignore pre upd cached :
  cover c -> key_ok depth key ->
  cover (spec_Update key ignore pre upd cached c).2 /\
  statusMemoryStore (spec_Update key ignore pre upd cached c).2 = statusMemoryStore c /\
  forall o, (spec_Update key ignore pre upd cached c).1 = Ok o -> is_Some (view (spec_Update key ignore pre upd cached c).2 !! key).
Proof.
  intros [a Ha] Hk. unfold spec_Update. rewrite sm_bind_eq. unfold on_spec.
  destruct (ps_GuaranteedUpdate key ignore pre upd cached _) as [[[o changed]|err] e] eqn:Ep; cbn [fst snd statusMemoryStore sm_ret].
  - apply ps_update_ok in Ep. split; [exists a; eapply covered_spec_put; [done|done|exact Ep|destruct changed; auto]|].
    split; [done|]. intros _ _. cbn. rewrite Ep, lookup_insert_eq. by eexists.
  - apply ps_update_err in Ep. split; [exists a; by apply covered_spec_same|by split].
Qed.

Lemma cover_status_of c key specObj :
  cover c -> key_ok depth key -> room 2 c -> is_Some (view c !! key) ->
  cover (status_of zero key specObj c).2 /\ view (status_of zero key specObj c).2 = view c /\
  MemoryRev (statusMemoryStore (status_of zero key specObj c).2) <= MemoryRev (statusMemoryStore c) + 1.
Proof.
  intros Hc Hk Hr Hv. unfold status_of. destruct (HasDeletionTimestamp specObj).
  - rewrite sm_bind_eq. unfold status_Get, on_status. destruct Hc as [a Ha].
    destruct (Get _ key _) as [o|e]; cbn; (split; [exists a; by destruct c|]); (split; [done|lia]).
  - destruct (cover_run (GetOrCreate key specObj) (OpGetOrCreate key specObj) key c) as [H1 H2].
    + intros ms. cbn [run]. by rewrite sm_some_snd.
    + done.
    + by split; [exact Hr|].
    + done.
    + by left.
    + split; [done|]. split; [done|]. destruct Hc as [a Ha]. unfold on_status. unfold room in Hr.
      pose proof (GetOrCreate_agrees depth Hdepth (statusMemoryStore c) a key specObj (cv_refines _ _ _ Ha) Hk) as [_ H].
      { lia. }
      rewrite sm_some_snd in H. destruct (GetOrCreate key specObj (statusMemoryStore c)) as [r ms]. cbn [snd statusMemoryStore] in *.
      rewrite (rf_rev _ _ _ H), (rf_rev _ _ _ (cv_refines _ _ _ Ha)). cbn [run_spec].
      destruct (objects a !! key) eqn:Eo; [cbn; lia|]. unfold create. rewrite Eo. cbn. lia.
Qed.

Lemma cover_Create c key obj :
  cover c -> key_ok depth key -> room 2 c -> cover (c_Create key obj c).2.
Proof.
  intros Hc Hk Hr. destruct (cover_spec_Create c key obj Hc Hk) as (H1 & Hm & Hv).
  unfold c_Create. rewrite sm_bind_eq. destruct (spec_Create key obj c) as [[o|e] c1]; [|done]. cbn [fst snd] in *.
  destruct (cover_run (CreateOrReplace key o) (OpCreateOrReplace key o) key c1) as [H2 _].
  - intros ms. cbn [run]. by rewrite sm_some_snd.
  - done.
  - split; [|done]. by rewrite Hm.
  - done.
  - left. by eapply Hv.
  - rewrite sm_bind_eq. unfold sm_try. destruct (on_status (CreateOrReplace key o) c1) as [[o'|e] c2]; done.
Qed.

Lemma cover_status_delete c key :
  cover c -> key_ok depth key -> room 2 c -> cover (on_status (Delete key None None None) c).2.
Proof.
  intros Hc Hk Hr.
  destruct (cover_run (Delete key None None None) (OpDelete key None None None) key c) as [H2 _].
  - intros ms. cbn [run]. by rewrite sm_some_snd.
  - done.
  - by split; [exact Hr|].
  - done.
  - intros a. right. cbn. unfold remove. destruct (objects a !! key) eqn:Eo; cbn; [by rewrite lookup_delete_eq|done].
  - done.
Qed.
Lemma cover_Delete c key pre val cached :
  cover c -> key_ok depth key -> room 2 c -> cover (c_Delete key pre val cached c).2.
Proof.
  intros Hc Hk Hr. destruct (cover_spec_Delete c key pre val cached Hc Hk) as (H1 & Hm).
  unfold c_Delete. rewrite sm_bind_eq. destruct (spec_Delete key pre val cached c) as [[o|e] c1]; [|done]. cbn [fst snd] in *.
  apply cover_status_delete; [done|done|]. unfold room. by rewrite Hm.
Qed.

Lemma cover_Get c key rv :
  cover c -> key_ok depth key -> room 2 c -> cover (c_Get mergeFunc zero key (mkGetOptions false rv) c).2.
Proof.
  intros Hc Hk Hr. unfold c_Get. rewrite sm_bind_eq. unfold spec_Get.
  destruct (ps_Get key _ _) as [o|e] eqn:Eg; [|done]. apply ps_get_ok in Eg as (o' & -> & Hv). cbn [default from_option id].
  rewrite sm_bind_eq. destruct (cover_status_of c key o' Hc Hk Hr) as [H _]; [by eexists|].
  destruct (status_of zero key o' c) as [[s|e] c1]; done.
Qed.

Lemma cover_merge_items items : forall c,
  cover c -> room (Z.of_nat (List.length items) + 2) c ->
  Forall (fun o => key_ok depth (keyFunc o) /\ is_Some (view c !! keyFunc o)) items ->
  cover (merge_items mergeFunc keyFunc zero items c).2.
Proof.
  induction items as [|o items IH]; intros c Hc Hr Hitems; [done|]. cbn [merge_items].
  apply Forall_cons in Hitems as [[Hk Hv] Hitems]. cbn [List.length] in Hr. unfold room in *.
  destruct (cover_status_of c (keyFunc o) o Hc Hk) as (H1 & Hview & Hrev); [unfold room; lia|done|].
  rewrite sm_bind_eq. unfold sm_try. destruct (status_of zero (keyFunc o) o c) as [r c1]. cbn [snd] in *.
  rewrite sm_bind_eq. assert (cover (merge_items mergeFunc keyFunc zero items c1).2) as H2.
  { apply IH; [done|lia|]. by rewrite Hview. }
  by destruct (merge_items mergeFunc keyFunc zero items c1) as [[rest|e] c2].
Qed.
Lemma cover_GetList c key :
  cover c -> (forall items o, ps_GetList key (specPersistStore c) = Ok items -> o ∈ items -> key_ok depth (keyFunc o)) ->
  (forall items, ps_GetList key (specPersistStore c) = Ok items -> room (Z.of_nat (List.length items) + 2) c) ->
  cover (c_GetList mergeFunc keyFunc zero key c).2.
Proof.
  intros Hc Hk Hr. unfold c_GetList. rewrite sm_bind_eq. destruct (ps_GetList key _) as [items|e] eqn:El; [|done].
  apply cover_merge_items; [done|by apply Hr|]. apply Forall_forall. intros o Ho. split; [by eapply Hk|].
  rewrite (ps_list_ok _ _ _ _ El Ho). by eexists.
Qed.

Lemma cover_ensure c key :
  cover c -> key_ok depth key ->
  cover (ensureFinalizerUpdated zero key c).2 /\
  statusMemoryStore (ensureFinalizerUpdated zero key c).2 = statusMemoryStore c.
Proof.
  intros Hc Hk. unfold ensureFinalizerUpdated. rewrite sm_bind_eq. unfold status_Get, on_status.
  destruct (Get _ key _) as [s|e]; [|by destruct c].
  set (c1 := mkComposite _ _ _). assert (c1 = c) as -> by (by destruct c).
  rewrite sm_bind_eq. unfold spec_Get. destruct (ps_Get key _ _) as [o|e]; [|done]. cbv zeta. rewrite sm_bind_eq.
  match goal with |- context [spec_Update ?k ?i ?p ?u ?d c] => destruct (cover_spec_Update c k i p u d Hc Hk) as (H1 & H2 & _);
    destruct (spec_Update k i p u d c) as [[o2|e] c2] end; by split.
Qed.

Lemma cover_create_or_update c key obj :
  cover c -> key_ok depth key -> room 2 c -> is_Some (view c !! key) ->
  cover (on_status (CreateOrUpdate key obj (Some mergeFunc)) c).2.
Proof.
  intros Hc Hk Hr Hv.
  destruct (cover_run (CreateOrUpdate key obj (Some mergeFunc)) (OpCreateOrUpdate key obj (Some mergeFunc)) key c) as [H _];
    [done|done|by split; [exact Hr|]|done|by left|done].
Qed.
Lemma cover_GuaranteedUpdate c key ignore pre upd cached :
  cover c -> key_ok depth key -> room 2 c -> cover (c_GuaranteedUpdate mergeFunc zero key ignore pre upd cached c).2.
Proof.
  intros Hc Hk Hr. unfold c_GuaranteedUpdate. rewrite sm_bind_eq. unfold sm_try.
  destruct (cover_ensure c key Hc Hk) as [H1 Hm1]. destruct (ensureFinalizerUpdated zero key c) as [r c1]. cbn [snd] in *.
  rewrite sm_bind_eq. destruct (cover_spec_Update c1 key ignore pre upd cached H1 Hk) as (H2 & Hm2 & Hv).
  destruct (spec_Update key ignore pre upd cached c1) as [[o|e] c2]; [|done]. cbn [fst snd] in *.
  apply cover_create_or_update; [done|done| |by eapply Hv]. unfold room. by rewrite Hm2, Hm1.
Qed.

(** ** The goroutines *)

Lemma covered_follow c a key ev rest op :
  covered c a -> spec_events c = (key, ev) :: rest -> op_ok depth op (statusMemoryStore c) -> key_op op key ->
  (ev = None -> objects (run_spec op a).2 !! key = None) ->
  covered_late (if ev then L else L ∖ {[key]}) (mkComposite (specPersistStore c) (run op (statusMemoryStore c)).2 rest) (run_spec op a).2.
Proof.
  intros [Hr He Hv] Hevs Hok Hop Hnone. rewrite Hevs in *. apply Forall_cons in He as [Hk He].
  destruct (run_agrees depth Hdepth op _ _ Hr Hok) as [_ Hr']. split; [done|done|]. cbn. intros k Hkv.
  specialize (Hv k Hkv). rewrite last_event_cons in Hv. case_decide as Hkk.
  - subst k. destruct Hv as [Hv|[? _]]; [|done]. destruct (last_event key rest) as [x|]; cbn in Hv.
    + left. congruence.
    + right. split; [done|]. right. apply Hnone. congruence.
  - rewrite (run_spec_other op key) by congruence. destruct Hv as [|[? [Hin|]]]; [by left| |by right; split; [|right]].
    right. split; [done|]. left. destruct ev; [done|]. apply elem_of_difference. split; [done|].
    intros ->%elem_of_singleton. done.
Qed.
(** The keys that stay late after one change has been followed. *)
Definition follow_late c : gset string :=
  match spec_events c with (key, None) :: _ => L ∖ {[key]} | _ => L end.
Lemma follow_spec_late c : cover c -> room 2 c -> exists a, covered_late (follow_late c) (follow_spec mergeFunc c).2 a.
Proof.
  intros [a Ha] Hr. unfold follow_spec, follow_late. destruct (spec_events c) as [|[key ev] rest] eqn:Hevs; [by exists a|].
  pose proof (cv_events _ _ _ Ha) as He. rewrite Hevs in He. apply Forall_cons in He as [Hk He]. cbn in Hk.
  destruct ev as [obj|]; rewrite sm_bind_eq; unfold sm_try, on_status; cbn [statusMemoryStore specPersistStore spec_events].
  - pose proof (covered_follow c a key (Some obj) rest (OpCreateOrUpdate key obj (Some mergeFunc)) Ha Hevs) as H.
    cbn [run] in H. destruct (CreateOrUpdate key obj _ (statusMemoryStore c)) as [r ms]. cbn [snd sm_ret] in *.
    eexists. apply H; [by split; [exact Hr|]|done|done].
  - pose proof (covered_follow c a key None rest (OpDelete key None None None) Ha Hevs) as H.
    cbn [run] in H. rewrite sm_some_snd in H. destruct (Delete key _ _ _ (statusMemoryStore c)) as [r ms]. cbn [snd sm_ret] in *.
    eexists. apply H; [by split; [exact Hr|]|done|]. intros _. cbn. unfold remove.
    destruct (objects a !! key) eqn:Eo; cbn; [by rewrite lookup_delete_eq|done].
Qed.
Lemma covered_more (L' : gset string) c a : L' ⊆ L -> covered_late L' c a -> covered c a.
Proof.
  intros Hsub [Hr He Hv]. split; [done|done|]. intros key Hk.
  destruct (Hv key Hk) as [|[? [Hin|]]]; [by left|right; split; [done|left; by apply Hsub]|right; split; [done|by right]].
Qed.
Lemma cover_follow_spec c : cover c -> room 2 c -> cover (follow_spec mergeFunc c).2.
Proof.
  intros Hc Hr. destruct (follow_spec_late c Hc Hr) as [a Ha]. exists a. eapply covered_more; [|exact Ha].
  unfold follow_late. destruct (spec_events c) as [|[key [o|]] rest]; [done|done|]. clear. set_solver.
Qed.
Lemma cover_follow_status c key o : cover c -> key_ok depth key -> cover (follow_status key o c).2.
Proof.
  intros Hc Hk. unfold follow_status. destruct o as [o|]; [|done]. destruct (ShouldDeleteSpec o); [|done].
  rewrite sm_bind_eq. unfold sm_try, spec_Get. destruct (ps_Get _ _ _) as [[so|]|]; [|done|done].
  destruct (HasDeletionTimestamp so); [|done]. rewrite sm_bind_eq. unfold sm_try.
  destruct (cover_spec_Delete c key None (Some (fun _ => Ok ())) None Hc Hk) as [H _].
  by destruct (spec_Delete key None _ None c).
Qed.

(** The rest of the control plane changes the copies, but adds none. *)
Definition status_op (op : @store_op S T) : Prop :=
  match op with
  | OpDelete _ _ _ _ | OpUpdate _ _ _ _ _ | OpEnsureUpdateAndDelete _ _ _ _ | OpGet _ _ | OpHouseKeeping | OpOther _ => True
  | _ => False
  end.
Lemma remove_none key f (a : vmap S T) k : objects a !! k = None -> objects (remove key f a).2 !! k = None.
Proof.
  intros Hk. destruct (decide (k = key)) as [->|Hne]; [|by rewrite remove_other]. unfold remove. by rewrite Hk.
Qed.
Lemma update_none key ign f (a : vmap S T) k : objects a !! k = None -> objects (update key ign f a).2 !! k = None.
Proof.
  intros Hk. destruct (decide (k = key)) as [->|Hne]; [|by rewrite update_other]. unfold update. by rewrite Hk.
Qed.
Lemma status_op_none op (a : vmap S T) k : status_op op -> objects a !! k = None -> objects (run_spec op a).2 !! k = None.
Proof.
  intros Hop Hk. destruct op; simpl in Hop; try done; cbn [run_spec].
  - unfold spec_delete. destruct (check_cached cached); [by apply remove_none|done].
  - by apply update_none.
  - unfold spec_update. match goal with |- context [update key ?i ?f a] =>
      pose proof (update_none key i f a k Hk) as Hu; destruct (update key i f a) as [[[o|]|e] a'] end; cbn [snd] in *; try done.
    destruct (ShouldDeleteSpec o); [|done]. unfold spec_delete. cbn.
    match goal with |- context [remove key ?f a'] => pose proof (remove_none key f a' k Hu); destruct (remove key f a') as [[]] end; done.
Qed.
Lemma cover_status_op c op :
  cover c -> op_ok depth op (statusMemoryStore c) -> status_op op -> cover (on_status (run op) c).2.
Proof.
  intros [a [Hr He Hv]] Hok Hop. exists (run_spec op a).2. destruct (run_agrees depth Hdepth op _ _ Hr Hok) as [_ Hr'].
  unfold on_status. destruct (run op (statusMemoryStore c)) as [r ms]. split; [done|done|].
  cbn. intros k Hk. destruct (Hv k Hk) as [|[? [Hin|Hn]]]; [by left|by right; split; [|left]|]. right. split; [done|]. right. by apply status_op_none.
Qed.

(** ** Calls one after the other *)

Inductive whole_step : Composite -> Composite -> Prop :=
  | api_creates key obj c : key_ok depth key -> room 2 c -> whole_step c (c_Create key obj c).2
  | api_deletes key pre val cached c : key_ok depth key -> room 2 c -> whole_step c (c_Delete key pre val cached c).2
  | api_updates key ignore pre upd cached c : key_ok depth key -> room 2 c ->
    whole_step c (c_GuaranteedUpdate mergeFunc zero key ignore pre upd cached c).2
  | api_gets key rv c : key_ok depth key -> room 2 c ->
    whole_step c (c_Get mergeFunc zero key (mkGetOptions false rv) c).2
  | api_lists key c :
    (forall items, ps_GetList key (specPersistStore c) = Ok items ->
       Forall (fun o => key_ok depth (keyFunc o)) items /\ room (Z.of_nat (List.length items) + 2) c) ->
    whole_step c (c_GetList mergeFunc keyFunc zero key c).2
  (** another process writes to the persistent store *)
  | others_create key obj c : key_ok depth key -> whole_step c (spec_Create key obj c).2
  | others_delete key pre val cached c : key_ok depth key -> whole_step c (spec_Delete key pre val cached c).2
  | others_update key ignore pre upd cached c : key_ok depth key ->
    whole_step c (spec_Update key ignore pre upd cached c).2
  (** the control plane writes status *)
  | status_changes op c : op_ok depth op (statusMemoryStore c) -> status_op op -> whole_step c (on_status (run op) c).2
  | spec_followed c : room 2 c -> whole_step c (follow_spec mergeFunc c).2
  | status_followed key o c : key_ok depth key -> whole_step c (follow_status key o c).2.

Lemma whole_step_cover c c' : whole_step c c' -> cover c -> cover c'.
Proof.
  intros Hstep Hc. destruct Hstep as [| | | |key c Hl| | | | | |].
  - by apply cover_Create.
  - by apply cover_Delete.
  - by apply cover_GuaranteedUpdate.
  - by apply cover_Get.
  - apply cover_GetList; [done| |].
    + intros items o Hi Ho. destruct (Hl items Hi) as [Hf _]. rewrite Forall_forall in Hf. by apply Hf.
    + intros items Hi. by apply Hl.
  - by apply cover_spec_Create.
  - by apply cover_spec_Delete.
  - by apply cover_spec_Update.
  - by apply cover_status_op.
  - by apply cover_follow_spec.
  - by apply cover_follow_status.
Qed.

Lemma whole_run_cover c c' : rtc whole_step c c' -> cover c -> cover c'.
Proof. induction 1 as [|c1 c2 c3 Hstep _ IH]; intros Hc; [done|]. by apply IH, (whole_step_cover c1). Qed.

(** A store that starts: nothing in memory, and the watch announces what the persistent store has. *)
Lemma cover_start r e evs :
  0 < r <= MaxUint64 -> Forall (fun ev => key_ok depth ev.1 /\ is_Some (ps_view e !! ev.1)) evs ->
  cover (mkComposite e (NewMemoryStore r) evs).
Proof.
  intros Hr Hevs. exists (mkVMap r ∅). split.
  - by apply refines_new.
  - eapply Forall_impl; [done|]. by intros ev [Hk _].
  - cbn. intros key Hkey. right. split; [|by right].
    unfold last_event. assert (filter (fun ev => ev.1 = key) evs = []) as ->; [|done].
    induction Hevs as [|ev evs [_ Hv] _ IH]; [done|]. rewrite filter_cons_False; [done|]. intros Heq.
    rewrite Heq, Hkey in Hv. by destruct Hv.
Qed.

(** What [c_Create] returns, [c_Get] reads: the object of the persistent store with the status and the
    version of the copy. *)
Lemma create_then_get c a key obj out c1 :
  covered c a -> key_ok depth key -> room 2 c ->
  c_Create key obj c = (Ok out, c1) ->
  exists specOut, view c1 !! key = Some specOut /\
    c_Get mergeFunc zero key (mkGetOptions false "") c1 = (Ok (merged mergeFunc out specOut), c1).
Proof.
  intros Ha Hk Hr Hc. unfold c_Create in Hc. rewrite sm_bind_eq in Hc. unfold spec_Create, on_spec in Hc.
  destruct (ps_Create key obj (specPersistStore c)) as [[specOut|err] e] eqn:Ep; [|done].
  apply ps_create_ok in Ep. rewrite sm_bind_eq in Hc. unfold sm_try, on_status in Hc. cbn [statusMemoryStore specPersistStore spec_events] in Hc.
  pose proof (CreateOrReplace_agrees depth Hdepth (statusMemoryStore c) a key specOut (cv_refines _ _ _ Ha) Hk) as Hag.
  unfold room in Hr. assert (MemoryRev (statusMemoryStore c) < MaxUint64) as Hlt by lia. specialize (Hag Hlt).
  destruct (CreateOrReplace key specOut (statusMemoryStore c)) as [[o|err] ms] eqn:Ecr; [|done]. injection Hc as <- <-.
  exists specOut. assert (ps_view e !! key = Some specOut) as Hv by (rewrite Ep; apply lookup_insert_eq).
  split; [done|]. unfold c_Get. rewrite sm_bind_eq. unfold spec_Get. cbn [specPersistStore]. rewrite (ps_get_found _ _ _ Hv).
  cbn [default from_option id]. rewrite sm_bind_eq.
  assert (kvs_get ms key <> None /\ forall l w, kvs_get ms key = Some (l, w) -> owi_obj w = o /\ GetObjectResourceVersion o = Ok (ObjectRV o)) as [Hsome Hobj].
  { destruct Hag as [H1 H2]. unfold sm_some in H1, H2. rewrite sm_bind_eq, Ecr in H1, H2. cbn [fst snd sm_ret] in H1, H2.
    assert (objects (run_spec (OpCreateOrReplace key specOut) a).2 !! key = Some o) as Ho.
    { cbn [run_spec] in *. destruct (objects a !! key) as [cur|] eqn:Eo; cbn in *.
      - injection H1 as ->. apply lookup_insert_eq.
      - unfold create in *. rewrite Eo in *. cbn in *. injection H1 as ->. apply lookup_insert_eq. }
    destruct (refines_RV depth Hdepth ms _ key o H2 Ho) as [Hrv _]. pose proof (refines_get depth ms _ key H2 Hk) as Hg.
    rewrite Ho in Hg. destruct Hg as (l & w & Hg & Hw). split; [by rewrite Hg|]. intros l' w'. rewrite Hg.
    intros [= <- <-]. by split. }
  unfold status_of. destruct (kvs_get ms key) as [[l w]|] eqn:Ek; [|done]. destruct (Hobj l w eq_refl) as [Hw Hrv].
  destruct (HasDeletionTimestamp specOut).
  - rewrite sm_bind_eq. unfold status_Get, on_status, Get. cbn [statusMemoryStore]. rewrite Ek, Hw, Hrv. cbn. done.
  - unfold on_status, GetOrCreate. cbn [statusMemoryStore]. rewrite sm_bind_eq, sm_get_eq, Ek, sm_ret_eq, Hw. done.
Qed.

End Covered.

(** ** Calls that overlap *)

Section Overlap.
Context {S T E : Type} {PS : PersistStore S T E} (depth : nat) (Hdepth : depth <> 0%nat).
Context (mergeFunc : Object S T -> Object S T -> result (Object S T)) (keyFunc : Object S T -> string) (zero : Object S T).
Context {PO : PersistStoreOK S T E keyFunc}.
Abbreviation Obj := (Object S T).
Abbreviation Composite := (CompositeStore S T E).
Implicit Types (c : Composite) (L : gset string).
Abbreviation view c := (ps_view (specPersistStore c)).
Abbreviation cover := (cover depth keyFunc).

(** What is left of a call when its part on the persistent store is done. *)
Inductive second_half :=
  | Creates (key : string) (o : Obj)
  | Deletes (key : string)
  | Reads (key : string) (o : Obj)
  | Updates (key : string) (o : Obj).
Definition half_key (h : second_half) : string :=
  match h with Creates key _ | Deletes key | Reads key _ | Updates key _ => key end.
Definition finish (h : second_half) c : Composite :=
  match h with
  | Creates key o => (on_status (CreateOrReplace key o) c).2
  | Deletes key => (on_status (Delete key None None None) c).2
  | Reads key o => (status_of zero key o c).2
  | Updates key o => (on_status (CreateOrUpdate key o (Some mergeFunc)) c).2
  end.
Definition start_with {A} (x : SM Composite A) (h : A -> list second_half) c : list second_half * Composite :=
  match x c with (Ok a, c') => (h a, c') | (Err _, c') => ([], c') end.
(** The first parts of the calls.  A write of another process to the persistent store is a call whose
    second part never comes, and so is [ensureFinalizerUpdated]. *)
Inductive call_start : (Composite -> list second_half * Composite) -> Prop :=
  | start_create key obj : key_ok depth key -> call_start (start_with (spec_Create key obj) (fun o => [Creates key o]))
  | start_delete key pre val cached : key_ok depth key ->
    call_start (start_with (spec_Delete key pre val cached) (fun _ => [Deletes key]))
  | start_update key ignore pre upd cached : key_ok depth key ->
    call_start (start_with (spec_Update key ignore pre upd cached) (fun o => [Updates key o]))
  | start_get key opts : call_start (start_with (spec_Get key opts) (fun o => [Reads key (default zero o)]))
  | start_list key :
    call_start (start_with (fun c => (ps_GetList key (specPersistStore c), c)) (map (fun o => Reads (keyFunc o) o))).

(** The keys that are late after the second part of a call: one whose copy is made or renewed with no original
    and no deletion of it left to follow. *)
Definition copies (h : second_half) : bool :=
  match h with Reads _ o => negb (HasDeletionTimestamp o) | _ => true end.
Definition finish_late (h : second_half) c L : gset string :=
  match h with
  | Deletes key => L ∖ {[key]}
  | _ => match view c !! half_key h, last_event (half_key h) (spec_events c) with
         | None, None => if copies h then {[half_key h]} ∪ L else L
         | _, _ => L
         end
  end.

Record calls := mkCalls { composite : Composite; halves : list second_half; late : gset string }.
Inductive composite_step : calls -> calls -> Prop :=
  | call_starts f c hs L : call_start f -> composite_step (mkCalls c hs L) (mkCalls (f c).2 (hs ++ (f c).1) L)
  | call_ends h c hs1 hs2 L : key_ok depth (half_key h) -> room 2 c ->
    composite_step (mkCalls c (hs1 ++ h :: hs2) L) (mkCalls (finish h c) (hs1 ++ hs2) (finish_late h c L))
  | status_written op c hs L : op_ok depth op (statusMemoryStore c) -> status_op op ->
    composite_step (mkCalls c hs L) (mkCalls (on_status (run op) c).2 hs L)
  | spec_follows c hs L : room 2 c -> composite_step (mkCalls c hs L) (mkCalls (follow_spec mergeFunc c).2 hs (follow_late L c))
  | status_follows key o c hs L : key_ok depth key ->
    composite_step (mkCalls c hs L) (mkCalls (follow_status key o c).2 hs L).

Lemma call_start_cover f c L : call_start f -> cover L c -> cover L (f c).2.
Proof using Hdepth.
  assert (forall A (x : SM Composite A) h, (start_with x h c).2 = (x c).2) as Hsnd
    by (intros A x h; unfold start_with; by destruct (x c) as [[]]).
  intros [key obj Hk|key pre val cached Hk|key ignore pre upd cached Hk|key opts|key] Hc; rewrite Hsnd.
  - by apply cover_spec_Create.
  - by apply cover_spec_Delete.
  - by apply cover_spec_Update.
  - done.
  - done.
Qed.

(** A second part that makes or renews a copy. *)
Lemma copy_cover {A} (x : SM (MemoryStore S T) A) op h c L :
  (forall ms, (x ms).2 = (run op ms).2) -> op_ok depth op (statusMemoryStore c) -> key_op op (half_key h) -> copies h = true ->
  (forall key, h <> Deletes key) -> cover L c -> cover (finish_late h c L) (on_status x c).2.
Proof using Hdepth mergeFunc zero.
  intros Hx Hok Hop Hcp Hnd [a Ha]. exists (run_spec op a).2. unfold on_status. specialize (Hx (statusMemoryStore c)).
  destruct (x (statusMemoryStore c)) as [r ms]. cbn in Hx. subst ms. cbn [snd].
  destruct (run_agrees depth Hdepth op _ _ (cv_refines _ _ _ _ _ Ha) Hok) as [_ Hr].
  eapply (covered_status_at depth keyFunc L _ c a _ _ (half_key h) Ha Hr); [intros k Hne; by apply run_spec_other with (key := half_key h)|..].
  - intros k Hne Hin. unfold finish_late. destruct h; try (by destruct (Hnd key)); rewrite ?Hcp; repeat case_match; set_solver.
  - destruct (view c !! half_key h) as [o|] eqn:Ev; [left; by eexists|].
    destruct (cv_view _ _ _ _ _ Ha _ Ev) as [Hl|[Hl _]]; [by right; left|]. right; right; left.
    unfold finish_late. destruct h; try (by destruct (Hnd key)); cbn [half_key] in *; rewrite Ev, Hl, Hcp; set_solver.
Qed.
Lemma finish_cover h c L : key_ok depth (half_key h) -> room 2 c -> cover L c -> cover (finish_late h c L) (finish h c).
Proof using Hdepth.
  intros Hk Hr Hc. destruct h as [key o|key|key o|key o]; cbn [finish half_key] in *.
  - apply (copy_cover _ (OpCreateOrReplace key o) (Creates key o)); try done. intros ms. cbn [run]. by rewrite sm_some_snd.
  - destruct Hc as [a Ha]. exists (run_spec (OpDelete key None None None) a).2. unfold on_status.
    destruct (run_agrees depth Hdepth (OpDelete key None None None) _ _ (cv_refines _ _ _ _ _ Ha)) as [_ Hrf]; [by split; [exact Hr|]|].
    cbn [run] in Hrf. rewrite sm_some_snd in Hrf. destruct (Delete key None None None (statusMemoryStore c)) as [r ms]. cbn [snd] in *.
    eapply (covered_status_at depth keyFunc L _ c a _ _ key Ha Hrf);
      [intros k Hne; by apply (run_spec_other (OpDelete key None None None) key)|set_solver|].
    right; right; right. cbn. unfold remove. destruct (objects a !! key) eqn:Eo; cbn; [by rewrite lookup_delete_eq|done].
  - unfold status_of. destruct (HasDeletionTimestamp o) eqn:Ed.
    + assert (finish_late (Reads key o) c L = L) as -> by (unfold finish_late, copies; rewrite Ed; by repeat case_match).
      rewrite sm_bind_eq. unfold status_Get, on_status. destruct Hc as [a Ha].
      destruct (Get _ key _) as [so|e]; cbn; exists a; by destruct c.
    + apply (copy_cover _ (OpGetOrCreate key o) (Reads key o)); try done; [|by unfold copies; rewrite Ed].
      intros ms. cbn [run]. by rewrite sm_some_snd.
  - by apply (copy_cover _ (OpCreateOrUpdate key o (Some mergeFunc)) (Updates key o)).
Qed.

Lemma composite_step_cover w w' : composite_step w w' -> cover (late w) (composite w) -> cover (late w') (composite w').
Proof using Hdepth.
  intros [f c hs L Hf|h c hs1 hs2 L Hk Hr|op c hs L Hok Hop|c hs L Hr|key o c hs L Hk] Hc; cbn [composite late] in *.
  - by apply call_start_cover.
  - by apply finish_cover.
  - by apply cover_status_op.
  - by apply follow_spec_late.
  - by apply cover_follow_status.
Qed.

Lemma cover_followed L c key : cover L c -> spec_events c = [] -> key_ok depth key ->
  is_Some (store_lookup (statusMemoryStore c) key) -> is_Some (view c !! key) \/ key ∈ L.
Proof using.
  intros [a [Hrf _ Hv]] Hdone Hk Hin. rewrite (rf_lookup _ _ _ Hrf key Hk) in Hin.
  destruct (view c !! key) as [o|] eqn:Ev; [left; by eexists|right].
  destruct (Hv key Ev) as [Hl|[_ [|Hn]]]; [by rewrite Hdone in Hl|done|]. rewrite Hn in Hin. by destruct Hin.
Qed.

End Overlap.

(** [applicationStatusAndRevisionMerge] of [pkg/store/factory/factory.go], the merge for applications *)
Definition applicationStatusAndRevisionMerge (fromApp toApp : Application) : result Application :=
  let status := Status fromApp in
  let toApp := set_Status status toApp in
  let toApp := if TotalInstances status =? 0
               then map_om (fun m => RemoveFinalizer m FinalizerApplicationPod) toApp
               else map_om (fun m => AddFinalizer m FinalizerApplicationPod) toApp in
  Ok (map_om (om_set_ResourceVersion (om_ResourceVersion (om fromApp))) toApp).

Lemma application_merge_spec fromApp toApp :
  exists app, applicationStatusAndRevisionMerge fromApp toApp = Ok app /\
    Spec app = Spec toApp /\ Status app = Status fromApp /\ om_ResourceVersion (om app) = om_ResourceVersion (om fromApp) /\
    om_DeletionTimestamp (om app) = om_DeletionTimestamp (om toApp) /\
    (FinalizerApplicationPod ∈ om_Finalizers (om app) <-> TotalInstances (Status fromApp) <> 0).
Proof.
  unfold applicationStatusAndRevisionMerge. eexists. split; [done|].
  destruct (Z.eqb_spec (TotalInstances (Status fromApp)) 0) as [Ez|Ez]; cbn.
  - do 4 (split; [done|]). split; [|done]. intros Hin. apply RemoveFinalizer_spec in Hin. tauto.
  - do 4 (split; [done|]). split; [done|]. intros _. apply AddFinalizer_spec. by left.
Qed.

(** An application that was created can be read.  After a create that succeeds, a read through the
    same store returns the application as the persistent store has it, with the status and the version
    of the copy in memory; and neither store changes. *)
Theorem created_application_read {E} {PS : PersistStore ApplicationSpec ApplicationStatus E} keyFunc
    {PO : PersistStoreOK ApplicationSpec ApplicationStatus E keyFunc} depth zero L (c : CompositeStore _ _ E) a key obj out c1 :
  depth <> 0%nat -> covered_late depth keyFunc L c a -> key_ok depth key -> room 2 c ->
  c_Create key obj c = (Ok out, c1) ->
  exists specOut app, ps_view (specPersistStore c1) !! key = Some specOut /\
    c_Get applicationStatusAndRevisionMerge zero key (mkGetOptions false "") c1 = (Ok app, c1) /\
    Spec app = Spec specOut /\ Status app = Status out /\ ObjectRV app = ObjectRV out.
Proof.
  intros Hd Hc Hk Hr Hcr.
  destruct (create_then_get depth Hd applicationStatusAndRevisionMerge keyFunc zero L c a key obj out c1 Hc Hk Hr Hcr)
    as (specOut & Hv & Hg).
  destruct (application_merge_spec out specOut) as (app & Hm & Hs & Hst & Hrv & _).
  exists specOut, app. unfold merged in Hg. rewrite Hm in Hg. repeat (split; [done|]). unfold ObjectRV. by rewrite Hrv.
Qed.

(** ** Witnesses and examples, over a persistent store that is a versioned map *)

Section Simulated.
Definition example_keyFunc (app : Application) : string := ("/apps/" ++ om_Namespace (om app) ++ "/" ++ om_Name (om app))%string.
Definition example_zero : Application :=
  mkObject (mkObjectMeta "" "" "" "" 0 None None ∅ ∅ [])
    (mkApplicationSpec _ [] false ∅ (mkScalingPolicy 0 0 0 ScalingPolicyTypeUnset None None)) (mkApplicationStatus 0 0 0 0 0 0).
Abbreviation etcd := (vmap ApplicationSpec ApplicationStatus).

Definition etcd_update (key : string) (ignore : bool) (pre : option (string -> Application -> result unit))
    (upd : UpdateFunc ApplicationSpec ApplicationStatus) (a : etcd) : result (Application * bool) * etcd :=
  match objects a !! key, ignore with
  | None, false => (Err KeyNotFoundError, a)
  | found, _ =>
    let cur := default example_zero found in
    match (let? _ := check_pre pre key cur in UpdateState cur upd) with
    | Err e => (Err e, a)
    | Ok o => let '(o, a) := write key o a in (Ok (o, true), a)
    end
  end.
#[local] Instance sim_etcd : PersistStore ApplicationSpec ApplicationStatus etcd := {|
  ps_Create key o a := match create key o a with
                       | (Ok (Some o), a) => (Ok o, a)
                       | (Ok None, a) => (Err InternalError, a)
                       | (Err e, a) => (Err e, a)
                       end;
  ps_Delete key pre val cached a := match spec_delete key pre val cached a with
                                    | (Ok (Some o), a) => (Ok o, a)
                                    | (Ok None, a) => (Err InternalError, a)
                                    | (Err e, a) => (Err e, a)
                                    end;
  ps_Get key opts a := match objects a !! key with
                       | Some o => Ok (Some o)
                       | None => if go_IgnoreNotFound opts then Ok None else Err KeyNotFoundError
                       end;
  ps_GetList key a := Ok (omap (fun '(k, o) => if bool_decide (example_keyFunc o = k) then Some o else None) (map_to_list (objects a)));
  ps_GuaranteedUpdate key ignore pre upd cached a := etcd_update key ignore pre upd a
|}.
#[local] Instance sim_etcd_ok : PersistStoreOK ApplicationSpec ApplicationStatus etcd example_keyFunc.
Proof.
  refine {| ps_view := fun e : etcd => objects e |}; cbn.
  - intros key o e o' e'. unfold create. destruct (objects e !! key); [done|]. cbn. by intros [= <- <-].
  - intros key o e err e'. unfold create. destruct (objects e !! key); [by intros [= <- <-]|done].
  - intros key pre val cached e o e'. unfold spec_delete, remove. destruct (check_cached cached); [|done].
    destruct (objects e !! key); [|done]. destruct (let? _ := _ in _); [|done]. by intros [= <- <-].
  - intros key pre val cached e err e'. unfold spec_delete, remove. destruct (check_cached cached); [|by intros [= <- <-]].
    destruct (objects e !! key); [|by intros [= <- <-]]. destruct (let? _ := _ in _); [done|by intros [= <- <-]].
  - intros key ignore pre upd cached e o changed e'. unfold etcd_update.
    destruct (objects e !! key), ignore; try done; destruct (let? _ := _ in _); try done; cbn; by intros [= <- <- <-].
  - intros key ignore pre upd cached e err e'. unfold etcd_update.
    destruct (objects e !! key), ignore; try (by intros [= <- <-]); destruct (let? _ := _ in _); try done; by intros [= <- <-].
  - intros key rv e o. destruct (objects e !! key); [|done]. intros [= <-]. by eexists.
  - intros key o e ->. done.
  - intros key e items o [= <-]. rewrite list_elem_of_omap. intros ([k o'] & Hin & Hb). case_bool_decide as Hk; [|done].
    injection Hb as ->. apply elem_of_map_to_list in Hin. by subst k.
Defined.

Definition example_composite_app : Application :=
  mkObject (mkObjectMeta "a" "ns" "uid" "" 0 None None ∅ ∅ []) (Spec example_zero) (Status example_zero).
Abbreviation start := (mkComposite (mkVMap 7 ∅ : etcd) (NewMemoryStore 100) []).
Abbreviation key := "/apps/ns/a".
Abbreviation merge := applicationStatusAndRevisionMerge.

Definition example_created := (c_Create key example_composite_app start).2.
Definition example_followed := (follow_spec merge example_created).2.
Abbreviation example_step := (composite_step 4 merge example_keyFunc example_zero).
(** Two creates that overlap: the one that loses has no second part; then the change is followed. *)
Definition create_starts : CompositeStore _ _ etcd -> list second_half * CompositeStore _ _ etcd :=
  start_with (spec_Create key example_composite_app) (fun o => [Creates key o]).
Definition also_starts (w : calls) : calls :=
  mkCalls (create_starts (composite w)).2 (halves w ++ (create_starts (composite w)).1) (late w).
Definition example_begun : calls := also_starts (also_starts (mkCalls start [] ∅)).
Definition example_half : second_half := Creates key (map_om (om_set_ResourceVersion "8") example_composite_app).
Definition example_ended : calls := mkCalls (finish merge example_zero example_half (composite example_begun)) [] ∅.
Definition example_calls : calls := mkCalls (follow_spec merge (composite example_ended)).2 [] ∅.
Lemma also_starts_step w : example_step w (also_starts w).
Proof. destruct w as [c hs L]. apply (call_starts 4 merge example_keyFunc example_zero create_starts c hs L), start_create. reflexivity. Qed.
Lemma example_begun_halves : halves example_begun = [] ++ example_half :: [].
Proof. vm_compute. reflexivity. Qed.
Lemma example_begun_eq : example_begun = mkCalls (composite example_begun) ([] ++ example_half :: []) ∅.
Proof.
  rewrite <- example_begun_halves. change (∅ : gset string) with (late example_begun). by destruct example_begun.
Qed.
Lemma example_late_eq : finish_late example_keyFunc example_half (composite example_begun) ∅ = ∅.
Proof. vm_compute. reflexivity. Qed.
Lemma example_follow_eq : follow_late ∅ (composite example_ended) = ∅.
Proof. vm_compute. reflexivity. Qed.
Lemma example_room (c : CompositeStore ApplicationSpec ApplicationStatus etcd) :
  (MemoryRev (statusMemoryStore c) + 2 <=? MaxUint64) = true -> room 2 c.
Proof. intros H. by apply Z.leb_le in H. Qed.
Lemma example_ends : example_step example_begun example_ended.
Proof.
  pose proof (call_ends 4 merge example_keyFunc example_zero example_half (composite example_begun) [] [] ∅ eq_refl
    (example_room (composite example_begun) ltac:(vm_compute; reflexivity))) as H.
  rewrite example_late_eq, <- example_begun_eq in H. exact H.
Qed.
Lemma example_follows : example_step example_ended example_calls.
Proof.
  pose proof (spec_follows 4 merge example_keyFunc example_zero (composite example_ended) [] ∅
    (example_room (composite example_ended) ltac:(vm_compute; reflexivity))) as H.
  rewrite example_follow_eq in H. exact H.
Qed.
Lemma example_calls_run : rtc example_step (mkCalls start [] ∅) example_calls.
Proof.
  eapply rtc_l; [apply also_starts_step|]. eapply rtc_l; [apply also_starts_step|].
  eapply rtc_l; [apply example_ends|]. apply rtc_once, example_follows.
Qed.
Lemma example_followed_run : rtc (whole_step 4 merge example_keyFunc example_zero) start example_followed.
Proof.
  eapply rtc_l; [apply (api_creates 4 merge example_keyFunc example_zero key example_composite_app); [reflexivity|vm_compute; discriminate]|].
  eapply rtc_l; [apply spec_followed; vm_compute; discriminate|]. apply rtc_refl.
Qed.

Lemma example_start_covered : covered_late 4 example_keyFunc ∅ start (mkVMap 100 ∅).
Proof. split; [by apply refines_new|constructor|]. intros k _. right. split; [done|by right]. Qed.
Lemma created_application_read_witness :
  exists out (specOut app : Application), (c_Create key example_composite_app start).1 = Ok out /\
    c_Get merge example_zero key (mkGetOptions false "") example_created = (Ok app, example_created) /\
    Spec app = Spec specOut /\ ObjectRV app = ObjectRV out.
Proof.
  unfold example_created. destruct (c_Create key example_composite_app start) as [r c1] eqn:Hc.
  assert (exists out, r = Ok out) as [out ->] by (apply (f_equal fst) in Hc; vm_compute in Hc; subst r; by eexists).
  destruct (created_application_read example_keyFunc 4 example_zero ∅ start (mkVMap 100 ∅) key example_composite_app out c1)
    as (specOut & app & _ & Hg & Hs & _ & Hrv); [discriminate|exact example_start_covered|reflexivity|vm_compute; discriminate|exact Hc|].
  exists out, specOut, app. by repeat split.
Defined.

(** A read whose two halves have the deletion of the object, and what follows it, between them makes the
    copy anew: it stays in memory, without original and with no change left to follow. *)
Definition resurrecting_reader : CompositeStore _ _ etcd :=
  let '(specOut, c) := spec_Get key (mkGetOptions false "") example_followed in
  let c := (follow_spec merge (c_Delete key None None None c).2).2 in
  match specOut with Ok (Some o) => (status_of example_zero key o c).2 | _ => c end.
Lemma get_resurrects_deleted :
  spec_events resurrecting_reader = [] /\
  bool_decide (is_Some (store_lookup (statusMemoryStore resurrecting_reader) key)) = true /\
  objects (specPersistStore resurrecting_reader) !! key = None.
Proof. vm_compute. repeat split; reflexivity. Qed.

(** A read that ignores a missing object makes a copy of the empty object. *)
Lemma get_copies_missing :
  let c := (c_Get merge example_zero key (mkGetOptions true "") start).2 in
  spec_events c = [] /\ bool_decide (is_Some (store_lookup (statusMemoryStore c) key)) = true /\
  objects (specPersistStore c) !! key = None /\
  late (mkCalls c [] (finish_late example_keyFunc (Reads key example_zero) start ∅)) = {[key]}.
Proof. vm_compute. repeat split; reflexivity. Qed.

(** An update of a key that neither store has fails, and leaves an object with no name in the persistent
    store. *)
Lemma update_creates_empty :
  let '(r, c) := c_GuaranteedUpdate merge example_zero key false
    (Some (fun _ o => if (om_UID (om o) =? "uid")%string then Ok () else Err InternalError))
    (GetTryUpdateFunc example_composite_app) None start in
  r = Err InternalError /\
  (om_Name ∘ om) <$> (objects (specPersistStore c) !! key) = Some ""%string /\
  store_lookup (statusMemoryStore c) key = None.
Proof. vm_compute. repeat split; reflexivity. Qed.

(** An application that is deleted and created again before the deletion is followed loses its copy to the
    old deletion. *)
Lemma old_deletion_drops_copy :
  let c := (c_Create key example_composite_app (c_Delete key None None None example_created).2).2 in
  let c1 := (follow_spec merge (follow_spec merge c).2).2 in
  bool_decide (is_Some (store_lookup (statusMemoryStore c) key)) = true /\
  store_lookup (statusMemoryStore c1) key = None /\
  bool_decide (is_Some (objects (specPersistStore c1) !! key)) = true.
Proof. vm_compute. repeat split; reflexivity. Qed.
End Simulated.
