(* ===== verification/StoreList.v ===== *)
(** * Lists and pages of the memory store

    [GetList] walks the revision list.  These are the theorems on what a recursive list returns:
    all the objects below the prefix that pass the predicate, in revision order, cut at the page
    limit, and how a page continues the previous one. *)

From S2P Require Import Prelude GoStrings ApiTypes ObjectVersion ObjStoreMap MemoryStore StoreInvariant StoreRefinement.
From Stdlib Require Import String.
Import VersionedMap.
#[local] Open Scope Z_scope.

Section StoreList.
Context {S T : Type} {TC : TokenCodec} (depth : nat) (Hdepth : depth <> 0%nat).
Abbreviation Obj := (Object S T).
Abbreviation MStore := (MemoryStore S T).
Implicit Types ms : MStore.

(** The version test of a match rule. *)
Definition version_passes (match_ : ResourceVersionMatch) (withRV rv : Z) : bool :=
  match match_ with
  | MatchNotOlderThan => withRV <=? rv
  | MatchExact | MatchUnset => withRV <? rv
  | MatchOther _ => false
  end.

(** The item a slot contributes to a list. *)
Definition listed ms (match_ : ResourceVersionMatch) (pred : SelectionPredicate S T)
    (keyPrefix : string) (withRV : Z) (v : option loc) : option Obj :=
  c ← slot_obj ms v;
  let o := SetObjectResourceVersion (owi_obj c) (ObjectRV (owi_obj c)) in
  if negb (owi_deleted c) && HasPrefix (owi_key c) keyPrefix &&
     version_passes match_ withRV (ObjectRV (owi_obj c)) &&
     bool_decide (pred_Matches pred o = Some true)
  then Some o else None.

Definition known_match (match_ : ResourceVersionMatch) : Prop :=
  match match_ with MatchOther _ => False | _ => True end.

Lemma list_visit_listed ms match_ pred keyPrefix withRV v c items :
  known_match match_ -> slot_obj ms v = Some c -> owi_deleted c = false ->
  HasPrefix (owi_key c) keyPrefix = true ->
  list_visit match_ pred withRV c items =
  Some (items ++ option_list (listed ms match_ pred keyPrefix withRV v)).
Proof.
  intros Hm Hv Hd Hp. unfold listed. rewrite Hv. cbn [mbind option_bind].
  rewrite Hd, Hp. cbn [negb andb]. unfold list_visit, AppendListItem, version_passes.
  destruct match_; try done;
    match goal with |- context [if ?b then _ else _] => destruct b end; simpl;
    rewrite ?app_nil_r; try done;
    destruct (pred_Matches pred _) as [[]|]; simpl; by rewrite ?app_nil_r.
Qed.

Lemma take_snoc {A} (l k : list A) x : take (List.length l + 1) (l ++ x :: k) = l ++ [x].
Proof. induction l as [|y l IH]; simpl; [by rewrite take_0|]. by rewrite IH. Qed.

(** Where a full page stopped: the last item is the object named by the token. *)
Definition page_end ms keyPrefix (slots : list (option loc)) (st : list_state (S:=S) (T:=T)) : Prop :=
  exists l c, Some l ∈ slots /\ cells ms !! l = Some c /\ owi_deleted c = false /\
    ls_lastKey st = owi_key c /\ ls_lastRev st = ObjectRV (owi_obj c) /\
    HasPrefix (owi_key c) keyPrefix = true /\
    last (ls_items st) = Some (SetObjectResourceVersion (owi_obj c) (ObjectRV (owi_obj c))).

Lemma page_end_cons ms keyPrefix v slots st :
  page_end ms keyPrefix slots st -> page_end ms keyPrefix (v :: slots) st.
Proof. intros (l & c & Hl & H). exists l, c. split; [by right|done]. Qed.

(** The loop collects what the slots contribute until the page is full. *)
Lemma list_loop_items ms match_ pred keyPrefix withRV limit buf i slots st :
  known_match match_ -> Z.of_nat (List.length (ls_items st)) < limit -> ls_hasMore st = false ->
  exists st', list_loop ms match_ pred keyPrefix withRV limit buf i slots st = Ok st' /\
    ls_items st' = take (Z.to_nat limit)
      (ls_items st ++ omap (listed ms match_ pred keyPrefix withRV) slots) /\
    (ls_hasMore st' = true -> page_end ms keyPrefix slots st').
Proof.
  intros Hm. revert i st. induction slots as [|v slots IH]; intros i st Hlt Hmore.
  { exists st. split; [done|]. rewrite Hmore. cbn. rewrite app_nil_r, take_ge; [done|lia]. }
  assert (forall st0, Z.of_nat (List.length (ls_items st0)) < limit -> ls_hasMore st0 = false ->
    exists st', list_loop ms match_ pred keyPrefix withRV limit buf (i + 1) slots st0 = Ok st' /\
    ls_items st' = take (Z.to_nat limit)
      (ls_items st0 ++ omap (listed ms match_ pred keyPrefix withRV) slots) /\
    (ls_hasMore st' = true -> page_end ms keyPrefix (v :: slots) st')) as Hnext.
  { intros st0 H1 H2. destruct (IH (i + 1) st0 H1 H2) as (st' & ? & ? & Hp).
    exists st'. split; [done|]. split; [done|]. intros E. by apply page_end_cons, Hp. }
  cbn [list_loop omap list_omap].
  destruct (slot_obj ms v) as [c|] eqn:Hv.
  2:{ assert (listed ms match_ pred keyPrefix withRV v = None) as ->
        by (unfold listed; by rewrite Hv).
      replace (Z.of_nat (List.length (ls_items st)) =? limit) with false by lia. by apply Hnext. }
  destruct (owi_deleted c) eqn:Hd.
  { assert (listed ms match_ pred keyPrefix withRV v = None) as ->
      by (unfold listed; rewrite Hv; simpl; by rewrite Hd).
    cbn [negb]. replace (Z.of_nat (List.length (ls_items st)) =? limit) with false by lia.
    by apply Hnext. }
  cbn [negb]. destruct (HasPrefix (owi_key c) keyPrefix) eqn:Hp.
  2:{ assert (listed ms match_ pred keyPrefix withRV v = None) as ->
        by (unfold listed; rewrite Hv; simpl; by rewrite Hd, Hp).
      cbn [negb]. by apply (Hnext (mkListState _ _ _ _ _)). }
  cbn [negb]. rewrite (list_visit_listed ms match_ pred keyPrefix withRV v c) by done.
  cbn [ls_items ls_lastKey ls_lastRev ls_hasMore ls_remaining].
  destruct (listed ms match_ pred keyPrefix withRV v) as [o|] eqn:Ho;
    [change (option_list (Some o)) with [o]|change (option_list (@None Obj)) with (@nil Obj)].
  - rewrite length_app. cbn [List.length].
    destruct (Z.eqb_spec (Z.of_nat (List.length (ls_items st) + 1)) limit) as [E|E].
    + eexists. split; [reflexivity|]. rewrite <- E, Nat2Z.id. rewrite take_snoc.
      split; [by destruct (i <? u64 (buf - 1))|].
      destruct (i <? u64 (buf - 1)); cbn [ls_hasMore]; [intros _|by rewrite Hmore].
      destruct v as [l|]; [|done]. exists l, c. unfold listed in Ho. rewrite Hv in Ho.
      cbn [mbind option_bind] in Ho. destruct (_ && _); [|done]. simplify_eq.
      repeat split_and!; try done; [left|]. apply last_snoc.
    + destruct (Hnext (mkListState (ls_items st ++ [o]) (owi_key c) (ObjectRV (owi_obj c))
        (ls_hasMore st) (ls_remaining st))) as (st' & Hst' & Hi' & Hpe).
      { cbn [ls_items]. rewrite length_app. cbn [List.length]. lia. }
      { done. }
      exists st'. split; [done|]. split; [|done]. rewrite Hi'. cbn [ls_items].
      by rewrite <- app_assoc.
  - rewrite app_nil_r. replace (Z.of_nat (List.length (ls_items st)) =? limit) with false by lia.
    by apply (Hnext (mkListState _ _ _ _ _)).
Qed.

(** ** What a list holds *)

Definition full_list ms match_ pred keyPrefix withRV : list Obj :=
  omap (listed ms match_ pred keyPrefix withRV) (objs (revSortedObjList ms)).

Lemma omap_sorted {A B} (R : B -> B -> Prop) (f : A -> option B) (l : list A) :
  (forall i j x y a b, (i < j)%nat -> l !! i = Some x -> l !! j = Some y ->
     f x = Some a -> f y = Some b -> R a b) ->
  StronglySorted R (omap f l).
Proof.
  induction l as [|x l IH]; intros H; csimpl; [constructor|].
  assert (StronglySorted R (omap f l)) as Hl.
  { apply IH. intros i j ? ? ? ? Hij Hi Hj. apply (H (Datatypes.S i) (Datatypes.S j)); simpl; [lia|done..]. }
  destruct (f x) as [a|] eqn:Hx; [|done]. constructor; [done|].
  apply Forall_forall. intros b (y & Hy & Hb)%list_elem_of_omap.
  apply list_elem_of_lookup in Hy as [j Hj].
  by apply (H 0%nat (Datatypes.S j) x y a b); [lia| | | |].
Qed.

Lemma omap_none {A B} (f : A -> option B) (l : list A) :
  (forall x, x ∈ l -> f x = None) -> omap f l = [].
Proof.
  induction l as [|x l IH]; intros H; csimpl; [done|].
  rewrite (H x) by left. apply IH. intros y Hy. apply H. by right.
Qed.

Lemma length_omap_le {A B} (f : A -> option B) (l : list A) :
  (List.length (omap f l) <= List.length l)%nat.
Proof. induction l as [|x l IH]; csimpl; [done|]. destruct (f x); simpl; lia. Qed.

(** The item of a slot is the stored object, under its key in the map. *)
Lemma listed_spec ms a match_ pred keyPrefix withRV i v o :
  refines depth ms a -> objs (revSortedObjList ms) !! i = Some v ->
  listed ms match_ pred keyPrefix withRV v = Some o ->
  exists l c, v = Some l /\ cells ms !! l = Some c /\ owi_obj c = o /\
    objects a !! owi_key c = Some o /\ HasPrefix (owi_key c) keyPrefix = true /\
    version_passes match_ withRV (ObjectRV o) = true /\ pred_Matches pred o = Some true.
Proof.
  intros Hrf Hi Hl. pose proof (rf_inv _ _ _ Hrf) as Hinv. unfold listed in Hl.
  destruct v as [l|]; [|done]. simpl in Hl.
  destruct (si_slot depth ms Hinv i l Hi) as (c & Hc & _ & _ & Hk & Hver & Hlive).
  rewrite Hc in Hl. simpl in Hl.
  rewrite (versioned_Set _ _ (proj2 (si_rev depth ms Hinv)) Hver) in Hl.
  destruct (owi_deleted c) eqn:Hd; [done|]. cbn [negb andb] in Hl.
  destruct (HasPrefix (owi_key c) keyPrefix) eqn:Hp; [|done].
  destruct (version_passes match_ withRV (ObjectRV (owi_obj c))) eqn:Hv; [|done].
  cbn [andb] in Hl. case_bool_decide as Hm; [|done]. simplify_eq.
  exists l, c. repeat split_and!; try done.
  rewrite <- (rf_lookup _ _ _ Hrf) by done. unfold store_lookup.
  by rewrite (tree_get_kvs_get ms _ l c (Hlive eq_refl) Hc).
Qed.

Lemma elem_of_full_list ms a match_ pred keyPrefix withRV o :
  refines depth ms a ->
  o ∈ full_list ms match_ pred keyPrefix withRV <->
  exists key, objects a !! key = Some o /\ HasPrefix key keyPrefix = true /\
    version_passes match_ withRV (ObjectRV o) = true /\ pred_Matches pred o = Some true.
Proof.
  intros Hrf. pose proof (rf_inv _ _ _ Hrf) as Hinv. unfold full_list.
  rewrite list_elem_of_omap. split.
  - intros (v & [i Hi]%list_elem_of_lookup & Hl).
    destruct (listed_spec ms a _ _ _ _ i v o Hrf Hi Hl) as (l & c & _ & _ & _ & ?). eauto.
  - intros (key & Ho & Hp & Hv & Hm).
    assert (key_ok depth key) as Hk by (apply (rf_dom _ _ _ Hrf); eauto).
    pose proof (refines_get depth ms a key Hrf Hk) as Hg. rewrite Ho in Hg.
    destruct Hg as (l & c & Hg & Hc). pose proof (kvs_get_inv depth ms key Hinv Hk) as H.
    rewrite Hg in H. destruct H as (_ & Hcell & Hkey & Hd & Hs & Hver).
    exists (Some l). split; [by eapply list_elem_of_lookup_2|]. unfold listed. simpl.
    rewrite Hcell. simpl. rewrite (versioned_Set _ _ (proj2 (si_rev depth ms Hinv)) Hver).
    rewrite Hd, Hkey, Hp, Hc, Hv. cbn. by rewrite bool_decide_eq_true_2.
Qed.

(** In revision order, without repetition. *)
Lemma full_list_sorted ms a match_ pred keyPrefix withRV :
  refines depth ms a ->
  StronglySorted (fun o1 o2 => ObjectRV o1 < ObjectRV o2) (full_list ms match_ pred keyPrefix withRV).
Proof.
  intros Hrf. apply omap_sorted. intros i j x y o1 o2 Hij Hi Hj Hx Hy.
  destruct (listed_spec ms a _ _ _ _ i x o1 Hrf Hi Hx) as (l1 & c1 & -> & Hc1 & <- & _).
  destruct (listed_spec ms a _ _ _ _ j y o2 Hrf Hj Hy) as (l2 & c2 & -> & Hc2 & <- & _).
  by apply (si_sorted depth ms (rf_inv _ _ _ Hrf) i j l1 l2).
Qed.

Lemma sorted_NoDup (l : list Obj) :
  StronglySorted (fun o1 o2 => ObjectRV o1 < ObjectRV o2) l -> NoDup l.
Proof.
  induction 1 as [|o l Hs IH Hf]; constructor; [|done].
  intros Hin. rewrite Forall_forall in Hf. specialize (Hf o Hin). simpl in Hf. lia.
Qed.

(** Two keys never hold objects of the same revision. *)
Lemma objects_rev_inj ms a k1 k2 o1 o2 :
  refines depth ms a -> objects a !! k1 = Some o1 -> objects a !! k2 = Some o2 ->
  ObjectRV o1 = ObjectRV o2 -> k1 = k2.
Proof.
  intros Hrf H1 H2 He. pose proof (rf_inv _ _ _ Hrf) as Hinv.
  assert (forall k o, objects a !! k = Some o -> exists i l c,
    objs (revSortedObjList ms) !! i = Some (Some l) /\ cells ms !! l = Some c /\
    owi_key c = k /\ owi_obj c = o) as Hs.
  { intros k o Ho. assert (key_ok depth k) as Hk by (apply (rf_dom _ _ _ Hrf); eauto).
    pose proof (refines_get depth ms a k Hrf Hk) as Hg. rewrite Ho in Hg.
    destruct Hg as (l & c & Hg & Hc). pose proof (kvs_get_inv depth ms k Hinv Hk) as H.
    rewrite Hg in H. destruct H as (_ & Hcell & Hkey & _ & Hslot & _). eauto 10. }
  destruct (Hs k1 o1 H1) as (i & l1 & c1 & Hi & Hc1 & <- & <-).
  destruct (Hs k2 o2 H2) as (j & l2 & c2 & Hj & Hc2 & <- & <-).
  destruct (Nat.lt_trichotomy i j) as [Hlt|[->|Hlt]].
  - pose proof (si_sorted depth ms Hinv i j l1 l2 c1 c2 Hlt Hi Hj Hc1 Hc2). lia.
  - congruence.
  - pose proof (si_sorted depth ms Hinv j i l2 l1 c2 c1 Hlt Hj Hi Hc2 Hc1). lia.
Qed.

(** ** [GetList] *)

(** Slots that contribute nothing may be left out at both ends. *)
Lemma full_list_window ms a match_ pred keyPrefix withRV start :
  refines depth ms a ->
  (forall i l c, (i < start)%nat -> objs (revSortedObjList ms) !! i = Some (Some l) ->
     cells ms !! l = Some c -> version_passes match_ withRV (ObjectRV (owi_obj c)) = false) ->
  omap (listed ms match_ pred keyPrefix withRV)
    (drop start (take (lastObjIndex (revSortedObjList ms) + 1) (objs (revSortedObjList ms)))) =
  full_list ms match_ pred keyPrefix withRV.
Proof.
  intros Hrf Hbefore. unfold full_list. set (L := objs (revSortedObjList ms)) in *.
  set (n := (lastObjIndex (revSortedObjList ms) + 1)%nat).
  rewrite <- (take_drop n L) at 2. rewrite omap_app.
  rewrite (omap_none _ (drop n L)).
  2:{ intros v [j Hj]%list_elem_of_lookup. rewrite lookup_drop in Hj.
      destruct (listed ms match_ pred keyPrefix withRV v) as [o|] eqn:Ho; [|done].
      destruct (listed_spec ms a _ _ _ _ _ v o Hrf Hj Ho) as (l & c & -> & _).
      destruct (si_slot depth ms (rf_inv _ _ _ Hrf) _ l Hj) as (_ & _ & _ & Hle & _). lia. }
  rewrite app_nil_r. rewrite <- (take_drop start (take n L)) at 2. rewrite omap_app.
  rewrite (omap_none _ (take start (take n L))); [done|].
  intros v [j Hj]%list_elem_of_lookup.
  apply lookup_take_Some in Hj as [Hj Hlt]. apply lookup_take_Some in Hj as [Hj _].
  destruct (listed ms match_ pred keyPrefix withRV v) as [o|] eqn:Ho; [|done].
  destruct (listed_spec ms a _ _ _ _ _ v o Hrf Hj Ho) as (l & c & -> & Hc & <- & _ & _ & Hv & _).
  by rewrite (Hbefore j l c Hlt Hj Hc) in Hv.
Qed.

Lemma list_prefix_not_empty key : list_prefix key true <> EmptyString.
Proof. unfold list_prefix. destruct key as [|a key]; [done|]. by destruct (_ && _). Qed.

Lemma HasPrefix_TrimPrefix_ne key prefix :
  HasPrefix key prefix = true -> prefix <> EmptyString -> TrimPrefix key prefix <> key.
Proof.
  intros [t ->]%prefix_spec Hne. rewrite TrimPrefix_append. intros He.
  apply (f_equal String.length) in He. rewrite length_string_app in He.
  destruct prefix; [done|]. simpl in He. lia.
Qed.

(** A recursive list from the position [start] returns the first [limit] items of the full list. *)
Lemma GetList_page ms a key opts ret withRV start :
  refines depth ms a -> lo_Recursive opts = true -> known_match (lo_ResourceVersionMatch opts) ->
  Z.of_nat (List.length (objs (revSortedObjList ms))) < MaxInt64 ->
  list_start ms (list_prefix key true) opts = Ok (ret, withRV, start) -> ret <> 0 ->
  (start < List.length (objs (revSortedObjList ms)))%nat ->
  (forall i l c, (i < start)%nat -> objs (revSortedObjList ms) !! i = Some (Some l) ->
     cells ms !! l = Some c ->
     version_passes (lo_ResourceVersionMatch opts) withRV (ObjectRV (owi_obj c)) = false) ->
  let full := full_list ms (lo_ResourceVersionMatch opts) (lo_Predicate opts)
                (list_prefix key true) withRV in
  exists m, GetList ms key opts =
    Ok (m, if 0 <? pred_Limit (lo_Predicate opts)
           then take (Z.to_nat (pred_Limit (lo_Predicate opts))) full else full).
Proof.
  intros Hrf Hrec Hm Hmem Hstart Hret Hs Hbefore full. unfold GetList. rewrite Hrec. cbn [negb].
  rewrite Hstart. cbn [bind_result]. unfold objList_Len.
  replace (List.length (objs (revSortedObjList ms)) <=? start)%nat with false
    by (symmetry; apply Nat.leb_gt; lia).
  set (limit := if 0 <? _ then _ else _).
  assert (0 < limit) as Hlim by (unfold limit, MaxInt64 in *; destruct (Z.ltb_spec 0
    (pred_Limit (lo_Predicate opts))); lia).
  destruct (list_loop_items ms (lo_ResourceVersionMatch opts) (lo_Predicate opts)
    (list_prefix key true) withRV limit (Z.of_nat (lastObjIndex (revSortedObjList ms)))
    (Z.of_nat start)
    (drop start (take (lastObjIndex (revSortedObjList ms) + 1) (objs (revSortedObjList ms))))
    (mkListState [] "" withRV false 0)) as (st & -> & Hitems & Hend); [done|done|done|].
  cbn [bind_result ls_items app] in *. rewrite (full_list_window ms a) in Hitems by done.
  assert (ls_items st = if 0 <? pred_Limit (lo_Predicate opts)
    then take (Z.to_nat (pred_Limit (lo_Predicate opts))) full else full) as ->.
  { rewrite Hitems. unfold limit. destruct (0 <? _); [done|]. apply take_ge.
    unfold full, full_list. pose proof (length_omap_le (listed ms (lo_ResourceVersionMatch opts)
      (lo_Predicate opts) (list_prefix key true) withRV) (objs (revSortedObjList ms))).
    lia. }
  unfold UpdateList. replace (ret =? 0) with false by lia.
  destruct (ls_hasMore st); [|by eexists].
  destruct (Hend eq_refl) as (l & c & _ & _ & _ & -> & _ & Hp & _).
  unfold EncodeContinue.
  destruct (String.eqb_spec (TrimPrefix (owi_key c) (list_prefix key true)) (owi_key c)) as [E|_].
  { exfalso. eapply HasPrefix_TrimPrefix_ne; [done|apply list_prefix_not_empty|done]. }
  by eexists.
Qed.

(** Cut at the page limit. *)
Definition page_of (pred : SelectionPredicate S T) (l : list Obj) : list Obj :=
  if 0 <? pred_Limit pred then take (Z.to_nat (pred_Limit pred)) l else l.

(** C5: a recursive list without a start version returns, in strictly increasing revision order,
    every stored object below the prefix that the predicate selects and nothing else, cut at the
    page limit when there is one. *)
Theorem list_complete ms a key opts :
  refines depth ms a -> Z.of_nat (List.length (objs (revSortedObjList ms))) < MaxInt64 ->
  lo_Recursive opts = true -> known_match (lo_ResourceVersionMatch opts) ->
  lo_ResourceVersion opts = EmptyString -> pred_Continue (lo_Predicate opts) = EmptyString ->
  exists m full, GetList ms key opts = Ok (m, page_of (lo_Predicate opts) full) /\
    StronglySorted (fun o1 o2 => ObjectRV o1 < ObjectRV o2) full /\
    forall o, o ∈ full <-> exists k, objects a !! k = Some o /\
      HasPrefix k (list_prefix key true) = true /\ pred_Matches (lo_Predicate opts) o = Some true.
Proof.
  intros Hrf Hmem Hrec Hm Hrv Hc. pose proof (rf_inv _ _ _ Hrf) as Hinv.
  destruct (GetList_page ms a key opts 1 0 0) as [m Hl]; try done.
  { unfold list_start. by rewrite Hrv, Hc. }
  { pose proof (si_last depth ms Hinv). lia. }
  { lia. }
  eexists m, _. split; [exact Hl|]. split; [by eapply full_list_sorted|].
  intros o. rewrite (elem_of_full_list ms a) by done. split.
  - intros (k & ? & ? & _ & ?). eauto.
  - intros (k & Ho & ? & ?). exists k. repeat split_and!; try done.
    destruct (refines_RV depth Hdepth ms a k o Hrf Ho) as [_ ?].
    unfold version_passes. destruct (lo_ResourceVersionMatch opts); try done; lia.
Qed.

(** A page continues where the previous one ended: with the token of an object that has not
    changed since, or whose key is gone, the list resumes with the objects of greater revision,
    in order, and repeats none. *)
Theorem page_continues ms a key opts k r :
  refines depth ms a -> Z.of_nat (List.length (objs (revSortedObjList ms))) < MaxInt64 ->
  lo_Recursive opts = true -> lo_ResourceVersionMatch opts = MatchUnset ->
  lo_ResourceVersion opts = EmptyString -> pred_Continue (lo_Predicate opts) <> EmptyString ->
  DecodeContinue (pred_Continue (lo_Predicate opts)) (list_prefix key true) = Ok (k, r) ->
  0 < r <= MaxInt64 -> key_ok depth k ->
  (objects a !! k = None \/ exists o, objects a !! k = Some o /\ ObjectRV o = r) ->
  exists m rest, GetList ms key opts = Ok (m, page_of (lo_Predicate opts) rest) /\
    StronglySorted (fun o1 o2 => ObjectRV o1 < ObjectRV o2) rest /\
    forall o, o ∈ rest <-> exists k', objects a !! k' = Some o /\
      HasPrefix k' (list_prefix key true) = true /\ pred_Matches (lo_Predicate opts) o = Some true /\
      r < ObjectRV o.
Proof.
  intros Hrf Hmem Hrec Hm Hrv Hc Hdec Hr Hk Hobj. pose proof (rf_inv _ _ _ Hrf) as Hinv.
  pose proof (si_last depth ms Hinv) as Hlast.
  assert (exists start, list_start ms (list_prefix key true) opts = Ok (r, r, start) /\
    (start < List.length (objs (revSortedObjList ms)))%nat /\
    forall i l c, (i < start)%nat -> objs (revSortedObjList ms) !! i = Some (Some l) ->
      cells ms !! l = Some c -> ObjectRV (owi_obj c) <= r) as (start & Hst & Hlt & Hbefore).
  { unfold list_start. rewrite Hrv, Hdec.
    destruct (String.eqb_spec (pred_Continue (lo_Predicate opts)) EmptyString); [done|].
    cbn [String.eqb bind_result negb andb]. replace (r =? 0) with false by lia.
    replace (0 <? r) with true by lia. rewrite !wrapu_small by (unfold MaxInt64 in *; lia).
    pose proof (refines_get depth ms a k Hrf Hk) as Hg.
    destruct Hobj as [Ho|(o & Ho & Hor)]; rewrite Ho in Hg.
    { rewrite Hg. exists 0%nat. split; [done|]. split; lia. }
    destruct Hg as (l & c & Hg & Hco). rewrite Hg, Hco, Hor, Z.eqb_refl.
    pose proof (kvs_get_inv depth ms k Hinv Hk) as H. rewrite Hg in H.
    destruct H as (_ & Hcell & _ & _ & Hslot & _).
    exists (owi_index c). split; [done|]. split; [by eapply lookup_lt_Some|].
    intros i l' c' Hi Hs' Hc'.
    pose proof (si_sorted depth ms Hinv i (owi_index c) l' l c' c Hi Hs' Hslot Hc' Hcell).
    rewrite Hco, Hor in H. lia. }
  destruct (GetList_page ms a key opts r r start) as [m Hl]; try done.
  { by rewrite Hm. } { lia. }
  { intros i l c Hi Hs Hcell. rewrite Hm. simpl. specialize (Hbefore i l c Hi Hs Hcell). lia. }
  eexists m, _. split; [exact Hl|]. split; [by eapply full_list_sorted|].
  intros o. rewrite (elem_of_full_list ms a) by done. rewrite Hm. simpl.
  split; intros (k' & ? & ? & ? & ?); exists k'; repeat split_and!; try done; lia.
Qed.
End StoreList.

(** ** Concrete lists *)

Definition example_store : MemoryStore unit unit := (run_all example_ops (NewMemoryStore 100)).2.
Definition example_map : vmap unit unit := (run_spec_all example_ops (mkVMap 100 ∅)).2.

Lemma example_refines : refines 4 example_store example_map.
Proof.
  apply (run_all_agrees 4 ltac:(discriminate)); [|exact example_ops_ok].
  apply refines_new. split; vm_compute; congruence.
Qed.

Definition example_pred (limit : Z) (token : string) : SelectionPredicate unit unit :=
  mkPredicate (fun _ => Some true) true limit token.
Definition example_list (limit : Z) (rv token : string) : ListOptions unit unit :=
  mkListOptions rv MatchUnset (example_pred limit token) true.

Lemma list_complete_witness :
  exists m items, GetList example_store "/apps" (example_list 0 "" "") = Ok (m, items) /\
    forall o, o ∈ items <-> exists k, objects example_map !! k = Some o /\
      HasPrefix k "/apps/" = true /\ Some true = Some true.
Proof.
  destruct (list_complete 4 ltac:(discriminate) example_store example_map "/apps"
    (example_list 0 "" "") example_refines) as (m & full & Hl & _ & Hf);
    [vm_compute; reflexivity|reflexivity|exact I|reflexivity|reflexivity|].
  exists m, full. split; [exact Hl|exact Hf].
Defined.

(** The token of the object "b", written at revision 102; "a" is at revision 103. *)
Definition example_token : string :=
  token_encode (mkContinueToken "meta.k8s.io/v1" 102 "ns/b").

Lemma page_continues_witness :
  exists m rest, GetList example_store "/apps" (example_list 1 "" example_token) =
    Ok (m, page_of (example_pred 1 example_token) rest) /\
    forall o, o ∈ rest -> 102 < ObjectRV o.
Proof.
  destruct (page_continues 4 ltac:(discriminate) example_store example_map "/apps"
    (example_list 1 "" example_token) "/apps/ns/b" 102 example_refines)
    as (m & rest & Hl & _ & Hf);
    [vm_compute; reflexivity|reflexivity|reflexivity|reflexivity|vm_compute; discriminate
    |vm_compute; reflexivity|split; [reflexivity|vm_compute; discriminate]|reflexivity
    |right; eexists; split; [vm_compute; reflexivity|vm_compute; reflexivity]|].
  exists m, rest. split; [exact Hl|]. intros o Ho. apply Hf in Ho as (_ & _ & _ & _ & H). exact H.
Defined.

(** ** What the pages and the version search miss *)

(** The continue test compares with the last index minus one, so a page that ends one slot before
    the end announces no more items although one is left: here two objects, a page of one, and no
    token for the second. *)
Theorem last_page_item_lost :
  let st := (run_all [OpCreate "/apps/ns/a" (example_object "a");
                      OpCreate "/apps/ns/b" (example_object "b")] (NewMemoryStore 100)).2 in
  exists m items, GetList st "/apps" (example_list 1 "" "") = Ok (m, items) /\
    List.length items = 1%nat /\ lm_Continue m = EmptyString /\ lm_RemainingItemCount m = None /\
    exists m' items', GetList st "/apps" (example_list 0 "" "") = Ok (m', items') /\
      List.length items' = 2%nat.
Proof. vm_compute. repeat esplit. Qed.

(** The slots behind the last object are nil and the version search treats nil as "older", so it
    walks into them: a list from a version the store has already passed finds nothing, although
    both objects are newer. *)
Theorem list_from_version_misses :
  let st := (run_all [OpCreate "/apps/ns/a" (example_object "a");
                      OpCreate "/apps/ns/b" (example_object "b")] (NewMemoryStore 100)).2 in
  Nat.eqb (binarySearchInObjList st 100) (List.length (objs (revSortedObjList st))) = true /\
  exists m, GetList st "/apps" (example_list 0 "100" "") = Ok (m, []).
Proof. vm_compute. repeat esplit. Qed.
