(* ===== verification/StoreWatch.v ===== *)
(** * Watches of the memory store

    A client that lists and then watches keeps a copy of the objects it selected.
    [watch_replay] shows that the events a watcher emits are exactly what that copy needs: applied
    in order they turn the selected part of the store at the start of the watch into the selected
    part after any sequence of calls. *)

From S2P Require Import Prelude GoStrings ApiTypes ObjectVersion ObjStoreMap MemoryStore StoreInvariant StoreRefinement.
From Stdlib Require Import String.
Import VersionedMap.
#[local] Open Scope Z_scope.

Section StoreWatch.
Context {S T : Type} {TC : TokenCodec} (depth : nat) (Hdepth : depth <> 0%nat).
Abbreviation Obj := (Object S T).
Abbreviation MStore := (MemoryStore S T).
Implicit Types (ms : MStore) (w : memoryStoreWatcher S T) (m : gmap string Obj).

(** ** Runs as sequences of writes *)

(** The event that goes with a write, by what was stored before. *)
Inductive explains (r : Z) (key : string) : option Obj -> option Obj -> objEvent S T -> Prop :=
  | explains_create o :
      explains r key None (Some o) (mkObjEvent key (Some o) None r false true)
  | explains_modify old o :
      explains r key (Some old) (Some o) (mkObjEvent key (Some o) (Some old) r false false)
  | explains_delete old :
      explains r key (Some old) None
        (mkObjEvent key None (Some (SetObjectResourceVersion old r)) r true false).

(** A call is a sequence of such writes, and of moments where nothing the clients see changes:
    house keeping, and revisions taken by other stores. *)
Inductive traced : MStore -> MStore -> list (objEvent S T) -> Prop :=
  | traced_nil ms : traced ms ms []
  | traced_skip ms ms1 ms' evs :
      MemoryRev ms <= MemoryRev ms1 -> watchers ms1 = watchers ms ->
      (forall key, key_ok depth key -> store_lookup ms1 key = store_lookup ms key) ->
      traced ms1 ms' evs -> traced ms ms' evs
  | traced_write ms ms1 ms' key v ev evs :
      key_ok depth key -> wrote depth ms ms1 key v ev ->
      explains (MemoryRev ms + 1) key (store_lookup ms key) v ev ->
      traced ms1 ms' evs -> traced ms ms' (ev :: evs).

Lemma traced_once ms ms' key v ev :
  key_ok depth key -> wrote depth ms ms' key v ev ->
  explains (MemoryRev ms + 1) key (store_lookup ms key) v ev -> traced ms ms' [ev].
Proof. intros. eapply traced_write; [done..|apply traced_nil]. Qed.

Lemma traced_app ms ms1 ms2 evs1 evs2 :
  traced ms ms1 evs1 -> traced ms1 ms2 evs2 -> traced ms ms2 (evs1 ++ evs2).
Proof.
  intros H1 H2. induction H1 as [|ms msa ms' evs ? ? ? _ IH|ms msa ms' key v ev evs ? ? ? _ IH];
    [done|by eapply traced_skip; eauto|by eapply traced_write; eauto].
Qed.

Section Ops.
Context (ms : MStore) (a : vmap S T) (Hrf : refines depth ms a).

Lemma Create_traced key obj :
  key_ok depth key -> MemoryRev ms < MaxUint64 -> exists evs, traced ms (Create key obj ms).2 evs.
Proof using Hdepth Hrf.
  intros Hk Hr. pose proof (Create_spec depth Hdepth ms key obj (rf_inv _ _ _ Hrf) Hk Hr) as H.
  destruct (store_lookup ms key) eqn:Hl; [rewrite H; eexists; apply traced_nil|].
  destruct H as (ms' & -> & Hw). eexists. eapply traced_once; [done..|]. rewrite Hl. constructor.
Qed.

Lemma Delete_traced key pre val cached :
  key_ok depth key -> MemoryRev ms < MaxUint64 ->
  exists evs, traced ms (Delete key pre val cached ms).2 evs.
Proof using Hdepth Hrf.
  intros Hk Hr.
  pose proof (Delete_spec depth Hdepth ms key pre val cached (rf_inv _ _ _ Hrf) Hk Hr) as H.
  destruct (let? _ := check_cached cached in _) as [o|e] eqn:Hc;
    [|rewrite H; eexists; apply traced_nil].
  destruct H as (ms' & -> & Hw). eexists. eapply traced_once; [done..|].
  apply bind_result_Ok in Hc as (_ & _ & Hc). destruct (store_lookup ms key) as [cur|]; [|done].
  apply bind_result_Ok in Hc as (_ & _ & Hc). apply bind_result_Ok in Hc as (_ & _ & [= <-]).
  constructor.
Qed.

Lemma GuaranteedUpdate_traced key ignore pre upd cached :
  key_ok depth key -> MemoryRev ms < MaxUint64 ->
  exists evs, traced ms (GuaranteedUpdate key ignore pre upd cached ms).2 evs.
Proof using Hdepth Hrf.
  intros Hk Hr.
  pose proof (GuaranteedUpdate_spec depth Hdepth ms key ignore pre upd cached (rf_inv _ _ _ Hrf)
    Hk Hr) as H.
  destruct (store_lookup ms key) as [cur|] eqn:Hl; [|rewrite H; eexists; apply traced_nil].
  destruct (let? _ := check_cached cached in _) as [o|e]; [|rewrite H; eexists; apply traced_nil].
  destruct H as (ms' & -> & Hw). eexists. eapply traced_once; [done..|]. rewrite Hl. constructor.
Qed.

Lemma CreateOrReplace_traced key obj :
  key_ok depth key -> MemoryRev ms < MaxUint64 ->
  exists evs, traced ms (CreateOrReplace key obj ms).2 evs.
Proof using Hdepth Hrf.
  intros Hk Hr.
  pose proof (CreateOrReplace_spec depth Hdepth ms key obj (rf_inv _ _ _ Hrf) Hk Hr) as H.
  destruct (store_lookup ms key) as [cur|] eqn:Hl; [|rewrite H; by apply Create_traced].
  destruct H as (ms' & -> & Hw). eexists. eapply traced_once; [done..|]. rewrite Hl. constructor.
Qed.
End Ops.

Lemma sm_some_state {A} (c : SM MStore A) ms : (sm_some c ms).2 = (c ms).2.
Proof. unfold sm_some. rewrite sm_bind_eq. by destruct (c ms) as [[]]. Qed.

Lemma run_traced op ms a :
  refines depth ms a -> op_ok depth op ms -> exists evs, traced ms (run op ms).2 evs.
Proof.
  intros Hrf [Hr Hok]. destruct op; cbn [run]; rewrite ?sm_some_state.
  - eapply Create_traced; [done..|lia].
  - eapply Delete_traced; [done..|lia].
  - eapply GuaranteedUpdate_traced; [done..|lia].
  - unfold CreateOrUpdate. rewrite sm_bind_eq, sm_get_eq. cbn beta iota.
    destruct (kvs_get ms key) as [[l c]|].
    + destruct merge as [merge|]; [|eexists; apply traced_nil].
      rewrite sm_bind_eq, sm_lift_eq. destruct (merge _ obj) as [o|e]; [|eexists; apply traced_nil].
      eapply GuaranteedUpdate_traced; [done..|lia].
    + change (do! o <- Create key obj; sm_ret (Some o)) with (sm_some (Create key obj)).
      rewrite sm_some_state. eapply Create_traced; [done..|lia].
  - unfold GetOrCreate. rewrite sm_bind_eq, sm_get_eq. cbn beta iota.
    destruct (kvs_get ms key) as [[l c]|]; [eexists; apply traced_nil|].
    eapply Create_traced; [done..|lia].
  - eapply CreateOrReplace_traced; [done..|lia].
  - unfold EnsureUpdateAndDelete. rewrite sm_bind_eq.
    destruct (GuaranteedUpdate_traced ms a Hrf key ignoreNotFound pre (GetTryUpdateFunc obj) None)
      as [evs Ht]; [done|lia|].
    destruct (Update_agrees depth Hdepth ms a key ignoreNotFound pre (GetTryUpdateFunc obj) None Hrf
      Hok) as [_ Hrf']; [lia|].
    destruct (GuaranteedUpdate _ _ _ _ _ ms) as [[[o|]|e] ms'] eqn:Hu; simpl in Ht, Hrf'; [|by eauto|by eauto].
    destruct (ShouldDeleteSpec o); [|by eauto].
    assert (MemoryRev ms' = MemoryRev ms + 1) as Hrev
      by (eapply (update_rev depth Hdepth ms a); [done|done|lia|done]).
    destruct (Delete_traced ms' _ Hrf' key pre (Some (fun _ => Ok ())) (Some o)) as [evs' Ht'];
      [done|lia|].
    exists (evs ++ evs'). eapply traced_app; [done|].
    destruct (Delete key pre _ (Some o) ms') as [[] ms'']; done.
  - eexists. apply traced_nil.
  - destruct (houseKeeping_spec depth Hdepth ms (rf_inv _ _ _ Hrf) Hok) as (_ & Hv & Hw & Hl & _).
    eexists. eapply traced_skip; [| | |apply traced_nil]; simpl; [lia|done|done].
  - eexists. eapply traced_skip; [| | |apply traced_nil]; simpl; [lia|done|done].
Qed.

Lemma run_all_traced ops ms a :
  refines depth ms a -> ops_ok depth ops ms -> exists evs, traced ms (run_all ops ms).2 evs.
Proof.
  revert ms a. induction ops as [|op ops IH]; intros ms a Hrf Hok; [eexists; apply traced_nil|].
  destruct Hok as [Hop Hok]. destruct (run_traced op ms a Hrf Hop) as [evs Ht].
  destruct (run_agrees depth Hdepth op ms a Hrf Hop) as [_ Hrf']. simpl.
  destruct (run op ms) as [r ms']. simpl in *.
  destruct (IH ms' _ Hrf' Hok) as [evs' Ht']. destruct (run_all ops ms') as [rs ms''].
  eexists. by eapply traced_app.
Qed.

(** ** The client *)

(** [key_of] gives the key of an object from its metadata, as the store's key function does. *)
Context (key_of : Obj -> string).

(** Label and field selectors do not look at the resource version. *)
Definition selector_stable (p : SelectionPredicate S T) : Prop :=
  forall o r, pred_Matches p (SetObjectResourceVersion o r) = pred_Matches p o.

(** The events of a watch name the objects they are about. *)
Definition keyed (e : objEvent S T) : Prop :=
  (forall o, ev_obj e = Some o -> key_of o = ev_key e) /\
  (forall o, ev_oldObj e = Some o -> key_of o = ev_key e).

Definition apply_event m (e : WatchEvent) : gmap string Obj :=
  match we_Type e, we_Object e with
  | Added, Some o | Modified, Some o => <[key_of o := o]> m
  | Deleted, Some o => delete (key_of o) m
  | _, _ => m
  end.

Definition watched w (key : string) : bool :=
  if w_recursive w then HasPrefix key (w_keyPrefix w) else String.eqb key (w_keyPrefix w).

(** The part of the store a watcher selects. *)
Definition visible w m : gmap string Obj :=
  filter (fun ko => watched w ko.1 && watcher_filter w (Some ko.2) = true) m.

Lemma lookup_visible w m k :
  visible w m !! k =
  match m !! k with
  | Some o => if watched w k && watcher_filter w (Some o) then Some o else None
  | None => None
  end.
Proof.
  unfold visible. rewrite map_lookup_filter. destruct (m !! k) as [o|]; simpl; [|done].
  case_guard as E; simpl in *; by destruct (watched w k && watcher_filter w (Some o)).
Qed.

Definition set_key m (key : string) (v : option Obj) : gmap string Obj :=
  match v with Some o => <[key := o]> m | None => delete key m end.

Lemma lookup_set_key m key v k : set_key m key v !! k = if decide (k = key) then v else m !! k.
Proof.
  destruct v; simpl; [rewrite lookup_insert|rewrite lookup_delete]; repeat case_decide; congruence.
Qed.

Lemma filter_stable w o r :
  selector_stable (w_predicate w) ->
  watcher_filter w (Some (SetObjectResourceVersion o r)) = watcher_filter w (Some o).
Proof. intros Hs. unfold watcher_filter. by rewrite Hs. Qed.

(** A copy that agrees everywhere but at [key] and has the right entry there is the right copy. *)
Lemma visible_set_key w m key v M :
  (forall k, k <> key -> M !! k = visible w m !! k) ->
  M !! key = (o ← v; if watched w key && watcher_filter w (Some o) then Some o else None) ->
  M = visible w (set_key m key v).
Proof.
  intros Hne Heq. apply map_eq. intros k. rewrite lookup_visible, lookup_set_key.
  case_decide as E; [subst k|rewrite Hne, lookup_visible; done].
  rewrite Heq. by destruct v.
Qed.

Lemma tracks_put w m key o t :
  (t = Added \/ t = Modified) -> key_of o = key -> watched w key = true ->
  watcher_filter w (Some o) = true ->
  apply_event (visible w m) (mkWatchEvent t (Some o)) = visible w (set_key m key (Some o)).
Proof.
  intros Ht Hk Hw Hf.
  assert (apply_event (visible w m) (mkWatchEvent t (Some o)) = <[key := o]> (visible w m)) as ->
    by (unfold apply_event; rewrite <- Hk; destruct Ht as [-> | ->]; done).
  apply visible_set_key.
  - intros k Hne. by rewrite lookup_insert_ne.
  - rewrite lookup_insert_eq. cbn. by rewrite Hw, Hf.
Qed.

Lemma tracks_del w m key o v :
  key_of o = key ->
  (forall o', v = Some o' -> watched w key && watcher_filter w (Some o') = false) ->
  apply_event (visible w m) (mkWatchEvent Deleted (Some o)) = visible w (set_key m key v).
Proof.
  intros <- Hv. apply visible_set_key.
  - intros k Hne. unfold apply_event. simpl. by rewrite lookup_delete_ne.
  - unfold apply_event. simpl. rewrite lookup_delete_eq. destruct v as [o'|]; [|done].
    simpl. by rewrite (Hv o' eq_refl).
Qed.

Lemma tracks_none w m key v :
  (forall o, m !! key = Some o -> watched w key && watcher_filter w (Some o) = false) ->
  (forall o, v = Some o -> watched w key && watcher_filter w (Some o) = false) ->
  visible w m = visible w (set_key m key v).
Proof.
  intros Hm Hv. apply visible_set_key; [done|]. rewrite lookup_visible.
  destruct (m !! key) as [o|]; [rewrite (Hm o eq_refl)|];
    destruct v as [o'|]; simpl; by rewrite ?(Hv o' eq_refl).
Qed.

(** How an event is turned into the client's event, with the branches merged. *)
Lemma transform_modified w key r o old :
  transformToWatchEvent w (mkObjEvent key (Some o) (Some old) r false false) =
  if watched w key then
    if watcher_filter w (Some o) then Some (mkWatchEvent Modified (Some o))
    else if watcher_filter w (Some old) then Some (mkWatchEvent Deleted (Some old)) else None
  else None.
Proof.
  unfold transformToWatchEvent. cbn [ev_key ev_obj ev_oldObj ev_isDeleted ev_isCreated].
  fold (watched w key). destruct (watched w key); [|done]. unfold watcher_filter.
  destruct (pred_Empty (w_predicate w)); [done|]. simpl.
  repeat case_match; simplify_eq/=; done.
Qed.

Definition apply_opt m (e : option WatchEvent) : gmap string Obj :=
  match e with Some e => apply_event m e | None => m end.

(** One event moves the client's copy along with the store. *)
Lemma transform_tracks w m r key v ev :
  selector_stable (w_predicate w) -> explains r key (m !! key) v ev -> keyed ev ->
  apply_opt (visible w m) (transformToWatchEvent w ev) =
  visible w (set_key m key v).
Proof.
  intros Hs He [Hk1 Hk2]. inversion He as [o Hm Hv|old o Hm Hv|old Hm Hv]; subst; simpl in Hk1, Hk2.
  - unfold transformToWatchEvent.
    cbn [ev_key ev_obj ev_oldObj ev_isDeleted ev_isCreated]. fold (watched w key).
    destruct (watched w key) eqn:Hw; [destruct (watcher_filter w (Some o)) eqn:Hf|];
      cbn [apply_opt].
    + apply tracks_put; auto.
    + apply tracks_none; [congruence|]. intros ? [= <-]. by rewrite Hf, andb_false_r.
    + apply tracks_none; [congruence|]. intros. by rewrite Hw.
  - rewrite transform_modified.
    destruct (watched w key) eqn:Hw;
      [destruct (watcher_filter w (Some o)) eqn:Hf; [|destruct (watcher_filter w (Some old)) eqn:Hf']|];
      cbn [apply_opt].
    + apply tracks_put; auto.
    + apply tracks_del; [auto|]. intros ? [= <-]. by rewrite Hf, andb_false_r.
    + apply tracks_none; [rewrite <- Hm|]; intros ? [= <-]; by rewrite ?Hf, ?Hf', andb_false_r.
    + apply tracks_none; intros; by rewrite Hw.
  - unfold transformToWatchEvent.
    cbn [ev_key ev_obj ev_oldObj ev_isDeleted ev_isCreated]. fold (watched w key). rewrite filter_stable by done.
    destruct (watched w key) eqn:Hw; [destruct (watcher_filter w (Some old)) eqn:Hf|];
      cbn [apply_opt].
    + apply tracks_del; [by apply Hk2|done].
    + apply tracks_none; [rewrite <- Hm; intros ? [= <-]; by rewrite Hf, andb_false_r|done].
    + apply tracks_none; [intros; by rewrite Hw|done].
Qed.

(** ** The stream of a watcher *)

(** The receive loop run until the channel is empty. *)
Definition drain w : memoryStoreWatcher S T :=
  Nat.iter (List.length (w_incomingChan w)) run_receive w.

Definition set_incoming (l : list (objEvent S T)) w : memoryStoreWatcher S T :=
  mkWatcher (w_stopped w) (w_recursive w) (w_keyPrefix w) (w_predicate w) l
    (w_outgoingChan w) (w_outgoingChanWithOldObj w) (w_startingRev w) (w_eventWithOldObj w).

Lemma transform_incoming w l ev :
  transformToWatchEvent (set_incoming l w) ev = transformToWatchEvent w ev.
Proof. done. Qed.

Lemma transform_outgoing w l1 l2 ev :
  transformToWatchEvent (set_outgoing l1 l2 w) ev = transformToWatchEvent w ev.
Proof. done. Qed.

Lemma receive_outgoing w ev rest :
  w_incomingChan w = ev :: rest -> w_eventWithOldObj w = false -> w_startingRev w < ev_rev ev ->
  run_receive w = set_outgoing (w_outgoingChan w ++ option_list (transformToWatchEvent w ev))
    (w_outgoingChanWithOldObj w) (set_incoming rest w).
Proof.
  intros Hin Hold Hrev. unfold run_receive. rewrite Hin.
  cbn [w_startingRev]. replace (w_startingRev w <? ev_rev ev) with true by lia.
  fold (set_incoming rest w). unfold emit. rewrite transform_incoming.
  destruct (transformToWatchEvent w ev) as [e|].
  - change (w_eventWithOldObj (set_incoming rest w)) with (w_eventWithOldObj w). by rewrite Hold.
  - change (option_list (@None WatchEvent)) with (@nil (WatchEvent (S := S) (T := T))).
    rewrite app_nil_r. by destruct w.
Qed.

Lemma drain_outgoing evs w :
  w_incomingChan w = evs -> w_eventWithOldObj w = false ->
  Forall (fun ev => w_startingRev w < ev_rev ev) evs ->
  w_outgoingChan (drain w) = w_outgoingChan w ++ omap (transformToWatchEvent w) evs.
Proof.
  unfold drain. revert w. induction evs as [|ev evs IH]; intros w Hin Hold Hf; rewrite Hin.
  { simpl. by rewrite app_nil_r. }
  apply Forall_cons in Hf as [Hev Hf]. cbn [List.length].
  rewrite Nat.iter_succ_r, (receive_outgoing w ev evs) by done.
  set (w' := set_outgoing _ _ _).
  specialize (IH w'). change (w_incomingChan w') with evs in IH.
  rewrite IH by done. subst w'. cbn [w_outgoingChan set_outgoing].
  rewrite <- app_assoc. f_equal. csimpl. by destruct (transformToWatchEvent w ev).
Qed.

Lemma filter_all {A} (P : A -> Prop) `{!forall x, Decision (P x)} (l : list A) :
  Forall P l -> filter P l = l.
Proof. induction 1 as [|x l Hx _ IH]; [done|]. by rewrite filter_cons_True, IH. Qed.

(** Every watcher receives the events of a run, in order. *)
Lemma traced_watchers ms ms' evs :
  traced ms ms' evs -> Forall (fun w => w_stopped w = false) (watchers ms) ->
  Forall (fun ev => MemoryRev ms < ev_rev ev) evs /\
  watchers ms' = (fun w => set_incoming (w_incomingChan w ++ evs) w) <$> watchers ms.
Proof.
  induction 1 as [ms|ms ms1 ms' evs Hr Hw _ _ IH|ms ms1 ms' key v ev evs Hk Hwr He _ IH]; intros Hs.
  - split; [done|]. rewrite <- (list_fmap_id (watchers ms)) at 1. apply list_fmap_ext.
    intros i w _. rewrite app_nil_r. by destruct w.
  - rewrite Hw in IH. destruct (IH Hs) as [IH1 IH2]. split; [|done].
    eapply Forall_impl; [done|]. intros. simpl in *. lia.
  - pose proof (wr_watchers _ _ _ _ _ _ Hwr) as Hws.
    rewrite filter_all in Hws by done.
    assert (Forall (fun w => w_stopped w = false) (watchers ms1)) as Hs1.
    { rewrite Hws. by apply Forall_fmap. }
    destruct (IH Hs1) as [IH1 IH2]. pose proof (wr_rev _ _ _ _ _ _ Hwr) as Hrev. split.
    + constructor; [inversion He; subst; simpl; lia|].
      eapply Forall_impl; [done|]. intros. simpl in *. lia.
    + rewrite IH2, Hws, <- list_fmap_compose. apply list_fmap_ext. intros i w _.
      unfold compose, set_incoming, send_to. simpl. by rewrite <- app_assoc.
Qed.

(** [m] is the content of the store. *)
Definition content ms m : Prop :=
  (forall key, key_ok depth key -> store_lookup ms key = m !! key) /\
  (forall key, is_Some (m !! key) -> key_ok depth key).

Lemma content_unique ms m1 m2 : content ms m1 -> content ms m2 -> m1 = m2.
Proof.
  intros [H1 D1] [H2 D2]. apply map_eq. intros k.
  destruct (decide (key_ok depth k)) as [Hk|Hk]; [by rewrite <- H1, <- H2|].
  destruct (m1 !! k) eqn:E1; [by destruct Hk; apply D1; rewrite E1|].
  destruct (m2 !! k) eqn:E2; [by destruct Hk; apply D2; rewrite E2|done].
Qed.

Lemma traced_tracks w ms ms' evs m :
  selector_stable (w_predicate w) -> traced ms ms' evs -> content ms m -> Forall keyed evs ->
  exists m', content ms' m' /\
    foldl apply_event (visible w m) (omap (transformToWatchEvent w) evs) = visible w m'.
Proof.
  intros Hst Ht. revert m.
  induction Ht as [ms|ms ms1 ms' evs Hr _ Hl _ IH|ms ms1 ms' key v ev evs Hk Hwr He _ IH];
    intros m [Hc Hd] Hkeyed.
  - by exists m.
  - apply IH; [|done]. split; [|done]. intros key Hk. by rewrite Hl, Hc.
  - apply Forall_cons in Hkeyed as [Hkev Hkeyed]. rewrite (Hc key Hk) in He.
    pose proof (transform_tracks w m _ key v ev Hst He Hkev) as Hev.
    destruct (IH (set_key m key v)) as (m' & Hc' & Hm'); [|done|].
    + split.
      * intros k Hk'. rewrite (wr_lookup _ _ _ _ _ _ Hwr), lookup_set_key by done.
        case_decide; [done|]. by apply Hc.
      * intros k. rewrite lookup_set_key. case_decide as E; [by subst|]. apply Hd.
    + exists m'. split; [done|]. rewrite <- Hm', <- Hev. csimpl.
      by destruct (transformToWatchEvent w ev).
Qed.

(** C2: watching is complete.  A watcher registered when the store held [a], started at the
    revision of that moment, emits during any sequence of calls exactly the changes its client
    needs: replaying them on the part of [a] the watcher selects gives the part of the final
    content it selects, for every key prefix and every selector. *)
Theorem watch_replay ms a w i ops :
  refines depth ms a -> ops_ok depth ops ms ->
  Forall (fun w => w_stopped w = false) (watchers ms) -> watchers ms !! i = Some w ->
  selector_stable (w_predicate w) -> w_incomingChan w = [] -> w_outgoingChan w = [] ->
  w_eventWithOldObj w = false -> w_startingRev w <= MemoryRev ms ->
  exists w', watchers (run_all ops ms).2 !! i = Some w' /\
    (Forall keyed (w_incomingChan w') ->
     foldl apply_event (visible w (objects a)) (w_outgoingChan (drain w')) =
     visible w (objects (run_spec_all ops a).2)).
Proof.
  intros Hrf Hok Hs Hi Hst Hin Hout Hold Hrev.
  destruct (run_all_traced ops ms a Hrf Hok) as [evs Ht].
  destruct (traced_watchers ms _ evs Ht Hs) as [Hrevs Hws].
  destruct (run_all_agrees depth Hdepth ops ms a Hrf Hok) as [_ Hrf'].
  set (w' := set_incoming (w_incomingChan w ++ evs) w).
  exists w'. split; [rewrite Hws, list_lookup_fmap, Hi; done|].
  subst w'. rewrite Hin. cbn [app]. intros Hkeyed.
  assert (w_outgoingChan (drain (set_incoming evs w)) = omap (transformToWatchEvent w) evs) as ->.
  { rewrite (drain_outgoing evs); [by simpl; rewrite Hout|done|done|].
    eapply Forall_impl; [exact Hrevs|]. intros. simpl in *. lia. }
  destruct (traced_tracks w ms _ evs (objects a) Hst Ht) as (m' & Hc' & ->); [|done|].
  { split; [apply Hrf|apply (rf_dom _ _ _ Hrf)]. }
  f_equal. eapply content_unique; [done|]. split; [apply Hrf'|apply (rf_dom _ _ _ Hrf')].
Qed.
End StoreWatch.

(** ** A concrete watch *)

Definition watch_pred : SelectionPredicate unit unit := mkPredicate (fun _ => Some true) true 0 "".
Definition watch_opts : ListOptions unit unit := mkListOptions "" MatchUnset watch_pred true.

(** The store after [watch] on the prefix of all the objects. *)
Definition watched_store : MemoryStore unit unit :=
  (watch "/apps" watch_opts false (NewMemoryStore 100)).2.

Definition object_key (o : Object unit unit) : string :=
  String.append "/apps/" (String.append (om_Namespace (om o)) (String.append "/" (om_Name (om o)))).

Lemma watched_store_refines : refines 4 watched_store (mkVMap 100 ∅).
Proof.
  assert (refines 4 (NewMemoryStore 100 : MemoryStore unit unit) (mkVMap 100 ∅)) as [H1 H2 H3 H4].
  { apply refines_new. split; vm_compute; congruence. }
  split; [|done|done|done]. by apply (store_inv_set_watchers 4 (NewMemoryStore 100)).
Qed.

Definition example_watcher : memoryStoreWatcher unit unit :=
  NewMemoryStoreWatcher "/apps" watch_opts 100 false.

Lemma watch_replay_witness :
  exists w', watchers watched_store !! 0%nat = Some example_watcher /\
    watchers (run_all example_ops watched_store).2 !! 0%nat = Some w' /\
    foldl (apply_event object_key) (visible example_watcher ∅) (w_outgoingChan (drain w')) =
    visible example_watcher (objects (run_spec_all example_ops (mkVMap 100 ∅)).2).
Proof.
  destruct (watch_replay 4 ltac:(discriminate) object_key watched_store
    (mkVMap 100 ∅) example_watcher 0 example_ops watched_store_refines) as (w' & Hw' & Hr);
    [vm_compute; repeat split; discriminate|repeat constructor|reflexivity
    |intros ? ?; reflexivity|reflexivity|reflexivity|reflexivity|vm_compute; congruence|].
  exists w'. split; [reflexivity|]. split; [exact Hw'|]. apply Hr.
  assert (exists w'', watchers (run_all example_ops watched_store).2 !! 0%nat = Some w'' /\
    Forall (keyed object_key) (w_incomingChan w'')) as (w'' & E & HF).
  { eexists. split; [vm_compute; reflexivity|].
    repeat constructor; intros ? [=]; subst; reflexivity. }
  rewrite Hw' in E. injection E as ->. exact HF.
Defined.
