(* ===== verification/Collection.v ===== *)
(** * [pkg/collection]: the priority queue and the string set

    [container/heap] is modelled over an interface [HeapOps] (Len/Less/Swap), the way the Go
    package is written over [heap.Interface].  It is instantiated twice: at plain lists,
    where heap order is proved, and at [PriorityQueue], whose items are shared between the
    slice and the name index through pointers and are therefore kept in a store of
    locations.  [heap_up_sim]/[heap_down_sim] transport the list results to the queue. *)

From S2P Require Import Prelude.
From Stdlib Require Import String.

(** ** [container/heap] *)

Record HeapOps (H : Type) := mkHeapOps {
  hLess : H -> nat -> nat -> bool;
  hSwap : H -> nat -> nat -> H
}.
Arguments mkHeapOps {H}.
Arguments hLess {H}.
Arguments hSwap {H}.

Section Heap.
Context {H : Type} (ops : HeapOps H).

(** [j] strictly decreases, so [S j] turns are enough. *)
Fixpoint heap_up (fuel : nat) (h : H) (j : nat) : H :=
  match fuel with
  | 0 => h
  | S fuel =>
    let i := (j - 1) / 2 in
    if (i =? j) || negb (hLess ops h j i) then h
    else heap_up fuel (hSwap ops h i j) i
  end.

(** [i] strictly increases below [n], so [n] turns are enough; the final position is
    returned with the heap. *)
Fixpoint heap_down (fuel : nat) (h : H) (i n : nat) : H * nat :=
  match fuel with
  | 0 => (h, i)
  | S fuel =>
    let j1 := 2 * i + 1 in
    if n <=? j1 then (h, i)
    else
      let j := if (j1 + 1 <? n) && hLess ops h (j1 + 1) j1 then j1 + 1 else j1 in
      if negb (hLess ops h j i) then (h, i)
      else heap_down fuel (hSwap ops h i j) j n
  end.
End Heap.

(** A simulation between two implementations of the interface carries over to the loops. *)
Section HeapSim.
Context {H1 H2 : Type} (ops1 : HeapOps H1) (ops2 : HeapOps H2).
Context (inv : H1 -> Prop) (len : H1 -> nat) (abs : H1 -> H2).
Context (sim_less : forall h i j, inv h -> i < len h -> j < len h ->
  hLess ops1 h i j = hLess ops2 (abs h) i j).
Context (sim_swap : forall h i j, inv h -> i < len h -> j < len h ->
  inv (hSwap ops1 h i j) /\ len (hSwap ops1 h i j) = len h /\
  abs (hSwap ops1 h i j) = hSwap ops2 (abs h) i j).

Lemma heap_up_sim fuel h j :
  inv h -> j < len h ->
  inv (heap_up ops1 fuel h j) /\ len (heap_up ops1 fuel h j) = len h /\
  abs (heap_up ops1 fuel h j) = heap_up ops2 fuel (abs h) j.
Proof.
  revert h j. induction fuel as [|fuel IH]; intros h j Hinv Hj; cbn [heap_up]; [done|].
  assert ((j - 1) / 2 < len h) by dlia.
  rewrite (sim_less h j) by done. case_match; [done|].
  destruct (sim_swap h ((j - 1) / 2) j) as (Hi & Hl & Ha); [done..|].
  rewrite <- Ha. destruct (IH (hSwap ops1 h ((j - 1) / 2) j) ((j - 1) / 2)) as (?&?&?);
    [done|lia|]. split; [done|]. split; [lia|done].
Qed.

Lemma heap_down_sim fuel h i n :
  inv h -> i < len h -> n <= len h ->
  inv (heap_down ops1 fuel h i n).1 /\ len (heap_down ops1 fuel h i n).1 = len h /\
  abs (heap_down ops1 fuel h i n).1 = (heap_down ops2 fuel (abs h) i n).1 /\
  (heap_down ops1 fuel h i n).2 = (heap_down ops2 fuel (abs h) i n).2.
Proof.
  revert h i. induction fuel as [|fuel IH]; intros h i Hinv Hi Hn; [done|].
  cbn [heap_down]. destruct (Nat.leb_spec n (2 * i + 1)); [done|].
  assert ((2 * i + 1 + 1 <? n) && hLess ops1 h (2 * i + 1 + 1) (2 * i + 1) =
          (2 * i + 1 + 1 <? n) && hLess ops2 (abs h) (2 * i + 1 + 1) (2 * i + 1)) as ->.
  { destruct (Nat.ltb_spec (2 * i + 1 + 1) n); [|done]. simpl.
    apply sim_less; [done|lia..]. }
  match goal with |- context [hLess ops1 h ?jj i] => remember jj as j eqn:Ej end.
  assert (j < len h).
  { subst j. destruct (Nat.ltb_spec (2 * i + 1 + 1) n); cbn [andb]; repeat case_match; lia. }
  rewrite (sim_less h j i) by done.
  destruct (negb (hLess ops2 (abs h) j i)); [done|].
  destruct (sim_swap h i j) as (Hi' & Hl & Ha); [done..|].
  rewrite <- Ha.
  destruct (IH (hSwap ops1 h i j) j) as (?&?&?&?); [done|lia|lia|].
  split; [done|]. split; [lia|done].
Qed.
End HeapSim.

(** ** Heap order on lists *)

Section ListHeap.
Context {A : Type} `{!Inhabited A} (less : A -> A -> bool).

Definition list_swap (l : list A) (i j : nat) : list A :=
  match l !! i, l !! j with
  | Some x, Some y => <[i := y]> (<[j := x]> l)
  | _, _ => l
  end.

Definition list_ops : HeapOps (list A) :=
  mkHeapOps (fun l i j => match l !! i, l !! j with
                          | Some x, Some y => less x y
                          | _, _ => false end) list_swap.

(** the edge from [k] to its parent *)
Definition edge (l : list A) (k : nat) : Prop := le_of less (l !!! ((k - 1) / 2)) (l !!! k).
Definition heap_n (n : nat) (l : list A) : Prop := forall k, 0 < k < n -> edge l k.
Definition is_heap (l : list A) : Prop := heap_n (List.length l) l.

Lemma length_list_swap l i j : List.length (list_swap l i j) = List.length l.
Proof. unfold list_swap. repeat case_match; by rewrite ?length_insert. Qed.

Lemma list_swap_lookup l i j k :
  i < List.length l -> j < List.length l ->
  list_swap l i j !! k =
    if decide (k = i) then l !! j else if decide (k = j) then l !! i else l !! k.
Proof.
  intros Hi Hj. unfold list_swap.
  destruct (lookup_lt_is_Some_2 l i Hi) as [x Hx].
  destruct (lookup_lt_is_Some_2 l j Hj) as [y Hy].
  rewrite Hx, Hy. repeat case_decide; subst.
  - by rewrite list_lookup_insert_eq by (rewrite length_insert; done).
  - rewrite list_lookup_insert_ne by done. by rewrite list_lookup_insert_eq.
  - by rewrite !list_lookup_insert_ne by done.
Qed.

Lemma list_swap_total l i j k :
  i < List.length l -> j < List.length l ->
  list_swap l i j !!! k =
    if decide (k = i) then l !!! j else if decide (k = j) then l !!! i else l !!! k.
Proof.
  intros Hi Hj. rewrite !list_lookup_total_alt, list_swap_lookup by done.
  by repeat case_decide.
Qed.

Lemma list_swap_perm l i j : list_swap l i j ≡ₚ l.
Proof.
  unfold list_swap.
  destruct (l !! i) as [x|] eqn:Hx; [|done]. destruct (l !! j) as [y|] eqn:Hy; [|done].
  destruct (decide (i = j)) as [->|Hne].
  - rewrite list_insert_insert_eq, list_insert_id; [done|congruence].
  - apply lookup_lt_Some in Hx as Hi. apply lookup_lt_Some in Hy as Hj.
    apply (Permutation_cons_inv (a := x)).
    transitivity (y :: <[j := x]> l); [|symmetry; by apply list_insert_perm].
    symmetry. rewrite (list_insert_perm (<[j := x]> l) y x i); [done|].
    by rewrite list_lookup_insert_ne.
Qed.

Context {SW : StrictWeak less}.

Lemma list_less_total l i j :
  i < List.length l -> j < List.length l ->
  hLess list_ops l i j = less (l !!! i) (l !!! j).
Proof.
  intros Hi Hj. simpl.
  destruct (lookup_lt_is_Some_2 l i Hi) as [x Hx].
  destruct (lookup_lt_is_Some_2 l j Hj) as [y Hy].
  rewrite Hx, Hy. by rewrite (list_lookup_total_correct _ _ _ Hx),
    (list_lookup_total_correct _ _ _ Hy).
Qed.

(** What the loops never change: the length, the elements up to order, and every slot at or
    above the bound. *)
Lemma heap_up_frame fuel l j :
  j < List.length l ->
  List.length (heap_up list_ops fuel l j) = List.length l /\
  heap_up list_ops fuel l j ≡ₚ l /\
  (forall k, j < k -> heap_up list_ops fuel l j !! k = l !! k).
Proof.
  revert l j. induction fuel as [|fuel IH]; intros l j Hj; cbn [heap_up]; [done|].
  destruct ((j - 1) / 2 =? j) eqn:E; cbn [orb]; [done|].
  case_match; [done|].
  assert ((j - 1) / 2 < j) by (apply Nat.eqb_neq in E; dlia).
  change (hSwap list_ops l) with (list_swap l).
  destruct (IH (list_swap l ((j - 1) / 2) j) ((j - 1) / 2)) as (H1 & H2 & H3);
    [rewrite length_list_swap; lia|].
  rewrite length_list_swap in H1. split; [done|]. split.
  - by rewrite H2, list_swap_perm.
  - intros k Hk. rewrite H3, list_swap_lookup by lia.
    by rewrite !decide_False by lia.
Qed.

Lemma heap_down_frame fuel l i n :
  i < List.length l -> n <= List.length l ->
  List.length (heap_down list_ops fuel l i n).1 = List.length l /\
  (heap_down list_ops fuel l i n).1 ≡ₚ l /\
  i <= (heap_down list_ops fuel l i n).2 /\
  (forall k, n <= k -> i < k -> (heap_down list_ops fuel l i n).1 !! k = l !! k).
Proof.
  revert l i. induction fuel as [|fuel IH]; intros l i Hi Hn; cbn [heap_down]; [done|].
  destruct (Nat.leb_spec n (2 * i + 1)); [done|].
  match goal with |- context [hLess list_ops l ?jj i] => remember jj as j eqn:Ej end.
  assert (i < j < n) as Hj.
  { subst j. destruct (Nat.ltb_spec (2 * i + 1 + 1) n); cbn [andb]; repeat case_match; lia. }
  destruct (negb _); [done|].
  change (hSwap list_ops l) with (list_swap l).
  destruct (IH (list_swap l i j) j) as (H1 & H2 & H3 & H4);
    [rewrite length_list_swap; lia..|].
  rewrite length_list_swap in H1. split; [done|]. split; [|split].
  - by rewrite H2, list_swap_perm.
  - lia.
  - intros k Hk1 Hk2. rewrite H4, list_swap_lookup by lia.
    by rewrite !decide_False by lia.
Qed.

(** All edges hold but the one above [j], and the children of [j] are not above its parent. *)
Definition up_inv (n j : nat) (l : list A) : Prop :=
  (forall k, 0 < k < n -> k <> j -> edge l k) /\
  (forall k, 0 < k < n -> (k - 1) / 2 = j -> 0 < j -> le_of less (l !!! ((j - 1) / 2)) (l !!! k)).

Lemma up_inv_step n j l :
  0 < j -> j < n -> n <= List.length l ->
  less (l !!! j) (l !!! ((j - 1) / 2)) = true ->
  up_inv n j l -> up_inv n ((j - 1) / 2) (list_swap l ((j - 1) / 2) j).
Proof.
  intros Hj0 Hjn Hn Hless [Hedge Hgp].
  remember ((j - 1) / 2) as i eqn:Ei. assert (i < j) by (subst i; dlia).
  assert (le_of less (l !!! j) (l !!! i)) as Hji by (by apply less_asym).
  split.
  - intros k Hk Hki. unfold edge. rewrite !list_swap_total by lia.
    rewrite (decide_False (P := k = i)) by done.
    destruct (decide (k = j)) as [->|Hkj].
    { rewrite <- Ei, decide_True by done. done. }
    specialize (Hedge k Hk Hkj). unfold edge in Hedge.
    repeat case_decide; subst.
    + etrans; [exact Hji|]. congruence.
    + apply Hgp; [done|done|lia].
    + done.
  - intros k Hk Hki Hi. rewrite !list_swap_total by lia.
    rewrite (decide_False (P := (i - 1) / 2 = i)) by dlia.
    rewrite (decide_False (P := (i - 1) / 2 = j)) by dlia.
    rewrite (decide_False (P := k = i)) by dlia.
    assert (edge l i) as Hei by (apply Hedge; lia). unfold edge in Hei.
    case_decide as Hkj; [done|].
    specialize (Hedge k Hk Hkj). unfold edge in Hedge. rewrite Hki in Hedge.
    by etrans.
Qed.

Lemma heap_up_correct fuel n j l :
  j < fuel -> j < n -> n <= List.length l ->
  up_inv n j l -> heap_n n (heap_up list_ops fuel l j).
Proof.
  revert l j. induction fuel as [|fuel IH]; intros l j Hf Hj Hn Hinv; [lia|].
  cbn [heap_up]. rewrite list_less_total by dlia.
  destruct ((j - 1) / 2 =? j) eqn:E; cbn [orb].
  - apply Nat.eqb_eq in E. assert (j = 0) as -> by dlia.
    intros k Hk. apply Hinv; lia.
  - apply Nat.eqb_neq in E. assert (0 < j) by dlia.
    destruct (less (l !!! j) (l !!! ((j - 1) / 2))) eqn:Hless; cbn [negb].
    + apply IH; [dlia|dlia| |].
      * change (hSwap list_ops l) with (list_swap l). by rewrite length_list_swap.
      * by apply up_inv_step.
    + intros k Hk. destruct (decide (k = j)) as [->|]; [done|]. by apply Hinv.
Qed.

(** All edges hold but those below [i] (and maybe the one above it, in the weak form). *)
Definition down_weak (n i : nat) (l : list A) : Prop :=
  (forall k, 0 < k < n -> k <> i -> (k - 1) / 2 <> i -> edge l k) /\
  (forall k, 0 < k < n -> (k - 1) / 2 = i -> 0 < i -> le_of less (l !!! ((i - 1) / 2)) (l !!! k)).

Definition down_inv (n i : nat) (l : list A) : Prop :=
  down_weak n i l /\ (0 < i < n -> edge l i).

Lemma down_step n i j l :
  i < n -> n <= List.length l -> 0 < j < n -> (j - 1) / 2 = i ->
  (forall k, 0 < k < n -> (k - 1) / 2 = i -> le_of less (l !!! j) (l !!! k)) ->
  less (l !!! j) (l !!! i) = true ->
  down_weak n i l -> down_inv n j (list_swap l i j).
Proof.
  intros Hi Hn Hj Hji Hmin Hless [Hedge Hgp].
  assert (le_of less (l !!! j) (l !!! i)) as Hle by (by apply less_asym).
  assert (i < j) by dlia.
  assert (edge (list_swap l i j) j) as Hej.
  { unfold edge. rewrite Hji, !list_swap_total by lia.
    rewrite decide_True, decide_False, decide_True by lia. done. }
  split; [split|done].
  - intros k Hk Hkj Hpj. unfold edge. rewrite !list_swap_total by lia.
    rewrite (decide_False (P := k = j)) by done.
    rewrite (decide_False (P := (k - 1) / 2 = j)) by done.
    repeat case_decide; subst.
    + exfalso. dlia.
    + by apply Hmin.
    + apply Hgp; [done|done|lia].
    + by apply Hedge.
  - intros k Hk Hkj Hj0. rewrite !list_swap_total by lia. rewrite Hji.
    rewrite decide_True, !decide_False by dlia.
    rewrite <- Hkj at 1. apply Hedge; dlia.
Qed.

(** The child the loop compares with is a least one. *)
Lemma down_child_min n i l :
  2 * i + 1 < n -> n <= List.length l ->
  let j := if (2 * i + 1 + 1 <? n) && hLess list_ops l (2 * i + 1 + 1) (2 * i + 1)
           then 2 * i + 1 + 1 else 2 * i + 1 in
  0 < j < n /\ (j - 1) / 2 = i /\
  (forall k, 0 < k < n -> (k - 1) / 2 = i -> le_of less (l !!! j) (l !!! k)).
Proof.
  intros H1 Hn j.
  assert (forall k, (k - 1) / 2 = i -> 0 < k -> k = 2 * i + 1 \/ k = 2 * i + 1 + 1) as Hch
    by (intros; dlia).
  assert (forall x, le_of less x x) as Hrefl by (intros; apply less_irrefl).
  unfold j. destruct (Nat.ltb_spec (2 * i + 1 + 1) n) as [H2|H2]; cbn [andb].
  - rewrite list_less_total by lia.
    destruct (less (l !!! (2 * i + 1 + 1)) (l !!! (2 * i + 1))) eqn:Hl.
    + split; [lia|]. split; [dlia|]. intros k Hk Hp.
      destruct (Hch k Hp) as [->| ->]; [lia|by apply less_asym|done].
    + split; [lia|]. split; [dlia|]. intros k Hk Hp.
      destruct (Hch k Hp) as [->| ->]; [lia|done|done].
  - split; [lia|]. split; [dlia|]. intros k Hk Hp.
    destruct (Hch k Hp) as [->| ->]; [lia|done|lia].
Qed.

(** [down] from a position whose subtrees and rest are in order: either it moved, and the
    heap is whole, or it did not, and only the edge above is left to [up]. *)
Lemma heap_down_correct fuel n i l :
  n <= fuel + i -> i < List.length l -> n <= List.length l -> down_weak n i l ->
  let r := heap_down list_ops fuel l i n in
  (r = (l, i) /\ up_inv n i l) \/ (i < r.2 /\ heap_n n r.1).
Proof.
  revert l i. induction fuel as [|fuel IH]; intros l i Hf Hi Hn Hw; cbn [heap_down].
  { left. split; [done|]. split; [|by apply Hw].
    intros k Hk Hki. apply Hw; [done|done|dlia]. }
  destruct (Nat.leb_spec n (2 * i + 1)) as [Hleaf|Hleaf].
  { left. split; [done|]. split; [|by apply Hw].
    intros k Hk Hki. apply Hw; [done|done|dlia]. }
  pose proof (down_child_min n i l Hleaf Hn) as Hch. cbv zeta in Hch.
  match goal with |- context [hLess list_ops l ?jj i] => remember jj as j eqn:Ej end.
  destruct Hch as (Hj & Hji & Hmin). clear Ej.
  rewrite list_less_total by lia.
  destruct (less (l !!! j) (l !!! i)) eqn:Hless; cbn [negb].
  - right. change (hSwap list_ops l) with (list_swap l).
    assert (i < j) by dlia.
    pose proof (down_step n i j l ltac:(lia) Hn Hj Hji Hmin Hless Hw) as [Hw' He].
    assert (j < List.length (list_swap l i j)) as Hj' by (rewrite length_list_swap; lia).
    assert (n <= List.length (list_swap l i j)) as Hn' by (rewrite length_list_swap; lia).
    destruct (IH _ j ltac:(lia) Hj' Hn' Hw') as [[-> Hup]|[Hlt Hheap]]; simpl.
    + split; [lia|]. intros k Hk. destruct (decide (k = j)) as [->|]; [by apply He|].
      by apply Hup.
    + split; [lia|done].
  - left. split; [done|]. split; [|by apply Hw].
    intros k Hk Hki. destruct (decide ((k - 1) / 2 = i)) as [Hp|Hp].
    + unfold edge. rewrite Hp. etrans; [exact Hless|]. by apply Hmin.
    + by apply Hw.
Qed.

Lemma heap_root_min l x :
  is_heap l -> l !! 0 = Some x -> forall y, y ∈ l -> le_of less x y.
Proof.
  intros Hh H0 y [k Hk]%list_elem_of_lookup.
  assert (forall n k, k <= n -> k < List.length l -> le_of less (l !!! 0) (l !!! k)) as Hall.
  { intros n. induction n as [|n IH]; intros k' Hle Hlt.
    - assert (k' = 0) as -> by lia. apply less_irrefl.
    - destruct (decide (k' = 0)) as [->|]; [apply less_irrefl|].
      etrans; [apply (IH ((k' - 1) / 2)); dlia|]. apply Hh. lia. }
  apply lookup_lt_Some in Hk as Hlt.
  rewrite <- (list_lookup_total_correct _ _ _ H0), <- (list_lookup_total_correct _ _ _ Hk).
  by eapply Hall.
Qed.

(** *** The operations on lists *)

Definition list_push (l : list A) (x : A) : list A :=
  heap_up list_ops (S (List.length l)) (l ++ [x]) (List.length l).

(** the elements left after [heap.Remove(h, i)], with [heap.Pop] the case [i = 0] *)
Definition list_remove (l : list A) (i : nat) : list A :=
  let n := List.length l - 1 in
  if n =? i then l
  else
    let r := heap_down list_ops n (list_swap l i n) i n in
    if i <? r.2 then r.1 else heap_up list_ops (S i) r.1 i.

Lemma list_push_correct l x :
  is_heap l -> is_heap (list_push l x) /\ list_push l x ≡ₚ x :: l.
Proof.
  intros Hh. unfold list_push.
  assert (List.length (l ++ [x]) = S (List.length l)) as Hlen
    by (rewrite length_app; simpl; lia).
  destruct (heap_up_frame (S (List.length l)) (l ++ [x]) (List.length l)) as (H1 & H2 & _);
    [lia|].
  split.
  - unfold is_heap. rewrite H1. apply heap_up_correct; [lia|lia|lia|].
    split; [|intros k ? Hk; exfalso; dlia].
    intros k Hk Hne. specialize (Hh k ltac:(lia)). unfold edge in *.
    by rewrite !lookup_total_app_l by dlia.
  - by rewrite H2, Permutation_app_comm.
Qed.

Lemma list_remove_correct l i x :
  is_heap l -> l !! i = Some x ->
  exists l', list_remove l i = l' ++ [x] /\ is_heap l' /\ l ≡ₚ x :: l'.
Proof.
  intros Hh Hi. apply lookup_lt_Some in Hi as Hlt.
  unfold list_remove. set (n := List.length l - 1).
  assert (forall m, m !! n = Some x -> List.length m = List.length l ->
     m ≡ₚ l -> heap_n n m ->
     exists l', m = l' ++ [x] /\ is_heap l' /\ l ≡ₚ x :: l') as Hfin.
  { intros m Hm Hlen Hperm Hheap.
    exists (take n m).
    assert (m = take n m ++ [x]) as Hsplit.
    { rewrite <- (take_drop n m) at 1. f_equal.
      apply drop_S in Hm as Hd. rewrite Hd, drop_ge by lia. done. }
    split; [done|]. split.
    - unfold is_heap. rewrite length_take. intros k Hk. specialize (Hheap k ltac:(lia)).
      unfold edge in *. by rewrite !lookup_total_take_lt by dlia.
    - rewrite <- Hperm. rewrite Hsplit at 1. by rewrite Permutation_app_comm. }
  destruct (Nat.eqb_spec n i) as [<-|Hne].
  { apply Hfin; [done|done|done|]. intros k Hk. apply Hh. lia. }
  assert (i < n) as Hin by lia. assert (n < List.length l) as Hnl by lia.
  assert (List.length (list_swap l i n) = List.length l) as Hswl by apply length_list_swap.
  assert (list_swap l i n !! n = Some x) as Hswn.
  { rewrite list_swap_lookup, decide_False, decide_True by lia. done. }
  assert (down_weak n i (list_swap l i n)) as Hweak.
  { split.
    - intros k Hk Hki Hpi. specialize (Hh k ltac:(lia)). unfold edge in *.
      rewrite !list_swap_total, !decide_False by dlia. done.
    - intros k Hk Hpi Hi0. rewrite !list_swap_total, !decide_False by dlia.
      pose proof (Hh i ltac:(lia)) as H1. pose proof (Hh k ltac:(lia)) as H2.
      unfold edge in *. rewrite Hpi in H2. by etrans. }
  destruct (heap_down_frame n (list_swap l i n) i n) as (Hl1 & Hp1 & Hm1 & Hk1); [lia..|].
  assert ((heap_down list_ops n (list_swap l i n) i n).1 !! n = Some x) as Hd1.
  { rewrite Hk1 by lia. done. }
  destruct (heap_down_correct n n i (list_swap l i n)) as [[Heq Hup]|[Hmv Hheap]];
    [lia..|done| |].
  - rewrite Heq. cbn [fst snd]. rewrite Nat.ltb_irrefl.
    destruct (heap_up_frame (S i) (list_swap l i n) i) as (Hl2 & Hp2 & Hk2); [lia|].
    apply Hfin; [rewrite Hk2 by lia; done|lia| |].
    + by rewrite Hp2, list_swap_perm.
    + apply heap_up_correct; [lia|lia|lia|done].
  - rewrite (proj2 (Nat.ltb_lt _ _) Hmv).
    apply Hfin; [done|lia|by rewrite Hp1, list_swap_perm|done].
Qed.
End ListHeap.

(** ** [PriorityQueue] ([priority_queue.go])

    A [*QueueItem] is reached both from the slice and from the name index, and [Swap]
    rewrites its [index] through the pointer: items live in [pq_store] under a location. *)

Record QueueItem (A : Type) := mkQueueItem { qi_elem : A; qi_index : Z }.
Arguments mkQueueItem {A}.
Arguments qi_elem {A}.
Arguments qi_index {A}.

Record PriorityQueue (A : Type) := mkPQ {
  pq_store : gmap nat (QueueItem A);
  pq_next : nat;
  pq_indexes : gmap string nat;
  pq_queue : list nat
}.
Arguments mkPQ {A}.
Arguments pq_store {A}.
Arguments pq_next {A}.
Arguments pq_indexes {A}.
Arguments pq_queue {A}.

Section PQ.
Context {A : Type} `{!Inhabited A} (lessFunc : A -> A -> bool) (keyFunc : A -> string).
Implicit Types pq : PriorityQueue A.

Definition NewPriorityQueue : PriorityQueue A := mkPQ ∅ 0 ∅ [].

Definition pq_Len pq : nat := List.length (pq_queue pq).

Definition pq_get pq (l : nat) : A :=
  match pq_store pq !! l with Some it => qi_elem it | None => inhabitant end.

(** the elements in slice order *)
Definition pq_elems pq : list A := pq_get pq <$> pq_queue pq.

Definition pq_Less pq (i j : nat) : bool :=
  match pq_queue pq !! i, pq_queue pq !! j with
  | Some li, Some lj => lessFunc (pq_get pq li) (pq_get pq lj)
  | _, _ => false
  end.

Definition set_index (z : Z) (it : QueueItem A) : QueueItem A := mkQueueItem (qi_elem it) z.

Definition pq_Swap pq (i j : nat) : PriorityQueue A :=
  match pq_queue pq !! i, pq_queue pq !! j with
  | Some li, Some lj =>
    mkPQ (alter (set_index (Z.of_nat j)) li (alter (set_index (Z.of_nat i)) lj (pq_store pq)))
      (pq_next pq) (pq_indexes pq) (<[i := lj]> (<[j := li]> (pq_queue pq)))
  | _, _ => pq
  end.

Definition pq_Push pq (obj : A) : PriorityQueue A :=
  let n := List.length (pq_queue pq) in
  let l := pq_next pq in
  mkPQ (<[l := mkQueueItem obj (Z.of_nat n)]> (pq_store pq)) (S l)
    (<[keyFunc obj := l]> (pq_indexes pq)) (pq_queue pq ++ [l]).

(** [Peak] looks at the end of the slice. *)
Definition pq_Peak pq : option A := pq_get pq <$> last (pq_queue pq).

Definition pq_Pop pq : option A * PriorityQueue A :=
  match last (pq_queue pq) with
  | None => (None, pq)
  | Some l =>
    let elem := pq_get pq l in
    (Some elem,
     mkPQ (alter (set_index (-1)) l (pq_store pq)) (pq_next pq)
       (delete (keyFunc elem) (pq_indexes pq)) (take (List.length (pq_queue pq) - 1) (pq_queue pq)))
  end.

Definition pq_Get pq (name : string) : Z * option A :=
  match pq_indexes pq !! name with
  | Some l =>
    match pq_store pq !! l with
    | Some it => (qi_index it, Some (qi_elem it))
    | None => ((-1)%Z, None)
    end
  | None => ((-1)%Z, None)
  end.

Definition pq_List {GR : GoRange} pq : list A := (fun kl => pq_get pq kl.2) <$> range (pq_indexes pq).

Definition pq_ops : HeapOps (PriorityQueue A) := mkHeapOps pq_Less pq_Swap.

(** [heap.Push], [heap.Pop] and [heap.Remove] on the queue *)
Definition heap_Push pq (x : A) : PriorityQueue A :=
  let pq := pq_Push pq x in
  heap_up pq_ops (pq_Len pq) pq (pq_Len pq - 1).

Definition heap_Pop pq : option A * PriorityQueue A :=
  let n := pq_Len pq - 1 in
  let pq := pq_Swap pq 0 n in
  pq_Pop (heap_down pq_ops n pq 0 n).1.

Definition heap_Remove pq (i : nat) : option A * PriorityQueue A :=
  let n := pq_Len pq - 1 in
  let pq :=
    if n =? i then pq
    else
      let r := heap_down pq_ops n (pq_Swap pq i n) i n in
      if i <? r.2 then r.1 else heap_up pq_ops (S i) r.1 i in
  pq_Pop pq.

(** *** Representation invariant: the slice has no repeated item, every item knows its
    position, and the name index holds exactly the queued items under their own key. *)
Record pq_ok pq : Prop := {
  ok_nodup : NoDup (pq_queue pq);
  ok_index : forall i l, pq_queue pq !! i = Some l ->
    exists it, pq_store pq !! l = Some it /\ qi_index it = Z.of_nat i;
  ok_fresh : forall l, pq_next pq <= l -> pq_store pq !! l = None;
  ok_names : forall k l, pq_indexes pq !! k = Some l <->
    l ∈ pq_queue pq /\ keyFunc (pq_get pq l) = k
}.

Definition pq_valid pq : Prop := pq_ok pq /\ is_heap lessFunc (pq_elems pq).

Lemma length_pq_elems pq : List.length (pq_elems pq) = pq_Len pq.
Proof. apply length_fmap. Qed.

Lemma pq_elems_lookup pq i : pq_elems pq !! i = pq_get pq <$> pq_queue pq !! i.
Proof. apply list_lookup_fmap. Qed.

Lemma pq_Less_sim pq i j : pq_Less pq i j = hLess (list_ops lessFunc) (pq_elems pq) i j.
Proof.
  unfold pq_Less. simpl. rewrite !pq_elems_lookup.
  by destruct (pq_queue pq !! i), (pq_queue pq !! j).
Qed.

Lemma pq_get_alter pq l z :
  forall l', pq_get (mkPQ (alter (set_index z) l (pq_store pq)) (pq_next pq) (pq_indexes pq)
                (pq_queue pq)) l' = pq_get pq l'.
Proof.
  intros l'. unfold pq_get. simpl. rewrite lookup_alter. case_decide; [subst|done].
  by destruct (pq_store pq !! l').
Qed.

Lemma pq_get_Swap pq i j l : pq_get (pq_Swap pq i j) l = pq_get pq l.
Proof.
  unfold pq_Swap. destruct (pq_queue pq !! i) as [li|]; [|done].
  destruct (pq_queue pq !! j) as [lj|]; [|done].
  unfold pq_get. simpl. rewrite !lookup_alter.
  repeat case_decide; subst; try done; by destruct (pq_store pq !! l).
Qed.

Lemma pq_queue_Swap pq i j : pq_queue (pq_Swap pq i j) = list_swap (pq_queue pq) i j.
Proof.
  unfold pq_Swap, list_swap.
  by destruct (pq_queue pq !! i), (pq_queue pq !! j).
Qed.

Lemma pq_elems_Swap pq i j : pq_elems (pq_Swap pq i j) = list_swap (pq_elems pq) i j.
Proof.
  unfold pq_elems. rewrite pq_queue_Swap.
  rewrite (list_fmap_ext _ (pq_get pq)) by (intros; apply pq_get_Swap).
  unfold list_swap. rewrite !list_lookup_fmap.
  destruct (pq_queue pq !! i), (pq_queue pq !! j); simpl; try done.
  by rewrite !list_fmap_insert.
Qed.

Lemma pq_store_Swap pq i j li lj l :
  pq_queue pq !! i = Some li -> pq_queue pq !! j = Some lj ->
  pq_store (pq_Swap pq i j) !! l =
    (if decide (l = li) then set_index (Z.of_nat j) <$> pq_store pq !! l
     else if decide (l = lj) then set_index (Z.of_nat i) <$> pq_store pq !! l
     else pq_store pq !! l).
Proof.
  intros Hi Hj. unfold pq_Swap. rewrite Hi, Hj. simpl. rewrite !lookup_alter.
  repeat case_decide; subst; try done. by destruct (pq_store pq !! _).
Qed.

Lemma pq_ok_Swap pq i j : i < pq_Len pq -> j < pq_Len pq -> pq_ok pq -> pq_ok (pq_Swap pq i j).
Proof.
  intros Hi Hj [Hnd Hidx Hfr Hnm].
  destruct (lookup_lt_is_Some_2 _ _ Hi) as [li Hli].
  destruct (lookup_lt_is_Some_2 _ _ Hj) as [lj Hlj].
  assert (pq_queue (pq_Swap pq i j) ≡ₚ pq_queue pq) as Hperm
    by (rewrite pq_queue_Swap; apply list_swap_perm).
  split.
  - by rewrite Hperm.
  - intros k l. rewrite pq_queue_Swap, list_swap_lookup by done.
    rewrite (pq_store_Swap _ _ _ li lj) by done.
    destruct (decide (k = i)) as [->|Hki].
    { intros Hk. assert (l = lj) as -> by congruence.
      destruct (Hidx _ _ Hlj) as (it & -> & _).
      case_decide as Hll; [|rewrite decide_True by done]; eexists; split; try done.
      simpl. f_equal. eapply NoDup_lookup; [done| |exact Hli]. congruence. }
    destruct (decide (k = j)) as [->|Hkj].
    { intros Hk. assert (l = li) as -> by congruence. rewrite decide_True by done.
      destruct (Hidx _ _ Hli) as (it & -> & _). by eexists. }
    intros Hk. rewrite decide_False, decide_False; [by apply Hidx| |].
    + intros ->. apply Hkj. by eapply NoDup_lookup.
    + intros ->. apply Hki. by eapply NoDup_lookup.
  - intros l Hl. rewrite (pq_store_Swap _ _ _ li lj) by done.
    assert (pq_next (pq_Swap pq i j) = pq_next pq) as Hn
      by (unfold pq_Swap; by rewrite Hli, Hlj).
    rewrite Hn in Hl. rewrite Hfr by done. by repeat case_decide.
  - intros k l. rewrite Hperm, pq_get_Swap.
    assert (pq_indexes (pq_Swap pq i j) = pq_indexes pq) as ->
      by (unfold pq_Swap; by rewrite Hli, Hlj).
    apply Hnm.
Qed.

Lemma pq_ok_Push pq x :
  pq_ok pq -> pq_indexes pq !! keyFunc x = None ->
  pq_ok (pq_Push pq x) /\ pq_elems (pq_Push pq x) = pq_elems pq ++ [x].
Proof.
  intros [Hnd Hidx Hfr Hnm] Hnew.
  assert (forall l, l ∈ pq_queue pq -> l <> pq_next pq) as Hne.
  { intros l [i Hi]%list_elem_of_lookup ->. destruct (Hidx _ _ Hi) as (it & Hit & _).
    by rewrite Hfr in Hit. }
  assert (forall l, l ∈ pq_queue pq -> pq_get (pq_Push pq x) l = pq_get pq l) as Hget.
  { intros l Hl. unfold pq_get. simpl. rewrite lookup_insert_ne; [done|].
    symmetry. by apply Hne. }
  assert (pq_get (pq_Push pq x) (pq_next pq) = x) as Hgetn.
  { unfold pq_get. simpl. by rewrite lookup_insert_eq. }
  split; [split|].
  - simpl. apply NoDup_app. split; [done|]. split; [|apply NoDup_singleton].
    intros l Hl ->%list_elem_of_singleton. by apply Hne in Hl.
  - intros i l. simpl. intros [Hi|[Hi Hl]]%lookup_app_Some.
    + destruct (Hidx _ _ Hi) as (it & Hit & Hz). exists it. split; [|done].
      rewrite lookup_insert_ne; [done|]. intros <-. by rewrite Hfr in Hit.
    + apply list_lookup_singleton_Some in Hl as [Hl <-].
      rewrite lookup_insert_eq. eexists; split; [done|]. simpl. lia.
  - intros l Hl. simpl in *. rewrite lookup_insert_ne by lia. apply Hfr. lia.
  - intros k l. change (pq_indexes (pq_Push pq x)) with (<[keyFunc x := pq_next pq]> (pq_indexes pq)).
    change (pq_queue (pq_Push pq x)) with (pq_queue pq ++ [pq_next pq]).
    rewrite elem_of_app, list_elem_of_singleton, lookup_insert_Some, Hnm.
    split.
    + intros [[<- <-]|[Hk [Hl Hg]]]; [by rewrite Hgetn; auto|].
      rewrite Hget by done. auto.
    + intros [[Hl| ->] Hg]; [|rewrite Hgetn in Hg; auto].
      rewrite Hget in Hg by done. right. split; [|done].
      intros Heq. assert (pq_indexes pq !! keyFunc x = Some l) by (apply Hnm; naive_solver).
      congruence.
  - unfold pq_elems. simpl. rewrite fmap_app. simpl. rewrite Hgetn. f_equal.
    apply list_fmap_ext. intros i l Hi. apply Hget. by eapply list_elem_of_lookup_2.
Qed.

Lemma pq_ok_Pop pq x es :
  pq_ok pq -> pq_elems pq = es ++ [x] ->
  exists pq', pq_Pop pq = (Some x, pq') /\ pq_ok pq' /\ pq_elems pq' = es.
Proof.
  intros [Hnd Hidx Hfr Hnm] Hel. unfold pq_Pop.
  destruct (pq_queue pq) as [|l q _] eqn:Hq using rev_ind.
  { unfold pq_elems in Hel. rewrite Hq in Hel. by destruct es. }
  rewrite last_snoc.
  assert (pq_get pq l = x /\ pq_get pq <$> q = es) as [Hx Hes].
  { unfold pq_elems in Hel. rewrite Hq, fmap_app in Hel. simpl in Hel.
    apply app_inj_tail in Hel. naive_solver. }
  rewrite Hx. eexists; split; [done|].
  apply NoDup_app in Hnd as (Hnq & Hlq & _).
  assert (l ∉ q) as Hl by (intros Hin; apply (Hlq l Hin); set_solver).
  replace (take _ (q ++ [l])) with q
    by (rewrite length_app; simpl; rewrite take_app_le, take_ge by lia; done).
  assert (forall l', pq_get (mkPQ (alter (set_index (-1)) l (pq_store pq)) (pq_next pq)
             (delete (keyFunc x) (pq_indexes pq)) q) l' = pq_get pq l') as Hget.
  { intros l'. apply (pq_get_alter pq l (-1)). }
  split; [split|]; simpl.
  - done.
  - intros i l' Hi. destruct (Hidx i l') as (it & Hit & Hz).
    { rewrite lookup_app_l; [done|]. by eapply lookup_lt_Some. }
    exists it. split; [|done]. rewrite lookup_alter_ne; [done|].
    intros ->. apply Hl. by eapply list_elem_of_lookup_2.
  - intros l' Hl'. rewrite lookup_alter. case_decide; subst; by rewrite Hfr.
  - intros k l'. rewrite Hget, lookup_delete_Some, Hnm, elem_of_app, list_elem_of_singleton.
    split.
    + intros [Hk [[Hin| ->] Hg]]; [done|]. congruence.
    + intros [Hin Hg]. split; [|auto]. intros <-.
      assert (pq_indexes pq !! keyFunc x = Some l') as H1
        by (apply Hnm; rewrite elem_of_app; auto).
      assert (pq_indexes pq !! keyFunc x = Some l) as H2
        by (apply Hnm; rewrite elem_of_app, list_elem_of_singleton; split; [auto|by rewrite Hx]).
      congruence.
  - unfold pq_elems. simpl. rewrite <- Hes. apply list_fmap_ext. intros. apply Hget.
Qed.

Context {SW : StrictWeak lessFunc}.

Lemma pq_sim_swap pq i j :
  pq_ok pq -> i < pq_Len pq -> j < pq_Len pq ->
  pq_ok (hSwap pq_ops pq i j) /\ pq_Len (hSwap pq_ops pq i j) = pq_Len pq /\
  pq_elems (hSwap pq_ops pq i j) = hSwap (list_ops lessFunc) (pq_elems pq) i j.
Proof.
  intros Hok Hi Hj. split; [by apply pq_ok_Swap|]. split; [|apply pq_elems_Swap].
  simpl. unfold pq_Len. rewrite pq_queue_Swap. apply length_list_swap.
Qed.

Lemma pq_up_sim fuel pq j :
  pq_ok pq -> j < pq_Len pq ->
  pq_ok (heap_up pq_ops fuel pq j) /\
  pq_elems (heap_up pq_ops fuel pq j) = heap_up (list_ops lessFunc) fuel (pq_elems pq) j.
Proof.
  intros Hok Hj.
  destruct (heap_up_sim pq_ops (list_ops lessFunc) pq_ok pq_Len pq_elems
    (fun h i j _ _ _ => pq_Less_sim h i j) pq_sim_swap fuel pq j) as (?&_&?); done.
Qed.

Lemma pq_down_sim fuel pq i n :
  pq_ok pq -> i < pq_Len pq -> n <= pq_Len pq ->
  pq_ok (heap_down pq_ops fuel pq i n).1 /\
  pq_Len (heap_down pq_ops fuel pq i n).1 = pq_Len pq /\
  pq_elems (heap_down pq_ops fuel pq i n).1 =
    (heap_down (list_ops lessFunc) fuel (pq_elems pq) i n).1 /\
  (heap_down pq_ops fuel pq i n).2 = (heap_down (list_ops lessFunc) fuel (pq_elems pq) i n).2.
Proof.
  intros Hok Hi Hn.
  apply (heap_down_sim pq_ops (list_ops lessFunc) pq_ok pq_Len pq_elems
    (fun h i j _ _ _ => pq_Less_sim h i j) pq_sim_swap); done.
Qed.

Lemma heap_Push_valid pq x :
  pq_valid pq -> pq_indexes pq !! keyFunc x = None ->
  pq_valid (heap_Push pq x) /\ pq_elems (heap_Push pq x) ≡ₚ x :: pq_elems pq.
Proof.
  intros [Hok Hheap] Hnew. destruct (pq_ok_Push pq x Hok Hnew) as [Hok' Hel].
  assert (pq_Len (pq_Push pq x) = S (pq_Len pq)) as Hlen.
  { unfold pq_Len. simpl. rewrite length_app. simpl. lia. }
  unfold heap_Push. rewrite Hlen. replace (S (pq_Len pq) - 1) with (pq_Len pq) by lia.
  destruct (pq_up_sim (S (pq_Len pq)) (pq_Push pq x) (pq_Len pq)) as [H1 H2]; [done|lia|].
  destruct (list_push_correct lessFunc (pq_elems pq) x Hheap) as [H3 H4].
  unfold list_push in *. rewrite length_pq_elems in *. rewrite Hel in H2.
  unfold pq_valid. rewrite H2. done.
Qed.

Lemma heap_Remove_valid pq i x :
  pq_valid pq -> pq_elems pq !! i = Some x ->
  exists pq', heap_Remove pq i = (Some x, pq') /\ pq_valid pq' /\
    pq_elems pq ≡ₚ x :: pq_elems pq'.
Proof.
  intros [Hok Hheap] Hi.
  destruct (list_remove_correct lessFunc (pq_elems pq) i x Hheap Hi) as (es & Hes & Hh' & Hperm).
  apply lookup_lt_Some in Hi as Hlt. rewrite length_pq_elems in Hlt.
  unfold heap_Remove. unfold list_remove in Hes. rewrite length_pq_elems in Hes.
  set (n := pq_Len pq - 1) in *.
  assert (exists pq1, (if n =? i then pq
    else if i <? (heap_down pq_ops n (pq_Swap pq i n) i n).2
         then (heap_down pq_ops n (pq_Swap pq i n) i n).1
         else heap_up pq_ops (S i) (heap_down pq_ops n (pq_Swap pq i n) i n).1 i) = pq1 /\
    pq_ok pq1 /\ pq_elems pq1 = es ++ [x]) as (pq1 & -> & Hok1 & Hel1).
  { eexists; split; [done|]. destruct (Nat.eqb_spec n i) as [_|Hne]; [done|].
    destruct (pq_sim_swap pq i n) as (Hs1 & Hs2 & Hs3); [done|lia|lia|].
    change (hSwap pq_ops pq i n) with (pq_Swap pq i n) in *.
    destruct (pq_down_sim n (pq_Swap pq i n) i n) as (Hd1 & Hd2 & Hd3 & Hd4); [done|lia|lia|].
    change (hSwap (list_ops lessFunc) (pq_elems pq) i n) with (list_swap (pq_elems pq) i n) in Hs3.
    rewrite Hd4, Hs3. rewrite Hs3 in Hd3. cbv zeta in Hes.
    destruct (i <? _).
    - split; [done|]. congruence.
    - destruct (pq_up_sim (S i) (heap_down pq_ops n (pq_Swap pq i n) i n).1 i) as [Hu1 Hu2];
        [done|lia|].
      split; [done|]. rewrite Hu2. congruence. }
  destruct (pq_ok_Pop pq1 x es Hok1 Hel1) as (pq' & -> & Hok' & Hel').
  exists pq'. split; [done|]. unfold pq_valid. by rewrite Hel'.
Qed.

(** [heap.Pop] is [heap.Remove] of the root. *)
Lemma heap_Pop_Remove pq : pq_ok pq -> 0 < pq_Len pq -> heap_Pop pq = heap_Remove pq 0.
Proof.
  intros Hok Hlen. unfold heap_Pop, heap_Remove.
  destruct (Nat.eqb_spec (pq_Len pq - 1) 0) as [Hn|Hn].
  - rewrite Hn. cbn [heap_down fst]. f_equal.
    destruct pq as [st nx ix [|l [|]]]; unfold pq_Len in *; simpl in *; try lia.
    unfold pq_Swap. simpl. f_equal. apply map_eq. intros l'. rewrite !lookup_alter.
    destruct (ok_index _ Hok 0 l) as (it & Hit & Hz); [done|]. simpl in *.
    repeat case_decide; subst; try done. rewrite Hit. simpl. f_equal.
    destruct it; unfold set_index; simpl in *; congruence.
  - case_match; [done|]. cbn [heap_up].
    by replace ((0 - 1) / 2 =? 0) with true.
Qed.

Lemma heap_Pop_valid pq x :
  pq_valid pq -> pq_elems pq !! 0 = Some x ->
  exists pq', heap_Pop pq = (Some x, pq') /\ pq_valid pq' /\ pq_elems pq ≡ₚ x :: pq_elems pq'.
Proof.
  intros Hv H0. rewrite heap_Pop_Remove; [by apply heap_Remove_valid|apply Hv|].
  rewrite <- length_pq_elems. by eapply lookup_lt_Some.
Qed.

(** The name index finds an item together with its current position. *)
Lemma pq_Get_spec pq name :
  pq_ok pq ->
  match pq_Get pq name with
  | (i, Some x) => keyFunc x = name /\ pq_elems pq !! Z.to_nat i = Some x /\ (0 <= i)%Z
  | (i, None) => pq_indexes pq !! name = None /\ i = (-1)%Z /\
      forall x, x ∈ pq_elems pq -> keyFunc x <> name
  end.
Proof.
  intros [Hnd Hidx Hfr Hnm]. unfold pq_Get.
  destruct (pq_indexes pq !! name) as [l|] eqn:Hix.
  - apply Hnm in Hix as [[i Hi]%list_elem_of_lookup Hk].
    destruct (Hidx _ _ Hi) as (it & Hit & Hz). rewrite Hit.
    assert (pq_get pq l = qi_elem it) as Hg by (unfold pq_get; by rewrite Hit).
    split; [congruence|]. split; [|lia].
    rewrite pq_elems_lookup, Hz, Nat2Z.id, Hi. simpl. by rewrite Hg.
  - split; [done|]. split; [done|]. intros x Hx Hk.
    apply list_elem_of_fmap in Hx as (l & -> & Hl).
    assert (pq_indexes pq !! name = Some l) by (by apply Hnm). congruence.
Qed.

(** No two queued elements share a key. *)
Lemma pq_keys_NoDup pq : pq_ok pq -> NoDup (keyFunc <$> pq_elems pq).
Proof.
  intros [Hnd Hidx Hfr Hnm]. unfold pq_elems. rewrite <- list_fmap_compose.
  apply NoDup_fmap_2_strong; [|done]. intros l1 l2 H1 H2 Hk. simpl in Hk.
  assert (pq_indexes pq !! keyFunc (pq_get pq l1) = Some l1) by (by apply Hnm).
  assert (pq_indexes pq !! keyFunc (pq_get pq l1) = Some l2) by (by apply Hnm).
  congruence.
Qed.

Lemma pq_valid_new : pq_valid NewPriorityQueue.
Proof.
  split; [split|]; simpl; try done.
  - constructor.
  - intros k l. rewrite lookup_empty. split; [done|].
    intros [Hin _]. by apply elem_of_nil in Hin.
  - intros k Hk. simpl in Hk. lia.
Qed.
End PQ.

(** ** The contract of the queue *)

Section PQTheorems.
Context {A : Type} `{!Inhabited A} (lessFunc : A -> A -> bool) (keyFunc : A -> string)
  {SW : StrictWeak lessFunc}.

(** C39: [heap.Push] of an element under a fresh name, [heap.Pop], and [heap.Remove] at the
    position [Get] reports implement a bag of uniquely named elements: the heap order, the
    name index and the positions stored in the items all survive, [Pop] takes out an element
    no other one precedes and [Remove] exactly the element of that name. *)
Theorem priority_queue_refines_keyed_bag (pq : PriorityQueue A) :
  pq_valid lessFunc keyFunc pq ->
  NoDup (keyFunc <$> pq_elems pq) /\
  (forall x, (pq_Get pq (keyFunc x)).2 = None ->
     pq_valid lessFunc keyFunc (heap_Push lessFunc keyFunc pq x) /\
     pq_elems (heap_Push lessFunc keyFunc pq x) ≡ₚ x :: pq_elems pq) /\
  (pq_elems pq <> [] ->
     exists x pq', heap_Pop lessFunc keyFunc pq = (Some x, pq') /\
       pq_valid lessFunc keyFunc pq' /\ pq_elems pq ≡ₚ x :: pq_elems pq' /\
       forall y, y ∈ pq_elems pq -> lessFunc y x = false) /\
  (forall name i x, pq_Get pq name = (i, Some x) ->
     keyFunc x = name /\
     exists pq', heap_Remove lessFunc keyFunc pq (Z.to_nat i) = (Some x, pq') /\
       pq_valid lessFunc keyFunc pq' /\ pq_elems pq ≡ₚ x :: pq_elems pq').
Proof.
  intros Hv. split; [by apply pq_keys_NoDup, Hv|]. split; [|split].
  - intros x Hg. apply (heap_Push_valid lessFunc keyFunc); [done|].
    pose proof (pq_Get_spec keyFunc pq (keyFunc x) (proj1 Hv)) as Hs.
    destruct (pq_Get pq (keyFunc x)) as [i [y|]]; [done|]. by destruct Hs.
  - intros Hne. destruct (pq_elems pq !! 0) as [x|] eqn:H0; [|by destruct (pq_elems pq)].
    destruct (heap_Pop_valid lessFunc keyFunc pq x Hv H0) as (pq' & Hpop & Hv' & Hperm).
    exists x, pq'. split; [done|]. split; [done|]. split; [done|].
    by apply (heap_root_min lessFunc _ _ (proj2 Hv) H0).
  - intros name i x Hg. pose proof (pq_Get_spec keyFunc pq name (proj1 Hv)) as Hs.
    rewrite Hg in Hs. destruct Hs as (Hk & Hx & _). split; [done|].
    by apply (heap_Remove_valid lessFunc keyFunc).
Qed.
End PQTheorems.

(** A queue of numbers named by their decimal digit, after three pushes. *)
Definition example_queue : PriorityQueue nat :=
  foldl (heap_Push Nat.ltb (fun n => String (ascii_of_nat n) EmptyString)) NewPriorityQueue [5; 3; 4].

#[export] Instance ltb_strict_weak : StrictWeak Nat.ltb.
Proof. split; intros *; rewrite ?Nat.ltb_ge, ?Nat.ltb_lt; lia. Qed.

Lemma priority_queue_refines_keyed_bag_witness :
  pq_valid Nat.ltb (fun n => String (ascii_of_nat n) EmptyString) example_queue /\
  exists x pq', heap_Pop Nat.ltb (fun n => String (ascii_of_nat n) EmptyString) example_queue
    = (Some x, pq') /\ x = 3.
Proof.
  assert (pq_valid Nat.ltb (fun n => String (ascii_of_nat n) EmptyString) example_queue) as Hv.
  { unfold example_queue. cbn [foldl].
    do 3 (refine (proj1 (heap_Push_valid Nat.ltb _ _ _ _ _)); [|vm_compute; reflexivity]).
    apply pq_valid_new. }
  split; [exact Hv|].
  destruct (priority_queue_refines_keyed_bag Nat.ltb
    (fun n => String (ascii_of_nat n) EmptyString) example_queue Hv) as (_ & _ & Hpop & _).
  destruct Hpop as (x & pq' & Heq & _); [discriminate|].
  exists x, pq'. split; [exact Heq|]. vm_compute in Heq. congruence.
Defined.

(** ** [ConcurrentStringSet] ([concurrent_set.go]) *)

Definition set_Add (identifier : string) (pool : gset string) : gset string := {[identifier]} ∪ pool.
Definition set_Delete (identifier : string) (pool : gset string) : gset string :=
  pool ∖ {[identifier]}.
Definition set_Has (identifier : string) (pool : gset string) : bool :=
  bool_decide (identifier ∈ pool).
Definition set_Len (pool : gset string) : nat := size pool.
(** [sets.String.List] sorts the keys. *)
Definition set_GetKeys {GS : GoSort} (pool : gset string) : list string :=
  gosort String.ltb (elements pool).

Lemma elem_of_set_GetKeys {GS : GoSort} pool x : x ∈ set_GetKeys pool <-> x ∈ pool.
Proof. unfold set_GetKeys. by rewrite gosort_perm, elem_of_elements. Qed.
