(* ===== verification/ScheduleQueue.v ===== *)
(** * The pod schedule queue ([pkg/fornaxcore/podscheduler/schedule_queue.go])

    Two priority queues keyed by pod name and ordered by request time: the active queue the
    scheduler polls and the back-off queue failed pods wait in.  [*v1.Pod] is an abstract
    reference [P] with its (immutable) name; [time.Now()] is an argument. *)

From S2P Require Import Prelude Collection.
From Stdlib Require Import String.
Open Scope Z_scope.

Record PodScheduleItem (P : Type) := mkPodScheduleItem { psi_pod : P; requestTime : Z }.
Arguments mkPodScheduleItem {P}.
Arguments psi_pod {P}.
Arguments requestTime {P}.

#[export] Instance PodScheduleItem_inhabited {P} `{!Inhabited P} : Inhabited (PodScheduleItem P) :=
  populate (mkPodScheduleItem inhabitant 0).

Section ScheduleQueue.
Context {P : Type} `{!Inhabited P} (podName : P -> string).

Definition UnixMilli (t : Z) : Z := t / 10 ^ 6.

Definition PodRequestTimeLess (pi pj : PodScheduleItem P) : bool :=
  UnixMilli (requestTime pi) <? UnixMilli (requestTime pj).

Definition PodName (pj : PodScheduleItem P) : string := podName (psi_pod pj).

#[local] Instance less_sw : StrictWeak PodRequestTimeLess.
Proof. apply (strict_weak_rank (fun i => UnixMilli (requestTime i))). Qed.

Abbreviation schedulePriorityQueue := (PriorityQueue (PodScheduleItem P)).

Definition spq_AddPod (now : Z) (pq : schedulePriorityQueue) (v1pod : P) (duration : Z) :=
  match pq_Get pq (podName v1pod) with
  | (_, None) =>
    heap_Push PodRequestTimeLess PodName pq (mkPodScheduleItem v1pod (now + duration))
  | (_, Some _) => pq
  end.

Definition spq_RemovePod (pq : schedulePriorityQueue) (v1pod : P) :
    option P * schedulePriorityQueue :=
  match pq_Get pq (podName v1pod) with
  | (index, Some item) =>
    (Some (psi_pod item), (heap_Remove PodRequestTimeLess PodName pq (Z.to_nat index)).2)
  | (_, None) => (None, pq)
  end.

Definition spq_GetPod (pq : schedulePriorityQueue) (name : string) : option P :=
  psi_pod <$> (pq_Get pq name).2.

Definition spq_PeakPod (pq : schedulePriorityQueue) : option P := psi_pod <$> pq_Peak pq.

Definition spq_nextItem (pq : schedulePriorityQueue) :
    option (PodScheduleItem P) * schedulePriorityQueue :=
  match pq_Peak pq with
  | None => (None, pq)
  | Some _ => heap_Pop PodRequestTimeLess PodName pq
  end.

Definition spq_NextPod (pq : schedulePriorityQueue) : option P * schedulePriorityQueue :=
  let (item, pq) := spq_nextItem pq in (psi_pod <$> item, pq).

(** ** [PodScheduleQueue] *)
Record PodScheduleQueue := mkPSQ {
  q_stop : bool;
  activeQueue : schedulePriorityQueue;
  backoffRetryQueue : schedulePriorityQueue
}.

Definition NewScheduleQueue : PodScheduleQueue :=
  mkPSQ false NewPriorityQueue NewPriorityQueue.

Definition q_Stop (q : PodScheduleQueue) : PodScheduleQueue :=
  mkPSQ true (activeQueue q) (backoffRetryQueue q).

Definition q_Length (q : PodScheduleQueue) : nat * nat :=
  (pq_Len (activeQueue q), pq_Len (backoffRetryQueue q)).

Definition HasMore (q : PodScheduleQueue) : bool :=
  bool_decide (is_Some (spq_PeakPod (activeQueue q))).

(** One turn of the wait loop of [NextPod]: [None] when the queue is stopped or the caller
    has to wait on the condition variable. *)
Definition q_NextPod (q : PodScheduleQueue) : option P * PodScheduleQueue :=
  if q_stop q then (None, q)
  else let (pod, a) := spq_NextPod (activeQueue q) in
       (pod, mkPSQ (q_stop q) a (backoffRetryQueue q)).

Definition q_BackoffPod (now : Z) (q : PodScheduleQueue) (v1pod : P) (backoffDuration : Z) :=
  mkPSQ (q_stop q) (spq_RemovePod (activeQueue q) v1pod).2
    (spq_AddPod now (backoffRetryQueue q) v1pod backoffDuration).

Definition q_AddPod (now : Z) (q : PodScheduleQueue) (v1pod : P) (backoff : Z) : PodScheduleQueue :=
  match spq_RemovePod (backoffRetryQueue q) v1pod with
  | (Some _, b) => mkPSQ (q_stop q) (spq_AddPod now (activeQueue q) v1pod backoff) b
  | (None, b) =>
    mkPSQ (q_stop q) (spq_AddPod now (spq_RemovePod (activeQueue q) v1pod).2 v1pod backoff) b
  end.

Definition q_RemovePod (q : PodScheduleQueue) (v1pod : P) : option P * PodScheduleQueue :=
  match spq_RemovePod (activeQueue q) v1pod with
  | (Some oldcopy, a) => (Some oldcopy, mkPSQ (q_stop q) a (backoffRetryQueue q))
  | (None, a) =>
    let (oldcopy, b) := spq_RemovePod (backoffRetryQueue q) v1pod in
    (oldcopy, mkPSQ (q_stop q) a b)
  end.

(** The polling loop of [ReviveBackoffItem]: every turn but the last takes one item out of the
    back-off queue, so its length bounds the number of turns. *)
Fixpoint revive_loop (fuel : nat) (timeNow now : Z) (b : schedulePriorityQueue) (pods : list P) :
    list P * schedulePriorityQueue :=
  match fuel with
  | O => (pods, b)
  | S fuel =>
    match spq_nextItem b with
    | (None, b) => (pods, b)
    | (Some item, b) =>
      if requestTime item <? timeNow then revive_loop fuel timeNow now b (pods ++ [psi_pod item])
      else (pods, spq_AddPod now b (psi_pod item) (requestTime item - timeNow))
    end
  end.

Definition ReviveBackoffItem (timeNow now : Z) (q : PodScheduleQueue) : PodScheduleQueue :=
  let (pods, b) :=
    revive_loop (S (pq_Len (backoffRetryQueue q))) timeNow now (backoffRetryQueue q) [] in
  foldl (fun q v => q_AddPod now q v 0) (mkPSQ (q_stop q) (activeQueue q) b) pods.

(** ** Lemmas on one queue *)

Abbreviation valid := (pq_valid PodRequestTimeLess PodName).
Definition names (pq : schedulePriorityQueue) : list string := PodName <$> pq_elems pq.

Lemma names_NoDup pq : valid pq -> NoDup (names pq).
Proof. intros [Hok _]. by apply pq_keys_NoDup. Qed.

Lemma pq_Get_names pq n : valid pq -> is_Some (pq_Get pq n).2 <-> n ∈ names pq.
Proof.
  intros [Hok _]. pose proof (pq_Get_spec PodName pq n Hok) as Hg.
  destruct (pq_Get pq n) as [i [x|]]; simpl.
  - destruct Hg as (<- & Hx & _). split; [intros _|by eexists].
    apply list_elem_of_fmap_2. by eapply list_elem_of_lookup_2.
  - destruct Hg as (_ & _ & Hn). split; [by intros [? ?]|].
    intros (x & -> & Hx)%list_elem_of_fmap. by apply (Hn x) in Hx.
Qed.

Lemma spq_AddPod_spec now pq p d :
  valid pq ->
  valid (spq_AddPod now pq p d) /\
  (podName p ∈ names pq -> spq_AddPod now pq p d = pq) /\
  (podName p ∉ names pq ->
     pq_elems (spq_AddPod now pq p d) ≡ₚ mkPodScheduleItem p (now + d) :: pq_elems pq).
Proof.
  intros Hv. unfold spq_AddPod. pose proof (pq_Get_names pq (podName p) Hv) as Hg.
  pose proof (pq_Get_spec PodName pq (podName p) (proj1 Hv)) as Hs.
  destruct (pq_Get pq (podName p)) as [i [x|]]; simpl in Hg.
  - split; [done|]. split; [done|]. intros Hn. destruct Hn. apply Hg. by eexists.
  - destruct Hs as (Hix & _).
    destruct (heap_Push_valid PodRequestTimeLess PodName pq (mkPodScheduleItem p (now + d)))
      as [H1 H2]; [done|done|].
    split; [done|]. split; [|done]. intros Hn. by apply Hg in Hn as [? ?].
Qed.

Lemma spq_AddPod_names now pq p d n :
  valid pq -> n ∈ names (spq_AddPod now pq p d) <-> n = podName p \/ n ∈ names pq.
Proof.
  intros Hv. destruct (spq_AddPod_spec now pq p d Hv) as (_ & Hin & Hnew).
  destruct (decide (podName p ∈ names pq)) as [Hp|Hp].
  - rewrite Hin by done. naive_solver.
  - unfold names in *. rewrite Hnew by done. csimpl. rewrite elem_of_cons. done.
Qed.

Lemma spq_RemovePod_spec pq p :
  valid pq ->
  match spq_RemovePod pq p with
  | (Some r, pq') => podName r = podName p /\ valid pq' /\
      exists t, pq_elems pq ≡ₚ mkPodScheduleItem r t :: pq_elems pq'
  | (None, pq') => pq' = pq /\ podName p ∉ names pq
  end.
Proof.
  intros Hv. unfold spq_RemovePod.
  pose proof (pq_Get_spec PodName pq (podName p) (proj1 Hv)) as Hs.
  destruct (pq_Get pq (podName p)) as [i [x|]].
  - destruct Hs as (Hk & Hx & Hi).
    destruct (heap_Remove_valid PodRequestTimeLess PodName pq (Z.to_nat i) x) as (pq' & -> & Hv' & Hp);
      [done|done|]. simpl. split; [done|]. split; [done|].
    exists (requestTime x). by destruct x.
  - split; [done|]. intros (x & Hk & Hx)%list_elem_of_fmap.
    destruct Hs as (_ & _ & Hs). by apply (Hs x Hx).
Qed.

Lemma spq_RemovePod_names pq p n :
  valid pq -> n ∈ names (spq_RemovePod pq p).2 <-> n <> podName p /\ n ∈ names pq.
Proof.
  intros Hv. pose proof (spq_RemovePod_spec pq p Hv) as Hs.
  pose proof (names_NoDup pq Hv) as Hnd.
  destruct (spq_RemovePod pq p) as [[r|] pq'].
  - destruct Hs as (Hr & Hv' & t & Hperm). simpl. unfold names in *.
    rewrite Hperm in Hnd |- *. csimpl in *. apply NoDup_cons in Hnd as [Hni _].
    unfold PodName at 1 in Hni. simpl in Hni. rewrite elem_of_cons.
    unfold PodName at 2. simpl. rewrite Hr in *. set_solver.
  - destruct Hs as [-> Hni]. simpl. set_solver.
Qed.

Lemma spq_RemovePod_valid pq p : valid pq -> valid (spq_RemovePod pq p).2.
Proof.
  intros Hv. pose proof (spq_RemovePod_spec pq p Hv) as Hs.
  destruct (spq_RemovePod pq p) as [[r|] pq']; simpl; naive_solver.
Qed.

(** Taking the next item: nothing from an empty queue, otherwise an item no other one
    precedes. *)
Lemma spq_nextItem_spec pq :
  valid pq ->
  match spq_nextItem pq with
  | (None, pq') => pq' = pq /\ pq_elems pq = []
  | (Some x, pq') => valid pq' /\ pq_elems pq ≡ₚ x :: pq_elems pq' /\
      forall y, y ∈ pq_elems pq -> UnixMilli (requestTime x) <= UnixMilli (requestTime y)
  end.
Proof.
  intros Hv. unfold spq_nextItem, pq_Peak.
  destruct (last (pq_queue pq)) as [l|] eqn:Hl; simpl.
  - destruct (pq_elems pq !! 0%nat) as [x|] eqn:H0.
    + destruct (heap_Pop_valid PodRequestTimeLess PodName pq x Hv H0) as (pq' & -> & Hv' & Hp).
      split; [done|]. split; [done|]. intros y Hy.
      pose proof (heap_root_min PodRequestTimeLess (pq_elems pq) x (proj2 Hv) H0 y Hy) as Hle.
      unfold le_of, PodRequestTimeLess in Hle. lia.
    + rewrite pq_elems_lookup in H0. by destruct (pq_queue pq).
  - split; [done|]. apply last_None in Hl. unfold pq_elems. by rewrite Hl.
Qed.

(** ** The invariant of the pair of queues *)

Record sq_inv (q : PodScheduleQueue) : Prop := {
  inv_active : valid (activeQueue q);
  inv_backoff : valid (backoffRetryQueue q);
  inv_disjoint : forall n, n ∈ names (activeQueue q) -> n ∉ names (backoffRetryQueue q)
}.

Lemma q_AddPod_spec now q p d :
  sq_inv q ->
  sq_inv (q_AddPod now q p d) /\
  (forall n, n ∈ names (activeQueue (q_AddPod now q p d)) <->
             n = podName p \/ n ∈ names (activeQueue q)) /\
  (forall n, n ∈ names (backoffRetryQueue (q_AddPod now q p d)) <->
             n <> podName p /\ n ∈ names (backoffRetryQueue q)) /\
  (podName p ∉ names (backoffRetryQueue q) ->
     backoffRetryQueue (q_AddPod now q p d) = backoffRetryQueue q).
Proof.
  intros [Ha Hb Hd]. unfold q_AddPod.
  pose proof (spq_RemovePod_names (backoffRetryQueue q) p) as Hbn.
  pose proof (spq_RemovePod_valid (backoffRetryQueue q) p Hb) as Hbv.
  pose proof (spq_RemovePod_spec (backoffRetryQueue q) p Hb) as Hbs.
  pose proof (spq_RemovePod_valid (activeQueue q) p Ha) as Hav.
  pose proof (spq_RemovePod_names (activeQueue q) p) as Han.
  destruct (spq_RemovePod (backoffRetryQueue q) p) as [[r|] b]; simpl in *.
  - destruct Hbs as (Hr & _ & t & Hperm).
    pose proof (fun n => spq_AddPod_names now (activeQueue q) p d n Ha) as Hn.
    split; [split|split; [|split]]; simpl.
    + by apply spq_AddPod_spec.
    + done.
    + intros n. rewrite Hn, Hbn by done. set_solver.
    + done.
    + intros n. by apply Hbn.
    + intros Hni. destruct Hni. unfold names. rewrite Hperm. csimpl.
      apply elem_of_cons. left. unfold PodName. simpl. done.
  - destruct Hbs as [-> Hni].
    pose proof (fun n => spq_AddPod_names now _ p d n Hav) as Hn.
    split; [split|split; [|split]]; simpl.
    + by apply spq_AddPod_spec.
    + done.
    + intros n. rewrite Hn, Han by done. set_solver.
    + intros n. rewrite Hn, Han by done. destruct (decide (n = podName p)); set_solver.
    + set_solver.
    + done.
Qed.

Lemma q_BackoffPod_spec now q p d :
  sq_inv q ->
  sq_inv (q_BackoffPod now q p d) /\
  (forall n, n ∈ names (activeQueue (q_BackoffPod now q p d)) <->
             n <> podName p /\ n ∈ names (activeQueue q)) /\
  (forall n, n ∈ names (backoffRetryQueue (q_BackoffPod now q p d)) <->
             n = podName p \/ n ∈ names (backoffRetryQueue q)).
Proof.
  intros [Ha Hb Hd]. unfold q_BackoffPod.
  pose proof (fun n => spq_RemovePod_names (activeQueue q) p n Ha) as Han.
  pose proof (fun n => spq_AddPod_names now (backoffRetryQueue q) p d n Hb) as Hbn.
  split; [split|split]; simpl.
  - by apply spq_RemovePod_valid.
  - by apply spq_AddPod_spec.
  - intros n. rewrite Han, Hbn. set_solver.
  - done.
  - done.
Qed.

Lemma q_RemovePod_spec q p :
  sq_inv q ->
  sq_inv (q_RemovePod q p).2 /\
  (forall n, n ∈ names (activeQueue (q_RemovePod q p).2) <->
             n <> podName p /\ n ∈ names (activeQueue q)) /\
  (forall n, n ∈ names (backoffRetryQueue (q_RemovePod q p).2) <->
             n <> podName p /\ n ∈ names (backoffRetryQueue q)).
Proof.
  intros [Ha Hb Hd]. unfold q_RemovePod.
  pose proof (fun n => spq_RemovePod_names (activeQueue q) p n Ha) as Han.
  pose proof (spq_RemovePod_valid (activeQueue q) p Ha) as Hav.
  pose proof (spq_RemovePod_spec (activeQueue q) p Ha) as Has.
  pose proof (fun n => spq_RemovePod_names (backoffRetryQueue q) p n Hb) as Hbn.
  pose proof (spq_RemovePod_valid (backoffRetryQueue q) p Hb) as Hbv.
  destruct (spq_RemovePod (activeQueue q) p) as [[r|] a]; simpl in *.
  - destruct Has as (Hr & _ & t & Hperm).
    assert (podName p ∈ names (activeQueue q)) as Hin.
    { unfold names. rewrite Hperm. csimpl. apply elem_of_cons. left. done. }
    split; [split|split]; simpl; try done.
    + intros n Hn. apply Hd. by apply Han in Hn as [_ ?].
    + intros n. split; [|by intros [_ ?]]. intros Hn. split; [|done].
      intros ->. by apply (Hd (podName p)).
  - destruct (spq_RemovePod (backoffRetryQueue q) p) as [o b]; simpl in *.
    split; [split|split]; simpl; try done.
    intros n. rewrite Han, Hbn. set_solver.
Qed.

Lemma q_NextPod_inv q : sq_inv q -> sq_inv (q_NextPod q).2.
Proof.
  intros [Ha Hb Hd]. unfold q_NextPod. destruct (q_stop q); [done|].
  unfold spq_NextPod. pose proof (spq_nextItem_spec (activeQueue q) Ha) as Hn.
  destruct (spq_nextItem (activeQueue q)) as [[x|] a]; simpl.
  - destruct Hn as (Hv & Hp & _). split; simpl; try done.
    intros n Hin. apply Hd. unfold names. rewrite Hp. csimpl. set_solver.
  - destruct Hn as [-> _]. by split.
Qed.

Lemma revive_loop_spec fuel timeNow now b pods :
  valid b -> (pq_Len b < fuel)%nat -> timeNow <= now ->
  exists taken b',
    revive_loop fuel timeNow now b pods = (pods ++ (psi_pod <$> taken), b') /\
    valid b' /\
    (forall x, x ∈ taken -> x ∈ pq_elems b /\ requestTime x < timeNow) /\
    names b ≡ₚ (PodName <$> taken) ++ names b' /\
    (forall y, y ∈ pq_elems b' -> UnixMilli timeNow <= UnixMilli (requestTime y)).
Proof.
  intros Hv Hf Ht. revert b pods Hv Hf.
  induction fuel as [|fuel IH]; intros b pods Hv Hf; [lia|]. cbn [revive_loop].
  pose proof (spq_nextItem_spec b Hv) as Hn.
  destruct (spq_nextItem b) as [[x|] b1].
  - destruct Hn as (Hv1 & Hp & Hmin).
    assert (List.length (pq_elems b) = S (List.length (pq_elems b1))) as Hlen by (by rewrite Hp).
    rewrite !length_pq_elems in Hlen.
    destruct (Z.ltb_spec (requestTime x) timeNow) as [Hdue|Hdue].
    + destruct (IH b1 (pods ++ [psi_pod x]) Hv1 ltac:(lia)) as (tk & b' & -> & Hv' & Htk & Hnm & Hl).
      exists (x :: tk), b'. csimpl. split; [by rewrite <- app_assoc|]. split; [done|].
      split; [|split; [|done]].
      * intros y [->|Hy]%elem_of_cons; [rewrite Hp; set_solver|].
        destruct (Htk y Hy). rewrite Hp. set_solver.
      * unfold names at 1. rewrite Hp. csimpl. by rewrite <- Hnm.
    + exists [], (spq_AddPod now b1 (psi_pod x) (requestTime x - timeNow)).
      rewrite app_nil_r. split; [done|].
      pose proof (spq_AddPod_spec now b1 (psi_pod x) (requestTime x - timeNow) Hv1)
        as (Hv2 & _ & Hnew).
      assert (podName (psi_pod x) ∉ names b1) as Hni.
      { pose proof (names_NoDup b Hv) as Hnd. unfold names in Hnd. rewrite Hp in Hnd.
        csimpl in Hnd. by apply NoDup_cons in Hnd as [Hni _]. }
      specialize (Hnew Hni). split; [done|]. split; [set_solver|]. split.
      * unfold names. rewrite Hp, Hnew. done.
      * intros y. rewrite Hnew, elem_of_cons. intros [->|Hy]; simpl.
        -- unfold UnixMilli. apply Z.div_le_mono; lia.
        -- transitivity (UnixMilli (requestTime x)).
           ++ unfold UnixMilli. apply Z.div_le_mono; lia.
           ++ apply Hmin. rewrite Hp. set_solver.
  - destruct Hn as [-> He]. exists [], b. rewrite app_nil_r. rewrite He.
    split; [done|]. split; [done|]. split; [set_solver|]. split; [done|]. set_solver.
Qed.
End ScheduleQueue.

Arguments mkPSQ {P}.
Arguments q_stop {P}.
Arguments activeQueue {P}.
Arguments backoffRetryQueue {P}.

(** ** Runs of the queue *)

Section ScheduleRuns.
Context {P : Type} `{!Inhabited P} (podName : P -> string).

(** Every call the scheduler, the pod manager and the ticker can make, in any order. *)
Inductive sq_step : PodScheduleQueue (P := P) -> PodScheduleQueue (P := P) -> Prop :=
  | step_AddPod now q p d : sq_step q (q_AddPod podName now q p d)
  | step_NextPod q : sq_step q (q_NextPod podName q).2
  | step_BackoffPod now q p d : sq_step q (q_BackoffPod podName now q p d)
  | step_RemovePod q p : sq_step q (q_RemovePod podName q p).2
  | step_Revive timeNow now q : timeNow <= now -> sq_step q (ReviveBackoffItem podName timeNow now q)
  | step_Stop q : sq_step q (q_Stop q).

Lemma sq_inv_new : sq_inv podName NewScheduleQueue.
Proof. split; simpl; try apply pq_valid_new. intros n Hn. by apply elem_of_nil in Hn. Qed.

(** Adding a list of pods none of which is backed off leaves the back-off queue alone. *)
Lemma foldl_AddPod_spec now q (l : list P) :
  sq_inv podName q ->
  (forall p, p ∈ l -> podName p ∉ names podName (backoffRetryQueue q)) ->
  let q' := foldl (fun q v => q_AddPod podName now q v 0) q l in
  sq_inv podName q' /\
  backoffRetryQueue q' = backoffRetryQueue q /\
  forall n, n ∈ names podName (activeQueue q') <->
            n ∈ (podName <$> l) \/ n ∈ names podName (activeQueue q).
Proof.
  revert q. induction l as [|p l IH]; intros q Hinv Hni; simpl.
  { split; [done|]. split; [done|]. intros n. rewrite elem_of_nil. tauto. }
  destruct (q_AddPod_spec podName now q p 0 Hinv) as (Hinv' & Ha & _ & Hb).
  destruct (IH (q_AddPod podName now q p 0)) as (H1 & H2 & H3); [done| |].
  { intros p' Hp'. rewrite Hb by (apply Hni; set_solver). apply Hni. set_solver. }
  split; [done|]. split; [by rewrite H2, Hb by (apply Hni; set_solver)|].
  intros n. rewrite H3, Ha. csimpl. rewrite elem_of_cons. tauto.
Qed.

Lemma Revive_spec timeNow now q :
  timeNow <= now -> sq_inv podName q ->
  let q' := ReviveBackoffItem podName timeNow now q in
  sq_inv podName q' /\
  (forall n, n ∈ names podName (activeQueue q) \/ n ∈ names podName (backoffRetryQueue q) <->
             n ∈ names podName (activeQueue q') \/ n ∈ names podName (backoffRetryQueue q')) /\
  (forall n, n ∈ names podName (activeQueue q) -> n ∈ names podName (activeQueue q')) /\
  (forall x, x ∈ pq_elems (backoffRetryQueue q) ->
     PodName podName x ∈ names podName (activeQueue q') -> requestTime x < timeNow) /\
  (forall x, x ∈ pq_elems (backoffRetryQueue q') ->
     UnixMilli timeNow <= UnixMilli (requestTime x)).
Proof.
  intros Ht Hinv. unfold ReviveBackoffItem.
  destruct (revive_loop_spec podName (S (pq_Len (backoffRetryQueue q))) timeNow now
    (backoffRetryQueue q) []) as (taken & b & -> & Hvb & Htk & Hperm & Hleft);
    [apply Hinv|lia|done|]. cbn [app].
  pose proof (names_NoDup podName _ (inv_backoff _ _ Hinv)) as Hnd.
  rewrite Hperm in Hnd. apply NoDup_app in Hnd as (_ & Hdj & _).
  assert (forall n, n ∈ names podName (backoffRetryQueue q) <->
            n ∈ (PodName podName <$> taken) \/ n ∈ names podName b) as Hsplit.
  { intros n. rewrite Hperm, elem_of_app. done. }
  assert (forall n, n ∈ (podName <$> (psi_pod <$> taken)) <-> n ∈ (PodName podName <$> taken)) as Hfm.
  { intros n. by rewrite <- list_fmap_compose. }
  destruct (foldl_AddPod_spec now (mkPSQ (q_stop q) (activeQueue q) b) (psi_pod <$> taken))
    as (H1 & H2 & H3).
  - split; simpl; [apply Hinv|done|]. intros n Ha Hb.
    apply (inv_disjoint _ _ Hinv n Ha). apply Hsplit. by right.
  - intros p Hp. simpl. intros Hn. apply (Hdj (podName p)); [|done].
    apply Hfm. by apply list_elem_of_fmap_2.
  - simpl in H2, H3. split; [done|]. rewrite H2. split; [|split; [|split]].
    + intros n. rewrite H3, Hfm, Hsplit. tauto.
    + intros n. rewrite H3. tauto.
    + intros x Hx. rewrite H3, Hfm. intros [Hin|Hin].
      * apply list_elem_of_fmap in Hin as (y & Hy & Hyt). destruct (Htk y Hyt) as [Hyb Hdue].
        assert (x = y) as ->; [|done].
        pose proof (names_NoDup podName _ (inv_backoff _ _ Hinv)) as Hnd.
        apply list_elem_of_lookup in Hx as [i Hi]. apply list_elem_of_lookup in Hyb as [j Hj].
        assert (i = j) as <-.
        { eapply (NoDup_lookup _ i j (PodName podName x) Hnd); unfold names;
            rewrite list_lookup_fmap, ?Hi, ?Hj; simpl; congruence. }
        congruence.
      * exfalso. apply (inv_disjoint _ _ Hinv _ Hin). by apply list_elem_of_fmap_2.
    + done.
Qed.

Lemma sq_step_inv q q' : sq_step q q' -> sq_inv podName q -> sq_inv podName q'.
Proof.
  destruct 1; intros Hinv.
  - by apply q_AddPod_spec.
  - by apply q_NextPod_inv.
  - by apply q_BackoffPod_spec.
  - by apply q_RemovePod_spec.
  - by apply Revive_spec.
  - by destruct Hinv.
Qed.

Lemma sq_reachable_inv q : rtc sq_step NewScheduleQueue q -> sq_inv podName q.
Proof.
  intros Hr. generalize sq_inv_new.
  induction Hr as [|x y z Hxy _ IH]; [done|]. intros Hx. by eapply IH, sq_step_inv.
Qed.

(** C40: in every state the calls can reach, both queues keep heap order and a name index that
    matches the items, and a pod name is queued at most once, in one of the two queues. *)
Theorem schedule_queue_safe (q : PodScheduleQueue (P := P)) :
  rtc sq_step NewScheduleQueue q ->
  sq_inv podName q /\
  NoDup (names podName (activeQueue q) ++ names podName (backoffRetryQueue q)).
Proof.
  intros Hr%sq_reachable_inv. split; [done|]. destruct Hr as [Ha Hb Hd].
  apply NoDup_app. split; [by apply names_NoDup|]. split; [done|by apply names_NoDup].
Qed.

(** Reviving loses no pod and moves none back: the queued names stay the same, active pods
    stay active, a backed-off pod is activated only if its time has come, and whatever stays
    backed off is not due before the millisecond of the call. *)
Theorem revive_moves_exactly_due timeNow now (q : PodScheduleQueue (P := P)) :
  timeNow <= now -> rtc sq_step NewScheduleQueue q ->
  let q' := ReviveBackoffItem podName timeNow now q in
  (forall n, n ∈ names podName (activeQueue q) \/ n ∈ names podName (backoffRetryQueue q) <->
             n ∈ names podName (activeQueue q') \/ n ∈ names podName (backoffRetryQueue q')) /\
  (forall n, n ∈ names podName (activeQueue q) -> n ∈ names podName (activeQueue q')) /\
  (forall x, x ∈ pq_elems (backoffRetryQueue q) ->
     PodName podName x ∈ names podName (activeQueue q') -> requestTime x < timeNow) /\
  (forall x, x ∈ pq_elems (backoffRetryQueue q') ->
     UnixMilli timeNow <= UnixMilli (requestTime x)).
Proof. intros Ht Hr. by apply Revive_spec, sq_reachable_inv. Qed.

(** A running queue hands out a pod whenever one is active, the earliest requested one
    (to the millisecond), and only that one leaves the active queue. *)
Theorem next_pod_earliest (q : PodScheduleQueue (P := P)) :
  rtc sq_step NewScheduleQueue q -> q_stop q = false -> HasMore q = true ->
  exists x q', q_NextPod podName q = (Some (psi_pod x), q') /\
    pq_elems (activeQueue q) ≡ₚ x :: pq_elems (activeQueue q') /\
    backoffRetryQueue q' = backoffRetryQueue q /\
    forall y, y ∈ pq_elems (activeQueue q) ->
      UnixMilli (requestTime x) <= UnixMilli (requestTime y).
Proof.
  intros Hr%sq_reachable_inv Hstop Hmore. unfold q_NextPod, spq_NextPod. rewrite Hstop.
  unfold HasMore, spq_PeakPod in Hmore. apply bool_decide_eq_true in Hmore.
  pose proof (spq_nextItem_spec podName (activeQueue q) (inv_active _ _ Hr)) as Hn.
  destruct (spq_nextItem podName (activeQueue q)) as [[x|] a].
  - destruct Hn as (_ & Hp & Hmin). exists x. eexists. split; [done|]. done.
  - destruct Hn as [_ He]. exfalso. unfold pq_Peak in Hmore.
    apply fmap_nil_inv in He. rewrite He in Hmore. by destruct Hmore.
Qed.
End ScheduleRuns.

(** A queue holding an active pod, a backed-off pod that is due and one that is not. *)
Definition example_schedule : PodScheduleQueue (P := string) :=
  q_BackoffPod (fun s => s)
    10000000 (q_BackoffPod (fun s => s) 0 (q_AddPod (fun s => s) 0 NewScheduleQueue "a" 0)
      "b" 5000000) "c" 90000000.

Lemma example_schedule_reachable : rtc (sq_step (fun s => s)) NewScheduleQueue example_schedule.
Proof. do 3 (eapply rtc_r; [|constructor]). apply rtc_refl. Qed.

Lemma schedule_queue_safe_witness :
  NoDup (names (fun s => s) (activeQueue example_schedule) ++
         names (fun s => s) (backoffRetryQueue example_schedule)).
Proof. apply (schedule_queue_safe (fun s => s) example_schedule), example_schedule_reachable. Defined.

Lemma revive_moves_exactly_due_witness :
  "b"%string ∈ names (fun s => s)
    (activeQueue (ReviveBackoffItem (fun s => s) 20000000 20000000 example_schedule)) /\
  (forall x, x ∈ pq_elems (backoffRetryQueue
      (ReviveBackoffItem (fun s => s) 20000000 20000000 example_schedule)) ->
     20 <= UnixMilli (requestTime x)).
Proof.
  split; [vm_compute; right; left|].
  destruct (revive_moves_exactly_due (fun s => s) 20000000 20000000 example_schedule)
    as (_ & _ & _ & H); [lia|apply example_schedule_reachable|exact H].
Defined.

Lemma next_pod_earliest_witness :
  exists x q', q_NextPod (fun s => s) example_schedule = (Some (psi_pod x), q').
Proof.
  destruct (next_pod_earliest (fun s => s) example_schedule) as (x & q' & H & _);
    [apply example_schedule_reachable|reflexivity|reflexivity|].
  exists x, q'. exact H.
Defined.
