(* ===== verification/NodePool.v ===== *)
(** * Schedulable nodes and schedule conditions

    [schedule_node_pool.go] and [schedule_condition.go] of [pkg/fornaxcore/podscheduler].  A node
    carries its capacity and what the pods placed on it occupy; every subtraction and addition is
    cut off at zero, as the code does with [Sign() <= 0] and [Set(0)].  [ScheduleStat], which nothing
    reads, and [NodeNameCondition], whose methods panic, are left out. *)

From S2P Require Import Prelude GoStrings ApiTypes.
From Stdlib Require Import String.
#[local] Open Scope Z_scope.

Section NodePool.
Context {CG : ClientGo} {QL : QuantityLib}.

Record SchedulableNode := mkSchedulableNode {
  NodeId : string;
  sn_Node : Node;
  LastSeen : Z;
  LastUsed : Z;
  sn_ResourceList : ResourceList;
  PodPreOccupiedResourceList : ResourceList
}.

Definition set_occupied (rl : ResourceList) (n : SchedulableNode) : SchedulableNode :=
  mkSchedulableNode (NodeId n) (sn_Node n) (LastSeen n) (LastUsed n) (sn_ResourceList n) rl.
Definition set_LastUsed (t : Z) (n : SchedulableNode) : SchedulableNode :=
  mkSchedulableNode (NodeId n) (sn_Node n) (LastSeen n) t (sn_ResourceList n) (PodPreOccupiedResourceList n).
Definition set_LastSeen (t : Z) (n : SchedulableNode) : SchedulableNode :=
  mkSchedulableNode (NodeId n) (sn_Node n) t (LastUsed n) (sn_ResourceList n) (PodPreOccupiedResourceList n).

(** [if q.Sign() <= 0 { q.Set(0) }] *)
Definition cut (q : Quantity) : Quantity := if qSign q <=? 0 then qzero else q.

Definition AdmitPodOccupiedResourceList (snode : SchedulableNode) (resourceList : ResourceList) :
    SchedulableNode :=
  let occ := PodPreOccupiedResourceList snode in
  let occ := <[ResourceCPU := cut (qAdd (rl_get occ ResourceCPU) (rl_get resourceList ResourceCPU))]> occ in
  let occ := <[ResourceMemory := cut (qAdd (rl_get occ ResourceMemory) (rl_get resourceList ResourceMemory))]> occ in
  let occ := <[ResourceStorage := cut (qAdd (rl_get occ ResourceStorage) (rl_get resourceList ResourceStorage))]> occ in
  set_occupied occ snode.

Definition GetAllocatableResources (snode : SchedulableNode) : ResourceList :=
  let cap := sn_ResourceList snode in
  let occ := PodPreOccupiedResourceList snode in
  let r : ResourceList := ∅ in
  let r := <[ResourceCPU := cut (qSub (rl_get cap ResourceCPU) (rl_get occ ResourceCPU))]> r in
  let r := <[ResourceMemory := cut (qSub (rl_get cap ResourceMemory) (rl_get occ ResourceMemory))]> r in
  <[ResourceStorage := cut (qSub (rl_get cap ResourceStorage) (rl_get occ ResourceStorage))]> r.

Definition ReleasePodOccupiedResourceList (snode : SchedulableNode) (resourceList : ResourceList) :
    SchedulableNode :=
  let occ := PodPreOccupiedResourceList snode in
  let occ := <[ResourceCPU := cut (qSub (rl_get occ ResourceCPU) (rl_get resourceList ResourceCPU))]> occ in
  let occ := <[ResourceMemory := cut (qSub (rl_get occ ResourceMemory) (rl_get resourceList ResourceMemory))]> occ in
  let occ := <[ResourceStorage := cut (qSub (rl_get occ ResourceStorage) (rl_get resourceList ResourceStorage))]> occ in
  set_occupied occ snode.

Definition GetNodeAllocatableResourceList (node : Node) : ResourceList :=
  let res := Allocatable (Status node) in
  let pick (n : ResourceName) : Quantity :=
    if 0 <? qSign (rl_get res n) then rl_get res n else ResourceQuantity 0 n in
  <[ResourceStorage := pick ResourceStorage]>
    (<[ResourceMemory := pick ResourceMemory]> (<[ResourceCPU := pick ResourceCPU]> ∅)).

(** ** Conditions *)

Definition MinimumCpuRequestQuantity : Quantity := ResourceQuantity 1 ResourceCPU.
Definition MinimumMemoryRequestQuantity : Quantity := ResourceQuantity 50000 ResourceMemory.

Inductive ScheduleCondition :=
  | CPUCondition (q : Quantity)
  | MemoryCondition (q : Quantity)
  | StorageCondition (q : Quantity).

Definition cond_resource (c : ScheduleCondition) : ResourceName :=
  match c with
  | CPUCondition _ => ResourceCPU | MemoryCondition _ => ResourceMemory
  | StorageCondition _ => ResourceStorage
  end.
Definition cond_quantity (c : ScheduleCondition) : Quantity :=
  match c with CPUCondition q | MemoryCondition q | StorageCondition q => q end.

Definition Mandatory (c : ScheduleCondition) : bool :=
  match c with CPUCondition _ | MemoryCondition _ => true | StorageCondition _ => false end.

Definition Apply (c : ScheduleCondition) (allocatable : ResourceList) : bool :=
  let q := rl_get allocatable (cond_resource c) in
  (0 <? qSign q) && (0 <? qCmp q (cond_quantity c)).

Definition Score (c : ScheduleCondition) (allocatable : ResourceList) : Z :=
  ScaledValue (qSub (rl_get allocatable (cond_resource c)) (cond_quantity c)) 100.

Definition NewPodCPUCondition (pod : Pod) : ScheduleCondition :=
  let resource := rl_get (GetPodResourceList pod) ResourceCPU in
  CPUCondition (if 0 <? qSign resource then resource else MinimumCpuRequestQuantity).
Definition NewPodMemoryCondition (pod : Pod) : ScheduleCondition :=
  let resource := rl_get (GetPodResourceList pod) ResourceMemory in
  MemoryCondition (if 0 <? qSign resource then resource else MinimumMemoryRequestQuantity).
Definition NewStorageCondition (pod : Pod) : option ScheduleCondition :=
  let resource := rl_get (GetPodResourceList pod) ResourceStorage in
  if 0 <? qSign resource then Some (StorageCondition resource) else None.

Definition CalculateScheduleConditions (condBuildFuncs : list (Pod -> ScheduleCondition)) (pod : Pod) :
    list ScheduleCondition := (fun v => v pod) <$> condBuildFuncs.

(** ** What the operations do to the numbers *)

Lemma qval_cut q : qval (cut q) = Z.max 0 (qval q).
Proof.
  unfold cut. pose proof (qSign_pos q) as Hs. destruct (Z.leb_spec (qSign q) 0) as [Hq|Hq].
  - rewrite qval_zero. destruct (Z.ltb_spec 0 (qSign q)); [lia|]. destruct (Z.ltb_spec 0 (qval q)); [done|lia].
  - destruct (Z.ltb_spec 0 (qSign q)); [|lia]. destruct (Z.ltb_spec 0 (qval q)); [lia|done].
Qed.

(** The three accounted resources. *)
Definition accounted (n : ResourceName) : Prop :=
  n = ResourceCPU \/ n = ResourceMemory \/ n = ResourceStorage.

Definition occupied (snode : SchedulableNode) (n : ResourceName) : Z :=
  qval (rl_get (PodPreOccupiedResourceList snode) n).
Definition capacity (snode : SchedulableNode) (n : ResourceName) : Z :=
  qval (rl_get (sn_ResourceList snode) n).
Definition request (rl : ResourceList) (n : ResourceName) : Z := qval (rl_get rl n).

Lemma rl_get_insert_eq (rl : ResourceList) n q : rl_get (<[n := q]> rl) n = q.
Proof. unfold rl_get. by rewrite lookup_insert_eq. Qed.
Lemma rl_get_insert_ne (rl : ResourceList) n m q : n <> m -> rl_get (<[n := q]> rl) m = rl_get rl m.
Proof. unfold rl_get. intros. by rewrite lookup_insert_ne. Qed.

Lemma Admit_occupied snode rl n :
  accounted n ->
  occupied (AdmitPodOccupiedResourceList snode rl) n = Z.max 0 (occupied snode n + request rl n).
Proof.
  intros Hn. unfold occupied, request, AdmitPodOccupiedResourceList. simpl.
  destruct Hn as [->|[->| ->]]; rewrite ?rl_get_insert_ne, ?rl_get_insert_eq by done;
    by rewrite ?rl_get_insert_ne, qval_cut, qval_add by done.
Qed.

Lemma Release_occupied snode rl n :
  accounted n ->
  occupied (ReleasePodOccupiedResourceList snode rl) n = Z.max 0 (occupied snode n - request rl n).
Proof.
  intros Hn. unfold occupied, request, ReleasePodOccupiedResourceList. simpl.
  destruct Hn as [->|[->| ->]]; rewrite ?rl_get_insert_ne, ?rl_get_insert_eq by done;
    by rewrite ?rl_get_insert_ne, qval_cut, qval_sub by done.
Qed.

Lemma Allocatable_value snode n :
  accounted n ->
  qval (rl_get (GetAllocatableResources snode) n) = Z.max 0 (capacity snode n - occupied snode n).
Proof.
  intros Hn. unfold capacity, occupied, GetAllocatableResources. simpl.
  destruct Hn as [->|[->| ->]]; rewrite ?rl_get_insert_ne, ?rl_get_insert_eq by done;
    by rewrite qval_cut, qval_sub.
Qed.

(** A condition holds of a node exactly when strictly more than the request is free. *)
Lemma Apply_spec c snode :
  0 <= qval (cond_quantity c) ->
  Apply c (GetAllocatableResources snode) = true <->
  qval (cond_quantity c) < capacity snode (cond_resource c) - occupied snode (cond_resource c).
Proof.
  intros Hq. unfold Apply. rewrite qSign_pos, andb_true_iff.
  assert (forall a b, (0 <? qCmp a b) = (qval b <? qval a)) as Hcmp.
  { intros a b. unfold qCmp. destruct (Z.compare_spec (qval a) (qval b)), (Z.ltb_spec (qval b) (qval a)); lia || done. }
  rewrite Hcmp, !Z.ltb_lt, Allocatable_value by (destruct c; unfold accounted; simpl; auto). lia.
Qed.

(** What a pod asks for is never negative. *)
Lemma add_container_request_nonneg (rl : ResourceList) v n :
  (forall m, 0 <= request rl m) -> 0 <= request (add_container_request rl v) n.
Proof.
  unfold add_container_request.
  assert (forall (rl : ResourceList) req readAs writeAs, (forall m, 0 <= request rl m) ->
    forall m, 0 <= request (if 0 <? qSign (rl_get (c_Requests v) req)
      then <[writeAs := qAdd (rl_get rl readAs) (rl_get (c_Requests v) req)]> rl else rl) m) as Hstep.
  { intros rl' req ra wa Hrl m. rewrite qSign_pos.
    destruct (Z.ltb_spec 0 (qval (rl_get (c_Requests v) req))); [|done].
    unfold request. rewrite qval_rl_insert. case_decide; [|apply Hrl].
    rewrite qval_add. specialize (Hrl ra). unfold request in Hrl. lia. }
  intros Hrl. cbv zeta. by repeat apply Hstep.
Qed.

Lemma GetPodResourceList_nonneg (pod : Pod) n : 0 <= request (GetPodResourceList pod) n.
Proof.
  unfold GetPodResourceList. assert (forall m, 0 <= request (∅ : ResourceList) m) as H0.
  { intros m. unfold request, rl_get. rewrite lookup_empty. simpl. by rewrite qval_zero. }
  revert n H0. generalize (∅ : ResourceList). induction (Containers (Spec pod)) as [|v l IH]; intros rl n Hrl.
  - apply Hrl.
  - simpl. apply IH. intros m. by apply add_container_request_nonneg.
Qed.
End NodePool.
