(* ===== verification/PodScheduler.v ===== *)
(** * The pod scheduler ([pkg/fornaxcore/podscheduler/pod_scheduler.go])

    Pods and nodes are shared objects: the queue holds pod pointers, the node pool and the chunk
    schedulers hold node pointers.  Both kinds live in heaps of the scheduler state.  A chunk
    scheduler's [schedulePod] holds its lock for the whole attempt, so an attempt is one step; the
    goroutines of a polling round interleave between attempts. *)

From S2P Require Import Prelude GoStrings ApiTypes Interfaces Collection ScheduleQueue NodePool.
From Stdlib Require Import String.
#[local] Open Scope Z_scope.

Inductive NodeSortingMethodT :=
  NodeSortingMethodMoreMemory | NodeSortingMethodLessLastUse | NodeSortingMethodLessUse.

Record SchedulePolicy := mkSchedulePolicy {
  NumOfEvaluatedNodes : nat; BackoffDuration : Z; NodeSortingMethod : NodeSortingMethodT
}.

Record nodeChunkScheduler := mkChunk { ck_nodes : list nat; ck_sortingMethod : NodeSortingMethodT }.

Section PodScheduler.
Context {GR : GoRange} {GS : GoSort} {CG : ClientGo} {QL : QuantityLib} {W : Type}
  {NA : NodeAgentClient W}.

Record podScheduler := mkPS {
  ps_stop : bool;
  pod_objs : PodHeap;
  node_objs : gmap nat SchedulableNode;
  next_node : nat;
  nodePool : gmap string nat;
  scheduleQueue : PodScheduleQueue (P := PodRef);
  schedulers : list nodeChunkScheduler;
  policy : SchedulePolicy;
  ps_world : W
}.
Implicit Types ps : podScheduler.

Definition set_pod_objs v ps := mkPS (ps_stop ps) v (node_objs ps) (next_node ps) (nodePool ps)
  (scheduleQueue ps) (schedulers ps) (policy ps) (ps_world ps).
Definition set_node_objs v ps := mkPS (ps_stop ps) (pod_objs ps) v (next_node ps) (nodePool ps)
  (scheduleQueue ps) (schedulers ps) (policy ps) (ps_world ps).
Definition set_nodePool v ps := mkPS (ps_stop ps) (pod_objs ps) (node_objs ps) (next_node ps) v
  (scheduleQueue ps) (schedulers ps) (policy ps) (ps_world ps).
Definition set_queue v ps := mkPS (ps_stop ps) (pod_objs ps) (node_objs ps) (next_node ps) (nodePool ps)
  v (schedulers ps) (policy ps) (ps_world ps).
Definition set_schedulers v ps := mkPS (ps_stop ps) (pod_objs ps) (node_objs ps) (next_node ps) (nodePool ps)
  (scheduleQueue ps) v (policy ps) (ps_world ps).
Definition set_ps_world v ps := mkPS (ps_stop ps) (pod_objs ps) (node_objs ps) (next_node ps) (nodePool ps)
  (scheduleQueue ps) (schedulers ps) (policy ps) v.

Abbreviation podKey := ref_name.

(** ** Sorting *)

Definition node_rank (h : gmap nat SchedulableNode) (f : SchedulableNode -> Z) (ptr : nat) : Z :=
  match h !! ptr with Some n => f n | None => 0 end.

Definition NodeHasMoreMemorySortFunc h (pi pj : nat) : bool :=
  let v := node_rank h (fun n => AsInt64 (rl_get (GetAllocatableResources n) ResourceMemory)) in
  v pj <? v pi.
Definition NodeLeastLastUseSortFunc h (pi pj : nat) : bool :=
  node_rank h LastUsed pi <? node_rank h LastUsed pj.
Definition BuildNodeSortingFunc (m : NodeSortingMethodT) h : nat -> nat -> bool :=
  match m with
  | NodeSortingMethodMoreMemory => NodeHasMoreMemorySortFunc h
  | NodeSortingMethodLessLastUse => NodeLeastLastUseSortFunc h
  | NodeSortingMethodLessUse => NodeLeastLastUseSortFunc h
  end.

(** [SortedNodes] with [sort.Sort]. *)
Definition sort_nodes ps (m : NodeSortingMethodT) (nodes : list nat) : list nat :=
  gosort (BuildNodeSortingFunc m (node_objs ps)) nodes.
Definition sortNodes ps (cps : nodeChunkScheduler) : nodeChunkScheduler :=
  mkChunk (sort_nodes ps (ck_sortingMethod cps) (ck_nodes cps)) (ck_sortingMethod cps).

(** ** Placing one pod *)

(** The builders [NewPodScheduler] installs. *)
Definition ScheduleConditionBuilders : list (Pod -> ScheduleCondition) :=
  [NewPodCPUCondition; NewPodMemoryCondition].

Definition load_pod (pod : PodRef) : SM podScheduler Pod := fun ps =>
  match pod_objs ps !! ref_ptr pod with
  | Some p => (Ok p, ps)
  | None => (Err (OtherError "panic: nil pointer"), ps)
  end.
Definition load_node (ptr : nat) : SM podScheduler SchedulableNode := fun ps =>
  match node_objs ps !! ptr with
  | Some n => (Ok n, ps)
  | None => (Err (OtherError "panic: nil pointer"), ps)
  end.
Definition store_pod (pod : PodRef) (p : Pod) : SM podScheduler unit :=
  sm_modify (fun ps => set_pod_objs (<[ref_ptr pod := p]> (pod_objs ps)) ps).
Definition store_node (ptr : nat) (n : SchedulableNode) : SM podScheduler unit :=
  sm_modify (fun ps => set_node_objs (<[ptr := n]> (node_objs ps)) ps).
Definition agent_call {A} (c : SM W A) : SM podScheduler A := fun ps =>
  let '(r, w) := c (ps_world ps) in (r, set_ps_world w ps).

(** The pod object while it is bound to a node, and after the node refused it. *)
Definition scheduled_pod (now : Z) (nodeId : string) (p : Pod) : Pod :=
  set_Status (mkPodStatus (Phase (Status p)) nodeId (Some now) "Scheduled" "Scheduled") p.
Definition unscheduled_pod (p : Pod) : Pod :=
  set_Status (mkPodStatus (Phase (Status p)) "" None "Schedule failed" "Schedule failed") p.

Definition bindNode (now : Z) (ptr : nat) (pod : PodRef) : SM podScheduler unit :=
  do! snode <- load_node ptr ;
  do! p <- load_pod pod ;
  let nodeId := NodeId snode in
  do! _ <- store_node ptr (set_LastUsed now (AdmitPodOccupiedResourceList snode (GetPodResourceList p))) ;
  do! _ <- store_pod pod (scheduled_pod now nodeId p) ;
  agent_call (na_CreatePod nodeId (scheduled_pod now nodeId p)).

Definition unbindNode (ptr : nat) (pod : PodRef) : SM podScheduler unit :=
  do! snode <- load_node ptr ;
  do! p <- load_pod pod ;
  do! _ <- store_node ptr (ReleasePodOccupiedResourceList snode (GetPodResourceList p)) ;
  store_pod pod (unscheduled_pod p).

Definition RemovePod (pod : PodRef) : SM podScheduler unit :=
  sm_modify (fun ps => set_queue (q_RemovePod podKey (scheduleQueue ps) pod).2 ps).
Definition AddPod (now : Z) (pod : PodRef) (duration : Z) : SM podScheduler unit :=
  sm_modify (fun ps => set_queue (q_AddPod podKey now (scheduleQueue ps) pod duration) ps).

(** The first [NumOfEvaluatedNodes] candidates that meet every condition. *)
Fixpoint available_nodes (h : gmap nat SchedulableNode) (conditions : list ScheduleCondition)
    (limit : nat) (candidates acc : list nat) : list nat :=
  match candidates with
  | [] => acc
  | ptr :: rest =>
    let good :=
      match h !! ptr with
      | Some n => forallb (fun c => Apply c (GetAllocatableResources n)) conditions
      | None => false
      end in
    let acc := if good then acc ++ [ptr] else acc in
    if (limit <=? List.length acc)%nat then acc else available_nodes h conditions limit rest acc
  end.

(** The binding loop: [None] when a node took the pod, else the error of the last node. *)
Fixpoint bind_first (now : Z) (pod : PodRef) (nodes : list nat) (bindError : option GoError) :
    SM podScheduler (option GoError) :=
  match nodes with
  | [] => sm_ret bindError
  | ptr :: nodes =>
    do! r <- sm_try (bindNode now ptr pod) ;
    match r with
    | Ok _ => sm_ret None
    | Err e => do! _ <- unbindNode ptr pod ; bind_first now pod nodes (Some e)
    end
  end.

Definition schedulePod (now : Z) (pod : PodRef) (candidateNodes : list nat) : SM podScheduler unit :=
  do! p <- load_pod pod ;
  match DeletionTimestamp p with
  | Some _ => do! _ <- RemovePod pod ; sm_fail PodIsDeletedError
  | None =>
    do! ps <- sm_get ;
    let conditions := CalculateScheduleConditions ScheduleConditionBuilders p in
    let availableNodes :=
      available_nodes (node_objs ps) conditions (NumOfEvaluatedNodes (policy ps)) candidateNodes [] in
    match availableNodes with
    | [] => sm_fail InsufficientResourceError
    | _ =>
      do! bindError <- bind_first now pod (sort_nodes ps (NodeSortingMethod (policy ps)) availableNodes) None ;
      match bindError with Some _ => sm_fail PodBindToNodeError | None => sm_ret () end
    end
  end.

(** [scoreNode], which nothing calls: [maxScore] stays -1. *)
Definition calcScore (snode : SchedulableNode) (conditions : list ScheduleCondition) : Z :=
  foldl (fun score v => score + Score v (GetAllocatableResources snode)) 0 conditions.
Definition scoreNode (p : Pod) (nodes : list SchedulableNode) : option SchedulableNode :=
  let conditions := CalculateScheduleConditions ScheduleConditionBuilders p in
  foldl (fun best node => if -1 <? calcScore node conditions then Some node else best) None nodes.

(** ** Chunks *)

Definition GetNodes ps : list nat := (range (nodePool ps)).*2.

Fixpoint chunks (n : nat) (count : nat) (l : list nat) : list (list nat) :=
  match count with O => [] | S count => take n l :: chunks n count (drop n l) end.

(** [int(math.Ceil(float64(len(allNodes)) / float64(numOfNodesPerScheduler)))] *)
Definition num_of_schedulers (len per : nat) : nat := ((len + per - 1) / per)%nat.

Definition initializeChunkSchedulers : SM podScheduler unit := sm_modify (fun ps =>
  let per := NumOfEvaluatedNodes (policy ps) in
  let allNodes := GetNodes ps in
  set_schedulers
    ((fun nodes => sortNodes ps (mkChunk nodes (NodeSortingMethod (policy ps))))
       <$> chunks per (num_of_schedulers (List.length allNodes) per) allNodes) ps).

(** ** Node and pod updates *)

Definition updateNodePool (now : Z) (nodeId : string) (v1node : Node) (updateType : NodeEventType) :
    SM podScheduler unit :=
  let nodeName := Name v1node in
  if decide (updateType = NodeEventTypeDelete) then
    sm_modify (fun ps => set_nodePool (delete nodeName (nodePool ps)) ps)
  else
    do! ps <- sm_get ;
    match nodePool ps !! nodeName with
    | Some ptr =>
      do! snode <- load_node ptr ;
      do! _ <- store_node ptr (set_LastSeen now snode) ;
      if negb (IsNodeRunning v1node)
      then sm_modify (fun ps => set_nodePool (delete nodeName (nodePool ps)) ps)
      else sm_ret ()
    | None =>
      if IsNodeRunning v1node then
        let snode := mkSchedulableNode nodeId v1node now now (GetNodeAllocatableResourceList v1node) ∅ in
        sm_modify (fun ps =>
          mkPS (ps_stop ps) (pod_objs ps) (<[next_node ps := snode]> (node_objs ps)) (next_node ps + 1)%nat
            (<[nodeName := next_node ps]> (nodePool ps)) (scheduleQueue ps) (schedulers ps) (policy ps)
            (ps_world ps))
      else sm_ret ()
    end.

Definition updatePodOccupiedResourceList (ptr : nat) (pod : Pod) (updateType : PodEventType) :
    SM podScheduler unit :=
  do! snode <- load_node ptr ;
  match updateType with
  | PodEventTypeDelete | PodEventTypeTerminate =>
    store_node ptr (ReleasePodOccupiedResourceList snode (GetPodResourceList pod))
  | PodEventTypeCreate =>
    store_node ptr (AdmitPodOccupiedResourceList snode (GetPodResourceList pod))
  | PodEventTypeUpdate => sm_ret ()
  end.

(** The cases of the [select] in [Run]. *)
Definition on_pod_update (update : PodEvent) : SM podScheduler unit :=
  let nodeId :=
    if String.eqb (pe_NodeId update) EmptyString then HostIP (Status (pe_Pod update)) else pe_NodeId update in
  if String.eqb nodeId EmptyString then sm_ret ()
  else
    do! ps <- sm_get ;
    match nodePool ps !! nodeId with
    | Some ptr => updatePodOccupiedResourceList ptr (pe_Pod update) (pe_Type update)
    | None => sm_ret ()
    end.

Definition on_node_update (now : Z) (nodeId : string) (v1node : Node) (t : NodeEventType) :
    SM podScheduler unit :=
  do! ps <- sm_get ;
  let oldSize := size (nodePool ps) in
  do! _ <- updateNodePool now nodeId v1node t ;
  do! ps <- sm_get ;
  if negb (oldSize =? size (nodePool ps))%nat then initializeChunkSchedulers else sm_ret ().

Definition on_tick (timeNow now : Z) : SM podScheduler unit := sm_modify (fun ps =>
  let ps := set_schedulers (sortNodes ps <$> schedulers ps) ps in
  if (0 <? pq_Len (backoffRetryQueue (scheduleQueue ps)))%nat
  then set_queue (ReviveBackoffItem podKey timeNow now (scheduleQueue ps)) ps else ps).

(** ** A polling round *)

(** At most one pod per chunk scheduler. *)
Fixpoint poll_pods (n : nat) : SM podScheduler (list PodRef) :=
  match n with
  | O => sm_ret []
  | S n => fun ps =>
    match q_NextPod podKey (scheduleQueue ps) with
    | (None, q) => (Ok [], set_queue q ps)
    | (Some pod, q) =>
      let ps := set_queue q ps in
      if HasMore q then (do! rest <- poll_pods n ; sm_ret (pod :: rest)) ps else (Ok [pod], ps)
    end
  end.

(** The goroutine of the pod at position [index]: the chunks in turn, then the back-off queue. *)
Fixpoint try_chunks (now : Z) (pod : PodRef) (chunks : list nodeChunkScheduler) (schedErr : option GoError) :
    SM podScheduler (option GoError) :=
  match chunks with
  | [] => sm_ret schedErr
  | c :: chunks =>
    do! r <- sm_try (schedulePod now pod (ck_nodes c)) ;
    match r with Ok _ => sm_ret None | Err e => try_chunks now pod chunks (Some e) end
  end.

Definition rotate_from {A} (index : nat) (l : list A) : list A :=
  let k := (index mod List.length l)%nat in drop k l ++ take k l.

Definition schedule_routine (now : Z) (index : nat) (pod : PodRef) : SM podScheduler unit :=
  do! ps <- sm_get ;
  do! schedErr <- try_chunks now pod (rotate_from index (schedulers ps)) None ;
  match schedErr with
  | Some _ =>
    sm_modify (fun ps =>
      set_queue (q_BackoffPod podKey now (scheduleQueue ps) pod (BackoffDuration (policy ps))) ps)
  | None => sm_ret ()
  end.

(** ** Resource accounting *)

Definition load_free ps : Prop :=
  forall ptr n res, node_objs ps !! ptr = Some n -> accounted res -> 0 <= occupied n res.

(** The usage of the nodes changed by [f], and nothing else about them but [LastUsed]. *)
Definition usage_shift (f : nat -> ResourceName -> Z) ps ps' : Prop :=
  forall ptr, match node_objs ps !! ptr, node_objs ps' !! ptr with
              | Some n, Some n' => NodeId n' = NodeId n /\ sn_ResourceList n' = sn_ResourceList n /\
                  forall res, accounted res -> occupied n' res = occupied n res + f ptr res
              | None, None => True
              | _, _ => False
              end.

Lemma usage_shift_trans f g k ps1 ps2 ps3 :
  usage_shift f ps1 ps2 -> usage_shift g ps2 ps3 ->
  (forall ptr res, accounted res -> k ptr res = f ptr res + g ptr res) -> usage_shift k ps1 ps3.
Proof.
  intros H12 H23 Hk ptr. specialize (H12 ptr). specialize (H23 ptr).
  destruct (node_objs ps1 !! ptr), (node_objs ps2 !! ptr), (node_objs ps3 !! ptr); try done.
  destruct H12 as (E1 & E2 & H12), H23 as (E3 & E4 & H23). split; [congruence|]. split; [congruence|].
  intros res Hres. rewrite H23, H12, Hk by done. lia.
Qed.

Lemma usage_shift_insert f ps ps' ptr n n' :
  node_objs ps !! ptr = Some n -> node_objs ps' = <[ptr := n']> (node_objs ps) ->
  NodeId n' = NodeId n -> sn_ResourceList n' = sn_ResourceList n ->
  (forall res, accounted res -> occupied n' res = occupied n res + f ptr res) ->
  (forall q res, q <> ptr -> f q res = 0) -> usage_shift f ps ps'.
Proof.
  intros Hn Hps' Hid Hcap Hocc Hf q. rewrite Hps', lookup_insert. case_decide as Hq.
  - subst q. rewrite Hn. done.
  - destruct (node_objs ps !! q); [|done]. split; [done|]. split; [done|]. intros res _.
    rewrite Hf by congruence. lia.
Qed.

(** What an attempt leaves alone: the queues, the chunks, the policy. *)
Definition frame ps ps' : Prop :=
  scheduleQueue ps' = scheduleQueue ps /\ schedulers ps' = schedulers ps /\ policy ps' = policy ps.
Lemma frame_trans ps1 ps2 ps3 : frame ps1 ps2 -> frame ps2 ps3 -> frame ps1 ps3.
Proof. intros (? & ? & ?) (? & ? & ?). split_and!; congruence. Qed.

(** The pod object up to its status. *)
Definition same_pod (p p' : Pod) : Prop := Spec p' = Spec p /\ om p' = om p.

(** The pod [p] placed on the node [ptr]. *)
Definition placed (ptr : nat) (p : Pod) : nat -> ResourceName -> Z := fun q res =>
  if decide (q = ptr) then request (GetPodResourceList p) res else 0.

Lemma placed_ne ptr p q res : q <> ptr -> placed ptr p q res = 0.
Proof. intros Hq. unfold placed. by rewrite decide_False. Qed.
Lemma placed_eq ptr p res : placed ptr p ptr res = request (GetPodResourceList p) res.
Proof. unfold placed. by rewrite decide_True. Qed.

Lemma bindNode_effect now ptr pod ps n p :
  load_free ps -> node_objs ps !! ptr = Some n -> pod_objs ps !! ref_ptr pod = Some p ->
  let ps' := (bindNode now ptr pod ps).2 in
  usage_shift (placed ptr p) ps ps' /\ load_free ps' /\
  pod_objs ps' !! ref_ptr pod = Some (scheduled_pod now (NodeId n) p) /\ frame ps ps'.
Proof.
  intros Hfree Hn Hp ps'. subst ps'. unfold bindNode, load_node, load_pod, agent_call. sm_simpl.
  rewrite Hn. sm_simpl. rewrite Hp. sm_simpl.
  unfold store_node, store_pod. sm_simpl.
  match goal with |- context [na_CreatePod ?a ?b ?c] => destruct (na_CreatePod a b c) as [r w] end.
  set (n' := set_LastUsed now (AdmitPodOccupiedResourceList n (GetPodResourceList p))).
  assert (forall res, accounted res -> occupied n' res = occupied n res + request (GetPodResourceList p) res) as Hocc.
  { intros res Hres. change (occupied n' res) with (occupied (AdmitPodOccupiedResourceList n (GetPodResourceList p)) res).
    rewrite Admit_occupied by done. pose proof (Hfree _ _ _ Hn Hres).
    pose proof (GetPodResourceList_nonneg p res). lia. }
  cbn [snd]. split; [|split; [|split; [|done]]].
  - eapply (usage_shift_insert _ _ _ ptr n n'); [done|done|done|done| |apply placed_ne].
    intros res Hres. by rewrite placed_eq, Hocc.
  - intros q m res. simpl. intros [[<- <-]|[_ Hq]]%lookup_insert_Some Hres; [|by eapply Hfree].
    rewrite Hocc by done. pose proof (Hfree _ _ _ Hn Hres). pose proof (GetPodResourceList_nonneg p res). lia.
  - simpl. apply lookup_insert_eq.
Qed.

Lemma unbindNode_effect ptr pod ps n p :
  load_free ps -> node_objs ps !! ptr = Some n -> pod_objs ps !! ref_ptr pod = Some p ->
  (forall res, accounted res -> request (GetPodResourceList p) res <= occupied n res) ->
  exists ps', unbindNode ptr pod ps = (Ok (), ps') /\ load_free ps' /\
    usage_shift (fun q res => - placed ptr p q res) ps ps' /\
    pod_objs ps' !! ref_ptr pod = Some (unscheduled_pod p) /\ frame ps ps'.
Proof.
  intros Hfree Hn Hp Hle. unfold unbindNode, load_node, load_pod. sm_simpl. rewrite Hn. sm_simpl.
  rewrite Hp. unfold store_node, store_pod. sm_simpl. eexists. split; [done|].
  set (n' := ReleasePodOccupiedResourceList n (GetPodResourceList p)).
  assert (forall res, accounted res -> occupied n' res = occupied n res - request (GetPodResourceList p) res) as Hocc.
  { intros res Hres. subst n'. rewrite Release_occupied by done. pose proof (Hle res Hres). lia. }
  split; [|split; [|split; [|done]]].
  - intros q m res. simpl. intros [[<- <-]|[_ Hq]]%lookup_insert_Some Hres; [|by eapply Hfree].
    rewrite Hocc by done. pose proof (Hle res Hres). lia.
  - eapply (usage_shift_insert _ _ _ ptr n n'); [done|done|done|done| |].
    + intros res Hres. rewrite placed_eq, Hocc by done. lia.
    + intros q res Hq. rewrite placed_ne by done. lia.
  - simpl. apply lookup_insert_eq.
Qed.

Lemma usage_shift_some f ps ps' ptr n :
  usage_shift f ps ps' -> node_objs ps !! ptr = Some n ->
  exists n', node_objs ps' !! ptr = Some n' /\ NodeId n' = NodeId n /\
    sn_ResourceList n' = sn_ResourceList n /\
    forall res, accounted res -> occupied n' res = occupied n res + f ptr res.
Proof.
  intros Hs Hn. specialize (Hs ptr). rewrite Hn in Hs.
  destruct (node_objs ps' !! ptr) as [n'|]; [|done]. by exists n'.
Qed.

Lemma scheduled_resources now nodeId (p : Pod) :
  GetPodResourceList (scheduled_pod now nodeId p) = GetPodResourceList p.
Proof. done. Qed.

(** One refused attempt leaves the usage as it was. *)
Lemma refused_attempt now ptr pod ps n p e ps1 :
  load_free ps -> node_objs ps !! ptr = Some n -> pod_objs ps !! ref_ptr pod = Some p ->
  bindNode now ptr pod ps = (Err e, ps1) ->
  exists ps', unbindNode ptr pod ps1 = (Ok (), ps') /\ load_free ps' /\
    usage_shift (fun _ _ => 0) ps ps' /\ frame ps ps' /\
    exists p', pod_objs ps' !! ref_ptr pod = Some p' /\ same_pod p p'.
Proof.
  intros Hfree Hn Hp Hb. pose proof (bindNode_effect now ptr pod ps n p Hfree Hn Hp) as He.
  rewrite Hb in He. simpl in He. destruct He as (Hs & Hfree1 & Hp1 & Hfr1).
  destruct (usage_shift_some _ _ _ _ _ Hs Hn) as (n1 & Hn1 & _ & _ & Hocc).
  destruct (unbindNode_effect ptr pod ps1 n1 _ Hfree1 Hn1 Hp1) as (ps' & Hu & Hfree' & Hs' & Hp' & Hfr').
  { intros res Hres. rewrite Hocc, placed_eq by done. pose proof (Hfree _ _ _ Hn Hres).
    rewrite scheduled_resources. lia. }
  exists ps'. split; [done|]. split; [done|]. split; [|split; [by eapply frame_trans|by eexists]].
  eapply usage_shift_trans; [exact Hs|exact Hs'|]. intros q res Hres.
  unfold placed. rewrite scheduled_resources. lia.
Qed.

(** The outcome of an attempt on some nodes: the pod sits on one of them, or nothing changed. *)
Definition outcome (now : Z) (pod : PodRef) (p : Pod) (nodes : list nat) (bound : bool) ps ps' : Prop :=
  if bound then
    exists ptr n p', ptr ∈ nodes /\ node_objs ps !! ptr = Some n /\
      usage_shift (placed ptr p) ps ps' /\ pod_objs ps' !! ref_ptr pod = Some p' /\
      HostIP (Status p') = NodeId n /\ StartTime (Status p') = Some now
  else
    usage_shift (fun _ _ => 0) ps ps' /\ exists p', pod_objs ps' !! ref_ptr pod = Some p' /\ same_pod p p'.

Lemma usage_shift_refl ps ps' : node_objs ps' = node_objs ps -> usage_shift (fun _ _ => 0) ps ps'.
Proof.
  intros Heq q. rewrite Heq. destruct (node_objs ps !! q); [|done]. split; [done|]. split; [done|]. intros. lia.
Qed.

(** A failed attempt followed by another one. *)
Lemma outcome_after now pod p p1 nodes nodes' b ps ps1 ps' :
  usage_shift (fun _ _ => 0) ps ps1 -> same_pod p p1 -> nodes' ⊆ nodes ->
  outcome now pod p1 nodes' b ps1 ps' -> outcome now pod p nodes b ps ps'.
Proof.
  intros Hs [Hspec Hom] Hsub. destruct b; simpl.
  - intros (q & m & p' & Hq & Hm & Hs' & Hp' & Hip).
    destruct (node_objs ps !! q) as [m0|] eqn:Hm0; [|specialize (Hs q); by rewrite Hm0, Hm in Hs].
    destruct (usage_shift_some _ _ _ _ _ Hs Hm0) as (m' & Hm' & Hid & _). simplify_eq.
    exists q, m0, p'. split; [by apply Hsub|]. split; [done|]. split; [|by rewrite <- Hid].
    eapply usage_shift_trans; [exact Hs|exact Hs'|]. intros x res _. unfold placed, GetPodResourceList.
    by rewrite Hspec.
  - intros [Hs' (p' & Hp' & Hspec' & Hom')]. split; [by eapply usage_shift_trans|].
    exists p'. split; [done|]. split; congruence.
Qed.

Lemma bind_first_spec now pod nodes ps p err :
  load_free ps -> pod_objs ps !! ref_ptr pod = Some p ->
  Forall (fun ptr => is_Some (node_objs ps !! ptr)) nodes -> nodes <> [] \/ err <> None ->
  exists r ps', bind_first now pod nodes err ps = (Ok r, ps') /\ load_free ps' /\ frame ps ps' /\
    outcome now pod p nodes (bool_decide (r = None)) ps ps'.
Proof.
  revert ps p err. induction nodes as [|ptr nodes IH]; intros ps p err Hfree Hp Hv Hne.
  { exists err, ps. destruct err; [|by destruct Hne]. split; [done|]. split; [done|]. split; [done|].
    split; [by apply usage_shift_refl|by eexists]. }
  apply Forall_cons in Hv as [[n Hn] Hv]. simpl. rewrite sm_bind_eq. unfold sm_try.
  destruct (bindNode now ptr pod ps) as [r ps1] eqn:Hb. cbv iota. destruct r as [[]|e].
  - pose proof (bindNode_effect now ptr pod ps n p Hfree Hn Hp) as He. rewrite Hb in He. simpl in He.
    destruct He as (Hs & Hfree1 & Hp1 & Hfr). exists None, ps1. split; [done|]. split; [done|].
    split; [done|]. exists ptr, n, (scheduled_pod now (NodeId n) p). split; [left|]. done.
  - destruct (refused_attempt now ptr pod ps n p e ps1 Hfree Hn Hp Hb)
      as (ps2 & Hu & Hfree2 & Hs2 & Hfr2 & p2 & Hp2 & Hsp).
    rewrite sm_bind_eq, Hu. cbv iota.
    destruct (IH ps2 p2 (Some e) Hfree2 Hp2) as (r & ps' & Hbf & Hfree' & Hfr' & Hr); [|by right|].
    { eapply Forall_impl; [exact Hv|]. intros q [m Hm].
      destruct (usage_shift_some _ _ _ _ _ Hs2 Hm) as (m' & Hm' & _). by exists m'. }
    exists r, ps'. split; [done|]. split; [done|]. split; [by eapply frame_trans|].
    apply (outcome_after now pod p p2 (ptr :: nodes) nodes _ ps ps2 ps'); [done|done|set_solver|done].
Qed.

Lemma available_nodes_spec h conds limit cands acc ptr :
  ptr ∈ available_nodes h conds limit cands acc ->
  ptr ∈ acc \/ ptr ∈ cands /\ exists n, h !! ptr = Some n /\
    forallb (fun c => Apply c (GetAllocatableResources n)) conds = true.
Proof.
  revert acc. induction cands as [|q cands IH]; intros acc; simpl; [auto|].
  set (good := match h !! q with Some n => _ | None => false end).
  assert (forall x, x ∈ (if good then acc ++ [q] else acc) -> x ∈ acc \/ x = q /\ good = true) as Hacc.
  { intros x. destruct good; [|auto]. rewrite elem_of_app, list_elem_of_singleton. naive_solver. }
  assert (good = true -> exists n, h !! q = Some n /\
    forallb (fun c => Apply c (GetAllocatableResources n)) conds = true) as Hgood.
  { subst good. destruct (h !! q) as [n|]; [|done]. eauto. }
  destruct (limit <=? _)%nat; [intros Hx|intros [Hx|Hx]%IH].
  - apply Hacc in Hx as [?|[-> ?]]; [by left|]. right. split; [left|by apply Hgood].
  - apply Hacc in Hx as [?|[-> ?]]; [by left|]. right. split; [left|by apply Hgood].
  - right. destruct Hx. split; [by right|done].
Qed.

(** No node is loaded beyond its capacity. *)
Definition within_capacity ps : Prop :=
  forall ptr n res, node_objs ps !! ptr = Some n -> res = ResourceCPU \/ res = ResourceMemory ->
    occupied n res <= capacity n res.

Lemma within_shift f ps ps' :
  within_capacity ps -> usage_shift f ps ps' ->
  (forall ptr n res, node_objs ps !! ptr = Some n -> res = ResourceCPU \/ res = ResourceMemory ->
     f ptr res <= 0 \/ occupied n res + f ptr res <= capacity n res) ->
  within_capacity ps'.
Proof.
  intros Hcap Hs Hf ptr n' res Hn' Hres. specialize (Hs ptr). rewrite Hn' in Hs.
  destruct (node_objs ps !! ptr) as [n|] eqn:Hn; [|done]. destruct Hs as (_ & Hrl & Hocc).
  assert (accounted res) as Ha by (unfold accounted; tauto).
  unfold capacity. rewrite Hrl, Hocc by done. fold (capacity n res).
  specialize (Hcap _ _ _ Hn Hres). specialize (Hf _ _ _ Hn Hres). lia.
Qed.

(** A node that meets the conditions of a pod has room for its requests. *)
Lemma fits_request n (p : Pod) res :
  forallb (fun c => Apply c (GetAllocatableResources n))
    (CalculateScheduleConditions ScheduleConditionBuilders p) = true ->
  res = ResourceCPU \/ res = ResourceMemory ->
  request (GetPodResourceList p) res <= 0 \/
  occupied n res + request (GetPodResourceList p) res <= capacity n res.
Proof.
  cbn [CalculateScheduleConditions ScheduleConditionBuilders fmap list_fmap forallb].
  rewrite !andb_true_iff. intros (Hc & Hm & _) Hres.
  assert (forall c, Apply c (GetAllocatableResources n) = true -> cond_resource c = res ->
    qval (cond_quantity c) = request (GetPodResourceList p) res ->
    occupied n res + request (GetPodResourceList p) res <= capacity n res) as Hfit.
  { intros c Ha Hr Hq. pose proof (GetPodResourceList_nonneg p res).
    apply Apply_spec in Ha; [|lia]. rewrite Hr, Hq in Ha. lia. }
  destruct (Z.ltb_spec 0 (request (GetPodResourceList p) res)) as [Hpos|]; [|by left]. right.
  unfold request in Hpos. destruct Hres as [->| ->].
  - apply (Hfit _ Hc); [done|]. simpl. rewrite qSign_pos. by destruct (Z.ltb_spec 0 (qval (rl_get (GetPodResourceList p) ResourceCPU))); [|lia].
  - apply (Hfit _ Hm); [done|]. simpl. rewrite qSign_pos. by destruct (Z.ltb_spec 0 (qval (rl_get (GetPodResourceList p) ResourceMemory))); [|lia].
Qed.

Lemma outcome_within now pod p nodes b ps ps' :
  within_capacity ps -> outcome now pod p nodes b ps ps' ->
  (forall ptr n, ptr ∈ nodes -> node_objs ps !! ptr = Some n ->
     forallb (fun c => Apply c (GetAllocatableResources n))
       (CalculateScheduleConditions ScheduleConditionBuilders p) = true) ->
  within_capacity ps'.
Proof.
  intros Hcap Ho Hfit. destruct b; simpl in Ho.
  - destruct Ho as (ptr & n & p' & Hptr & Hn & Hs & _). apply (within_shift _ _ _ Hcap Hs).
    intros q m res Hm Hres. unfold placed. case_decide; [|lia]. subst q.
    apply fits_request; [by eapply Hfit|done].
  - destruct Ho as [Hs _]. apply (within_shift _ _ _ Hcap Hs). intros. lia.
Qed.

Abbreviation queue_inv ps := (sq_inv podKey (scheduleQueue ps)).

(** The queues up to the pod that is being scheduled. *)
Definition queue_kept (pod : PodRef) ps ps' : Prop :=
  queue_inv ps' /\
  (forall n, n <> podKey pod ->
     (n ∈ names podKey (activeQueue (scheduleQueue ps')) <-> n ∈ names podKey (activeQueue (scheduleQueue ps))) /\
     (n ∈ names podKey (backoffRetryQueue (scheduleQueue ps')) <->
      n ∈ names podKey (backoffRetryQueue (scheduleQueue ps)))) /\
  schedulers ps' = schedulers ps /\ policy ps' = policy ps.

Lemma frame_queue_kept pod ps ps' : queue_inv ps -> frame ps ps' -> queue_kept pod ps ps'.
Proof. intros Hq (E1 & E2 & E3). unfold queue_kept. rewrite E1. done. Qed.

Lemma queue_kept_trans pod ps1 ps2 ps3 :
  queue_kept pod ps1 ps2 -> queue_kept pod ps2 ps3 -> queue_kept pod ps1 ps3.
Proof.
  intros (_ & H12 & E1 & E2) (Hq & H23 & E3 & E4). split; [done|]. split; [|split; congruence].
  intros n Hn. destruct (H12 n Hn), (H23 n Hn). split; by etrans.
Qed.

Lemma schedulePod_effect now pod cands ps p :
  pod_objs ps !! ref_ptr pod = Some p -> load_free ps -> within_capacity ps -> queue_inv ps ->
  exists r ps', schedulePod now pod cands ps = (r, ps') /\ load_free ps' /\ within_capacity ps' /\
    queue_kept pod ps ps' /\
    outcome now pod p cands (match r with Ok _ => true | Err _ => false end) ps ps'.
Proof.
  intros Hp Hfree Hcap Hq. unfold schedulePod, load_pod. sm_simpl. rewrite Hp. sm_simpl.
  assert (forall ps', node_objs ps' = node_objs ps -> pod_objs ps' = pod_objs ps ->
    outcome now pod p cands false ps ps') as Hsame.
  { intros ps' E1 E2. split; [by apply usage_shift_refl|]. exists p. by rewrite E2. }
  destruct (DeletionTimestamp p) as [t|].
  { unfold RemovePod. sm_simpl. eexists _, _. split; [done|]. split; [exact Hfree|]. split; [exact Hcap|].
    split; [|by apply Hsame]. destruct (q_RemovePod_spec podKey (scheduleQueue ps) pod Hq) as (Hq' & Ha & Hb).
    split; [done|]. split; [|done]. intros n Hn. simpl. rewrite Ha, Hb. tauto. }
  sm_simpl. set (conds := CalculateScheduleConditions ScheduleConditionBuilders p).
  set (av := available_nodes (node_objs ps) conds _ cands []).
  assert (forall ptr, ptr ∈ av -> ptr ∈ cands /\ exists n, node_objs ps !! ptr = Some n /\
    forallb (fun c => Apply c (GetAllocatableResources n)) conds = true) as Hav.
  { intros ptr [Hx|Hx]%available_nodes_spec; [by apply elem_of_nil in Hx|done]. }
  destruct av as [|a0 av'] eqn:Hne.
  { sm_simpl. eexists _, ps. split; [done|]. split; [done|]. split; [done|].
    split; [by apply frame_queue_kept|by apply Hsame]. }
  rewrite <- Hne in Hav |- *. sm_simpl. set (sorted := sort_nodes ps _ av).
  assert (forall ptr, ptr ∈ sorted <-> ptr ∈ av) as Hsorted.
  { intros ptr. unfold sorted, sort_nodes. by rewrite gosort_perm. }
  destruct (bind_first_spec now pod sorted ps p None Hfree Hp) as (r & ps' & Hb & Hfree' & Hfr & Hr).
  { apply Forall_forall. intros ptr Hptr%Hsorted. destruct (Hav ptr Hptr) as (_ & n & Hn & _). by exists n. }
  { left. intros Hnil. apply (not_elem_of_nil a0). rewrite <- Hnil, Hsorted, Hne. left. }
  assert (within_capacity ps') as Hcap'.
  { eapply outcome_within; [exact Hcap|exact Hr|]. intros ptr n Hptr%Hsorted Hn.
    destruct (Hav ptr Hptr) as (_ & n' & Hn' & Hfit). by simplify_eq. }
  rewrite Hb. destruct r as [e|]; sm_simpl; eexists _, ps'.
  - split; [done|]. split; [done|]. split; [done|]. split; [by apply frame_queue_kept|exact Hr].
  - split; [done|]. split; [done|]. split; [done|]. split; [by apply frame_queue_kept|].
    destruct Hr as (ptr & n & p' & Hptr & Hrest). exists ptr, n, p'. split; [|done].
    by apply Hsorted, Hav in Hptr as [? _].
Qed.

(** C11: placing a pod never overcommits a node.  Whatever the node agents answer, an attempt to
    schedule a pod leaves CPU and memory of every node within capacity; when it succeeds exactly
    one of the candidates carries the request of the pod on top of what it had, and the pod points
    to that node; when it fails the usage of every node is as before. *)
Theorem schedule_pod_never_overcommits now pod cands ps p :
  pod_objs ps !! ref_ptr pod = Some p -> load_free ps -> within_capacity ps -> queue_inv ps ->
  exists r ps', schedulePod now pod cands ps = (r, ps') /\ load_free ps' /\ within_capacity ps' /\
    match r with
    | Ok _ => exists ptr n p', ptr ∈ cands /\ node_objs ps !! ptr = Some n /\
        usage_shift (placed ptr p) ps ps' /\ pod_objs ps' !! ref_ptr pod = Some p' /\
        HostIP (Status p') = NodeId n /\ StartTime (Status p') = Some now
    | Err _ => usage_shift (fun _ _ => 0) ps ps'
    end.
Proof.
  intros Hp Hfree Hcap Hq.
  destruct (schedulePod_effect now pod cands ps p Hp Hfree Hcap Hq) as (r & ps' & Hs & Hf & Hc & _ & Ho).
  exists r, ps'. split; [done|]. split; [done|]. split; [done|]. destruct r; [exact Ho|apply Ho].
Qed.

(** ** A pod is never lost *)

Lemma try_chunks_effect now pod cs ps p err :
  pod_objs ps !! ref_ptr pod = Some p -> load_free ps -> within_capacity ps -> queue_inv ps ->
  cs <> [] \/ err <> None ->
  exists r ps', try_chunks now pod cs err ps = (Ok r, ps') /\ load_free ps' /\ within_capacity ps' /\
    queue_kept pod ps ps' /\ outcome now pod p (cs ≫= ck_nodes) (bool_decide (r = None)) ps ps'.
Proof.
  revert ps p err. induction cs as [|c cs IH]; intros ps p err Hp Hfree Hcap Hq Hne.
  { exists err, ps. destruct err; [|by destruct Hne]. split; [done|]. split; [done|]. split; [done|].
    split; [by apply frame_queue_kept|]. split; [by apply usage_shift_refl|by eexists]. }
  simpl. rewrite sm_bind_eq. unfold sm_try.
  destruct (schedulePod_effect now pod (ck_nodes c) ps p Hp Hfree Hcap Hq)
    as (r & ps1 & -> & Hf1 & Hc1 & Hq1 & Ho). cbv iota. destruct r as [[]|e].
  - exists None, ps1. split; [done|]. split; [done|]. split; [done|]. split; [done|].
    destruct Ho as (ptr & n & p' & Hptr & Hrest). exists ptr, n, p'. split; [|done]. csimpl. set_solver.
  - destruct Ho as [Hs (p1 & Hp1 & Hsp)].
    destruct (IH ps1 p1 (Some e) Hp1 Hf1 Hc1 (proj1 Hq1)) as (r & ps' & Ht & Hf' & Hc' & Hq' & Ho'); [by right|].
    exists r, ps'. split; [done|]. split; [done|]. split; [done|]. split; [by eapply queue_kept_trans|].
    apply (outcome_after now pod p p1 _ (cs ≫= ck_nodes) _ ps ps1 ps'); [done|done| |done].
    csimpl. set_solver.
Qed.

Lemma rotate_from_elem {A} index (l : list A) x : x ∈ rotate_from index l <-> x ∈ l.
Proof.
  unfold rotate_from. set (k := (index mod List.length l)%nat).
  rewrite <- (take_drop k l) at 3. rewrite !elem_of_app. tauto.
Qed.

Lemma rotate_from_not_nil {A} index (l : list A) : l <> [] -> rotate_from index l <> [].
Proof.
  destruct l as [|x l]; [done|]. intros _ Hnil. apply (not_elem_of_nil x). rewrite <- Hnil.
  apply rotate_from_elem. left.
Qed.

Lemma schedule_routine_effect now index pod ps p :
  pod_objs ps !! ref_ptr pod = Some p -> load_free ps -> within_capacity ps -> queue_inv ps ->
  schedulers ps <> [] ->
  exists r ps1 ps', try_chunks now pod (rotate_from index (schedulers ps)) None ps = (Ok r, ps1) /\
    schedule_routine now index pod ps = (Ok (), ps') /\ within_capacity ps' /\
    queue_kept pod ps ps' /\
    outcome now pod p (schedulers ps ≫= ck_nodes) (bool_decide (r = None)) ps ps' /\
    (r <> None -> podKey pod ∈ names podKey (backoffRetryQueue (scheduleQueue ps'))).
Proof.
  intros Hp Hfree Hcap Hq Hne. unfold schedule_routine. sm_simpl.
  destruct (try_chunks_effect now pod (rotate_from index (schedulers ps)) ps p None Hp Hfree Hcap Hq)
    as (r & ps1 & Ht & Hf & Hc & Hk & Ho).
  { left. by apply rotate_from_not_nil. }
  assert (outcome now pod p (schedulers ps ≫= ck_nodes) (bool_decide (r = None)) ps ps1) as Ho'.
  { destruct (bool_decide (r = None)); [|exact Ho]. destruct Ho as (ptr & n & p' & Hptr & Hrest).
    exists ptr, n, p'. split; [|done]. apply list_elem_of_bind in Hptr as (c & Hc1 & Hc2).
    apply rotate_from_elem in Hc2. apply list_elem_of_bind. by exists c. }
  rewrite Ht. destruct r as [e|]; sm_simpl.
  - eexists _, _, _. split; [done|]. split; [done|]. split; [exact Hc|]. split; [|split; [exact Ho'|]].
    + destruct (q_BackoffPod_spec podKey now (scheduleQueue ps1) pod (BackoffDuration (policy ps1)) (proj1 Hk))
        as (Hq' & Ha & Hb). eapply queue_kept_trans; [exact Hk|].
      split; [done|]. split; [|done]. intros n Hn. simpl. rewrite Ha, Hb. tauto.
    + intros _. simpl. apply (q_BackoffPod_spec podKey now _ _ _ (proj1 Hk)). by left.
  - by exists None, ps1, ps1.
Qed.

(** C12: no pod is lost by a scheduling round.  The goroutine of a polled pod ends with the pod placed on
    one node of one of the chunks, the node charged with its request, or with the pod in the
    back-off queue and every node as it was; the other pods keep their place in the queues. *)
Theorem polled_pod_placed_or_backed_off now index pod ps p :
  pod_objs ps !! ref_ptr pod = Some p -> load_free ps -> within_capacity ps -> queue_inv ps ->
  schedulers ps <> [] ->
  exists ps', schedule_routine now index pod ps = (Ok (), ps') /\ within_capacity ps' /\
    queue_kept pod ps ps' /\
    (outcome now pod p (schedulers ps ≫= ck_nodes) true ps ps' \/
     outcome now pod p [] false ps ps' /\
     podKey pod ∈ names podKey (backoffRetryQueue (scheduleQueue ps'))).
Proof.
  intros Hp Hfree Hcap Hq Hne.
  destruct (schedule_routine_effect now index pod ps p Hp Hfree Hcap Hq Hne)
    as (r & ps1 & ps' & _ & Hs & Hc & Hk & Ho & Hb).
  exists ps'. split; [done|]. split; [done|]. split; [done|]. destruct r as [e|]; [right|by left].
  split; [exact Ho|by apply Hb].
Qed.

Lemma try_chunks_deleted now pod p t cs ps e :
  DeletionTimestamp p = Some t -> pod_objs ps !! ref_ptr pod = Some p -> cs <> [] \/ e = Some PodIsDeletedError ->
  (try_chunks now pod cs e ps).1 = Ok (Some PodIsDeletedError).
Proof.
  intros Ht. revert ps e. induction cs as [|c cs IH]; intros ps e Hp Hne.
  { destruct Hne as [?| ->]; done. }
  simpl. rewrite sm_bind_eq. unfold sm_try. unfold schedulePod at 1, load_pod. sm_simpl. rewrite Hp. sm_simpl.
  rewrite Ht. unfold RemovePod. sm_simpl. apply IH; [done|by right].
Qed.

(** A pod that was deleted while it waited is not dropped: the attempt removes it from the queue,
    as the log message says, but its error makes the round put it into the back-off queue, from
    where it is tried again and again. *)
Theorem deleted_pod_backed_off now index pod ps p t :
  pod_objs ps !! ref_ptr pod = Some p -> DeletionTimestamp p = Some t ->
  load_free ps -> within_capacity ps -> queue_inv ps -> schedulers ps <> [] ->
  podKey pod ∈ names podKey (backoffRetryQueue (scheduleQueue (schedule_routine now index pod ps).2)).
Proof.
  intros Hp Ht Hfree Hcap Hq Hne.
  destruct (schedule_routine_effect now index pod ps p Hp Hfree Hcap Hq Hne)
    as (r & ps1 & ps' & Htc & Hs & _ & _ & _ & Hb).
  rewrite Hs. apply Hb.
  pose proof (try_chunks_deleted now pod p t (rotate_from index (schedulers ps)) ps None Ht Hp) as Hd.
  rewrite Htc in Hd. simpl in Hd.
  assert (Ok r = Ok (Some PodIsDeletedError)) as [= ->]; [|done].
  apply Hd. left. by apply rotate_from_not_nil.
Qed.

(** ** The chunks *)

Lemma concat_chunks n count l : List.concat (chunks n count l) = take (n * count) l.
Proof.
  revert l. induction count as [|count IH]; intros l; simpl; [by rewrite Nat.mul_0_r|].
  rewrite IH, Nat.mul_succ_r, Nat.add_comm. apply take_take_drop.
Qed.

Lemma num_of_schedulers_enough len per : (0 < per)%nat -> (len <= per * num_of_schedulers len per)%nat.
Proof.
  intros Hp. unfold num_of_schedulers. pose proof (Nat.div_mod_eq (len + per - 1) per).
  pose proof (Nat.mod_upper_bound (len + per - 1) per). lia.
Qed.

Lemma chunks_length n count l : Forall (fun c => (List.length c <= n)%nat) (chunks n count l).
Proof.
  revert l. induction count as [|count IH]; intros l; simpl; constructor; [|apply IH].
  rewrite length_take. lia.
Qed.

(** The chunks split the schedulable nodes: every node of the pool is in exactly one place of exactly
    one chunk, and no chunk is larger than the policy allows. *)
Theorem chunks_partition_nodes ps :
  (0 < NumOfEvaluatedNodes (policy ps))%nat ->
  let ps' := (initializeChunkSchedulers ps).2 in
  List.concat (ck_nodes <$> schedulers ps') ≡ₚ (map_to_list (nodePool ps)).*2 /\
  Forall (fun c => (List.length (ck_nodes c) <= NumOfEvaluatedNodes (policy ps))%nat) (schedulers ps').
Proof.
  intros Hper ps'. set (per := NumOfEvaluatedNodes (policy ps)) in *.
  set (cs := chunks per (num_of_schedulers (List.length (GetNodes ps)) per) (GetNodes ps)).
  assert (schedulers ps' = (fun nodes => sortNodes ps (mkChunk nodes (NodeSortingMethod (policy ps)))) <$> cs)
    as -> by done. split.
  - assert (List.concat cs ≡ₚ (map_to_list (nodePool ps)).*2) as <-.
    { unfold cs. rewrite concat_chunks, take_ge by (by apply num_of_schedulers_enough).
      unfold GetNodes. by rewrite range_perm. }
    clearbody cs. induction cs as [|c cs IH]; [done|]. csimpl. rewrite IH. f_equiv.
    unfold sort_nodes. apply gosort_perm.
  - apply Forall_fmap. eapply Forall_impl; [apply chunks_length|]. intros c Hc. simpl.
    unfold sort_nodes. by rewrite gosort_perm.
Qed.
End PodScheduler.

(** ** A concrete scheduler: one node, one waiting pod *)

(** An agent that refuses the pods of the nodes in its list. *)
#[export] Instance refusing_agent : NodeAgentClient (list string) | 100 := {|
  na_CreatePod := fun nodeId _ w => (if decide (nodeId ∈ w) then Err NodeNotFoundError else Ok (), w);
  na_TerminatePod := fun _ _ w => (Ok (), w);
  na_HibernatePod := fun _ _ w => (Ok (), w);
  na_OpenSession := fun _ _ _ w => (Ok (), w);
  na_CloseSession := fun _ _ _ w => (Ok (), w)
|}.

Definition example_node (nodeId : string) : SchedulableNode :=
  mkSchedulableNode nodeId
    (mkObject (mkObjectMeta nodeId "" nodeId "1" 0 None None ∅ ∅ []) (mkNodeSpec "" [])
      (mkNodeStatus _ NodeRunning [] ∅)) 0 0
    {[ ResourceCPU := NewQuantity 4; ResourceMemory := NewQuantity 1000000 ]} ∅.

Definition waiting_pod (deleted : option Z) : Pod :=
  mkObject (mkObjectMeta "p" "ns" "p" "1" 0 deleted None ∅ ∅ [])
    (mkPodSpec _ [mkContainer _ "c" "image" [] [] {[ ResourceCPU := NewQuantity 2 ]} no_hooks] [] false)
    (mkPodStatus PodPending "" None "" "").
Definition waiting_ref : PodRef := mkPodRef 0 "ns/p".

Definition example_scheduler (deleted : option Z) (w : list string) : podScheduler :=
  mkPS false {[ 0%nat := waiting_pod deleted ]} {[ 0%nat := example_node "n1" ]} 1 {[ "n1" := 0%nat ]}
    NewScheduleQueue [mkChunk [0%nat] NodeSortingMethodLessLastUse]
    (mkSchedulePolicy 5 5 NodeSortingMethodLessLastUse) w.

Lemma example_scheduler_ok deleted w :
  load_free (example_scheduler deleted w) /\ within_capacity (example_scheduler deleted w) /\
  sq_inv ref_name (scheduleQueue (example_scheduler deleted w)).
Proof.
  split; [|split; [|apply sq_inv_new]].
  - intros ptr n res Hn. cbn [example_scheduler node_objs] in Hn.
    apply lookup_singleton_Some in Hn as [<- <-]. intros [->|[->| ->]]; vm_compute; congruence.
  - intros ptr n res Hn. cbn [example_scheduler node_objs] in Hn.
    apply lookup_singleton_Some in Hn as [<- <-]. intros [->| ->]; vm_compute; congruence.
Qed.

Lemma schedule_pod_never_overcommits_witness :
  exists r ps', schedulePod 7 waiting_ref [0%nat] (example_scheduler None []) = (r, ps') /\
    within_capacity ps'.
Proof.
  destruct (example_scheduler_ok None []) as (Hf & Hc & Hq).
  destruct (schedule_pod_never_overcommits 7 waiting_ref [0%nat] (example_scheduler None []) (waiting_pod None)
    eq_refl Hf Hc Hq) as (r & ps' & Hs & _ & Hc' & _).
  exists r, ps'. split; [exact Hs|exact Hc'].
Defined.

Lemma polled_pod_placed_or_backed_off_witness :
  exists ps', schedule_routine 7 0 waiting_ref (example_scheduler None ["n1"%string]) = (Ok (), ps') /\
    within_capacity ps'.
Proof.
  destruct (example_scheduler_ok None ["n1"%string]) as (Hf & Hc & Hq).
  destruct (polled_pod_placed_or_backed_off 7 0 waiting_ref (example_scheduler None ["n1"%string])
    (waiting_pod None) eq_refl Hf Hc Hq) as (ps' & Hs & Hc' & _); [discriminate|].
  exists ps'. split; [exact Hs|exact Hc'].
Defined.

Lemma deleted_pod_backed_off_witness :
  "ns/p"%string ∈ names ref_name (backoffRetryQueue (scheduleQueue
    (schedule_routine 7 0 waiting_ref (example_scheduler (Some 5) [])).2)).
Proof.
  destruct (example_scheduler_ok (Some 5) []) as (Hf & Hc & Hq).
  apply (deleted_pod_backed_off 7 0 waiting_ref (example_scheduler (Some 5) []) (waiting_pod (Some 5)) 5
    eq_refl eq_refl Hf Hc Hq). discriminate.
Defined.

Lemma chunks_partition_nodes_witness :
  List.concat (ck_nodes <$> schedulers (initializeChunkSchedulers (example_scheduler None [])).2) ≡ₚ [0%nat].
Proof. apply (chunks_partition_nodes (example_scheduler None [])). simpl. lia. Defined.
