(* ===== verification/PodManager.v ===== *)
(** * The pod manager ([pkg/fornaxcore/pod/pod_manager.go])

    The cache of all pods with the node each one is on, the events it sends to its watchers, and the
    calls to the scheduler and the node agents.  The cache holds pointers, so the pod objects live in
    a heap: a pod that waits in the scheduler is the very object in the cache. *)

From S2P Require Import Prelude GoStrings ApiTypes Interfaces.
From Stdlib Require Import String.
#[local] Open Scope Z_scope.

Definition DefaultDeletionGracefulSeconds : Z := 30.

Record PodWithFornaxNodeState := mkPodState { v1pod : nat; pst_nodeId : string }.

Section PodManager.
Context {CG : ClientGo} {QL : QuantityLib} {W : Type} {PS : PodSchedulerI W} {NA : NodeAgentClient W}.

Record podManager := mkPM {
  podStateMap : gmap string PodWithFornaxNodeState;
  pm_heap : PodHeap;
  pm_next : nat;
  podUpdates : list PodEvent;
  pm_world : W
}.
Implicit Types pm : podManager.

Definition set_podStateMap m pm := mkPM m (pm_heap pm) (pm_next pm) (podUpdates pm) (pm_world pm).
Definition set_pm_heap h pm := mkPM (podStateMap pm) h (pm_next pm) (podUpdates pm) (pm_world pm).
Definition set_pm_world w pm := mkPM (podStateMap pm) (pm_heap pm) (pm_next pm) (podUpdates pm) w.

Definition scheduler_call (f : W -> W) : SM podManager unit :=
  sm_modify (fun pm => set_pm_world (f (pm_world pm)) pm).
Definition agent {A} (c : SM W A) : SM podManager A := fun pm =>
  let '(r, w) := c (pm_world pm) in (r, set_pm_world w pm).
Definition send_update (nodeId : string) (pod : Pod) (t : PodEventType) : SM podManager unit :=
  sm_modify (fun pm => mkPM (podStateMap pm) (pm_heap pm) (pm_next pm)
    (podUpdates pm ++ [mkPodEvent _ nodeId pod t]) (pm_world pm)).
Definition new_pod (pod : Pod) : SM podManager nat := fun pm =>
  (Ok (pm_next pm), mkPM (podStateMap pm) (<[pm_next pm := pod]> (pm_heap pm)) (pm_next pm + 1)%nat
                      (podUpdates pm) (pm_world pm)).
Definition store_cached (ptr : nat) (pod : Pod) : SM podManager unit :=
  sm_modify (fun pm => set_pm_heap (<[ptr := pod]> (pm_heap pm)) pm).

(** [findPod], with the object behind the pointer. *)
Definition findPod pm (name : string) : option (PodWithFornaxNodeState * Pod) :=
  match podStateMap pm !! name with
  | Some p => (fun pod => (p, pod)) <$> pm_heap pm !! v1pod p
  | None => None
  end.
Definition pm_FindPod pm (identifier : string) : option Pod := snd <$> findPod pm identifier.

Definition map_deletePod (name : string) : SM podManager unit :=
  sm_modify (fun pm => set_podStateMap (delete name (podStateMap pm)) pm).
Definition map_addPod (name : string) (p : PodWithFornaxNodeState) : SM podManager unit :=
  sm_modify (fun pm => set_podStateMap (<[name := p]> (podStateMap pm)) pm).

Definition DeletePod (now : Z) (nodeId : string) (pod : Pod) : SM podManager Pod :=
  do! _ <- scheduler_call (sched_RemovePod (Name pod)) ;
  do! pm <- sm_get ;
  match findPod pm (Name pod) with
  | None => sm_fail PodNotFoundError
  | Some (fornaxPodState, podInCache) =>
    if PodIsRunning podInCache then sm_fail PodNotTerminatedYetError
    else
      let podInCache :=
        match DeletionTimestamp podInCache with
        | None =>
          map_om (om_set_DeletionTimestamp
            (match DeletionTimestamp pod with Some t => Some t | None => Some now end)) podInCache
        | Some _ => podInCache
        end in
      do! _ <- store_cached (v1pod fornaxPodState) podInCache ;
      do! _ <- map_deletePod (Name podInCache) ;
      do! _ <- send_update nodeId podInCache PodEventTypeDelete ;
      sm_ret podInCache
  end.

Definition pm_TerminatePod (now : Z) (podName : string) : SM podManager unit :=
  do! pm <- sm_get ;
  match findPod pm podName with
  | None => sm_fail PodNotFoundError
  | Some (fornaxPodState, podInCache) =>
    do! _ <- scheduler_call (sched_RemovePod (Name podInCache)) ;
    do! _ <- (if String.eqb (pst_nodeId fornaxPodState) EmptyString
              then do! _ <- sm_try (DeletePod now "" podInCache) ; sm_ret () else sm_ret ()) ;
    do! pm <- sm_get ;
    let podInCache := default podInCache (pm_heap pm !! v1pod fornaxPodState) in
    let podInCache :=
      match DeletionTimestamp podInCache with
      | None => map_om (om_set_DeletionTimestamp (Some now)) podInCache | Some _ => podInCache end in
    let podInCache :=
      match om_DeletionGracePeriodSeconds (om podInCache) with
      | None => map_om (om_set_DeletionGracePeriodSeconds (Some DefaultDeletionGracefulSeconds)) podInCache
      | Some _ => podInCache
      end in
    do! _ <- store_cached (v1pod fornaxPodState) podInCache ;
    if negb (String.eqb (pst_nodeId fornaxPodState) EmptyString) && PodNotTerminated podInCache
    then agent (na_TerminatePod (pst_nodeId fornaxPodState) podInCache)
    else sm_ret ()
  end.

Definition pm_HibernatePod (podName : string) : SM podManager unit :=
  do! pm <- sm_get ;
  match findPod pm podName with
  | None => sm_fail PodNotFoundError
  | Some (fornaxPodState, podInCache) =>
    if negb (String.eqb (pst_nodeId fornaxPodState) EmptyString) && PodNotTerminated podInCache
    then agent (na_HibernatePod (pst_nodeId fornaxPodState) podInCache)
    else sm_ret ()
  end.

Definition createPodAndSendEvent (nodeId : string) (ptr : nat) (pod : Pod) : SM podManager unit :=
  let eType := if PodIsTerminated pod then PodEventTypeTerminate else PodEventTypeCreate in
  do! _ <- map_addPod (Name pod) (mkPodState ptr nodeId) ;
  send_update nodeId pod eType.

(** The end of [AddOrUpdatePod] for a pod in the cache. *)
Definition update_pod (nodeId : string) (pod cached merged : Pod) : SM podManager Pod :=
  do! podInCache <- new_pod merged ;
  do! _ <-
    (if PodIsTerminated pod then
       do! _ <- map_deletePod (Name cached) ;
       send_update nodeId merged PodEventTypeTerminate
     else
       do! copy <- new_pod merged ;
       do! _ <- map_addPod (Name pod) (mkPodState copy nodeId) ;
       send_update nodeId merged PodEventTypeUpdate) ;
  do! _ <- (if String.eqb nodeId EmptyString && PodIsPending merged
            then scheduler_call (sched_AddPod (mkPodRef podInCache (Name merged)) 0) else sm_ret ()) ;
  sm_ret merged.

Definition pm_AddOrUpdatePod (now : Z) (nodeId : string) (pod : Pod) : SM podManager Pod :=
  do! pm <- sm_get ;
  match findPod pm (Name pod) with
  | None =>
    do! newPod <- new_pod pod ;
    do! _ <- (if negb (PodIsTerminated pod) then createPodAndSendEvent nodeId newPod pod else sm_ret ()) ;
    do! _ <- (if String.eqb nodeId EmptyString && PodIsPending pod
              then scheduler_call (sched_AddPod (mkPodRef newPod (Name pod)) 0) else sm_ret ()) ;
    sm_ret pod
  | Some (fornaxPodState, cached) =>
    if negb (ResourceVersionLargerThan pod cached) then sm_ret cached
    else
      do! _ <-
        (if negb (String.eqb nodeId EmptyString) && bool_decide (is_Some (DeletionTimestamp cached))
            && PodNotTerminated pod
         then agent (na_TerminatePod nodeId pod) else sm_ret ()) ;
      let merged := MergePod now pod cached in
      update_pod nodeId pod cached merged
  end.

Definition NewPodManager (w : W) : podManager := mkPM ∅ ∅ 0 [] w.

(** ** What the watchers can tell from the events *)

Definition replay_event (m : gmap string string) (e : PodEvent) : gmap string string :=
  match pe_Type e with
  | PodEventTypeCreate | PodEventTypeUpdate => <[Name (pe_Pod e) := pe_NodeId e]> m
  | PodEventTypeDelete | PodEventTypeTerminate => delete (Name (pe_Pod e)) m
  end.
Definition replay (l : list PodEvent) : gmap string string := foldl replay_event ∅ l.

Record pm_inv pm : Prop := {
  pi_cache : forall n st, podStateMap pm !! n = Some st ->
    exists pod, pm_heap pm !! v1pod st = Some pod /\ Name pod = n /\ PodIsTerminated pod = false;
  pi_fresh : forall ptr, (pm_next pm <= ptr)%nat -> pm_heap pm !! ptr = None;
  pi_replay : replay (podUpdates pm) = pst_nodeId <$> podStateMap pm
}.

Lemma findPod_Some pm n st pod :
  pm_inv pm -> findPod pm n = Some (st, pod) ->
  podStateMap pm !! n = Some st /\ pm_heap pm !! v1pod st = Some pod /\ Name pod = n /\
  PodIsTerminated pod = false.
Proof.
  intros Hi. unfold findPod. destruct (podStateMap pm !! n) as [st'|] eqn:Hm; [|done].
  destruct (pi_cache pm Hi n st' Hm) as (pod' & Hp & Hn & Ht). rewrite Hp. simpl. intros [= <- <-]. done.
Qed.

Lemma findPod_None pm n : pm_inv pm -> findPod pm n = None -> podStateMap pm !! n = None.
Proof.
  intros Hi. unfold findPod. destruct (podStateMap pm !! n) as [st|] eqn:Hm; [|done].
  destruct (pi_cache pm Hi n st Hm) as (pod & Hp & _). by rewrite Hp.
Qed.

(** *** The state changes *)

Lemma pm_inv_world pm w : pm_inv pm -> pm_inv (set_pm_world w pm).
Proof. by intros []. Qed.

(** A write to a pod object that keeps its name and does not terminate it. *)
Lemma pm_inv_store pm ptr old pod :
  pm_inv pm -> pm_heap pm !! ptr = Some old -> Name pod = Name old ->
  (PodIsTerminated old = false -> PodIsTerminated pod = false) ->
  pm_inv (set_pm_heap (<[ptr := pod]> (pm_heap pm)) pm).
Proof.
  intros [Hc Hf Hr] Hold Hn Ht. split; simpl; [| |done].
  - intros n st Hm. destruct (Hc n st Hm) as (p & Hp & Hpn & Hpt). rewrite lookup_insert. case_decide as He.
    + simplify_eq. exists pod. rewrite Hn. auto.
    + by exists p.
  - intros q Hq. rewrite lookup_insert_ne; [by apply Hf|]. intros <-. by rewrite Hf in Hold.
Qed.

Lemma pm_inv_new pm pod : pm_inv pm -> pm_inv (new_pod pod pm).2.
Proof.
  intros [Hc Hf Hr]. split; simpl; [| |done].
  - intros n st Hm. destruct (Hc n st Hm) as (p & Hp & Hpn). exists p. split; [|done].
    rewrite lookup_insert_ne; [done|]. intros He. by rewrite <- He, Hf in Hp.
  - intros q Hq. rewrite lookup_insert_ne by lia. apply Hf. lia.
Qed.

(** The cache and the events change together. *)
Lemma pm_inv_put pm nodeId ptr pod t :
  pm_inv pm -> pm_heap pm !! ptr = Some pod -> PodIsTerminated pod = false ->
  t = PodEventTypeCreate \/ t = PodEventTypeUpdate ->
  pm_inv ((do! _ <- map_addPod (Name pod) (mkPodState ptr nodeId) ; send_update nodeId pod t) pm).2.
Proof.
  intros [Hc Hf Hr] Hp Ht Hty. split; simpl; [|done|].
  - intros n st [[<- <-]|[_ Hm]]%lookup_insert_Some; [by exists pod|by apply Hc].
  - unfold replay. rewrite foldl_app. simpl. fold (replay (podUpdates pm)). rewrite Hr, fmap_insert.
    unfold replay_event. by destruct Hty as [-> | ->].
Qed.

Lemma pm_inv_remove pm nodeId pod t :
  pm_inv pm -> t = PodEventTypeDelete \/ t = PodEventTypeTerminate ->
  pm_inv ((do! _ <- map_deletePod (Name pod) ; send_update nodeId pod t) pm).2.
Proof.
  intros [Hc Hf Hr] Hty. split; simpl; [|done|].
  - intros n st [_ Hm]%lookup_delete_Some. by apply Hc.
  - unfold replay. rewrite foldl_app. simpl. fold (replay (podUpdates pm)). rewrite Hr, fmap_delete.
    unfold replay_event. by destruct Hty as [-> | ->].
Qed.

(** *** The operations *)

Lemma Name_deletion (pod : Pod) t : Name (map_om (om_set_DeletionTimestamp t) pod) = Name pod.
Proof. done. Qed.

Lemma DeletePod_inv now nodeId pod pm : pm_inv pm -> pm_inv (DeletePod now nodeId pod pm).2.
Proof.
  intros Hi. unfold DeletePod, scheduler_call. sm_simpl.
  set (pm1 := set_pm_world _ pm). assert (pm_inv pm1) as Hi1 by (by apply pm_inv_world).
  destruct (findPod pm1 (Name pod)) as [[st cached]|] eqn:Hf; [|done].
  destruct (findPod_Some pm1 _ _ _ Hi1 Hf) as (Hm & Hp & Hn & Ht).
  destruct (PodIsRunning cached); [done|].
  set (cached' := match DeletionTimestamp cached with Some _ => cached | None => _ end).
  assert (Name cached' = Name cached /\ PodIsTerminated cached' = PodIsTerminated cached) as [Hn' Ht'].
  { subst cached'. by destruct (DeletionTimestamp cached). }
  rewrite sm_bind_eq. unfold store_cached. rewrite sm_modify_eq. cbv iota beta.
  set (pm2 := set_pm_heap _ pm1).
  assert (pm_inv pm2) as Hi2 by (apply (pm_inv_store pm1 _ cached); [done|done|done|by rewrite Ht']).
  pose proof (pm_inv_remove pm2 nodeId cached' PodEventTypeDelete Hi2 (or_introl eq_refl)) as Hrm.
  exact Hrm.
Qed.

Lemma pm_heap_DeletePod now nodeId pod pm ptr old :
  pm_heap pm !! ptr = Some old ->
  exists p, pm_heap (DeletePod now nodeId pod pm).2 !! ptr = Some p /\ Name p = Name old /\
    (PodIsTerminated old = false -> PodIsTerminated p = false).
Proof.
  intros Hold. unfold DeletePod, scheduler_call. sm_simpl.
  assert (pm_heap (set_pm_world (sched_RemovePod (Name pod) (pm_world pm)) pm) = pm_heap pm) as Hh by done.
  unfold findPod. rewrite Hh. simpl. destruct (podStateMap pm !! Name pod) as [st|]; [|by exists old].
  destruct (pm_heap pm !! v1pod st) as [cached|] eqn:Hp; simpl; [|by exists old].
  destruct (PodIsRunning cached); simpl; [by exists old|]. rewrite lookup_insert. case_decide as He; [|by exists old].
  simplify_eq. eexists. split; [done|]. by destruct (DeletionTimestamp old).
Qed.

Lemma TerminatePod_inv now podName pm : pm_inv pm -> pm_inv (pm_TerminatePod now podName pm).2.
Proof.
  intros Hi. unfold pm_TerminatePod, scheduler_call. sm_simpl.
  destruct (findPod pm podName) as [[st cached]|] eqn:Hf; [|done].
  destruct (findPod_Some pm _ _ _ Hi Hf) as (Hm & Hp & Hn & Ht). sm_simpl.
  set (pm1 := set_pm_world _ pm). assert (pm_inv pm1) as Hi1 by (by apply pm_inv_world).
  set (del := if String.eqb _ _ then _ else _).
  assert (exists pm2, del pm1 = (Ok (), pm2) /\ pm_inv pm2 /\
    exists p, pm_heap pm2 !! v1pod st = Some p) as (pm2 & -> & Hi2 & p & Hp2).
  { subst del. destruct (String.eqb _ _); [|exists pm1; eauto]. sm_simpl. unfold sm_try.
    pose proof (DeletePod_inv now "" cached pm1 Hi1) as Hd.
    destruct (pm_heap_DeletePod now "" cached pm1 (v1pod st) cached Hp) as (p & Hp' & _).
    destruct (DeletePod now "" cached pm1) as [r pm2]. exists pm2. eauto. }
  sm_simpl. rewrite Hp2. cbn [default]. unfold store_cached. sm_simpl.
  match goal with |- context [set_pm_heap (<[_ := ?x]> _) pm2] => set (final := x) end.
  assert (pm_inv (set_pm_heap (<[v1pod st := final]> (pm_heap pm2)) pm2)) as Hi3.
  { apply (pm_inv_store pm2 _ p); [done|done|..]; subst final; cbn [id];
      by destruct (DeletionTimestamp p); simpl; destruct (om_DeletionGracePeriodSeconds (om p)). }
  destruct (negb _ && _); [|done]. unfold agent. destruct (na_TerminatePod _ _ _) as [r w]. by apply pm_inv_world.
Qed.

Lemma pm_inv_scheduled pm (b : bool) f :
  pm_inv pm -> exists pm', (if b then scheduler_call f else sm_ret ()) pm = (Ok (), pm') /\ pm_inv pm' /\
    podStateMap pm' = podStateMap pm /\ pm_heap pm' = pm_heap pm.
Proof.
  intros Hi. destruct b; eexists; (split; [done|]); [|done]. by split; [apply pm_inv_world|].
Qed.

(** A pod the cache does not know. *)
Lemma AddOrUpdatePod_new now nodeId pod pm :
  pm_inv pm -> findPod pm (Name pod) = None ->
  exists pm', pm_AddOrUpdatePod now nodeId pod pm = (Ok pod, pm') /\ pm_inv pm' /\
    (PodIsTerminated pod = false -> pm_FindPod pm' (Name pod) = Some pod).
Proof.
  intros Hi Hf. unfold pm_AddOrUpdatePod. sm_simpl. rewrite Hf. sm_simpl.
  pose proof (pm_inv_new pm pod Hi) as Hi1. set (pm1 := (new_pod pod pm).2) in Hi1.
  change (new_pod pod pm) with (Ok (pm_next pm), pm1). cbv iota. rewrite sm_bind_eq.
  set (add := if negb (PodIsTerminated pod) then _ else _).
  assert (exists pm2, add pm1 = (Ok (), pm2) /\ pm_inv pm2 /\
    (PodIsTerminated pod = false -> pm_FindPod pm2 (Name pod) = Some pod)) as (pm2 & -> & Hi2 & Hfp).
  { subst add. destruct (PodIsTerminated pod) eqn:Ht; [by exists pm1|].
    assert (pm_heap pm1 !! pm_next pm = Some pod) as Hp by apply lookup_insert_eq.
    pose proof (pm_inv_put pm1 nodeId (pm_next pm) pod PodEventTypeCreate Hi1 Hp Ht (or_introl eq_refl)) as Hput.
    unfold createPodAndSendEvent. rewrite Ht. cbn [negb]. eexists. split; [done|]. split; [exact Hput|].
    intros _. unfold pm_FindPod, findPod. simpl. rewrite lookup_insert_eq. simpl. by rewrite lookup_insert_eq. }
  cbv iota. rewrite sm_bind_eq.
  destruct (pm_inv_scheduled pm2 (String.eqb nodeId "" && PodIsPending pod)
    (sched_AddPod (mkPodRef (pm_next pm) (Name pod)) 0) Hi2) as (pm3 & -> & Hi3 & Hm & Hh).
  exists pm3. split; [done|]. split; [done|]. unfold pm_FindPod, findPod in *. by rewrite Hm, Hh.
Qed.

(** The update of a cached pod, after the node was told to terminate it if need be. *)
Lemma update_pod_effect nodeId (pod cached merged : Pod) pm :
  pm_inv pm -> Name cached = Name pod -> Name merged = Name cached -> Phase (Status merged) = Phase (Status pod) ->
  exists pm', update_pod nodeId pod cached merged pm = (Ok merged, pm') /\ pm_inv pm' /\
    pm_FindPod pm' (Name pod) = if PodIsTerminated pod then None else Some merged.
Proof.
  intros Hi Hnc Hnm Hph. unfold update_pod. sm_simpl.
  pose proof (pm_inv_new pm merged Hi) as Hi1. set (pm1 := (new_pod merged pm).2) in Hi1.
  change (new_pod merged pm) with (Ok (pm_next pm), pm1). cbv iota. rewrite sm_bind_eq.
  assert (PodIsTerminated merged = PodIsTerminated pod) as Hterm.
  { unfold PodIsTerminated. by rewrite Hph. }
  set (upd := if PodIsTerminated pod then _ else _).
  assert (exists pm2, upd pm1 = (Ok (), pm2) /\ pm_inv pm2 /\
    pm_FindPod pm2 (Name pod) = if PodIsTerminated pod then None else Some merged) as (pm2 & -> & Hi2 & Hfp).
  { subst upd. destruct (PodIsTerminated pod).
    - pose proof (pm_inv_remove pm1 nodeId merged PodEventTypeTerminate Hi1 (or_intror eq_refl)) as Hrm.
      rewrite Hnm in Hrm. eexists. split; [done|]. split; [exact Hrm|].
      unfold pm_FindPod, findPod. simpl. by rewrite <- Hnc, lookup_delete_eq.
    - pose proof (pm_inv_new pm1 merged Hi1) as Hi1'.
      pose proof (pm_inv_put (new_pod merged pm1).2 nodeId (pm_next pm1) merged PodEventTypeUpdate Hi1'
        (lookup_insert_eq _ _ _) Hterm (or_intror eq_refl)) as Hput.
      rewrite Hnm, Hnc in Hput. eexists. split; [done|]. split; [exact Hput|].
      unfold pm_FindPod, findPod. simpl. rewrite lookup_insert_eq. simpl. by rewrite lookup_insert_eq. }
  cbv iota. rewrite sm_bind_eq.
  destruct (pm_inv_scheduled pm2 (String.eqb nodeId "" && PodIsPending merged)
    (sched_AddPod (mkPodRef (pm_next pm) (Name merged)) 0) Hi2) as (pm3 & -> & Hi3 & Hm & Hh).
  exists pm3. split; [done|]. split; [done|]. unfold pm_FindPod, findPod in *. by rewrite Hm, Hh.
Qed.

Lemma AddOrUpdatePod_inv now nodeId pod pm : pm_inv pm -> pm_inv (pm_AddOrUpdatePod now nodeId pod pm).2.
Proof.
  intros Hi. destruct (findPod pm (Name pod)) as [[st cached]|] eqn:Hf.
  2:{ by destruct (AddOrUpdatePod_new now nodeId pod pm Hi Hf) as (pm' & -> & Hi' & _). }
  destruct (findPod_Some pm _ _ _ Hi Hf) as (Hm & Hp & Hn & Ht).
  unfold pm_AddOrUpdatePod. sm_simpl. rewrite Hf. destruct (negb (ResourceVersionLargerThan pod cached)); [done|].
  rewrite sm_bind_eq. set (tell := if _ && _ then agent _ else sm_ret ()).
  assert (exists r pm1, tell pm = (r, pm1) /\ pm_inv pm1) as (r & pm1 & -> & Hi1).
  { subst tell. destruct (_ && _); [|by eexists _, pm]. unfold agent.
    destruct (na_TerminatePod _ _ _) as [r w]. eexists _, _. split; [done|]. by apply pm_inv_world. }
  destruct r as [[]|e]; [|done]. cbv iota zeta.
  destruct (update_pod_effect nodeId pod cached (MergePod now pod cached) pm1 Hi1 Hn) as (pm' & -> & Hi' & _);
    [apply MergePod_Name|done|done].
Qed.

(** *** All executions *)

Inductive pm_step : podManager -> podManager -> Prop :=
  | pm_step_delete pm now nodeId pod : pm_step pm (DeletePod now nodeId pod pm).2
  | pm_step_terminate pm now n : pm_step pm (pm_TerminatePod now n pm).2
  | pm_step_hibernate pm n : pm_step pm (pm_HibernatePod n pm).2
  | pm_step_add pm now nodeId pod : pm_step pm (pm_AddOrUpdatePod now nodeId pod pm).2
  (** the scheduler and the application manager write to shared pod objects *)
  | pm_step_shared pm ptr old pod : pm_heap pm !! ptr = Some old -> Name pod = Name old ->
      Phase (Status pod) = Phase (Status old) -> pm_step pm (set_pm_heap (<[ptr := pod]> (pm_heap pm)) pm)
  | pm_step_world pm w : pm_step pm (set_pm_world w pm).

Lemma HibernatePod_inv n pm : pm_inv pm -> pm_inv (pm_HibernatePod n pm).2.
Proof.
  intros Hi. unfold pm_HibernatePod. sm_simpl. destruct (findPod pm n) as [[st cached]|]; [|done].
  destruct (negb _ && _); [|done]. unfold agent. destruct (na_HibernatePod _ _ _). by apply pm_inv_world.
Qed.

Lemma pm_step_inv pm pm' : pm_step pm pm' -> pm_inv pm -> pm_inv pm'.
Proof.
  destruct 1 as [| | | |pm ptr old pod Hp Hn Hph|]; intros Hi;
    auto using DeletePod_inv, TerminatePod_inv, HibernatePod_inv, AddOrUpdatePod_inv, pm_inv_world.
  apply (pm_inv_store pm ptr old); [done|done|done|]. unfold PodIsTerminated. by rewrite Hph.
Qed.

Lemma NewPodManager_inv w : pm_inv (NewPodManager w).
Proof.
  split; simpl; [intros n st; by rewrite lookup_empty|intros; apply lookup_empty|]. by rewrite fmap_empty.
Qed.

(** C14: the events tell the whole story.  However pods are added, updated, deleted and terminated, a
    watcher that applies the events in order knows exactly the pods in the cache and the node each
    is on; every cached entry is the live object of its name, and no terminated pod stays. *)
Theorem pod_events_replay_cache w pm :
  rtc pm_step (NewPodManager w) pm ->
  replay (podUpdates pm) = pst_nodeId <$> podStateMap pm /\
  forall n st, podStateMap pm !! n = Some st ->
    exists pod, pm_heap pm !! v1pod st = Some pod /\ Name pod = n /\ PodIsTerminated pod = false.
Proof.
  intros Hr. assert (pm_inv pm) as [Hc _ Hrep].
  { pose proof (NewPodManager_inv w) as Hi. revert Hi.
    induction Hr as [|a b c Hs _ IH]; [done|]. intros Hi. by eapply IH, pm_step_inv. }
  done.
Qed.

(** A requested termination is not forgotten.  When a node reports a newer, live state of a pod whose
    deletion was requested, the node is told again to terminate it, an error of that call is
    returned, and otherwise the cache takes the reported state and keeps the deletion request. *)
Theorem termination_request_sticks now nodeId pod pm st cached t :
  pm_inv pm -> findPod pm (Name pod) = Some (st, cached) -> DeletionTimestamp cached = Some t ->
  ResourceVersionLargerThan pod cached = true -> nodeId <> EmptyString -> PodIsTerminated pod = false ->
  let '(r, w') := na_TerminatePod nodeId pod (pm_world pm) in
  match r with
  | Err e => pm_AddOrUpdatePod now nodeId pod pm = (Err e, set_pm_world w' pm)
  | Ok _ => exists pm' merged, pm_AddOrUpdatePod now nodeId pod pm = (Ok merged, pm') /\
      pm_FindPod pm' (Name pod) = Some merged /\ DeletionTimestamp merged = Some t /\
      Status merged = Status pod
  end.
Proof.
  intros Hi Hf Ht Hrv Hne Hterm. destruct (findPod_Some pm _ _ _ Hi Hf) as (_ & _ & Hn & _).
  assert (pm_AddOrUpdatePod now nodeId pod pm =
    (do! _ <- agent (na_TerminatePod nodeId pod) ; update_pod nodeId pod cached (MergePod now pod cached)) pm)
    as ->.
  { unfold pm_AddOrUpdatePod. rewrite sm_bind_eq, sm_get_eq, Hf, Hrv. cbn [negb].
    unfold PodNotTerminated. rewrite Ht, Hterm, (proj2 (String.eqb_neq nodeId EmptyString) Hne). done. }
  rewrite sm_bind_eq. unfold agent. destruct (na_TerminatePod nodeId pod (pm_world pm)) as [[[]|e] w']; [|done].
  destruct (update_pod_effect nodeId pod cached (MergePod now pod cached) (set_pm_world w' pm)
    (pm_inv_world pm w' Hi) Hn) as (pm' & Hu & _ & Hfp); [apply MergePod_Name|done|].
  exists pm', (MergePod now pod cached). rewrite Hterm in Hfp. split; [done|]. split; [done|].
  split; [by apply MergePod_deletion_sticky|done].
Qed.

(** *** Other pods *)

(** Every pod but [n] is found as before. *)
Definition others_kept (n : string) pm pm' : Prop := forall m, m <> n -> pm_FindPod pm' m = pm_FindPod pm m.

#[local] Instance others_kept_preorder n : PreOrder (others_kept n).
Proof. split; [by intros pm m _|]. intros a b c H1 H2 m Hm. by rewrite H2, H1. Qed.

Lemma others_kept_world n pm w : others_kept n pm (set_pm_world w pm).
Proof. by intros m _. Qed.
Lemma others_kept_event n pm nodeId pod t : others_kept n pm (send_update nodeId pod t pm).2.
Proof. by intros m _. Qed.
Lemma others_kept_map n pm v : others_kept n pm (set_podStateMap (<[n := v]> (podStateMap pm)) pm).
Proof. intros m Hm. unfold pm_FindPod, findPod. simpl. by rewrite lookup_insert_ne. Qed.
Lemma others_kept_unmap n pm : others_kept n pm (set_podStateMap (delete n (podStateMap pm)) pm).
Proof. intros m Hm. unfold pm_FindPod, findPod. simpl. by rewrite lookup_delete_ne. Qed.
Lemma others_kept_new n pm pod : pm_inv pm -> others_kept n pm (new_pod pod pm).2.
Proof.
  intros Hi m _. unfold pm_FindPod, findPod. simpl. destruct (podStateMap pm !! m) as [st|] eqn:Hm; [|done].
  destruct (pi_cache pm Hi m st Hm) as (p & Hp & _).
  rewrite lookup_insert_ne; [done|]. intros E. pose proof (pi_fresh pm Hi (v1pod st) ltac:(lia)). congruence.
Qed.
(** A write to the object of [n]; a cached object has one name. *)
Lemma others_kept_store n pm st old pod :
  pm_inv pm -> podStateMap pm !! n = Some st -> pm_heap pm !! v1pod st = Some old ->
  others_kept n pm (set_pm_heap (<[v1pod st := pod]> (pm_heap pm)) pm).
Proof.
  intros Hi Hn Hold m Hm. unfold pm_FindPod, findPod. simpl.
  destruct (podStateMap pm !! m) as [st'|] eqn:Hm'; [|done].
  destruct (pi_cache pm Hi m st' Hm') as (p & Hp & Hpn & _).
  destruct (pi_cache pm Hi n st Hn) as (p2 & Hp2 & Hpn2 & _).
  rewrite lookup_insert_ne; [done|]. congruence.
Qed.

Lemma scheduled_kept n pm (b : bool) f :
  others_kept n pm ((if b then scheduler_call f else sm_ret ()) pm).2.
Proof. destruct b; [apply others_kept_world|done]. Qed.

Lemma update_pod_kept nodeId pod cached merged pm :
  pm_inv pm -> Name cached = Name pod -> Name merged = Name pod ->
  others_kept (Name pod) pm (update_pod nodeId pod cached merged pm).2.
Proof.
  intros Hi Hc Hm. unfold update_pod. rewrite sm_bind_eq.
  pose proof (pm_inv_new pm merged Hi) as Hi1. pose proof (others_kept_new (Name pod) pm merged Hi) as H1.
  set (pm1 := (new_pod merged pm).2) in *. change (new_pod merged pm) with (Ok (pm_next pm), pm1). cbv iota.
  rewrite sm_bind_eq.
  set (upd := if PodIsTerminated pod then _ else _).
  assert (exists pm2, upd pm1 = (Ok (), pm2) /\ others_kept (Name pod) pm1 pm2) as (pm2 & -> & H2).
  { subst upd. destruct (PodIsTerminated pod).
    - eexists. split; [done|]. etransitivity; [apply others_kept_unmap|]. rewrite Hc. by intros m _.
    - eexists. split; [done|]. etransitivity; [apply (others_kept_new _ _ merged Hi1)|].
      etransitivity; [apply others_kept_map|]. by intros m _. }
  rewrite sm_bind_eq. cbv iota.
  pose proof (scheduled_kept (Name pod) pm2 (String.eqb nodeId "" && PodIsPending merged)
    (sched_AddPod (mkPodRef (pm_next pm) (Name merged)) 0)) as H3.
  set (sch := if _ && _ then scheduler_call _ else sm_ret ()) in *.
  destruct (sch pm2) as [[[]|e] pm3]; exact (transitivity H1 (transitivity H2 H3)).
Qed.

Lemma AddOrUpdatePod_kept now nodeId pod pm :
  pm_inv pm -> others_kept (Name pod) pm (pm_AddOrUpdatePod now nodeId pod pm).2.
Proof.
  intros Hi. unfold pm_AddOrUpdatePod. rewrite sm_bind_eq, sm_get_eq.
  destruct (findPod pm (Name pod)) as [[st cached]|] eqn:Hf.
  - destruct (findPod_Some pm _ _ _ Hi Hf) as (_ & _ & Hn & _).
    destruct (negb _); [done|]. rewrite sm_bind_eq.
    set (tell := if _ && _ then agent _ else sm_ret ()).
    assert (exists r w, tell pm = (r, set_pm_world w pm)) as (r & w & ->).
    { subst tell. destruct (_ && _); [|exists (Ok ()), (pm_world pm); by destruct pm].
      unfold agent. destruct (na_TerminatePod _ _ _) as [r w]. by exists r, w. }
    destruct r as [[]|e]; [|apply others_kept_world]. cbv iota zeta.
    etransitivity; [apply (others_kept_world _ _ w)|].
    apply update_pod_kept; [by apply pm_inv_world|done|by rewrite MergePod_Name].
  - rewrite sm_bind_eq. pose proof (others_kept_new (Name pod) pm pod Hi) as H1.
    set (pm1 := (new_pod pod pm).2) in *. change (new_pod pod pm) with (Ok (pm_next pm), pm1). cbv iota.
    rewrite sm_bind_eq. set (add := if negb (PodIsTerminated pod) then _ else _).
    assert (exists pm2, add pm1 = (Ok (), pm2) /\ others_kept (Name pod) pm1 pm2) as (pm2 & -> & H2).
    { subst add. destruct (PodIsTerminated pod) eqn:Ht; [by exists pm1|].
      unfold createPodAndSendEvent. rewrite Ht. cbn [negb]. eexists. split; [done|].
      etransitivity; [apply others_kept_map|]. by intros m _. }
    rewrite sm_bind_eq. cbv iota.
    pose proof (scheduled_kept (Name pod) pm2 (String.eqb nodeId "" && PodIsPending pod)
      (sched_AddPod (mkPodRef (pm_next pm) (Name pod)) 0)) as H3.
    set (sch := if _ && _ then scheduler_call _ else sm_ret ()) in *.
    destruct (sch pm2) as [[[]|e] pm3]; exact (transitivity H1 (transitivity H2 H3)).
Qed.

(** *** Failing and deleting a pod *)

(** [pod.Status.Phase = v1.PodFailed] on the object the cache holds. *)
Definition FailPod (n : string) pm : podManager :=
  match findPod pm n with
  | Some (st, pod) =>
    set_pm_heap (<[v1pod st := set_Status (set_Phase PodFailed (Status pod)) pod]> (pm_heap pm)) pm
  | None => pm
  end.

(** The object is terminated while it is still in the cache; its deletion restores the invariant. *)
Lemma fail_delete_spec now nodeId n pod pm :
  pm_inv pm -> pm_FindPod pm n = Some pod ->
  let pm' := (DeletePod now nodeId (set_Status (set_Phase PodFailed (Status pod)) pod) (FailPod n pm)).2 in
  pm_inv pm' /\ pm_FindPod pm' n = None /\ others_kept n pm pm'.
Proof.
  intros Hi Hf. unfold pm_FindPod in Hf. destruct (findPod pm n) as [[st p]|] eqn:Hfp; simplify_eq/=.
  destruct (findPod_Some pm n st pod Hi Hfp) as (Hm & Hp & Hn & Ht).
  set (failed := set_Status (set_Phase PodFailed (Status pod)) pod).
  assert (Name failed = n) as Hnf by done.
  unfold FailPod. rewrite Hfp. set (pm1 := set_pm_heap _ pm). unfold DeletePod, scheduler_call. sm_simpl.
  set (pm2 := set_pm_world _ pm1). rewrite Hnf.
  assert (findPod pm2 n = Some (st, failed)) as ->.
  { unfold findPod. simpl. rewrite Hm. simpl. by rewrite lookup_insert_eq. }
  change (PodIsRunning failed) with false. cbv iota.
  set (final := match DeletionTimestamp failed with Some _ => failed | None => _ end).
  assert (Name final = n) as Hnfin by (subst final; destruct (DeletionTimestamp failed); exact Hnf).
  rewrite sm_bind_eq. unfold store_cached. rewrite sm_modify_eq. cbv iota.
  rewrite sm_bind_eq. unfold map_deletePod. rewrite sm_modify_eq, Hnfin. cbv iota. rewrite sm_bind_eq.
  unfold send_update. rewrite sm_modify_eq. cbv iota. rewrite sm_ret_eq. cbn [snd].
  split; [|split].
  - destruct Hi as [Hc Hfr Hr]. split; simpl.
    + intros m st' [Hne Hm']%lookup_delete_Some. destruct (Hc m st' Hm') as (q & Hq & Hqn & Hqt).
      exists q. split; [|done]. rewrite !lookup_insert_ne; [done| |]; congruence.
    + intros ptr Hptr. rewrite !lookup_insert_ne; [by apply Hfr| |]; intros <-; by rewrite Hfr in Hp.
    + unfold replay. rewrite foldl_app. simpl. fold (replay (podUpdates pm)).
      unfold replay_event. simpl. by rewrite Hr, fmap_delete, Hnfin.
  - unfold pm_FindPod, findPod. simpl. by rewrite lookup_delete_eq.
  - intros m Hne. unfold pm_FindPod, findPod. simpl. rewrite lookup_delete_ne by done.
    destruct (podStateMap pm !! m) as [st'|] eqn:Hm'; [|done].
    destruct (pi_cache pm Hi m st' Hm') as (q & Hq & Hqn & _). rewrite !lookup_insert_ne; [done| |]; congruence.
Qed.
End PodManager.

(** ** A concrete run *)

(** A scheduler that only remembers the names, and agents that accept every command. *)
#[export] Instance name_scheduler : PodSchedulerI (list string) | 100 := {|
  sched_AddPod := fun r _ w => w ++ [ref_name r];
  sched_RemovePod := fun n w => filter (fun m => m <> n) w
|}.
#[export] Instance willing_agent : NodeAgentClient (list string) | 100 := {|
  na_CreatePod := fun _ _ w => (Ok (), w);
  na_TerminatePod := fun _ _ w => (Ok (), w);
  na_HibernatePod := fun _ _ w => (Ok (), w);
  na_OpenSession := fun _ _ _ w => (Ok (), w);
  na_CloseSession := fun _ _ _ w => (Ok (), w)
|}.

Definition reported_pod (rv : string) (phase : PodPhase) : Pod :=
  mkObject (mkObjectMeta "p" "ns" "p" rv 0 None None ∅ ∅ []) (mkPodSpec _ [] [] false) (mkPodStatus phase "" None "" "").

(** The pod is created, scheduled on "n1", reported running, and its termination requested. *)
Definition example_pm : podManager :=
  let pm := (pm_AddOrUpdatePod 1 "" (reported_pod "0" PodPending) (NewPodManager [])).2 in
  let pm := (pm_AddOrUpdatePod 2 "n1" (reported_pod "1" PodRunning) pm).2 in
  (pm_TerminatePod 3 "ns/p" pm).2.

Lemma example_pm_reachable : rtc pm_step (NewPodManager []) example_pm.
Proof.
  eapply rtc_r; [|apply pm_step_terminate]. eapply rtc_r; [|apply pm_step_add].
  eapply rtc_r; [|apply pm_step_add]. apply rtc_refl.
Qed.

Lemma pod_events_replay_cache_witness : replay (podUpdates example_pm) = {[ "ns/p" := "n1"%string ]}.
Proof.
  destruct (pod_events_replay_cache [] example_pm example_pm_reachable) as [H _]. rewrite H.
  vm_compute. reflexivity.
Defined.

Lemma example_pm_inv : pm_inv example_pm.
Proof.
  pose proof (NewPodManager_inv ([] : list string)) as Hi. revert Hi.
  induction example_pm_reachable as [|a b c Hs _ IH]; [done|]. intros Hi. by eapply IH, pm_step_inv.
Qed.

Lemma termination_request_sticks_witness :
  exists pm' merged, pm_AddOrUpdatePod 4 "n1" (reported_pod "2" PodRunning) example_pm = (Ok merged, pm') /\
    DeletionTimestamp merged = Some 3.
Proof.
  destruct (findPod example_pm "ns/p") as [[st cached]|] eqn:Hf; [|vm_compute in Hf; discriminate].
  pose proof (termination_request_sticks 4 "n1" (reported_pod "2" PodRunning) example_pm st cached 3
    example_pm_inv Hf) as H.
  vm_compute in Hf. injection Hf as <- <-.
  destruct H as (pm' & merged & Hr & _ & Hd & _);
    [reflexivity|vm_compute; reflexivity|discriminate|reflexivity|].
  exists pm', merged. split; [exact Hr|exact Hd].
Defined.
