(* ===== verification/PortManager.v ===== *)
(** * Host ports of a node

    [pkg/nodeagent/node/node_port_manager.go].  A node divides the host ports behind its starting
    port into slots of ten and gives every pod slots of its own.

    The container ports of a pod are handed over as pointers.  The variable of a [for ... range] loop
    is one variable per execution of the loop (the module is compiled as Go 1.18), so all the pointers
    [&port] of one container point to the same variable, which holds the last port of the container
    when the loop has ended: [port_pointers] keeps the variables and the pointers apart.  The slots are
    pointers too, but only the slice holds them.  Every method holds the mutex of the range and is one
    step. *)

From S2P Require Import Prelude GoStrings ApiTypes.
From Stdlib Require Import String.
#[local] Open Scope Z_scope.

Definition HostPortNumPerRange : Z := 10.

Record RangeSlot := mkRangeSlot {
  allocatedPorts : Z;
  rangeSize : Z;
  nextPortNum : Z;
  allocated : bool
}.
#[export] Instance RangeSlot_eq_dec : EqDecision RangeSlot.
Proof. solve_decision. Defined.

Record HostPortRange := mkHostPortRange {
  startingPort : Z;
  rangeSlots : list (option RangeSlot)
}.
Definition set_rangeSlots (l : list (option RangeSlot)) (pm : HostPortRange) : HostPortRange :=
  mkHostPortRange (startingPort pm) l.

Definition NewHostPortRange (rangeNum : nat) (startingPort : Z) : HostPortRange :=
  mkHostPortRange startingPort (replicate rangeNum None).

Definition set_HostPort (n : Z) (p : ContainerPort) : ContainerPort :=
  mkContainerPort (cp_Name p) n (cp_ContainerPort p) (cp_Protocol p) (cp_HostIP p).
Definition set_HostIP (ip : string) (p : ContainerPort) : ContainerPort :=
  mkContainerPort (cp_Name p) (cp_HostPort p) (cp_ContainerPort p) (cp_Protocol p) ip.
Definition zero_port : ContainerPort := mkContainerPort "" 0 0 "" "".

(** The variables the pointers point to, and what a pointer reads. *)
Abbreviation port_vars := (list ContainerPort).
Definition deref (vars : port_vars) (p : nat) : ContainerPort := default zero_port (vars !! p).

(** [(hostPort - pm.startingPort) / HostPortNumPerRange] *)
Definition slot_of (startingPort hostPort : Z) : Z :=
  godiv (i32 (hostPort - startingPort)) HostPortNumPerRange.
Definition slot_panics (slots : list (option RangeSlot)) (slotNo : Z) : bool :=
  (slotNo <? 0) || (Z.of_nat (List.length slots) <=? slotNo).
Definition index_panic : GoError := OtherError "panic: index out of range".

(** One step of the loop of [deallocateHostPort]; the rollback of [allocateHostPort] repeats it. *)
Definition release_port (startingPort : Z) (v : ContainerPort) (slots : list (option RangeSlot)) :
    result (list (option RangeSlot)) :=
  if 0 <? cp_HostPort v then
    let slotNo := slot_of startingPort (cp_HostPort v) in
    if slot_panics slots slotNo then Err index_panic
    else match slots !! Z.to_nat slotNo with
         | Some (Some slot) =>
           let n := i32 (allocatedPorts slot - 1) in
           Ok (<[Z.to_nat slotNo :=
                   if n <=? 0 then None
                   else Some (mkRangeSlot n (rangeSize slot) (nextPortNum slot) (allocated slot))]> slots)
         | _ => Ok slots
         end
  else Ok slots.

Fixpoint release_ports (startingPort : Z) (vars : port_vars) (containerPorts : list nat)
    (slots : list (option RangeSlot)) : result (list (option RangeSlot)) :=
  match containerPorts with
  | [] => Ok slots
  | p :: containerPorts =>
    let? slots := release_port startingPort (deref vars p) slots in
    release_ports startingPort vars containerPorts slots
  end.

Definition deallocateHostPort (vars : port_vars) (containerPorts : list nat) : SM HostPortRange unit :=
  fun pm =>
  match release_ports (startingPort pm) vars containerPorts (rangeSlots pm) with
  | Ok slots => (Ok (), set_rangeSlots slots pm)
  | Err e => (Err e, pm)
  end.

(** The inner loop of [allocateHostPort]: at most [rangeSize] ports are taken from the slot.  The
    index [i] is the list of pointers that are still to be served. *)
Fixpoint fill_slot (n : nat) (containerPorts : list nat) (slot : RangeSlot) (vars : port_vars) :
    RangeSlot * list nat * port_vars :=
  match n, containerPorts with
  | Datatypes.S n, p :: containerPorts =>
    let vars := <[p := set_HostPort (nextPortNum slot) (deref vars p)]> vars in
    fill_slot n containerPorts
      (mkRangeSlot (i32 (allocatedPorts slot + 1)) (rangeSize slot) (i32 (nextPortNum slot + 1))
        (allocated slot)) vars
  | _, _ => (slot, containerPorts, vars)
  end.

Definition new_slot (startingPort slotNo : Z) : RangeSlot :=
  mkRangeSlot 0 HostPortNumPerRange (i32 (startingPort + i32 (i32 slotNo * HostPortNumPerRange))) true.

(** The loop over the slots: [true] when it returns because every port is served.  That is only
    checked at the start of an iteration. *)
Fixpoint alloc_slots (startingPort slotNo : Z) (slots : list (option RangeSlot))
    (containerPorts : list nat) (vars : port_vars) :
    bool * list (option RangeSlot) * port_vars :=
  match slots, containerPorts with
  | [], _ => (false, [], vars)
  | _, [] => (true, slots, vars)
  | slot :: rest, _ =>
    let free := match slot with None => true | Some s => negb (allocated s) end in
    let '(slot, containerPorts, vars) :=
      if free then
        let '(s, containerPorts, vars) :=
          fill_slot (Z.to_nat HostPortNumPerRange) containerPorts (new_slot startingPort slotNo) vars in
        (Some s, containerPorts, vars)
      else (slot, containerPorts, vars) in
    let '(done, rest, vars) := alloc_slots startingPort (slotNo + 1) rest containerPorts vars in
    (done, slot :: rest, vars)
  end.

Definition allocateHostPort (containerPorts : list nat) (vars : port_vars) :
    SM HostPortRange port_vars := fun pm =>
  let '(done, slots, vars) := alloc_slots (startingPort pm) 0 (rangeSlots pm) containerPorts vars in
  if done then (Ok vars, set_rangeSlots slots pm)
  else match release_ports (startingPort pm) vars containerPorts slots with
       | Ok slots => (Err InSufficientHostPortError, set_rangeSlots slots pm)
       | Err e => (Err e, set_rangeSlots slots pm)
       end.

(** One port of [initRangeWithContainerPorts]; [math.Max] on two 32-bit integers is exact. *)
Definition init_port (startingPort : Z) (cont : ContainerPort) (slots : list (option RangeSlot)) :
    result (list (option RangeSlot)) :=
  if cp_HostPort cont <=? 0 then Ok slots
  else
    let slotNo := slot_of startingPort (cp_HostPort cont) in
    let slots :=
      if Z.of_nat (List.length slots) <=? slotNo
      then take (Z.to_nat (slotNo + 10)) slots
             ++ replicate (Z.to_nat (slotNo + 10) - List.length slots) None
      else slots in
    if slot_panics slots slotNo then Err index_panic
    else
      let slot := match slots !! Z.to_nat slotNo with
                  | Some (Some slot) => slot
                  | _ => new_slot startingPort slotNo
                  end in
      Ok (<[Z.to_nat slotNo :=
              Some (mkRangeSlot (i32 (allocatedPorts slot + 1)) (rangeSize slot)
                      (Z.max (nextPortNum slot) (cp_HostPort cont)) true)]> slots).

Fixpoint init_ports (startingPort : Z) (containerPorts : list ContainerPort)
    (slots : list (option RangeSlot)) : result (list (option RangeSlot)) :=
  match containerPorts with
  | [] => Ok slots
  | cont :: containerPorts =>
    let? slots := init_port startingPort cont slots in
    init_ports startingPort containerPorts slots
  end.

Definition initRangeWithContainerPorts (containerPorts : list ContainerPort) : SM HostPortRange unit :=
  fun pm =>
  match init_ports (startingPort pm) containerPorts (rangeSlots pm) with
  | Ok slots => (Ok (), set_rangeSlots slots pm)
  | Err e => (Err e, pm)
  end.

Section PodPorts.
Context {QL : QuantityLib}.

(** [for _, port := range cont.Ports { containerPorts = append(containerPorts, &port) }] *)
Definition range_ports (st : port_vars * list nat) (cont : Container) : port_vars * list nat :=
  let '(vars, containerPorts) := st in
  let port := List.length vars in
  foldl (fun '(vars, containerPorts) v => (<[port := v]> vars, containerPorts ++ [port]))
    (vars ++ [zero_port], containerPorts) (c_Ports cont).
Definition port_pointers (containers : list Container) : port_vars * list nat :=
  foldl range_ports ([], []) containers.

Definition GetContainerPorts (pod : Pod) : list ContainerPort :=
  foldl (fun acc cont => acc ++ c_Ports cont) [] (Containers (Spec pod)).

(** The update of one port of the spec by every allocated port with its container port. *)
Definition map_port (nodeIp : string) (vars : port_vars) (containerPorts : list nat)
    (contPort : ContainerPort) : ContainerPort :=
  foldl (fun port p =>
    let v := deref vars p in
    if bool_decide (cp_ContainerPort v = cp_ContainerPort port)
    then set_HostIP nodeIp (set_HostPort (cp_HostPort v) port)
    else port) contPort containerPorts.
Definition set_Ports (ports : list ContainerPort) (c : Container) : Container :=
  mkContainer _ (c_Name c) (c_Image c) ports (c_Env c) (c_Requests c) (c_Hooks c).

Definition AllocatePodPortMapping (nodeIp : string) (pod : Pod) : SM HostPortRange Pod :=
  let '(vars, containerPorts) := port_pointers (Containers (Spec pod)) in
  do! vars <- allocateHostPort containerPorts vars;
  sm_ret (mkObject (om pod)
    (mkPodSpec _ (map (fun cont => set_Ports (map (map_port nodeIp vars containerPorts) (c_Ports cont)) cont)
                   (Containers (Spec pod))) (InitContainers (Spec pod)) (HostNetwork (Spec pod))) (Status pod)).

Definition DeallocatePodPortMapping (pod : Pod) : SM HostPortRange unit :=
  let '(vars, containerPorts) := port_pointers (Containers (Spec pod)) in
  deallocateHostPort vars containerPorts.

Definition initNodePortRangeSlot (pod : Pod) : SM HostPortRange unit :=
  initRangeWithContainerPorts (GetContainerPorts pod).

End PodPorts.

(** ** Releasing ports *)

Section RangeLemmas.

(** Every host port number of the range fits into 32 bits. *)
Definition range_ok (start : Z) (n : nat) : Prop := 1 <= start /\ start + 10 * Z.of_nat n < 2 ^ 31.

Definition hp (vars : port_vars) (p : nat) : Z := cp_HostPort (deref vars p).
(** The slot of a port of the range, counted from [start]. *)
Definition in_slot (start : Z) (j : nat) (h : Z) : Prop :=
  start + 10 * Z.of_nat j <= h < start + 10 * (Z.of_nat j + 1).
#[export] Instance in_slot_dec start j h : Decision (in_slot start j h).
Proof. unfold in_slot. solve_decision. Defined.

Lemma slot_of_in_slot start n j h :
  range_ok start n -> (j < n)%nat -> in_slot start j h -> slot_of start h = Z.of_nat j.
Proof.
  intros [Hs Hn] Hj [H1 H2]. unfold slot_of, HostPortNumPerRange.
  rewrite wraps_small by lia. dlia.
Qed.

Lemma in_slot_unique start j k h : in_slot start j h -> in_slot start k h -> j = k.
Proof. unfold in_slot. lia. Qed.

Lemma in_slot_exists start n h :
  start <= h < start + 10 * Z.of_nat n -> exists j, (j < n)%nat /\ in_slot start j h.
Proof. intros Hh. exists (Z.to_nat ((h - start) / 10)). unfold in_slot. split; dlia. Qed.

Lemma deref_insert vars p q v :
  (p < List.length vars)%nat ->
  deref (<[p := v]> vars) q = if decide (p = q) then v else deref vars q.
Proof.
  intros Hp. unfold deref. destruct (decide (p = q)) as [->|Hpq].
  - by rewrite list_lookup_insert_eq by done.
  - by rewrite list_lookup_insert_ne by done.
Qed.

(** A slot that loses [n] of its ports. *)
Definition shrink_slot (n : nat) (o : option RangeSlot) : option RangeSlot :=
  match o with
  | Some s =>
    if (n =? 0)%nat then Some s
    else if allocatedPorts s <=? Z.of_nat n then None
    else Some (mkRangeSlot (allocatedPorts s - Z.of_nat n) (rangeSize s) (nextPortNum s) (allocated s))
  | None => None
  end.

(** How many of the pointers lead to a port of slot [j]. *)
Fixpoint hits (start : Z) (vars : port_vars) (ptrs : list nat) (j : nat) : nat :=
  match ptrs with
  | [] => 0
  | p :: ptrs => (if decide (in_slot start j (hp vars p)) then 1 else 0) + hits start vars ptrs j
  end.

Definition slot_wf (s : RangeSlot) : Prop := 1 <= allocatedPorts s < 2 ^ 31 /\ allocated s = true.
Definition slots_wf (slots : list (option RangeSlot)) : Prop :=
  forall j s, slots !! j = Some (Some s) -> slot_wf s.

Lemma shrink_slot_0 o : shrink_slot 0 o = o.
Proof. by destruct o. Qed.

Lemma shrink_slot_add m n o :
  (forall s, o = Some s -> slot_wf s) -> shrink_slot n (shrink_slot m o) = shrink_slot (m + n) o.
Proof.
  intros Hwf. destruct o as [s|]; [|done]. destruct (Hwf s eq_refl) as [Hs _]. unfold shrink_slot.
  destruct (Nat.eqb_spec m 0) as [->|Hm]; [done|].
  rewrite (proj2 (Nat.eqb_neq (m + n) 0)) by lia.
  destruct (Z.leb_spec (allocatedPorts s) (Z.of_nat m)) as [Hle|Hle].
  { by rewrite (proj2 (Z.leb_le _ _)) by lia. }
  cbn [allocatedPorts rangeSize nextPortNum allocated].
  destruct (Nat.eqb_spec n 0) as [->|Hn].
  { rewrite (proj2 (Z.leb_gt _ _)) by lia. by rewrite Nat.add_0_r. }
  destruct (Z.leb_spec (allocatedPorts s - Z.of_nat m) (Z.of_nat n)),
    (Z.leb_spec (allocatedPorts s) (Z.of_nat (m + n))); [done|lia..|]. do 2 f_equal. lia.
Qed.

Lemma shrink_slot_wf n s s' : slot_wf s -> shrink_slot n (Some s) = Some s' -> slot_wf s'.
Proof.
  unfold shrink_slot, slot_wf. intros [Hs Ha]. repeat case_match; intros [= <-]; simpl; [done|].
  split; [|done]. rewrite Z.leb_gt in *. rewrite Nat.eqb_neq in *. lia.
Qed.

Lemma release_port_spec start slots v :
  range_ok start (List.length slots) -> slots_wf slots ->
  cp_HostPort v <= 0 \/ start <= cp_HostPort v < start + 10 * Z.of_nat (List.length slots) ->
  exists slots', release_port start v slots = Ok slots' /\ List.length slots' = List.length slots /\
    forall j, slots' !! j =
      shrink_slot (if decide (in_slot start j (cp_HostPort v)) then 1 else 0) <$> slots !! j.
Proof.
  intros Hok Hwf Hv. unfold release_port.
  assert (cp_HostPort v <= 0 -> forall j, ~ in_slot start j (cp_HostPort v)) as Hout
    by (destruct Hok; unfold in_slot; lia).
  destruct (Z.ltb_spec 0 (cp_HostPort v)) as [Hpos|Hneg].
  2:{ exists slots. split_and!; [done..|]. intros j. rewrite decide_False by (apply Hout; lia).
      destruct (slots !! j) as [o|]; simpl; [by rewrite shrink_slot_0|done]. }
  destruct (in_slot_exists start (List.length slots) (cp_HostPort v)) as (j & Hj & Hin); [lia|].
  rewrite (slot_of_in_slot start _ j) by done. unfold slot_panics.
  rewrite (proj2 (Z.ltb_ge _ 0)), (proj2 (Z.leb_gt _ _)), Nat2Z.id by lia. simpl.
  destruct (lookup_lt_is_Some_2 slots j Hj) as [o Ho]. rewrite Ho.
  assert (forall k, k <> j -> slots !! k = shrink_slot
    (if decide (in_slot start k (cp_HostPort v)) then 1 else 0) <$> slots !! k) as Hother.
  { intros k Hk. rewrite decide_False by (intros ?; by eapply Hk, in_slot_unique).
    destruct (slots !! k) as [o'|]; simpl; [by rewrite shrink_slot_0|done]. }
  destruct o as [s|].
  - eexists. split_and!; [done|by rewrite length_insert|]. intros k.
    destruct (decide (k = j)) as [->|Hk].
    + rewrite list_lookup_insert_eq, Ho, decide_True by done. simpl.
      destruct (Hwf _ _ Ho) as [Hs _]. rewrite wraps_small by lia. f_equal.
      change (Z.of_nat 1) with 1.
      destruct (Z.leb_spec (allocatedPorts s - 1) 0), (Z.leb_spec (allocatedPorts s) 1); (done || lia).
    + rewrite list_lookup_insert_ne by done. by apply Hother.
  - exists slots. split_and!; [done..|]. intros k. destruct (decide (k = j)) as [->|Hk].
    + by rewrite Ho, decide_True by done.
    + by apply Hother.
Qed.

(** Releasing the ports behind some pointers takes from each slot as many ports as pointers lead to
    it, and frees the slot when none is left. *)
Lemma release_ports_spec start vars ptrs : forall slots,
  range_ok start (List.length slots) -> slots_wf slots ->
  (forall p, p ∈ ptrs -> hp vars p <= 0 \/
     start <= hp vars p < start + 10 * Z.of_nat (List.length slots)) ->
  exists slots', release_ports start vars ptrs slots = Ok slots' /\
    List.length slots' = List.length slots /\
    forall j, slots' !! j = shrink_slot (hits start vars ptrs j) <$> slots !! j.
Proof.
  induction ptrs as [|p ptrs IH]; intros slots Hok Hwf Hp; simpl.
  - exists slots. split_and!; [done..|]. intros j.
    destruct (slots !! j); simpl; [by rewrite shrink_slot_0|done].
  - destruct (release_port_spec start slots (deref vars p)) as (slots1 & -> & Hlen & Hl);
      [done|done|apply Hp; left|]. simpl.
    destruct (IH slots1) as (slots' & -> & Hlen' & Hl').
    + by rewrite Hlen.
    + intros j s Hj. rewrite Hl in Hj. destruct (slots !! j) as [[s0|]|] eqn:E; simplify_eq/=;
        [|by case_match..]. by eapply shrink_slot_wf, Hj; eapply Hwf.
    + intros q Hq. rewrite Hlen. apply Hp. by right.
    + exists slots'. split_and!; [done|by rewrite Hlen', Hlen|]. intros j. rewrite Hl', Hl.
      destruct (slots !! j) as [o|] eqn:E; simpl; [|done]. f_equal. apply shrink_slot_add.
      intros s ->. by eapply Hwf.
Qed.

Lemma hits_none start vars ptrs j :
  (forall p, p ∈ ptrs -> ~ in_slot start j (hp vars p)) -> hits start vars ptrs j = 0%nat.
Proof.
  induction ptrs as [|p ptrs IH]; intros Hp; [done|]. simpl.
  rewrite decide_False by (apply Hp; left). apply IH. intros q Hq. apply Hp. by right.
Qed.
Lemma hits_all start vars ptrs j :
  (forall p, p ∈ ptrs -> in_slot start j (hp vars p)) -> hits start vars ptrs j = List.length ptrs.
Proof.
  induction ptrs as [|p ptrs IH]; intros Hp; [done|]. simpl.
  rewrite decide_True by (apply Hp; left). rewrite IH; [done|]. intros q Hq. apply Hp. by right.
Qed.
Lemma hits_app start vars l1 l2 j :
  hits start vars (l1 ++ l2) j = (hits start vars l1 j + hits start vars l2 j)%nat.
Proof. induction l1 as [|p l1 IH]; simpl; [done|]. by rewrite IH, Nat.add_assoc. Qed.
Lemma hits_ext start vars vars' ptrs j :
  (forall p, p ∈ ptrs -> hp vars p = hp vars' p) ->
  hits start vars ptrs j = hits start vars' ptrs j.
Proof.
  induction ptrs as [|p ptrs IH]; intros Hp; [done|]. simpl.
  rewrite (Hp p) by left. rewrite IH; [done|]. intros q Hq. apply Hp. by right.
Qed.

(** ** Taking ports *)

Definition fits (vars : port_vars) (ptrs : list nat) : Prop :=
  forall p, p ∈ ptrs -> (p < List.length vars)%nat.

(** What filling variables changes: only the host ports of the given pointers. *)
Record filled (ptrs : list nat) (vars vars' : port_vars) : Prop := {
  filled_length : List.length vars' = List.length vars;
  filled_port p : cp_ContainerPort (deref vars' p) = cp_ContainerPort (deref vars p);
  filled_other p : p ∉ ptrs -> deref vars' p = deref vars p
}.

Lemma filled_refl ptrs vars : filled ptrs vars vars.
Proof. by split. Qed.
Lemma filled_trans l1 l2 vars1 vars2 vars3 :
  filled l1 vars1 vars2 -> filled l2 vars2 vars3 -> filled (l1 ++ l2) vars1 vars3.
Proof.
  intros [L1 P1 O1] [L2 P2 O2]. split; [congruence|intros p; by rewrite P2, P1|].
  intros p [H1 H2]%not_elem_of_app. by rewrite O2, O1.
Qed.

Definition distinct_ports (vars : port_vars) (ptrs : list nat) : Prop :=
  forall p q, p ∈ ptrs -> q ∈ ptrs -> p <> q -> hp vars p <> hp vars q.

(** Pointers served later have greater ports. *)
Lemma distinct_ports_app vars1 vars2 l1 l2 b :
  distinct_ports vars1 l1 -> distinct_ports vars2 l2 -> filled l2 vars1 vars2 ->
  (forall p, p ∈ l1 -> hp vars1 p < b) -> (forall p, p ∈ l2 -> b <= hp vars2 p) ->
  distinct_ports vars2 (l1 ++ l2).
Proof.
  intros D1 D2 [_ _ O] Hlt Hge p q.
  assert (forall p, p ∈ l1 -> p ∉ l2 -> hp vars2 p = hp vars1 p) as Hold
    by (intros; unfold hp; by rewrite O).
  rewrite !elem_of_app. intros Hp Hq Hpq.
  destruct (decide (p ∈ l2)), (decide (q ∈ l2)).
  - by apply D2.
  - destruct Hq as [Hq|]; [|done]. rewrite (Hold q) by done. specialize (Hlt q Hq).
    specialize (Hge p ltac:(done)). lia.
  - destruct Hp as [Hp|]; [|done]. rewrite (Hold p) by done. specialize (Hlt p Hp).
    specialize (Hge q ltac:(done)). lia.
  - destruct Hp as [Hp|]; [|done]. destruct Hq as [Hq|]; [|done].
    rewrite !Hold by done. by apply D1.
Qed.

Lemma fill_slot_spec n : forall ptrs slot vars slot' post vars',
  fill_slot n ptrs slot vars = (slot', post, vars') -> fits vars ptrs ->
  0 <= allocatedPorts slot -> allocatedPorts slot + Z.of_nat n < 2 ^ 31 ->
  0 < nextPortNum slot -> nextPortNum slot + Z.of_nat n < 2 ^ 31 ->
  exists pre, ptrs = pre ++ post /\ (List.length pre <= n)%nat /\
    (n <> 0%nat -> ptrs <> [] -> pre <> []) /\
    allocated slot' = allocated slot /\
    allocatedPorts slot' = allocatedPorts slot + Z.of_nat (List.length pre) /\
    filled pre vars vars' /\ distinct_ports vars' pre /\
    forall p, p ∈ pre -> nextPortNum slot <= hp vars' p < nextPortNum slot + Z.of_nat (List.length pre).
Proof.
  assert (forall slot (ptrs : list nat) vars, exists pre, ptrs = pre ++ ptrs /\
    (List.length pre <= 0)%nat /\ allocatedPorts slot = allocatedPorts slot + Z.of_nat (List.length pre) /\
    filled pre vars vars /\ distinct_ports vars pre /\ pre = []) as Hnil.
  { intros slot ptrs vars. exists []. split_and!; [done|done|simpl; lia|apply filled_refl| |done].
    intros p q Hp. by apply elem_of_nil in Hp. }
  induction n as [|n IH]; intros ptrs slot vars slot' post vars' E Hfit Ha Ha' Hn Hn'.
  { simplify_eq/=. destruct (Hnil slot' post vars') as (pre & H1 & H2 & H3 & H4 & H5 & ->).
    exists []. split_and!; try done. intros p Hp. by apply elem_of_nil in Hp. }
  destruct ptrs as [|p ptrs].
  { simplify_eq/=. exists []. destruct (Hnil slot' [] vars') as (pre & _ & _ & H3 & H4 & H5 & ->).
    split_and!; try done; [simpl; lia|]. intros p Hp. by apply elem_of_nil in Hp. }
  cbn [fill_slot] in E.
  assert (p < List.length vars)%nat as Hp by (apply Hfit; left).
  apply IH in E; cbn [allocatedPorts nextPortNum allocated] in *; rewrite ?wraps_small in * by lia; try lia.
  2:{ intros q Hq. rewrite length_insert. apply Hfit. by right. }
  destruct E as (pre & -> & Hlen & _ & Hall & Hcnt & Hfill & Hdist & Hrange).
  assert (filled [p] vars (<[p:=set_HostPort (nextPortNum slot) (deref vars p)]> vars)) as Hone.
  { split; [by rewrite length_insert|..]; intros q; rewrite deref_insert by done.
    - case_decide; [by subst|done].
    - intros Hq. rewrite decide_False; [done|]. intros ->. apply Hq. left. }
  assert (hp (<[p:=set_HostPort (nextPortNum slot) (deref vars p)]> vars) p = nextPortNum slot) as Hhp
    by (unfold hp; rewrite deref_insert, decide_True by done; done).
  exists (p :: pre). split_and!; try done; [simpl; lia|..].
  - simpl. lia.
  - apply (filled_trans [p] pre _ _ _ Hone Hfill).
  - apply (distinct_ports_app _ vars' [p] pre (nextPortNum slot + 1) ltac:(
      intros ? ? ?%list_elem_of_singleton ?%list_elem_of_singleton; congruence) Hdist Hfill).
    + intros q ->%list_elem_of_singleton. lia.
    + intros q Hq. apply Hrange in Hq. lia.
  - intros q Hq. cbn [List.length]. destruct (decide (q ∈ pre)) as [Hin|Hout].
    + apply Hrange in Hin. lia.
    + apply elem_of_cons in Hq as [->|?]; [|done].
      unfold hp in *. rewrite (filled_other _ _ _ Hfill) by done. lia.
Qed.

(** The pointers [pre] got their ports from slots that were free, slot [j] of the list being slot
    [k + j] of the range; the slots in use are as before. *)
Record took (start : Z) (k : nat) (slots slots' : list (option RangeSlot)) (pre : list nat)
    (vars vars' : port_vars) : Prop := {
  took_length : List.length slots' = List.length slots;
  took_wf : slots_wf slots';
  took_filled : filled pre vars vars';
  took_distinct : distinct_ports vars' pre;
  took_kept j s : slots !! j = Some (Some s) -> slots' !! j = Some (Some s);
  took_from p : p ∈ pre -> exists j s,
    slots !! j = Some None /\ slots' !! j = Some (Some s) /\ in_slot start (k + j) (hp vars' p);
  took_count : NoDup pre -> forall j s, slots !! j = Some None -> slots' !! j = Some (Some s) ->
    allocatedPorts s = Z.of_nat (hits start vars' pre (k + j))
}.

Lemma took_refl start k slots vars : slots_wf slots -> took start k slots slots [] vars vars.
Proof.
  intros Hwf. split; try done.
  - intros p q Hp. by apply elem_of_nil in Hp.
  - intros p Hp. by apply elem_of_nil in Hp.
  - intros _ j s H1 H2. congruence.
Qed.

Lemma slots_wf_cons o slots :
  slots_wf (o :: slots) <-> (forall s, o = Some s -> slot_wf s) /\ slots_wf slots.
Proof.
  split.
  - intros Hwf. split.
    + intros s ->. by apply (Hwf 0%nat).
    + intros j. apply (Hwf (Datatypes.S j)).
  - intros [H1 H2] [|j] s Hj; simplify_eq/=; [by apply H1|by eapply H2].
Qed.

Lemma took_skip start k s slots slots' pre vars vars' :
  slot_wf s -> took start (Datatypes.S k) slots slots' pre vars vars' ->
  took start k (Some s :: slots) (Some s :: slots') pre vars vars'.
Proof.
  intros Hs [L W F D K T C]. split; try done.
  - simpl. by rewrite L.
  - apply slots_wf_cons. split; [|done]. by intros ? [= <-].
  - intros [|j] s' Hj; [done|]. by apply K.
  - intros p Hp. destruct (T p Hp) as (j & s' & H1 & H2 & H3). exists (Datatypes.S j), s'.
    split_and!; [done..|]. by rewrite Nat.add_succ_r.
  - intros Hnd [|j] s' H1 H2; [done|]. rewrite Nat.add_succ_r. by apply C.
Qed.

Lemma took_slot start k s slots slots' pre1 pre2 vars vars1 vars' :
  slot_wf s -> allocatedPorts s = Z.of_nat (List.length pre1) ->
  filled pre1 vars vars1 -> distinct_ports vars1 pre1 ->
  (forall p, p ∈ pre1 -> in_slot start k (hp vars1 p)) ->
  took start (Datatypes.S k) slots slots' pre2 vars1 vars' ->
  took start k (None :: slots) (Some s :: slots') (pre1 ++ pre2) vars vars'.
Proof.
  intros Hs Hc F1 D1 R1 [L W F D K T C].
  assert (forall p, p ∈ pre2 -> start + 10 * (Z.of_nat k + 1) <= hp vars' p) as Hge.
  { intros p Hp. destruct (T p Hp) as (j & s' & _ & _ & [H _]). lia. }
  split; try done.
  - simpl. by rewrite L.
  - apply slots_wf_cons. split; [|done]. by intros ? [= <-].
  - by eapply filled_trans.
  - apply (distinct_ports_app vars1 vars' _ _ (start + 10 * (Z.of_nat k + 1))); [done..| |done].
    intros p Hp. by destruct (R1 p Hp).
  - intros [|j] s' Hj; [done|]. by apply K.
  - intros p Hp. destruct (decide (p ∈ pre2)) as [Hp2|Hp2].
    + destruct (T p Hp2) as (j & s' & H1 & H2 & H3). exists (Datatypes.S j), s'.
      split_and!; [done..|]. by rewrite Nat.add_succ_r.
    + apply elem_of_app in Hp as [Hp|?]; [|done]. exists 0%nat, s. split_and!; [done..|].
      rewrite Nat.add_0_r. unfold hp. rewrite (filled_other _ _ _ F) by done. by apply R1.
  - intros (Hnd1 & Hdisj & Hnd2)%NoDup_app j s' H1 H2.
    assert (forall p, p ∈ pre1 -> hp vars' p = hp vars1 p) as Hold.
    { intros p Hp. unfold hp. by rewrite (filled_other _ _ _ F) by (by apply Hdisj). }
    rewrite hits_app, (hits_ext start vars' vars1 pre1) by done.
    destruct j as [|j]; simplify_eq/=; rewrite ?Nat.add_0_r, ?Nat.add_succ_r.
    + rewrite hits_all by done. rewrite hits_none; [rewrite Hc; lia|].
      intros p Hp [_ ?]. specialize (Hge p Hp). lia.
    + rewrite hits_none; [by apply C|]. intros p Hp Hin. apply R1 in Hp.
      pose proof (in_slot_unique _ _ _ _ Hp Hin). lia.
Qed.

Lemma alloc_slots_spec start : forall slots k ptrs vars done slots' vars',
  alloc_slots start (Z.of_nat k) slots ptrs vars = (done, slots', vars') ->
  range_ok start (k + List.length slots) -> slots_wf slots -> fits vars ptrs ->
  exists pre post, ptrs = pre ++ post /\ (done = true -> post = []) /\
    took start k slots slots' pre vars vars'.
Proof.
  induction slots as [|o slots IH]; intros k ptrs vars done slots' vars' E Hok Hwf Hfit.
  { simplify_eq/=. exists [], ptrs. split_and!; [done..|]. by apply took_refl. }
  destruct ptrs as [|p ptrs].
  { simplify_eq/=. exists [], []. split_and!; [done..|]. by apply took_refl. }
  apply slots_wf_cons in Hwf as [Ho Hwf].
  assert (range_ok start (Datatypes.S k + List.length slots)) as Hok'
    by (by rewrite Nat.add_succ_l, <- Nat.add_succ_r).
  cbn [alloc_slots] in E. replace (Z.of_nat k + 1) with (Z.of_nat (Datatypes.S k)) in E by lia.
  destruct o as [s|].
  - destruct (Ho s eq_refl) as [Hs Ha]. rewrite Ha in E. simpl in E.
    destruct (alloc_slots _ _ _ _ _) as [[done1 rest] vars1] eqn:E1. simplify_eq/=.
    destruct (IH _ _ _ _ _ _ E1 Hok' Hwf Hfit) as (pre & post & -> & Hd & Ht).
    exists pre, post. split_and!; [done..|]. by apply took_skip.
  - destruct (fill_slot _ _ _ _) as [[s ptrs1] vars1] eqn:Ef.
    destruct (alloc_slots _ _ _ _ _) as [[done1 rest] vars2] eqn:E1. injection E as <- <- <-.
    destruct Hok as [Hst Hlen]. cbn [List.length] in Hlen.
    assert (nextPortNum (new_slot start (Z.of_nat k)) = start + 10 * Z.of_nat k) as Hnext.
    { unfold new_slot, HostPortNumPerRange; cbn [nextPortNum].
      rewrite (wraps_small 32 (Z.of_nat k)), (wraps_small 32 (Z.of_nat k * 10)), wraps_small; lia. }
    apply fill_slot_spec in Ef as (pre1 & Hpre & Hl & Hne & Ha & Hc & F1 & D1 & R1);
      [|done|unfold new_slot, HostPortNumPerRange; cbn [allocatedPorts]; lia..|rewrite Hnext; lia|
       rewrite Hnext; change (Z.of_nat (Z.to_nat HostPortNumPerRange)) with 10; lia].
    rewrite Hnext in R1. change (Z.to_nat HostPortNumPerRange) with 10%nat in Hl.
    assert (pre1 <> []) as Hpre1 by (by apply Hne).
    destruct (IH _ _ _ _ _ _ E1 Hok' Hwf) as (pre2 & post & -> & Hd & Ht).
    { intros q Hq. rewrite (filled_length _ _ _ F1). apply Hfit. rewrite Hpre. set_solver. }
    exists (pre1 ++ pre2), post. split_and!; [by rewrite Hpre, (assoc_L (++))|done|].
    eapply took_slot; [|done..| |done].
    + destruct pre1; [done|]. unfold slot_wf. rewrite Hc, Ha. cbn [List.length] in *.
      unfold new_slot; cbn [allocatedPorts allocated]. split; [lia|done].
    + intros q Hq. specialize (R1 q Hq). unfold in_slot. lia.
Qed.

End RangeLemmas.

(** ** Pods *)

Section PodPortLemmas.
Context {QL : QuantityLib}.

(** The pointers of a pod: every port of container [k] leads to variable [k], which holds its last
    port. *)
Fixpoint pointer_list (k : nat) (cs : list Container) : list nat :=
  match cs with
  | [] => []
  | c :: cs => replicate (List.length (c_Ports c)) k ++ pointer_list (Datatypes.S k) cs
  end.
Definition last_port (c : Container) : ContainerPort := default zero_port (last (c_Ports c)).

Lemma range_ports_eq vars ptrs c :
  range_ports (vars, ptrs) c =
  (vars ++ [last_port c], ptrs ++ replicate (List.length (c_Ports c)) (List.length vars)).
Proof.
  unfold range_ports, last_port. generalize zero_port as x.
  revert ptrs. induction (c_Ports c) as [|v l IH]; intros ptrs x; simpl; [by rewrite app_nil_r|].
  rewrite insert_app_r_alt, Nat.sub_diag by done. simpl. rewrite IH. f_equal.
  - f_equal. f_equal. rewrite last_cons. by destruct (last l).
  - by rewrite <- (assoc_L (++)).
Qed.

Lemma port_pointers_eq cs : port_pointers cs = (map last_port cs, pointer_list 0 cs).
Proof.
  unfold port_pointers.
  assert (forall vars ptrs, foldl range_ports (vars, ptrs) cs =
    (vars ++ map last_port cs, ptrs ++ pointer_list (List.length vars) cs)) as H.
  { induction cs as [|c cs IH]; intros vars ptrs; [by rewrite !app_nil_r|].
    cbn [foldl]. rewrite range_ports_eq, IH, length_app, Nat.add_1_r. cbn [map pointer_list].
    by rewrite <- !(assoc_L (++)). }
  apply H.
Qed.

Lemma elem_of_pointer_list cs : forall k p,
  p ∈ pointer_list k cs <-> exists i c, cs !! i = Some c /\ p = (k + i)%nat /\ c_Ports c <> [].
Proof.
  induction cs as [|c cs IH]; intros k p; simpl.
  - rewrite elem_of_nil. split; [done|]. intros (i & c & H & _). by rewrite lookup_nil in H.
  - rewrite elem_of_app, elem_of_replicate, IH. split.
    + intros [[-> Hne]|(i & c' & H1 & -> & H3)].
      * exists 0%nat, c. split_and!; [done|lia|]. by destruct (c_Ports c).
      * exists (Datatypes.S i), c'. split_and!; [done|lia|done].
    + intros ([|i] & c' & H1 & -> & H3); simplify_eq/=.
      * left. split; [lia|]. by destruct (c_Ports c').
      * right. exists i, c'. split_and!; [done|lia|done].
Qed.

Lemma deref_last_port cs i c : cs !! i = Some c -> deref (map last_port cs) i = last_port c.
Proof.
  intros H. unfold deref. change (map last_port cs) with (last_port <$> cs).
  by rewrite list_lookup_fmap, H.
Qed.

Lemma pointers_fit cs : fits (map last_port cs) (pointer_list 0 cs).
Proof.
  intros p (i & c & H & -> & _)%elem_of_pointer_list. rewrite length_map.
  by eapply lookup_lt_Some.
Qed.

(** A port of the spec keeps its number and gets the host port of a variable with that number, if
    there is one. *)
Lemma map_port_spec nodeIp vars ptrs port :
  let port' := map_port nodeIp vars ptrs port in
  cp_ContainerPort port' = cp_ContainerPort port /\
  ((port' = port /\ forall p, p ∈ ptrs -> cp_ContainerPort (deref vars p) <> cp_ContainerPort port) \/
   (exists p, p ∈ ptrs /\ cp_ContainerPort (deref vars p) = cp_ContainerPort port /\
     cp_HostPort port' = hp vars p)).
Proof.
  unfold map_port. induction ptrs as [|p ptrs IH] using rev_ind; cbn zeta.
  { split; [done|left]. split; [done|]. intros p Hp. by apply elem_of_nil in Hp. }
  rewrite foldl_app. cbn [foldl]. destruct IH as [Hn IH]. cbn zeta in *.
  set (port1 := foldl _ port ptrs) in *. case_bool_decide as Hc.
  - split; [done|]. right. exists p. rewrite Hc, Hn. split_and!; [set_solver|done|done].
  - split; [done|]. destruct IH as [[-> Hnone]|(q & Hq & H1 & H2)].
    + left. split; [done|]. intros q [Hq| ->%list_elem_of_singleton]%elem_of_app; [by apply Hnone|done].
    + right. exists q. split_and!; [set_solver|done|done].
Qed.

Lemma elem_of_container_ports pod port :
  port ∈ GetContainerPorts pod <-> exists c, c ∈ Containers (Spec pod) /\ port ∈ c_Ports c.
Proof.
  unfold GetContainerPorts.
  assert (forall (cs : list Container) acc, port ∈ foldl (fun acc c => acc ++ c_Ports c) acc cs <->
    port ∈ acc \/ exists c, c ∈ cs /\ port ∈ c_Ports c) as H.
  { induction cs as [|c cs IH]; intros acc; cbn [foldl]; [set_solver|]. rewrite IH. set_solver. }
  rewrite H. set_solver.
Qed.

Lemma last_port_in c : c_Ports c <> [] -> last_port c ∈ c_Ports c.
Proof.
  unfold last_port. intros Hne. destruct (last (c_Ports c)) eqn:E; simpl.
  - apply last_Some in E as [l ->]. set_solver.
  - by apply last_None in E.
Qed.

(** The host ports of a pod. *)
Definition pod_ports (pod : Pod) : list Z :=
  filter (fun h => 0 < h) (map cp_HostPort (GetContainerPorts pod)).
Definition no_host_ports (pod : Pod) : Prop :=
  forall port, port ∈ GetContainerPorts pod -> cp_HostPort port <= 0.

Lemma elem_of_pod_ports pod h :
  h ∈ pod_ports pod <-> exists port, port ∈ GetContainerPorts pod /\ cp_HostPort port = h /\ 0 < h.
Proof. unfold pod_ports. rewrite list_elem_of_filter, list_elem_of_fmap. naive_solver. Qed.

Abbreviation pod_vars pod := (map last_port (Containers (Spec pod))).
Abbreviation pod_pointers pod := (pointer_list 0 (Containers (Spec pod))).

(** The variables of a pod are some of its ports. *)
Lemma pod_vars_hp pod p :
  p ∈ pod_pointers pod -> exists port, port ∈ GetContainerPorts pod /\ hp (pod_vars pod) p = cp_HostPort port.
Proof.
  intros (i & c & Hi & -> & Hne)%elem_of_pointer_list. exists (last_port c). split.
  - apply elem_of_container_ports. exists c. split; [by eapply list_elem_of_lookup_2|by apply last_port_in].
  - unfold hp. simpl. by rewrite (deref_last_port _ _ c).
Qed.

Definition mapped_pod (nodeIp : string) (vars : port_vars) (pod : Pod) : Pod :=
  mkObject (om pod)
    (mkPodSpec _ (map (fun cont => set_Ports (map (map_port nodeIp vars (pod_pointers pod)) (c_Ports cont)) cont)
       (Containers (Spec pod))) (InitContainers (Spec pod)) (HostNetwork (Spec pod))) (Status pod).

Lemma AllocatePodPortMapping_spec nodeIp pod pm r pm' :
  AllocatePodPortMapping nodeIp pod pm = (r, pm') ->
  range_ok (startingPort pm) (List.length (rangeSlots pm)) -> slots_wf (rangeSlots pm) ->
  exists slots pre post vars, pod_pointers pod = pre ++ post /\
    took (startingPort pm) 0 (rangeSlots pm) slots pre (pod_vars pod) vars /\
    ((r = Ok (mapped_pod nodeIp vars pod) /\ post = [] /\ pm' = set_rangeSlots slots pm) \/
     (exists r', release_ports (startingPort pm) vars (pod_pointers pod) slots = r' /\
       match r' with
       | Ok slots' => r = Err InSufficientHostPortError /\ pm' = set_rangeSlots slots' pm
       | Err e => r = Err e
       end)).
Proof.
  unfold AllocatePodPortMapping. rewrite port_pointers_eq, sm_bind_eq. unfold allocateHostPort.
  intros E Hok Hwf. destruct (alloc_slots _ _ _ _ _) as [[done slots] vars] eqn:Ea.
  destruct (alloc_slots_spec _ _ 0 _ _ _ _ _ Ea) as (pre & post & Hp & Hd & Ht);
    [done..|apply pointers_fit|].
  exists slots, pre, post, vars. split_and!; [done..|]. destruct done.
  - left. sm_simpl_in E. simplify_eq. split_and!; [done|by apply Hd|done].
  - right. eexists. split; [done|]. destruct (release_ports _ _ _ _); by simplify_eq.
Qed.

Lemma DeallocatePodPortMapping_spec pod pm :
  range_ok (startingPort pm) (List.length (rangeSlots pm)) -> slots_wf (rangeSlots pm) ->
  (forall h, h ∈ pod_ports pod ->
     startingPort pm <= h < startingPort pm + 10 * Z.of_nat (List.length (rangeSlots pm))) ->
  exists slots, DeallocatePodPortMapping pod pm = (Ok (), set_rangeSlots slots pm) /\
    List.length slots = List.length (rangeSlots pm) /\
    forall j, slots !! j =
      shrink_slot (hits (startingPort pm) (pod_vars pod) (pod_pointers pod) j) <$> rangeSlots pm !! j.
Proof.
  intros Hok Hwf Hp. unfold DeallocatePodPortMapping, deallocateHostPort. rewrite port_pointers_eq.
  destruct (release_ports_spec (startingPort pm) (pod_vars pod) (pod_pointers pod) (rangeSlots pm))
    as (slots & -> & Hlen & Hl); [done..| |by exists slots].
  intros p (port & Hport & Heq)%pod_vars_hp. rewrite Heq.
  destruct (Z.lt_ge_cases 0 (cp_HostPort port)); [right|by left]. apply Hp.
  apply elem_of_pod_ports. by exists port.
Qed.

(** ** The node's pods *)

(** Slot [j] belongs to a pod: one of its host ports is of the slot. *)
Definition uses (start : Z) (j : nat) (pod : Pod) : Prop :=
  exists h, h ∈ pod_ports pod /\ in_slot start j h.
Definition in_use (pm : HostPortRange) (j : nat) : Prop := exists s, rangeSlots pm !! j = Some (Some s).
(** No pod uses a slot of [pod]. *)
Definition apart (start : Z) (pod : Pod) (pods : list Pod) : Prop :=
  forall q j, q ∈ pods -> uses start j q -> ~ uses start j pod.

(** The range of a node; the pods whose ports are accounted for; after a restart the pods that run and whose ports
    have not been taken back yet; the pods whose ports are not accounted for but may be given back, that is those
    that gave them back before and those found terminated at a restart; and whether ports were given back
    that a pod still uses. *)
Record port_world := mkPortWorld {
  pw_range : HostPortRange;
  pw_live : list Pod;
  pw_down : list Pod;
  pw_gone : list Pod;
  pw_stray : bool
}.
Abbreviation pw_running w := (pw_live w ++ pw_down w).
Abbreviation pw_known w := (pw_running w ++ pw_gone w).

(** What the node actor does to the range.  [AllocatePodPortMapping] is called once the agent has recovered its
    pods; the ports of a pod are given back by every report of its clean-up ([cleanupPodStoreAndActor]),
    also while [recreatePodStateFromRuntimeSummary] goes through the running pods.  The counters do not overflow. *)
Inductive port_step : port_world -> port_world -> Prop :=
  | ps_allocate nodeIp pod pod' pm pm' live gone stray :
    no_host_ports pod -> AllocatePodPortMapping nodeIp pod pm = (Ok pod', pm') ->
    port_step (mkPortWorld pm live [] gone stray) (mkPortWorld pm' (live ++ [pod']) [] gone stray)
  | ps_refuse nodeIp pod e pm pm' live gone stray :
    no_host_ports pod -> AllocatePodPortMapping nodeIp pod pm = (Err e, pm') ->
    port_step (mkPortWorld pm live [] gone stray) (mkPortWorld pm' live [] gone stray)
  | ps_deallocate pod pm pm' live1 live2 down gone stray :
    DeallocatePodPortMapping pod pm = (Ok (), pm') ->
    port_step (mkPortWorld pm (live1 ++ pod :: live2) down gone stray)
      (mkPortWorld pm' (live1 ++ live2) down (gone ++ [pod]) stray)
  | ps_again pod pm pm' live down gone stray stray' :
    pod ∈ gone -> DeallocatePodPortMapping pod pm = (Ok (), pm') ->
    stray' = true \/ stray' = stray /\ apart (startingPort pm) pod live ->
    port_step (mkPortWorld pm live down gone stray) (mkPortWorld pm' live down gone stray')
  | ps_restart running terminated pm live down gone gone' stray :
    live ++ down ≡ₚ running ++ terminated -> gone' ⊆ live ++ down ++ gone ->
    port_step (mkPortWorld pm live down gone stray)
      (mkPortWorld (NewHostPortRange (List.length (rangeSlots pm)) (startingPort pm)) [] running gone' stray)
  | ps_recover pod pm pm' live down gone stray :
    initNodePortRangeSlot pod pm = (Ok (), pm') ->
    Z.of_nat (List.length (GetContainerPorts pod)) < 2 ^ 31 ->
    (forall j s, rangeSlots pm !! j = Some (Some s) ->
       allocatedPorts s + Z.of_nat (List.length (GetContainerPorts pod)) < 2 ^ 31) ->
    port_step (mkPortWorld pm live (pod :: down) gone stray) (mkPortWorld pm' (live ++ [pod]) down gone stray).
Definition new_world (n : nat) (start : Z) : port_world := mkPortWorld (NewHostPortRange n start) [] [] [] false.

Definition exclusive (start : Z) (pods : list Pod) : Prop := forall a b pod pod' j,
  pods !! a = Some pod -> pods !! b = Some pod' -> uses start j pod -> uses start j pod' -> a = b.
Record port_inv (start : Z) (n : nat) (pm : HostPortRange) (live : list Pod) : Prop := {
  inv_start : startingPort pm = start;
  inv_length : List.length (rangeSlots pm) = n;
  inv_slots : slots_wf (rangeSlots pm);
  inv_owned pod h : pod ∈ live -> h ∈ pod_ports pod -> exists j, in_use pm j /\ in_slot start j h;
  inv_excl : exclusive start live
}.
(** In every world the range is sound and the known pods have their ports in it; unless there was a stray release,
    the ports are accounted for and no slot belongs to two pods. *)
Definition in_range (start : Z) (n : nat) (pods : list Pod) : Prop :=
  forall pod h, pod ∈ pods -> h ∈ pod_ports pod -> start <= h < start + 10 * Z.of_nat n.
Record world_inv (start : Z) (n : nat) (w : port_world) : Prop := {
  wl_range : port_inv start n (pw_range w) [];
  wl_ports : in_range start n (pw_known w);
  wl_owned : pw_stray w = false -> port_inv start n (pw_range w) (pw_live w) /\ exclusive start (pw_running w)
}.

Lemma exclusive_apart start pods1 pod pods2 :
  exclusive start (pods1 ++ pod :: pods2) -> apart start pod (pods1 ++ pods2).
Proof.
  intros He q j Hq Hu Hu'.
  assert (exists a, (pods1 ++ pod :: pods2) !! a = Some q /\ a <> List.length pods1) as (a & Ha & Hne).
  { apply elem_of_app in Hq as [[a Ha]%list_elem_of_lookup_1|[a Ha]%list_elem_of_lookup_1].
    - exists a. split; [by apply lookup_app_l_Some|]. apply lookup_lt_Some in Ha. lia.
    - exists (List.length pods1 + Datatypes.S a)%nat. split; [|lia].
      rewrite lookup_app_r, Nat.add_comm, Nat.add_sub by lia. done. }
  apply Hne, (He _ _ q pod j Ha); [|done..]. by apply list_lookup_middle.
Qed.
Lemma exclusive_intro start pods :
  (forall pods1 pod pods2, pods = pods1 ++ pod :: pods2 -> apart start pod (pods1 ++ pods2)) -> exclusive start pods.
Proof.
  intros H a b p q j Ha Hb Hp Hq. destruct (decide (a = b)) as [|Hne]; [done|exfalso].
  destruct (list_elem_of_split_length _ _ _ Hb) as (l1 & l2 & -> & Hlen).
  apply (H l1 q l2 eq_refl p j); [|done..]. apply elem_of_app. destruct (decide (a < b)%nat).
  - left. rewrite lookup_app_l in Ha by lia. by eapply list_elem_of_lookup_2.
  - right. rewrite lookup_app_r in Ha by lia. destruct (a - List.length l1)%nat eqn:E; [lia|]. by eapply list_elem_of_lookup_2.
Qed.
(** Only which pods there are matters, and losing pods does no harm. *)
Lemma exclusive_part start pods pods1 pods2 : pods ≡ₚ pods1 ++ pods2 -> exclusive start pods -> exclusive start pods1.
Proof.
  intros Hp He. apply exclusive_intro. intros l1 pod l2 ->. intros q j Hq.
  assert (pod :: (l1 ++ l2 ++ pods2) ≡ₚ pods) as Hp' by (rewrite Hp; solve_Permutation).
  apply Permutation_cons_inv_l in Hp' as (k1 & k2 & -> & Hk). apply (exclusive_apart _ _ _ _ He).
  rewrite <- Hk. set_solver.
Qed.

Lemma in_use_range pm j : in_use pm j -> (j < List.length (rangeSlots pm))%nat.
Proof. intros [s H]. by eapply lookup_lt_Some. Qed.

Lemma inv_bounds start n pm live pod h :
  port_inv start n pm live -> pod ∈ live -> h ∈ pod_ports pod -> start <= h < start + 10 * Z.of_nat n.
Proof.
  intros [Hs Hl Hwf Ho _] Hpod Hh. destruct (Ho _ _ Hpod Hh) as (j & Hj%in_use_range & Hin).
  rewrite Hl in Hj. unfold in_slot in Hin. lia.
Qed.

Lemma inv_use start n pm live pod j :
  port_inv start n pm live -> pod ∈ live -> uses start j pod -> in_use pm j.
Proof.
  intros [_ _ _ Ho _] Hpod (h & Hh & Hin). destruct (Ho _ _ Hpod Hh) as (k & Hk & Hin').
  by rewrite (in_slot_unique _ _ _ _ Hin Hin').
Qed.

(** The invariant only looks at the slots in use and may lose pods. *)
Lemma inv_slots_kept start n pm pm' live :
  port_inv start n pm live -> startingPort pm' = start -> List.length (rangeSlots pm') = n ->
  slots_wf (rangeSlots pm') ->
  (forall pod j, pod ∈ live -> uses start j pod -> in_use pm j -> in_use pm' j) ->
  port_inv start n pm' live.
Proof.
  intros Hinv Hs Hl Hwf Huse. split; [done..| |apply (inv_excl _ _ _ _ Hinv)].
  intros pod h Hpod Hh. destruct (inv_owned _ _ _ _ Hinv _ _ Hpod Hh) as (j & Hj & Hin).
  exists j. split; [|done]. apply (Huse pod); [done|by exists h|done].
Qed.

Lemma mapped_ports nodeIp vars pod h :
  no_host_ports pod -> h ∈ pod_ports (mapped_pod nodeIp vars pod) ->
  exists p, p ∈ pod_pointers pod /\ h = hp vars p.
Proof.
  intros Hno (port & (c & Hc & Hport)%elem_of_container_ports & <- & Hpos)%elem_of_pod_ports.
  unfold mapped_pod in Hc. cbn [Spec Containers] in Hc.
  apply list_elem_of_fmap in Hc as (c0 & -> & Hc0). cbn [set_Ports c_Ports] in Hport.
  apply list_elem_of_fmap in Hport as (port0 & -> & Hport0).
  destruct (map_port_spec nodeIp vars (pod_pointers pod) port0) as [_ [[Heq _]|(p & Hp & _ & Heq)]].
  - rewrite Heq in Hpos. assert (cp_HostPort port0 <= 0); [|lia].
    apply Hno, elem_of_container_ports. by exists c0.
  - by exists p.
Qed.

Lemma inv_allocate start n pm pm' live nodeIp pod pod' :
  range_ok start n -> port_inv start n pm live -> no_host_ports pod ->
  AllocatePodPortMapping nodeIp pod pm = (Ok pod', pm') -> port_inv start n pm' (live ++ [pod']).
Proof.
  intros Hok Hinv Hno E. pose proof Hinv as [Hs Hl Hwf Ho He].
  apply AllocatePodPortMapping_spec in E as (slots & pre & post & vars & Hp & Ht & E); [|by subst..].
  destruct E as [([= ->] & -> & ->)|(r' & _ & E)].
  2:{ destruct r'; [by destruct E|done]. }
  rewrite app_nil_r in Hp. rewrite Hs in Ht.
  assert (forall j, in_use pm j -> in_use (set_rangeSlots slots pm) j) as Hkeep.
  { intros j [s Hj]. exists s. by apply (took_kept _ _ _ _ _ _ _ Ht). }
  assert (forall h, h ∈ pod_ports (mapped_pod nodeIp vars pod) -> exists j,
    ~ in_use pm j /\ in_use (set_rangeSlots slots pm) j /\ in_slot start j h) as Hnew.
  { intros h (p & Hpp & ->)%mapped_ports; [|done]. rewrite Hp in Hpp.
    destruct (took_from _ _ _ _ _ _ _ Ht p Hpp) as (j & s & H1 & H2 & H3).
    exists j. split_and!; [|by exists s|done]. intros [s' Hs']. by rewrite H1 in Hs'. }
  assert (forall q j, q ∈ live -> uses start j q ->
    ~ uses start j (mapped_pod nodeIp vars pod)) as Hfresh.
  { intros q j Hq Hu (h & Hh & Hin). destruct (Hnew h Hh) as (k & Hk & _ & Hin').
    rewrite (in_slot_unique _ _ _ _ Hin' Hin) in Hk. by apply Hk, (inv_use _ _ _ _ _ _ Hinv Hq). }
  split.
  - done.
  - simpl. by rewrite (took_length _ _ _ _ _ _ _ Ht).
  - apply (took_wf _ _ _ _ _ _ _ Ht).
  - intros q h [Hq| ->%list_elem_of_singleton]%elem_of_app Hh.
    + destruct (Ho q h Hq Hh) as (j & Hj & Hin). exists j. auto.
    + destruct (Hnew h Hh) as (j & _ & Hj & Hin). by exists j.
  - intros a b q q' j Ha Hb Hq Hq'.
    apply lookup_app_Some in Ha as [Ha|[Hla Ha]], Hb as [Hb|[Hlb Hb]].
    + by eapply He.
    + apply list_lookup_singleton_Some in Hb as [_ <-]. exfalso.
      by eapply (Hfresh q j); [eapply list_elem_of_lookup_2|..].
    + apply list_lookup_singleton_Some in Ha as [_ <-]. exfalso.
      by eapply (Hfresh q' j); [eapply list_elem_of_lookup_2|..].
    + apply list_lookup_singleton_Some in Ha as [Ha _], Hb as [Hb _]. lia.
Qed.

(** What a failed allocation leaves behind, when the pod asks for no host ports itself. *)
Lemma refuse_slots nodeIp pod pm e pm' :
  range_ok (startingPort pm) (List.length (rangeSlots pm)) -> slots_wf (rangeSlots pm) ->
  no_host_ports pod -> AllocatePodPortMapping nodeIp pod pm = (Err e, pm') ->
  exists slots slots' pre post vars, pod_pointers pod = pre ++ post /\
    took (startingPort pm) 0 (rangeSlots pm) slots pre (pod_vars pod) vars /\
    e = InSufficientHostPortError /\ pm' = set_rangeSlots slots' pm /\
    List.length slots' = List.length slots /\
    (forall p, p ∈ post -> p ∉ pre -> hp vars p <= 0) /\
    forall j, slots' !! j = shrink_slot (hits (startingPort pm) vars (pod_pointers pod) j) <$> slots !! j.
Proof.
  intros Hok Hwf Hno E.
  apply AllocatePodPortMapping_spec in E as (slots & pre & post & vars & Hp & Ht & E); [|done..].
  destruct E as [([=] & _)|(r' & Er & E)].
  assert (forall p, p ∈ post -> p ∉ pre -> hp vars p <= 0) as Hpost.
  { intros p Hp1 Hp2. unfold hp. rewrite (filled_other _ _ _ (took_filled _ _ _ _ _ _ _ Ht)) by done.
    destruct (pod_vars_hp pod p) as (port & Hport & Heq); [rewrite Hp; set_solver|].
    unfold hp in Heq. rewrite Heq. by apply Hno. }
  destruct (release_ports_spec (startingPort pm) vars (pod_pointers pod) slots)
    as (slots' & Er' & Hl & Hj).
  - by rewrite (took_length _ _ _ _ _ _ _ Ht).
  - apply (took_wf _ _ _ _ _ _ _ Ht).
  - intros p Hpp. rewrite Hp in Hpp. destruct (decide (p ∈ pre)) as [Hin|Hout].
    + right. destruct (took_from _ _ _ _ _ _ _ Ht p Hin) as (j & s & _ & H2%lookup_lt_Some & [H3 H4]).
      lia.
    + left. apply Hpost; [|done]. set_solver.
  - rewrite Er' in Er. subst r'. destruct E as [[= ->] ->].
    exists slots, slots', pre, post, vars. split_and!; done.
Qed.

Lemma inv_refuse start n pm pm' live nodeIp pod e :
  range_ok start n -> port_inv start n pm live -> no_host_ports pod ->
  AllocatePodPortMapping nodeIp pod pm = (Err e, pm') -> port_inv start n pm' live.
Proof.
  intros Hok Hinv Hno E. pose proof Hinv as [Hs Hl Hwf Ho He].
  apply refuse_slots in E as (slots & slots' & pre & post & vars & Hp & Ht & -> & -> & Hl' & Hpost & Hj);
    [|by subst..].
  rewrite Hs in *. apply (inv_slots_kept _ _ pm); [done|done|..].
  - simpl. by rewrite Hl', (took_length _ _ _ _ _ _ _ Ht).
  - intros j s Hs'. cbn [rangeSlots set_rangeSlots] in Hs'. rewrite Hj in Hs'.
    destruct (slots !! j) as [[s0|]|] eqn:E; simplify_eq/=; [|by case_match..].
    by eapply shrink_slot_wf, Hs'; eapply (took_wf _ _ _ _ _ _ _ Ht).
  - intros q j Hq Hu [s Hs']. exists s. cbn [rangeSlots set_rangeSlots].
    rewrite Hj, (took_kept _ _ _ _ _ _ _ Ht j s Hs'), hits_none; [done|].
    intros p Hpp Hin. rewrite Hp in Hpp. destruct (decide (p ∈ pre)) as [Hpre|Hpre].
    + destruct (took_from _ _ _ _ _ _ _ Ht p Hpre) as (k & s' & H1 & _ & H3).
      rewrite (in_slot_unique _ _ _ _ Hin H3) in Hs'. simpl in *. congruence.
    + destruct Hok, Hin. assert (hp vars p <= 0); [|lia]. apply Hpost; set_solver.
Qed.

Lemma inv_release start n pm live pod :
  range_ok start n -> port_inv start n pm live -> in_range start n [pod] -> apart start pod live ->
  exists pm', DeallocatePodPortMapping pod pm = (Ok (), pm') /\ port_inv start n pm' live.
Proof.
  intros Hok Hinv Hr Ha. pose proof Hinv as [Hs Hl Hwf Ho He].
  destruct (DeallocatePodPortMapping_spec pod pm) as (slots & -> & Hlen & Hj).
  - by subst.
  - done.
  - intros h Hh. rewrite Hs, Hl. apply (Hr pod h); [left|done].
  - eexists. split; [done|]. rewrite Hs in Hj. apply (inv_slots_kept _ _ pm); [done|done|..].
    + simpl. by rewrite Hlen.
    + intros j s Hs'. cbn [rangeSlots set_rangeSlots] in Hs'. rewrite Hj in Hs'.
      destruct (rangeSlots pm !! j) as [[s0|]|] eqn:E; simplify_eq/=; [|by case_match..].
      by eapply shrink_slot_wf, Hs'; eapply Hwf.
    + intros q j Hq Hu [s Hs']. exists s. cbn [rangeSlots set_rangeSlots]. rewrite Hj, Hs', hits_none; [done|].
      intros p Hpp Hin. destruct (pod_vars_hp pod p Hpp) as (port & Hport & Heq). apply (Ha q j Hq Hu).
      exists (hp (pod_vars pod) p). split; [|done]. apply elem_of_pod_ports. exists port.
      split_and!; [done|done|]. destruct Hok, Hin. lia.
Qed.

(** *** Starting again *)

(** Every slot in use counts between one and [c] ports. *)
Definition counted (c : Z) (slots : list (option RangeSlot)) : Prop :=
  forall j s, slots !! j = Some (Some s) -> 1 <= allocatedPorts s <= c /\ allocated s = true.

Lemma counted_le c c' slots : counted c slots -> c <= c' -> counted c' slots.
Proof. intros H Hc j s Hj. destruct (H j s Hj). split; [lia|done]. Qed.

Lemma init_port_spec start slots port c :
  range_ok start (List.length slots) -> counted c slots -> 0 <= c -> c + 1 < 2 ^ 31 ->
  cp_HostPort port <= 0 \/ start <= cp_HostPort port < start + 10 * Z.of_nat (List.length slots) ->
  exists slots', init_port start port slots = Ok slots' /\ List.length slots' = List.length slots /\
    counted (c + 1) slots' /\
    (forall j s, slots !! j = Some (Some s) -> exists s', slots' !! j = Some (Some s')) /\
    (0 < cp_HostPort port -> exists j s', slots' !! j = Some (Some s') /\ in_slot start j (cp_HostPort port)).
Proof.
  intros Hok Hc Hc0 Hc1 Hport. unfold init_port.
  destruct (Z.leb_spec (cp_HostPort port) 0) as [Hneg|Hpos].
  { exists slots. split_and!; [done|done|by eapply counted_le; [done|lia]|by eauto|lia]. }
  destruct (in_slot_exists start (List.length slots) (cp_HostPort port)) as (j & Hj & Hin); [lia|].
  rewrite (slot_of_in_slot start _ j) by done. rewrite (proj2 (Z.leb_gt _ _)) by lia.
  unfold slot_panics. rewrite (proj2 (Z.ltb_ge _ 0)), (proj2 (Z.leb_gt _ _)), Nat2Z.id by lia. simpl.
  set (slot := match slots !! j with Some (Some s) => s | _ => new_slot start (Z.of_nat j) end).
  assert (0 <= allocatedPorts slot <= c) as Hslot.
  { unfold slot. destruct (slots !! j) as [[s|]|] eqn:E; [|unfold new_slot; simpl; lia..].
    destruct (Hc _ _ E). lia. }
  eexists. split_and!; [done|by rewrite length_insert|..].
  - intros k s Hk. destruct (decide (j = k)) as [<-|Hne].
    + rewrite list_lookup_insert_eq in Hk by done. injection Hk as <-. cbn [allocatedPorts allocated].
      rewrite wraps_small by lia. split; [lia|done].
    + rewrite list_lookup_insert_ne in Hk by done. destruct (Hc _ _ Hk). split; [lia|done].
  - intros k s Hk. destruct (decide (j = k)) as [<-|Hne].
    + rewrite list_lookup_insert_eq by done. by eexists.
    + rewrite list_lookup_insert_ne by done. by eexists.
  - intros _. exists j. rewrite list_lookup_insert_eq by done. by eexists.
Qed.

Lemma init_ports_spec start n ports : forall slots c,
  range_ok start n -> List.length slots = n -> counted c slots -> 0 <= c ->
  c + Z.of_nat (List.length ports) < 2 ^ 31 ->
  (forall port, port ∈ ports -> cp_HostPort port <= 0 \/ start <= cp_HostPort port < start + 10 * Z.of_nat n) ->
  exists slots', init_ports start ports slots = Ok slots' /\ List.length slots' = n /\
    counted (c + Z.of_nat (List.length ports)) slots' /\
    (forall j s, slots !! j = Some (Some s) -> exists s', slots' !! j = Some (Some s')) /\
    (forall port, port ∈ ports -> 0 < cp_HostPort port ->
       exists j s', slots' !! j = Some (Some s') /\ in_slot start j (cp_HostPort port)).
Proof.
  induction ports as [|port ports IH]; intros slots c Hok Hn Hc Hc0 Hc1 Hp; cbn [init_ports].
  { exists slots. split_and!; [done..| |by eauto|set_solver]. by eapply counted_le; [done|simpl; lia]. }
  cbn [List.length] in *.
  destruct (init_port_spec start slots port c) as (slots1 & -> & Hl1 & Hc1' & Hk1 & Hn1);
    [by subst|done|done|lia|subst n; apply Hp; left|]. cbn [bind_result].
  destruct (IH slots1 (c + 1)) as (slots' & -> & Hl' & Hc' & Hk' & Hn');
    [done|by subst n|done|lia|lia|intros q Hq; apply Hp; by right|].
  exists slots'. split_and!; [done|done| | |].
  - eapply counted_le; [done|lia].
  - intros j s Hj. destruct (Hk1 j s Hj) as [s1 Hj1]. by eapply Hk'.
  - intros q [->|Hq]%elem_of_cons Hpos; [|by apply Hn']. destruct (Hn1 Hpos) as (j & s1 & Hj & Hin).
    destruct (Hk' j s1 Hj) as [s' Hj']. by exists j, s'.
Qed.

Lemma inv_recover start n pm pod live :
  range_ok start n -> port_inv start n pm live -> in_range start n [pod] -> exclusive start (live ++ [pod]) ->
  Z.of_nat (List.length (GetContainerPorts pod)) < 2 ^ 31 ->
  (forall j s, rangeSlots pm !! j = Some (Some s) ->
     allocatedPorts s + Z.of_nat (List.length (GetContainerPorts pod)) < 2 ^ 31) ->
  exists pm', initNodePortRangeSlot pod pm = (Ok (), pm') /\ port_inv start n pm' (live ++ [pod]).
Proof.
  intros Hok [Hs Hl Hwf Ho _] Hr Hex Hlen Hcount. unfold initNodePortRangeSlot, initRangeWithContainerPorts. rewrite Hs.
  destruct (init_ports_spec start n (GetContainerPorts pod) (rangeSlots pm)
    (2 ^ 31 - 1 - Z.of_nat (List.length (GetContainerPorts pod)))) as (slots & -> & Hl' & Hcs & Hk & Hnew); [done|done| |lia|lia| |].
  { intros j s Hj. destruct (Hwf j s Hj) as [? ?]. specialize (Hcount j s Hj). split; [lia|done]. }
  { intros port Hport. destruct (Z.lt_ge_cases 0 (cp_HostPort port)); [right|by left].
    apply (Hr pod); [left|]. apply elem_of_pod_ports. by exists port. }
  eexists. split; [done|]. split; cbn; [done|done| | |done].
  - intros j s Hj. destruct (Hcs j s Hj). split; [lia|done].
  - intros q h [Hq| ->%list_elem_of_singleton]%elem_of_app Hh.
    + destruct (Ho q h Hq Hh) as (j & [s Hj] & Hin). exists j. split; [|done]. by apply (Hk j s).
    + apply elem_of_pod_ports in Hh as (port & Hport & <- & Hpos).
      destruct (Hnew port Hport Hpos) as (j & s & Hj & Hin). exists j. split; [by exists s|done].
Qed.

Lemma new_range_inv start n : port_inv start n (NewHostPortRange n start) [].
Proof.
  split; [done|apply length_replicate| |set_solver|done].
  intros j s Hj. unfold NewHostPortRange in Hj. simpl in Hj. by apply lookup_replicate in Hj as [? _].
Qed.
(** The range alone, without the account of the pods. *)
Lemma inv_forget start n pm live : port_inv start n pm live -> port_inv start n pm [].
Proof. intros [Hs Hl Hwf _ _]. split; [done..|set_solver|done]. Qed.
Lemma apart_nil start pod : apart start pod [].
Proof. intros q j Hq. by apply elem_of_nil in Hq. Qed.
Lemma exclusive_one start pod : exclusive start [pod].
Proof. intros a b p q j Ha Hb _ _. apply list_lookup_singleton_Some in Ha as [-> _], Hb as [-> _]. done. Qed.
Lemma in_range_part start n pods pods' : in_range start n pods -> pods' ⊆ pods -> in_range start n pods'.
Proof. intros H Hsub pod h Hp. by apply H, Hsub. Qed.
Lemma in_range_app start n pods pods' : in_range start n pods -> in_range start n pods' -> in_range start n (pods ++ pods').
Proof. intros H H' pod h [Hp|Hp]%elem_of_app; [by apply H|by apply H']. Qed.

Lemma world_release start n pm live down gone gone' stray stray' pod pm' live' :
  range_ok start n -> world_inv start n (mkPortWorld pm live down gone stray) ->
  pod ∈ (live ++ down) ++ gone -> (live' ++ down) ++ gone' ⊆ (live ++ down) ++ gone ->
  (stray' = false -> stray = false /\ exists rest, live ≡ₚ live' ++ rest /\ apart start pod live' /\
     (forall q h, q ∈ live' -> h ∈ pod_ports q -> exists j, in_use pm j /\ in_slot start j h)) ->
  DeallocatePodPortMapping pod pm = (Ok (), pm') -> world_inv start n (mkPortWorld pm' live' down gone' stray').
Proof.
  intros Hok [Hr Hp Ho] Hin Hsub Hstray E. cbn in *.
  assert (in_range start n [pod]) as Hpod by (eapply in_range_part; [exact Hp|]; intros q ->%list_elem_of_singleton; exact Hin).
  split; cbn.
  - destruct (inv_release start n pm [] pod) as (pm1 & E1 & ?); [done..|apply apart_nil|]. congruence.
  - eapply in_range_part; [exact Hp|exact Hsub].
  - intros Hf. destruct (Hstray Hf) as (Hs & rest & Hperm & Ha & Howned). destruct (Ho Hs) as [Hi He]. split.
    + destruct (inv_release start n pm live' pod) as (pm1 & E1 & ?); [done| |done|done|congruence].
      destruct Hi as [? ? ? _ Hx]. split; [done..|]. by eapply exclusive_part.
    + eapply (exclusive_part _ _ _ rest); [|exact He]. rewrite Hperm. solve_Permutation.
Qed.

Lemma port_step_inv start n w w' : range_ok start n -> world_inv start n w -> port_step w w' -> world_inv start n w'.
Proof.
  intros Hok Hinv Hstep. pose proof Hinv as [Hr Hp Ho].
  destruct Hstep as [nodeIp pod pod' pm pm' live gone stray Hno E|nodeIp pod e pm pm' live gone stray Hno E
    |pod pm pm' live1 live2 down gone stray E|pod pm pm' live down gone stray stray' Hin E Hst
    |running terminated pm live down gone gone' stray Hperm Hsub|pod pm pm' live down gone stray E Hlen Hcount]; cbn in *.
  - pose proof (inv_allocate start n pm pm' [] nodeIp pod pod' Hok Hr Hno E) as Hnew. split; cbn; rewrite ?app_nil_r in *.
    + by eapply inv_forget.
    + rewrite <- app_assoc. apply in_range_app; [eapply in_range_part; [exact Hp|clear; set_solver]|].
      apply in_range_app; [|eapply in_range_part; [exact Hp|clear; set_solver]]. intros q h. by eapply inv_bounds.
    + intros Hs. destruct (Ho Hs) as [Hi _]. pose proof (inv_allocate start n pm pm' live nodeIp pod pod' Hok Hi Hno E) as H.
      split; [done|apply H].
  - split; cbn; [by eapply inv_refuse|done|]. intros Hs. destruct (Ho Hs) as [Hi He]. split; [by eapply inv_refuse|done].
  - eapply (world_release _ _ _ _ _ _ _ _ _ pod); [done|exact Hinv|clear; set_solver|clear; set_solver| |done].
    intros Hs. split; [done|]. destruct (Ho Hs) as [Hi _]. exists [pod]. split; [solve_Permutation|].
    split; [apply exclusive_apart, Hi|]. intros q h Hq. apply (inv_owned _ _ _ _ Hi). clear -Hq. set_solver.
  - eapply (world_release _ _ _ _ _ _ _ _ _ pod); [done|exact Hinv|clear -Hin; set_solver|done| |done].
    intros Hs. destruct Hst as [->|[-> Ha]]; [done|]. split; [done|]. destruct (Ho Hs) as [Hi _]. exists []. rewrite app_nil_r.
    split; [done|]. rewrite (inv_start _ _ _ _ Hr) in Ha. split; [done|apply Hi].
  - rewrite (inv_start _ _ _ _ Hr), (inv_length _ _ _ _ Hr). split; cbn.
    + apply new_range_inv.
    + assert (running ⊆ live ++ down) as Hrun by (intros q Hq; rewrite Hperm; clear -Hq; set_solver).
      eapply in_range_part; [exact Hp|]. clear -Hrun Hsub. set_solver.
    + intros Hs. destruct (Ho Hs) as [_ He]. split; [apply new_range_inv|]. by eapply exclusive_part.
  - assert (in_range start n [pod]) as Hpod by (eapply in_range_part; [exact Hp|clear; set_solver]). split; cbn.
    + destruct (inv_recover start n pm pod []) as (pm1 & E1 & Hi); [done..|apply exclusive_one|done|done|].
      rewrite E in E1. injection E1 as <-. by eapply inv_forget.
    + eapply in_range_part; [exact Hp|]. clear. set_solver.
    + intros Hs. destruct (Ho Hs) as [Hi He].
      destruct (inv_recover start n pm pod live) as (pm1 & E1 & Hi'); [done..| |done|done|].
      { eapply (exclusive_part _ _ _ down); [|exact He]. by rewrite <- app_assoc. }
      rewrite E in E1. injection E1 as <-. split; [done|]. by rewrite <- app_assoc.
Qed.

(** C36: When host ports of a node can be shared.  Whatever pods are allocated, refused and cleaned up, how often their
    clean-up is reported, and whichever pods the agent finds running or terminated when it starts
    again: unless a pod that did not hold its ports any more gave back ports of a slot that a pod
    uses, no two pods that run have a host port in common.  In any case the host ports of every pod lie in the
    range of the node, and giving back the ports of a pod, once more too, does not panic.
    The pods ask for no host ports themselves. *)
Theorem ports_shared_only_by_stray_release start n w :
  range_ok start n -> rtc port_step (new_world n start) w ->
  (pw_stray w = false -> forall a b pod pod' h, pw_running w !! a = Some pod -> pw_running w !! b = Some pod' -> a <> b ->
     h ∈ pod_ports pod -> h ∉ pod_ports pod') /\
  (forall pod h, pod ∈ pw_known w -> h ∈ pod_ports pod -> start <= h < start + 10 * Z.of_nat n) /\
  (forall pod, pod ∈ pw_known w -> exists pm', DeallocatePodPortMapping pod (pw_range w) = (Ok (), pm')).
Proof.
  intros Hok Hrun. assert (world_inv start n w) as [Hr Hp Ho].
  { revert Hrun. apply rtc_ind_r; [|intros w1 w2 _ Hstep Hi; by eapply port_step_inv].
    split; [apply new_range_inv|intros pod h Hin; by apply elem_of_nil in Hin|]. intros _. split; [apply new_range_inv|done]. }
  split_and!; [|exact Hp|].
  - intros Hs a b pod pod' h Ha Hb Hab Hh Hh'. destruct (Ho Hs) as [_ He].
    destruct (in_slot_exists start n h) as (j & _ & Hj); [apply (Hp pod); [|done]; apply elem_of_app; left; by eapply list_elem_of_lookup_2|].
    apply Hab, (He a b pod pod' j); [done|done|by exists h|by exists h].
  - intros pod Hpod. destruct (inv_release start n (pw_range w) [] pod) as (pm' & E & _); [done|done| |apply apart_nil|by exists pm'].
    eapply in_range_part; [exact Hp|]. intros q ->%list_elem_of_singleton. exact Hpod.
Qed.

(** *** Giving ports back *)

(** Releasing what was taken gives back the slots. *)
Lemma took_undo start slots slots1 slots2 pre vars vars' :
  took start 0 slots slots1 pre vars vars' -> NoDup pre ->
  (forall j, slots2 !! j = shrink_slot (hits start vars' pre j) <$> slots1 !! j) -> slots2 = slots.
Proof.
  intros Ht Hnd Hj. apply list_eq. intros j. rewrite Hj.
  destruct (slots !! j) as [[s|]|] eqn:E.
  - rewrite (took_kept _ _ _ _ _ _ _ Ht j s E), hits_none; [done|].
    intros p Hp Hin. destruct (took_from _ _ _ _ _ _ _ Ht p Hp) as (k & s' & Hk & _ & Hin').
    rewrite (in_slot_unique _ _ _ _ Hin Hin') in E. simpl in E. congruence.
  - destruct (slots1 !! j) as [[s|]|] eqn:E1; [|done|].
    + pose proof (took_count _ _ _ _ _ _ _ Ht Hnd j s E E1) as Hc.
      destruct (took_wf _ _ _ _ _ _ _ Ht j s E1) as [Hs _]. simpl in *.
      rewrite (proj2 (Nat.eqb_neq _ 0)) by lia. by rewrite (proj2 (Z.leb_le _ _)) by lia.
    + apply lookup_lt_Some in E. apply lookup_ge_None in E1.
      rewrite (took_length _ _ _ _ _ _ _ Ht) in E1. lia.
  - apply lookup_ge_None in E. rewrite <- (took_length _ _ _ _ _ _ _ Ht) in E.
    by rewrite (proj2 (lookup_ge_None _ _) E).
Qed.

(** Every container has at most one port. *)
Definition single_ports (pod : Pod) : Prop :=
  forall c, c ∈ Containers (Spec pod) -> (List.length (c_Ports c) <= 1)%nat.
(** No two containers have the same port number. *)
Definition unshared_ports (pod : Pod) : Prop :=
  forall i j c d p q, Containers (Spec pod) !! i = Some c -> Containers (Spec pod) !! j = Some d ->
    p ∈ c_Ports c -> q ∈ c_Ports d -> cp_ContainerPort p = cp_ContainerPort q -> i = j.

Lemma single_pointers pod : single_ports pod -> NoDup (pod_pointers pod).
Proof.
  assert (forall (cs : list Container) k,
    (forall c, c ∈ cs -> (List.length (c_Ports c) <= 1)%nat) -> NoDup (pointer_list k cs)) as H;
    [|by apply H].
  induction cs as [|c cs IH]; intros k Hs; cbn [pointer_list]; [constructor|]. apply NoDup_app. split_and!.
  - assert (List.length (c_Ports c) <= 1)%nat as Hc by (apply Hs; left).
    destruct (List.length (c_Ports c)) as [|[|m]]; [constructor|apply NoDup_singleton|lia].
  - intros p [-> _]%elem_of_replicate (i & d & _ & Hp & _)%elem_of_pointer_list. lia.
  - apply IH. intros d Hd. apply Hs. by right.
Qed.

Lemma mapped_pointers nodeIp vars pod : pod_pointers (mapped_pod nodeIp vars pod) = pod_pointers pod.
Proof.
  unfold mapped_pod. cbn [Spec Containers]. set (f := map_port nodeIp vars (pod_pointers pod)).
  generalize 0%nat as k. generalize (Containers (Spec pod)) as cs.
  induction cs as [|c cs IH]; intros k; cbn [map pointer_list set_Ports c_Ports]; [done|].
  by rewrite length_map, IH.
Qed.

(** The host ports that were assigned are those of the pod's spec. *)
Lemma mapped_vars nodeIp vars pod p :
  single_ports pod -> unshared_ports pod -> filled (pod_pointers pod) (pod_vars pod) vars ->
  p ∈ pod_pointers pod -> hp (pod_vars (mapped_pod nodeIp vars pod)) p = hp vars p.
Proof.
  intros Hsingle Hun Hfill Hp. pose proof Hp as (i & c & Hi & -> & Hne)%elem_of_pointer_list.
  cbn [Nat.add] in *. assert (exists port, c_Ports c = [port]) as [port Hport].
  { assert (List.length (c_Ports c) <= 1)%nat by (by eapply Hsingle, list_elem_of_lookup_2).
    destruct (c_Ports c) as [|port [|]]; [done|by exists port|simpl in *; lia]. }
  assert (forall k d, Containers (Spec pod) !! k = Some d -> c_Ports d <> [] ->
    cp_ContainerPort (deref vars k) = cp_ContainerPort (last_port d)) as Hnum.
  { intros k d Hk _. by rewrite (filled_port _ _ _ Hfill), (deref_last_port _ _ d). }
  unfold hp at 1. rewrite (deref_last_port _ _
    (set_Ports (map (map_port nodeIp vars (pod_pointers pod)) (c_Ports c)) c)).
  2:{ unfold mapped_pod. cbn [Spec Containers].
      match goal with |- map ?f ?l !! _ = _ => change (map f l) with (f <$> l) end.
      by rewrite list_lookup_fmap, Hi. }
  unfold last_port at 1. cbn [set_Ports c_Ports]. rewrite Hport. match goal with |- cp_HostPort ?x = _ =>
    change x with (map_port nodeIp vars (pod_pointers pod) port) end.
  assert (last_port c = port) as Hlast by (unfold last_port; by rewrite Hport).
  destruct (map_port_spec nodeIp vars (pod_pointers pod) port) as [_ [[_ Hnone]|(q & Hq & Heq & ->)]].
  - exfalso. apply (Hnone i Hp). by rewrite (Hnum i c), Hlast.
  - apply elem_of_pointer_list in Hq as (k & d & Hk & -> & Hned). simpl in *.
    rewrite (Hnum k d) in Heq by done. f_equal. symmetry.
    apply (Hun i k c d port (last_port d)); [done|done| |by apply last_port_in|done]. rewrite Hport. left.
Qed.

(** Removing a pod gives back exactly what placing it had taken, for pods with at most one port
    per container and no port number shared by two containers. *)
Theorem allocate_deallocate_restores nodeIp pod pm pod' pm' :
  range_ok (startingPort pm) (List.length (rangeSlots pm)) -> slots_wf (rangeSlots pm) ->
  single_ports pod -> unshared_ports pod ->
  AllocatePodPortMapping nodeIp pod pm = (Ok pod', pm') ->
  DeallocatePodPortMapping pod' pm' = (Ok (), pm).
Proof.
  intros Hok Hwf Hsingle Hun E.
  apply AllocatePodPortMapping_spec in E as (slots & pre & post & vars & Hp & Ht & E); [|done..].
  destruct E as [([= ->] & -> & ->)|(r' & _ & E)]; [|destruct r'; [by destruct E|done]].
  rewrite app_nil_r in Hp. subst pre.
  unfold DeallocatePodPortMapping, deallocateHostPort. rewrite port_pointers_eq, mapped_pointers.
  cbn [startingPort rangeSlots set_rangeSlots].
  assert (forall p, p ∈ pod_pointers pod ->
    hp (pod_vars (mapped_pod nodeIp vars pod)) p = hp vars p) as Hhp.
  { intros p Hpp. apply mapped_vars; [done|done|by eapply took_filled|done]. }
  destruct (release_ports_spec (startingPort pm) (pod_vars (mapped_pod nodeIp vars pod))
    (pod_pointers pod) slots) as (slots' & -> & _ & Hj).
  - by rewrite (took_length _ _ _ _ _ _ _ Ht).
  - by eapply took_wf.
  - intros p Hpp. right. rewrite Hhp by done.
    destruct (took_from _ _ _ _ _ _ _ Ht p Hpp) as (j & s & _ & H2%lookup_lt_Some & [H3 H4]). lia.
  - assert (slots' = rangeSlots pm) as ->; [|by destruct pm].
    eapply took_undo; [done|by apply single_pointers|]. intros j. rewrite Hj.
    by rewrite (hits_ext _ _ vars) by done.
Qed.

(** A pod with at most one port per container that asks for no host ports itself is refused without
    a trace. *)
Lemma refused_pod_leaves_no_trace nodeIp pod pm e pm' :
  range_ok (startingPort pm) (List.length (rangeSlots pm)) -> slots_wf (rangeSlots pm) ->
  single_ports pod -> no_host_ports pod ->
  AllocatePodPortMapping nodeIp pod pm = (Err e, pm') -> e = InSufficientHostPortError /\ pm' = pm.
Proof.
  intros Hok Hwf Hsingle Hno E.
  apply refuse_slots in E as (slots & slots' & pre & post & vars & Hp & Ht & -> & -> & Hl & Hpost & Hj);
    [|done..].
  split; [done|]. apply single_pointers in Hsingle. rewrite Hp in Hsingle.
  apply NoDup_app in Hsingle as (Hnd & Hdisj & _).
  assert (slots' = rangeSlots pm) as ->; [|by destruct pm].
  eapply took_undo; [done|done|]. intros j. rewrite Hj, Hp, hits_app, (hits_none _ _ post), Nat.add_0_r; [done|].
  intros p Hpp [Hin _]. destruct Hok. assert (hp vars p <= 0); [|lia].
  apply Hpost; [done|]. intros Hpre. by apply (Hdisj p).
Qed.

End PodPortLemmas.

(** ** Examples *)

Section Examples.

Definition example_port (n h : Z) : ContainerPort := mkContainerPort "" h n "TCP" "".
Definition example_pod (name : string) (containers : list (list ContainerPort)) : Pod :=
  mkObject (mkObjectMeta name "default" name "1" 0 None None ∅ ∅ [])
    (mkPodSpec _ (map (fun ports => mkContainer _ "c" "image" ports [] ∅ no_hooks) containers) [] false)
    (mkPodStatus PodPending "" None "" "").

Abbreviation web name := (example_pod name [[example_port 80 0]]).
Abbreviation web_at name h := (example_pod name [[mkContainerPort "" h 80 "TCP" "10.0.0.1"]]).
Definition example_range : HostPortRange := NewHostPortRange 4 1024.
Definition range_after {A} (c : SM HostPortRange A) (pm : HostPortRange) : HostPortRange := (c pm).2.

Lemma example_no_ports name : no_host_ports (web name).
Proof.
  intros port Hp. apply elem_of_container_ports in Hp as (c & Hc & Hp).
  apply list_elem_of_singleton in Hc as ->. apply list_elem_of_singleton in Hp as ->. simpl. lia.
Qed.

(** Pods [a] and [b] get ports; [a] is cleaned up, which is reported twice; the agent starts again and finds [b]
    running; pod [c] gets the ports [a] had. *)
Abbreviation places name := (range_after (AllocatePodPortMapping "10.0.0.1" (web name))).
Abbreviation gives_back pod := (range_after (DeallocatePodPortMapping pod)).
Abbreviation takes_back pod := (range_after (initNodePortRangeSlot pod)).
Definition cleaned_twice : port_world :=
  mkPortWorld (gives_back (web_at "a" 1024) (gives_back (web_at "a" 1024) (places "b" (places "a" example_range))))
    [web_at "b" 1034] [] [web_at "a" 1024] false.
Definition started_again : port_world :=
  mkPortWorld (takes_back (web_at "b" 1034) example_range) [web_at "b" 1034] [] [web_at "a" 1024] false.
Definition final_world : port_world :=
  mkPortWorld (places "c" (pw_range started_again)) [web_at "b" 1034; web_at "c" 1024] [] [web_at "a" 1024] false.

Lemma web_ports name h x : x ∈ pod_ports (web_at name h) -> x = h.
Proof. intros (port & Hp & <- & _)%elem_of_pod_ports. cbn in Hp. by apply list_elem_of_singleton in Hp as ->. Qed.
Lemma cleaned_twice_reached : rtc port_step (new_world 4 1024) cleaned_twice.
Proof.
  eapply rtc_l; [apply (ps_allocate "10.0.0.1" (web "a") (web_at "a" 1024) example_range (places "a" example_range) [] [] false);
    [apply example_no_ports|vm_compute; reflexivity]|].
  eapply rtc_l; [apply (ps_allocate "10.0.0.1" (web "b") (web_at "b" 1034) (places "a" example_range)
    (places "b" (places "a" example_range)) [web_at "a" 1024] [] false); [apply example_no_ports|vm_compute; reflexivity]|].
  eapply rtc_l; [apply (ps_deallocate (web_at "a" 1024) (places "b" (places "a" example_range))
    (gives_back (web_at "a" 1024) (places "b" (places "a" example_range))) [] [web_at "b" 1034] [] [] false); vm_compute; reflexivity|].
  apply rtc_once, (ps_again (web_at "a" 1024) _ _ [web_at "b" 1034] [] [web_at "a" 1024] false false);
    [left|vm_compute; reflexivity|right; split; [reflexivity|]].
  change (apart 1024 (web_at "a" 1024) [web_at "b" 1034]).
  intros q j ->%list_elem_of_singleton (x & ->%web_ports & [H1 H2]) (y & ->%web_ports & [H3 H4]). lia.
Qed.
Lemma final_world_reached : rtc port_step (new_world 4 1024) final_world.
Proof.
  etrans; [apply cleaned_twice_reached|].
  eapply rtc_l; [apply (ps_restart [web_at "b" 1034] [] (pw_range cleaned_twice) [web_at "b" 1034] [] [web_at "a" 1024]
    [web_at "a" 1024] false); [reflexivity|set_solver]|].
  eapply rtc_l; [apply (ps_recover (web_at "b" 1034) example_range (pw_range started_again) [] [] [web_at "a" 1024] false);
    [vm_compute; reflexivity|reflexivity|]|].
  { intros j s Hj. cbn in Hj. repeat (destruct j as [|j]; [done|]; cbn in Hj). done. }
  apply rtc_once, (ps_allocate "10.0.0.1" (web "c") (web_at "c" 1024) (pw_range started_again) (pw_range final_world)
    [web_at "b" 1034] [web_at "a" 1024] false); [apply example_no_ports|vm_compute; reflexivity].
Qed.
Lemma ports_shared_only_by_stray_release_witness :
  rtc port_step (new_world 4 1024) final_world /\
  (AllocatePodPortMapping "10.0.0.1" (web "c") (pw_range started_again)).1 = Ok (web_at "c" 1024) /\
  (1024 ∉ pod_ports (web_at "b" 1034)) /\
  exists pm', DeallocatePodPortMapping (web_at "a" 1024) (pw_range final_world) = (Ok (), pm').
Proof.
  destruct (ports_shared_only_by_stray_release 1024 4 final_world) as (H & _ & Hagain);
    [split; [lia|reflexivity]|exact final_world_reached|].
  split; [exact final_world_reached|]. split; [vm_compute; reflexivity|]. split.
  - apply (H eq_refl 1%nat 0%nat (web_at "c" 1024) (web_at "b" 1034) 1024 eq_refl eq_refl); [lia|vm_compute; left].
  - apply Hagain. right. right. left.
Defined.

(** A stray release: pod [a] is cleaned up, pod [b] gets its ports, and the second report of [a]'s clean-up takes them
    from [b]: pods [b] and [c] run with the same host port. *)
Definition stray_world : port_world :=
  mkPortWorld (places "c" (gives_back (web_at "a" 1024) (places "b" (gives_back (web_at "a" 1024) (places "a" example_range)))))
    [web_at "b" 1024; web_at "c" 1024] [] [web_at "a" 1024] true.
Example stray_release_shares_a_port :
  rtc port_step (new_world 4 1024) stray_world /\ pw_live stray_world = [web_at "b" 1024; web_at "c" 1024].
Proof.
  split; [|reflexivity]. set (r1 := places "a" example_range). set (r2 := gives_back (web_at "a" 1024) r1).
  set (r3 := places "b" r2). set (r4 := gives_back (web_at "a" 1024) r3).
  eapply rtc_l; [apply (ps_allocate "10.0.0.1" (web "a") (web_at "a" 1024) example_range r1 [] [] false);
    [apply example_no_ports|vm_compute; reflexivity]|].
  eapply rtc_l; [apply (ps_deallocate (web_at "a" 1024) r1 r2 [] [] [] [] false); vm_compute; reflexivity|].
  eapply rtc_l; [apply (ps_allocate "10.0.0.1" (web "b") (web_at "b" 1024) r2 r3 [] [web_at "a" 1024] false);
    [apply example_no_ports|vm_compute; reflexivity]|].
  eapply rtc_l; [apply (ps_again (web_at "a" 1024) r3 r4 [web_at "b" 1024] [] [web_at "a" 1024] false true);
    [left|vm_compute; reflexivity|by left]|].
  apply rtc_once, (ps_allocate "10.0.0.1" (web "c") (web_at "c" 1024) r4 (pw_range stray_world) [web_at "b" 1024] [web_at "a" 1024] true);
    [apply example_no_ports|vm_compute; reflexivity].
Qed.

Lemma allocate_deallocate_restores_witness :
  DeallocatePodPortMapping (web_at "a" 1024)
    (range_after (AllocatePodPortMapping "10.0.0.1" (web "a")) example_range) = (Ok (), example_range).
Proof.
  apply (allocate_deallocate_restores "10.0.0.1" (web "a")).
  - split; [simpl; lia|reflexivity].
  - intros j s Hj. simpl in Hj. repeat (destruct j as [|j]; [done|]; simpl in Hj). done.
  - intros c Hc. apply list_elem_of_singleton in Hc as ->. simpl. lia.
  - intros i j c d p q Hi Hj _ _ _. apply lookup_lt_Some in Hi, Hj. simpl in *. lia.
  - vm_compute. reflexivity.
Defined.

(** The loop over the slots tests whether every port is served only at the start of an iteration, so
    ports taken from the last slot are given back: a range of one slot serves no pod with a port. *)
Example last_slot_never_used :
  AllocatePodPortMapping "10.0.0.1" (web "a") (NewHostPortRange 1 1024)
  = (Err InSufficientHostPortError, NewHostPortRange 1 1024).
Proof. vm_compute. reflexivity. Qed.

(** Two ports of one container: the pointers to both lead to the last one, the first gets no host
    port. *)
Example only_last_port_mapped :
  (AllocatePodPortMapping "10.0.0.1" (example_pod "a" [[example_port 80 0; example_port 443 0]])
     example_range).1
  = Ok (example_pod "a" [[example_port 80 0; mkContainerPort "" 1025 443 "TCP" "10.0.0.1"]]).
Proof. vm_compute. reflexivity. Qed.

(** A refused pod that asks for a host port of its own takes the slot of another pod away. *)
Example refused_pod_frees_foreign_slot :
  let pm := range_after (AllocatePodPortMapping "10.0.0.1" (web "a")) (NewHostPortRange 2 1024) in
  let greedy := example_pod "g" (repeat [example_port 80 0] 10 ++ [[example_port 81 1024]]) in
  rangeSlots pm <> [None; None] /\
  AllocatePodPortMapping "10.0.0.1" greedy pm
  = (Err InSufficientHostPortError, NewHostPortRange 2 1024).
Proof. vm_compute. split; [discriminate|reflexivity]. Qed.

(** A pod that has terminated when the agent starts again does not reserve its ports, yet its clean-up
    gives them back: two pods that run end up with the same host port. *)
Example terminated_pod_frees_foreign_slot :
  let p1 := range_after (AllocatePodPortMapping "10.0.0.1" (web "b")) (NewHostPortRange 4 1024) in
  let p2 := range_after (DeallocatePodPortMapping (web_at "terminated" 1024)) p1 in
  (AllocatePodPortMapping "10.0.0.1" (web "b") (NewHostPortRange 4 1024)).1 = Ok (web_at "b" 1024) /\
  (AllocatePodPortMapping "10.0.0.1" (web "c") p2).1 = Ok (web_at "c" 1024).
Proof. split; vm_compute; reflexivity. Qed.

End Examples.
