(* ===== verification/NodeManager.v ===== *)
(** * The node manager

    [pkg/fornaxcore/node]: the nodes that registered ([node.go], [node_manager.go]) with the pods each
    one reported, the stubs for address ranges and daemons ([node_cidr_manager.go],
    [node_daemon_manager.go]) and the events sent to watchers such as the pod scheduler.

    Pods and sessions are reached through [ie.PodManagerInterface] and [ie.SessionManagerInterface], the
    class [NodeCollaborators] over the state [W] behind them; [NodeCollaboratorsOK] is what the node
    manager relies on.  The session data inside a node message is JSON ([SessionCodec]). *)

From S2P Require Import Prelude GoStrings ApiTypes Interfaces Collection.
From Stdlib Require Import String.
#[local] Open Scope Z_scope.
#[local] Open Scope go_scope.

(** ** Messages of the nodes *)

(** [json.Marshal] and [json.Unmarshal] of an [ApplicationSession]. *)
Class SessionCodec := {
  json_Marshal : ApplicationSession -> result string;
  json_Unmarshal : string -> result ApplicationSession
}.

(** [grpc.SessionState] and [grpc.PodState] *)
Record SessionState := mkSessionState { ss_NodeRevision : Z; ss_SessionData : string }.
Record PodState {QL : QuantityLib} := mkPodStateMsg {
  psm_NodeRevision : Z; psm_Pod : Pod; psm_SessionStates : list SessionState
}.

(** Sessions whose data cannot be decoded are left out. *)
Definition decode_sessions {SC : SessionCodec} (l : list SessionState) : list ApplicationSession :=
  omap (fun v => match json_Unmarshal (ss_SessionData v) with Ok s => Some s | Err _ => None end) l.

(** ** State *)

Inductive NodeWorkingState :=
  NodeWorkingStateRegistering | NodeWorkingStateDisconnected | NodeWorkingStateRunning.
#[export] Instance NodeWorkingState_eq_dec : EqDecision NodeWorkingState.
Proof. solve_decision. Defined.

Record FornaxNodeWithState {QL : QuantityLib} := mkNodeWS {
  nws_NodeId : string;
  nws_Node : Node;
  nws_State : NodeWorkingState;
  nws_Pods : gset string;
  nws_DaemonPods : gmap string Pod;
  nws_LastSeen : Z
}.

Record NodeEvent {QL : QuantityLib} := mkNodeEvent { ne_NodeId : string; ne_Node : Node; ne_Type : NodeEventType }.

Section Setters.
Context {QL : QuantityLib}.
Implicit Types n : FornaxNodeWithState.
Definition set_nws_Node v n := mkNodeWS _ (nws_NodeId n) v (nws_State n) (nws_Pods n) (nws_DaemonPods n) (nws_LastSeen n).
Definition set_nws_State v n := mkNodeWS _ (nws_NodeId n) (nws_Node n) v (nws_Pods n) (nws_DaemonPods n) (nws_LastSeen n).
Definition set_nws_Pods v n := mkNodeWS _ (nws_NodeId n) (nws_Node n) (nws_State n) v (nws_DaemonPods n) (nws_LastSeen n).
Definition set_nws_DaemonPods v n := mkNodeWS _ (nws_NodeId n) (nws_Node n) (nws_State n) (nws_Pods n) v (nws_LastSeen n).
Definition set_nws_LastSeen v n := mkNodeWS _ (nws_NodeId n) (nws_Node n) (nws_State n) (nws_Pods n) (nws_DaemonPods n) v.
Definition set_PodCIDRs (cidrs : list string) (node : Node) : Node :=
  set_Spec (mkNodeSpec (default EmptyString (head cidrs)) cidrs) node.
Definition set_NodePhase (p : NodePhase) (node : Node) : Node :=
  set_Status (mkNodeStatus _ p (Conditions (Status node)) (Allocatable (Status node))) node.
End Setters.

(** The calls on the pod manager and the session manager.  [FindPod] hands out the object in the cache,
    and [SyncNodePodStates] writes to it: that write is [FailPod]. *)
Class NodeCollaborators {CG : ClientGo} {QL : QuantityLib} (W : Type) := {
  nc_FindPod : W -> string -> option Pod;
  nc_FailPod : string -> W -> W;
  nc_AddOrUpdatePod : Z -> string -> Pod -> SM W Pod;
  nc_DeletePod : Z -> string -> Pod -> SM W Pod;
  nc_OnSessionStatusFromNode : Z -> string -> Pod -> ApplicationSession -> SM W unit
}.

Section NodeManager.
Context {GR : GoRange} {GS : GoSort} {CG : ClientGo} {QL : QuantityLib} {SC : SessionCodec} {W : Type}
  {NC : NodeCollaborators W}.

Record nodeManager := mkNM {
  nm_nodes : gmap string FornaxNodeWithState;
  nodeUpdates : list NodeEvent;
  nm_world : W
}.
Implicit Types nm : nodeManager.

Definition on_world {A} (c : SM W A) : SM nodeManager A := fun nm =>
  let '(r, w) := c (nm_world nm) in (r, mkNM (nm_nodes nm) (nodeUpdates nm) w).
(** A write through the pointer in the pool. *)
Definition modify_node (name : string) (f : FornaxNodeWithState -> FornaxNodeWithState) :
    SM nodeManager unit :=
  sm_modify (fun nm => mkNM (alter f name (nm_nodes nm)) (nodeUpdates nm) (nm_world nm)).
Definition pool_add (name : string) (n : FornaxNodeWithState) : SM nodeManager unit :=
  sm_modify (fun nm => mkNM (<[name := n]> (nm_nodes nm)) (nodeUpdates nm) (nm_world nm)).
Definition send_node_event (nodeId : string) (node : Node) (t : NodeEventType) : SM nodeManager unit :=
  sm_modify (fun nm => mkNM (nm_nodes nm) (nodeUpdates nm ++ [mkNodeEvent _ nodeId node t]) (nm_world nm)).

(** ** Operations *)

Definition GetCidr (node : Node) : list string := ["192.168.0.1/24"%string].
Definition GetDaemons (node : FornaxNodeWithState) : gmap string Pod := ∅.

Definition nm_UpdateSessionState (now : Z) (nodeIdentifier : string) (session : ApplicationSession) :
    SM nodeManager unit :=
  match PodReference (Status session) with
  | None => sm_fail (OtherError "panic: nil pointer")
  | Some podName =>
    do! nm <- sm_get ;
    match nc_FindPod (nm_world nm) podName with
    | Some pod =>
      do! _ <- sm_try (on_world (nc_OnSessionStatusFromNode now nodeIdentifier pod session)) ; sm_ret ()
    | None => sm_ret ()
    end
  end.

Definition nm_List nm : list NodeEvent :=
  (fun kv => mkNodeEvent _ (nws_NodeId kv.2) (nws_Node kv.2) NodeEventTypeCreate) <$> range (nm_nodes nm).

Definition FindNode nm (name : string) : option FornaxNodeWithState := nm_nodes nm !! name.

Definition nm_UpdatePodState (now : Z) (nodeId : string) (pod : Pod) (sessions : list ApplicationSession) :
    SM nodeManager unit :=
  do! nm <- sm_get ;
  match nm_nodes nm !! nodeId with
  | None => sm_fail NodeRevisionOutOfOrderError
  | Some _ =>
    do! _ <- modify_node nodeId (set_nws_LastSeen now) ;
    if match nc_FindPod (nm_world nm) (Name pod) with
       | Some existingPod => negb (ResourceVersionLargerThan pod existingPod)
       | None => false
       end
    then sm_ret ()
    else
      do! updatedPod <- on_world (nc_AddOrUpdatePod now nodeId pod) ;
      do! _ <- modify_node nodeId (fun n => set_nws_Pods (set_Add (Name pod) (nws_Pods n)) n) ;
      sm_for sessions (fun session =>
        do! _ <- sm_try (on_world (nc_OnSessionStatusFromNode now nodeId updatedPod session)) ; sm_ret ())
  end.

(** The errors of the single updates are logged. *)
Definition sync_reported (now : Z) (nodeId : string) (podStates : list PodState) : SM nodeManager unit :=
  sm_for podStates (fun podState =>
    do! _ <- sm_try (nm_UpdatePodState now nodeId (psm_Pod podState)
                       (decode_sessions (psm_SessionStates podState))) ; sm_ret ()).

(** A pod of the node that was not reported: failed and deleted, or already unknown. *)
Definition drop_unreported (now : Z) (nodeId podName : string) : SM nodeManager (option string) :=
  do! nm <- sm_get ;
  match nc_FindPod (nm_world nm) podName with
  | None => sm_ret (Some podName)
  | Some pod =>
    do! pod <-
      (if PodNotTerminated pod then
         do! _ <- on_world (sm_modify (nc_FailPod podName)) ;
         sm_ret (set_Status (set_Phase PodFailed (Status pod)) pod)
       else sm_ret pod) ;
    do! _ <- sm_try (on_world (nc_DeletePod now nodeId pod)) ;
    sm_ret None
  end.

Fixpoint sync_unreported (now : Z) (nodeId : string) (reportedPods : gset string) (l : list string) :
    SM nodeManager (list string) :=
  match l with
  | [] => sm_ret []
  | podName :: l =>
    do! d <- (if decide (podName ∈ reportedPods) then sm_ret None else drop_unreported now nodeId podName) ;
    do! deletedPods <- sync_unreported now nodeId reportedPods l ;
    sm_ret (match d with Some n => n :: deletedPods | None => deletedPods end)
  end.

Definition nm_SyncNodePodStates (now : Z) (nodeId : string) (podStates : list PodState) :
    SM nodeManager unit :=
  do! nm <- sm_get ;
  match nm_nodes nm !! nodeId with
  | None => sm_ret ()
  | Some nodeWS =>
    do! _ <- modify_node nodeId (set_nws_LastSeen now) ;
    let existingPodNames := set_GetKeys (nws_Pods nodeWS) in
    let reportedPods := list_to_set ((fun podState => Name (psm_Pod podState)) <$> podStates) in
    do! _ <- sync_reported now nodeId podStates ;
    do! deletedPods <- sync_unreported now nodeId reportedPods existingPodNames ;
    sm_for deletedPods (fun v => modify_node nodeId (fun n => set_nws_Pods (set_Delete v (nws_Pods n)) n))
  end.

Definition nm_CreateNode (now : Z) (nodeId : string) (node : Node) : SM nodeManager FornaxNodeWithState :=
  do! nm <- sm_get ;
  match nm_nodes nm !! nodeId with
  | Some _ => sm_fail NodeAlreadyExistError
  | None =>
    let state := if IsNodeCondtionReady node then NodeWorkingStateRunning else NodeWorkingStateRegistering in
    let fornaxNode := mkNodeWS _ nodeId (set_PodCIDRs (GetCidr node) node) state ∅ ∅ now in
    let fornaxNode := set_nws_DaemonPods (GetDaemons fornaxNode) fornaxNode in
    do! _ <- pool_add (Name node) fornaxNode ;
    do! _ <- send_node_event nodeId (nws_Node fornaxNode) NodeEventTypeCreate ;
    sm_ret fornaxNode
  end.

Definition nm_SetupNode (now : Z) (nodeId : string) (node : Node) : SM nodeManager FornaxNodeWithState :=
  do! nm <- sm_get ;
  do! (key, fornaxnode) <-
    match nm_nodes nm !! nodeId with
    | Some nodeWS =>
      let v1node := MergeNodeStatus (nws_Node nodeWS) node in
      let cidrs := GetCidr node in
      let v1node := if negb (String.eqb (default EmptyString (head cidrs)) (PodCIDR (Spec v1node)))
                    then set_PodCIDRs cidrs v1node else v1node in
      do! _ <- modify_node nodeId (set_nws_Node v1node) ;
      sm_ret (nodeId, set_nws_Node v1node nodeWS)
    | None => do! n <- nm_CreateNode now nodeId node ; sm_ret (Name node, n)
    end ;
  let daemons := GetDaemons fornaxnode in
  do! _ <- modify_node key (set_nws_DaemonPods daemons) ;
  sm_ret (set_nws_DaemonPods daemons fornaxnode).

Definition nm_UpdateNode (now : Z) (nodeId : string) (node : Node) : SM nodeManager FornaxNodeWithState :=
  do! nm <- sm_get ;
  match nm_nodes nm !! nodeId with
  | None => sm_fail NodeNotFoundError
  | Some nodeWS =>
    let oldNodeWSState := nws_State nodeWS in
    let nodeWS := if IsNodeCondtionReady node then set_nws_State NodeWorkingStateRunning nodeWS else nodeWS in
    let nodeWS := set_nws_LastSeen now nodeWS in
    if bool_decide (oldNodeWSState = nws_State nodeWS) &&
       bool_decide (om_ResourceVersion (om node) = om_ResourceVersion (om (nws_Node nodeWS)))
    then do! _ <- pool_add nodeId nodeWS ; sm_ret nodeWS
    else
      let nodeWS := set_nws_Node (MergeNodeStatus (nws_Node nodeWS) node) nodeWS in
      do! _ <- pool_add nodeId nodeWS ;
      do! _ <- send_node_event nodeId (nws_Node nodeWS) NodeEventTypeUpdate ;
      sm_ret nodeWS
  end.

Definition nm_DisconnectNode (nodeId : string) : SM nodeManager unit :=
  do! nm <- sm_get ;
  match nm_nodes nm !! nodeId with
  | Some nodeWS =>
    let nodeWS := set_nws_Node (set_NodePhase NodePending (nws_Node nodeWS))
                    (set_nws_State NodeWorkingStateDisconnected nodeWS) in
    do! _ <- pool_add nodeId nodeWS ;
    send_node_event nodeId (nws_Node nodeWS) NodeEventTypeUpdate
  | None => sm_ret ()
  end.

Definition NewNodeManager (w : W) : nodeManager := mkNM ∅ [] w.
End NodeManager.
Arguments nodeManager {QL} W.

(** ** What the node manager relies on *)

(** The pod manager never hands out a terminated pod; a pod that was marked failed can be deleted and
    is unknown afterwards; no call touches a pod it does not name. *)
Class NodeCollaboratorsOK {CG : ClientGo} {QL : QuantityLib} (W : Type) {NC : NodeCollaborators W} := {
  nc_ok : W -> Prop;
  nc_live : forall w n pod, nc_ok w -> nc_FindPod w n = Some pod -> PodNotTerminated pod = true;
  nc_add : forall w now nodeId pod, nc_ok w ->
    let w' := (nc_AddOrUpdatePod now nodeId pod w).2 in
    nc_ok w' /\ forall n, n <> Name pod -> nc_FindPod w' n = nc_FindPod w n;
  nc_delete : forall w now nodeId n pod, nc_ok w -> nc_FindPod w n = Some pod ->
    let w' := (nc_DeletePod now nodeId (set_Status (set_Phase PodFailed (Status pod)) pod) (nc_FailPod n w)).2 in
    nc_ok w' /\ nc_FindPod w' n = None /\ forall m, m <> n -> nc_FindPod w' m = nc_FindPod w m;
  nc_session : forall w now nodeId pod s, nc_ok w ->
    let w' := (nc_OnSessionStatusFromNode now nodeId pod s w).2 in
    nc_ok w' /\ forall n, nc_FindPod w' n = nc_FindPod w n
}.

Section Sync.
Context {GR : GoRange} {GS : GoSort} {CG : ClientGo} {QL : QuantityLib} {SC : SessionCodec} {W : Type}
  {NC : NodeCollaborators W} {OK : NodeCollaboratorsOK W}.
Abbreviation NM := (nodeManager W).
Implicit Types nm : NM.

Lemma on_world_eq {A} (c : SM W A) nm :
  on_world c nm = ((c (nm_world nm)).1, mkNM (nm_nodes nm) (nodeUpdates nm) (c (nm_world nm)).2).
Proof. unfold on_world. by destruct (c (nm_world nm)). Qed.

(** A step that concerns one node and the pods in [touched]. *)
Record node_frame (nodeId : string) (touched : gset string) nm nm' : Prop := {
  nf_ok : nc_ok (nm_world nm');
  nf_other : forall k, k <> nodeId -> nm_nodes nm' !! k = nm_nodes nm !! k;
  nf_pods : forall ws, nm_nodes nm !! nodeId = Some ws ->
    exists ws', nm_nodes nm' !! nodeId = Some ws' /\
      nws_Pods ws ⊆ nws_Pods ws' /\ nws_Pods ws' ⊆ nws_Pods ws ∪ touched;
  nf_find : forall n, n ∉ touched -> nc_FindPod (nm_world nm') n = nc_FindPod (nm_world nm) n
}.

Lemma node_frame_refl nodeId touched nm : nc_ok (nm_world nm) -> node_frame nodeId touched nm nm.
Proof. intros. split; [done|done| |done]. intros ws Hws. exists ws. set_solver. Qed.

Lemma node_frame_trans nodeId touched nm1 nm2 nm3 :
  node_frame nodeId touched nm1 nm2 -> node_frame nodeId touched nm2 nm3 ->
  node_frame nodeId touched nm1 nm3.
Proof.
  intros [_ O1 P1 F1] [K2 O2 P2 F2]. split; [done| | |].
  - intros k Hk. by rewrite O2, O1.
  - intros ws Hws. destruct (P1 ws Hws) as (ws1 & Hws1 & ? & ?).
    destruct (P2 ws1 Hws1) as (ws2 & Hws2 & ? & ?). exists ws2. set_solver.
  - intros n Hn. by rewrite F2, F1.
Qed.

Lemma node_frame_sub nodeId t1 t2 nm nm' :
  t1 ⊆ t2 -> node_frame nodeId t1 nm nm' -> node_frame nodeId t2 nm nm'.
Proof.
  intros Hsub [K O P F]. split; [done|done| |].
  - intros ws Hws. destruct (P ws Hws) as (ws' & ? & ? & ?). exists ws'. set_solver.
  - intros n Hn. apply F. set_solver.
Qed.

(** A write to the node's record that adds only touched pods. *)
Lemma node_frame_modify nodeId touched f nm :
  nc_ok (nm_world nm) ->
  (forall ws, nws_Pods ws ⊆ nws_Pods (f ws) /\ nws_Pods (f ws) ⊆ nws_Pods ws ∪ touched) ->
  node_frame nodeId touched nm (modify_node nodeId f nm).2.
Proof.
  intros Hok Hf. split; simpl; [done| | |done].
  - intros k Hk. by rewrite lookup_alter_ne by congruence.
  - intros ws Hws. exists (f ws). by rewrite lookup_alter_eq, Hws.
Qed.

Lemma node_frame_world nodeId touched {A} (c : SM W A) nm :
  nc_ok (c (nm_world nm)).2 ->
  (forall n, n ∉ touched -> nc_FindPod (c (nm_world nm)).2 n = nc_FindPod (nm_world nm) n) ->
  node_frame nodeId touched nm (on_world c nm).2.
Proof.
  intros Hok Hf. rewrite on_world_eq. split; simpl; [done|done| |done].
  intros ws Hws. exists ws. set_solver.
Qed.

Lemma sessions_frame now nodeId pod touched sessions nm :
  nc_ok (nm_world nm) ->
  exists nm', sm_for sessions (fun s =>
      do! _ <- sm_try (on_world (nc_OnSessionStatusFromNode now nodeId pod s)) ; sm_ret ()) nm = (Ok (), nm') /\
    node_frame nodeId touched nm nm'.
Proof.
  revert nm. induction sessions as [|s l IH]; intros nm Hok; [by exists nm; split; [|apply node_frame_refl]|].
  cbn [sm_for]. rewrite !sm_bind_eq. unfold sm_try at 1.
  pose proof (nc_session (nm_world nm) now nodeId pod s Hok) as [Hk Hf].
  pose proof (node_frame_world nodeId touched _ nm Hk (fun n _ => Hf n)) as Hfr.
  destruct (on_world (nc_OnSessionStatusFromNode now nodeId pod s) nm) as [r nm1]. simpl in Hfr |- *.
  destruct (IH nm1 (nf_ok _ _ _ _ Hfr)) as (nm' & -> & Hfr'). exists nm'. split; [done|].
  by eapply node_frame_trans.
Qed.

Lemma UpdatePodState_frame now nodeId pod sessions nm :
  nc_ok (nm_world nm) -> node_frame nodeId {[Name pod]} nm (nm_UpdatePodState now nodeId pod sessions nm).2.
Proof.
  intros Hok. unfold nm_UpdatePodState. rewrite sm_bind_eq, sm_get_eq.
  destruct (nm_nodes nm !! nodeId) as [ws|]; [|by apply node_frame_refl].
  rewrite sm_bind_eq. set (nm1 := (modify_node nodeId (set_nws_LastSeen now) nm).2).
  change (modify_node nodeId (set_nws_LastSeen now) nm) with (Ok (), nm1). cbv iota.
  assert (node_frame nodeId {[Name pod]} nm nm1) as H1
    by (apply node_frame_modify; [done|set_solver]).
  match goal with |- context [if ?b then sm_ret () else _] => destruct b; [exact H1|] end.
  eapply node_frame_trans; [exact H1|]. clear H1. assert (nc_ok (nm_world nm1)) as Hok1 by done. clearbody nm1.
  pose proof (nc_add (nm_world nm1) now nodeId pod Hok1) as [Hk Hf].
  assert (node_frame nodeId {[Name pod]} nm1 (on_world (nc_AddOrUpdatePod now nodeId pod) nm1).2) as H2.
  { apply node_frame_world; [done|]. intros n Hn. apply Hf. set_solver. }
  rewrite sm_bind_eq. destruct (on_world (nc_AddOrUpdatePod now nodeId pod) nm1) as [[up|e] nm2]; [|exact H2].
  simpl in H2. eapply node_frame_trans; [exact H2|]. rewrite sm_bind_eq.
  set (f := fun n : FornaxNodeWithState => set_nws_Pods (set_Add (Name pod) (nws_Pods n)) n).
  assert (node_frame nodeId {[Name pod]} nm2 (modify_node nodeId f nm2).2) as H3.
  { apply node_frame_modify; [apply H2|]. unfold f, set_Add. set_solver. }
  change (modify_node nodeId f nm2) with (Ok (), (modify_node nodeId f nm2).2). cbv iota.
  destruct (sessions_frame now nodeId up {[Name pod]} sessions _ (nf_ok _ _ _ _ H3)) as (nm' & -> & H4).
  by eapply node_frame_trans.
Qed.

Lemma sync_reported_frame now nodeId podStates nm :
  nc_ok (nm_world nm) ->
  exists nm', sync_reported now nodeId podStates nm = (Ok (), nm') /\
    node_frame nodeId (list_to_set ((fun p => Name (psm_Pod p)) <$> podStates)) nm nm'.
Proof.
  revert nm. induction podStates as [|p l IH]; intros nm Hok; [by exists nm; split; [|apply node_frame_refl]|].
  unfold sync_reported. cbn [sm_for]. rewrite !sm_bind_eq. unfold sm_try at 1.
  pose proof (UpdatePodState_frame now nodeId (psm_Pod p) (decode_sessions (psm_SessionStates p)) nm Hok) as H1.
  destruct (nm_UpdatePodState _ _ _ _ nm) as [r nm1]. simpl in H1 |- *.
  destruct (IH nm1 (nf_ok _ _ _ _ H1)) as (nm' & Hr & H2). unfold sync_reported in Hr. rewrite Hr.
  exists nm'. split; [done|].
  eapply node_frame_trans; eapply node_frame_sub; [|exact H1| |exact H2]; set_solver.
Qed.

Lemma drop_unreported_eff now nodeId n nm :
  nc_ok (nm_world nm) ->
  exists nm', drop_unreported now nodeId n nm =
      (Ok (match nc_FindPod (nm_world nm) n with None => Some n | Some _ => None end), nm') /\
    nm_nodes nm' = nm_nodes nm /\ nc_ok (nm_world nm') /\ nc_FindPod (nm_world nm') n = None /\
    forall m, m <> n -> nc_FindPod (nm_world nm') m = nc_FindPod (nm_world nm) m.
Proof.
  intros Hok. unfold drop_unreported. rewrite sm_bind_eq, sm_get_eq.
  destruct (nc_FindPod (nm_world nm) n) as [pod|] eqn:Hp; [|by exists nm].
  rewrite (nc_live _ _ _ Hok Hp). rewrite !sm_bind_eq, on_world_eq, sm_modify_eq. cbn [fst snd].
  rewrite sm_ret_eq, sm_bind_eq. unfold sm_try. rewrite on_world_eq. cbn [nm_world nm_nodes nodeUpdates].
  pose proof (nc_delete (nm_world nm) now nodeId n pod Hok Hp) as (Hk & Hn & Hm).
  eexists. split; [done|]. done.
Qed.

Lemma sync_unreported_eff now nodeId reported l nm :
  nc_ok (nm_world nm) ->
  exists deleted nm', sync_unreported now nodeId reported l nm = (Ok deleted, nm') /\
    nm_nodes nm' = nm_nodes nm /\ nc_ok (nm_world nm') /\
    (forall n, n ∈ l -> n ∉ reported -> nc_FindPod (nm_world nm') n = None) /\
    (forall n, n ∉ l \/ n ∈ reported -> nc_FindPod (nm_world nm') n = nc_FindPod (nm_world nm) n) /\
    (forall n, n ∈ deleted -> n ∈ l /\ n ∉ reported) /\
    (forall n, n ∈ l -> n ∉ reported -> nc_FindPod (nm_world nm) n = None -> n ∈ deleted).
Proof.
  revert nm. induction l as [|p l IH]; intros nm Hok; cbn [sync_unreported].
  { exists [], nm. split; [done|]. split; [done|]. split; [done|]. set_solver. }
  rewrite sm_bind_eq. case_decide as Hrep.
  - rewrite sm_ret_eq, sm_bind_eq. destruct (IH nm Hok) as (d & nm' & -> & Hnodes & Hk & Hnone & Hkeep & Hd1 & Hd2).
    exists d, nm'. split; [done|]. split; [done|]. split; [done|]. split; [set_solver|].
    split; [intros n Hn; apply Hkeep; set_solver|]. set_solver.
  - destruct (drop_unreported_eff now nodeId p nm Hok) as (nm1 & -> & Hn1 & Hk1 & Hp & Hm).
    rewrite sm_bind_eq. destruct (IH nm1 Hk1) as (d & nm' & -> & Hnodes & Hk & Hnone & Hkeep & Hd1 & Hd2).
    eexists _, nm'. split; [done|]. split; [congruence|]. split; [done|].
    assert (nc_FindPod (nm_world nm') p = None) as Hpn.
    { destruct (decide (p ∈ l)); [by apply Hnone|]. rewrite Hkeep; [done|by left]. }
    split; [|split; [|split]].
    + intros n Hn Hnr. apply elem_of_cons in Hn as [->|Hn]; [done|by apply Hnone].
    + intros n Hn. assert (n <> p) by set_solver. rewrite Hkeep by set_solver. by apply Hm.
    + intros n. destruct (nc_FindPod (nm_world nm) p); set_solver.
    + intros n Hn Hnr Hnf. destruct (decide (n = p)) as [->|Hne]; [rewrite Hnf; by left|].
      assert (n ∈ d) by (apply Hd2; [set_solver|done|by rewrite Hm]).
      destruct (nc_FindPod (nm_world nm) p); set_solver.
Qed.

Lemma forget_pods nodeId l nm :
  exists nm', sm_for l (fun v => modify_node nodeId (fun n => set_nws_Pods (set_Delete v (nws_Pods n)) n)) nm =
      (Ok (), nm') /\ nm_world nm' = nm_world nm /\
    (forall k, k <> nodeId -> nm_nodes nm' !! k = nm_nodes nm !! k) /\
    forall ws, nm_nodes nm !! nodeId = Some ws ->
      exists ws', nm_nodes nm' !! nodeId = Some ws' /\ nws_Pods ws' = nws_Pods ws ∖ list_to_set l.
Proof.
  revert nm. induction l as [|v l IH]; intros nm; cbn [sm_for].
  { exists nm. split; [done|]. split; [done|]. split; [done|]. intros ws Hws. exists ws.
    split; [done|]. apply leibniz_equiv. set_solver. }
  rewrite sm_bind_eq. unfold modify_node at 1. rewrite sm_modify_eq. cbv iota.
  match goal with |- context [sm_for l _ ?x] => destruct (IH x) as (nm' & -> & Hw & Ho & Hp) end.
  simpl in *. exists nm'. split; [done|]. split; [done|]. split.
  - intros k Hk. rewrite Ho, lookup_alter_ne by congruence. done.
  - intros ws Hws. rewrite lookup_alter_eq, Hws in Hp. destruct (Hp _ eq_refl) as (ws' & ? & Heq).
    exists ws'. split; [done|]. rewrite Heq. unfold set_Delete. simpl. apply leibniz_equiv. set_solver.
Qed.

(** C19: a full report of a node decides which pods it has.  Pods of the node that the report leaves out
    are unknown to the pod manager afterwards, and dropped from the node once the pod manager did not
    know them; pods that belong to neither the node nor the report, and the other nodes, are not
    touched; the node never gains a pod it did not report. *)
Theorem sync_removes_unreported now nodeId podStates nm ws :
  nc_ok (nm_world nm) -> nm_nodes nm !! nodeId = Some ws ->
  let reported : gset string := list_to_set ((fun p => Name (psm_Pod p)) <$> podStates) in
  exists nm' ws', nm_SyncNodePodStates now nodeId podStates nm = (Ok (), nm') /\
    nc_ok (nm_world nm') /\ nm_nodes nm' !! nodeId = Some ws' /\
    (forall n, n ∈ nws_Pods ws -> n ∉ reported -> nc_FindPod (nm_world nm') n = None) /\
    (forall n, n ∉ nws_Pods ws -> n ∉ reported ->
      nc_FindPod (nm_world nm') n = nc_FindPod (nm_world nm) n) /\
    (forall n, n ∈ nws_Pods ws' -> n ∈ reported \/
      n ∈ nws_Pods ws /\ is_Some (nc_FindPod (nm_world nm) n)) /\
    (forall k, k <> nodeId -> nm_nodes nm' !! k = nm_nodes nm !! k).
Proof.
  intros Hok Hws reported. unfold nm_SyncNodePodStates. rewrite sm_bind_eq, sm_get_eq, Hws, sm_bind_eq.
  set (nm1 := (modify_node nodeId (set_nws_LastSeen now) nm).2).
  change (modify_node nodeId (set_nws_LastSeen now) nm) with (Ok (), nm1). cbv iota.
  assert (node_frame nodeId reported nm nm1) as H1 by (apply node_frame_modify; [done|set_solver]).
  rewrite sm_bind_eq. destruct (sync_reported_frame now nodeId podStates nm1 (nf_ok _ _ _ _ H1))
    as (nm2 & -> & H2). fold reported in H2 |- *.
  pose proof (node_frame_trans _ _ _ _ _ H1 H2) as [Hk2 Ho2 Hp2 Hf2]. rewrite sm_bind_eq.
  destruct (sync_unreported_eff now nodeId reported (set_GetKeys (nws_Pods ws)) nm2 Hk2)
    as (deleted & nm3 & -> & Hn3 & Hk3 & Hnone & Hkeep & Hd1 & Hd2).
  destruct (forget_pods nodeId deleted nm3) as (nm4 & -> & Hw4 & Ho4 & Hp4).
  destruct (Hp2 ws Hws) as (ws2 & Hws2 & Hsub & Hsup). rewrite Hn3 in Ho4, Hp4.
  destruct (Hp4 ws2 Hws2) as (ws4 & Hws4 & Heq4). exists nm4, ws4. rewrite Hw4.
  split; [done|]. split; [done|]. split; [done|].
  setoid_rewrite elem_of_set_GetKeys in Hnone. setoid_rewrite elem_of_set_GetKeys in Hd2.
  setoid_rewrite elem_of_set_GetKeys in Hkeep. split; [done|]. split; [|split].
  - intros n Hn Hnr. rewrite Hkeep by (by left). by apply Hf2.
  - intros n. rewrite Heq4. intros Hn. destruct (decide (n ∈ reported)) as [|Hnr]; [by left|]. right.
    assert (n ∈ nws_Pods ws) as Hin by set_solver. split; [done|].
    destruct (nc_FindPod (nm_world nm) n) eqn:Hf; [done|]. exfalso.
    assert (n ∈ deleted) by (apply Hd2; [done|done|by rewrite Hf2]). set_solver.
  - intros k Hk. rewrite Ho4, Ho2 by done. done.
Qed.
End Sync.
