(* ===== verification/NodeEvents.v ===== *)
(** * Nodes as the pod scheduler sees them

    The node manager announces nodes on a channel; the pod scheduler keeps the ones it may place pods
    on.  This file composes the two: the events of [NodeManager] delivered to [on_node_update] of
    [PodScheduler]. *)

From S2P Require Import Prelude GoStrings ApiTypes Interfaces Collection ScheduleQueue NodePool PodScheduler NodeManager.
From Stdlib Require Import String.
#[local] Open Scope Z_scope.
#[local] Open Scope go_scope.

Section NodeEvents.
Context {GR : GoRange} {GS : GoSort} {CG : ClientGo} {QL : QuantityLib} {W : Type} {NA : NodeAgentClient W}.
Abbreviation PSched := (podScheduler (W := W)).
Implicit Types (ps : PSched) (e : NodeEvent).

(** An event with the time the scheduler reads it. *)
Definition deliver ps (te : Z * NodeEvent) : PSched :=
  (on_node_update te.1 (ne_NodeId te.2) (ne_Node te.2) (ne_Type te.2) ps).2.
Definition deliver_all (l : list (Z * NodeEvent)) ps : PSched := foldl deliver ps l.

(** Every entry of the pool points to a node object. *)
Definition pool_ok ps : Prop := forall name ptr, nodePool ps !! name = Some ptr -> is_Some (node_objs ps !! ptr).

(** What the last event about a node said. *)
Definition says_running e : bool :=
  negb (bool_decide (ne_Type e = NodeEventTypeDelete)) && IsNodeRunning (ne_Node e).
Definition running_after (name : string) (b : bool) (l : list NodeEvent) : bool :=
  foldl (fun b e => if decide (Name (ne_Node e) = name) then says_running e else b) b l.

Lemma updateNodePool_spec now nodeId node t ps :
  pool_ok ps ->
  exists ps', updateNodePool now nodeId node t ps = (Ok (), ps') /\ pool_ok ps' /\
    forall name, is_Some (nodePool ps' !! name) <->
      if decide (Name node = name) then says_running (mkNodeEvent _ nodeId node t) = true
      else is_Some (nodePool ps !! name).
Proof.
  intros Hok. unfold updateNodePool, says_running. cbn [ne_Type ne_Node].
  destruct (decide (t = NodeEventTypeDelete)) as [Ht|Ht].
  - rewrite bool_decide_true by done. eexists. split; [done|]. simpl. split.
    + intros name ptr Hp. simpl in *. apply lookup_delete_Some in Hp as [_ Hp]. by eapply Hok.
    + intros name. rewrite lookup_delete. case_decide; [|done]. split; [by intros []|done].
  - rewrite bool_decide_false by done. rewrite sm_bind_eq, sm_get_eq. cbn [negb andb].
    destruct (nodePool ps !! Name node) as [ptr|] eqn:Hp.
    + destruct (Hok _ _ Hp) as [n Hn]. rewrite sm_bind_eq. unfold load_node. rewrite Hn, sm_bind_eq.
      unfold store_node. rewrite sm_modify_eq. cbv iota.
      set (ps1 := set_node_objs _ ps). assert (pool_ok ps1) as Hok1.
      { intros name q Hq. simpl in *. rewrite lookup_insert. case_decide; [done|]. by eapply Hok. }
      destruct (IsNodeRunning node); cbn [negb].
      * exists ps1. split; [done|]. split; [done|]. intros name. simpl. case_decide as E; [|done]. subst name. by rewrite Hp.
      * eexists. split; [done|]. split.
        -- intros name q Hq. simpl in Hq. apply lookup_delete_Some in Hq as [_ Hq]. by eapply Hok1.
        -- intros name. simpl. rewrite lookup_delete. case_decide; [|done]. split; [by intros []|done].
    + destruct (IsNodeRunning node).
      * eexists. split; [done|]. simpl. split.
        -- intros name q. simpl. intros [[_ <-]|[_ Hq]]%lookup_insert_Some; [by rewrite lookup_insert_eq|].
           rewrite lookup_insert. case_decide; [done|]. by eapply Hok.
        -- intros name. rewrite lookup_insert. by case_decide.
      * exists ps. split; [done|]. split; [done|]. intros name. case_decide as E; [|done].
        subst name. rewrite Hp. split; [by intros []|done].
Qed.

Lemma deliver_spec ps te :
  pool_ok ps ->
  pool_ok (deliver ps te) /\
  forall name, is_Some (nodePool (deliver ps te) !! name) <->
    if decide (Name (ne_Node te.2) = name) then says_running te.2 = true else is_Some (nodePool ps !! name).
Proof.
  intros Hok. unfold deliver, on_node_update. destruct te as [now [nodeId node t]]. cbn [fst snd ne_NodeId ne_Node ne_Type].
  rewrite sm_bind_eq, sm_get_eq, sm_bind_eq.
  destruct (updateNodePool_spec now nodeId node t ps Hok) as (ps' & -> & Hok' & Hp).
  rewrite sm_bind_eq, sm_get_eq. destruct (negb _); [|done].
  unfold initializeChunkSchedulers. rewrite sm_modify_eq. done.
Qed.

Lemma deliver_all_spec l ps b name :
  pool_ok ps -> (is_Some (nodePool ps !! name) <-> b = true) ->
  is_Some (nodePool (deliver_all l ps) !! name) <-> running_after name b l.*2 = true.
Proof.
  revert ps b. induction l as [|te l IH]; intros ps b Hok Hb; [done|].
  destruct (deliver_spec ps te Hok) as [Hok' Hp]. simpl. apply IH; [done|]. rewrite Hp. by case_decide.
Qed.
End NodeEvents.

Section Disconnect.
Context {GR : GoRange} {GS : GoSort} {CG : ClientGo} {QL : QuantityLib} {SC : SessionCodec}
  {W : Type} {NA : NodeAgentClient W} {W' : Type} {NC : NodeCollaborators W'}.

(** No pod is placed on a node that is gone.  A scheduler that has read all events of the node
    manager offers exactly the nodes whose last event said they run; in particular, once a node has
    disconnected and its events were read, the scheduler does not offer it. *)
Theorem disconnected_node_not_offered (nm : nodeManager W') nodeId ws (ps : podScheduler (W := W)) l :
  nodePool ps = ∅ -> nm_nodes nm !! nodeId = Some ws ->
  let nm' := (nm_DisconnectNode nodeId nm).2 in
  l.*2 = nodeUpdates nm' ->
  nodePool (deliver_all l ps) !! Name (nws_Node ws) = None /\
  forall name, is_Some (nodePool (deliver_all l ps) !! name) <->
    running_after name false (nodeUpdates nm') = true.
Proof.
  intros Hps Hws nm' Hl.
  assert (forall name, is_Some (nodePool (deliver_all l ps) !! name) <->
    running_after name false (nodeUpdates nm') = true) as Hall.
  { intros name. rewrite <- Hl. apply deliver_all_spec.
    - intros n ptr. by rewrite Hps, lookup_empty.
    - rewrite Hps, lookup_empty. split; [by intros []|done]. }
  split; [|done]. apply eq_None_not_Some. rewrite Hall. subst nm'.
  unfold nm_DisconnectNode. rewrite sm_bind_eq, sm_get_eq, Hws. simpl.
  unfold running_after. rewrite foldl_app. simpl. rewrite decide_True by done. done.
Qed.
End Disconnect.
