(* ===== verification/NodeMonitor.v ===== *)
(** * The node monitor

    [pkg/fornaxcore/nodemonitor/node_monitor.go]: the messages a node agent sends.  Each carries the node's
    revision, which the agent raises with every change it reports; the monitor remembers the last one
    and accepts a single change only if it follows, otherwise it asks for a full report.

    A message has the body its type announces, as every sender builds it. *)

From S2P Require Import Prelude GoStrings ApiTypes Interfaces Collection NodeManager.
From Stdlib Require Import String.
#[local] Open Scope Z_scope.
#[local] Open Scope go_scope.

(** ** Messages ([fornaxcore.proto]) *)

Inductive MessageBody {QL : QuantityLib} :=
  | FornaxCoreConfiguration
  | NodeRegistry (node : Node) (nodeRevision : Z)
  | NodeConfiguration (clusterDomain : string) (node : Node) (daemonPods : list Pod)
  | NodeReady (node : Node) (nodeRevision : Z) (podStates : list PodState)
  | NodeState (node : Node) (nodeRevision : Z) (podStates : list PodState)
  | NodeFullSync
  | PodCreate (podIdentifier : string) (pod : Pod)
  | PodTerminate (podIdentifier : string)
  | PodHibernate (podIdentifier : string)
  | PodStateUpdate (podState : PodState)
  | SessionOpen (sessionIdentifier podIdentifier sessionData : string)
  | SessionClose (sessionIdentifier podIdentifier : string)
  | SessionStateUpdate (sessionState : SessionState).

Record FornaxCoreMessage {QL : QuantityLib} := mkMessage {
  msg_MessageIdentifier : string; msg_NodeIdentifier : string; msg_Body : MessageBody
}.

Definition DefaultDomainName : string := "cluster.centaurusinfra.io".

(** ** State *)

Record NodeWithRevision := mkNodeWithRevision { nwr_NodeId : string; nwr_Revision : Z }.

Section NodeMonitor.
Context {GR : GoRange} {GS : GoSort} {CG : ClientGo} {QL : QuantityLib} {SC : SessionCodec} {W : Type}
  {NC : NodeCollaborators W}.

Record nodeMonitor := mkMonitor {
  mon_nodes : gmap string NodeWithRevision;
  staleNodes : gmap string NodeWithRevision;
  mon_nodeManager : nodeManager W
}.
Implicit Types mon : nodeMonitor.

Definition manager {A} (c : SM (nodeManager W) A) : SM nodeMonitor A := fun mon =>
  let '(r, nm) := c (mon_nodeManager mon) in (r, mkMonitor (mon_nodes mon) (staleNodes mon) nm).
Definition set_revision (nodeId : string) (revision : Z) : SM nodeMonitor unit :=
  sm_modify (fun mon => mkMonitor (<[nodeId := mkNodeWithRevision nodeId revision]> (mon_nodes mon))
                          (staleNodes mon) (mon_nodeManager mon)).

(** [revision == currRevision+1 || revision == currRevision], on [int64] *)
Definition validateNodeRevision (nodeWRev : NodeWithRevision) (revision : Z) : result unit :=
  let currRevision := nwr_Revision nodeWRev in
  if (revision =? i64 (currRevision + 1)) || (revision =? currRevision) then Ok ()
  else Err NodeRevisionOutOfOrderError.

(** ** Handlers *)

Definition OnSessionUpdate (now : Z) (nodeId : string) (sessionState : SessionState) :
    SM nodeMonitor (option MessageBody) :=
  let revision := ss_NodeRevision sessionState in
  do! session <- sm_lift (json_Unmarshal (ss_SessionData sessionState)) ;
  do! mon <- sm_get ;
  match mon_nodes mon !! nodeId with
  | None => sm_fail NodeRevisionOutOfOrderError
  | Some nodeWRev =>
    do! _ <- sm_lift (validateNodeRevision nodeWRev revision) ;
    do! _ <- set_revision nodeId revision ;
    do! _ <- manager (nm_UpdateSessionState now nodeId session) ;
    sm_ret None
  end.

Definition OnRegistry (now : Z) (nodeId : string) (v1node : Node) (revision : Z) :
    SM nodeMonitor (option MessageBody) :=
  do! _ <- set_revision nodeId revision ;
  do! fornaxnode <- manager (nm_SetupNode now nodeId v1node) ;
  sm_ret (Some (NodeConfiguration DefaultDomainName (nws_Node fornaxnode)
                  (snd <$> range (nws_DaemonPods fornaxnode)))).

Definition OnNodeConnect (nodeId : string) : SM nodeMonitor unit :=
  do! mon <- sm_get ;
  match staleNodes mon !! nodeId with
  | Some _ =>
    do! _ <- sm_modify (fun mon => mkMonitor (mon_nodes mon) (delete nodeId (staleNodes mon)) (mon_nodeManager mon)) ;
    sm_fail NodeRevisionOutOfOrderError
  | None => sm_ret ()
  end.

Definition OnNodeDisconnect (nodeId : string) : SM nodeMonitor unit :=
  do! _ <- sm_modify (fun mon =>
    let stale := default (mkNodeWithRevision nodeId 0) (mon_nodes mon !! nodeId) in
    mkMonitor (mon_nodes mon) (<[nodeId := stale]> (staleNodes mon)) (mon_nodeManager mon)) ;
  do! _ <- sm_try (manager (nm_DisconnectNode nodeId)) ;
  sm_ret ().

Definition updateOrCreateNode (now : Z) (nodeId : string) (v1node : Node) (revision : Z)
    (podStates : list PodState) : SM nodeMonitor unit :=
  do! mon <- sm_get ;
  match mon_nodes mon !! nodeId with
  | None =>
    do! _ <- set_revision nodeId revision ;
    do! _ <- manager (nm_CreateNode now nodeId v1node) ;
    manager (nm_SyncNodePodStates now nodeId podStates)
  | Some nodeWRev =>
    if (revision <? nwr_Revision nodeWRev) && negb (revision =? 1) then sm_ret ()
    else
      do! _ <- set_revision nodeId revision ;
      do! _ <- manager (nm_UpdateNode now nodeId v1node) ;
      manager (nm_SyncNodePodStates now nodeId podStates)
  end.

Definition OnNodeReady (now : Z) (nodeId : string) (node : Node) (revision : Z) (podStates : list PodState) :
    SM nodeMonitor (option MessageBody) :=
  do! _ <- updateOrCreateNode now nodeId node revision podStates ; sm_ret None.

Definition OnNodeStateUpdate (now : Z) (nodeId : string) (node : Node) (revision : Z)
    (podStates : list PodState) : SM nodeMonitor (option MessageBody) :=
  do! _ <- updateOrCreateNode now nodeId node revision podStates ; sm_ret None.

Definition OnPodStateUpdate (now : Z) (nodeId : string) (podState : PodState) :
    SM nodeMonitor (option MessageBody) :=
  let revision := psm_NodeRevision podState in
  do! mon <- sm_get ;
  match mon_nodes mon !! nodeId with
  | None => sm_fail NodeRevisionOutOfOrderError
  | Some nodeWRev =>
    do! _ <- sm_lift (validateNodeRevision nodeWRev revision) ;
    do! _ <- set_revision nodeId revision ;
    let sessions := decode_sessions (psm_SessionStates podState) in
    do! _ <- manager (nm_UpdatePodState now nodeId (psm_Pod podState) sessions) ;
    sm_ret None
  end.

Definition NewNodeMonitor (nm : nodeManager W) : nodeMonitor := mkMonitor ∅ ∅ nm.

(** ** Order of the revisions *)

Definition revision_of mon (nodeId : string) : option Z := nwr_Revision <$> mon_nodes mon !! nodeId.

Lemma manager_nodes {A} (c : SM (nodeManager W) A) mon :
  mon_nodes (manager c mon).2 = mon_nodes mon.
Proof. unfold manager. by destruct (c (mon_nodeManager mon)). Qed.

Lemma sm_bind_snd {St A B C} (c : SM St A) (k : A -> SM St B) (f : St -> C) s :
  (forall a s', f (k a s').2 = f s') -> f (sm_bind c k s).2 = f (c s).2.
Proof. intros H. rewrite sm_bind_eq. destruct (c s) as [[a|e] s']; [apply H|done]. Qed.

(** A single change that does not follow the last revision. *)
Definition out_of_order mon (nodeId : string) (revision : Z) : Prop :=
  match revision_of mon nodeId with
  | None => True
  | Some cur => revision <> cur /\ revision <> i64 (cur + 1)
  end.

#[export] Instance out_of_order_dec mon nodeId revision : Decision (out_of_order mon nodeId revision).
Proof. unfold out_of_order. destruct (revision_of mon nodeId); apply _. Defined.

Lemma validate_spec n r :
  validateNodeRevision n r =
  if decide (r <> nwr_Revision n /\ r <> i64 (nwr_Revision n + 1)) then Err NodeRevisionOutOfOrderError
  else Ok ().
Proof.
  unfold validateNodeRevision. destruct (Z.eqb_spec r (i64 (nwr_Revision n + 1))) as [Hr|Hr];
    destruct (Z.eqb_spec r (nwr_Revision n)) as [Hr2|Hr2]; simpl; case_decide; tauto.
Qed.

Lemma pod_state_out_of_order now nodeId podState mon :
  out_of_order mon nodeId (psm_NodeRevision podState) ->
  OnPodStateUpdate now nodeId podState mon = (Err NodeRevisionOutOfOrderError, mon).
Proof.
  unfold out_of_order, revision_of, OnPodStateUpdate. rewrite sm_bind_eq, sm_get_eq.
  destruct (mon_nodes mon !! nodeId) as [n|]; [|done]. cbn [fmap option_fmap option_map]. intros Ho.
  by rewrite sm_bind_eq, sm_lift_eq, validate_spec, decide_True.
Qed.

Lemma pod_state_in_order now nodeId podState mon :
  ~ out_of_order mon nodeId (psm_NodeRevision podState) ->
  revision_of (OnPodStateUpdate now nodeId podState mon).2 nodeId = Some (psm_NodeRevision podState) /\
  mon_nodeManager (OnPodStateUpdate now nodeId podState mon).2 =
    (nm_UpdatePodState now nodeId (psm_Pod podState) (decode_sessions (psm_SessionStates podState))
       (mon_nodeManager mon)).2.
Proof.
  unfold out_of_order, revision_of, OnPodStateUpdate. rewrite sm_bind_eq, sm_get_eq.
  destruct (mon_nodes mon !! nodeId) as [n|] eqn:Hn; [|intros H; by destruct H].
  cbn [fmap option_fmap option_map]. intros Ho. rewrite sm_bind_eq, sm_lift_eq, validate_spec, decide_False by done.
  rewrite sm_bind_eq. unfold set_revision. rewrite sm_modify_eq, sm_bind_eq. unfold manager. simpl.
  destruct (nm_UpdatePodState _ _ _ _ (mon_nodeManager mon)) as [[[]|e] nm']; simpl; by rewrite lookup_insert_eq.
Qed.

Lemma session_state_out_of_order now nodeId sessionState s mon :
  json_Unmarshal (ss_SessionData sessionState) = Ok s ->
  out_of_order mon nodeId (ss_NodeRevision sessionState) ->
  OnSessionUpdate now nodeId sessionState mon = (Err NodeRevisionOutOfOrderError, mon).
Proof.
  intros Hs. unfold out_of_order, revision_of, OnSessionUpdate. rewrite sm_bind_eq, sm_lift_eq, Hs.
  rewrite sm_bind_eq, sm_get_eq. destruct (mon_nodes mon !! nodeId) as [n|]; [|done].
  cbn [fmap option_fmap option_map]. intros Ho. by rewrite sm_bind_eq, sm_lift_eq, validate_spec, decide_True.
Qed.

Lemma session_state_in_order now nodeId sessionState s mon :
  json_Unmarshal (ss_SessionData sessionState) = Ok s ->
  ~ out_of_order mon nodeId (ss_NodeRevision sessionState) ->
  revision_of (OnSessionUpdate now nodeId sessionState mon).2 nodeId = Some (ss_NodeRevision sessionState) /\
  mon_nodeManager (OnSessionUpdate now nodeId sessionState mon).2 =
    (nm_UpdateSessionState now nodeId s (mon_nodeManager mon)).2.
Proof.
  intros Hs. unfold out_of_order, revision_of, OnSessionUpdate. rewrite sm_bind_eq, sm_lift_eq, Hs.
  rewrite sm_bind_eq, sm_get_eq. destruct (mon_nodes mon !! nodeId) as [n|] eqn:Hn; [|intros H; by destruct H].
  cbn [fmap option_fmap option_map]. intros Ho. rewrite sm_bind_eq, sm_lift_eq, validate_spec, decide_False by done.
  rewrite sm_bind_eq. unfold set_revision. rewrite sm_modify_eq, sm_bind_eq. unfold manager. simpl.
  destruct (nm_UpdateSessionState _ _ _ (mon_nodeManager mon)) as [[[]|e] nm']; simpl; by rewrite lookup_insert_eq.
Qed.

(** A full report: ignored if it is older and not the first of a restarted agent. *)
Lemma full_report_revision now nodeId node revision podStates mon :
  revision_of (updateOrCreateNode now nodeId node revision podStates mon).2 nodeId =
  match revision_of mon nodeId with
  | Some cur => Some (if (revision <? cur) && negb (revision =? 1) then cur else revision)
  | None => Some revision
  end.
Proof.
  unfold updateOrCreateNode, revision_of. rewrite sm_bind_eq, sm_get_eq.
  destruct (mon_nodes mon !! nodeId) as [n|] eqn:Hn; cbn [fmap option_fmap option_map].
  - destruct (_ && _); [by rewrite sm_ret_eq; cbn [snd]; rewrite Hn|].
    rewrite sm_bind_eq. unfold set_revision. rewrite sm_modify_eq. cbv iota.
    rewrite (sm_bind_snd _ _ mon_nodes) by (intros; apply manager_nodes). rewrite manager_nodes. simpl.
    by rewrite lookup_insert_eq.
  - rewrite sm_bind_eq. unfold set_revision. rewrite sm_modify_eq. cbv iota.
    rewrite (sm_bind_snd _ _ mon_nodes) by (intros; apply manager_nodes). rewrite manager_nodes. simpl.
    by rewrite lookup_insert_eq.
Qed.
End NodeMonitor.
Arguments nodeMonitor {QL} W.
