(* ===== verification/AgentDirs.v ===== *)
(** * Directories of the agent

    [pkg/nodeagent/config/util.go], the directory functions of [pkg/nodeagent/pod/kubelet_util.go] and
    [ValidateNodeConfiguration] of [pkg/nodeagent/config/config.go]: where the files of a pod are, making and removing
    them, and the checks before the agent starts.

    A path is the list of its components, [filepath.Join] of names that are single components is [++]; the
    file system is the set of its directories.  A call of the operating system may fail at any path
    ([disk_fault]); a removal that fails leaves some of what it should remove ([left_over]). *)

From S2P Require Import Prelude GoStrings ApiTypes.
From Stdlib Require Import String.
#[local] Open Scope go_scope.

Abbreviation path := (list string).
Abbreviation fs := (gset (list string)).

(** An error that says the path exists already, which the callers ignore, and any other. *)
Inductive disk_fault := FaultExist | FaultOther.
Definition disk_error : GoError := OtherError "input/output error".

Definition DefaultPodsDirName : string := "pods".
Definition DefaultVolumesDirName : string := "volumes".
Definition DefaultPluginsDirName : string := "plugins".
Definition DefaultContainersDirName : string := "containers".
Definition DefaultPodLogsRootPath : path := ["var"; "log"; "pods"]%string.

(** ** Where things are ([util.go]) *)

Definition GetPodsDir (rootPath : path) : path := rootPath ++ [DefaultPodsDirName].
Definition GetPodLogDir (rootPath : path) (podNamespace podName podUID : string) : path := rootPath ++ [podNamespace; podName; podUID].
Definition GetPodDir (rootPath : path) (podUID : string) : path := GetPodsDir rootPath ++ [podUID].
Definition GetPodVolumesDir (rootPath : path) (podUID : string) : path := GetPodDir rootPath podUID ++ [DefaultVolumesDirName].
Definition GetPodPluginsDir (rootPath : path) (podUID : string) : path := GetPodDir rootPath podUID ++ [DefaultPluginsDirName].
Definition GetPodContainerDir (rootPath : path) (podUID ctrName : string) : path :=
  GetPodDir rootPath podUID ++ [DefaultContainersDirName; ctrName].

Section Dirs.
Context (fault : path -> option disk_fault) (left_over : path -> fs).

(** ** The operating system *)

Fixpoint ancestors (p : path) : list path :=
  match p with [] => [[]] | c :: p => [] :: map (cons c) (ancestors p) end.
(** [os.MkdirAll] *)
Definition MkdirAll (p : path) : SM fs (option disk_fault) := fun d =>
  match fault p with
  | Some f => (Ok (Some f), d)
  | None => (Ok None, d ∪ list_to_set (ancestors p))
  end.
(** [os.Mkdir], which needs the parent *)
Definition Mkdir (p : path) : SM fs (option disk_fault) := fun d =>
  match fault p with
  | Some f => (Ok (Some f), d)
  | None => if bool_decide (removelast p ∈ d) then (Ok None, d ∪ {[p]}) else (Ok (Some FaultOther), d)
  end.
(** [os.RemoveAll] *)
Definition RemoveAll (p : path) : SM fs (option disk_fault) := fun d =>
  let kept := filter (fun q => ~ p `prefix_of` q) d in
  match fault p with
  | Some f => (Ok (Some f), kept ∪ (d ∩ left_over p))
  | None => (Ok None, kept)
  end.
(** [os.IsNotExist] of what [os.Stat] returns *)
Definition NotExist (p : path) : SM fs bool := fun d => (Ok (bool_decide (p ∉ d)), d).

(** [if err := c; err != nil && !os.IsExist(err) { return err }] *)
Definition ignoring_exist (c : SM fs (option disk_fault)) : SM fs unit :=
  do! f <- c;
  match f with Some FaultOther => sm_fail disk_error | _ => sm_ret () end.

(** ** Directories of a pod ([kubelet_util.go]) *)

Definition CleanupPodDataDirs (rootPath : path) (uid : string) : SM fs unit :=
  do! _ <- ignoring_exist (RemoveAll (GetPodDir rootPath uid));
  do! _ <- ignoring_exist (RemoveAll (GetPodVolumesDir rootPath uid));
  ignoring_exist (RemoveAll (GetPodPluginsDir rootPath uid)).
Definition MakePodDataDirs (rootPath : path) (uid : string) : SM fs unit :=
  do! _ <- ignoring_exist (MkdirAll (GetPodDir rootPath uid));
  do! _ <- ignoring_exist (MkdirAll (GetPodVolumesDir rootPath uid));
  ignoring_exist (MkdirAll (GetPodPluginsDir rootPath uid)).
Definition CleanupPodLogDir (rootPath : path) (namespace name uid : string) : SM fs unit :=
  ignoring_exist (RemoveAll (GetPodLogDir rootPath namespace name uid)).
Definition MakePodLogDir (rootPath : path) (namespace name uid : string) : SM fs unit :=
  ignoring_exist (MkdirAll (GetPodLogDir rootPath namespace name uid)).

(** The path is the empty string when the directory had to be made. *)
Definition BuildContainerLogsDirectory (namespace name uid containerName : string) : SM fs path :=
  let containerpath := GetPodLogDir DefaultPodLogsRootPath namespace name uid ++ [containerName] in
  do! missing <- NotExist containerpath;
  if (missing : bool) then
    do! f <- Mkdir containerpath;
    match f with Some _ => sm_fail disk_error | None => sm_ret [] end
  else sm_ret containerpath.
Definition BuildPodLogsDirectory (podNamespace podName podUID : string) : SM fs path :=
  let podpath := GetPodLogDir DefaultPodLogsRootPath podNamespace podName podUID in
  do! missing <- NotExist podpath;
  if (missing : bool) then
    do! f <- MkdirAll podpath;
    match f with Some _ => sm_fail disk_error | None => sm_ret podpath end
  else sm_ret podpath.

(** ** Before the agent starts ([config.go]) *)

Definition make_if_missing (p : path) : SM fs (list GoError) :=
  do! missing <- NotExist p;
  if (missing : bool) then
    do! f <- Mkdir p;
    sm_ret (match f with Some _ => [OtherError "does not exist, and can not be created"] | None => [] end)
  else sm_ret [].
(** [unified] is [IsCgroup2UnifiedMode]; the message says the opposite of the test. *)
Definition ValidateNodeConfiguration (memoryQoS unified : bool) (rootPath podLogRootPath : path) : SM fs (list GoError) :=
  let errs := if memoryQoS && unified
              then [OtherError "memory qos is true but cgroup is not running in v2 unified mode "] else [] in
  do! e1 <- make_if_missing rootPath;
  do! e2 <- make_if_missing podLogRootPath;
  do! e3 <- make_if_missing (rootPath ++ ["db"%string]);
  sm_ret (errs ++ e1 ++ e2 ++ e3).

(** ** Removing and making *)

Lemma ancestors_prefix p q : q ∈ ancestors p <-> q `prefix_of` p.
Proof.
  revert q. induction p as [|c p IH]; intros q; simpl.
  - rewrite list_elem_of_singleton. split; [by intros ->|by intros ?%prefix_nil_inv].
  - rewrite elem_of_cons, list_elem_of_fmap. split.
    + intros [->|(q' & -> & Hq%IH)]; [apply prefix_nil|by apply prefix_cons].
    + destruct q as [|c' q]; [by left|]. intros Hp. pose proof (prefix_cons_inv_1 _ _ _ _ Hp) as ->.
      apply prefix_cons_inv_2 in Hp. right. exists q. by rewrite IH.
Qed.

Definition outside (p : path) (d d' : fs) : Prop := forall q, ~ p `prefix_of` q -> (q ∈ d' <-> q ∈ d).
#[local] Instance outside_preorder p : PreOrder (outside p).
Proof. split; [done|]. intros d1 d2 d3 H1 H2 q Hq. rewrite (H2 q Hq). by apply H1. Qed.
Lemma remove_outside p q d : p `prefix_of` q -> outside p d (RemoveAll q d).2.
Proof.
  intros Hpq r Hr. unfold RemoveAll. assert (~ q `prefix_of` r) as Hn by (intros H; apply Hr; by etrans).
  destruct (fault q); simpl; set_solver.
Qed.
Lemma ignoring_snd c d : (ignoring_exist c d).2 = (c d).2.
Proof. unfold ignoring_exist. rewrite sm_bind_eq. destruct (c d) as [[[[]|]|] d']; done. Qed.

(** Removing the directories of a pod touches nothing outside the directory of this pod, whatever fails. *)
Lemma cleanup_outside rootPath uid d : outside (GetPodDir rootPath uid) d (CleanupPodDataDirs rootPath uid d).2.
Proof.
  assert (forall q, GetPodDir rootPath uid `prefix_of` q ->
          within (outside (GetPodDir rootPath uid)) (ignoring_exist (RemoveAll q))) as Hw.
  { intros q Hq d'. rewrite ignoring_snd. by apply remove_outside. }
  revert d. apply (within_bind (outside (GetPodDir rootPath uid))); [by apply Hw|intros _].
  apply (within_bind (outside (GetPodDir rootPath uid))); [|intros _]; apply Hw; by apply prefix_app_r.
Qed.
End Dirs.

Lemma RemoveAll_ok (left_over : path -> fs) (p : path) (d : fs) : RemoveAll (fun _ => None) left_over p d = (Ok None, filter (fun q => ~ p `prefix_of` q) d).
Proof. done. Qed.
Lemma MkdirAll_ok (p : path) (d : fs) : MkdirAll (fun _ => None) p d = (Ok None, d ∪ list_to_set (ancestors p)).
Proof. done. Qed.

(** The directories of a pod are removed as they were made.  When nothing fails, cleaning up after a pod
    that had no directories before leaves the file system exactly as it was before its directories were
    made, as long as the directory of all pods existed. *)
Theorem pod_dirs_round_trip (left_over : path -> fs) (rootPath : path) (uid : string) (d : fs) :
  (forall q, q `prefix_of` GetPodsDir rootPath -> q ∈ d) ->
  (forall q, GetPodDir rootPath uid `prefix_of` q -> q ∉ d) ->
  (CleanupPodDataDirs (fun _ => None) left_over rootPath uid (MakePodDataDirs (fun _ => None) rootPath uid d).2).2 = d.
Proof.
  intros Hroot Hnew. unfold CleanupPodDataDirs, MakePodDataDirs, ignoring_exist.
  repeat (rewrite ?sm_bind_eq, ?MkdirAll_ok, ?RemoveAll_ok; cbn [fst snd sm_ret]).
  apply set_eq. intros q. rewrite !elem_of_filter, !elem_of_union, !elem_of_list_to_set, !ancestors_prefix.
  destruct (decide (GetPodDir rootPath uid `prefix_of` q)) as [Hin|Hout].
  - specialize (Hnew q Hin). tauto.
  - assert (forall x, q `prefix_of` GetPodDir rootPath uid ++ x -> q ∈ d) as Habove.
    { intros x Hq. apply Hroot. unfold GetPodDir in *.
      destruct (prefix_weak_total q (GetPodsDir rootPath) ((GetPodsDir rootPath ++ [uid]) ++ x) Hq) as [?|Hp];
        [by rewrite <- (assoc_L (++)); apply prefix_app_r|done|].
      destruct Hp as [k ->]. destruct k as [|c k]; [by rewrite app_nil_r|]. exfalso. apply Hout.
      rewrite <- !(assoc_L (++)) in Hq. apply prefix_app_inv in Hq. simpl in Hq.
      pose proof (prefix_cons_inv_1 _ _ _ _ Hq) as ->. apply prefix_app. by apply prefix_cons, prefix_nil. }
    assert (~ GetPodVolumesDir rootPath uid `prefix_of` q) by (intros H; apply Hout; etrans; [|exact H]; by apply prefix_app_r).
    assert (~ GetPodPluginsDir rootPath uid `prefix_of` q) by (intros H'; apply Hout; etrans; [|exact H']; by apply prefix_app_r).
    split; [|tauto]. intros (_ & _ & _ & [[[Hq|Hq]|Hq]|Hq]).
    + done.
    + apply (Habove []). by rewrite app_nil_r.
    + by apply (Habove [DefaultVolumesDirName]).
    + by apply (Habove [DefaultPluginsDirName]).
Qed.

(** ** The checks before the start *)

Lemma make_if_missing_spec (fault : path -> option disk_fault) (p : path) (d : fs) :
  exists errs d', make_if_missing fault p d = (Ok errs, d') /\ d ⊆ d' /\ (errs = [] -> p ∈ d').
Proof.
  unfold make_if_missing, NotExist. rewrite sm_bind_eq. cbv beta iota. case_bool_decide as Hp.
  - rewrite sm_bind_eq. unfold Mkdir. destruct (fault p) as [f|]; [by do 2 eexists|].
    case_bool_decide; (do 2 eexists; split; [done|]); [|done]. split; set_solver.
  - by do 2 eexists.
Qed.
(** A configuration without errors: the three directories exist. *)
Lemma validated_dirs (fault : path -> option disk_fault) (memoryQoS unified : bool) (rootPath podLogRootPath : path) (d : fs) :
  exists errs d', ValidateNodeConfiguration fault memoryQoS unified rootPath podLogRootPath d = (Ok errs, d') /\ d ⊆ d' /\
  (errs = [] -> rootPath ∈ d' /\ podLogRootPath ∈ d' /\ (rootPath ++ ["db"%string] ∈ d') /\ memoryQoS && unified = false).
Proof.
  unfold ValidateNodeConfiguration.
  destruct (make_if_missing_spec fault rootPath d) as (e1 & d1 & E1 & S1 & H1).
  destruct (make_if_missing_spec fault podLogRootPath d1) as (e2 & d2 & E2 & S2 & H2).
  destruct (make_if_missing_spec fault (rootPath ++ ["db"%string]) d2) as (e3 & d3 & E3 & S3 & H3).
  exists ((if memoryQoS && unified then [OtherError "memory qos is true but cgroup is not running in v2 unified mode "] else []) ++ e1 ++ e2 ++ e3), d3.
  rewrite sm_bind_eq, E1, sm_bind_eq, E2, sm_bind_eq, E3, sm_ret_eq. split; [done|]. split; [set_solver|].
  intros [Hq [He1 [He2 He3]%app_eq_nil]%app_eq_nil]%app_eq_nil. specialize (H1 He1). specialize (H2 He2). specialize (H3 He3).
  split_and!; [set_solver|set_solver|done|]. by destruct (memoryQoS && unified).
Qed.
(** The test is the wrong way round: on a host with the cgroups memory settings need, a configuration that
    asks for them, as the default one does, is refused. *)
Lemma memory_qos_refused (fault : path -> option disk_fault) (rootPath podLogRootPath : path) (d : fs) :
  exists errs, (ValidateNodeConfiguration fault true true rootPath podLogRootPath d).1 = Ok errs /\ errs <> [].
Proof.
  destruct (validated_dirs fault true true rootPath podLogRootPath d) as (errs & d' & E & _ & H).
  exists errs. rewrite E. split; [done|]. intros ->. by destruct (H eq_refl) as (_ & _ & _ & ?).
Qed.

(** A directory that has just been made has the empty path. *)
Example log_directory_path_lost : exists d : fs,
  (BuildContainerLogsDirectory (fun _ => None) "ns" "p" "u" "c" d).1 = Ok [].
Proof. exists (list_to_set (ancestors (GetPodLogDir DefaultPodLogsRootPath "ns" "p" "u"))). vm_compute. reflexivity. Qed.
