(* ===== verification/AgentTypes.v ===== *)
(** * The node agent: pods, containers and sessions

    [pkg/nodeagent/types/types.go], [pkg/nodeagent/runtime/container_status.go], the status and report
    functions of [pkg/nodeagent/pod/pod_status.go] and [message.go], [pkg/nodeagent/session/message.go] and
    the messages of [pkg/nodeagent/message/internal.go].

    A [FornaxPod] is shared by the node actor, its pod actor and the actors of its containers and
    sessions; its containers and sessions are pointers too, kept in the two heaps of the record.  The
    control plane reads neither the pod conditions nor the state code of a report, which are modelled in
    [PodConditions]; the IP addresses are left out. *)

From S2P Require Import Prelude GoStrings ApiTypes Interfaces Collection NodeManager NodeMonitor.
From Stdlib Require Import String.
#[local] Open Scope Z_scope.

(** ** [types.go] *)

Inductive types_PodState :=
  | PodStateUnset | PodStateCreating | PodStateCreated | PodStateRunning | PodStateEvacuating
  | PodStateTerminating | PodStateTerminated | PodStateFailed | PodStateHibernated | PodStateCleanup.
#[export] Instance types_PodState_eq_dec : EqDecision types_PodState.
Proof. solve_decision. Defined.

Inductive ContainerState :=
  | ContainerStateCreating | ContainerStateCreated | ContainerStateStopping | ContainerStateStopped
  | ContainerStateTerminated | ContainerStateTerminating | ContainerStateRunning
  | ContainerStateHibernated | ContainerStateStarted.
#[export] Instance ContainerState_eq_dec : EqDecision ContainerState.
Proof. solve_decision. Defined.

(** [criv1.ContainerStatus] of the container runtime interface, the fields in use *)
Inductive CriState := CONTAINER_CREATED | CONTAINER_RUNNING | CONTAINER_EXITED | CONTAINER_UNKNOWN.
#[export] Instance CriState_eq_dec : EqDecision CriState.
Proof. solve_decision. Defined.
Record CriStatus := mkCriStatus { cri_Id : string; cri_State : CriState; FinishedAt : Z; ExitCode : Z }.
Record ContainerStatus := mkContainerStatus { RuntimeStatus : option CriStatus }.

(** [runtime.Pod]: the sandbox is the identifier the runtime knows it by. *)
Record RuntimePodT := mkRuntimePod { rp_Id : string; rp_Sandbox : option string }.

Record FornaxContainer {QL : QuantityLib} := mkFornaxContainer {
  fc_State : ContainerState;
  InitContainer : bool;
  ContainerSpec : Container;
  RuntimeContainer : string;
  fc_Status : option ContainerStatus
}.

Record FornaxSession := mkFornaxSession {
  fs_Identifier : string;
  fs_PodIdentifier : string;
  fs_Session : ApplicationSession
}.

Record FornaxPod {QL : QuantityLib} := mkFornaxPod {
  Identifier : string;
  FornaxPodState : types_PodState;
  Daemon : bool;
  fp_Pod : Pod;
  RuntimePod : option RuntimePodT;
  fp_Containers : gmap string nat;
  fp_Sessions : gmap string nat;
  container_heap : gmap nat FornaxContainer;
  session_heap : gmap nat FornaxSession
}.

Inductive types_SessionState :=
  SessionStateStarting | SessionStateReady | SessionStateClosed | SessionStateClosing
  | SessionStateNoHeartbeat.
#[export] Instance types_SessionState_eq_dec : EqDecision types_SessionState.
Proof. solve_decision. Defined.

(** ** [container_status.go] *)

Definition cri_status (status : option ContainerStatus) : option CriStatus :=
  status ≫= RuntimeStatus.
Definition ContainerExit (status : option ContainerStatus) : bool :=
  match cri_status status with
  | Some s => bool_decide (FinishedAt s <> 0) && bool_decide (cri_State s = CONTAINER_EXITED)
  | None => false
  end.
Definition ContainerExitNormal (status : option ContainerStatus) : bool :=
  match cri_status status with
  | Some s => ContainerExit status && bool_decide (ExitCode s = 0)
  | None => false
  end.
Definition ContainerExitAbnormal (status : option ContainerStatus) : bool :=
  match cri_status status with
  | Some s => ContainerExit status && bool_decide (ExitCode s <> 0)
  | None => false
  end.
Definition ContainerRunning (status : option ContainerStatus) : bool :=
  match cri_status status with
  | Some s => bool_decide (cri_State s = CONTAINER_RUNNING)
  | None => false
  end.

(** ** Messages ([internal.go]) *)

(** [internal.SessionState] *)
Record SessionReport := mkSessionReport {
  sr_SessionId : string; sr_SessionState : types_SessionState; sr_ClientSessions : list string
}.

(** What a pod actor receives; a container is passed as the pointer to it. *)
Inductive pod_msg :=
  | MPodCreate | MPodHibernate | MPodTerminate
  | MContainerCreated (c : nat) | MContainerStarted (c : nat) | MContainerReady (c : nat)
  | MContainerStopped (c : nat) | MContainerFailed (c : nat) | MContainerUnhealthy (c : nat)
  | MSessionOpen (sessionId : string) (session : ApplicationSession)
  | MSessionClose (sessionId : string)
  | MSessionState (report : SessionReport)
  | MHouseKeeping | MActorStop.

(** What a container actor receives, and what a pod actor tells its supervisor: both messages carry
    the pointer to the pod, and the second a pointer to one of its sessions. *)
Inductive container_msg := CStopping (gracePeriod : Z) | CStarting | COOM | CActorStop.
Inductive status_msg := PodStatusChange | SessionStatusChange (session : nat).

Section Types.
Context {GR : GoRange} {CG : ClientGo} {QL : QuantityLib} {SC : SessionCodec}.
Implicit Types fppod : FornaxPod.

Definition set_FornaxPodState v fppod :=
  mkFornaxPod _ (Identifier fppod) v (Daemon fppod) (fp_Pod fppod) (RuntimePod fppod)
    (fp_Containers fppod) (fp_Sessions fppod) (container_heap fppod) (session_heap fppod).
Definition set_fp_Pod v fppod :=
  mkFornaxPod _ (Identifier fppod) (FornaxPodState fppod) (Daemon fppod) v (RuntimePod fppod)
    (fp_Containers fppod) (fp_Sessions fppod) (container_heap fppod) (session_heap fppod).
Definition set_RuntimePod v fppod :=
  mkFornaxPod _ (Identifier fppod) (FornaxPodState fppod) (Daemon fppod) (fp_Pod fppod) v
    (fp_Containers fppod) (fp_Sessions fppod) (container_heap fppod) (session_heap fppod).
Definition set_fp_Containers m h fppod :=
  mkFornaxPod _ (Identifier fppod) (FornaxPodState fppod) (Daemon fppod) (fp_Pod fppod) (RuntimePod fppod)
    m (fp_Sessions fppod) h (session_heap fppod).
Definition set_fp_Sessions m h fppod :=
  mkFornaxPod _ (Identifier fppod) (FornaxPodState fppod) (Daemon fppod) (fp_Pod fppod) (RuntimePod fppod)
    (fp_Containers fppod) m (container_heap fppod) h.

Definition set_fc_State v (c : FornaxContainer) :=
  mkFornaxContainer _ v (InitContainer c) (ContainerSpec c) (RuntimeContainer c) (fc_Status c).
Definition set_fc_Status v (c : FornaxContainer) :=
  mkFornaxContainer _ (fc_State c) (InitContainer c) (ContainerSpec c) (RuntimeContainer c) v.

(** The containers and sessions of a pod in the order [range] visits its maps. *)
Definition pod_containers fppod : list FornaxContainer :=
  omap (fun '(_, l) => container_heap fppod !! l) (range (fp_Containers fppod)).
Definition pod_sessions fppod : list FornaxSession :=
  omap (fun '(_, l) => session_heap fppod !! l) (range (fp_Sessions fppod)).

(** The client sessions a [FornaxSession] holds are never filled in. *)
Definition PodHasOpenSessions fppod : bool :=
  existsb (fun v => bool_decide (SessionStatus (Status (fs_Session v)) <> SessionStatusClosed))
    (pod_sessions fppod).
Definition PodInTerminating fppod : bool :=
  bool_decide (FornaxPodState fppod = PodStateTerminating) ||
  bool_decide (FornaxPodState fppod = PodStateTerminated) ||
  bool_decide (FornaxPodState fppod = PodStateCleanup).
Definition PodCreated fppod : bool :=
  (bool_decide (FornaxPodState fppod <> PodStateUnset) &&
   bool_decide (FornaxPodState fppod <> PodStateCreating)) || bool_decide (is_Some (RuntimePod fppod)).
Definition PodInTransitState fppod : bool :=
  bool_decide (FornaxPodState fppod = PodStateUnset) ||
  bool_decide (FornaxPodState fppod = PodStateCreating) ||
  bool_decide (FornaxPodState fppod = PodStateEvacuating) ||
  bool_decide (FornaxPodState fppod = PodStateTerminating) ||
  bool_decide (FornaxPodState fppod = PodStateCreated).

(** ** [pod_status.go] *)

Definition has_sandbox fppod : bool :=
  match RuntimePod fppod with Some rp => bool_decide (is_Some (rp_Sandbox rp)) | None => false end.

Definition ToV1PodPhase fppod : PodPhase :=
  let podPhase :=
    match FornaxPodState fppod with
    | PodStateCreating | PodStateCreated => PodPending
    | PodStateRunning | PodStateHibernated => PodRunning
    | PodStateTerminating => PodUnknown
    | PodStateCleanup | PodStateTerminated => if has_sandbox fppod then PodSucceeded else PodFailed
    | PodStateFailed => PodFailed
    | _ => PodUnknown
    end in
  if existsb (fun v => ContainerExitAbnormal (fc_Status v)) (pod_containers fppod)
  then PodFailed else podPhase.

(** [hostIP] is the first address of the node, when a node is given. *)
Definition SetPodStatus (now : Z) (hostIP : option string) fppod : FornaxPod :=
  let status := Status (fp_Pod fppod) in
  let phase := ToV1PodPhase fppod in
  let pod := fp_Pod fppod in
  let pod :=
    if (bool_decide (phase = PodSucceeded) || bool_decide (phase = PodFailed)) &&
       bool_decide (DeletionTimestamp pod = None)
    then map_om (om_set_DeletionTimestamp (Some now)) pod else pod in
  let status := mkPodStatus phase (default (HostIP status) hostIP)
    (Some (default now (StartTime status))) (ps_Message status) (ps_Reason status) in
  set_fp_Pod (set_Status status pod) fppod.

(** ** Reports to the control plane *)

Definition session_state (revision : Z) (session : FornaxSession) : option SessionState :=
  match json_Marshal (fs_Session session) with
  | Ok sessionData => Some (mkSessionState revision sessionData)
  | Err _ => None
  end.
Definition BuildFornaxcoreGrpcSessionState (revision : Z) (session : FornaxSession) : option MessageBody :=
  SessionStateUpdate <$> session_state revision session.

(** Only sessions that have not ended are reported with a pod; their names are its session label.  A
    session that cannot be encoded, which the source calls impossible, is left out. *)
Definition live_sessions fppod : list FornaxSession :=
  filter (fun sess => SessionInTerminalState (fs_Session sess) = false) (pod_sessions fppod).
Definition pod_state (nodeRevision : Z) fppod : PodState :=
  let sessions := live_sessions fppod in
  let sessionLables := map (fun sess => Name (fs_Session sess)) sessions in
  let labels := om_Labels (om (fp_Pod fppod)) in
  let labels :=
    match sessionLables with
    | [] => delete LabelFornaxCoreApplicationSession labels
    | _ => <[LabelFornaxCoreApplicationSession := Join sessionLables ","]> labels
    end in
  mkPodStateMsg _ nodeRevision (map_om (om_set_Labels labels) (fp_Pod fppod))
    (omap (session_state nodeRevision) sessions).
Definition BuildFornaxcoreGrpcPodState (nodeRevision : Z) fppod : MessageBody :=
  PodStateUpdate (pod_state nodeRevision fppod).

End Types.
