(* ===== verification/PodConditions.v ===== *)
(** * Conditions and state codes of a pod

    What a report says of a pod besides its phase: the conditions of [pkg/nodeagent/pod/pod_status.go] and the
    state code of [pkg/nodeagent/pod/message.go].  Two fields the records of [AgentTypes] do not have are
    arguments: how many containers the runtime's record of the pod lists, and the conditions the pod had
    before. *)

From S2P Require Import Prelude GoStrings ApiTypes Interfaces Collection NodeManager NodeMonitor AgentTypes.
From Stdlib Require Import String.
#[local] Open Scope Z_scope.

Inductive PodConditionType := PodInitialized | ContainersReady | PodReady | PodScheduled | PodOtherCondition (n : string).
#[export] Instance PodConditionType_eq_dec : EqDecision PodConditionType.
Proof. solve_decision. Defined.
#[export] Instance PodConditionType_countable : Countable PodConditionType.
Proof.
  refine (inj_countable'
    (fun t => match t with PodInitialized => inl 0%nat | ContainersReady => inl 1%nat | PodReady => inl 2%nat
              | PodScheduled => inl 3%nat | PodOtherCondition n => inr n end)
    (fun c => match c with inl 0%nat => PodInitialized | inl 1%nat => ContainersReady | inl 2%nat => PodReady
              | inl _ => PodScheduled | inr n => PodOtherCondition n end) _).
  by intros [].
Defined.

(** [v1.PodCondition]; times are 0 when nobody has set them. *)
Record PodCondition := mkPodCondition {
  pcd_Type : PodConditionType;
  pcd_Status : ConditionStatus;
  pcd_Message : string;
  pcd_Reason : string;
  pcd_LastProbeTime : Z;
  pcd_LastTransitionTime : Z
}.
Definition says (status : ConditionStatus) (text : string) (c : PodCondition) : PodCondition :=
  mkPodCondition (pcd_Type c) status text text (pcd_LastProbeTime c) (pcd_LastTransitionTime c).

(** [grpc.PodState_State] *)
Inductive PodState_State :=
  PodState_Creating | PodState_Standby | PodState_Running | PodState_Terminating | PodState_Terminated.
#[export] Instance PodState_State_eq_dec : EqDecision PodState_State.
Proof. solve_decision. Defined.

Section PodConditions.
Context {GR : GoRange} {CG : ClientGo} {QL : QuantityLib} {SC : SessionCodec}.
Implicit Types (fppod : FornaxPod) (l : list FornaxContainer).

(** ** [GetPodConditions] *)

(** The loop over the init containers: whether all are normal, and the condition of the containers. *)
Fixpoint check_init l (normal : bool) (ready : PodCondition) : bool * PodCondition :=
  match l with
  | [] => (normal, ready)
  | v :: l =>
    if InitContainer v then
      if negb (ContainerExit (fc_Status v)) then (false, says ConditionFalse "init container not finished yet" ready)
      else if ContainerExitAbnormal (fc_Status v) then (false, says ConditionFalse "init container exit abnormally" ready)
      else check_init l (normal && ContainerExitNormal (fc_Status v)) ready
    else check_init l normal ready
  end.
(** The loop over the other containers; [allContainerReady], which nothing reads, is left out. *)
Fixpoint check_containers l (normal : bool) (ready : PodCondition) : bool * PodCondition :=
  match l with
  | [] => (normal, ready)
  | v :: l =>
    if negb (InitContainer v) then
      if negb (ContainerRunning (fc_Status v)) then (false, says ConditionFalse "one container is not running" ready)
      else check_containers l (normal && ContainerRunning (fc_Status v)) ready
    else check_containers l normal ready
  end.

Definition containers_missing (runtimeContainers : Z) fppod : bool :=
  bool_decide (RuntimePod fppod = None) ||
  negb (Z.of_nat (List.length (Containers (Spec (fp_Pod fppod)))) +
        Z.of_nat (List.length (InitContainers (Spec (fp_Pod fppod)))) =? runtimeContainers).

(** An old condition of a type that is not computed here is assigned to a local variable only. *)
Definition merge_old (old : PodCondition) (conditions : gmap PodConditionType PodCondition) :
    gmap PodConditionType PodCondition :=
  match conditions !! pcd_Type old with
  | Some c =>
    if bool_decide (pcd_Status old <> pcd_Status c)
    then <[pcd_Type old := mkPodCondition (pcd_Type c) (pcd_Status c) (pcd_Message c) (pcd_Reason c) (pcd_LastProbeTime c)
                             (pcd_LastProbeTime old)]> conditions
    else conditions
  | None => conditions
  end.

Definition GetPodConditions (now runtimeContainers : Z) (oldConditions : list PodCondition) fppod : list PodCondition :=
  let initReady := mkPodCondition PodInitialized ConditionUnknown "" "" now 0 in
  let containerReady := mkPodCondition ContainersReady ConditionUnknown "" "" now 0 in
  let podReady := mkPodCondition PodReady ConditionUnknown "" "" now 0 in
  let podScheduled := mkPodCondition PodScheduled ConditionTrue "" "" now 0 in
  let '(allInitContainerNormal, containerReady) := check_init (pod_containers fppod) true containerReady in
  let initReady :=
    if allInitContainerNormal then says ConditionTrue "init container exit normally" initReady else initReady in
  let '(allContainerNormal, containerReady) :=
    if containers_missing runtimeContainers fppod then (true, says ConditionFalse "missing some containers" containerReady)
    else check_containers (pod_containers fppod) true containerReady in
  let containerReady :=
    if allContainerNormal then says ConditionTrue "all pod containers are running" containerReady else containerReady in
  let podReady :=
    if bool_decide (pcd_Status containerReady = ConditionTrue) && bool_decide (pcd_Status initReady = ConditionTrue) then
      if bool_decide (FornaxPodState fppod = PodStateRunning) then says ConditionTrue "all pod containers are ready" podReady
      else podReady
    else says ConditionFalse "some pod containers are not running" podReady in
  let conditions := <[PodScheduled := podScheduled]> (<[PodReady := podReady]>
                      (<[ContainersReady := containerReady]> {[PodInitialized := initReady]})) in
  map snd (range (foldl (fun m old => merge_old old m) conditions oldConditions)).

(** ** [message.go] *)

Definition PodStateToFornaxState fppod : PodState_State :=
  match FornaxPodState fppod with
  | PodStateCreating => PodState_Creating
  | PodStateCreated => PodState_Standby
  | PodStateRunning | PodStateHibernated => PodState_Running
  | PodStateTerminating => PodState_Terminating
  | PodStateTerminated | PodStateCleanup => PodState_Terminated
  | PodStateFailed =>
    if forallb (fun v => bool_decide (fc_Status v = None) || ContainerExit (fc_Status v)) (pod_containers fppod)
    then PodState_Terminated else PodState_Terminating
  | _ => PodState_Creating
  end.

(** A pod that could not even be created is reported terminated, without sessions. *)
Definition BuildFornaxcoreGrpcPodStateForFailedPod (nodeRevision : Z) (pod : Pod) : PodState_State * MessageBody :=
  (PodState_Terminated, PodStateUpdate (mkPodStateMsg _ nodeRevision pod [])).

(** ** What the conditions say *)

Definition init_done fppod : bool :=
  forallb (fun v => negb (InitContainer v) || ContainerExitNormal (fc_Status v)) (pod_containers fppod).
Definition all_running fppod : bool :=
  forallb (fun v => InitContainer v || ContainerRunning (fc_Status v)) (pod_containers fppod).

(** Missing containers make no difference: the answer they get is overwritten. *)
Definition expected_status (runtimeContainers : Z) fppod (t : PodConditionType) : ConditionStatus :=
  let containers := containers_missing runtimeContainers fppod || all_running fppod in
  match t with
  | PodInitialized => if init_done fppod then ConditionTrue else ConditionUnknown
  | ContainersReady => if containers then ConditionTrue else ConditionFalse
  | PodReady =>
    if containers && init_done fppod
    then if bool_decide (FornaxPodState fppod = PodStateRunning) then ConditionTrue else ConditionUnknown
    else ConditionFalse
  | _ => ConditionTrue
  end.

Lemma exit_normal_or_not s : ContainerExit s = true -> ContainerExitNormal s = negb (ContainerExitAbnormal s).
Proof.
  unfold ContainerExitNormal, ContainerExitAbnormal. intros He. rewrite He. destruct (cri_status s) eqn:E.
  - simpl. by rewrite bool_decide_not, negb_involutive.
  - unfold ContainerExit in He. by rewrite E in He.
Qed.
Lemma check_init_spec l b r :
  (check_init l b r).1 = b && forallb (fun v => negb (InitContainer v) || ContainerExitNormal (fc_Status v)) l.
Proof.
  revert b. induction l as [|v l IH]; intros b; simpl; [by rewrite andb_true_r|].
  destruct (InitContainer v); simpl; [|apply IH].
  destruct (ContainerExit (fc_Status v)) eqn:He; simpl.
  - pose proof (exit_normal_or_not _ He) as Hn. destruct (ContainerExitAbnormal (fc_Status v)); simpl in *.
    + rewrite Hn. by rewrite andb_false_r.
    + by rewrite IH, Hn, andb_true_r.
  - assert (ContainerExitNormal (fc_Status v) = false) as ->; [|by rewrite andb_false_r].
    unfold ContainerExitNormal. rewrite He. by destruct (cri_status (fc_Status v)).
Qed.
Lemma check_containers_spec l b r :
  (check_containers l b r).1 = b && forallb (fun v => InitContainer v || ContainerRunning (fc_Status v)) l /\
  (b = true -> (check_containers l b r).1 = false -> pcd_Status (check_containers l b r).2 = ConditionFalse).
Proof.
  revert b. induction l as [|v l IH]; intros b; simpl; [split; [by rewrite andb_true_r|by intros ->]|].
  destruct (InitContainer v); simpl; [apply IH|].
  destruct (ContainerRunning (fc_Status v)); simpl; [rewrite andb_true_r; apply IH|by rewrite andb_false_r].
Qed.

(** Filed under its type, with the status it had. *)
Definition keeps (status : PodConditionType -> option ConditionStatus) (now : Z) (olds : list PodCondition)
    (m : gmap PodConditionType PodCondition) : Prop :=
  (forall t, is_Some (m !! t) <-> is_Some (status t)) /\
  forall t c, m !! t = Some c ->
    pcd_Type c = t /\ status t = Some (pcd_Status c) /\ pcd_LastProbeTime c = now /\
    (pcd_LastTransitionTime c = 0 \/ exists old, old ∈ olds /\ pcd_Type old = t /\ pcd_Status old <> pcd_Status c /\
                                       pcd_LastTransitionTime c = pcd_LastProbeTime old).
Lemma merge_old_keeps status now olds old m : old ∈ olds -> keeps status now olds m -> keeps status now olds (merge_old old m).
Proof.
  intros Hold [Hd Hm]. unfold merge_old. destruct (m !! pcd_Type old) as [c|] eqn:Hc; [|done].
  case_bool_decide as Hne; [|done]. split.
  - intros t. rewrite <- Hd. rewrite lookup_insert_is_Some. destruct (decide (pcd_Type old = t)) as [<-|].
    + split; [eauto|]. by left.
    + split; [by intros [|[_ ?]]|by right].
  - intros t c' [[<- <-]|[_ Hc']]%lookup_insert_Some; [|by apply Hm]. destruct (Hm _ _ Hc) as (Ht & Hs & Hp & _).
    cbn. split_and!; [done|done|done|]. right. by exists old.
Qed.
Lemma merge_all_keeps status now olds (l : list PodCondition) m :
  (forall old, old ∈ l -> old ∈ olds) -> keeps status now olds m ->
  keeps status now olds (foldl (fun m old => merge_old old m) m l).
Proof.
  revert m. induction l as [|old l IH]; intros m Hl Hk; [done|]. apply IH; [set_solver|].
  apply merge_old_keeps; [set_solver|done].
Qed.
Lemma keeps_list (status : PodConditionType -> option ConditionStatus) now olds m :
  keeps status now olds m -> forall c, c ∈ map snd (range m) -> m !! pcd_Type c = Some c.
Proof.
  intros [_ Hm] c Hc. apply list_elem_of_fmap in Hc as ([t c'] & -> & Hin).
  apply elem_of_range in Hin. destruct (Hm t c' Hin) as [<- _]. done.
Qed.
Definition four_types : list PodConditionType := [PodInitialized; ContainersReady; PodReady; PodScheduled].
Definition four_status (k : Z) fppod (t : PodConditionType) : option ConditionStatus :=
  match t with PodOtherCondition _ => None | _ => Some (expected_status k fppod t) end.

(** The loops change status and texts only. *)
Definition same_head (c c' : PodCondition) : Prop :=
  pcd_Type c' = pcd_Type c /\ pcd_LastProbeTime c' = pcd_LastProbeTime c /\ pcd_LastTransitionTime c' = pcd_LastTransitionTime c.
Lemma check_init_head l b r : same_head r (check_init l b r).2.
Proof. revert b. induction l as [|v l IH]; intros b; simpl; [done|]. repeat case_match; auto; done. Qed.
Lemma check_containers_head l b r : same_head r (check_containers l b r).2.
Proof. revert b. induction l as [|v l IH]; intros b; simpl; [done|]. repeat case_match; auto; done. Qed.

Definition of_type (t : PodConditionType) (now : Z) (s : ConditionStatus) (c : PodCondition) : Prop :=
  pcd_Type c = t /\ pcd_LastProbeTime c = now /\ pcd_LastTransitionTime c = 0 /\ pcd_Status c = s.
Lemma four_keep now k olds fppod ci cc cp cs :
  of_type PodInitialized now (expected_status k fppod PodInitialized) ci ->
  of_type ContainersReady now (expected_status k fppod ContainersReady) cc ->
  of_type PodReady now (expected_status k fppod PodReady) cp ->
  of_type PodScheduled now ConditionTrue cs ->
  keeps (four_status k fppod) now olds
    (<[PodScheduled := cs]> (<[PodReady := cp]> (<[ContainersReady := cc]> {[PodInitialized := ci]}))).
Proof.
  intros Hi Hc Hp Hs. split.
  - assert (forall {A} (x : A), is_Some (Some x)) as Hsome by eauto.
    intros []; cbn [four_status].
    + rewrite !lookup_insert_ne, lookup_singleton_eq by done. done.
    + rewrite !lookup_insert_ne, lookup_insert_eq by done. done.
    + rewrite lookup_insert_ne, lookup_insert_eq by done. done.
    + rewrite lookup_insert_eq. done.
    + rewrite !lookup_insert_ne, lookup_singleton_ne by done. done.
  - intros t c. rewrite !lookup_insert_Some, lookup_singleton_Some.
    intros [[<- <-]|[_ [[<- <-]|[_ [[<- <-]|[_ [<- <-]]]]]]];
      [destruct Hs as (?&?&?&E)|destruct Hp as (?&?&?&E)|destruct Hc as (?&?&?&E)|destruct Hi as (?&?&?&E)];
      (split_and!; [done|cbn; by rewrite E|done|by left]).
Qed.

Lemma conditions_keep now k olds fppod : exists m,
  GetPodConditions now k olds fppod = map snd (range m) /\ keeps (four_status k fppod) now olds m.
Proof.
  unfold GetPodConditions.
  pose proof (check_init_spec (pod_containers fppod) true (mkPodCondition ContainersReady ConditionUnknown "" "" now 0)) as Hi.
  pose proof (check_init_head (pod_containers fppod) true (mkPodCondition ContainersReady ConditionUnknown "" "" now 0)) as Hih.
  destruct (check_init _ _ _) as [bi ri]. cbn [fst snd andb] in Hi, Hih. fold (init_done fppod) in Hi. subst bi.
  pose proof (check_containers_spec (pod_containers fppod) true ri) as [Hc Hcs].
  pose proof (check_containers_head (pod_containers fppod) true ri) as Hch.
  destruct (check_containers _ _ _) as [bc rc]. cbn [fst snd andb] in Hc, Hcs, Hch. fold (all_running fppod) in Hc. subst bc.
  destruct Hih as (Hi1 & Hi2 & Hi3). destruct Hch as (Hc1 & Hc2 & Hc3). cbn in *.
  specialize (Hcs eq_refl).
  destruct (containers_missing k fppod) eqn:Hm; cbv zeta.
  - eexists. split; [done|]. apply merge_all_keeps; [done|]. apply four_keep; unfold expected_status, of_type; rewrite ?Hm; cbn.
    + by destruct (init_done fppod).
    + split_and!; congruence.
    + by destruct (init_done fppod); repeat case_bool_decide.
    + done.
  - eexists. split; [done|]. apply merge_all_keeps; [done|]. apply four_keep; unfold expected_status, of_type; rewrite ?Hm; cbn.
    + by destruct (init_done fppod).
    + destruct (all_running fppod); cbn; (split_and!; [congruence|congruence|congruence|auto]).
    + by destruct (all_running fppod), (init_done fppod); cbn; rewrite ?Hcs by done; repeat case_bool_decide.
    + done.
Qed.

(** The conditions a report carries.  There is exactly one of each of the four types, with the status
    [expected_status] computes from the containers and the state of the pod, probed now; a condition
    whose status changed names the last probe of the old one as the time of its transition. *)
Theorem pod_conditions_exact now k olds fppod :
  let cs := GetPodConditions now k olds fppod in
  map pcd_Type cs ≡ₚ four_types /\
  forall c, c ∈ cs ->
    pcd_Status c = expected_status k fppod (pcd_Type c) /\ pcd_LastProbeTime c = now /\
    (pcd_LastTransitionTime c = 0 \/ exists old, old ∈ olds /\ pcd_Type old = pcd_Type c /\
       pcd_Status old <> pcd_Status c /\ pcd_LastTransitionTime c = pcd_LastProbeTime old).
Proof.
  destruct (conditions_keep now k olds fppod) as (m & -> & Hk). cbv zeta. pose proof Hk as [Hd Hm]. split.
  - assert (map pcd_Type (map snd (range m)) = map fst (range m)) as ->.
    { rewrite map_map. apply map_ext_in. intros [t c] Hin%list_elem_of_In. apply elem_of_range in Hin.
      by destruct (Hm t c Hin). }
    apply NoDup_Permutation; [apply NoDup_range_keys|repeat (constructor; [set_solver|]); constructor|].
    intros t. assert (t ∈ map fst (range m) <-> is_Some (four_status k fppod t)) as ->.
    { rewrite <- Hd. rewrite list_elem_of_fmap. split.
      - intros ([t' c] & -> & Hin%elem_of_range). eauto.
      - intros [c Hc]. exists (t, c). by rewrite elem_of_range. }
    unfold four_types, four_status.
    rewrite !elem_of_cons, elem_of_nil. destruct t; split; intros H; eauto; try tauto; [by destruct H|].
    by repeat destruct H as [H|H].
  - intros c Hc. pose proof (keeps_list _ _ _ _ Hk c Hc) as Hl. destruct (Hm _ _ Hl) as (_ & Hs & Hp & Ht).
    split_and!; [|done|done]. unfold four_status in Hs. destruct (pcd_Type c); congruence.
Qed.

(** A pod that is reported running is one the control plane is told runs, unless a container of it has
    failed; a pod that is reported terminated has no container left. *)
Lemma reported_running_phase fppod :
  PodStateToFornaxState fppod = PodState_Running -> ToV1PodPhase fppod = PodRunning \/ ToV1PodPhase fppod = PodFailed.
Proof.
  unfold PodStateToFornaxState, ToV1PodPhase. intros H. destruct (existsb _ _); [by right|].
  destruct (FornaxPodState fppod); try done; auto.
Qed.
Lemma reported_terminated fppod v :
  PodStateToFornaxState fppod = PodState_Terminated -> FornaxPodState fppod = PodStateFailed ->
  v ∈ pod_containers fppod -> fc_Status v = None \/ ContainerExit (fc_Status v) = true.
Proof.
  unfold PodStateToFornaxState. intros H E Hv. rewrite E in H. destruct (forallb _ _) eqn:Hf; [|done].
  rewrite forallb_forall in Hf. apply list_elem_of_In in Hv. specialize (Hf v Hv).
  apply orb_true_iff in Hf as [Hf%bool_decide_eq_true|Hf]; auto.
Qed.
End PodConditions.

(** A pod whose sandbox was never created, and so has no container at all, is reported with all its
    containers running: the answer for missing containers is overwritten by the next test. *)
Example containers_ready_without_containers (fppod : FornaxPod) :
  RuntimePod fppod = None -> fp_Containers fppod = ∅ ->
  forall c, c ∈ GetPodConditions 0 0 [] fppod -> pcd_Type c = ContainersReady -> pcd_Status c = ConditionTrue.
Proof.
  intros Hr Hc c Hin Ht. destruct (conditions_keep 0 0 [] fppod) as (m & E & Hk). rewrite E in Hin.
  pose proof (keeps_list _ _ _ _ Hk c Hin) as Hl. destruct (proj2 Hk _ _ Hl) as (_ & Hs & _). rewrite Ht in Hs.
  cbn in Hs. injection Hs as <-. unfold containers_missing. by rewrite bool_decide_true.
Qed.
