(* ===== verification/ContainerActor.v ===== *)
(** * The container actor

    [pkg/nodeagent/pod/container/container_actor.go] and [container_probe.go].  The actor starts its
    container, watches it with probers and stops it on request; it tells the pod actor what happens by
    messages.

    Everything the agent of a pod shares is one record, [pod_st]: the pod object, the mailbox of its pod
    actor and the actors of its containers.  The container runtime, the file system, the cgroups, the
    volumes, the images and the session service of the node are reached through the class [AgentDeps]
    over a state [W]: every call may fail and may change that state
    ([GetContainerStatus] returns a status whenever it returns no error, as its implementation does).  A prober is a goroutine that calls
    [onContainerProbeResult] until it is stopped; [probe_event] is one such call. *)

From S2P Require Import Prelude GoStrings ApiTypes Interfaces Collection NodeManager NodeMonitor AgentTypes.
From Stdlib Require Import String.
#[local] Open Scope Z_scope.
#[local] Open Scope go_scope.

(** What the agent calls: [runtime.RuntimeService], [qos.QoSManager], [VolumeManager], [ImageManager], the
    directories of a pod and the gRPC session service.  [agent_call A] are the calls that return an [A]. *)
Inductive agent_call {QL : QuantityLib} : Type -> Type :=
  | dep_CreateSandbox : Pod -> agent_call RuntimePodT
  | dep_GetPodSandbox : string -> agent_call (option string)
  | dep_TerminatePod : string -> agent_call unit
  | dep_PullImage : Container -> agent_call string
  | dep_ContainerConfig : Pod -> Container -> string -> agent_call string
  | dep_CreateContainer : string -> string -> agent_call string
  | dep_StartContainer : string -> agent_call unit
  | dep_StopContainer : string -> Z -> agent_call unit
  | dep_TerminateContainer : string -> agent_call unit
  | dep_GetContainerStatus : string -> agent_call ContainerStatus
  | dep_HibernateContainer : string -> agent_call unit
  | dep_WakeupContainer : string -> agent_call unit
  | dep_RunLifecycleHandler : string -> agent_call unit
  | dep_IsPodCgroupExist : Pod -> agent_call bool
  | dep_CreatePodCgroup : Pod -> agent_call unit
  | dep_DeletePodCgroup : Pod -> agent_call unit
  | dep_UpdateQOSCgroups : agent_call unit
  | dep_MakePodDataDirs : Pod -> agent_call unit
  | dep_MakePodLogDir : Pod -> agent_call unit
  | dep_CleanupPodDataDirs : Pod -> agent_call unit
  | dep_CleanupPodLogDir : Pod -> agent_call unit
  | dep_RemoveSandboxLogs : Pod -> agent_call unit
  | dep_MountVolumes : Pod -> agent_call unit
  | dep_UnmountVolumes : Pod -> agent_call unit
  | dep_OpenSession : string -> FornaxSession -> agent_call unit
  | dep_CloseSession : string -> FornaxSession -> Z -> agent_call unit
  | dep_PingSession : string -> FornaxSession -> agent_call unit.

Class AgentDeps {QL : QuantityLib} (W : Type) := { run_call : forall {A}, agent_call A -> SM W A }.
#[export] Hint Mode AgentDeps - ! : typeclass_instances.

(** ** [container_probe.go] *)

Inductive ProbeType := Liveness | Readiness | Startup | RuntimeStatusProbe.
#[export] Instance ProbeType_eq_dec : EqDecision ProbeType.
Proof. solve_decision. Defined.
#[export] Instance ProbeType_countable : Countable ProbeType.
Proof.
  refine (inj_countable'
    (fun t => match t with Liveness => 0 | Readiness => 1 | Startup => 2 | RuntimeStatusProbe => 3 end%nat)
    (fun n => match n with 0 => Liveness | 1 => Readiness | 2 => Startup | _ => RuntimeStatusProbe end%nat) _).
  by intros [].
Defined.

Inductive ProbeResult := ProbeResultSuccess | ProbeResultFailed | ProbeResultUnknown.
#[export] Instance ProbeResult_eq_dec : EqDecision ProbeResult.
Proof. solve_decision. Defined.

Record ProbeStat := mkProbeStat { ConsecutiveFailures : Z; ConsecutiveSuccess : Z }.

(** One round of a prober: the counters after the probe and the result it reports. *)
Definition probe_stat (err : bool) (st : ProbeStat) : ProbeStat :=
  if err then
    if 0 <? ConsecutiveSuccess st then mkProbeStat 1 0
    else mkProbeStat (i32 (ConsecutiveFailures st + 1)) (ConsecutiveSuccess st)
  else if 0 <? ConsecutiveFailures st then mkProbeStat 0 1
  else mkProbeStat (ConsecutiveFailures st) (i32 (ConsecutiveSuccess st + 1)).
Definition probe_result (successThreshold failureThreshold : Z) (st : ProbeStat) : ProbeResult :=
  if bool_decide (ConsecutiveFailures st = 0) && (successThreshold <=? ConsecutiveSuccess st)
  then ProbeResultSuccess
  else if bool_decide (ConsecutiveSuccess st = 0) && (failureThreshold <=? ConsecutiveFailures st)
  then ProbeResultFailed
  else ProbeResultUnknown.

(** ** State *)

(** The probers that run are those not stopped; stopping is final for a prober. *)
Record container_actor := mkContainerActor {
  ca_container : nat;
  ca_probers : gmap ProbeType bool;
  ca_mailbox : list container_msg;
  ca_stopped : bool
}.
Definition set_ca_probers v (a : container_actor) :=
  mkContainerActor (ca_container a) v (ca_mailbox a) (ca_stopped a).
Definition set_ca_mailbox v (a : container_actor) :=
  mkContainerActor (ca_container a) (ca_probers a) v (ca_stopped a).
Definition set_ca_stopped v (a : container_actor) :=
  mkContainerActor (ca_container a) (ca_probers a) (ca_mailbox a) v.

(** The service a session actor was given: the one of the node, or a [NullSessionService] of its own
    with the callback registered or not. *)
Inductive session_service := GrpcService | NullService (registered : bool).
Record SessionActor := mkSessionActor { sa_session : nat; sa_service : session_service }.

Section ContainerActor.
Context {GR : GoRange} {CG : ClientGo} {QL : QuantityLib} {W : Type} {AD : AgentDeps W}.

Record pod_st := mkPodSt {
  pa_pod : FornaxPod;
  pa_stop : bool;
  sessionActors : gmap string SessionActor;
  containerActors : gmap string nat;
  actor_heap : gmap nat container_actor;
  pa_mailbox : list pod_msg;
  houseKeepingError : option GoError;
  pa_notified : list status_msg;
  pa_deps : W
}.
Implicit Types a : pod_st.

Definition set_pa_pod v a := mkPodSt v (pa_stop a) (sessionActors a) (containerActors a) (actor_heap a)
  (pa_mailbox a) (houseKeepingError a) (pa_notified a) (pa_deps a).
Definition set_pa_stop v a := mkPodSt (pa_pod a) v (sessionActors a) (containerActors a) (actor_heap a)
  (pa_mailbox a) (houseKeepingError a) (pa_notified a) (pa_deps a).
Definition set_sessionActors v a := mkPodSt (pa_pod a) (pa_stop a) v (containerActors a) (actor_heap a)
  (pa_mailbox a) (houseKeepingError a) (pa_notified a) (pa_deps a).
Definition set_containerActors v a := mkPodSt (pa_pod a) (pa_stop a) (sessionActors a) v (actor_heap a)
  (pa_mailbox a) (houseKeepingError a) (pa_notified a) (pa_deps a).
Definition set_actor_heap v a := mkPodSt (pa_pod a) (pa_stop a) (sessionActors a) (containerActors a) v
  (pa_mailbox a) (houseKeepingError a) (pa_notified a) (pa_deps a).
Definition set_pa_mailbox v a := mkPodSt (pa_pod a) (pa_stop a) (sessionActors a) (containerActors a) (actor_heap a)
  v (houseKeepingError a) (pa_notified a) (pa_deps a).
Definition set_houseKeepingError v a := mkPodSt (pa_pod a) (pa_stop a) (sessionActors a) (containerActors a)
  (actor_heap a) (pa_mailbox a) v (pa_notified a) (pa_deps a).
Definition set_pa_notified v a := mkPodSt (pa_pod a) (pa_stop a) (sessionActors a) (containerActors a) (actor_heap a)
  (pa_mailbox a) (houseKeepingError a) v (pa_deps a).
Definition set_pa_deps v a := mkPodSt (pa_pod a) (pa_stop a) (sessionActors a) (containerActors a) (actor_heap a)
  (pa_mailbox a) (houseKeepingError a) (pa_notified a) v.

(** A call of one of the dependencies. *)
Definition dep {A} (c : agent_call A) : SM pod_st A := fun a =>
  let '(r, w) := run_call c (pa_deps a) in (r, set_pa_deps w a).
Definition on_pod (f : FornaxPod -> FornaxPod) : SM pod_st unit :=
  sm_modify (fun a => set_pa_pod (f (pa_pod a)) a).
(** [message.Send] to the pod actor: a full channel only delays the sender. *)
Definition send_pod (m : pod_msg) : SM pod_st unit :=
  sm_modify (fun a => set_pa_mailbox (pa_mailbox a ++ [m]) a).
Definition set_state (s : types_PodState) : SM pod_st unit := on_pod (set_FornaxPodState s).

(** Reading and writing through the pointer to a container; a nil pointer panics. *)
Definition nil_panic : GoError := OtherError "panic: nil pointer dereference".
Definition get_container (c : nat) : SM pod_st FornaxContainer := fun a =>
  match container_heap (pa_pod a) !! c with
  | Some cont => (Ok cont, a)
  | None => (Err nil_panic, a)
  end.
Definition on_container (c : nat) (f : FornaxContainer -> FornaxContainer) : SM pod_st unit :=
  on_pod (fun p => set_fp_Containers (fp_Containers p) (alter f c (container_heap p)) p).
Definition get_actor (l : nat) : SM pod_st container_actor := fun a =>
  match actor_heap a !! l with
  | Some ca => (Ok ca, a)
  | None => (Err nil_panic, a)
  end.
Definition on_actor (l : nat) (f : container_actor -> container_actor) : SM pod_st unit :=
  sm_modify (fun a => set_actor_heap (alter f l (actor_heap a)) a).
Definition when (b : bool) (c : SM pod_st unit) : SM pod_st unit := if b then c else sm_ret ().

(** ** Operations of the actor [l] of container [c] *)

Definition start_prober (l : nat) (t : ProbeType) : SM pod_st unit :=
  on_actor l (fun ca => set_ca_probers (<[t := true]> (ca_probers ca)) ca).
Definition stop_prober (l : nat) (t : ProbeType) : SM pod_st unit :=
  on_actor l (fun ca => set_ca_probers (alter (fun _ => false) t (ca_probers ca)) ca).

Definition inStoppingProcess (cont : FornaxContainer) : bool :=
  bool_decide (fc_State cont = ContainerStateStopping) || bool_decide (fc_State cont = ContainerStateStopped) ||
  bool_decide (fc_State cont = ContainerStateTerminating) || bool_decide (fc_State cont = ContainerStateTerminated).

Definition onContainerFailed (c : nat) : SM pod_st unit := send_pod (MContainerFailed c).

Definition onContainerReady (c : nat) : SM pod_st unit :=
  do! cont <- get_container c;
  when (negb (inStoppingProcess cont))
    (do! _ <- on_container c (set_fc_State ContainerStateRunning);
     send_pod (MContainerReady c)).

Definition onContainerStarted (l c : nat) : SM pod_st unit :=
  do! cont <- get_container c;
  do! _ <- when (bool_decide (fc_State cont = ContainerStateCreated))
    (do! _ <- on_container c (set_fc_State ContainerStateStarted);
     send_pod (MContainerStarted c));
  do! cont <- get_container c;
  if inStoppingProcess cont || InitContainer cont then sm_ret ()
  else
    let hooks := c_Hooks (ContainerSpec cont) in
    do! _ <- when (LivenessProbe hooks) (start_prober l Liveness);
    do! _ <- when (ReadinessProbe hooks) (start_prober l Readiness);
    when (PostStart hooks) (dep (dep_RunLifecycleHandler (RuntimeContainer cont))).

Definition startStartupProber (l c : nat) : SM pod_st unit :=
  do! cont <- get_container c;
  if negb (InitContainer cont) && StartupProbe (c_Hooks (ContainerSpec cont))
  then start_prober l Startup
  else do! _ <- sm_try (onContainerStarted l c); sm_ret ().
Definition startRuntimeProber (l : nat) : SM pod_st unit := start_prober l RuntimeStatusProbe.

Definition startContainer (l c : nat) : SM pod_st unit :=
  do! cont <- get_container c;
  do! r <- sm_try (dep (dep_StartContainer (RuntimeContainer cont)));
  match r with
  | Err e => do! _ <- send_pod (MContainerFailed c); sm_fail e
  | Ok _ => do! _ <- startStartupProber l c; startRuntimeProber l
  end.

Definition ca_Start (l c : nat) : SM pod_st unit :=
  do! cont <- get_container c;
  match fc_Status cont with
  | None => sm_fail nil_panic
  | Some status =>
    match RuntimeStatus status with
    | Some _ =>
      do! _ <- when (negb (inStoppingProcess cont)) (startStartupProber l c);
      startRuntimeProber l
    | None =>
      do! _ <- on_container c (set_fc_State ContainerStateCreated);
      do! _ <- send_pod (MContainerCreated c);
      do! _ <- sm_try (startContainer l c);
      sm_ret ()
    end
  end.

(** Stopping the actor stops its probers and asks its message loop to end. *)
Definition ca_Stop (l : nat) : SM pod_st unit :=
  on_actor l (fun ca => set_ca_probers ((fun _ => false) <$> ca_probers ca)
                          (set_ca_mailbox (ca_mailbox ca ++ [CActorStop]) ca)).

(** A callback of a prober; [status] is what the runtime prober found. *)
Definition onContainerProbeResult (l c : nat) (t : ProbeType) (result : ProbeResult)
    (status : option ContainerStatus) : SM pod_st unit :=
  match t with
  | Startup =>
    if bool_decide (result = ProbeResultFailed)
    then do! _ <- send_pod (MContainerFailed c); stop_prober l Startup
    else if bool_decide (result = ProbeResultSuccess)
    then do! _ <- sm_try (onContainerStarted l c); stop_prober l Startup
    else sm_ret ()
  | Liveness => when (bool_decide (result = ProbeResultFailed)) (onContainerFailed c)
  | Readiness =>
    if bool_decide (result = ProbeResultFailed)
    then do! _ <- send_pod (MContainerUnhealthy c); stop_prober l Readiness
    else if bool_decide (result = ProbeResultSuccess)
    then do! _ <- onContainerReady c; stop_prober l Readiness
    else sm_ret ()
  | RuntimeStatusProbe =>
    match status with
    | None => sm_ret ()
    | Some status =>
      if bool_decide (result = ProbeResultFailed) then sm_ret ()
      else match RuntimeStatus status with
      | None => send_pod (MContainerFailed c)
      | Some _ =>
        do! _ <- on_container c (set_fc_Status (Some status));
        do! cont <- get_container c;
        do! _ <- when (ContainerExit (fc_Status cont) && negb (InitContainer cont)) (onContainerFailed c);
        when (negb (ReadinessProbe (c_Hooks (ContainerSpec cont))) && ContainerRunning (fc_Status cont) &&
              bool_decide (fc_State cont = ContainerStateStarted)) (onContainerReady c)
      end
    end
  end.

Definition stopRuntimeContainer (c : nat) (timeout : Z) : SM pod_st unit :=
  do! cont <- get_container c;
  do! status <- dep (dep_GetContainerStatus (RuntimeContainer cont));
  do! _ <- on_container c (set_fc_Status (Some status));
  if ContainerExit (Some status) then sm_ret ()
  else
    do! _ <- dep (dep_StopContainer (RuntimeContainer cont) timeout);
    do! status <- dep (dep_GetContainerStatus (RuntimeContainer cont));
    on_container c (set_fc_Status (Some status)).

(** The pre-stop handler runs in a goroutine of its own; nothing signals [done], so the actor waits
    for the grace period and goes on whatever the handler returned. *)
Definition stopContainer (l c : nat) (timeout : Z) : SM pod_st unit :=
  do! cont <- get_container c;
  do! _ <- (if bool_decide (fc_State cont = ContainerStateHibernated) then
              match cri_status (fc_Status cont) with
              | Some s => do! _ <- sm_try (dep (dep_WakeupContainer (cri_Id s))); sm_ret ()
              | None => sm_fail nil_panic
              end
            else sm_ret ());
  do! _ <- when (bool_decide (fc_State cont = ContainerStateRunning) && PreStop (c_Hooks (ContainerSpec cont)))
    (do! _ <- sm_try (dep (dep_RunLifecycleHandler (RuntimeContainer cont))); sm_ret ());
  do! _ <- on_container c (set_fc_State ContainerStateStopping);
  do! _ <- on_actor l (fun ca =>
    set_ca_probers (map_imap (fun t b => Some (b && bool_decide (t = RuntimeStatusProbe))) (ca_probers ca)) ca);
  do! _ <- stopRuntimeContainer c timeout;
  do! _ <- stop_prober l RuntimeStatusProbe;
  do! _ <- on_container c (set_fc_State ContainerStateStopped);
  send_pod (MContainerStopped c).

Definition containerHandler (l c : nat) (m : container_msg) : SM pod_st unit :=
  match m with
  | CStopping gracePeriod => stopContainer l c gracePeriod
  | CStarting => startContainer l c
  | _ => sm_ret ()
  end.

(** ** What container actors do on their own *)

(** An actor takes the next message of its mailbox, or one of its running probers reports. *)
Inductive container_event :=
  | actor_turn (l : nat)
  | probe_event (l : nat) (t : ProbeType) (passed : bool).

(** One round of a prober: only the runtime prober asks anybody, the others always succeed and report
    a success once their threshold is [passed].  The runtime prober stops itself when it sees the
    container has exited; its thresholds are one. *)
Definition prober_round (l c : nat) (t : ProbeType) (passed : bool) : SM pod_st unit :=
  match t with
  | RuntimeStatusProbe =>
    do! cont <- get_container c;
    do! r <- sm_try (dep (dep_GetContainerStatus (RuntimeContainer cont)));
    match r with
    | Err _ => onContainerProbeResult l c t ProbeResultFailed None
    | Ok status =>
      do! _ <- when (ContainerExit (Some status)) (stop_prober l t);
      onContainerProbeResult l c t ProbeResultSuccess (Some status)
    end
  | _ => onContainerProbeResult l c t (if passed then ProbeResultSuccess else ProbeResultUnknown) None
  end.

Definition container_step (e : container_event) : SM pod_st unit :=
  match e with
  | actor_turn l =>
    do! ca <- get_actor l;
    if ca_stopped ca then sm_ret ()
    else match ca_mailbox ca with
    | [] => sm_ret ()
    | CActorStop :: _ => on_actor l (set_ca_stopped true)
    | m :: rest =>
      do! _ <- on_actor l (set_ca_mailbox rest);
      do! _ <- sm_try (containerHandler l (ca_container ca) m);
      sm_ret ()
    end
  | probe_event l t passed =>
    do! ca <- get_actor l;
    when (bool_decide (ca_probers ca !! t = Some true)) (prober_round l (ca_container ca) t passed)
  end.

End ContainerActor.
Arguments pod_st {QL} W.
