(* ===== verification/PodActor.v ===== *)
(** * The pod actor

    [pkg/nodeagent/pod]: the state machine of one pod on a node ([pod_actor.go]), creating, terminating and
    cleaning it up ([pod.go], [pod_container.go], [pod_sandbox.go]), and the sessions on it
    ([pkg/nodeagent/session/session_actor.go], [sessionservice/null_sessionservice.go]).

    [podHandler] is one message of the actor.  While [TerminatePod] waits for a container to stop, the
    container actors go on: [waits] lists, for every container, what they do meanwhile.  [retries] is how
    often [BackoffExec] fits another attempt into two seconds.  A panic is the error [nil_panic]. *)

From S2P Require Import Prelude GoStrings ApiTypes Interfaces Collection NodeManager NodeMonitor AgentTypes ContainerActor.
From Stdlib Require Import String.
#[local] Open Scope Z_scope.
#[local] Open Scope go_scope.

Definition QuarkRuntime : string := "quark".
Definition QuarkRuntime_D : string := "quark_d".
Definition SessionNotFound : GoError := OtherError "Session not found".
Definition SessionAlreadyExist : GoError := OtherError "Session is already open".
Definition ErrCreateContainerConfig : GoError := OtherError "CreateContainerConfigError".
Definition ErrCreateContainer : GoError := OtherError "CreateContainerError".
Definition ErrRecoverPod : GoError := OtherError "RecoverPodError".
(** [30 * time.Second] *)
Definition DefaultStopContainerGracePeriod : Z := 30 * 10 ^ 9.
Definition DefaultCloseSessionGraceSeconds : Z := 120.

Section PodActor.
Context {GR : GoRange} {CG : ClientGo} {QL : QuantityLib} {SC : SessionCodec} {W : Type} {AD : AgentDeps W}.
Context (RuntimeHandler : string).
Abbreviation pod_st := (pod_st W).
Implicit Types a : pod_st.

Definition the_pod : SM pod_st FornaxPod := fun a => (Ok (pa_pod a), a).

(** [message.Send] to the node actor, the supervisor of every pod actor *)
Definition notify_node (m : status_msg) : SM pod_st unit :=
  sm_modify (fun a => set_pa_notified (pa_notified a ++ [m]) a).

(** ** Sessions ([session_actor.go]) *)

Definition get_session (s : nat) : SM pod_st FornaxSession := fun a =>
  match session_heap (pa_pod a) !! s with
  | Some sess => (Ok sess, a)
  | None => (Err nil_panic, a)
  end.
Definition on_session (s : nat) (f : ApplicationSession -> ApplicationSession) : SM pod_st unit :=
  on_pod (fun p => set_fp_Sessions (fp_Sessions p)
    (alter (fun v => mkFornaxSession (fs_Identifier v) (fs_PodIdentifier v) (f (fs_Session v))) s (session_heap p)) p).

Definition closed_report (sess : FornaxSession) : SessionReport :=
  mkSessionReport (fs_Identifier sess) SessionStateClosed [].

(** [BackoffExec]: a failed attempt is repeated while there is time. *)
Fixpoint backoff_exec (retries : nat) (c : SM pod_st unit) : SM pod_st unit :=
  do! r <- sm_try c;
  match r, retries with
  | Ok _, _ => sm_ret ()
  | Err e, O => sm_fail e
  | Err _, Datatypes.S n => backoff_exec n c
  end.

(** The session is not in the pod's map yet: the actor only holds the object. *)
Definition OpenSession (retries : nat) (service : session_service) (sess : FornaxSession) :
    SM pod_st session_service :=
  match service with
  | NullService _ =>
    do! _ <- send_pod (MSessionState (mkSessionReport (fs_Identifier sess) SessionStateReady []));
    sm_ret (NullService true)
  | GrpcService =>
    do! pod <- the_pod;
    do! r <- sm_try (backoff_exec retries (dep (dep_OpenSession (Identifier pod) sess)));
    match r with
    | Ok _ => sm_ret GrpcService
    | Err e =>
      if bool_decide (e = SessionAlreadyExist) then sm_ret GrpcService
      else do! _ <- send_pod (MSessionState (closed_report sess)); sm_fail e
    end
  end.

Definition CloseSession (id : string) (sa : SessionActor) : SM pod_st unit :=
  do! sess <- get_session (sa_session sa);
  let graceSeconds := default DefaultCloseSessionGraceSeconds (CloseGracePeriodSeconds (Spec (fs_Session sess))) in
  if SessionIsOpen (fs_Session sess) then
    do! _ <- on_session (sa_session sa) (fun s => set_Status (set_SessionStatus SessionStatusClosing (Status s)) s);
    do! r <- sm_try
      (match sa_service sa with
       | NullService true =>
         do! _ <- send_pod (MSessionState (closed_report sess));
         sm_modify (fun a => set_sessionActors
           (<[id := mkSessionActor (sa_session sa) (NullService false)]> (sessionActors a)) a)
       | NullService false => sm_fail SessionNotFound
       | GrpcService =>
         do! pod <- the_pod;
         dep (dep_CloseSession (Identifier pod) sess graceSeconds)
       end);
    do! _ <- when (bool_decide (r = Err SessionNotFound)) (send_pod (MSessionState (closed_report sess)));
    sm_lift r
  else sm_ret ().

(** ** Creating a pod ([pod.go], [pod_container.go], [pod_sandbox.go]) *)

Definition createContainer (containerSpec : Container) : SM pod_st string :=
  do! pod <- the_pod;
  do! imageRef <- dep (dep_PullImage containerSpec);
  do! r <- sm_try (dep (dep_ContainerConfig (fp_Pod pod) containerSpec imageRef));
  match r with
  | Err _ => sm_fail ErrCreateContainerConfig
  | Ok config =>
    match RuntimePod pod ≫= rp_Sandbox with
    | None => sm_fail nil_panic
    | Some sandbox =>
      do! r <- sm_try (dep (dep_CreateContainer sandbox config));
      match r with Err _ => sm_fail ErrCreateContainer | Ok id => sm_ret id end
    end
  end.

(** A new container object, its entry in the pod's map and its actor. *)
Definition new_container (init : bool) (spec : Container) (id : string) : SM pod_st unit := fun a =>
  let p := pa_pod a in
  let c := fresh (dom (container_heap p)) in
  let l := fresh (dom (actor_heap a)) in
  let cont := mkFornaxContainer _ ContainerStateCreating init spec id (Some (mkContainerStatus None)) in
  let a := set_pa_pod (set_fp_Containers (<[c_Name spec := c]> (fp_Containers p))
                         (<[c := cont]> (container_heap p)) p) a in
  let a := set_actor_heap (<[l := mkContainerActor c ∅ [] false]> (actor_heap a)) a in
  ca_Start l c (set_containerActors (<[c_Name spec := l]> (containerActors a)) a).

Definition create_containers (init : bool) (specs : list Container) : SM pod_st unit :=
  sm_for specs (fun spec =>
    do! id <- createContainer spec;
    new_container init spec id).

Definition CreatePod : SM pod_st unit :=
  do! fpod <- the_pod;
  let pod := fp_Pod fpod in
  do! found <- dep (dep_IsPodCgroupExist pod);
  do! _ <- (if found then
              if Daemon fpod then sm_ret ()
              else do! _ <- sm_try (dep dep_UpdateQOSCgroups);
                   sm_fail (OtherError "cgroup already exist for pod, possibly previous cgroup not cleaned")
            else
              do! _ <- dep (dep_CreatePodCgroup pod);
              do! _ <- sm_try (dep dep_UpdateQOSCgroups); sm_ret ());
  do! _ <- dep (dep_MakePodDataDirs pod);
  do! _ <- dep (dep_MakePodLogDir pod);
  do! _ <- dep (dep_MountVolumes pod);
  do! runtimePod <- dep (dep_CreateSandbox pod);
  match rp_Sandbox runtimePod with
  | None => sm_ret ()
  | Some _ =>
    do! _ <- on_pod (set_RuntimePod (Some runtimePod));
    do! _ <- create_containers true (InitContainers (Spec pod));
    create_containers false (Containers (Spec pod))
  end.

Definition create : SM pod_st unit :=
  do! pod <- the_pod;
  if PodInTerminating pod then sm_fail (OtherError "Pod is being terminated or already terminated")
  else if PodCreated pod then sm_fail (OtherError "Pod is already created")
  else
    do! _ <- set_state PodStateCreating;
    do! _ <- CreatePod;
    set_state PodStateCreated.

(** ** Terminating a pod *)

Definition notifyContainer (name : string) (m : container_msg) : SM pod_st unit :=
  do! actors <- (fun a => (Ok (containerActors a), a));
  match actors !! name with
  | None => sm_fail (OtherError "Container not found")
  | Some l => on_actor l (fun ca => set_ca_mailbox (ca_mailbox ca ++ [m]) ca)
  end.

Definition terminateContainer (cont : FornaxContainer) : SM pod_st unit :=
  dep (dep_TerminateContainer (RuntimeContainer cont)).

(** The loop of [TerminatePod]; [waits] has one entry for every container. *)
Fixpoint terminate_containers (force : bool) (gracefulPeriod : Z) (cs : list (string * nat))
    (waits : list (list container_event)) (allContainerTerminated : bool) : SM pod_st bool :=
  match cs with
  | [] => sm_ret allContainerTerminated
  | (_, c) :: cs =>
    do! cont <- get_container c;
    let asked := negb (ContainerExit (fc_Status cont)) && negb force in
    let gracefulPeriod :=
      if asked && bool_decide (gracefulPeriod = 0) then DefaultStopContainerGracePeriod else gracefulPeriod in
    do! _ <- when asked
      (do! _ <- sm_try (notifyContainer (c_Name (ContainerSpec cont)) (CStopping gracefulPeriod));
       sm_for (default [] (head waits)) (fun e => do! _ <- sm_try (container_step e); sm_ret ()));
    do! _ <- terminateContainer cont;
    terminate_containers force gracefulPeriod cs (tail waits) (allContainerTerminated && negb asked)
  end.

Definition TerminatePod (gracefulPeriod : Z) (force : bool) (waits : list (list container_event)) : SM pod_st bool :=
  do! pod <- the_pod;
  if bool_decide (FornaxPodState pod <> PodStateTerminating) && bool_decide (FornaxPodState pod <> PodStateFailed)
  then sm_fail (OtherError "Pod is in not terminatable state")
  else terminate_containers force gracefulPeriod (range (fp_Containers pod)) waits true.

(** [time.Duration(gracefulPeriodSeconds)]: the number of seconds is taken as nanoseconds. *)
Definition grace_period (pod : Pod) : Z := default 0 (om_DeletionGracePeriodSeconds (om pod)).

Definition close_all : SM pod_st (list GoError) :=
  do! actors <- (fun a => (Ok (sessionActors a), a));
  sm_collect (range actors) (fun '(id, sa) => CloseSession id sa).

Definition terminate (now : Z) (waits : list (list container_event)) (forceTerminatePod : bool) : SM pod_st unit :=
  do! _ <- on_pod (fun p =>
    if bool_decide (DeletionTimestamp (fp_Pod p) = None)
    then set_fp_Pod (map_om (om_set_DeletionTimestamp (Some now)) (fp_Pod p)) p else p);
  do! pod <- the_pod;
  if bool_decide (FornaxPodState pod = PodStateTerminated) then sm_ret ()
  else
    do! _ <- set_state PodStateTerminating;
    if PodHasOpenSessions pod && negb forceTerminatePod then
      do! errs <- close_all;
      match errs with [] => sm_ret () | _ => sm_fail (OtherError "failed to close sessions") end
    else
      do! terminated <- TerminatePod (grace_period (fp_Pod pod)) forceTerminatePod waits;
      when terminated (set_state PodStateTerminated).

Definition CleanupPod : SM pod_st unit :=
  do! fpod <- the_pod;
  let pod := fp_Pod fpod in
  do! _ <- match RuntimePod fpod ≫= rp_Sandbox with
           | Some sandbox => do! _ <- dep (dep_TerminatePod sandbox); dep (dep_RemoveSandboxLogs pod)
           | None => sm_ret ()
           end;
  do! _ <- dep (dep_UnmountVolumes pod);
  do! _ <- dep (dep_CleanupPodDataDirs pod);
  do! _ <- dep (dep_CleanupPodLogDir pod);
  do! found <- dep (dep_IsPodCgroupExist pod);
  do! _ <- when found (dep (dep_DeletePodCgroup pod));
  do! _ <- sm_try (dep dep_UpdateQOSCgroups);
  sm_ret ().

Definition cleanup : SM pod_st unit :=
  do! _ <- CleanupPod;
  set_state PodStateCleanup.

(** ** Hibernation *)

Definition hibernateContainer (c : nat) : SM pod_st unit :=
  do! pod <- the_pod;
  do! cont <- get_container c;
  match RuntimePod pod, cri_status (fc_Status cont) with
  | Some _, Some s =>
    do! _ <- dep (dep_HibernateContainer (cri_Id s));
    do! _ <- set_state PodStateHibernated;
    on_container c (set_fc_State ContainerStateHibernated)
  | _, _ => sm_fail nil_panic
  end.
Definition hibernate : SM pod_st unit :=
  do! pod <- the_pod;
  match range (fp_Containers pod) with
  | (_, c) :: _ => hibernateContainer c
  | [] => sm_ret ()
  end.

(** ** Handlers *)

Definition podHouseKeeping (now : Z) (waits : list (list container_event)) : SM pod_st unit :=
  do! pod <- the_pod;
  if bool_decide (FornaxPodState pod = PodStateTerminated) || bool_decide (FornaxPodState pod = PodStateRunning) ||
     bool_decide (FornaxPodState pod = PodStateHibernated)
  then sm_ret ()
  else if bool_decide (FornaxPodState pod = PodStateTerminating) then terminate now waits true
  else match RuntimePod pod with
  | None => set_state PodStateTerminated
  | Some rp =>
    match rp_Sandbox rp with
    | Some _ => sm_ret ()
    | None =>
      do! sandbox <- dep (dep_GetPodSandbox (rp_Id rp));
      match sandbox with
      | None => set_state PodStateTerminated
      | Some _ =>
        do! _ <- on_pod (set_RuntimePod (Some (mkRuntimePod (rp_Id rp) sandbox)));
        terminate now waits true
      end
    end
  end.

Definition onPodContainerCreated (c : nat) : SM pod_st unit :=
  do! pod <- the_pod;
  do! cont <- get_container c;
  when (bool_decide (FornaxPodState pod = PodStateTerminating) || bool_decide (FornaxPodState pod = PodStateTerminated))
    (terminateContainer cont).

Definition handlePodContainerExit (now : Z) (waits : list (list container_event)) (c : nat) : SM pod_st unit :=
  do! cont <- get_container c;
  let name := c_Name (ContainerSpec cont) in
  do! actors <- (fun a => (Ok (containerActors a), a));
  do! _ <- match actors !! name with
           | Some l => do! _ <- ca_Stop l;
                       sm_modify (fun a => set_containerActors (delete name (containerActors a)) a)
           | None => sm_ret ()
           end;
  if InitContainer cont then
    if ContainerExitNormal (fc_Status cont) then sm_ret ()
    else when (ContainerExitAbnormal (fc_Status cont)) (terminate now waits true)
  else terminate now waits true.

Definition onPodContainerReady (c : nat) : SM pod_st unit :=
  do! pod <- the_pod;
  let allContainerReady := forallb (fun v =>
    if InitContainer v then ContainerExit (fc_Status v) else ContainerRunning (fc_Status v)) (pod_containers pod) in
  when allContainerReady
    (do! _ <- set_state PodStateRunning;
     when (PodHasHibernateAnnotation (fp_Pod pod) &&
           (bool_decide (RuntimeHandler = QuarkRuntime) || bool_decide (RuntimeHandler = QuarkRuntime_D)))
       (do! _ <- sm_try (hibernateContainer c); sm_ret ())).

(** [for _, v := range a.pod.Containers]: the result is [false] when a container cannot be woken up. *)
Fixpoint wakeup_containers (cs : list (string * nat)) : SM pod_st bool :=
  match cs with
  | [] => sm_ret true
  | (_, c) :: cs =>
    do! cont <- get_container c;
    if bool_decide (fc_State cont = ContainerStateHibernated) then
      do! r <- sm_try (dep (dep_WakeupContainer (RuntimeContainer cont)));
      match r with
      | Err _ => sm_ret false
      | Ok _ => do! _ <- on_container c (set_fc_State ContainerStateRunning); wakeup_containers cs
      end
    else wakeup_containers cs
  end.

Definition session_service_of (pod : Pod) : session_service :=
  if PodHasSessionServiceAnnotation pod then GrpcService else NullService false.

Definition open_session (retries : nat) (sessionId : string) (session : ApplicationSession) : SM pod_st unit :=
  do! pod <- the_pod;
  let old := fp_Sessions pod !! sessionId ≫= fun s => session_heap pod !! s in
  if match old with Some v => SessionIsOpen (fs_Session v) | None => false end
  then sm_fail (OtherError "There is already a open session")
  else
    let sess := mkFornaxSession (Name session) (Identifier pod) session in
    do! service <- OpenSession retries (session_service_of (fp_Pod pod)) sess;
    sm_modify (fun a =>
      let p := pa_pod a in
      let s := fresh (dom (session_heap p)) in
      set_sessionActors (<[sessionId := mkSessionActor s service]> (sessionActors a))
        (set_pa_pod (set_fp_Sessions (<[sessionId := s]> (fp_Sessions p)) (<[s := sess]> (session_heap p)) p) a)).

Definition pod_onSessionOpenCommand (now : Z) (retries : nat) (waits : list (list container_event))
    (sessionId : string) (session : ApplicationSession) : SM pod_st unit :=
  do! pod <- the_pod;
  if bool_decide (FornaxPodState pod = PodStateHibernated) then
    do! awake <- wakeup_containers (range (fp_Containers pod));
    if awake then
      do! _ <- set_state PodStateRunning;
      open_session retries sessionId session
    else terminate now waits true
  else if bool_decide (FornaxPodState pod = PodStateRunning) then open_session retries sessionId session
  else sm_fail (OtherError "Pod is not in running state, can not open session").

Definition pod_onSessionCloseCommand (sessionId : string) : SM pod_st unit :=
  do! actors <- (fun a => (Ok (sessionActors a), a));
  match actors !! sessionId with
  | None => sm_fail (OtherError "Session does not exist")
  | Some sa => CloseSession sessionId sa
  end.

Definition reported_status (now : Z) (s : SessionReport) (status : ApplicationSessionStatus) : ApplicationSessionStatus :=
  let newStatus :=
    match sr_SessionState s with
    | SessionStateStarting => set_SessionStatus SessionStatusStarting status
    | SessionStateReady => set_SessionStatus SessionStatusAvailable status
    | SessionStateClosed | SessionStateNoHeartbeat =>
      set_CloseTime (Some now) (set_SessionStatus SessionStatusClosed status)
    | SessionStateClosing => status
    end in
  let newStatus := set_ClientSessions (sr_ClientSessions s) newStatus in
  match sr_ClientSessions s with
  | [] => newStatus
  | _ => set_SessionStatus SessionStatusInUse newStatus
  end.

Definition handleSessionState (now : Z) (waits : list (list container_event)) (s : SessionReport) : SM pod_st unit :=
  do! pod <- the_pod;
  match fp_Sessions pod !! sr_SessionId s with
  | None => sm_ret ()
  | Some p =>
    do! session <- get_session p;
    let newStatus := reported_status now s (Status (fs_Session session)) in
    do! _ <- when (bool_decide (Status (fs_Session session) <> newStatus))
      (do! _ <- on_session p (set_Status newStatus);
       notify_node (SessionStatusChange p));
    do! session <- get_session p;
    if SessionIsClosed (fs_Session session) then
      do! _ <- sm_modify (fun a => set_sessionActors (delete (fs_Identifier session) (sessionActors a)) a);
      if KillInstanceWhenSessionClosed (Spec (fs_Session session)) then terminate now waits false
      else if PodHasHibernateAnnotation (fp_Pod pod) && bool_decide (RuntimeHandler = QuarkRuntime)
      then hibernate
      else sm_ret ()
    else sm_ret ()
  end.

(** The branch [podHandler] takes for a message. *)
Definition pod_dispatch (now : Z) (retries : nat) (waits : list (list container_event)) (m : pod_msg) : SM pod_st unit :=
  match m with
  | MPodCreate => create
  | MPodHibernate => hibernate
  | MPodTerminate => terminate now waits false
  | MContainerCreated c => onPodContainerCreated c
  | MContainerReady c => onPodContainerReady c
  | MContainerStopped c | MContainerFailed c => handlePodContainerExit now waits c
  | MSessionOpen sessionId session => pod_onSessionOpenCommand now retries waits sessionId session
  | MSessionClose sessionId => pod_onSessionCloseCommand sessionId
  | MSessionState s =>
    do! r <- sm_try (handleSessionState now waits s);
    do! pod <- the_pod;
    if match r with Err _ => true | Ok _ => false end || bool_decide (FornaxPodState pod = PodStateTerminating)
    then terminate now waits false
    else sm_ret ()
  | MHouseKeeping =>
    do! err <- (fun a => (Ok (houseKeepingError a), a));
    match err with
    | Some _ => do! _ <- sm_modify (set_houseKeepingError None); podHouseKeeping now waits
    | None => sm_ret ()
    end
  | MContainerStarted _ | MContainerUnhealthy _ | MActorStop => sm_ret ()
  end.

(** What [podHandler] does once the message is handled: the status, the clean-up of a terminated pod
    and the notification. *)
Definition pod_settle (now : Z) (oldPodState : types_PodState) (r : result unit) : SM pod_st unit :=
  do! _ <- on_pod (SetPodStatus now None);
  do! _ <- match r with
    | Err e => sm_modify (set_houseKeepingError (Some e))
    | Ok _ =>
      do! _ <- sm_modify (set_houseKeepingError None);
      do! pod <- the_pod;
      when (bool_decide (FornaxPodState pod = PodStateTerminated))
        (do! r <- sm_try cleanup;
         do! _ <- sm_modify (set_houseKeepingError (match r with Err e => Some e | Ok _ => None end));
         on_pod (SetPodStatus now None))
    end;
  do! pod <- the_pod;
  when (bool_decide (oldPodState <> FornaxPodState pod) || bool_decide (FornaxPodState pod = PodStateCleanup))
    (notify_node PodStatusChange).

Definition podHandler (now : Z) (retries : nat) (waits : list (list container_event)) (m : pod_msg) : SM pod_st unit :=
  do! pod <- the_pod;
  do! r <- sm_try (pod_dispatch now retries waits m);
  pod_settle now (FornaxPodState pod) r.

(** ** Starting and stopping the actor *)

Definition recover_container (name : string) (c : nat) : SM pod_st unit :=
  do! cont <- get_container c;
  if bool_decide (fc_State cont = ContainerStateTerminated) then sm_ret ()
  else fun a =>
    match containerActors a !! name with
    | Some _ => (Ok (), a)
    | None =>
      let l := fresh (dom (actor_heap a)) in
      let a := set_actor_heap (<[l := mkContainerActor c ∅ [] false]> (actor_heap a)) a in
      let '(r, a) := ca_Start l c a in
      match r with
      | Ok _ => (Ok (), set_containerActors (<[c_Name (ContainerSpec cont) := l]> (containerActors a)) a)
      | Err e => (Err e, a)
      end
    end.
Definition recover_session (s : nat) : SM pod_st unit :=
  do! pod <- the_pod;
  do! sess <- get_session s;
  if SessionIsClosed (fs_Session sess) then sm_ret ()
  else
    let service := session_service_of (fp_Pod pod) in
    do! _ <- sm_modify (fun a =>
      set_sessionActors (<[fs_Identifier sess := mkSessionActor s service]> (sessionActors a)) a);
    match service with
    | GrpcService => do! _ <- sm_try (dep (dep_PingSession (Identifier pod) sess)); sm_ret ()
    | NullService _ => sm_ret ()
    end.
Definition recoverContainerAndSessionActors : SM pod_st unit :=
  do! pod <- the_pod;
  do! _ <- sm_for (range (fp_Containers pod)) (fun '(name, c) => recover_container name c);
  sm_for (range (fp_Sessions pod)) (fun '(_, s) => recover_session s).

(** [NewPodActor] with the error [ErrRecoverPod], so that the first house keeping looks at the pod, and
    [Start]. *)
Definition NewPodActor (pod : FornaxPod) (w : W) : pod_st :=
  mkPodSt pod false ∅ ∅ ∅ [] (Some ErrRecoverPod) [] w.

Definition pa_Stop : SM pod_st unit :=
  do! _ <- sm_modify (set_pa_stop true);
  do! actors <- (fun a => (Ok (containerActors a), a));
  do! _ <- sm_for (range actors) (fun '(_, l) => ca_Stop l);
  send_pod MActorStop.

(** One message of the actor's loop, which ends with [MActorStop]. *)
Definition pod_turn (now : Z) (retries : nat) (waits : list (list container_event)) : SM pod_st unit := fun a =>
  match pa_mailbox a with
  | [] | MActorStop :: _ => (Ok (), a)
  | m :: rest => podHandler now retries waits m (set_pa_mailbox rest a)
  end.

(** The actor of a pod with everything around it: messages arrive, the ticker of the house keeping
    fires while there is an error, the actor and the actors of its containers take turns. *)
Inductive pod_step : pod_st -> pod_st -> Prop :=
  | pod_receives m a : pod_step a (set_pa_mailbox (pa_mailbox a ++ [m]) a)
  | pod_ticks a : houseKeepingError a <> None -> pa_stop a = false ->
    pod_step a (set_pa_mailbox (pa_mailbox a ++ [MHouseKeeping]) a)
  | pod_turns now retries waits a : pod_step a (pod_turn now retries waits a).2
  | container_turns e a : pod_step a (container_step e a).2.

End PodActor.
