(* ===== verification/PodLifecycle.v ===== *)
(** * What a node does with a pod

    The life of a pod on its node ([PodActor], [ContainerActor]): a pod counts as terminated only when none
    of the containers recorded in it is left in the container runtime, sessions are closed before the containers of a
    pod are touched, and a pod whose termination failed is taken down by the house keeping once the
    runtime works again.  A sandbox that was started and not recorded is out of reach of all this
    ([unrecorded_sandbox_survives]). *)

From S2P Require Import Prelude GoStrings ApiTypes Interfaces Collection NodeManager NodeMonitor AgentTypes ContainerActor PodActor.
From Stdlib Require Import String.
#[local] Open Scope Z_scope.
#[local] Open Scope go_scope.

(** ** What the agent relies on

    The container runtime: [lives id w] says that a container or sandbox is there, [used id w] that the
    identifier has been handed out; identifiers are never handed out twice and nothing comes back to
    life. *)
Class AgentDepsOK {QL : QuantityLib} (W : Type) {AD : AgentDeps W} := {
  lives : string -> W -> Prop;
  used : string -> W -> Prop;
  call_used A (c : agent_call A) w id : used id w -> used id (run_call c w).2;
  call_lives A (c : agent_call A) w id : used id w -> lives id (run_call c w).2 -> lives id w;
  container_used sandbox config w id w' :
    run_call (dep_CreateContainer sandbox config) w = (Ok id, w') -> used id w';
  sandbox_used pod w rp sandbox w' :
    run_call (dep_CreateSandbox pod) w = (Ok rp, w') -> rp_Sandbox rp = Some sandbox -> used sandbox w';
  found_sandbox_used id w sandbox w' :
    run_call (dep_GetPodSandbox id) w = (Ok (Some sandbox), w') -> used sandbox w';
  terminate_removes id w w' : run_call (dep_TerminateContainer id) w = (Ok (), w') -> ~ lives id w';
  sandbox_removed id w w' : run_call (dep_TerminatePod id) w = (Ok (), w') -> ~ lives id w'
}.

Section Lifecycle.
Context {GR : GoRange} {CG : ClientGo} {QL : QuantityLib} {SC : SessionCodec} {W : Type} {AD : AgentDeps W}
  {AO : AgentDepsOK W}.
Abbreviation pod_st := (pod_st W).
Implicit Types a : pod_st.

Definition evolves (w w' : W) : Prop :=
  forall id, used id w -> used id w' /\ (lives id w' -> lives id w).
#[export] Instance evolves_preorder : PreOrder evolves.
Proof. split; [by intros w id|]. intros w1 w2 w3 H1 H2 id Hu. destruct (H1 id Hu), (H2 id); tauto. Qed.
Lemma call_evolves A (c : agent_call A) w : evolves w (run_call c w).2.
Proof. intros id Hu. split; [by apply call_used|by apply call_lives]. Qed.

(** ** Computations that leave the pod's containers and its state alone *)

Definition runtime_ids a (l : nat) : option string := RuntimeContainer <$> container_heap (pa_pod a) !! l.

Record quiet a a' : Prop := {
  quiet_state : FornaxPodState (pa_pod a') = FornaxPodState (pa_pod a);
  quiet_containers : fp_Containers (pa_pod a') = fp_Containers (pa_pod a);
  quiet_ids l : runtime_ids a' l = runtime_ids a l;
  quiet_runtime : RuntimePod (pa_pod a') = RuntimePod (pa_pod a);
  quiet_deps : evolves (pa_deps a) (pa_deps a')
}.
#[export] Instance quiet_preorder : PreOrder quiet.
Proof.
  split; [by intros a; split|]. intros a1 a2 a3 [] []. split; [congruence..| |congruence|by etrans].
  intros l. congruence.
Qed.

Abbreviation quietly := (within quiet).

Lemma quietly_the_pod : quietly the_pod.
Proof. by intros a. Qed.
Lemma within_when (R : relation pod_st) `{!PreOrder R} b c : within R c -> within R (when b c).
Proof. intros Hc. destruct b; [done|by apply within_ret]. Qed.
Lemma quietly_dep {A} (c : agent_call A) : quietly (dep c).
Proof.
  intros a. unfold dep. pose proof (call_evolves A c (pa_deps a)). destruct (run_call c (pa_deps a)); by split.
Qed.
Lemma quietly_send m : quietly (send_pod m).
Proof. intros a. by split. Qed.
Lemma quietly_notify m : quietly (notify_node m).
Proof. intros a. by split. Qed.
Lemma quietly_get_container c : quietly (get_container c).
Proof. intros a. unfold get_container. by destruct (_ !! c). Qed.
Lemma quietly_get_session s : quietly (get_session s).
Proof. intros a. unfold get_session. by destruct (_ !! s). Qed.
Lemma quietly_get_actor l : quietly (get_actor l).
Proof. intros a. unfold get_actor. by destruct (_ !! l). Qed.
Lemma quietly_on_actor l f : quietly (on_actor l f).
Proof. intros a. by split. Qed.
Lemma quietly_on_container c f :
  (forall cont, RuntimeContainer (f cont) = RuntimeContainer cont) -> quietly (on_container c f).
Proof.
  intros Hf a. split; try done. intros l. unfold runtime_ids. simpl.
  destruct (decide (l = c)) as [->|Hl]; [|by rewrite lookup_alter_ne].
  rewrite lookup_alter_eq. destruct (_ !! c); simpl; [by rewrite Hf|done].
Qed.
Lemma quietly_set_state c s : quietly (on_container c (set_fc_State s)).
Proof. by apply quietly_on_container. Qed.
Lemma quietly_set_status c s : quietly (on_container c (set_fc_Status s)).
Proof. by apply quietly_on_container. Qed.
Lemma quietly_on_session s f : quietly (on_session s f).
Proof. intros a. by split. Qed.
Lemma quietly_status now ip : quietly (on_pod (SetPodStatus now ip)).
Proof. intros a. by split. Qed.
Lemma quietly_hk e : quietly (sm_modify (set_houseKeepingError e)).
Proof. intros a. by split. Qed.
Lemma quietly_sessionActors f : quietly (sm_modify (fun a => set_sessionActors (f a) a)).
Proof. intros a. by split. Qed.
Lemma quietly_containerActors f : quietly (sm_modify (fun a => set_containerActors (f a) a)).
Proof. intros a. by split. Qed.

Create HintDb quiet discriminated.
#[local] Hint Resolve quiet_preorder within_ret within_fail within_lift within_read quietly_the_pod quietly_dep quietly_send quietly_notify
  quietly_get_container quietly_get_session quietly_get_actor quietly_on_actor quietly_set_state
  quietly_set_status quietly_on_session quietly_status quietly_hk quietly_sessionActors
  quietly_containerActors : quiet.

(** Walk through a computation: binds, branches and the quiet steps above. *)
Ltac quiet_step :=
  first [ solve [eauto 2 with quiet nocore]
        | apply (within_bind quiet); [|intros ?]
        | apply (within_when quiet) | apply within_try | apply (within_for quiet); intros ? | apply (within_collect quiet); intros ?
        | progress case_match ].
Ltac quietly_auto := repeat quiet_step.

Lemma quietly_onContainerReady c : quietly (onContainerReady c).
Proof. unfold onContainerReady. quietly_auto. Qed.
Lemma quietly_onContainerFailed c : quietly (onContainerFailed c).
Proof. unfold onContainerFailed. quietly_auto. Qed.
Lemma quietly_start_prober l t : quietly (start_prober l t).
Proof. unfold start_prober. quietly_auto. Qed.
Lemma quietly_stop_prober l t : quietly (stop_prober l t).
Proof. unfold stop_prober. quietly_auto. Qed.
#[local] Hint Resolve quietly_onContainerReady quietly_onContainerFailed quietly_start_prober quietly_stop_prober : quiet.
Lemma quietly_onContainerStarted l c : quietly (onContainerStarted l c).
Proof. unfold onContainerStarted. quietly_auto. Qed.
#[local] Hint Resolve quietly_onContainerStarted : quiet.
Lemma quietly_startContainer l c : quietly (startContainer l c).
Proof. unfold startContainer, startStartupProber, startRuntimeProber. quietly_auto. Qed.
#[local] Hint Resolve quietly_startContainer : quiet.
Lemma quietly_ca_Start l c : quietly (ca_Start l c).
Proof. unfold ca_Start, startStartupProber, startRuntimeProber. quietly_auto. Qed.
Lemma quietly_ca_Stop l : quietly (ca_Stop l).
Proof. unfold ca_Stop. quietly_auto. Qed.
Lemma quietly_probe_result l c t r s : quietly (onContainerProbeResult l c t r s).
Proof. unfold onContainerProbeResult. quietly_auto. Qed.
Lemma quietly_stopContainer l c t : quietly (stopContainer l c t).
Proof. unfold stopContainer, stopRuntimeContainer. quietly_auto. Qed.
#[local] Hint Resolve quietly_ca_Start quietly_ca_Stop quietly_probe_result quietly_stopContainer : quiet.
Lemma quietly_container_step e : quietly (container_step e).
Proof. unfold container_step, containerHandler, prober_round. quietly_auto. Qed.
#[local] Hint Resolve quietly_container_step : quiet.

Lemma quietly_CloseSession id sa : quietly (CloseSession id sa).
Proof. unfold CloseSession. quietly_auto. Qed.
Lemma quietly_backoff n c : quietly c -> quietly (backoff_exec n c).
Proof. intros Hc. induction n; simpl; quietly_auto. Qed.
#[local] Hint Resolve quietly_CloseSession quietly_backoff : quiet.
Lemma quietly_OpenSession n s sess : quietly (OpenSession n s sess).
Proof. unfold OpenSession. quietly_auto. Qed.
Lemma quietly_createContainer spec : quietly (createContainer spec).
Proof. unfold createContainer. quietly_auto. Qed.
Lemma quietly_terminateContainer cont : quietly (terminateContainer cont).
Proof. unfold terminateContainer. quietly_auto. Qed.
Lemma quietly_notifyContainer n m : quietly (notifyContainer n m).
Proof. unfold notifyContainer. quietly_auto. Qed.
#[local] Hint Resolve quietly_OpenSession quietly_createContainer quietly_terminateContainer quietly_notifyContainer : quiet.
Lemma quietly_terminate_containers force cs : forall grace waits all,
  quietly (terminate_containers force grace cs waits all).
Proof. induction cs as [|[n c] cs IH]; intros grace waits all; simpl; quietly_auto. Qed.
Lemma quietly_close_all : quietly close_all.
Proof. unfold close_all. quietly_auto. Qed.
Lemma quietly_wakeup cs : quietly (wakeup_containers cs).
Proof. induction cs as [|[n c] cs IH]; simpl; quietly_auto. Qed.
Lemma quietly_CleanupPod : quietly CleanupPod.
Proof. unfold CleanupPod. quietly_auto. Qed.
#[local] Hint Resolve quietly_terminate_containers quietly_close_all quietly_wakeup quietly_CleanupPod : quiet.
Lemma quietly_TerminatePod grace force waits : quietly (TerminatePod grace force waits).
Proof. unfold TerminatePod. quietly_auto. Qed.
#[local] Hint Resolve quietly_TerminatePod : quiet.

(** ** The invariant *)

Definition sandbox_of a : option string := RuntimePod (pa_pod a) ≫= rp_Sandbox.
Definition ended a : Prop :=
  FornaxPodState (pa_pod a) = PodStateTerminated \/ FornaxPodState (pa_pod a) = PodStateCleanup.
(** None of the pod's containers is left in the runtime. *)
Definition gone a : Prop := forall n l id,
  fp_Containers (pa_pod a) !! n = Some l -> runtime_ids a l = Some id -> ~ lives id (pa_deps a).

Record presound a : Prop := {
  sound_used n l id : fp_Containers (pa_pod a) !! n = Some l -> runtime_ids a l = Some id -> used id (pa_deps a);
  sound_sandbox s : sandbox_of a = Some s -> used s (pa_deps a);
  sound_none : sandbox_of a = None -> fp_Containers (pa_pod a) = ∅;
  sound_gone : ended a -> gone a;
  sound_heap n l : fp_Containers (pa_pod a) !! n = Some l -> is_Some (runtime_ids a l)
}.
Record sound a : Prop := {
  sound_pre : presound a;
  sound_clean s : FornaxPodState (pa_pod a) = PodStateCleanup -> sandbox_of a = Some s -> ~ lives s (pa_deps a)
}.

Definition keeps {A} (c : SM pod_st A) : Prop := forall a, sound a -> sound (c a).2.

Lemma gone_quiet a a' : quiet a a' -> presound a -> gone a -> gone a'.
Proof.
  intros [Hs Hc Hi Hr Hd] Hpre Hg n l id Hl Hid. rewrite Hc in Hl. rewrite Hi in Hid.
  destruct (Hd id) as [_ Hlive]; [by eapply (sound_used _ Hpre)|]. intros H. by eapply Hg, Hlive.
Qed.
Lemma presound_quiet a a' : quiet a a' -> presound a -> presound a'.
Proof.
  intros Hq Hpre. pose proof Hq as [Hs Hc Hi Hr Hd]. split.
  - intros n l id Hl Hid. rewrite Hc in Hl. rewrite Hi in Hid. apply Hd. by eapply (sound_used _ Hpre).
  - intros s Hsb. unfold sandbox_of in Hsb. rewrite Hr in Hsb. by apply Hd, (sound_sandbox _ Hpre).
  - intros Hsb. unfold sandbox_of in Hsb. rewrite Hr in Hsb. rewrite Hc. by apply (sound_none _ Hpre).
  - unfold ended. rewrite Hs. intros He.
    apply (gone_quiet a); [done|done|by apply (sound_gone _ Hpre)].
  - intros n l Hl. rewrite Hc in Hl. rewrite Hi. by apply (sound_heap _ Hpre n).
Qed.
Lemma sound_quiet a a' : quiet a a' -> sound a -> sound a'.
Proof.
  intros Hq [Hpre Hclean]. split; [by eapply presound_quiet|]. destruct Hq as [Hs Hc Hi Hr Hd].
  rewrite Hs. unfold sandbox_of. rewrite Hr. intros s Hst Hsb.
  destruct (Hd s) as [_ Hlive]; [by apply (sound_sandbox _ Hpre)|]. intros H. by eapply Hclean, Hlive.
Qed.

Lemma keeps_quiet {A} (c : SM pod_st A) : quietly c -> keeps c.
Proof. intros Hc a Ha. exact (sound_quiet _ _ (Hc a) Ha). Qed.
Lemma pod_keeps_bind {A B} (c : SM pod_st A) (k : A -> SM pod_st B) :
  keeps c -> (forall x, keeps (k x)) -> keeps (sm_bind c k).
Proof.
  intros Hc Hk a Ha. rewrite sm_bind_eq. specialize (Hc a Ha). destruct (c a) as [[x|e] a']; [by apply Hk|done].
Qed.
Lemma pod_keeps_try {A} (c : SM pod_st A) : keeps c -> keeps (sm_try c).
Proof. intros Hc a Ha. specialize (Hc a Ha). unfold sm_try. by destruct (c a). Qed.
Lemma keeps_when b c : keeps c -> keeps (when b c).
Proof. intros Hc. destruct b; [done|by apply keeps_quiet, (within_ret quiet)]. Qed.

(** Any state other than the two final ones asks for nothing. *)
Lemma presound_set_state s a :
  s <> PodStateTerminated -> s <> PodStateCleanup -> presound a -> presound (set_state s a).2.
Proof. intros H1 H2 [Hu Hs Hn Hg Hh]. split; try done. intros [?|?]; by simplify_eq/=. Qed.
Lemma keeps_set_state s : s <> PodStateTerminated -> s <> PodStateCleanup -> keeps (set_state s).
Proof. intros H1 H2 a [Ha _]. split; [by apply presound_set_state|]. intros ? ?. by simplify_eq/=. Qed.
Lemma sound_terminated a : presound a -> gone a -> sound (set_state PodStateTerminated a).2.
Proof. intros [Hu Hs Hn _ Hh] Hg. split; [by split|]. intros ? ?. by simplify_eq/=. Qed.

(** *** Terminating *)

Lemma terminate_containers_gone force cs : forall grace waits all a b a',
  terminate_containers force grace cs waits all a = (Ok b, a') ->
  forall n l id, (n, l) ∈ cs -> runtime_ids a l = Some id -> used id (pa_deps a) -> ~ lives id (pa_deps a').
Proof.
  induction cs as [|[m c] cs IH]; intros grace waits all a b a' E n l id Hin Hid Hu; [by apply elem_of_nil in Hin|].
  cbn [terminate_containers] in E. rewrite sm_bind_eq in E. unfold get_container in E at 1.
  destruct (container_heap (pa_pod a) !! c) as [cont|] eqn:Hc; [|done].
  rewrite sm_bind_eq in E.
  match type of E with context [when ?b ?c a] => assert (quietly (when b c)) as Hq1 by quietly_auto;
    set (w := when b c) in * end.
  specialize (Hq1 a). destruct (w a) as [[[]|e] a1]; [|done]. simpl in Hq1.
  rewrite sm_bind_eq in E. unfold terminateContainer, dep in E.
  destruct (run_call (dep_TerminateContainer (RuntimeContainer cont)) (pa_deps a1)) as [[[]|e] w2] eqn:Et; [|done].
  set (a2 := set_pa_deps w2 a1) in *.
  assert (quiet a1 a2) as Hq2.
  { pose proof (quietly_dep (dep_TerminateContainer (RuntimeContainer cont)) a1) as H.
    unfold dep in H. by rewrite Et in H. }
  assert (quiet a2 a') as Hq3.
  { pose proof (quietly_terminate_containers force cs
      (if negb (ContainerExit (fc_Status cont)) && negb force && bool_decide (grace = 0)
       then DefaultStopContainerGracePeriod else grace) (tail waits)
      (all && negb (negb (ContainerExit (fc_Status cont)) && negb force)) a2) as H. by rewrite E in H. }
  assert (quiet a a2) as Hq by (by etrans).
  assert (used id (pa_deps a2)) as Hu2 by (by apply (quiet_deps _ _ Hq)).
  apply elem_of_cons in Hin as [[= -> ->]|Hin].
  - assert (id = RuntimeContainer cont) as -> by (unfold runtime_ids in Hid; rewrite Hc in Hid; by simplify_eq/=).
    intros Hlive. apply (quiet_deps _ _ Hq3) in Hlive; [|done]. revert Hlive. by eapply terminate_removes.
  - eapply IH; [done|done| |done]. by rewrite (quiet_ids _ _ Hq).
Qed.

Lemma TerminatePod_gone grace force waits a b a' :
  presound a -> TerminatePod grace force waits a = (Ok b, a') -> gone a'.
Proof.
  intros Hpre. unfold TerminatePod. rewrite sm_bind_eq. unfold the_pod at 1.
  case_match; [done|]. intros E n l id Hl Hid.
  pose proof (quietly_terminate_containers force (range (fp_Containers (pa_pod a))) grace waits true a) as Hq.
  rewrite E in Hq. cbn [snd] in Hq. rewrite (quiet_containers _ _ Hq) in Hl. rewrite (quiet_ids _ _ Hq) in Hid.
  eapply terminate_containers_gone; [done|by apply elem_of_range|done|by eapply (sound_used _ Hpre)].
Qed.

Lemma terminate_sound now waits force a : presound a -> sound (terminate now waits force a).2.
Proof.
  intros Hpre. unfold terminate. rewrite sm_bind_eq. unfold on_pod at 1. rewrite sm_modify_eq.
  match goal with |- context [set_pa_pod ?p a] => set (a1 := set_pa_pod p a) end.
  assert (quiet a a1) as Hq1 by (unfold a1; case_bool_decide; by split).
  apply (presound_quiet _ _ Hq1) in Hpre. clearbody a1. clear Hq1.
  rewrite sm_bind_eq. unfold the_pod at 1. case_bool_decide as Hst; simpl.
  { split; [done|]. intros s Hc. congruence. }
  rewrite sm_bind_eq. unfold set_state at 1, on_pod at 1. rewrite sm_modify_eq.
  change (set_pa_pod _ a1) with (set_state PodStateTerminating a1).2.
  assert (presound (set_state PodStateTerminating a1).2) as Hpre2 by (by apply presound_set_state).
  assert (forall a', quiet (set_state PodStateTerminating a1).2 a' -> sound a') as Hquiet.
  { intros a' Hq. split; [by eapply presound_quiet|]. rewrite (quiet_state _ _ Hq). by intros s ?. }
  set (a2 := (set_state PodStateTerminating a1).2) in *.
  case_match.
  - apply Hquiet. revert a2 Hpre2 Hquiet. intros a2 _ _. apply (within_bind quiet); [quietly_auto|]. intros errs. quietly_auto.
  - rewrite sm_bind_eq.
    pose proof (quietly_TerminatePod (grace_period (fp_Pod (pa_pod a1))) force waits a2) as Hq.
    destruct (TerminatePod _ force waits a2) as [[b|e] a3] eqn:E; simpl in *; [|by apply Hquiet].
    destruct b; [|by apply Hquiet]. simpl. apply sound_terminated; [by eapply presound_quiet|].
    by eapply TerminatePod_gone.
Qed.
Lemma keeps_terminate now waits force : keeps (terminate now waits force).
Proof. intros a [Ha _]. by apply terminate_sound. Qed.

(** *** Creating *)

Lemma createContainer_used spec a id a' :
  createContainer spec a = (Ok id, a') -> used id (pa_deps a').
Proof.
  unfold createContainer, dep. rewrite !sm_bind_eq. unfold the_pod at 1. rewrite sm_bind_eq.
  destruct (run_call (dep_PullImage spec) (pa_deps a)) as [[image|e] w1]; [|done].
  rewrite sm_bind_eq. unfold sm_try at 1.
  destruct (run_call (dep_ContainerConfig _ spec image) _) as [[config|e] w2]; [|done].
  destruct (RuntimePod (pa_pod a) ≫= rp_Sandbox) as [sandbox|]; [|done].
  rewrite sm_bind_eq. unfold sm_try at 1.
  destruct (run_call (dep_CreateContainer sandbox config) _) as [[id'|e] w3] eqn:E; [|done].
  intros [= -> <-]. by eapply container_used.
Qed.

(** A pod that is being created: its sandbox is there. *)
Definition creating a : Prop :=
  presound a /\ FornaxPodState (pa_pod a) = PodStateCreating /\ is_Some (sandbox_of a).
Lemma creating_quiet a a' : quiet a a' -> creating a -> creating a'.
Proof.
  intros Hq (Hp & Hs & Hb). split_and!; [by eapply presound_quiet|by rewrite (quiet_state _ _ Hq)|].
  unfold sandbox_of in *. by rewrite (quiet_runtime _ _ Hq).
Qed.
Lemma creating_sound a : creating a -> sound a.
Proof. intros (Hp & Hs & _). split; [done|]. intros s. by rewrite Hs. Qed.

Lemma new_container_creating init spec id a :
  creating a -> used id (pa_deps a) -> creating (new_container init spec id a).2.
Proof.
  intros (Hp & Hs & Hb) Hu. unfold new_container. eapply creating_quiet; [apply quietly_ca_Start|].
  destruct Hp as [Hu' Hsb Hn Hg Hh]. split_and!; [|done|done]. split.
  - intros n l id' Hl Hid. unfold runtime_ids in *. simpl in *.
    destruct (decide (l = fresh (dom (container_heap (pa_pod a))))) as [->|Hne].
    + rewrite lookup_insert_eq in Hid. by simplify_eq/=.
    + rewrite lookup_insert_ne in Hid by done. apply lookup_insert_Some in Hl as [[_ ?]|[_ Hl]]; [done|].
      by eapply Hu'.
  - intros s Hsb'. by apply Hsb.
  - intros Hsb'. destruct Hb as [? Hb]. unfold sandbox_of in *. simpl in Hsb'. congruence.
  - intros [?|?]; simpl in *; congruence.
  - intros n l Hl. unfold runtime_ids in *. simpl in *.
    destruct (decide (l = fresh (dom (container_heap (pa_pod a))))) as [->|Hne]; [by rewrite lookup_insert_eq|].
    rewrite lookup_insert_ne by done. apply lookup_insert_Some in Hl as [[_ ?]|[_ Hl]]; [done|by eapply Hh].
Qed.

Lemma create_containers_creating init specs : forall a, creating a ->
  match create_containers init specs a with (Ok _, a') => creating a' | (Err _, a') => sound a' end.
Proof.
  induction specs as [|spec specs IH]; intros a Ha; cbn [create_containers sm_for]; [done|].
  unfold create_containers in IH. cbn [create_containers sm_for]. unfold create_containers. cbn [sm_for].
  rewrite sm_bind_eq. rewrite sm_bind_eq.
  pose proof (quietly_createContainer spec a) as Hq.
  destruct (createContainer spec a) as [[id|e] a1] eqn:E; cbn [snd] in Hq;
    [|by eapply creating_sound, creating_quiet].
  pose proof (new_container_creating init spec id a1) as Hnew.
  destruct (new_container init spec id a1) as [[[]|e] a2]; cbn [snd] in Hnew.
  - apply IH, Hnew; [by eapply creating_quiet|by eapply createContainer_used].
  - apply creating_sound, Hnew; [by eapply creating_quiet|by eapply createContainer_used].
Qed.

Lemma presound_new_sandbox rp s a :
  presound a -> sandbox_of a = None -> rp_Sandbox rp = Some s -> used s (pa_deps a) ->
  presound (on_pod (set_RuntimePod (Some rp)) a).2.
Proof.
  intros [Hu Hs Hn Hg Hh] Hnone Hrp Hused. specialize (Hn Hnone). unfold sandbox_of. split.
  - intros n l id Hl. simpl in Hl. by rewrite Hn, lookup_empty in Hl.
  - simpl. intros s' Hs'. unfold sandbox_of in Hs'. simpl in Hs'. by simplify_eq.
  - intros Hs'. unfold sandbox_of in Hs'. simpl in Hs'. by simplify_eq.
  - intros _ n l id Hl. simpl in Hl. by rewrite Hn, lookup_empty in Hl.
  - intros n l Hl. simpl in Hl. by rewrite Hn, lookup_empty in Hl.
Qed.

(** A pod that has no sandbox yet. *)
Definition unborn a : Prop :=
  presound a /\ FornaxPodState (pa_pod a) = PodStateCreating /\ sandbox_of a = None.
Lemma unborn_quiet a a' : quiet a a' -> unborn a -> unborn a'.
Proof.
  intros Hq (Hp & Hs & Hb). split_and!; [by eapply presound_quiet|by rewrite (quiet_state _ _ Hq)|].
  unfold sandbox_of in *. by rewrite (quiet_runtime _ _ Hq).
Qed.
Lemma unborn_sound a : unborn a -> sound a.
Proof. intros (Hp & Hs & _). split; [done|]. intros s. by rewrite Hs. Qed.
Lemma unborn_bind {A} (c : SM pod_st A) (k : A -> SM pod_st unit) : quietly c ->
  (forall x a, unborn a -> sound (k x a).2) -> forall a, unborn a -> sound (sm_bind c k a).2.
Proof.
  intros Hc Hk a Ha. rewrite sm_bind_eq. apply (unborn_quiet _ _ (Hc a)) in Ha.
  destruct (c a) as [[x|e] a']; cbn [snd] in *; [by apply Hk|by apply unborn_sound].
Qed.

Lemma CreatePod_sound a : unborn a -> sound (CreatePod a).2.
Proof.
  unfold CreatePod. rewrite sm_bind_eq. unfold the_pod at 1. generalize (pa_pod a) as fpod.
  intros fpod. revert a.
  apply unborn_bind; [quietly_auto|]. intros found. apply unborn_bind; [quietly_auto|]. intros _.
  apply unborn_bind; [quietly_auto|]. intros _. apply unborn_bind; [quietly_auto|]. intros _.
  apply unborn_bind; [quietly_auto|]. intros _ a Ha. pose proof Ha as (Hp & Hs & Hb). rewrite sm_bind_eq. unfold dep.
  pose proof (quietly_dep (dep_CreateSandbox (fp_Pod fpod)) a) as Hq. unfold dep in Hq.
  destruct (run_call _ (pa_deps a)) as [[rp|e] w1] eqn:E; cbn [snd] in Hq.
  2:{ by eapply unborn_sound, unborn_quiet. }
  assert (sound (set_pa_deps w1 a)) as Hsound by (by eapply unborn_sound, unborn_quiet).
  destruct (rp_Sandbox rp) as [sb|] eqn:Hrp; [|done].
  rewrite sm_bind_eq. unfold on_pod at 1. rewrite sm_modify_eq.
  set (a1 := set_pa_pod _ _).
  assert (creating a1) as Hc.
  { split_and!; [|done|unfold sandbox_of; simpl; by rewrite Hrp].
    apply (presound_new_sandbox rp sb (set_pa_deps w1 a)); [by apply Hsound|done|done|].
    by eapply sandbox_used. }
  clearbody a1. rewrite sm_bind_eq.
  pose proof (create_containers_creating true (InitContainers (Spec (fp_Pod fpod))) a1 Hc) as H1.
  destruct (create_containers true _ a1) as [[[]|e] a2]; [|done].
  pose proof (create_containers_creating false (Containers (Spec (fp_Pod fpod))) a2 H1) as H2.
  destruct (create_containers false _ a2) as [[[]|e] a3]; [by apply creating_sound|done].
Qed.

Lemma keeps_create : keeps create.
Proof.
  intros a Ha. unfold create. rewrite sm_bind_eq. unfold the_pod at 1.
  case_match; [done|]. destruct (PodCreated (pa_pod a)) eqn:Hc; [done|].
  apply orb_false_iff in Hc as [_ Hr%bool_decide_eq_false_1]. apply eq_None_not_Some in Hr.
  rewrite sm_bind_eq. unfold set_state at 1, on_pod at 1. rewrite sm_modify_eq.
  set (a1 := set_pa_pod _ a).
  assert (unborn a1) as Ha1.
  { split_and!; [by apply (presound_set_state PodStateCreating), Ha|done|].
    unfold sandbox_of. simpl. by rewrite Hr. }
  clearbody a1. rewrite sm_bind_eq. apply CreatePod_sound in Ha1.
  destruct (CreatePod a1) as [[[]|e] a2]; [|done]. by apply keeps_set_state.
Qed.

(** *** The other handlers *)

Lemma pod_keeps_ret {A} (x : A) : keeps (sm_ret x).
Proof. by apply keeps_quiet, (within_ret quiet). Qed.
Create HintDb keeps discriminated.
#[local] Hint Resolve keeps_terminate keeps_create pod_keeps_ret : keeps.

Ltac keeps_step :=
  first [ solve [eauto 2 with keeps nocore]
        | solve [apply keeps_quiet; quietly_auto]
        | apply keeps_set_state; discriminate
        | apply pod_keeps_bind; [|intros ?]
        | apply keeps_when | apply pod_keeps_try
        | progress case_match ].
Ltac keeps_auto := repeat keeps_step.

Lemma keeps_hibernateContainer c : keeps (hibernateContainer c).
Proof. unfold hibernateContainer. keeps_auto. Qed.
#[local] Hint Resolve keeps_hibernateContainer : keeps.
Lemma keeps_hibernate : keeps hibernate.
Proof. unfold hibernate. keeps_auto. Qed.
Lemma keeps_onPodContainerReady rh c : keeps (onPodContainerReady rh c).
Proof. unfold onPodContainerReady. keeps_auto. Qed.
Lemma keeps_handlePodContainerExit now waits c : keeps (handlePodContainerExit now waits c).
Proof. unfold handlePodContainerExit. keeps_auto. Qed.
Lemma quietly_open_session n id s : quietly (open_session n id s).
Proof.
  unfold open_session. apply (within_bind quiet); [quietly_auto|]. intros pod. case_match; [quietly_auto|].
  apply (within_bind quiet); [quietly_auto|]. intros service a. by split.
Qed.
#[local] Hint Resolve quietly_open_session : quiet.
Lemma keeps_pod_onSessionOpenCommand now n waits id s : keeps (pod_onSessionOpenCommand now n waits id s).
Proof. unfold pod_onSessionOpenCommand. keeps_auto. Qed.
#[local] Hint Resolve keeps_hibernate keeps_onPodContainerReady keeps_handlePodContainerExit
  keeps_pod_onSessionOpenCommand : keeps.
Lemma keeps_handleSessionState rh now waits s : keeps (handleSessionState rh now waits s).
Proof. unfold handleSessionState. keeps_auto. Qed.
#[local] Hint Resolve keeps_handleSessionState : keeps.

Lemma gone_none a : presound a -> sandbox_of a = None -> gone a.
Proof. intros Hp Hb n l id Hl. by rewrite (sound_none _ Hp Hb), lookup_empty in Hl. Qed.

Lemma keeps_podHouseKeeping now waits : keeps (podHouseKeeping now waits).
Proof.
  intros a Ha. unfold podHouseKeeping. rewrite sm_bind_eq. unfold the_pod at 1.
  case_match; [done|]. case_match; [by apply keeps_terminate|].
  destruct (RuntimePod (pa_pod a)) as [rp|] eqn:Hr.
  2:{ apply sound_terminated; [apply Ha|apply gone_none; [apply Ha|unfold sandbox_of; by rewrite Hr]]. }
  destruct (rp_Sandbox rp) as [sb|] eqn:Hrp; [done|].
  assert (sandbox_of a = None) as Hb by (unfold sandbox_of; rewrite Hr; done).
  rewrite sm_bind_eq. pose proof (quietly_dep (dep_GetPodSandbox (rp_Id rp)) a) as Hq. unfold dep in *.
  destruct (run_call _ (pa_deps a)) as [[found|e] w1] eqn:E; cbn [snd] in Hq; [|by eapply sound_quiet].
  assert (presound (set_pa_deps w1 a)) as Hp by (by eapply presound_quiet, Ha).
  destruct found as [sb|].
  - rewrite sm_bind_eq. unfold on_pod at 1. rewrite sm_modify_eq. apply terminate_sound.
    apply (presound_new_sandbox (mkRuntimePod (rp_Id rp) (Some sb)) sb (set_pa_deps w1 a)); [done|done|done|].
    by eapply found_sandbox_used.
  - apply sound_terminated; [done|by apply gone_none].
Qed.
#[local] Hint Resolve keeps_podHouseKeeping : keeps.

Lemma keeps_pod_dispatch rh now n waits m : keeps (pod_dispatch rh now n waits m).
Proof.
  destruct m; unfold pod_dispatch, onPodContainerCreated, pod_onSessionCloseCommand; keeps_auto.
Qed.

Lemma CleanupPod_sandbox a a' :
  presound a -> CleanupPod a = (Ok (), a') -> forall s, sandbox_of a' = Some s -> ~ lives s (pa_deps a').
Proof.
  intros Hp E s. pose proof (quietly_CleanupPod a) as Hq. rewrite E in Hq. cbn [snd] in Hq.
  unfold sandbox_of at 1. rewrite (quiet_runtime _ _ Hq). fold (sandbox_of a). intros Hb Hlive.
  unfold CleanupPod in E. rewrite sm_bind_eq in E. unfold the_pod in E at 1. unfold sandbox_of in Hb. rewrite Hb in E.
  rewrite !sm_bind_eq in E. unfold dep in E at 1. pose proof (quietly_dep (dep_TerminatePod s) a) as Hq1. unfold dep in Hq1.
  destruct (run_call (dep_TerminatePod s) (pa_deps a)) as [[[]|e] w1] eqn:Et; [|done]. cbn [snd] in Hq1.
  set (a1 := set_pa_deps w1 a) in *.
  pose proof (quietly_dep (dep_RemoveSandboxLogs (fp_Pod (pa_pod a))) a1) as Hq2.
  destruct (dep _ a1) as [[[]|e] a2]; [|done]. cbn [snd] in Hq2.
  match type of E with context [sm_bind ?c ?k a2] =>
    assert (quietly (sm_bind c k)) as Hq3 by quietly_auto; specialize (Hq3 a2) end.
  rewrite E in Hq3. cbn [snd] in Hq3.
  assert (quiet a1 a') as Hq4 by (by etrans).
  assert (used s (pa_deps a1)) as Hu by (by apply (quiet_deps _ _ Hq1), (sound_sandbox _ Hp)).
  apply (quiet_deps _ _ Hq4) in Hlive; [|done]. revert Hlive. by eapply sandbox_removed.
Qed.

Lemma cleanup_sound a : sound a -> FornaxPodState (pa_pod a) = PodStateTerminated -> sound (cleanup a).2.
Proof.
  intros Ha Hs. unfold cleanup. rewrite sm_bind_eq. pose proof (quietly_CleanupPod a) as Hq.
  destruct (CleanupPod a) as [[[]|e] a1] eqn:E; cbn [snd] in Hq; [|by eapply sound_quiet].
  assert (gone a1) as Hg by (eapply gone_quiet; [done|apply Ha|apply (sound_gone _ (sound_pre _ Ha)); by left]).
  pose proof (CleanupPod_sandbox _ _ (sound_pre _ Ha) E) as Hb.
  destruct (presound_quiet _ _ Hq (sound_pre _ Ha)) as [Hu Hsb Hn _ Hh].
  split; [by split|]. intros s _ Hs'. by apply Hb.
Qed.

Lemma keeps_pod_settle now old r : keeps (pod_settle now old r).
Proof.
  unfold pod_settle. apply pod_keeps_bind; [keeps_auto|]. intros _. apply pod_keeps_bind; [|intros _; keeps_auto].
  destruct r as [[]|e]; [|keeps_auto]. apply pod_keeps_bind; [keeps_auto|]. intros _ a Ha.
  rewrite sm_bind_eq. unfold the_pod at 1. case_bool_decide as Hs; [|done]. cbn [when].
  rewrite sm_bind_eq. pose proof (cleanup_sound a Ha Hs) as Hc. unfold sm_try.
  destruct (cleanup a) as [r a1]; cbn [snd] in Hc. revert a1 Hc.
  change (keeps (do! _ <- sm_modify (set_houseKeepingError (match r with Err e => Some e | Ok _ => None end));
                 on_pod (SetPodStatus now None))). keeps_auto.
Qed.

Lemma keeps_podHandler rh now n waits m : keeps (podHandler rh now n waits m).
Proof.
  unfold podHandler. apply pod_keeps_bind; [keeps_auto|]. intros pod.
  apply pod_keeps_bind; [apply pod_keeps_try, keeps_pod_dispatch|]. intros r. apply keeps_pod_settle.
Qed.

Lemma mailbox_sound l a : sound a -> sound (set_pa_mailbox l a).
Proof. intros Ha. eapply sound_quiet, Ha. by split. Qed.

Lemma pod_step_sound rh a a' : pod_step rh a a' -> sound a -> sound a'.
Proof.
  intros [m a1|a1 _ _|now n waits a1|e a1] Ha.
  - by apply mailbox_sound.
  - by apply mailbox_sound.
  - unfold pod_turn. destruct (pa_mailbox a1) as [|m rest]; [done|].
    destruct m; try done; by apply keeps_podHandler, mailbox_sound.
  - eapply sound_quiet; [apply quietly_container_step|done].
Qed.

(** ** The life of a pod *)

(** The actor of the pod takes its steps, and the runtime changes by what other pods and the node do. *)
Inductive agent_step (rh : string) : pod_st -> pod_st -> Prop :=
  | own_step a a' : pod_step rh a a' -> agent_step rh a a'
  | other_step a w' : evolves (pa_deps a) w' -> agent_step rh a (set_pa_deps w' a).

Definition new_pod (pod : FornaxPod) : Prop :=
  FornaxPodState pod = PodStateCreating /\ RuntimePod pod = None /\ fp_Containers pod = ∅.

Lemma new_pod_sound pod w : new_pod pod -> sound (NewPodActor pod w).
Proof.
  intros (Hs & Hr & Hc). split; [split|].
  - intros n l id Hl. simpl in Hl. by rewrite Hc, lookup_empty in Hl.
  - intros s Hb. unfold sandbox_of in Hb. simpl in Hb. by rewrite Hr in Hb.
  - done.
  - intros [He|He]; simpl in He; congruence.
  - intros n l Hl. simpl in Hl. by rewrite Hc, lookup_empty in Hl.
  - intros s He. simpl in He. congruence.
Qed.

Lemma agent_run_sound rh a a' : rtc (agent_step rh) a a' -> sound a -> sound a'.
Proof.
  intros Hrun Ha. revert Hrun. revert a'. apply rtc_ind_r; [done|].
  intros a1 a2 _ [? ? Hs|a3 w' Hw] IH; [by eapply pod_step_sound|].
  eapply sound_quiet, IH. by split.
Qed.

(** C23: however its messages, its containers and the rest of the node interleave, a pod is in the state
    Terminated or Cleanup only when none of the containers recorded in the pod is left in the container
    runtime, and in the state Cleanup only when the sandbox recorded in it is gone too.  (A sandbox whose
    creation was answered with an error is not recorded.) *)
Theorem terminated_pod_containers_removed rh pod w a :
  new_pod pod -> rtc (agent_step rh) (NewPodActor pod w) a ->
  (FornaxPodState (pa_pod a) = PodStateTerminated \/ FornaxPodState (pa_pod a) = PodStateCleanup ->
   forall c, c ∈ pod_containers (pa_pod a) -> ~ lives (RuntimeContainer c) (pa_deps a)) /\
  (FornaxPodState (pa_pod a) = PodStateCleanup ->
   forall s, sandbox_of a = Some s -> ~ lives s (pa_deps a)).
Proof.
  intros Hnew Hrun. assert (sound a) as Ha by (by eapply agent_run_sound, new_pod_sound). split.
  - intros He c Hc. unfold pod_containers in Hc. apply list_elem_of_omap in Hc as ([n l] & Hin & Hl).
    apply elem_of_range in Hin. apply (sound_gone _ (sound_pre _ Ha) He n l); [done|].
    unfold runtime_ids. by rewrite Hl.
  - intros He s. by apply (sound_clean _ Ha).
Qed.

End Lifecycle.

(** ** Sessions first *)

Section Sessions.
Context {GR : GoRange} {CG : ClientGo} {QL : QuantityLib} {SC : SessionCodec} {W : Type} {AD : AgentDeps W}.
Abbreviation pod_st := (pod_st W).
Implicit Types a : pod_st.

(** What [podHandler] ends with unless the pod has terminated. *)
Lemma pod_settle_alive now old r a :
  FornaxPodState (pa_pod a) <> PodStateTerminated ->
  pod_settle now old r a =
  (Ok (), let st := FornaxPodState (pa_pod a) in
    let a1 := set_houseKeepingError (match r with Err e => Some e | Ok _ => None end)
                (set_pa_pod (SetPodStatus now None (pa_pod a)) a) in
    if bool_decide (old <> st) || bool_decide (st = PodStateCleanup)
    then set_pa_notified (pa_notified a ++ [PodStatusChange]) a1 else a1).
Proof.
  intros Hst. unfold pod_settle, on_pod, the_pod, notify_node, sm_bind, sm_modify, when.
  destruct r as [[]|e]; cbn -[SetPodStatus bool_decide];
    change (FornaxPodState (SetPodStatus now None (pa_pod a))) with (FornaxPodState (pa_pod a)).
  - rewrite (bool_decide_false (FornaxPodState (pa_pod a) = PodStateTerminated)) by done.
    cbn -[SetPodStatus bool_decide].
    change (FornaxPodState (SetPodStatus now None (pa_pod a))) with (FornaxPodState (pa_pod a)). by case_match.
  - by case_match.
Qed.

(** The request for the session of an actor, when there is one: sessions that are open, at the session
    service, with the time they get. *)
Definition close_request (heap : gmap nat FornaxSession) (sa : SessionActor) : option (string * Z) :=
  sess ← heap !! sa_session sa;
  if SessionIsOpen (fs_Session sess) then
    match sa_service sa with
    | GrpcService => Some (fs_Identifier sess,
        default DefaultCloseSessionGraceSeconds (CloseGracePeriodSeconds (Spec (fs_Session sess))))
    | NullService _ => None
    end
  else None.
(** The session service is called once for every request, and for nothing else. *)
Inductive close_calls (podId : string) : list (string * Z) -> W -> W -> Prop :=
  | no_calls w : close_calls podId [] w w
  | next_call id grace sess rest w w' : fs_Identifier sess = id ->
    close_calls podId rest (run_call (dep_CloseSession podId sess grace) w).2 w' ->
    close_calls podId ((id, grace) :: rest) w w'.
Lemma close_calls_app podId l1 l2 w1 w2 w3 :
  close_calls podId l1 w1 w2 -> close_calls podId l2 w2 w3 -> close_calls podId (l1 ++ l2) w1 w3.
Proof. induction 1; [done|]. intros H2. simpl. eapply next_call; [done|]. auto. Qed.

(** What closing leaves of a session object *)
Definition session_kept (sess sess' : FornaxSession) : Prop :=
  fs_Identifier sess' = fs_Identifier sess /\ Spec (fs_Session sess') = Spec (fs_Session sess) /\
  SessionIsOpen (fs_Session sess') = SessionIsOpen (fs_Session sess) /\
  (SessionIsClosing (fs_Session sess) = true -> SessionIsClosing (fs_Session sess') = true).

(** Nothing but sessions is touched. *)
Record sessions_only a a' : Prop := {
  so_state : FornaxPodState (pa_pod a') = FornaxPodState (pa_pod a);
  so_id : Identifier (pa_pod a') = Identifier (pa_pod a);
  so_containers : fp_Containers (pa_pod a') = fp_Containers (pa_pod a);
  so_heap : container_heap (pa_pod a') = container_heap (pa_pod a);
  so_actors : actor_heap a' = actor_heap a;
  so_notified : pa_notified a' = pa_notified a;
  so_mailbox m : m ∈ pa_mailbox a -> m ∈ pa_mailbox a';
  so_sessions s : option_Forall2 session_kept (session_heap (pa_pod a) !! s) (session_heap (pa_pod a') !! s)
}.
#[export] Instance session_kept_preorder : PreOrder session_kept.
Proof.
  split; [by repeat split|]. intros x y z (? & ? & ? & ?) (? & ? & ? & ?). repeat split; [congruence..|auto].
Qed.
#[export] Instance sessions_only_preorder : PreOrder sessions_only.
Proof.
  split; [by intros a; split|]. intros a1 a2 a3 H12 H23. split.
  1-6: (by destruct H12, H23; congruence).
  - intros m Hm. by apply (so_mailbox _ _ H23), (so_mailbox _ _ H12).
  - intros s. etrans; [apply (so_sessions _ _ H12)|apply (so_sessions _ _ H23)].
Qed.
Lemma close_request_kept a a' sa : sessions_only a a' ->
  close_request (session_heap (pa_pod a')) sa = close_request (session_heap (pa_pod a)) sa.
Proof.
  intros H. unfold close_request. destruct (so_sessions _ _ H (sa_session sa)) as [x y (Hi & Hs & Ho & _)|]; [|done].
  simpl. by rewrite Hi, Hs, Ho.
Qed.

Lemma close_requests_kept a a' (l : list (string * SessionActor)) : sessions_only a a' ->
  omap (fun x => close_request (session_heap (pa_pod a')) x.2) l = omap (fun x => close_request (session_heap (pa_pod a)) x.2) l.
Proof. intros H. induction l as [|x l IH]; [done|]. cbn. by rewrite IH, (close_request_kept a a'). Qed.

(** What [CloseSession] achieves for the session of an actor. *)
Definition closed_by (sa : SessionActor) a a' : Prop :=
  forall sess, session_heap (pa_pod a) !! sa_session sa = Some sess -> SessionIsOpen (fs_Session sess) = true ->
  (exists sess', session_heap (pa_pod a') !! sa_session sa = Some sess' /\ SessionIsClosing (fs_Session sess') = true) /\
  (forall open, sa_service sa = NullService open -> MSessionState (closed_report sess) ∈ pa_mailbox a').

Lemma closed_by_kept sa a0 a a1 a' : sessions_only a0 a -> sessions_only a1 a' -> closed_by sa a a1 -> closed_by sa a0 a'.
Proof.
  intros H0 H1 Hc sess Hs Ho. pose proof (so_sessions _ _ H0 (sa_session sa)) as Hk. rewrite Hs in Hk.
  inversion Hk as [? sess1 (Hi & _ & Ho1 & _) Hs1 Hs1'|]; subst. destruct (Hc sess1) as [(sess' & Hs' & Hcl) Hm]; [done|congruence|].
  split.
  - pose proof (so_sessions _ _ H1 (sa_session sa)) as Hk1. rewrite Hs' in Hk1.
    inversion Hk1 as [? sess2 (_ & _ & _ & Hc2) Hs2 Hs2'|]; subst. exists sess2. split; [done|by apply Hc2].
  - intros open Hsa. apply (so_mailbox _ _ H1). unfold closed_report in *. rewrite <- Hi. by eapply Hm.
Qed.

Lemma CloseSession_effect id sa a :
  let a' := (CloseSession id sa a).2 in
  sessions_only a a' /\ closed_by sa a a' /\
  close_calls (Identifier (pa_pod a)) (option_list (close_request (session_heap (pa_pod a)) sa)) (pa_deps a) (pa_deps a').
Proof.
  cbv zeta. pattern ((CloseSession id sa a).2). match goal with |- ?P _ => set (Post := P) end.
  unfold CloseSession. rewrite sm_bind_eq. unfold get_session at 1.
  destruct (session_heap (pa_pod a) !! sa_session sa) as [sess|] eqn:Hs.
  2:{ unfold Post, closed_by, close_request. rewrite Hs. split_and!; [done|done|constructor]. }
  cbv zeta. destruct (SessionIsOpen (fs_Session sess)) eqn:Ho.
  2:{ unfold Post, closed_by, close_request. rewrite Hs. cbn. rewrite Ho. split_and!; [done| |constructor].
      intros x [= ->]. congruence. }
  rewrite sm_bind_eq. unfold on_session at 1, on_pod at 1. rewrite sm_modify_eq. set (a1 := set_pa_pod _ a).
  assert (sessions_only a a1) as H1.
  { split; try done. intros s. unfold a1. cbn. rewrite lookup_alter. case_decide as E; [subst s|].
    - rewrite Hs. cbn. constructor. unfold session_kept, SessionIsOpen in *. cbn. by repeat split.
    - by destruct (session_heap (pa_pod a) !! s); constructor. }
  assert (exists sess', session_heap (pa_pod a1) !! sa_session sa = Some sess' /\
    SessionIsClosing (fs_Session sess') = true) as Hs1.
  { unfold a1. cbn. rewrite lookup_alter_eq, Hs. by eexists. }
  assert (pa_deps a1 = pa_deps a /\ Identifier (pa_pod a1) = Identifier (pa_pod a)) as [D1 I1] by done.
  clearbody a1.
  assert (forall a2, sessions_only a1 a2 ->
    (forall open, sa_service sa = NullService open -> MSessionState (closed_report sess) ∈ pa_mailbox a2) ->
    close_calls (Identifier (pa_pod a)) (option_list (close_request (session_heap (pa_pod a)) sa)) (pa_deps a1) (pa_deps a2) ->
    Post a2) as Hpost.
  { intros a2 H2 Hm Hd. unfold Post. rewrite <- D1. split_and!; [by etrans| |done]. intros x Hx _.
    rewrite Hs in Hx. injection Hx as <-. split; [|done]. destruct Hs1 as (sess' & Hs' & Hc).
    pose proof (so_sessions _ _ H2 (sa_session sa)) as Hk. rewrite Hs' in Hk.
    inversion Hk as [? sess2 (_ & _ & _ & Hc2) Hs2 Hs2'|]; subst. exists sess2. split; [done|by apply Hc2]. }
  assert (forall m a2, sessions_only a2 (send_pod m a2).2) as Hsend.
  { intros m a2. split; try done. intros m' Hm. cbn. apply elem_of_app. by left. }
  rewrite sm_bind_eq. unfold sm_try at 1. unfold close_request in Hpost. rewrite Hs in Hpost. cbn in Hpost. rewrite Ho in Hpost.
  destruct (sa_service sa) as [|[|]] eqn:Hsv.
  - rewrite sm_bind_eq. unfold the_pod, dep. destruct (run_call (dep_CloseSession _ sess _) (pa_deps a1)) as [r w] eqn:E.
    assert (close_calls (Identifier (pa_pod a)) [(fs_Identifier sess, default DefaultCloseSessionGraceSeconds
      (CloseGracePeriodSeconds (Spec (fs_Session sess))))] (pa_deps a1) w) as Hc.
    { apply (next_call _ _ _ sess); [done|]. rewrite <- I1, E. constructor. }
    assert (sessions_only a1 (set_pa_deps w a1)) as H2 by (by split).
    rewrite sm_bind_eq. case_bool_decide; cbn [when]; [|by apply Hpost].
    apply Hpost; [|done|done]. etrans; [exact H2|apply Hsend].
  - rewrite sm_bind_eq. pose proof (Hsend (MSessionState (closed_report sess)) a1) as H2. unfold send_pod in *.
    rewrite sm_modify_eq in *. rewrite sm_modify_eq, sm_bind_eq. cbn [snd] in H2.
    rewrite bool_decide_false by done. cbn [when]. rewrite sm_ret_eq. apply Hpost; [|intros _ _|constructor].
    + etrans; [exact H2|by split].
    + cbn. apply elem_of_app. right. by apply list_elem_of_singleton.
  - unfold sm_fail. rewrite sm_bind_eq, bool_decide_true by done. cbn [when].
    pose proof (Hsend (MSessionState (closed_report sess)) a1) as H2. unfold send_pod in *. rewrite sm_modify_eq in *.
    apply Hpost; [exact H2|intros _ _|constructor]. cbn. apply elem_of_app. right. by apply list_elem_of_singleton.
Qed.

Lemma close_all_effect l : forall a,
  let a' := (sm_collect l (fun '(id, sa) => CloseSession id sa) a).2 in
  sessions_only a a' /\ (forall id sa, (id, sa) ∈ l -> closed_by sa a a') /\
  close_calls (Identifier (pa_pod a)) (omap (fun x => close_request (session_heap (pa_pod a)) x.2) l) (pa_deps a) (pa_deps a').
Proof.
  induction l as [|[id sa] l IH]; intros a.
  { split_and!; [done| |constructor]. intros id sa H. by apply elem_of_nil in H. }
  cbn [sm_collect]. rewrite sm_bind_eq. unfold sm_try.
  destruct (CloseSession_effect id sa a) as (H1 & C1 & D1). destruct (CloseSession id sa a) as [r a1]. cbn [snd] in *.
  rewrite sm_bind_eq. destruct (IH a1) as (H2 & C2 & D2).
  destruct (sm_collect l _ a1) as [[errs|e] a2]; cbn [snd] in *.
  all: split_and!; [by etrans| |].
  all: try (intros i sb [[= -> ->]|Hin]%elem_of_cons;
      [by eapply (closed_by_kept sa a a a1)|eapply (closed_by_kept sb a a1 a2); [done|done|by eapply C2]]).
  all: rewrite (so_id _ _ H1) in D2; cbn [omap list_omap].
  all: pose proof (close_requests_kept a a1 l H1) as E.
  all: rewrite E in D2; cbn [snd]; pose proof (close_calls_app _ _ _ _ _ _ D1 D2) as D; by case_match.
Qed.


End Sessions.

(** ** The house keeping *)

Section HouseKeeping.
Context {GR : GoRange} {CG : ClientGo} {QL : QuantityLib} {SC : SessionCodec} {W : Type} {AD : AgentDeps W}.
Abbreviation pod_st := (pod_st W).
Implicit Types a : pod_st.

(** While the dependencies are in such a state, every call succeeds. *)
Definition working (good : W -> Prop) : Prop :=
  forall A (c : agent_call A) w, good w -> exists x w', run_call c w = (Ok x, w') /\ good w'.

Context (good : W -> Prop) (Hgood : working good).

(** Everything but the dependencies is unchanged. *)
Definition same_but_deps a a' : Prop := exists w, good w /\ a' = set_pa_deps w a.

Lemma dep_works {A} (c : agent_call A) a :
  good (pa_deps a) -> exists x a', dep c a = (Ok x, a') /\ same_but_deps a a' /\ good (pa_deps a').
Proof using Hgood.
  intros Ha. destruct (Hgood A c (pa_deps a) Ha) as (x & w & E & Hw). exists x, (set_pa_deps w a).
  unfold dep. rewrite E. split_and!; [done|by exists w|done].
Qed.
Lemma dep_bind_works {A B} (c : agent_call A) (k : A -> SM pod_st B) (P : B -> pod_st -> Prop) a :
  good (pa_deps a) ->
  (forall x a', same_but_deps a a' -> good (pa_deps a') -> exists y a'', k x a' = (Ok y, a'') /\ P y a'') ->
  exists y a'', sm_bind (dep c) k a = (Ok y, a'') /\ P y a''.
Proof using Hgood.
  intros Ha Hk. destruct (dep_works c a Ha) as (x & a' & E & Hs & Hg). rewrite sm_bind_eq, E. by apply Hk.
Qed.
Lemma same_but_deps_trans a1 a2 a3 : same_but_deps a1 a2 -> same_but_deps a2 a3 -> same_but_deps a1 a3.
Proof. intros (w1 & _ & ->) (w2 & Hw2 & ->). by exists w2. Qed.

Lemma terminate_containers_work cs : forall grace waits a,
  good (pa_deps a) -> (forall n c, (n, c) ∈ cs -> is_Some (container_heap (pa_pod a) !! c)) ->
  exists a', terminate_containers true grace cs waits true a = (Ok true, a') /\ same_but_deps a a'.
Proof using Hgood.
  induction cs as [|[n c] cs IH]; intros grace waits a Ha Hc; cbn [terminate_containers].
  { exists a. split; [done|]. exists (pa_deps a). split; [done|]. by destruct a. }
  destruct (Hc n c) as [cont Hcont]; [left|]. rewrite sm_bind_eq. unfold get_container. rewrite Hcont.
  rewrite andb_false_r. cbn [when]. rewrite sm_bind_eq, sm_ret_eq, sm_bind_eq. unfold terminateContainer.
  destruct (dep_works (dep_TerminateContainer (RuntimeContainer cont)) a Ha) as ([] & a1 & -> & Hs & Hg).
  cbn [negb andb]. destruct (IH grace (tail waits) a1 Hg) as (a' & -> & Hs').
  - intros m d Hd. destruct Hs as (w & _ & ->). apply (Hc m). by right.
  - exists a'. split; [done|]. by eapply same_but_deps_trans.
Qed.

Lemma CleanupPod_works a :
  good (pa_deps a) -> exists a', CleanupPod a = (Ok (), a') /\ same_but_deps a a'.
Proof using Hgood.
  intros Ha. unfold CleanupPod. rewrite sm_bind_eq. unfold the_pod at 1.
  assert (exists u a', (match RuntimePod (pa_pod a) ≫= rp_Sandbox with
    | Some sandbox => do! _ <- dep (dep_TerminatePod sandbox); dep (dep_RemoveSandboxLogs (fp_Pod (pa_pod a)))
    | None => sm_ret () end) a = (Ok u, a') /\ same_but_deps a a' /\ good (pa_deps a')) as (u & a1 & E1 & Hs1 & Hg1).
  { case_match.
    - rewrite sm_bind_eq. destruct (dep_works (dep_TerminatePod s) a Ha) as (x & a1 & -> & Hs & Hg).
      destruct (dep_works (dep_RemoveSandboxLogs (fp_Pod (pa_pod a))) a1 Hg) as (y & a2 & -> & Hs2 & Hg2).
      exists y, a2. split_and!; [done|by eapply same_but_deps_trans|done].
    - exists (), a. split_and!; [done| |done]. exists (pa_deps a). split; [done|]. by destruct a. }
  rewrite sm_bind_eq, E1. clear E1.
  enough (exists u a', (do! _ <- dep (dep_UnmountVolumes (fp_Pod (pa_pod a)));
    do! _ <- dep (dep_CleanupPodDataDirs (fp_Pod (pa_pod a)));
    do! _ <- dep (dep_CleanupPodLogDir (fp_Pod (pa_pod a)));
    do! found <- dep (dep_IsPodCgroupExist (fp_Pod (pa_pod a)));
    do! _ <- when found (dep (dep_DeletePodCgroup (fp_Pod (pa_pod a))));
    do! _ <- sm_try (dep dep_UpdateQOSCgroups); sm_ret ()) a1 = (Ok u, a') /\ same_but_deps a a')
    as ([] & a' & -> & Hs) by (by exists a').
  apply dep_bind_works; [done|]. intros _ a2 H2 Hg2. eapply same_but_deps_trans in H2; [|done].
  apply dep_bind_works; [done|]. intros _ a3 H3 Hg3. eapply same_but_deps_trans in H3; [|done].
  apply dep_bind_works; [done|]. intros _ a4 H4 Hg4. eapply same_but_deps_trans in H4; [|done].
  apply dep_bind_works; [done|]. intros found a5 H5 Hg5. eapply same_but_deps_trans in H5; [|done].
  assert (exists u a', when found (dep (dep_DeletePodCgroup (fp_Pod (pa_pod a)))) a5 = (Ok u, a') /\
    same_but_deps a5 a' /\ good (pa_deps a')) as (u' & a6 & E6 & Hs6 & Hg6).
  { destruct found; [by apply dep_works|]. exists (), a5. split_and!; [done| |done].
    exists (pa_deps a5). split; [done|]. by destruct a5. }
  rewrite sm_bind_eq, E6, sm_bind_eq. unfold sm_try.
  destruct (dep_works dep_UpdateQOSCgroups a6 Hg6) as (x & a7 & -> & Hs7 & Hg7).
  exists (), a7. split; [done|]. do 2 (eapply same_but_deps_trans; [done|]). done.
Qed.

(** The pod records the same containers and the same sandbox. *)
Definition same_containers a a' : Prop :=
  fp_Containers (pa_pod a') = fp_Containers (pa_pod a) /\ container_heap (pa_pod a') = container_heap (pa_pod a) /\
  RuntimePod (pa_pod a') = RuntimePod (pa_pod a).

(** What [podHandler] ends with for a pod that has terminated, once its clean-up succeeds. *)
Lemma pod_settle_terminated now old a :
  good (pa_deps a) -> FornaxPodState (pa_pod a) = PodStateTerminated ->
  exists a', pod_settle now old (Ok ()) a = (Ok (), a') /\ FornaxPodState (pa_pod a') = PodStateCleanup /\
    houseKeepingError a' = None /\ pa_notified a' = pa_notified a ++ [PodStatusChange] /\ same_containers a a'.
Proof using Hgood.
  intros Ha Hst.
  unfold pod_settle, cleanup, set_state, on_pod, the_pod, notify_node, sm_bind, sm_modify, sm_try, when.
  cbn -[SetPodStatus bool_decide CleanupPod].
  change (FornaxPodState (SetPodStatus now None (pa_pod a))) with (FornaxPodState (pa_pod a)).
  rewrite (bool_decide_true (FornaxPodState (pa_pod a) = PodStateTerminated)) by done.
  set (a1 := set_houseKeepingError None _).
  destruct (CleanupPod_works a1) as (a2 & -> & (w & _ & ->)); [done|].
  cbn -[SetPodStatus bool_decide].
  rewrite (bool_decide_true (FornaxPodState _ = PodStateCleanup)) by done. rewrite orb_true_r.
  eexists. split_and!; done.
Qed.

Lemma house_keeping_finishes rh now n waits a :
  good (pa_deps a) ->
  FornaxPodState (pa_pod a) = PodStateTerminating \/ FornaxPodState (pa_pod a) = PodStateTerminated ->
  houseKeepingError a <> None ->
  (forall name c, fp_Containers (pa_pod a) !! name = Some c -> is_Some (container_heap (pa_pod a) !! c)) ->
  exists a', podHandler rh now n waits MHouseKeeping a = (Ok (), a') /\
    FornaxPodState (pa_pod a') = PodStateCleanup /\ houseKeepingError a' = None /\
    pa_notified a' = pa_notified a ++ [PodStatusChange] /\ same_containers a a'.
Proof using Hgood.
  intros Ha Hst Herr Hcs. unfold podHandler. rewrite sm_bind_eq. unfold the_pod at 1. rewrite sm_bind_eq.
  unfold sm_try at 1. cbn [pod_dispatch]. rewrite sm_bind_eq.
  destruct (houseKeepingError a) as [e|]; [|done]. rewrite sm_bind_eq, sm_modify_eq.
  unfold podHouseKeeping. rewrite sm_bind_eq. unfold the_pod at 1.
  set (a1 := set_houseKeepingError None a). change (pa_pod a1) with (pa_pod a).
  destruct Hst as [Hst|Hst]; rewrite Hst.
  - rewrite !bool_decide_false by done. cbn [orb]. rewrite bool_decide_true by done.
    unfold terminate. rewrite sm_bind_eq. unfold on_pod at 1. rewrite sm_modify_eq.
    match goal with |- context [set_pa_pod ?p a1] => set (a2 := set_pa_pod p a1) end.
    assert (FornaxPodState (pa_pod a2) = PodStateTerminating /\ fp_Containers (pa_pod a2) = fp_Containers (pa_pod a) /\
      container_heap (pa_pod a2) = container_heap (pa_pod a) /\ pa_notified a2 = pa_notified a /\
      pa_deps a2 = pa_deps a /\ RuntimePod (pa_pod a2) = RuntimePod (pa_pod a)) as (S2 & C2 & H2 & N2 & D2 & R2) by (unfold a2; case_bool_decide; done).
    clearbody a2. rewrite sm_bind_eq. unfold the_pod at 1. rewrite bool_decide_false by (rewrite S2; done).
    rewrite sm_bind_eq. unfold set_state at 1, on_pod at 1. rewrite sm_modify_eq, andb_false_r, sm_bind_eq.
    unfold TerminatePod at 1. rewrite sm_bind_eq. unfold the_pod at 1. cbn [pa_pod set_pa_pod].
    rewrite (bool_decide_false (FornaxPodState _ <> PodStateTerminating)) by (by intros []). cbn [andb].
    match goal with |- context [terminate_containers true ?g ?cs ?ws true ?st] =>
      destruct (terminate_containers_work cs g ws st) as (a3 & E3 & (w & Hw & ->)) end.
    { cbn. by rewrite D2. }
    { intros m c Hin%elem_of_range. cbn in *. rewrite H2. apply (Hcs m). by rewrite <- C2. }
    rewrite E3. cbn [when].
    unfold set_state, on_pod. rewrite sm_modify_eq. rewrite <- N2.
    match goal with |- context [pod_settle now ?o (Ok ()) ?st] =>
      destruct (pod_settle_terminated now o st) as (a4 & E4 & S4 & K4 & N4 & C4); [done|done|] end.
    exists a4. destruct C4 as (C4 & H4 & R4).
    split_and!; [exact E4|exact S4|exact K4|exact N4|]. unfold same_containers. rewrite C4, H4, R4.
    split; [exact C2|split; [exact H2|exact R2]].
  - rewrite bool_decide_true by done. cbn [orb]. rewrite sm_ret_eq.
    by apply (pod_settle_terminated now PodStateTerminated a1).
Qed.

End HouseKeeping.

Section Finished.
Context {GR : GoRange} {CG : ClientGo} {QL : QuantityLib} {SC : SessionCodec} {W : Type} {AD : AgentDeps W}
  {AO : AgentDepsOK W}.

(** C25: once every call to the runtime and the node's other dependencies succeeds, one house keeping
    message takes down a pod whose termination or clean-up had failed: the containers and the sandbox
    recorded in it are gone from the container runtime, it is cleaned up, no error is left to retry and
    the node is told. *)
Theorem house_keeping_finishes_termination good rh now n waits pod w (a : pod_st W) :
  working good -> new_pod pod -> rtc (agent_step rh) (NewPodActor pod w) a -> good (pa_deps a) ->
  FornaxPodState (pa_pod a) = PodStateTerminating \/ FornaxPodState (pa_pod a) = PodStateTerminated ->
  houseKeepingError a <> None ->
  exists a', podHandler rh now n waits MHouseKeeping a = (Ok (), a') /\
    (forall c, c ∈ pod_containers (pa_pod a) -> ~ lives (RuntimeContainer c) (pa_deps a')) /\
    (forall s, sandbox_of a = Some s -> ~ lives s (pa_deps a')) /\
    FornaxPodState (pa_pod a') = PodStateCleanup /\ houseKeepingError a' = None /\
    pa_notified a' = pa_notified a ++ [PodStatusChange].
Proof.
  intros Hgood Hnew Hrun Hg Hst Herr.
  assert (sound a) as Ha by (by eapply agent_run_sound, new_pod_sound).
  destruct (house_keeping_finishes good Hgood rh now n waits a Hg Hst Herr) as (a' & E & Hs & Hk & Hn & Hc & Hh & Hr).
  { intros name c Hc. destruct (sound_heap _ (sound_pre _ Ha) name c Hc) as [id Hid]. unfold runtime_ids in Hid.
    destruct (container_heap (pa_pod a) !! c); [by eexists|done]. }
  pose proof (keeps_podHandler rh now n waits MHouseKeeping a Ha) as Ha'. rewrite E in Ha'. cbn [snd] in Ha'.
  exists a'. split; [done|]. split; [|split; [|done]].
  - intros c Hcin. unfold pod_containers in Hcin. rewrite <- Hc, <- Hh in Hcin.
    apply list_elem_of_omap in Hcin as ([m l] & Hin & Hl). apply elem_of_range in Hin.
    apply (sound_gone _ (sound_pre _ Ha') (or_intror Hs) m l); [done|]. unfold runtime_ids. by rewrite Hl.
  - intros s Hsb. apply (sound_clean _ Ha' s Hs). unfold sandbox_of in *. by rewrite Hr.
Qed.
End Finished.

(** ** A small runtime

    Identifiers that were handed out and those that are alive; every call succeeds, except that there is
    no status for what is not alive. *)

Record sim := mkSim { handed : gset string; alive : gset string }.

Section Sim.
Context {QL : QuantityLib}.

Definition sim_create (w : sim) : string * sim :=
  let id := fresh (handed w) in (id, mkSim ({[id]} ∪ handed w) ({[id]} ∪ alive w)).
Definition sim_remove (id : string) (w : sim) : sim := mkSim (handed w) (alive w ∖ {[id]}).

Definition sim_call {A} (c : agent_call A) : SM sim A :=
  match c in agent_call A return SM sim A with
  | dep_CreateSandbox _ => fun w => let '(id, w') := sim_create w in (Ok (mkRuntimePod id (Some id)), w')
  | dep_GetPodSandbox id => fun w => (Ok (if bool_decide (id ∈ alive w ∩ handed w) then Some id else None), w)
  | dep_TerminatePod id => fun w => (Ok (), sim_remove id w)
  | dep_PullImage _ => fun w => (Ok "image"%string, w)
  | dep_ContainerConfig _ _ _ => fun w => (Ok "config"%string, w)
  | dep_CreateContainer _ _ => fun w => let '(id, w') := sim_create w in (Ok id, w')
  | dep_StartContainer _ => sm_ret ()
  | dep_StopContainer _ _ => sm_ret ()
  | dep_TerminateContainer id => fun w => (Ok (), sim_remove id w)
  | dep_GetContainerStatus id => fun w =>
    if bool_decide (id ∈ alive w)
    then (Ok (mkContainerStatus (Some (mkCriStatus id CONTAINER_RUNNING 0 0))), w)
    else (Err NotFoundError, w)
  | dep_HibernateContainer _ => sm_ret ()
  | dep_WakeupContainer _ => sm_ret ()
  | dep_RunLifecycleHandler _ => sm_ret ()
  | dep_IsPodCgroupExist _ => sm_ret false
  | dep_CreatePodCgroup _ => sm_ret ()
  | dep_DeletePodCgroup _ => sm_ret ()
  | dep_UpdateQOSCgroups => sm_ret ()
  | dep_MakePodDataDirs _ => sm_ret ()
  | dep_MakePodLogDir _ => sm_ret ()
  | dep_CleanupPodDataDirs _ => sm_ret ()
  | dep_CleanupPodLogDir _ => sm_ret ()
  | dep_RemoveSandboxLogs _ => sm_ret ()
  | dep_MountVolumes _ => sm_ret ()
  | dep_UnmountVolumes _ => sm_ret ()
  | dep_OpenSession _ _ => sm_ret ()
  | dep_CloseSession _ _ _ => sm_ret ()
  | dep_PingSession _ _ => sm_ret ()
  end.
#[export] Instance sim_deps : AgentDeps sim := {| run_call := @sim_call |}.

#[export] Instance sim_deps_ok : AgentDepsOK sim.
Proof.
  refine {| lives := fun id w => id ∈ alive w; used := fun id w => id ∈ handed w |}.
  - intros A c w id Hu. destruct c; simpl; try done; try set_solver. by case_match.
  - intros A c w id Hu.
    assert (id <> fresh (handed w)) as Hne by (intros ->; exact (is_fresh (handed w) Hu)).
    destruct c; simpl; try done; try set_solver. by case_match.
  - simpl. intros sb cf w id w' [= <- <-]. set_solver.
  - simpl. intros pod w rp sb w' [= <- <-] [= <-]. set_solver.
  - simpl. intros id w sb w' [= H <-]. case_bool_decide; simplify_eq. set_solver.
  - simpl. intros id w w' [= <-]. set_solver.
  - simpl. intros id w w' [= <-]. set_solver.
Defined.

End Sim.

(** ** Examples *)

Section Examples.
Abbreviation sim_st := (pod_st sim).
Implicit Types a : sim_st.

Inductive move :=
  | mv_receive (m : pod_msg)
  | mv_turn (waits : list (list container_event))
  | mv_container (e : container_event).
Definition play (mv : move) (a : sim_st) : sim_st :=
  match mv with
  | mv_receive m => set_pa_mailbox (pa_mailbox a ++ [m]) a
  | mv_turn waits => (pod_turn "runc" 0 0 waits a).2
  | mv_container e => (container_step e a).2
  end.
Fixpoint play_all (l : list move) (a : sim_st) : sim_st :=
  match l with [] => a | mv :: l => play_all l (play mv a) end.

Lemma play_all_steps l : forall a, rtc (agent_step "runc") a (play_all l a).
Proof.
  induction l as [|mv l IH]; intros a; [apply rtc_refl|]. eapply rtc_l, IH. apply own_step.
  destruct mv; [apply pod_receives|apply pod_turns|apply container_turns].
Qed.

Definition example_fpod (containers : list string) : FornaxPod :=
  mkFornaxPod _ "ns/p" PodStateCreating false
    (mkObject (mkObjectMeta "p" "ns" "p" "1" 0 None None ∅ ∅ [])
      (mkPodSpec _ (map (fun n => mkContainer _ n "image" [] [] ∅ no_hooks) containers) [] false)
      (mkPodStatus PodPending "" None "" "")) None ∅ ∅ ∅ ∅.
Definition example_start (containers : list string) : sim_st :=
  NewPodActor (example_fpod containers) (mkSim ∅ ∅).

(** Create the pod, report its containers as running and handle what they sent. *)
Definition start_moves (n : nat) : list move :=
  mv_receive MPodCreate :: mv_turn []
    :: map (fun l => mv_container (probe_event l RuntimeStatusProbe true)) (seq 0 n)
    ++ replicate (3 * n) (mv_turn []).
Definition stop_all (n : nat) : list container_event := map actor_turn (seq 0 n).
(** Terminate it, the container actors stopping their containers while the pod actor waits. *)
Definition terminate_moves (n : nat) : list move :=
  [mv_receive MPodTerminate; mv_turn (replicate n (stop_all n))].

Definition one_cleaned : sim_st :=
  play_all (start_moves 1 ++ terminate_moves 1 ++ [mv_turn []]) (example_start ["c"%string]).

Lemma terminated_pod_containers_removed_witness :
  FornaxPodState (pa_pod one_cleaned) = PodStateCleanup /\
  forall c, c ∈ pod_containers (pa_pod one_cleaned) -> ~ lives (RuntimeContainer c) (pa_deps one_cleaned).
Proof.
  assert (FornaxPodState (pa_pod one_cleaned) = PodStateCleanup) as Hs by (vm_compute; reflexivity).
  split; [exact Hs|].
  apply (terminated_pod_containers_removed "runc" (example_fpod ["c"%string]) (mkSim ∅ ∅)).
  - split; [|split]; reflexivity.
  - apply play_all_steps.
  - right. exact Hs.
Defined.

(** A running pod with an open session at the session service. *)
Definition example_session : ApplicationSession :=
  mkObject (mkObjectMeta "s" "ns" "s" "1" 0 None None ∅ ∅ [])
    (mkSessionSpec "ns/app" "" false None 0) (mkSessionStatus None [] SessionStatusStarting [] None None 0).
Definition serving_fpod : FornaxPod :=
  set_fp_Pod (map_om (om_set_Annotations {[AnnotationFornaxCoreSessionServicePod := "sessionservicepod"%string]})
    (fp_Pod (example_fpod ["c"%string]))) (example_fpod ["c"%string]).
Definition with_session : sim_st :=
  play_all (start_moves 1 ++ [mv_receive (MSessionOpen "ns/s" example_session); mv_turn []; mv_turn []])
    (NewPodActor serving_fpod (mkSim ∅ ∅)).


(** A runtime that breaks and is repaired: while it is broken no container is removed, and a sandbox is run
    although the call fails. *)
Record flaky := mkFlaky { fl_sim : sim; fl_broken : bool }.
Definition flaky_call {A} (c : agent_call A) : SM flaky A := fun w =>
  let answer := let '(r, v) := sim_call c (fl_sim w) in (r, mkFlaky v (fl_broken w)) in
  match c in agent_call A return result A * flaky -> result A * flaky with
  | dep_CreateSandbox _ => fun answer => if fl_broken w then (Err InternalError, answer.2) else answer
  | dep_TerminateContainer _ => fun answer => if fl_broken w then (Err InternalError, w) else answer
  | dep_GetContainerStatus _ => fun answer =>
    match answer with (Err _, w') => (Ok (mkContainerStatus None), w') | r => r end
  | _ => fun answer => answer
  end answer.
#[local] Instance flaky_deps : AgentDeps flaky := {| run_call := @flaky_call |}.
#[local] Instance flaky_deps_ok : AgentDepsOK flaky.
Proof.
  refine {| lives := fun id w => id ∈ alive (fl_sim w); used := fun id w => id ∈ handed (fl_sim w) |}.
  - intros A c [w b] id Hu. cbn in *. unfold flaky_call. destruct c, b; simpl; try done; try set_solver; repeat case_match; simplify_eq/=; try done; set_solver.
  - intros A c [w b] id Hu. cbn in *. unfold flaky_call.
    assert (id <> fresh (handed w)) as Hne by (intros ->; exact (is_fresh (handed w) Hu)).
    destruct c, b; simpl; try done; try set_solver; repeat case_match; simplify_eq/=; try done; set_solver.
  - simpl. intros sb cf [w b] id w' [= <- <-]. simpl. set_solver.
  - intros pod [w []] rp sb w'; [done|]. intros [= <- <-] [= <-]. simpl. set_solver.
  - simpl. intros id [w b] sb w' [= H <-]. simpl in *. case_bool_decide; simplify_eq. set_solver.
  - intros id [w []] w'; [done|]. intros [= <-]. simpl. set_solver.
  - intros id [w b] w' [= <-]. simpl. set_solver.
Defined.
Definition repaired (w : flaky) : Prop := fl_broken w = false.
Lemma repaired_works : working repaired.
Proof.
  intros A c [w b] Hb. unfold repaired in Hb. cbn in Hb. subst b. simpl. unfold flaky_call.
  destruct c; simpl; try by do 2 eexists. case_bool_decide; by do 2 eexists.
Qed.

Inductive flaky_move := fm_receive (m : pod_msg) | fm_turn | fm_container (e : container_event) | fm_set (broken : bool).
Definition flaky_play (mv : flaky_move) (a : pod_st flaky) : pod_st flaky :=
  match mv with
  | fm_receive m => set_pa_mailbox (pa_mailbox a ++ [m]) a
  | fm_turn => (pod_turn "runc" 0 0 [] a).2
  | fm_container e => (container_step e a).2
  | fm_set broken => set_pa_deps (mkFlaky (fl_sim (pa_deps a)) broken) a
  end.
Fixpoint flaky_all (l : list flaky_move) (a : pod_st flaky) : pod_st flaky :=
  match l with [] => a | mv :: l => flaky_all l (flaky_play mv a) end.
Lemma flaky_all_steps l : forall a : pod_st flaky, rtc (agent_step "runc") a (flaky_all l a).
Proof.
  induction l as [|mv l IH]; intros a; [apply rtc_refl|]. eapply rtc_l, IH.
  destruct mv; [apply own_step, pod_receives|apply own_step, pod_turns|apply own_step, container_turns|].
  by apply other_step.
Qed.
Definition flaky_start : pod_st flaky := NewPodActor (example_fpod ["c"%string]) (mkFlaky (mkSim ∅ ∅) false).

(** A pod that could not be terminated while the runtime was broken; the runtime works again. *)
Definition halfway : pod_st flaky :=
  flaky_all [fm_receive MPodCreate; fm_turn; fm_container (probe_event 0 RuntimeStatusProbe true); fm_turn; fm_turn; fm_turn;
             fm_set true; fm_receive MPodTerminate; fm_turn; fm_set false] flaky_start.

Lemma house_keeping_finishes_termination_witness :
  alive (fl_sim (pa_deps halfway)) <> ∅ /\
  exists a' : pod_st flaky, podHandler "runc" 0 0 [] MHouseKeeping halfway = (Ok (), a') /\
    FornaxPodState (pa_pod a') = PodStateCleanup /\
    (forall c, c ∈ pod_containers (pa_pod halfway) -> ~ lives (RuntimeContainer c) (pa_deps a')).
Proof.
  split; [vm_compute; discriminate|].
  destruct (house_keeping_finishes_termination repaired "runc" 0 0 [] (example_fpod ["c"%string])
    (mkFlaky (mkSim ∅ ∅) false) halfway repaired_works) as (a' & H1 & H2 & _ & H3 & _).
  - split; [|split]; reflexivity.
  - apply flaky_all_steps.
  - vm_compute. reflexivity.
  - left. vm_compute. reflexivity.
  - vm_compute. discriminate.
  - exists a'. split; [exact H1|]. split; [exact H3|exact H2].
Defined.

(** A sandbox that was run although the call failed is not recorded: the pod is cleaned up and the sandbox
    goes on living. *)
Example unrecorded_sandbox_survives :
  let a := flaky_all [fm_set true; fm_receive MPodCreate; fm_turn; fm_set false; fm_receive MHouseKeeping; fm_turn]
             flaky_start in
  FornaxPodState (pa_pod a) = PodStateCleanup /\ houseKeepingError a = None /\ alive (fl_sim (pa_deps a)) <> ∅.
Proof. vm_compute. split_and!; [reflexivity|reflexivity|discriminate]. Qed.

(** A message of a second container that arrives after the clean-up takes the pod through
    termination again, and every message handled in the state Cleanup is reported once more: the node
    hears of the clean-up twice. *)
Example two_containers_cleaned_twice :
  let a := play_all (start_moves 2 ++ terminate_moves 2) (example_start ["a"; "b"]%string) in
  pa_mailbox a = [MContainerStopped 0; MContainerStopped 1] /\
  FornaxPodState (pa_pod (play_all [mv_turn []] a)) = PodStateCleanup /\
  FornaxPodState (pa_pod (play_all [mv_turn []; mv_turn []] a)) = PodStateCleanup /\
  pa_notified (play_all [mv_turn []; mv_turn []] a) = pa_notified a ++ [PodStatusChange; PodStatusChange].
Proof. vm_compute. split_and!; reflexivity. Qed.

(** A container that is still stopping when the wait is over is removed under its actor, which then
    finds no status and reports nothing: no message, no error, and the pod stays Terminating. *)
Example slow_stop_leaves_pod_terminating :
  let a := play_all (start_moves 1 ++ [mv_receive MPodTerminate; mv_turn []] ++ map mv_container (stop_all 1))
             (example_start ["c"%string]) in
  let a' := play_all [mv_container (probe_event 0 RuntimeStatusProbe true); mv_container (actor_turn 0); mv_turn []] a in
  FornaxPodState (pa_pod a') = PodStateTerminating /\ pa_mailbox a' = [] /\ houseKeepingError a' = None /\
  pa_notified a' = pa_notified a.
Proof. vm_compute. split_and!; reflexivity. Qed.

(** A container that reports itself ready makes a pod that is being terminated Running again. *)
Example late_ready_revives_pod :
  let a := play_all (start_moves 1 ++ [mv_receive MPodTerminate; mv_turn []]) (example_start ["c"%string]) in
  FornaxPodState (pa_pod a) = PodStateTerminating /\
  FornaxPodState (pa_pod (play_all [mv_receive (MContainerReady 0); mv_turn []] a)) = PodStateRunning.
Proof. vm_compute. split; reflexivity. Qed.

End Examples.
