(* ===== verification/SessionService.v ===== *)
(** * The session service of a node

    [pkg/nodeagent/sessionservice/grpc/session_server.go].  A pod that serves sessions keeps a stream to the
    agent of its node; the service sends it the commands for its sessions, takes their states and passes
    them to the pod actor through the callback given when the session was opened.  Every minute it pings
    the sessions it has not heard of and gives up those that stay silent.

    A heartbeat is shared by the map of the service and the check that runs over a snapshot of it, so
    heartbeats live in a heap.  The check runs in its own goroutine and takes the lock only to read and to
    clean up: its start, its visits and its end are steps of their own, between which everything else can
    happen.  A callback is an abstract value; [delivered] lists the states passed to callbacks. *)

From S2P Require Import Prelude GoStrings ApiTypes Collection NodeMonitor AgentTypes ContainerActor PodActor.
From Stdlib Require Import String.
#[local] Open Scope Z_scope.
#[local] Open Scope go_scope.

Definition DefaultSessionHeartBeatDuration : Z := 60 * 10 ^ 9.
Definition DefaultDeadSessionHeartbeatMissingThreshold : Z := 3.
Definition SessionStreamDisconnected : GoError := OtherError "Session stream not connected".
Definition SessionStreamAlreadyEstablished : GoError :=
  OtherError "only one stream connection is allowed from one instance".

(** The messages of [session_service.proto] in both directions. *)
Inductive SessionCommand :=
  | OpenSessionBody (sessionData : string) | CloseSessionBody (gracePeriodSeconds : Z) | PingSessionBody.
Record SessionMessage := mkSessionMessage {
  MessageIdentifier : string; PodId : string; SessionIdentifier : string; MessageBodyOf : SessionCommand
}.
Inductive ReportedState := STATE_INITIALIZING | STATE_OPEN | STATE_CLOSED | STATE_CLOSING.
#[export] Instance ReportedState_eq_dec : EqDecision ReportedState.
Proof. solve_decision. Defined.

(** The stream of a pod: what waits in its channel and what was sent, with the number of the last one. *)
Record GetSessionMessageClient := mkClient {
  channel : list SessionMessage; streamSeq : Z; streamed : list SessionMessage
}.

Section SessionService.
Context {GR : GoRange} {CB : Type}.

Record SessionStateHeartbeat := mkHeartbeat {
  stateCallback : CB; hb_pod : string; hb_session : string; consectuivePingFailures : Z; lastSeen : Z
}.
Record GrpcSessionService := mkService {
  sessionHeartbeats : gmap string nat;
  heartbeats : gmap nat SessionStateHeartbeat;
  sessionClients : gmap string GetSessionMessageClient;
  delivered : list (CB * SessionReport);
  (** the running check: the heartbeats it has still to visit and the sessions it found dead *)
  checking : option (list nat * list string)
}.
Implicit Types g : GrpcSessionService.

Definition set_registered m h g := mkService m h (sessionClients g) (delivered g) (checking g).
Definition set_sessionClients m g := mkService (sessionHeartbeats g) (heartbeats g) m (delivered g) (checking g).
Definition set_delivered l g := mkService (sessionHeartbeats g) (heartbeats g) (sessionClients g) l (checking g).
Definition set_checking c g := mkService (sessionHeartbeats g) (heartbeats g) (sessionClients g) (delivered g) c.

Definition NewSessionService : GrpcSessionService := mkService ∅ ∅ ∅ [] None.

Definition getSessionHeartbeat g (sessionId : string) : option SessionStateHeartbeat :=
  sessionHeartbeats g !! sessionId ≫= fun l => heartbeats g !! l.

Definition createHeartBeat (now : Z) (pod session : string) (cb : CB) : SM GrpcSessionService unit :=
  sm_modify (fun g =>
    let l := fresh (dom (heartbeats g)) in
    set_registered (<[session := l]> (sessionHeartbeats g))
      (<[l := mkHeartbeat cb pod session 0 now]> (heartbeats g)) g).

Definition removeClosedSession (sessionId : string) : SM GrpcSessionService unit :=
  sm_modify (fun g => set_registered (delete sessionId (sessionHeartbeats g)) (heartbeats g) g).

(** ** Streams to the pods *)

Definition enlistPod (pod : string) : SM GrpcSessionService unit := fun g =>
  match sessionClients g !! pod with
  | Some _ => (Err SessionStreamAlreadyEstablished, g)
  | None => (Ok (), set_sessionClients (<[pod := mkClient [] 0 []]> (sessionClients g)) g)
  end.
Definition delistPod (pod : string) : SM GrpcSessionService unit :=
  sm_modify (fun g => set_sessionClients (delete pod (sessionClients g)) g).

Definition sendGrpcMessageToPod (podId : string) (msg : SessionMessage) : SM GrpcSessionService unit := fun g =>
  match sessionClients g !! podId with
  | Some client =>
    (Ok (), set_sessionClients
       (<[podId := mkClient (channel client ++ [msg]) (streamSeq client) (streamed client)]> (sessionClients g)) g)
  | None => (Err SessionStreamDisconnected, g)
  end.

(** One turn of the loop of [GetMessage]: the next message is numbered and sent; when the stream is broken
    the pod is taken off the list. *)
Definition stream_turn (pod : string) (sent : bool) : SM GrpcSessionService unit := fun g =>
  match sessionClients g !! pod with
  | Some (mkClient (msg :: rest) seq out) =>
    if sent then
      let seq := i64 (seq + 1) in
      let msg := mkSessionMessage (FormatUint seq) (PodId msg) (SessionIdentifier msg) (MessageBodyOf msg) in
      (Ok (), set_sessionClients (<[pod := mkClient rest seq (out ++ [msg])]> (sessionClients g)) g)
    else delistPod pod g
  | _ => (Ok (), g)
  end.

(** ** States of sessions *)

Definition forwardSessionStateToPod (now : Z) (sessionId : string) (state : SessionReport) :
    SM GrpcSessionService unit := fun g =>
  match sessionHeartbeats g !! sessionId with
  | Some l =>
    match heartbeats g !! l with
    | Some hb =>
      (Ok (), set_delivered (delivered g ++ [(stateCallback hb, state)])
        (set_registered (sessionHeartbeats g)
           (<[l := mkHeartbeat (stateCallback hb) (hb_pod hb) (hb_session hb) 0 now]> (heartbeats g)) g))
    | None => (Err nil_panic, g)
    end
  | None => (Ok (), g)
  end.

Definition session_state_of (st : ReportedState) : types_SessionState :=
  match st with
  | STATE_CLOSED => SessionStateClosed
  | STATE_OPEN => SessionStateReady
  | STATE_CLOSING => SessionStateReady
  | STATE_INITIALIZING => SessionStateStarting
  end.

(** A message of another type is only logged. *)
Definition svc_PutMessage (now : Z) (sessionId : string) (status : option ReportedState) :
    SM GrpcSessionService unit :=
  match status with
  | Some st =>
    do! _ <- forwardSessionStateToPod now sessionId (mkSessionReport sessionId (session_state_of st) []);
    if bool_decide (session_state_of st = SessionStateClosed) then removeClosedSession sessionId else sm_ret ()
  | None => sm_ret ()
  end.

Definition svc_CloseSession (pod session : string) (gracePeriodSeconds : Z) : SM GrpcSessionService unit := fun g =>
  match getSessionHeartbeat g session with
  | None => (Err SessionNotFound, g)
  | Some _ => sendGrpcMessageToPod pod (mkSessionMessage "" pod session (CloseSessionBody gracePeriodSeconds)) g
  end.

Definition svc_OpenSession (now : Z) (pod session sessionData : string) (cb : CB) : SM GrpcSessionService unit :=
  do! _ <- sendGrpcMessageToPod pod (mkSessionMessage "" pod session (OpenSessionBody sessionData));
  fun g =>
    match getSessionHeartbeat g session with
    | Some _ => (Err SessionAlreadyExist, g)
    | None => createHeartBeat now pod session cb g
    end.

Definition svc_PingSession (now : Z) (pod session : string) (cb : CB) : SM GrpcSessionService unit :=
  do! _ <- (fun g => match getSessionHeartbeat g session with
                     | Some _ => (Ok (), g)
                     | None => createHeartBeat now pod session cb g
                     end);
  sendGrpcMessageToPod pod (mkSessionMessage "" pod session PingSessionBody).

(** ** The check of the heartbeats *)

Definition getSessions g : list nat := map snd (range (sessionHeartbeats g)).

Definition check_start : SM GrpcSessionService unit := sm_modify (fun g =>
  match checking g with
  | None => set_checking (Some (getSessions g, [])) g
  | Some _ => g
  end).

Definition visit_session (now : Z) (l : nat) : SM GrpcSessionService (list string) := fun g =>
  match heartbeats g !! l with
  | None => (Err nil_panic, g)
  | Some s =>
    if DefaultDeadSessionHeartbeatMissingThreshold <? consectuivePingFailures s then
      (do! _ <- forwardSessionStateToPod now (hb_session s) (mkSessionReport (hb_session s) SessionStateNoHeartbeat []);
       sm_ret [hb_session s]) g
    else if lastSeen s + DefaultSessionHeartBeatDuration <? now then
      let s := mkHeartbeat (stateCallback s) (hb_pod s) (hb_session s)
                 (wrapu 16 (consectuivePingFailures s + 1)) (lastSeen s) in
      (do! _ <- sm_try (svc_PingSession now (hb_pod s) (hb_session s) (stateCallback s)); sm_ret [])
        (set_registered (sessionHeartbeats g) (<[l := s]> (heartbeats g)) g)
    else (Ok [], g)
  end.

Definition check_visit (now : Z) : SM GrpcSessionService unit := fun g =>
  match checking g with
  | Some (l :: rest, deadSession) =>
    match visit_session now l g with
    | (Ok dead, g) => (Ok (), set_checking (Some (rest, deadSession ++ dead)) g)
    | (Err e, g) => (Err e, g)
    end
  | _ => (Ok (), g)
  end.

Definition check_finish : SM GrpcSessionService unit := sm_modify (fun g =>
  match checking g with
  | Some ([], deadSession) =>
    set_checking None
      (set_registered (foldr delete (sessionHeartbeats g) deadSession) (heartbeats g) g)
  | _ => g
  end).

(** ** Runs *)

Inductive svc_op :=
  | OpOpen (now : Z) (pod session sessionData : string) (cb : CB)
  | OpClose (pod session : string) (grace : Z)
  | OpPing (now : Z) (pod session : string) (cb : CB)
  | OpPut (now : Z) (session : string) (status : option ReportedState)
  | OpEnlist (pod : string) | OpDelist (pod : string) | OpStream (pod : string) (sent : bool)
  | OpStart | OpVisit (now : Z) | OpFinish.

Definition svc_step (op : svc_op) g : GrpcSessionService :=
  match op with
  | OpOpen now pod session data cb => (svc_OpenSession now pod session data cb g).2
  | OpClose pod session grace => (svc_CloseSession pod session grace g).2
  | OpPing now pod session cb => (svc_PingSession now pod session cb g).2
  | OpPut now session status => (svc_PutMessage now session status g).2
  | OpEnlist pod => (enlistPod pod g).2
  | OpDelist pod => (delistPod pod g).2
  | OpStream pod sent => (stream_turn pod sent g).2
  | OpStart => (check_start g).2
  | OpVisit now => (check_visit now g).2
  | OpFinish => (check_finish g).2
  end.
Definition svc_run (ops : list svc_op) g : GrpcSessionService := foldl (fun g op => svc_step op g) g ops.

(** ** One session among the others

    Every registered session leads to a heartbeat of its own; what happens to other sessions leaves the
    registration, the heartbeat and the reports of a session as they are. *)

Definition svc_inv g : Prop := forall id l, sessionHeartbeats g !! id = Some l ->
  exists hb, heartbeats g !! l = Some hb /\ hb_session hb = id.
Definition belongs g (l : nat) (id : string) : Prop := exists hb, heartbeats g !! l = Some hb /\ hb_session hb = id.
Definition reports_of (id : string) g : list (CB * SessionReport) :=
  filter (fun x => sr_SessionId x.2 = id) (delivered g).

Record apart (id : string) (l : nat) g g' : Prop := {
  apart_inv : svc_inv g';
  apart_reg : sessionHeartbeats g' !! id = sessionHeartbeats g !! id;
  apart_hb : heartbeats g' !! l = heartbeats g !! l;
  apart_reports : reports_of id g' = reports_of id g;
  apart_checking : checking g' = checking g;
  apart_belongs k i : belongs g k i -> belongs g' k i
}.
Definition calm id l g g' : Prop := svc_inv g -> belongs g l id -> apart id l g g'.

#[export] Instance calm_preorder id l : PreOrder (calm id l).
Proof.
  split.
  - intros g Hi Hb. by split.
  - intros g1 g2 g3 H12 H23 Hi Hb. destruct (H12 Hi Hb) as [I2 R2 B2 P2 C2 K2].
    destruct (H23 I2 (K2 _ _ Hb)) as [I3 R3 B3 P3 C3 K3]. split; [done|congruence..|auto].
Qed.

Lemma reports_snoc id cb r g l : delivered g = l ->
  filter (fun x => sr_SessionId x.2 = id) (l ++ [(cb, r)]) =
  reports_of id g ++ (if decide (sr_SessionId r = id) then [(cb, r)] else []).
Proof. intros <-. unfold reports_of. by rewrite filter_app, filter_cons, filter_nil. Qed.

Lemma belongs_unique g l i j : belongs g l i -> belongs g l j -> i = j.
Proof. intros (h1 & E1 & <-) (h2 & E2 & <-). by rewrite E1 in E2; simplify_eq. Qed.
Lemma belongs_insert g l hb k i :
  belongs g l (hb_session hb) -> belongs g k i ->
  exists h, <[l := hb]> (heartbeats g) !! k = Some h /\ hb_session h = i.
Proof.
  intros Hl Hk. destruct (decide (k = l)) as [->|Hne].
  - rewrite lookup_insert_eq. eexists. split; [done|]. by eapply belongs_unique.
  - by rewrite lookup_insert_ne.
Qed.

Lemma calm_clients id l f : within (calm id l) (sm_modify (fun g => set_sessionClients (f g) g)).
Proof. intros g Hi Hb. by split. Qed.
Lemma calm_send id l pod msg : within (calm id l) (sendGrpcMessageToPod pod msg).
Proof. intros g Hi Hb. unfold sendGrpcMessageToPod. destruct (_ !! pod); by split. Qed.
Lemma calm_enlist id l pod : within (calm id l) (enlistPod pod).
Proof. intros g Hi Hb. unfold enlistPod. destruct (_ !! pod); by split. Qed.
Lemma calm_stream id l pod sent : within (calm id l) (stream_turn pod sent).
Proof.
  intros g. unfold stream_turn. destruct (_ !! pod) as [[[|msg rest] seq out]|]; [done| |done].
  destruct sent; [|by apply calm_clients]. by intros Hi Hb; split.
Qed.
Lemma calm_create id l now pod s cb : s <> id -> within (calm id l) (createHeartBeat now pod s cb).
Proof.
  intros Hne g Hi Hb. unfold createHeartBeat. rewrite sm_modify_eq. set (k := fresh (dom (heartbeats g))).
  assert (heartbeats g !! k = None) as Hk by (apply not_elem_of_dom, is_fresh).
  assert (forall j i, belongs g j i -> j <> k) as Hfresh by (intros j i (h & E & _) ->; congruence).
  assert (forall j i, belongs g j i -> exists h, <[k := mkHeartbeat cb pod s 0 now]> (heartbeats g) !! j = Some h /\
    hb_session h = i) as Hkeep.
  { intros j i Hj. rewrite lookup_insert_ne by (pose proof (Hfresh _ _ Hj); congruence). done. }
  split; cbn; [|by rewrite lookup_insert_ne|rewrite lookup_insert_ne; [done|]|done|done|done].
  - intros i j. simpl. destruct (decide (i = s)) as [->|His].
    + rewrite lookup_insert_eq. intros [= <-]. rewrite lookup_insert_eq. by eexists.
    + rewrite lookup_insert_ne by done. intros Hij. by apply Hkeep, Hi.
  - pose proof (Hfresh _ _ Hb). congruence.
Qed.
Lemma calm_remove id l s : s <> id -> within (calm id l) (removeClosedSession s).
Proof.
  intros Hne g Hi Hb. unfold removeClosedSession. rewrite sm_modify_eq. split; cbn; try done.
  - intros i j. simpl. intros [_ Hij]%lookup_delete_Some. by apply Hi.
  - by rewrite lookup_delete_ne.
Qed.
Lemma calm_forward id l now s r : s <> id -> sr_SessionId r = s -> within (calm id l) (forwardSessionStateToPod now s r).
Proof.
  intros Hne Hr g Hi Hb. unfold forwardSessionStateToPod.
  destruct (sessionHeartbeats g !! s) as [k|] eqn:Hs; [|done].
  destruct (Hi _ _ Hs) as (hb & Hk & Hhb). rewrite Hk.
  assert (l <> k) as Hlk by (intros ->; apply Hne; rewrite <- Hhb; eapply belongs_unique; [by exists hb|done]).
  assert (forall j i, belongs g j i -> exists h,
    <[k := mkHeartbeat (stateCallback hb) (hb_pod hb) (hb_session hb) 0 now]> (heartbeats g) !! j = Some h /\
    hb_session h = i) as Hkeep by (intros j i; apply belongs_insert; by exists hb).
  split; cbn; try done.
  - intros i j Hij. by apply Hkeep, Hi.
  - by rewrite lookup_insert_ne by congruence.
  - unfold reports_of at 1. cbn. rewrite (reports_snoc id _ _ g) by done. rewrite decide_False by congruence. apply app_nil_r.
Qed.
Lemma calm_unless_heartbeat {A} id l s (c : SM GrpcSessionService A) (e : result A) :
  within (calm id l) c ->
  within (calm id l) (fun g => match getSessionHeartbeat g s with Some _ => (e, g) | None => c g end).
Proof. intros Hc g. simpl. destruct (getSessionHeartbeat g s); [done|apply Hc]. Qed.
Lemma calm_open id l now pod s data cb : s <> id -> within (calm id l) (svc_OpenSession now pod s data cb).
Proof.
  intros Hne. apply (within_bind (calm id l)); [apply calm_send|]. intros _.
  apply calm_unless_heartbeat, calm_create, Hne.
Qed.
Lemma calm_ping id l now pod s cb : s <> id -> within (calm id l) (svc_PingSession now pod s cb).
Proof.
  intros Hne. apply (within_bind (calm id l)); [|intros _; apply calm_send].
  apply calm_unless_heartbeat, calm_create, Hne.
Qed.
Lemma calm_close id l pod s grace : within (calm id l) (svc_CloseSession pod s grace).
Proof. intros g. unfold svc_CloseSession. destruct (getSessionHeartbeat g s); [apply calm_send|done]. Qed.
Lemma calm_put id l now s status : s <> id -> within (calm id l) (svc_PutMessage now s status).
Proof.
  intros Hne. destruct status as [st|]; [|by apply within_ret; apply _]. unfold svc_PutMessage.
  apply (within_bind (calm id l)); [by apply calm_forward|]. intros _.
  case_bool_decide; [by apply calm_remove|apply within_ret; apply _].
Qed.

(** ** A visit of the check *)

Lemma forward_ok now id r g : svc_inv g -> exists g', forwardSessionStateToPod now id r g = (Ok (), g').
Proof.
  intros Hi. unfold forwardSessionStateToPod. destruct (sessionHeartbeats g !! id) as [l|] eqn:Hl; [|by eexists].
  destruct (Hi _ _ Hl) as (hb & -> & _). by eexists.
Qed.

Definition pinged (hb : SessionStateHeartbeat) : SessionStateHeartbeat :=
  mkHeartbeat (stateCallback hb) (hb_pod hb) (hb_session hb) (wrapu 16 (consectuivePingFailures hb + 1)) (lastSeen hb).

Lemma visit_other id l now k s g :
  svc_inv g -> belongs g l id -> belongs g k s -> s <> id ->
  exists dead g', visit_session now k g = (Ok dead, g') /\ apart id l g g' /\ id ∉ dead.
Proof.
  intros Hi Hl (hb & Hk & <-) Hne. unfold visit_session. rewrite Hk.
  case_match; [|case_match; [|exists [], g; split; [done|]; split; [by split|apply not_elem_of_nil]]].
  - rewrite sm_bind_eq.
    pose proof (calm_forward id l now (hb_session hb) (mkSessionReport (hb_session hb) SessionStateNoHeartbeat [])
      Hne eq_refl g Hi Hl) as Hc.
    destruct (forward_ok now (hb_session hb) (mkSessionReport (hb_session hb) SessionStateNoHeartbeat []) g Hi)
      as (g' & Eg). rewrite Eg in *. do 2 eexists. split; [done|]. split; [done|]. intros ?%list_elem_of_singleton. congruence.
  - set (g1 := set_registered _ _ g). rewrite sm_bind_eq. unfold sm_try.
    assert (l <> k) as Hlk by (intros ->; apply Hne; eapply belongs_unique; [by exists hb|done]).
    assert (calm id l g g1) as H1.
    { intros _ _. assert (forall j i, belongs g j i -> belongs g1 j i) as Hkeep
        by (intros j i; apply (belongs_insert g k (pinged hb)); by exists hb).
      split; cbn; try done; [intros i j Hij; by apply Hkeep, Hi|by rewrite lookup_insert_ne]. }
    pose proof (calm_ping id l now (hb_pod hb) (hb_session hb) (stateCallback hb) Hne g1) as H2.
    pose proof (transitivity H1 H2 Hi Hl) as H12. cbn in *.
    destruct (svc_PingSession now (hb_pod hb) (hb_session hb) (stateCallback hb) g1) as [r g2].
    exists [], g2. split; [done|]. split; [done|apply not_elem_of_nil].
Qed.

(** The visit to the session itself. *)
Record visited_to (id : string) (l : nat) (hb : SessionStateHeartbeat) (out : list (CB * SessionReport)) g g' : Prop := {
  visited_inv : svc_inv g';
  visited_reg : sessionHeartbeats g' !! id = Some l;
  visited_hb : heartbeats g' !! l = Some hb;
  visited_reports : reports_of id g' = reports_of id g ++ out;
  visited_checking : checking g' = checking g;
  visited_belongs k i : belongs g k i -> belongs g' k i
}.

Lemma visited_insert id l hb hb' out g clients :
  svc_inv g -> sessionHeartbeats g !! id = Some l -> heartbeats g !! l = Some hb -> hb_session hb' = hb_session hb ->
  Forall (fun x => sr_SessionId x.2 = id) out ->
  visited_to id l hb' out g
    (mkService (sessionHeartbeats g) (<[l := hb']> (heartbeats g)) clients (delivered g ++ out) (checking g)).
Proof.
  intros Hi Hr Hl Hs Hout.
  assert (forall j i, belongs g j i -> exists h, <[l := hb']> (heartbeats g) !! j = Some h /\ hb_session h = i) as Hkeep
    by (intros j i; apply belongs_insert; by exists hb).
  split; cbn; try done.
  - intros i j Hij. by apply Hkeep, Hi.
  - by rewrite lookup_insert_eq.
  - unfold reports_of. cbn. rewrite filter_app. f_equal. clear -Hout. induction Hout as [|x out Hx _ IH]; [done|].
    by rewrite filter_cons_True, IH.
Qed.

Lemma visit_alive id l now hb g :
  svc_inv g -> sessionHeartbeats g !! id = Some l -> heartbeats g !! l = Some hb -> hb_session hb = id ->
  consectuivePingFailures hb <= 3 ->
  exists g', visit_session now l g = (Ok [], g') /\
    visited_to id l (if lastSeen hb + DefaultSessionHeartBeatDuration <? now then pinged hb else hb) [] g g'.
Proof.
  intros Hi Hr Hl Hs Hf. unfold visit_session. rewrite Hl.
  rewrite (proj2 (Z.ltb_ge _ _)) by (unfold DefaultDeadSessionHeartbeatMissingThreshold; lia).
  destruct (_ <? now).
  2:{ exists g. split; [done|]. split; try done. by rewrite app_nil_r. }
  rewrite sm_bind_eq. unfold sm_try, svc_PingSession. rewrite sm_bind_eq. unfold getSessionHeartbeat.
  cbn [sessionHeartbeats heartbeats set_registered hb_session hb_pod stateCallback]. rewrite Hs, Hr. simpl. rewrite lookup_insert_eq.
  assert (forall clients, visited_to id l (pinged hb) [] g
    (mkService (sessionHeartbeats g) (<[l := pinged hb]> (heartbeats g)) clients (delivered g) (checking g))) as Hv.
  { intros clients. pose proof (visited_insert id l hb (pinged hb) [] g clients Hi Hr Hl eq_refl) as H.
    rewrite app_nil_r in H. by apply H. }
  unfold sendGrpcMessageToPod. cbn [sessionClients set_registered]. unfold pinged in *. rewrite Hs in *.
  destruct (sessionClients g !! hb_pod hb); eexists; (split; [done|]); apply Hv.
Qed.

Lemma visit_dead id l now hb g :
  svc_inv g -> sessionHeartbeats g !! id = Some l -> heartbeats g !! l = Some hb -> hb_session hb = id ->
  3 < consectuivePingFailures hb ->
  exists hb' g', visit_session now l g = (Ok [id], g') /\ hb_session hb' = id /\
    visited_to id l hb' [(stateCallback hb, mkSessionReport id SessionStateNoHeartbeat [])] g g'.
Proof.
  intros Hi Hr Hl Hs Hf. unfold visit_session. rewrite Hl.
  rewrite (proj2 (Z.ltb_lt _ _)) by (unfold DefaultDeadSessionHeartbeatMissingThreshold; lia).
  rewrite sm_bind_eq. unfold forwardSessionStateToPod. rewrite Hs, Hr, Hl, sm_ret_eq.
  exists (mkHeartbeat (stateCallback hb) (hb_pod hb) (hb_session hb) 0 now). eexists. split; [done|]. split; [done|].
  apply (visited_insert id l hb (mkHeartbeat (stateCallback hb) (hb_pod hb) (hb_session hb) 0 now)
    [(stateCallback hb, mkSessionReport id SessionStateNoHeartbeat [])] g (sessionClients g)); try done.
  by repeat constructor.
Qed.

(** ** Silent sessions *)

(** What the check has still to visit: each heartbeat once, and of the session only [l]. *)
Definition to_visit (id : string) (l : nat) (rest : list nat) g : Prop :=
  NoDup rest /\ forall k, k ∈ rest -> exists s, belongs g k s /\ (s = id -> k = l).

Lemma to_visit_mono id l rest g g' :
  (forall k i, belongs g k i -> belongs g' k i) -> to_visit id l rest g -> to_visit id l rest g'.
Proof. intros Hm [Hd Hr]. split; [done|]. intros k Hk. destruct (Hr k Hk) as (s & Hs & He). exists s. auto. Qed.
Lemma to_visit_cons id l k rest g :
  to_visit id l (k :: rest) g -> k ∉ rest /\ to_visit id l rest g /\ exists s, belongs g k s /\ (s = id -> k = l).
Proof.
  intros [[Hk Hd]%NoDup_cons Hr]. split; [done|]. split; [|apply Hr; left]. split; [done|].
  intros j Hj. apply Hr. by right.
Qed.
Lemma to_visit_snapshot id l g :
  svc_inv g -> (forall k, sessionHeartbeats g !! id = Some k -> k = l) -> to_visit id l (getSessions g) g.
Proof.
  intros Hi Hl. unfold getSessions. split.
  - apply NoDup_fmap_2_strong; [|apply NoDup_range].
    intros [i j] [i' j'] H1%elem_of_range H2%elem_of_range. simpl. intros ->. f_equal.
    eapply belongs_unique; [by apply (Hi i j')|by apply (Hi i' j')].
  - intros k ([i j] & -> & H1%elem_of_range)%list_elem_of_fmap. exists i. split; [by apply Hi|].
    intros ->. by apply Hl.
Qed.
Lemma snapshot_elem g id l : sessionHeartbeats g !! id = Some l -> l ∈ getSessions g.
Proof. intros H. apply list_elem_of_fmap. exists (id, l). by rewrite elem_of_range. Qed.

Section Silent.
Context (id : string) (l : nat) (hb : SessionStateHeartbeat) (base : list (CB * SessionReport)).

Definition missed (f : Z) : SessionStateHeartbeat := mkHeartbeat (stateCallback hb) (hb_pod hb) id f (lastSeen hb).
Definition given_up : list (CB * SessionReport) := base ++ [(stateCallback hb, mkSessionReport id SessionStateNoHeartbeat [])].

(** The session after [k] visits that found its heartbeat overdue. *)
Inductive phase (k : nat) g : Prop :=
  | phase_idle : (k <= 4)%nat -> sessionHeartbeats g !! id = Some l -> heartbeats g !! l = Some (missed (Z.of_nat k)) ->
    reports_of id g = base -> checking g = None -> phase k g
  | phase_pending rest dead : (k <= 4)%nat -> sessionHeartbeats g !! id = Some l ->
    heartbeats g !! l = Some (missed (Z.of_nat k)) -> reports_of id g = base ->
    checking g = Some (rest, dead) -> l ∈ rest -> id ∉ dead -> to_visit id l rest g -> phase k g
  | phase_visited rest dead : (k <= 4)%nat -> sessionHeartbeats g !! id = Some l ->
    heartbeats g !! l = Some (missed (Z.of_nat k)) -> reports_of id g = base ->
    checking g = Some (rest, dead) -> l ∉ rest -> id ∉ dead -> to_visit id l rest g -> phase k g
  | phase_dying rest dead : k = 5%nat -> sessionHeartbeats g !! id = Some l -> belongs g l id ->
    reports_of id g = given_up -> checking g = Some (rest, dead) -> l ∉ rest -> id ∈ dead -> to_visit id l rest g -> phase k g
  | phase_gone : k = 5%nat -> sessionHeartbeats g !! id = None -> belongs g l id -> reports_of id g = given_up ->
    (forall rest dead, checking g = Some (rest, dead) -> l ∉ rest /\ to_visit id l rest g) -> phase k g.

Lemma phase_belongs k g : phase k g -> belongs g l id.
Proof. destruct 1; try done; eexists; by split. Qed.

(** What leaves the session alone leaves its phase. *)
Lemma phase_apart k g g' : apart id l g g' -> phase k g -> phase k g'.
Proof.
  intros [Hi Hr Hh Hp Hc Hb]. destruct 1;
    [eapply phase_idle|eapply phase_pending|eapply phase_visited|eapply phase_dying|eapply phase_gone];
    rewrite ?Hr, ?Hh, ?Hp, ?Hc; eauto using to_visit_mono.
  intros rest dead Hck. match goal with H : forall _ _, _ |- _ => destruct (H _ _ Hck) end. eauto using to_visit_mono.
Qed.

(** The session sends nothing and is not opened again. *)
Definition silent (op : svc_op) : Prop :=
  match op with
  | OpOpen _ _ s _ _ | OpPing _ _ s _ | OpPut _ s _ => s <> id
  | _ => True
  end.
(** The next visit of the check is one to the session, and finds that nothing was heard of it for more than
    the heartbeat duration. *)
Definition overdue (op : svc_op) g : bool :=
  match op, checking g with
  | OpVisit now, Some (j :: _, _) => bool_decide (j = l) && (lastSeen hb + DefaultSessionHeartBeatDuration <? now)
  | _, _ => false
  end.

Lemma phase_start k g : svc_inv g -> phase k g -> phase k (check_start g).2.
Proof.
  intros Hi Hp. unfold check_start. rewrite sm_modify_eq. cbn [snd]. destruct (checking g) eqn:Hc; [done|].
  destruct Hp as [Hk Hr Hh Ho _|? ? ? ? ? ? Hc'|? ? ? ? ? ? Hc'|? ? ? ? ? ? Hc'|Hk Hr Hb Ho _]; try congruence.
  - eapply (phase_pending _ _ (getSessions g) []); try done; [by eapply snapshot_elem|apply not_elem_of_nil|].
    apply (to_visit_snapshot id l g Hi). congruence.
  - eapply phase_gone; try done. cbn. intros rest dead [= <- <-]. split; [|apply (to_visit_snapshot id l g Hi); congruence].
    intros ([i j] & -> & H1%elem_of_range)%list_elem_of_fmap.
    assert (i = id) as -> by (eapply belongs_unique; [by apply (Hi i j)|done]). congruence.
Qed.

Lemma phase_finish k g : phase k g -> phase k (check_finish g).2.
Proof.
  intros Hp. unfold check_finish. rewrite sm_modify_eq. cbn [snd].
  destruct (checking g) as [[[|j rest] dead]|] eqn:Hc; try done.
  assert (forall ids m, id ∉ ids -> foldr delete m ids !! id = (m : gmap string nat) !! id) as Hkeep.
  { induction ids as [|i ids IH]; intros m Hni; [done|]. apply not_elem_of_cons in Hni as [Hne Hni]. simpl.
    rewrite lookup_delete_ne by congruence. by apply IH. }
  destruct Hp as [? ? ? ? Hc'|rest' dead' ? ? ? ? Hc' Hin|rest' dead' Hk Hr Hh Ho Hc' _ Hd _|rest' dead' -> Hr Hb Ho Hc' _ Hd _|Hk Hr Hb Ho _];
    rewrite ?Hc in *; simplify_eq/=.
  - by apply elem_of_nil in Hin.
  - apply phase_idle; cbn; [lia|by rewrite Hkeep|done|done|done].
  - apply phase_gone; cbn; [lia| |done|done|done].
    clear -Hd. induction dead' as [|i dead IH]; [by apply elem_of_nil in Hd|]. simpl.
    destruct (decide (i = id)) as [->|Hne]; [apply lookup_delete_eq|].
    apply elem_of_cons in Hd as [->|Hd]; [done|]. rewrite lookup_delete_ne by congruence. auto.
  - apply phase_gone; cbn; [lia| |done|done|done].
    assert (forall ids m, (m : gmap string nat) !! id = None -> foldr delete m ids !! id = None) as Hnone.
    { induction ids as [|i ids IH]; intros m Hm; [done|]. simpl.
      destruct (decide (i = id)) as [->|Hne]; [apply lookup_delete_eq|]. rewrite lookup_delete_ne by congruence. auto. }
    by apply Hnone.
Qed.

Lemma phase_rest k j rest dead dead' g :
  checking g = Some (j :: rest, dead) -> j <> l -> id ∉ dead' -> phase k g ->
  phase k (set_checking (Some (rest, dead ++ dead')) g).
Proof.
  intros Hc Hj Hd Hp.
  destruct Hp as [? ? ? ? Hc'|rest' ds ? ? ? ? Hc' Hin Hnd Hv|rest' ds ? ? ? ? Hc' Hin Hnd Hv|rest' ds ? ? ? ? Hc' Hin Hnd Hv|? ? ? ? Hck];
    rewrite ?Hc in *; simplify_eq.
  - eapply phase_pending; try done; [set_solver|set_solver|by apply to_visit_cons in Hv as (_ & Hv & _)].
  - eapply phase_visited; try done; [set_solver|set_solver|by apply to_visit_cons in Hv as (_ & Hv & _)].
  - eapply phase_dying; try done; [set_solver|set_solver|by apply to_visit_cons in Hv as (_ & Hv & _)].
  - apply phase_gone; try done. intros r d [= <- <-]. destruct (Hck _ _ eq_refl) as [Hin Hv].
    apply to_visit_cons in Hv as (_ & Hv & _). split; [set_solver|done].
Qed.

(** Visits after the first overdue one are overdue as well, when the clock does not go back. *)
Lemma phase_visit k now g :
  svc_inv g -> ((0 < k)%nat -> lastSeen hb + DefaultSessionHeartBeatDuration < now) -> phase k g ->
  svc_inv (check_visit now g).2 /\ phase (k + Nat.b2n (overdue (OpVisit now) g)) (check_visit now g).2.
Proof.
  intros Hi Hnow Hp. pose proof (phase_belongs _ _ Hp) as Hbl. unfold check_visit, overdue.
  destruct (checking g) as [[[|j rest] dead]|] eqn:Hc; cbn [Nat.b2n]; rewrite ?Nat.add_0_r; try done.
  destruct (decide (j = l)) as [->|Hj].
  - rewrite bool_decide_true by done. cbn [andb].
    destruct Hp as [? ? ? ? Hc'|rest' ds Hk Hr Hh Ho Hc' Hin Hnd Hv|rest' ds ? ? ? ? Hc' Hin|rest' ds ? ? ? ? Hc' Hin|? ? ? ? Hck];
      rewrite ?Hc in *; simplify_eq; [|by destruct Hin; left..|by destruct (Hck _ _ eq_refl) as [[] _]; left].
    apply to_visit_cons in Hv as (Hl & Hv & _).
    destruct (decide (k <= 3)%nat) as [Hk3|Hk3].
    + destruct (visit_alive id l now _ g Hi Hr Hh eq_refl) as (g' & -> & [I R B P C K]); [simpl; lia|].
      split; [done|]. cbn [lastSeen missed] in B. destruct (_ <? now); cbn [Nat.b2n].
      * unfold pinged in B. simpl in B. rewrite wrapu_small in B by (change (2 ^ 16) with 65536; lia).
        eapply phase_visited; try done; [lia|cbn; rewrite B; unfold missed; do 2 f_equal; lia|by etrans; [exact P|rewrite app_nil_r]|by rewrite app_nil_r|by apply (to_visit_mono id l rest g)].
      * rewrite Nat.add_0_r.
        eapply phase_visited; try done; [by etrans; [exact P|rewrite app_nil_r]|by rewrite app_nil_r|by apply (to_visit_mono id l rest g)].
    + destruct (visit_dead id l now _ g Hi Hr Hh eq_refl) as (hb' & g' & -> & Hs & [I R B P C K]); [simpl; lia|].
      rewrite (proj2 (Z.ltb_lt _ _)) by (apply Hnow; lia). cbn [Nat.b2n].
      split; [done|]. eapply phase_dying; try done; [lia|by exists hb'|by etrans; [exact P|unfold given_up; by rewrite Ho]|set_solver|by apply (to_visit_mono id l rest g)].
  - rewrite bool_decide_false by done. cbn [andb Nat.b2n]. rewrite Nat.add_0_r.
    assert (exists s, belongs g j s /\ s <> id) as (s & Hs & Hne).
    { assert (to_visit id l (j :: rest) g) as Hv.
      { destruct Hp as [? ? ? ? Hc'|? ? ? ? ? ? Hc'|? ? ? ? ? ? Hc'|? ? ? ? ? ? Hc'|? ? ? ? Hck];
          rewrite ?Hc in *; simplify_eq; try done. by apply (Hck _ _ eq_refl). }
      apply to_visit_cons in Hv as (_ & _ & s & Hs & He). exists s. split; [done|]. intros ->. by apply Hj, He. }
    destruct (visit_other id l now j s g Hi Hbl Hs Hne) as (dead' & g' & -> & Ha & Hd).
    pose proof (apart_inv _ _ _ _ Ha). split; [done|].
    apply (phase_rest k j rest dead dead'); [|done|done|by eapply phase_apart].
    by rewrite (apart_checking _ _ _ _ Ha).
Qed.

(** The first four overdue visits ping the session over the stream of its pod. *)
Definition ping_queued (c : GetSessionMessageClient) : GetSessionMessageClient :=
  mkClient (channel c ++ [mkSessionMessage "" (hb_pod hb) id PingSessionBody]) (streamSeq c) (streamed c).
Lemma phase_pings k op g c :
  svc_inv g -> phase k g -> overdue op g = true -> (k <= 3)%nat -> sessionClients g !! hb_pod hb = Some c ->
  sessionClients (svc_step op g) !! hb_pod hb = Some (ping_queued c).
Proof.
  intros Hi Hp Ho Hk Hcl. destruct op; try done. unfold overdue in Ho.
  destruct (checking g) as [[[|j rest] dead]|] eqn:Hc; try done.
  apply andb_true_iff in Ho as [->%bool_decide_eq_true Hlate].
  destruct Hp as [? ? ? ? Hc'|rest' ds _ Hr Hh Ho Hc' Hin Hnd Hv|rest' ds ? ? ? ? Hc' Hin|rest' ds ? ? ? ? Hc' Hin|? ? ? ? Hck];
    rewrite ?Hc in *; simplify_eq; [|by destruct Hin; left..|by destruct (Hck _ _ eq_refl) as [[] _]; left].
  cbn [svc_step]. unfold check_visit, visit_session. rewrite Hc, Hh. cbn [missed consectuivePingFailures lastSeen hb_pod hb_session stateCallback].
  rewrite (proj2 (Z.ltb_ge _ _)) by (unfold DefaultDeadSessionHeartbeatMissingThreshold; lia). rewrite Hlate.
  rewrite sm_bind_eq. unfold sm_try, svc_PingSession. rewrite sm_bind_eq. unfold getSessionHeartbeat.
  cbn [sessionHeartbeats heartbeats set_registered]. rewrite Hr. cbn [mbind option_bind]. rewrite lookup_insert_eq.
  unfold sendGrpcMessageToPod. cbn [sessionClients set_registered]. rewrite Hcl. cbn. by rewrite lookup_insert_eq.
Qed.

Lemma check_start_inv g : svc_inv g -> svc_inv (check_start g).2.
Proof. intros Hi. unfold check_start. rewrite sm_modify_eq. cbn. by destruct (checking g). Qed.
Lemma check_finish_inv g : svc_inv g -> svc_inv (check_finish g).2.
Proof.
  intros Hi. unfold check_finish. rewrite sm_modify_eq. cbn. destruct (checking g) as [[[|j rest] dead]|]; try done.
  intros i j. cbn. intros Hij. apply Hi. revert Hij. induction dead as [|d dead IH]; [done|]. simpl.
  intros [_ Hij]%lookup_delete_Some. auto.
Qed.

Lemma silent_apart op g :
  svc_inv g -> belongs g l id -> silent op ->
  match op with OpStart | OpVisit _ | OpFinish => True | _ => apart id l g (svc_step op g) end.
Proof.
  intros Hi Hb Hs. destruct op; simpl in Hs; try done; simpl.
  - by apply calm_open.
  - by apply calm_close.
  - by apply calm_ping.
  - by apply calm_put.
  - by apply calm_enlist.
  - by apply calm_stream.
Qed.

Lemma phase_step k op g :
  svc_inv g -> silent op ->
  match op with OpVisit now => (0 < k)%nat -> lastSeen hb + DefaultSessionHeartBeatDuration < now | _ => True end ->
  phase k g -> svc_inv (svc_step op g) /\ phase (k + Nat.b2n (overdue op g)) (svc_step op g).
Proof.
  intros Hi Hs Hv Hp. pose proof (silent_apart op g Hi (phase_belongs _ _ Hp) Hs) as Ha.
  destruct op; try (by apply phase_visit); cbn [overdue Nat.b2n]; rewrite ?Nat.add_0_r;
    try (split; [by eapply apart_inv|by eapply phase_apart]).
  - split; [by apply check_start_inv|by apply phase_start].
  - split; [by apply check_finish_inv|by apply phase_finish].
Qed.

(** How many visits of a run find the session overdue; the clock of the visits does not go back. *)
Fixpoint overdue_visits (ops : list svc_op) g : nat :=
  match ops with [] => 0%nat | op :: ops => (Nat.b2n (overdue op g) + overdue_visits ops (svc_step op g))%nat end.
Fixpoint visits_in_order (t : Z) (ops : list svc_op) : Prop :=
  match ops with
  | [] => True
  | OpVisit now :: ops => t <= now /\ visits_in_order now ops
  | _ :: ops => visits_in_order t ops
  end.

Lemma phase_run ops : forall k t g,
  svc_inv g -> Forall silent ops -> visits_in_order t ops ->
  ((0 < k)%nat -> lastSeen hb + DefaultSessionHeartBeatDuration < t) -> phase k g ->
  svc_inv (svc_run ops g) /\ phase (k + overdue_visits ops g) (svc_run ops g).
Proof.
  induction ops as [|op ops IH]; intros k t g Hi Hs Ht Hk Hp; simpl.
  - by rewrite Nat.add_0_r.
  - apply Forall_cons in Hs as [Ho Hs].
    destruct (phase_step k op g Hi Ho) as [Hi' Hp']; [|done|].
    { destruct op; try done. cbn in Ht. intros H. specialize (Hk H). lia. }
    set (t' := match op with OpVisit now => now | _ => t end).
    destruct (IH (k + Nat.b2n (overdue op g))%nat t' (svc_step op g) Hi' Hs) as [Hi'' Hp'']; [by destruct op; cbn in Ht; try apply Ht| |exact Hp'|].
    { intros H. destruct op; subst t'; cbn [overdue Nat.b2n] in H; try (apply Hk; lia). cbn in Ht.
      destruct (decide (0 < k)%nat) as [H0|H0]; [specialize (Hk H0); lia|].
      unfold overdue in H. destruct (checking g) as [[[|j r] d]|]; cbn in H; try lia.
      destruct (bool_decide (j = l)); cbn in H; [|lia]. destruct (Z.ltb_spec (lastSeen hb + DefaultSessionHeartBeatDuration) now); cbn in H; [done|lia]. }
    split; [done|]. by rewrite Nat.add_assoc.
Qed.
End Silent.



(** ** Sessions that answer *)

(** The pod of the session reports a state other than closed before a fourth check starts; [n] checks have
    started since the last one. *)
Fixpoint answers (id : string) (n : nat) (ops : list svc_op) : Prop :=
  match ops with
  | [] => True
  | OpStart :: ops => (n < 3)%nat /\ answers id (S n) ops
  | OpPut _ s (Some st) :: ops => if decide (s = id) then st <> STATE_CLOSED /\ answers id 0 ops else answers id n ops
  | _ :: ops => answers id n ops
  end.

Section Answering.
Context (id : string) (l : nat) (cb : CB) (base : list (CB * SessionReport)).

Record heard (n : nat) g : Prop := {
  heard_inv : svc_inv g;
  heard_reg : sessionHeartbeats g !! id = Some l;
  heard_hb : exists hb, heartbeats g !! l = Some hb /\ hb_session hb = id /\ stateCallback hb = cb /\
    0 <= consectuivePingFailures hb <= Z.of_nat n + 1 /\
    (forall rest dead, checking g = Some (rest, dead) -> l ∈ rest -> consectuivePingFailures hb <= Z.of_nat n);
  heard_check rest dead : checking g = Some (rest, dead) -> id ∉ dead /\ to_visit id l rest g;
  heard_reports : exists new, reports_of id g = base ++ new /\
    Forall (fun x => x.1 = cb /\ sr_SessionState x.2 <> SessionStateNoHeartbeat) new
}.

Lemma heard_belongs n g : heard n g -> belongs g l id.
Proof. intros H. destruct (heard_hb _ _ H) as (hb & Hh & Hs & _). by exists hb. Qed.

Lemma heard_apart n g g' : apart id l g g' -> heard n g -> heard n g'.
Proof.
  intros [Hi Hr Hh Hp Hc Hb] [I R B C P]. split; rewrite ?Hr, ?Hh, ?Hp, ?Hc; try done.
  intros rest dead Hck. destruct (C _ _ Hck). eauto using to_visit_mono.
Qed.

Lemma heard_start n g : heard n g -> heard (S n) (check_start g).2.
Proof.
  intros H. pose proof (check_start_inv _ (heard_inv _ _ H)) as Hi. destruct H as [I R (hb & Hh & Hs & Hcb & Hf & Hl) C P].
  unfold check_start in *. rewrite sm_modify_eq in *. cbn [snd] in *. destruct (checking g) as [[rest dead]|] eqn:Hc.
  - split; try done; [|by rewrite Hc]. exists hb. repeat (split; [done|]). split; [lia|].
    intros r d Hck Hin. rewrite Hc in Hck. specialize (Hl _ _ Hck Hin). lia.
  - split; try done; cbn; [|intros r d [= <- <-]; split; [apply not_elem_of_nil|apply (to_visit_snapshot id l g I); congruence]].
    exists hb. repeat (split; [done|]). split; [lia|]. intros; lia.
Qed.

Lemma heard_finish n g : heard n g -> heard n (check_finish g).2.
Proof.
  intros H. pose proof (check_finish_inv _ (heard_inv _ _ H)) as Hi. destruct H as [I R (hb & Hh & Hs & Hcb & Hf & Hl) C P].
  unfold check_finish in *. rewrite sm_modify_eq in *. cbn [snd] in *.
  destruct (checking g) as [[[|j rest] dead]|] eqn:Hc;
    try (split; try done; [exists hb; repeat (split; [done|]); by rewrite Hc|by rewrite Hc]).
  destruct (C _ _ eq_refl) as [Hd _].
  split; try done; cbn; [|exists hb; repeat (split; [done|]); done].
  clear -Hd R. induction dead as [|i dead IH]; [done|]. apply not_elem_of_cons in Hd as [Hne Hd]. simpl.
  rewrite lookup_delete_ne by congruence. by apply IH.
Qed.

Lemma heard_visit n now g : (n <= 3)%nat -> heard n g -> heard n (check_visit now g).2.
Proof.
  intros Hn H. pose proof (heard_belongs _ _ H) as Hbl.
  unfold check_visit. destruct (checking g) as [[[|j rest] dead]|] eqn:Hc; try done.
  destruct (heard_check _ _ H _ _ Hc) as [Hd Hv]. apply to_visit_cons in Hv as (Hj & Hv & s & Hs & He).
  destruct (decide (j = l)) as [->|Hjl].
  - destruct H as [I R (hb & Hh & Hid & Hcb & Hf & Hl) C P].
    assert (consectuivePingFailures hb <= Z.of_nat n) as Hfn by (apply (Hl _ _ Hc); left).
    destruct (visit_alive id l now hb g I R Hh Hid) as (g' & -> & [I' R' B' P' C' K']); [lia|].
    split; try done; cbn; [|intros r d [= <- <-]; split; [by rewrite app_nil_r|by apply (to_visit_mono id l rest g)]
      |destruct P as (new & E & Hnew); exists new; split; [|done]; rewrite <- E; etrans; [exact P'|by rewrite app_nil_r]].
    eexists. split; [exact B'|]. unfold pinged. destruct (_ <? now); simpl.
    + rewrite wrapu_small by (change (2 ^ 16) with 65536; lia). repeat (split; [done|]). split; [lia|].
      intros r d [= <- <-]. done.
    + repeat (split; [done|]). intros r d [= <- <-]. done.
  - assert (s <> id) as Hne by (intros ->; by apply Hjl, He).
    destruct (visit_other id l now j s g (heard_inv _ _ H) Hbl Hs Hne) as (dead' & g' & -> & Ha & Hd').
    pose proof (heard_apart _ _ _ Ha H) as [I R (hb & Hh & Hid & Hcb & Hf & Hl) C P].
    rewrite (apart_checking _ _ _ _ Ha) in *. split; try done; cbn.
    + exists hb. repeat (split; [done|]). intros r d [= <- <-] Hin. apply (Hl _ _ Hc). by right.
    + intros r d [= <- <-]. split; [set_solver|]. by apply (to_visit_mono id l rest g); [apply Ha|].
Qed.

Lemma heard_put n now st g : st <> STATE_CLOSED -> heard n g -> heard 0 (svc_PutMessage now id (Some st) g).2.
Proof.
  intros Hst [I R (hb & Hh & Hid & Hcb & Hf & Hl) C P]. unfold svc_PutMessage. rewrite sm_bind_eq.
  unfold forwardSessionStateToPod. rewrite R, Hh. rewrite bool_decide_false by (by destruct st). cbn [snd sm_ret].
  pose proof (visited_insert id l hb (mkHeartbeat (stateCallback hb) (hb_pod hb) (hb_session hb) 0 now)
    [(stateCallback hb, mkSessionReport id (session_state_of st) [])] g (sessionClients g) I R Hh eq_refl) as Hv.
  destruct Hv as [I' R' B' P' C' K']; [by repeat constructor|].
  split; try done.
  - eexists. split; [exact B'|]. simpl. split; [done|]. split; [done|]. split; [lia|]. intros; lia.
  - intros r d Hck. destruct (C r d Hck). split; [done|]. by apply (to_visit_mono id l r g).
  - destruct P as (new & E & Hnew). eexists. split; [etrans; [exact P'|]; rewrite E, <- (assoc_L (++)); done|].
    apply Forall_app. split; [done|]. repeat constructor; [done|]. by destruct st.
Qed.

(** Opening or pinging a registered session again only sends the message. *)
Lemma heard_again n (op : svc_op) g :
  heard n g -> match op with OpOpen _ _ s _ _ | OpPing _ _ s _ => s = id | _ => False end -> heard n (svc_step op g).
Proof.
  intros H Hop. assert (forall clients, heard n (set_sessionClients clients g)) as Hsend by (destruct H; by split).
  destruct (heard_hb _ _ H) as (hb & Hh & _). pose proof (heard_reg _ _ H) as Hr.
  destruct op; try done; subst; simpl; unfold svc_OpenSession, svc_PingSession, getSessionHeartbeat; rewrite sm_bind_eq.
  - unfold sendGrpcMessageToPod. destruct (sessionClients g !! pod) as [cl|]; [|done].
    cbn [set_sessionClients sessionHeartbeats heartbeats]. rewrite Hr. simpl. rewrite Hh. apply Hsend.
  - rewrite Hr. simpl. rewrite Hh. unfold sendGrpcMessageToPod. destruct (sessionClients g !! pod) as [cl|]; [apply Hsend|done].
Qed.

Lemma heard_run ops : forall n g, (n <= 3)%nat -> answers id n ops -> heard n g ->
  exists m, (m <= 3)%nat /\ heard m (svc_run ops g).
Proof.
  induction ops as [|op ops IH]; intros n g Hn Ha H; [by exists n|]. cbn [svc_run foldl].
  pose proof (heard_belongs _ _ H) as Hb. pose proof (heard_inv _ _ H) as Hi.
  destruct op as [now pod s data cb'|pod s grace|now pod s cb'|now s [st|]|pod|pod|pod sent| |now|]; simpl in Ha.
  - apply (IH n); [done|done|]. destruct (decide (s = id)) as [->|Hne]; [by apply heard_again|].
    eapply heard_apart; [by apply calm_open|done].
  - apply (IH n); [done|done|]. eapply heard_apart; [by apply calm_close|done].
  - apply (IH n); [done|done|]. destruct (decide (s = id)) as [->|Hne]; [by apply heard_again|].
    eapply heard_apart; [by apply calm_ping|done].
  - case_decide as Hs; [subst; destruct Ha as [Hst Ha]; apply (IH 0%nat); [lia|done|by eapply heard_put]|].
    apply (IH n); [done|done|]. eapply heard_apart; [by apply calm_put|done].
  - by apply (IH n).
  - apply (IH n); [done|done|]. eapply heard_apart; [by apply calm_enlist|done].
  - apply (IH n); [done|done|]. eapply heard_apart; [by apply (calm_clients id l (fun g => delete pod (sessionClients g)))|done].
  - apply (IH n); [done|done|]. eapply heard_apart; [by apply calm_stream|done].
  - destruct Ha as [Hlt Ha]. apply (IH (S n)); [lia|done|by apply heard_start].
  - apply (IH n); [done|done|by apply heard_visit].
  - apply (IH n); [done|done|by apply heard_finish].
Qed.

End Answering.

(** A session that answers is not given up: if its pod reports a state before a fourth check starts, then
    however checks, reports, streams and other sessions interleave, the session stays registered with its
    callback, which is never told that the heartbeat is missing. *)
Theorem answering_session_kept (ops : list svc_op) g id l hb :
  svc_inv g -> checking g = None ->
  sessionHeartbeats g !! id = Some l -> heartbeats g !! l = Some hb -> hb_session hb = id ->
  consectuivePingFailures hb = 0 ->
  answers id 0 ops ->
  let g' := svc_run ops g in
  (exists hb', getSessionHeartbeat g' id = Some hb' /\ stateCallback hb' = stateCallback hb) /\
  exists new, reports_of id g' = reports_of id g ++ new /\
    Forall (fun x => x.1 = stateCallback hb /\ sr_SessionState x.2 <> SessionStateNoHeartbeat) new.
Proof.
  intros Hi Hc Hr Hh Hs Hf Ha g'. subst g'.
  destruct (heard_run id l (stateCallback hb) (reports_of id g) ops 0 g) as (m & _ & H); [lia|done| |].
  - split; try done; [|by rewrite Hc|exists []; by rewrite app_nil_r]. exists hb. repeat (split; [done|]).
    split; [lia|]. by rewrite Hc.
  - destruct (heard_hb _ _ _ _ _ _ H) as (hb' & Hh' & _ & Hcb & _). split; [|apply H].
    exists hb'. split; [|done]. unfold getSessionHeartbeat. by rewrite (heard_reg _ _ _ _ _ _ H).
Qed.

End SessionService.
Arguments GrpcSessionService CB : clear implicits.
Arguments SessionStateHeartbeat CB : clear implicits.
Arguments svc_op CB : clear implicits.

(** ** Examples and witnesses *)

Definition minute : Z := DefaultSessionHeartBeatDuration.
(** Two sessions on a pod; callbacks are numbers. *)
Definition example_service : GrpcSessionService nat :=
  svc_run [OpEnlist "p"; OpOpen 0 "p" "s" "" 1%nat; OpOpen 0 "p" "t" "" 2%nat]%string NewSessionService.
(** One check at time [now] over two sessions, interrupted by a report of session [t]. *)
Definition example_check (now : Z) : list (svc_op nat) :=
  [OpStart; OpVisit now; OpPut now "t"%string (Some STATE_OPEN); OpVisit now; OpFinish].

Lemma example_service_inv : svc_inv example_service.
Proof.
  intros id l Hl. assert ((id, l) ∈ [("t", 1%nat); ("s", 0%nat)]%string) as Hin.
  { apply (elem_of_map_to_list (sessionHeartbeats example_service)) in Hl. vm_compute in Hl. vm_compute. set_solver. }
  vm_compute in Hin. repeat (apply elem_of_cons in Hin as [[= -> ->]|Hin]; [by eexists|]). by apply elem_of_nil in Hin.
Qed.

(** The first check comes too early; the next four ping the session, the sixth gives it up. *)
Definition silent_checks : list (svc_op nat) :=
  mjoin (map example_check [minute; 2 * minute; 3 * minute; 4 * minute; 5 * minute; 6 * minute]).

(** A session that reports that it is closing is taken for open again: the pod actor marks it available. *)
Example closing_session_reported_available (now : Z) (status : ApplicationSessionStatus) :
  SessionStatus status = SessionStatusClosing ->
  SessionStatus (reported_status now (mkSessionReport "s" (session_state_of STATE_CLOSING) []) status) = SessionStatusAvailable.
Proof. done. Qed.

(** A session that is closed and opened again while a check that has given it up is running loses its new
    heartbeat: its states are dropped from then on. *)
Example reopened_session_loses_heartbeat :
  let g := svc_run (mjoin (map example_check [2 * minute; 3 * minute; 4 * minute; 5 * minute]) ++
                    [OpStart; OpVisit (6 * minute); OpVisit (6 * minute); OpPut (6 * minute) "s" (Some STATE_CLOSED);
                     OpOpen (6 * minute) "p" "s" "" 3%nat; OpFinish; OpPut (7 * minute) "s" (Some STATE_OPEN)])
             example_service in
  getSessionHeartbeat g "s" = None /\ filter (fun x => x.1 = 3%nat) (delivered g) = [].
Proof. vm_compute. split; reflexivity. Qed.
