(* ===== verification/SessionWrapper.v ===== *)
(** * The session wrapper

    [cmd/sessionwrapper/main.go] runs inside a pod: it takes the commands of the session service, starts one
    process per session, reports the state of every session every ten seconds and, when the pod is stopped,
    ends the processes of its sessions before it exits.

    Sessions are shared by the map of the wrapper and by the goroutine that waits for the process, so they
    live in a heap.  The processes of the operating system are part of the state: a process runs, has exited
    and waits to be collected, or is gone; [os.FindProcess] never fails on Unix.  What processes and the waiting
    goroutines do are the [event]s; a handler that tests the state of a session and then writes it takes the
    events that happen in between.  Opening a session is three steps of the receiving goroutine, the test of
    [stopping], the start of the process and the entry in the map, between which the ticker and [main] go on: a
    stop in between ends every session but the one that is being opened ([session_taken_after_stop]).
    The loops of the tick and of the stop are each one step but for the events: the sessions and their map have no
    lock, so what these loops do to each other and to an entry being written is left open. *)

From S2P Require Import Prelude GoStrings ApiTypes Collection NodeMonitor AgentTypes ContainerActor PodActor SessionService.
From Stdlib Require Import String.
#[local] Open Scope Z_scope.
#[local] Open Scope go_scope.

Definition DefaultClosingGracePeriodDuration : Z := 60 * 10 ^ 9.

Inductive ProcessSignal := SIGTERM | SIGKILL.
#[export] Instance ProcessSignal_eq_dec : EqDecision ProcessSignal.
Proof. solve_decision. Defined.

(** [Session] of the wrapper *)
Record WSession := mkWSession {
  ws_id : string;
  ws_pid : Z;
  ws_podId : string;
  ws_state : ReportedState;
  closingGracePeriodDuration : Z;
  closingTimestamp : option Z
}.
Definition set_ws_state (st : ReportedState) (s : WSession) : WSession :=
  mkWSession (ws_id s) (ws_pid s) (ws_podId s) st (closingGracePeriodDuration s) (closingTimestamp s).
Definition set_closing (now grace : Z) (s : WSession) : WSession :=
  mkWSession (ws_id s) (ws_pid s) (ws_podId s) STATE_CLOSING grace (Some now).

(** The report of a session, as it is sent. *)
Record StateMessage := mkStateMessage { st_MessageId : string; st_PodId : string; st_Session : string; st_State : ReportedState }.

(** An OPEN that has passed the test of [stopping], and one that has its session but not the entry in the map. *)
Inductive Opening := OpenTested (podId id : string) | OpenStarted (id : string) (p : nat).

Record sessionServiceClient := mkWrapper {
  messageId : Z;
  stopping : bool;
  conn : bool;
  getMessageClient : bool;
  wsessions : gmap string nat;
  objects : gmap nat WSession;
  (** the message on [done] has been received: [main] exits *)
  exits : bool;
  (** processes: running, or exited and not yet waited for *)
  processes : gmap Z bool;
  (** the goroutines in [proc.Wait], or behind it and before they set the state *)
  waiters : gmap nat bool;
  signals : list (Z * ProcessSignal);
  sent : list StateMessage;
  (** where the receiving goroutine is in an OPEN *)
  opening : option Opening
}.
Implicit Types (w : sessionServiceClient) (p : nat).

Definition set_objects m w := mkWrapper (messageId w) (stopping w) (conn w) (getMessageClient w) (wsessions w) m (exits w) (processes w) (waiters w) (signals w) (sent w) (opening w).
Definition set_wsessions m w := mkWrapper (messageId w) (stopping w) (conn w) (getMessageClient w) m (objects w) (exits w) (processes w) (waiters w) (signals w) (sent w) (opening w).
Definition set_stopping w := mkWrapper (messageId w) true (conn w) (getMessageClient w) (wsessions w) (objects w) (exits w) (processes w) (waiters w) (signals w) (sent w) (opening w).
Definition set_exits w := mkWrapper (messageId w) (stopping w) (conn w) (getMessageClient w) (wsessions w) (objects w) true (processes w) (waiters w) (signals w) (sent w) (opening w).
Definition set_connection c g w := mkWrapper (messageId w) (stopping w) c g (wsessions w) (objects w) (exits w) (processes w) (waiters w) (signals w) (sent w) (opening w).
Definition set_processes m ws w := mkWrapper (messageId w) (stopping w) (conn w) (getMessageClient w) (wsessions w) (objects w) (exits w) m ws (signals w) (sent w) (opening w).
Definition set_signals l w := mkWrapper (messageId w) (stopping w) (conn w) (getMessageClient w) (wsessions w) (objects w) (exits w) (processes w) (waiters w) l (sent w) (opening w).
Definition set_sent l w := mkWrapper (messageId w) (stopping w) (conn w) (getMessageClient w) (wsessions w) (objects w) (exits w) (processes w) (waiters w) (signals w) l (opening w).

Definition set_opening o w := mkWrapper (messageId w) (stopping w) (conn w) (getMessageClient w) (wsessions w) (objects w) (exits w) (processes w) (waiters w) (signals w) (sent w) o.

Definition NewSessionServiceClient : sessionServiceClient := mkWrapper 0 false false false ∅ ∅ false ∅ ∅ [] [] None.

(** ** Processes and the goroutines that wait for them *)

Inductive event := ProcessExits (pid : Z) | WaitReturns (p : nat) | StateClosed (p : nat).
Definition event_step (e : event) w : sessionServiceClient :=
  match e with
  | ProcessExits pid =>
    match processes w !! pid with
    | Some true => set_processes (<[pid := false]> (processes w)) (waiters w) w
    | _ => w
    end
  | WaitReturns p =>
    match waiters w !! p, objects w !! p with
    | Some false, Some s =>
      match processes w !! ws_pid s with
      | Some false => set_processes (delete (ws_pid s) (processes w)) (<[p := true]> (waiters w)) w
      | _ => w
      end
    | _, _ => w
    end
  | StateClosed p =>
    match waiters w !! p, objects w !! p with
    | Some true, Some s =>
      set_processes (processes w) (delete p (waiters w)) (set_objects (<[p := set_ws_state STATE_CLOSED s]> (objects w)) w)
    | _, _ => w
    end
  end.
Definition events (evs : list event) : SM sessionServiceClient unit :=
  sm_modify (fun w => foldl (fun w e => event_step e w) w evs).

Definition sys_Kill (pid : Z) (sig : ProcessSignal) : SM sessionServiceClient unit :=
  sm_modify (fun w => set_signals (signals w ++ [(pid, sig)]) w).
(** [os.Process.Signal] answers [ErrProcessDone] for a process that is gone. *)
Definition os_Signal (pid : Z) (sig : ProcessSignal) : SM sessionServiceClient unit := fun w =>
  if pid =? 0 then (Err (OtherError "os: process not initialized"), w)
  else match processes w !! pid with
       | None => (Err (OtherError "os: process already finished"), w)
       | Some _ => sys_Kill pid sig w
       end.

Definition the_session p : SM sessionServiceClient WSession := fun w =>
  match objects w !! p with Some s => (Ok s, w) | None => (Err nil_panic, w) end.
Definition set_session p (s : WSession) : SM sessionServiceClient unit :=
  sm_modify (fun w => set_objects (<[p := s]> (objects w)) w).

(** ** Reports *)

(** [net] is what the call over the connection returns. *)
Definition wrapper_PutMessage (net : result unit) (message : StateMessage) : SM sessionServiceClient unit := fun w =>
  if conn w then
    match net with
    | Ok _ => (Ok (), set_sent (sent w ++ [message]) w)
    | Err e => (Err e, w)
    end
  else (Err (OtherError "FornaxCore connection is not initialized yet"), w).
Definition sendHeartbeat (net : result unit) p : SM sessionServiceClient unit :=
  do! session <- the_session p;
  do! w <- sm_get;
  wrapper_PutMessage net (mkStateMessage (FormatInt (messageId w)) (ws_podId session) (ws_id session) (ws_state session)).

(** ** Commands

    [start] is what [os.StartProcess] returns; [evs] happens between the test of a state and the write. *)

Definition wr_open_session (podId id : string) : SM sessionServiceClient unit := fun w =>
  if stopping w then (Err (OtherError "instance is terminating"), w)
  else (Ok (), set_opening (Some (OpenTested podId id)) w).
Definition open_start (start : result Z) : SM sessionServiceClient unit := sm_modify (fun w =>
  match opening w with
  | Some (OpenTested podId id) =>
    let p := fresh (dom (objects w)) in
    let session := mkWSession id 0 podId STATE_INITIALIZING DefaultClosingGracePeriodDuration None in
    set_opening (Some (OpenStarted id p))
      match start with
      | Err _ => set_objects (<[p := set_ws_state STATE_CLOSED session]> (objects w)) w
      | Ok pid =>
        set_processes (<[pid := true]> (processes w)) (<[p := false]> (waiters w))
          (set_objects (<[p := mkWSession id pid podId STATE_OPEN DefaultClosingGracePeriodDuration None]> (objects w)) w)
      end
  | _ => w
  end).
Definition open_record (net : result unit) : SM sessionServiceClient unit := fun w =>
  match opening w with
  | Some (OpenStarted id p) => sendHeartbeat net p (set_opening None (set_wsessions (<[id := p]> (wsessions w)) w))
  | _ => (Ok (), w)
  end.

Definition close_session (now : Z) (evs : list event) (gracePeriodSeconds : Z) (id : string) : SM sessionServiceClient unit :=
  do! w <- sm_get;
  match wsessions w !! id with
  | None => sm_ret ()
  | Some p =>
    do! session <- the_session p;
    if bool_decide (ws_state session = STATE_CLOSED) then sm_ret ()
    else
      do! _ <- events evs;
      do! session <- the_session p;
      do! _ <- set_session p (set_closing now (i64 (gracePeriodSeconds * 10 ^ 9)) session);
      os_Signal (ws_pid session) SIGTERM
  end.

Definition ping_session (net : result unit) (id : string) : SM sessionServiceClient unit :=
  do! w <- sm_get;
  if stopping w then sm_fail (OtherError "instance is terminating")
  else
    match wsessions w !! id with
    | None => sm_ret ()
    | Some p =>
      do! session <- the_session p;
      if negb (ws_pid session =? 0) && bool_decide (ws_state session <> STATE_CLOSED) then sm_ret ()
      else sendHeartbeat net p
    end.

Definition handleSessionCommand (now : Z) (net : result unit) (evs : list event) (msg : SessionMessage) :
    SM sessionServiceClient unit :=
  match MessageBodyOf msg with
  | PingSessionBody => ping_session net (SessionIdentifier msg)
  | CloseSessionBody grace => close_session now evs grace (SessionIdentifier msg)
  | OpenSessionBody _ => wr_open_session (PodId msg) (SessionIdentifier msg)
  end.

(** One turn of [recvMessage]: what connecting and asking for the stream return if they are called, and the next
    message, or none when the stream is broken. *)
Definition initGetMessageClient (dial get : result unit) : SM sessionServiceClient unit :=
  do! w <- sm_get;
  do! _ <- (if conn w then sm_ret ()
            else do! _ <- sm_lift dial; sm_modify (fun w => set_connection true (getMessageClient w) w));
  do! _ <- sm_lift get;
  sm_modify (fun w => set_connection (conn w) true w).
Definition recv_turn (dial get : result unit) (received : option SessionMessage)
    (now : Z) (net : result unit) (evs : list event) : SM sessionServiceClient unit :=
  do! w <- sm_get;
  do! r <- sm_try (if getMessageClient w then sm_ret () else initGetMessageClient dial get);
  match r with
  | Err _ => sm_ret ()
  | Ok _ =>
    match received with
    | None => sm_modify (fun w => set_connection (conn w) false w)
    | Some msg => do! _ <- sm_try (handleSessionCommand now net evs msg); sm_ret ()
    end
  end.

(** ** House keeping and the end *)

Section Housekeeping.
Context {GR : GoRange}.

Definition visit_wsession (now : Z) (net : result unit) p : SM sessionServiceClient unit :=
  do! v <- the_session p;
  do! _ <- (if bool_decide (ws_state v = STATE_CLOSING) then
              match closingTimestamp v with
              | None => sm_fail nil_panic
              | Some t => if t <? now - closingGracePeriodDuration v then sys_Kill (ws_pid v) SIGKILL else sm_ret ()
              end
            else sm_ret ());
  do! _ <- sm_try (sendHeartbeat net p);
  sm_ret ().

Definition all_closed w : bool :=
  forallb (fun kp : string * nat => match objects w !! kp.2 with
                                    | Some s => bool_decide (ws_state s = STATE_CLOSED)
                                    | None => false
                                    end) (range (wsessions w)).
(** [evs id] happens before the visit of session [id], [last] before the last test. *)
Definition wr_houseKeeping (now : Z) (net : string -> result unit) (evs : string -> list event) (last : list event) :
    SM sessionServiceClient unit :=
  do! w <- sm_get;
  do! _ <- sm_for (range (wsessions w)) (fun '(id, p) =>
    do! _ <- events (evs id);
    visit_wsession now (net id) p);
  do! _ <- events last;
  sm_modify (fun w => if stopping w && all_closed w then set_exits w else w).

Definition stop_session (now : Z) (evs : list event) p : SM sessionServiceClient unit :=
  do! v <- the_session p;
  if negb (ws_pid v =? 0) && bool_decide (ws_state v <> STATE_CLOSED) then
    do! _ <- events evs;
    do! v <- the_session p;
    do! _ <- set_session p (set_closing now (closingGracePeriodDuration v) v);
    sys_Kill (ws_pid v) SIGTERM
  else sm_ret ().
Definition GracefullyStopSessions (now : Z) (evs : string -> list event) : SM sessionServiceClient unit :=
  do! _ <- sm_modify set_stopping;
  do! w <- sm_get;
  sm_for (range (wsessions w)) (fun '(id, p) => stop_session now (evs id) p).

(** ** Runs

    The operating system gives a new process an identifier nobody has.  Without [racing], no process ends
    exactly between a test and the write that follows it, and no stop comes in the middle of an OPEN. *)
Definition starts_fresh (start : result Z) w : Prop :=
  match start with Ok pid => 0 < pid /\ processes w !! pid = None | Err _ => True end.

Inductive wrapper_step (racing : bool) w : sessionServiceClient -> Prop :=
  | step_event e : wrapper_step racing w (event_step e w)
  | step_receive dial get received now net evs :
    opening w = None -> (racing = false -> evs = []) ->
    wrapper_step racing w (recv_turn dial get received now net evs w).2
  | step_open_start start : starts_fresh start w -> wrapper_step racing w (open_start start w).2
  | step_open_record net : wrapper_step racing w (open_record net w).2
  | step_tick now net evs last : wrapper_step racing w (wr_houseKeeping now net evs last w).2
  | step_stop now evs : (racing = false -> opening w = None /\ forall id, evs id = []) ->
    wrapper_step racing w (GracefullyStopSessions now evs w).2.
Definition wrapper_reachable (racing : bool) : sessionServiceClient -> Prop :=
  rtc (wrapper_step racing) NewSessionServiceClient.
End Housekeeping.

(** ** What always holds *)

Record wrapper_inv (racing : bool) w : Prop := {
  wi_map id p : wsessions w !! id = Some p -> exists s, objects w !! p = Some s /\ ws_id s = id;
  wi_object p b : waiters w !! p = Some b -> is_Some (objects w !! p);
  wi_process p s : waiters w !! p = Some false -> objects w !! p = Some s -> is_Some (processes w !! ws_pid s);
  wi_own p1 p2 s1 s2 : waiters w !! p1 = Some false -> waiters w !! p2 = Some false ->
    objects w !! p1 = Some s1 -> objects w !! p2 = Some s2 -> ws_pid s1 = ws_pid s2 -> p1 = p2;
  wi_closed p s : objects w !! p = Some s -> ws_state s = STATE_CLOSED -> waiters w !! p = None;
  wi_open p s : objects w !! p = Some s -> ws_state s <> STATE_CLOSED ->
    ws_pid s <> 0 /\ (racing = false -> is_Some (waiters w !! p)) /\
    (ws_state s = STATE_CLOSING -> is_Some (closingTimestamp s));
  wi_signals pid sig : (pid, sig) ∈ signals w -> pid <> 0 /\ exists p s, objects w !! p = Some s /\ ws_pid s = pid;
  wi_opening id p : opening w = Some (OpenStarted id p) -> exists s, objects w !! p = Some s /\ ws_id s = id;
  wi_stopping : racing = false -> opening w <> None -> stopping w = false;
  wi_exit : exits w = true -> stopping w = true /\ (racing = false ->
    forall id p s, wsessions w !! id = Some p -> objects w !! p = Some s -> ws_state s = STATE_CLOSED)
}.

(** The sessions keep their processes, and what an event leaves alone. *)
Record same_sessions w w' : Prop := {
  same_map : wsessions w' = wsessions w;
  same_stopping : stopping w' = stopping w;
  same_exits : exits w' = exits w;
  same_objects p s : objects w !! p = Some s -> exists s', objects w' !! p = Some s' /\ ws_pid s' = ws_pid s
}.
#[export] Instance same_sessions_preorder : PreOrder same_sessions.
Proof.
  split.
  - intros w. split; eauto.
  - intros w1 w2 w3 [M1 S1 E1 O1] [M2 S2 E2 O2]. split; [congruence..|].
    intros p s Hp. destruct (O1 p s Hp) as (s2 & H2 & <-). apply O2, H2.
Qed.

Section Invariant.
Context {GR : GoRange} (racing : bool).
Abbreviation inv := (wrapper_inv racing).

Lemma new_inv : inv NewSessionServiceClient.
Proof using. split; try done. intros pid sig H. by apply elem_of_nil in H. Qed.

(** Replacing a session that keeps its process. *)
Lemma set_object_inv p s s' w :
  inv w -> objects w !! p = Some s -> ws_pid s' = ws_pid s -> ws_id s' = ws_id s ->
  (ws_state s' = STATE_CLOSED -> waiters w !! p = None) ->
  (ws_state s' <> STATE_CLOSED -> ws_pid s' <> 0 /\ (racing = false -> is_Some (waiters w !! p)) /\
     (ws_state s' = STATE_CLOSING -> is_Some (closingTimestamp s')) /\ (racing = false -> exits w = false)) ->
  inv (set_objects (<[p := s']> (objects w)) w).
Proof using.
  intros [M O P D C N G R T E] Hp Hpid Hid Hc Hn.
  assert (forall q t, <[p := s']> (objects w) !! q = Some t -> exists t0, objects w !! q = Some t0 /\ ws_pid t = ws_pid t0) as Hback.
  { intros q t [[<- <-]|[_ Hq]]%lookup_insert_Some; [by exists s|by exists t]. }
  assert (forall q t, objects w !! q = Some t -> exists t', <[p := s']> (objects w) !! q = Some t' /\ ws_pid t' = ws_pid t /\ ws_id t' = ws_id t) as Hfwd.
  { intros q t Hq. destruct (decide (p = q)) as [<-|Hne].
    - exists s'. rewrite lookup_insert_eq. assert (t = s) as -> by congruence. done.
    - exists t. by rewrite lookup_insert_ne. }
  split; cbn.
  - intros id q Hq. destruct (M id q Hq) as (t & Ht & <-). destruct (Hfwd q t Ht) as (t' & ? & _ & ?). by exists t'.
  - intros q b Hq. destruct (O q b Hq) as [t Ht]. destruct (Hfwd q t Ht) as (t' & -> & _). by eexists.
  - intros q t Hw Hq. destruct (Hback q t Hq) as (t0 & Hq0 & ->). by eapply P.
  - intros q1 q2 t1 t2 H1 H2 Ht1 Ht2 He. destruct (Hback _ _ Ht1) as (u1 & Hu1 & E1), (Hback _ _ Ht2) as (u2 & Hu2 & E2).
    eapply D; eauto; congruence.
  - intros q t [[<- <-]|[_ Hq]]%lookup_insert_Some Hst; [by apply Hc|by eapply C].
  - intros q t [[<- <-]|[_ Hq]]%lookup_insert_Some Hst; [destruct (Hn Hst) as (? & ? & ? & _); done|by apply N].
  - intros pid sig Hs. destruct (G pid sig Hs) as (? & q & t & Hq & <-). split; [done|].
    destruct (Hfwd q t Hq) as (t' & ? & ? & _). by exists q, t'.
  - intros id q Ho. destruct (R id q Ho) as (t & Ht & <-). destruct (Hfwd q t Ht) as (t' & ? & _ & ?). by exists t'.
  - done.
  - intros Hx. destruct (E Hx) as [? Hall]. split; [done|].
    intros Hrf id q t Hq [[<- <-]|[_ Ht]]%lookup_insert_Some; [|by eapply Hall].
    destruct (decide (ws_state s' = STATE_CLOSED)) as [|Hne]; [done|]. destruct (Hn Hne) as (_ & _ & _ & Hxf).
    specialize (Hxf Hrf). congruence.
Qed.

Lemma event_inv e w : inv w -> inv (event_step e w).
Proof using.
  intros Hi. pose proof Hi as [M O P D C N G R T E]. destruct e as [pid|p|p]; unfold event_step.
  - destruct (processes w !! pid) as [[]|] eqn:Hp; [|done..]. split; try done. cbn. intros p s Hw Hs.
    destruct (decide (pid = ws_pid s)) as [->|Hne]; [rewrite lookup_insert_eq; by eexists|].
    rewrite lookup_insert_ne by done. by apply (P p).
  - destruct (waiters w !! p) as [[]|] eqn:Hw; try done. destruct (objects w !! p) as [s|] eqn:Hs; [|done].
    destruct (processes w !! ws_pid s) as [[]|] eqn:Hp; [done| |done]. split; try done; cbn.
    + intros q b [[<- <-]|[_ Hq]]%lookup_insert_Some; [by eexists|by eapply O].
    + intros q t [[_ [=]]|[Hne Hq]]%lookup_insert_Some Ht. rewrite lookup_delete_ne; [by eapply P|].
      intros He. apply Hne. by apply (D p q s t).
    + intros q1 q2 t1 t2 [[_ [=]]|[_ H1]]%lookup_insert_Some [[_ [=]]|[_ H2]]%lookup_insert_Some. by apply D.
    + intros q t Hq Hst. rewrite lookup_insert_ne; [by eapply C|]. intros <-. rewrite (C p t Hq Hst) in Hw. done.
    + intros q t Hq Hst. destruct (N q t Hq Hst) as (? & Hr & ?). split; [done|]. split; [|done].
      intros Hrf. destruct (decide (p = q)) as [<-|Hne]; [rewrite lookup_insert_eq; by eexists|].
      rewrite lookup_insert_ne by done. by apply Hr.
  - destruct (waiters w !! p) as [[]|] eqn:Hw; try done. destruct (objects w !! p) as [s|] eqn:Hs; [|done].
    assert (forall q b, delete p (waiters w) !! q = Some b -> q <> p /\ waiters w !! q = Some b) as Hd.
    { intros q b [? ?]%lookup_delete_Some. split; [congruence|done]. }
    split; cbn.
    + intros id q Hq. destruct (M id q Hq) as (t & Ht & <-). destruct (decide (p = q)) as [<-|Hne].
      * rewrite lookup_insert_eq. assert (t = s) as -> by congruence. by eexists.
      * rewrite lookup_insert_ne by done. by exists t.
    + intros q b [Hne Hq]%Hd. rewrite lookup_insert_ne by done. by eapply O.
    + intros q t [Hne Hq]%Hd. rewrite lookup_insert_ne by done. by apply P.
    + intros q1 q2 t1 t2 [N1 H1]%Hd [N2 H2]%Hd. rewrite !lookup_insert_ne by done. by apply D.
    + intros q t [[<- <-]|[Hne Hq]]%lookup_insert_Some Hst; [by rewrite lookup_delete_eq|].
      rewrite lookup_delete_ne by done. by eapply C.
    + intros q t [[<- <-]|[Hne Hq]]%lookup_insert_Some Hst; [done|]. rewrite lookup_delete_ne by done. by apply N.
    + intros pid sig Hin. destruct (G pid sig Hin) as (? & q & t & Hq & <-). split; [done|]. exists q.
      destruct (decide (p = q)) as [<-|Hne]; [|exists t; by rewrite lookup_insert_ne].
      rewrite lookup_insert_eq. assert (t = s) as -> by congruence. by eexists.
    + intros id q Ho. destruct (R id q Ho) as (t & Ht & <-). destruct (decide (p = q)) as [<-|Hne].
      * rewrite lookup_insert_eq. assert (t = s) as -> by congruence. by eexists.
      * rewrite lookup_insert_ne by done. by exists t.
    + done.
    + intros Hx. destruct (E Hx) as [? Hall]. split; [done|].
      intros Hrf id q t Hq [[<- <-]|[_ Ht]]%lookup_insert_Some; [done|by eapply Hall].
Qed.

Lemma event_same e w : same_sessions w (event_step e w).
Proof using.
  unfold event_step. destruct e; repeat case_match; try done; split; try done; cbn; intros q t Hq; [by eexists..|].
  destruct (decide (p = q)) as [<-|Hne]; [|exists t; by rewrite lookup_insert_ne].
  rewrite lookup_insert_eq. simplify_eq. by eexists.
Qed.
Lemma events_inv evs : forall w, inv w -> inv (events evs w).2 /\ same_sessions w (events evs w).2.
Proof using.
  unfold events. cbn. induction evs as [|e evs IH]; intros w Hi; cbn; [done|].
  destruct (IH _ (event_inv e w Hi)) as [Hi' Hs]. split; [done|]. etrans; [apply event_same|exact Hs].
Qed.

(** Operations that keep the invariant. *)
Definition keep w w' : Prop := inv w -> inv w'.
#[export] Instance keep_preorder : PreOrder keep.
Proof using. split; [intros w H; exact H|]. intros w1 w2 w3 H12 H23 H1. apply H23, H12, H1. Qed.

Lemma keep_events evs : within keep (events evs).
Proof using. intros w Hi. by apply events_inv. Qed.
Lemma keep_get {A} (k : sessionServiceClient -> SM sessionServiceClient A) :
  (forall w, keep w (k w w).2) -> within keep (do! w <- sm_get; k w).
Proof using. intros H w. rewrite sm_bind_eq. apply H. Qed.
Lemma keep_session {A} p (k : WSession -> SM sessionServiceClient A) :
  (forall w s, objects w !! p = Some s -> keep w (k s w).2) -> within keep (do! s <- the_session p; k s).
Proof using. intros H w. rewrite sm_bind_eq. unfold the_session. destruct (objects w !! p) as [s|] eqn:Hs; [by apply H|done]. Qed.

Lemma frame_inv w w' :
  wsessions w' = wsessions w -> objects w' = objects w -> waiters w' = waiters w -> processes w' = processes w ->
  signals w' = signals w -> stopping w' = stopping w -> exits w' = exits w -> opening w' = opening w -> inv w -> inv w'.
Proof using. intros E1 E2 E3 E4 E5 E6 E7 E8 [M O P D C N G R T E]. split; rewrite ?E1, ?E2, ?E3, ?E4, ?E5, ?E6, ?E7, ?E8; done. Qed.

Lemma keep_Put net msg : within keep (wrapper_PutMessage net msg).
Proof using. intros w. unfold wrapper_PutMessage. destruct (conn w), net; try (intros Hi; exact Hi). intros Hi. by eapply frame_inv, Hi. Qed.
Lemma keep_heartbeat net p : within keep (sendHeartbeat net p).
Proof using. apply keep_session. intros w s _. rewrite sm_bind_eq. apply keep_Put. Qed.
Lemma keep_connection c g : within keep (sm_modify (fun w => set_connection (c w) (g w) w)).
Proof using. intros w Hi. by eapply frame_inv, Hi. Qed.
Lemma keep_init dial get : within keep (initGetMessageClient dial get).
Proof using.
  apply keep_get. intros w0. apply (within_bind keep).
  - destruct (conn w0); [apply (within_ret keep)|]. apply (within_bind keep); [apply (within_lift keep)|].
    intros _. apply (keep_connection (fun _ => true) getMessageClient).
  - intros _. apply (within_bind keep); [apply (within_lift keep)|]. intros _. apply (keep_connection conn (fun _ => true)).
Qed.

Lemma kill_inv pid sig p s w :
  objects w !! p = Some s -> ws_pid s = pid -> pid <> 0 -> inv w -> inv (sys_Kill pid sig w).2.
Proof using.
  intros Hp Hpid Hne [M O P D C N G R T E]. split; try done. cbn.
  intros pid' sig' [Hin|[[= -> ->]|Hin%elem_of_nil]%elem_of_cons]%elem_of_app; [by apply (G pid' sig')| |done].
  split; [done|]. by exists p, s.
Qed.
Lemma signal_inv pid sig p s w : objects w !! p = Some s -> ws_pid s = pid -> inv w -> inv (os_Signal pid sig w).2.
Proof using.
  intros Hp Hpid Hi. unfold os_Signal. destruct (Z.eqb_spec pid 0); [done|]. destruct (processes w !! pid); [|done].
  by eapply kill_inv.
Qed.

(** A session that was found open is set closing after [evs]. *)
Lemma closing_inv evs p s w now (grace : WSession -> Z) :
  (racing = false -> evs = []) -> inv w -> objects w !! p = Some s -> ws_state s <> STATE_CLOSED ->
  (exists id, wsessions w !! id = Some p) ->
  exists s1, objects (events evs w).2 !! p = Some s1 /\ ws_pid s1 = ws_pid s /\ ws_pid s1 <> 0 /\
    let w2 := set_objects (<[p := set_closing now (grace s1) s1]> (objects (events evs w).2)) (events evs w).2 in inv w2.
Proof using.
  intros Hr Hi Hs Hst [id Hid]. destruct (events_inv evs w Hi) as [Hi1 Hsame].
  destruct (same_objects _ _ Hsame p s Hs) as (s1 & Hs1 & Hpid).
  destruct (wi_open _ _ Hi p s Hs Hst) as (Hne & Hw & _).
  exists s1. split; [done|]. split; [done|]. split; [congruence|]. cbv zeta.
  eapply set_object_inv; [done|done|done|done|done|]. intros _. split; [cbn; congruence|]. split; [|split; [by eexists|]].
  - intros Hrf. rewrite (Hr Hrf). by apply Hw.
  - intros Hrf. rewrite (same_exits _ _ Hsame). destruct (exits w) eqn:Hx; [|done].
    destruct (wi_exit _ _ Hi Hx) as [_ Hall]. destruct Hst. by apply (Hall Hrf id p s).
Qed.

Lemma keep_close now evs grace id : (racing = false -> evs = []) -> within keep (close_session now evs grace id).
Proof using.
  intros Hr. apply keep_get. intros w. destruct (wsessions w !! id) as [p|] eqn:Hid; [|by apply (within_ret keep)].
  rewrite sm_bind_eq. unfold the_session at 1. destruct (objects w !! p) as [s|] eqn:Hs; [|done].
  case_bool_decide as Hst; [by apply (within_ret keep)|]. intros Hi. rewrite sm_bind_eq.
  destruct (closing_inv evs p s w now (fun _ => i64 (grace * 10 ^ 9)) Hr Hi Hs Hst (ex_intro _ id Hid)) as (s1 & Hs1 & Hp & Hne & Hi2).
  change (events evs w) with ((Ok (), (events evs w).2) : result unit * sessionServiceClient). cbv beta iota.
  rewrite sm_bind_eq. unfold the_session. rewrite Hs1. rewrite sm_bind_eq. unfold set_session. rewrite sm_modify_eq.
  eapply (signal_inv _ _ p); [cbn; apply lookup_insert_eq|done|exact Hi2].
Qed.

Lemma keep_ping net id : within keep (ping_session net id).
Proof using.
  apply keep_get. intros w. destruct (stopping w); [done|]. destruct (_ !! id) as [p|]; [|done].
  revert w. apply keep_session. intros w s _. destruct (_ && _); [done|apply keep_heartbeat].
Qed.

Lemma started_inv id podId p s w ws procs :
  inv w -> opening w = Some (OpenTested podId id) -> objects w !! p = None -> ws_id s = id ->
  (ws = waiters w /\ procs = processes w /\ ws_state s = STATE_CLOSED \/
   ws = <[p := false]> (waiters w) /\ procs = <[ws_pid s := true]> (processes w) /\ ws_state s = STATE_OPEN /\
   0 < ws_pid s /\ processes w !! ws_pid s = None) ->
  inv (set_opening (Some (OpenStarted id p)) (set_processes procs ws (set_objects (<[p := s]> (objects w)) w))).
Proof using.
  intros [M O P D C N G R T E] Hop Hp Hid Hcase.
  assert (waiters w !! p = None) as Hwp by (destruct (waiters w !! p) as [b|] eqn:Hw; [destruct (O p b Hw); congruence|done]).
  assert (forall q t, objects w !! q = Some t -> <[p := s]> (objects w) !! q = Some t) as Hfwd
    by (intros q t Hq; rewrite lookup_insert_ne by congruence; done).
  assert (forall q b, ws !! q = Some b -> q = p /\ b = false \/ q <> p /\ waiters w !! q = Some b) as Hws.
  { intros q b Hq. destruct Hcase as [(-> & _)|(-> & _)]; [right; split; [congruence|done]|].
    apply lookup_insert_Some in Hq as [[<- <-]|[? ?]]; [by left|by right]. }
  split; cbn.
  - intros i q Hq. destruct (M i q Hq) as (t & Ht & ?). exists t. auto.
  - intros q b Hq. destruct (Hws q b Hq) as [[-> ->]|[_ Hw]]; [rewrite lookup_insert_eq; by eexists|].
    destruct (O q b Hw) as [t Ht]. exists t. auto.
  - intros q t Hq Ht. destruct (Hws q _ Hq) as [[-> _]|[Hne Hw]].
    + rewrite lookup_insert_eq in Ht. injection Ht as <-.
      destruct Hcase as [(-> & _)|(_ & -> & _)]; [congruence|rewrite lookup_insert_eq; by eexists].
    + rewrite lookup_insert_ne in Ht by done. pose proof (P q t Hw Ht) as [b Hb].
      destruct Hcase as [(_ & -> & _)|(_ & -> & _ & _ & Hfree)]; [by exists b|].
      rewrite lookup_insert_ne by congruence. by exists b.
  - intros q1 q2 t1 t2 H1 H2 Ht1 Ht2 He.
    destruct (Hws _ _ H1) as [[-> _]|[N1 W1]], (Hws _ _ H2) as [[-> _]|[N2 W2]]; [done|..].
    + rewrite lookup_insert_eq in Ht1. rewrite lookup_insert_ne in Ht2 by done. injection Ht1 as <-.
      destruct Hcase as [(-> & _)|(_ & _ & _ & _ & Hfree)]; [congruence|]. destruct (P q2 t2 W2 Ht2). congruence.
    + rewrite lookup_insert_eq in Ht2. rewrite lookup_insert_ne in Ht1 by done. injection Ht2 as <-.
      destruct Hcase as [(-> & _)|(_ & _ & _ & _ & Hfree)]; [congruence|]. destruct (P q1 t1 W1 Ht1). congruence.
    + rewrite lookup_insert_ne in Ht1, Ht2 by done. by apply (D q1 q2 t1 t2).
  - intros q t [[<- <-]|[Hne Hq]]%lookup_insert_Some Hc.
    + destruct Hcase as [(-> & _)|(_ & _ & Ho & _)]; [done|congruence].
    + destruct Hcase as [(-> & _)|(-> & _)]; [by eapply C|]. rewrite lookup_insert_ne by done. by eapply C.
  - intros q t [[<- <-]|[Hne Hq]]%lookup_insert_Some Hc.
    + destruct Hcase as [(_ & _ & Ho)|(-> & _ & Ho & Hpos & _)]; [congruence|]. rewrite lookup_insert_eq, Ho.
      split; [lia|]. split; [by eexists|done].
    + destruct (N q t Hq Hc) as (? & Hw & ?). split; [done|]. split; [|done]. intros Hrf.
      destruct Hcase as [(-> & _)|(-> & _)]; [by apply Hw|]. rewrite lookup_insert_ne by done. by apply Hw.
  - intros pid sig Hin. destruct (G pid sig Hin) as (? & q & t & Hq & ?). split; [done|]. exists q, t. auto.
  - intros i q [= <- <-]. exists s. by rewrite lookup_insert_eq.
  - intros Hrf _. apply T; [done|]. by rewrite Hop.
  - intros Hx. destruct (E Hx) as [Hst Hall]. split; [done|]. intros Hrf. rewrite T in Hst by (done || by rewrite Hop). done.
Qed.
Lemma recorded_inv id p w : inv w -> opening w = Some (OpenStarted id p) ->
  inv (set_opening None (set_wsessions (<[id := p]> (wsessions w)) w)).
Proof using.
  intros [M O P D C N G R T E] Hop. split; try done; cbn.
  - intros i q [[<- <-]|[_ Hq]]%lookup_insert_Some; [by apply R|by apply M].
  - intros Hx. destruct (E Hx) as [Hst _]. split; [done|]. intros Hrf. rewrite T in Hst by (done || by rewrite Hop). done.
Qed.

Lemma keep_open podId id : within keep (wr_open_session podId id).
Proof using.
  intros w Hi. unfold wr_open_session. destruct (stopping w) eqn:Hst; [done|]. destruct Hi as [M O P D C N G R T E]. by split.
Qed.
Lemma keep_start start w : starts_fresh start w -> keep w (open_start start w).2.
Proof using.
  intros Hfresh Hi. unfold open_start. rewrite sm_modify_eq. cbn [snd].
  destruct (opening w) as [[podId id|]|] eqn:Hop; [|done..].
  set (p := fresh (dom (objects w))). assert (objects w !! p = None) as Hp by (apply not_elem_of_dom, is_fresh).
  destruct start as [pid|e].
  - destruct Hfresh as [Hpos Hfree]. apply (started_inv id podId p _ w); try done. right. done.
  - apply (started_inv id podId p (set_ws_state STATE_CLOSED (mkWSession id 0 podId STATE_INITIALIZING _ None)) w (waiters w) (processes w));
      try done. by left.
Qed.
Lemma keep_record net : within keep (open_record net).
Proof using.
  intros w Hi. unfold open_record. destruct (opening w) as [[|id p]|] eqn:Hop; [done| |done].
  by apply keep_heartbeat, recorded_inv.
Qed.
Lemma keep_command now net evs msg : (racing = false -> evs = []) -> within keep (handleSessionCommand now net evs msg).
Proof using.
  intros Hr. unfold handleSessionCommand. destruct (MessageBodyOf msg); [apply keep_open|by apply keep_close|apply keep_ping].
Qed.
Lemma keep_recv dial get received now net evs :
  (racing = false -> evs = []) -> within keep (recv_turn dial get received now net evs).
Proof using.
  intros Hr. apply keep_get. intros w0. apply (within_bind keep).
  - apply (within_try keep). destruct (getMessageClient w0); [apply (within_ret keep)|apply keep_init].
  - intros [u|e]; [|apply (within_ret keep)]. destruct received as [msg|]; [|apply (keep_connection conn (fun _ => false))].
    apply (within_bind keep); [by apply (within_try keep), keep_command|]. intros _. apply (within_ret keep).
Qed.

(** ** House keeping and stopping, in one go *)

Definition killed (now : Z) (s : WSession) : list (Z * ProcessSignal) :=
  match ws_state s, closingTimestamp s with
  | STATE_CLOSING, Some t => if t <? now - closingGracePeriodDuration s then [(ws_pid s, SIGKILL)] else []
  | _, _ => []
  end.
Definition reported (net : result unit) w (s : WSession) : list StateMessage :=
  match net with
  | Ok _ => if conn w then [mkStateMessage (FormatInt (messageId w)) (ws_podId s) (ws_id s) (ws_state s)] else []
  | Err _ => []
  end.
Definition after_visit now net (s : WSession) w : sessionServiceClient :=
  set_sent (sent w ++ reported net w s) (set_signals (signals w ++ killed now s) w).

Lemma set_signals_nil w : set_signals (signals w ++ []) w = w.
Proof using. rewrite app_nil_r. by destruct w. Qed.
Lemma set_sent_nil w : set_sent (sent w ++ []) w = w.
Proof using. rewrite app_nil_r. by destruct w. Qed.

Lemma heartbeat_eq net p s w : objects w !! p = Some s ->
  (sendHeartbeat net p w).2 = set_sent (sent w ++ reported net w s) w.
Proof using.
  intros Hs. unfold sendHeartbeat. rewrite sm_bind_eq. unfold the_session. rewrite Hs, sm_bind_eq, sm_get_eq.
  unfold wrapper_PutMessage, reported. destruct (conn w), net; cbn [snd]; by rewrite ?set_sent_nil.
Qed.
Lemma visit_eq now net p s w : inv w -> objects w !! p = Some s ->
  visit_wsession now net p w = (Ok (), after_visit now net s w).
Proof using.
  intros Hi Hs. unfold visit_wsession. rewrite sm_bind_eq. unfold the_session at 1. rewrite Hs, sm_bind_eq.
  assert (forall w1, w1 = set_signals (signals w ++ killed now s) w ->
    (do! _ <- sm_try (sendHeartbeat net p); sm_ret ()) w1 = (Ok (), after_visit now net s w)) as Hend.
  { intros w1 ->. rewrite sm_bind_eq. unfold sm_try.
    pose proof (heartbeat_eq net p s (set_signals (signals w ++ killed now s) w) Hs) as H.
    destruct (sendHeartbeat net p _) as [r w2]. cbn [snd] in H. subst w2. done. }
  unfold killed in Hend. case_bool_decide as Hc.
  - destruct (wi_open _ _ Hi p s Hs) as (_ & _ & Ht); [by rewrite Hc|]. destruct (Ht Hc) as [t Et].
    rewrite Hc, Et in Hend. rewrite Et. destruct (t <? _).
    + unfold sys_Kill. rewrite sm_modify_eq. by apply Hend.
    + rewrite sm_ret_eq. apply Hend. by rewrite set_signals_nil.
  - rewrite sm_ret_eq. apply Hend. rewrite <- (set_signals_nil w) at 1. f_equal. f_equal. by destruct (ws_state s).
Qed.

Lemma visit_inv now net p s w : inv w -> objects w !! p = Some s -> inv (after_visit now net s w).
Proof using.
  intros Hi Hs. unfold after_visit, killed. eapply (frame_inv (set_signals _ w)); [done..|].
  destruct (ws_state s) eqn:Est, (closingTimestamp s) as [t|]; rewrite ?app_nil_r; try (by eapply frame_inv, Hi).
  destruct (t <? _); [|rewrite app_nil_r; by eapply frame_inv, Hi].
  apply (kill_inv (ws_pid s) SIGKILL p s w); try done. by destruct (wi_open _ _ Hi p s Hs) as [? _]; [rewrite Est|].
Qed.

Lemma keep_visit now net p : within keep (visit_wsession now net p).
Proof using.
  intros w Hi. destruct (objects w !! p) as [s|] eqn:Hs; [rewrite (visit_eq _ _ _ s) by done; by eapply visit_inv|].
  unfold visit_wsession. rewrite sm_bind_eq. unfold the_session. by rewrite Hs.
Qed.
Lemma all_closed_spec w : inv w ->
  all_closed w = true <-> forall id p s, wsessions w !! id = Some p -> objects w !! p = Some s -> ws_state s = STATE_CLOSED.
Proof using.
  intros Hi. unfold all_closed. rewrite forallb_forall. split.
  - intros H id p s Hid Hs. specialize (H (id, p)). cbn in H. rewrite Hs in H.
    apply bool_decide_eq_true in H; [done|]. by apply list_elem_of_In, elem_of_range.
  - intros H [id p] Hin. apply list_elem_of_In, elem_of_range in Hin. destruct (wi_map _ _ Hi id p Hin) as (s & Hs & _).
    cbn. rewrite Hs. apply bool_decide_eq_true. by eapply H.
Qed.
Lemma keep_houseKeeping now net evs last : within keep (wr_houseKeeping now net evs last).
Proof using.
  apply keep_get. intros w0. apply (within_bind keep).
  - apply (within_for keep). intros [id p]. apply (within_bind keep); [apply keep_events|]. intros _. apply keep_visit.
  - intros _. apply (within_bind keep); [apply keep_events|]. intros _ w. rewrite sm_modify_eq. intros Hi. cbn [snd].
    destruct (stopping w) eqn:Hst; [|done]. destruct (all_closed w) eqn:Hall; [|done]. cbn.
    pose proof (proj1 (all_closed_spec w Hi) Hall) as Hc. destruct Hi as [M O P D C N G R T E]. by split.
Qed.
Lemma stop_session_eq now p s w : inv w -> objects w !! p = Some s ->
  stop_session now [] p w =
  (Ok (), if bool_decide (ws_state s = STATE_CLOSED) then w
          else set_signals (signals w ++ [(ws_pid s, SIGTERM)])
                 (set_objects (<[p := set_closing now (closingGracePeriodDuration s) s]> (objects w)) w)).
Proof using.
  intros Hi Hs. unfold stop_session. rewrite sm_bind_eq. unfold the_session at 1. rewrite Hs.
  destruct (decide (ws_state s = STATE_CLOSED)) as [Hc|Hc].
  - rewrite (bool_decide_false (ws_state s <> STATE_CLOSED)), andb_false_r, bool_decide_true by (done || by intros []). done.
  - rewrite bool_decide_true, bool_decide_false by done. destruct (wi_open _ _ Hi p s Hs Hc) as [Hne _].
    rewrite (proj2 (Z.eqb_neq _ _)) by done. cbn [negb andb]. rewrite sm_bind_eq. unfold events. rewrite sm_modify_eq. cbn [foldl].
    rewrite sm_bind_eq. unfold the_session. rewrite Hs. rewrite sm_bind_eq. unfold set_session, sys_Kill. by rewrite !sm_modify_eq.
Qed.
Lemma keep_stop_session now evs id p w :
  (racing = false -> evs = []) -> wsessions w !! id = Some p -> keep w (stop_session now evs p w).2.
Proof using.
  intros Hr Hid Hi. unfold stop_session. rewrite sm_bind_eq. unfold the_session at 1.
  destruct (objects w !! p) as [s|] eqn:Hs; [|done]. destruct (negb _); [|done]. cbn [andb].
  case_bool_decide as Hst; [|done]. rewrite sm_bind_eq.
  destruct (closing_inv evs p s w now closingGracePeriodDuration Hr Hi Hs Hst (ex_intro _ id Hid)) as (s1 & Hs1 & Hp & Hne & Hi2).
  change (events evs w) with ((Ok (), (events evs w).2) : result unit * sessionServiceClient). cbv beta iota.
  rewrite sm_bind_eq. unfold the_session. rewrite Hs1. rewrite sm_bind_eq. unfold set_session. rewrite sm_modify_eq.
  eapply (kill_inv _ _ p); [cbn; apply lookup_insert_eq|done|done|exact Hi2].
Qed.
Lemma stop_session_map now evs p w : wsessions (stop_session now evs p w).2 = wsessions w.
Proof using.
  unfold stop_session. rewrite sm_bind_eq. unfold the_session at 1. destruct (objects w !! p) as [s|]; [|done].
  destruct (_ && _); [|done]. rewrite sm_bind_eq.
  assert (same_sessions w (events evs w).2) as Hsame.
  { unfold events. cbn. clear. revert w. induction evs as [|e evs IH]; intros w; [done|]. cbn. etrans; [apply event_same|apply IH]. }
  change (events evs w) with ((Ok (), (events evs w).2) : result unit * sessionServiceClient). cbv beta iota.
  rewrite sm_bind_eq. unfold the_session. destruct (objects (events evs w).2 !! p); cbn; apply Hsame.
Qed.
Lemma keep_stopping now evs w : (racing = false -> opening w = None /\ forall id, evs id = []) ->
  keep w (GracefullyStopSessions now evs w).2.
Proof using.
  intros Hr. unfold GracefullyStopSessions. rewrite sm_bind_eq, sm_modify_eq, sm_bind_eq, sm_get_eq. intros Hi.
  assert (inv (set_stopping w)) as H1.
  { destruct Hi as [M O P D C N G R T E]. split; try done; cbn.
    - intros Hrf. by destruct (Hr Hrf) as [-> _].
    - intros Hx. by destruct (E Hx). }
  assert (forall l v, (forall kp, kp ∈ l -> wsessions v !! kp.1 = Some kp.2) -> inv v ->
    inv (sm_for l (fun '(id, p) => stop_session now (evs id) p) v).2) as Hfor.
  { assert (racing = false -> forall id, evs id = []) as Hq by (intros Hrf; by apply Hr).
    clear w Hr Hi H1. induction l as [|[id p] l IH]; intros v Hl Hi; [done|]. cbn [sm_for]. rewrite sm_bind_eq.
    assert (wsessions v !! id = Some p) as Hid by (apply (Hl (id, p)); left).
    pose proof (keep_stop_session now (evs id) id p v (fun E => Hq E id) Hid Hi) as Hi'.
    pose proof (stop_session_map now (evs id) p v) as Hm.
    destruct (stop_session now (evs id) p v) as [[u|e] v']; cbn [snd] in *; [|done].
    apply IH; [|done]. intros kp Hin. rewrite Hm. apply Hl. by right. }
  apply Hfor; [|done]. intros [id p] Hin. by apply elem_of_range in Hin.
Qed.

Lemma wrapper_step_inv w w' : wrapper_step racing w w' -> inv w -> inv w'.
Proof using.
  intros [e|dial get received now net evs _ Hr|start Hf|net|now net evs last|now evs Hr] Hi.
  - by apply event_inv.
  - by apply keep_recv.
  - by apply keep_start.
  - by apply keep_record.
  - by apply keep_houseKeeping.
  - by apply keep_stopping.
Qed.
Lemma wrapper_reachable_inv w : wrapper_reachable racing w -> inv w.
Proof using.
  intros H. assert (forall w0, rtc (wrapper_step racing) w0 w -> inv w0 -> inv w) as Hgo.
  { clear. intros w0. induction 1; [done|]. intros Hi. by eapply IHrtc, wrapper_step_inv. }
  eapply Hgo; [exact H|apply new_inv].
Qed.

(** A tick without events in between. *)
Definition tick_reports net w : list StateMessage :=
  range (wsessions w) ≫= fun kp => match objects w !! kp.2 with Some s => reported (net kp.1) w s | None => [] end.
Definition tick_kills now w : list (Z * ProcessSignal) :=
  range (wsessions w) ≫= fun kp => match objects w !! kp.2 with Some s => killed now s | None => [] end.

Lemma visits_eq now net (l : list (string * nat)) : forall w,
  inv w -> (forall kp, kp ∈ l -> is_Some (objects w !! kp.2)) ->
  exists w', sm_for l (fun '(id, p) => do! _ <- events []; visit_wsession now (net id) p) w = (Ok (), w') /\
    w' = set_sent (sent w ++ (l ≫= fun kp => match objects w !! kp.2 with Some s => reported (net kp.1) w s | None => [] end))
      (set_signals (signals w ++ (l ≫= fun kp => match objects w !! kp.2 with Some s => killed now s | None => [] end)) w) /\
    inv w'.
Proof using.
  induction l as [|[id p] l IH]; intros w Hi Hl.
  - exists w. split; [done|]. split; [|done]. cbn. rewrite !app_nil_r. by destruct w.
  - destruct (Hl (id, p)) as [s Hs]; [left|]. cbn in Hs. cbn [sm_for]. rewrite !sm_bind_eq. unfold events at 1.
    rewrite sm_modify_eq. cbn [foldl]. rewrite (visit_eq now (net id) p s w Hi Hs).
    destruct (IH (after_visit now (net id) s w)) as (w' & E & -> & Hi'); [by eapply visit_inv|intros kp Hin; apply Hl; by right|].
    eexists. split; [exact E|]. split; [|done]. cbn. rewrite Hs. unfold after_visit. cbn. by rewrite <- !app_assoc.
Qed.
Lemma mapped_objects w : inv w -> forall kp, kp ∈ range (wsessions w) -> is_Some (objects w !! kp.2).
Proof using. intros Hi [id p] Hin%elem_of_range. destruct (wi_map _ _ Hi id p Hin) as (s & Hs & _). by exists s. Qed.
Lemma tick_eq now net w : inv w ->
  exists w', wr_houseKeeping now net (fun _ => []) [] w = (Ok (), w') /\ sent w' = sent w ++ tick_reports net w /\
    signals w' = signals w ++ tick_kills now w /\ objects w' = objects w /\ wsessions w' = wsessions w.
Proof using.
  intros Hi. unfold wr_houseKeeping. rewrite sm_bind_eq, sm_get_eq, sm_bind_eq.
  destruct (visits_eq now net (range (wsessions w)) w Hi (mapped_objects w Hi)) as (w' & E & Hw & _). cbn beta in E. rewrite E.
  eexists. split; [reflexivity|]. subst w'. cbn. by destruct (_ && _).
Qed.

Lemma event_waiters e w p : waiters w !! p = None -> waiters (event_step e w) !! p = None.
Proof using.
  intros Hp. unfold event_step. destruct e as [pid|q|q]; repeat case_match; try done; cbn.
  - rewrite lookup_insert_ne; [done|]. intros ->. congruence.
  - rewrite lookup_delete_None. by right.
Qed.
Lemma events_waiters evs p : forall w, waiters w !! p = None -> waiters (events evs w).2 !! p = None.
Proof using. unfold events. cbn. induction evs as [|e evs IH]; intros w Hp; [done|]. by apply IH, event_waiters. Qed.
End Invariant.

Section Theorems.
Context {GR : GoRange}.

(** Nothing is left to wait for. *)
Definition all_waited w : Prop := forall id p, wsessions w !! id = Some p -> waiters w !! p = None.

Lemma events_quiet evs w : wrapper_inv false w -> stopping w = true -> all_waited w ->
  let w' := (events evs w).2 in wrapper_inv false w' /\ stopping w' = true /\ all_waited w'.
Proof.
  intros Hi Hst Hq. destruct (events_inv false evs w Hi) as [Hi' Hs]. split; [done|]. split.
  - by rewrite (same_stopping _ _ Hs).
  - intros id p. rewrite (same_map _ _ Hs). intros Hid. by eapply events_waiters, Hq.
Qed.
Lemma quiet_closed w : wrapper_inv false w -> all_waited w -> all_closed w = true.
Proof.
  intros Hi Hq. apply (all_closed_spec false w Hi). intros id p s Hid Hs.
  destruct (decide (ws_state s = STATE_CLOSED)) as [|Hne]; [done|].
  destruct (wi_open _ _ Hi p s Hs Hne) as (_ & Hw & _). destruct (Hw eq_refl) as [b Hb]. rewrite (Hq id p Hid) in Hb. done.
Qed.
Lemma quiet_tick_exits now net evs last w :
  wrapper_inv false w -> stopping w = true -> all_waited w -> exits (wr_houseKeeping now net evs last w).2 = true.
Proof.
  intros Hi Hst Hq. unfold wr_houseKeeping. rewrite sm_bind_eq, sm_get_eq, sm_bind_eq.
  assert (forall l v, (forall kp, kp ∈ l -> is_Some (objects v !! kp.2)) -> wrapper_inv false v -> stopping v = true -> all_waited v ->
    exists v', sm_for l (fun '(id, p) => do! _ <- events (evs id); visit_wsession now (net id) p) v = (Ok (), v') /\
      wrapper_inv false v' /\ stopping v' = true /\ all_waited v') as Hloop.
  { clear w Hi Hst Hq. induction l as [|[id p] l IH]; intros v Hl Hi Hst Hq; [by exists v|].
    destruct (events_quiet (evs id) v Hi Hst Hq) as (Hi1 & Hst1 & Hq1). destruct (events_inv false (evs id) v Hi) as [_ Hs].
    destruct (Hl (id, p)) as [s0 Hs0]; [left|]. destruct (same_objects _ _ Hs p s0 Hs0) as (s & Hs1 & _).
    cbn [sm_for]. rewrite !sm_bind_eq.
    change (events (evs id) v) with ((Ok (), (events (evs id) v).2) : result unit * sessionServiceClient). cbv beta iota.
    rewrite (visit_eq false now (net id) p s _ Hi1 Hs1).
    apply IH; [|by eapply visit_inv|done|done]. intros kp Hin. destruct (Hl kp) as [t Ht]; [by right|].
    destruct (same_objects _ _ Hs kp.2 t Ht) as (t' & ? & _). by exists t'. }
  destruct (Hloop (range (wsessions w)) w (mapped_objects false w Hi) Hi Hst Hq) as (w1 & E & Hi1 & Hst1 & Hq1).
  cbn beta in E. rewrite E. rewrite sm_bind_eq.
  destruct (events_quiet last w1 Hi1 Hst1 Hq1) as (Hi2 & Hst2 & Hq2).
  change (events last w1) with ((Ok (), (events last w1).2) : result unit * sessionServiceClient). cbv beta iota.
  rewrite sm_modify_eq. cbn [snd]. by rewrite Hst2, (quiet_closed _ Hi2 Hq2).
Qed.

(** A wrapper that stops keeps stopping, takes no new session and reopens none. *)
Definition not_reopened w w' : Prop := forall p s', objects w' !! p = Some s' -> ws_state s' = STATE_CLOSED \/
  exists s, objects w !! p = Some s /\ ws_state s <> STATE_CLOSED /\ ws_pid s' = ws_pid s /\
    (ws_state s' = ws_state s \/ ws_state s' = STATE_CLOSING).
Definition stays w w' : Prop := stopping w = true -> opening w = None ->
  stopping w' = true /\ opening w' = None /\ wsessions w' = wsessions w /\
  (forall x, x ∈ signals w -> x ∈ signals w') /\ not_reopened w w'.

#[export] Instance not_reopened_preorder : PreOrder not_reopened.
Proof.
  split.
  - intros w p s Hp. destruct (decide (ws_state s = STATE_CLOSED)); [by left|right]. exists s. by split; [|split; [|split; [|left]]].
  - intros w1 w2 w3 H12 H23 p s3 H3. destruct (H23 p s3 H3) as [|(s2 & H2 & N2 & E2 & C2)]; [by left|].
    destruct (H12 p s2 H2) as [|(s1 & H1 & N1 & E1 & C1)]; [done|right]. exists s1. split; [done|]. split; [done|].
    split; [congruence|]. destruct C2 as [->|]; [|by right]. by destruct C1; [left|right].
Qed.
#[export] Instance stays_preorder : PreOrder stays.
Proof.
  split; [by intros w|]. intros w1 w2 w3 H12 H23 H1 O1. destruct (H12 H1 O1) as (H2 & O2 & <- & S2 & R2).
  destruct (H23 H2 O2) as (? & ? & ? & S3 & R3). do 3 (split; [done|]). split; [by intros x ?%S2%S3|by etrans].
Qed.
Lemma same_stays w w' : stopping w' = stopping w -> opening w' = opening w -> wsessions w' = wsessions w ->
  (forall x, x ∈ signals w -> x ∈ signals w') -> not_reopened w w' -> stays w w'.
Proof. intros E1 E2 E3 H1 H2 Hs Ho. rewrite E1, E2, E3. by repeat split. Qed.
Lemma not_reopened_same w w' : objects w' = objects w -> not_reopened w w'.
Proof. unfold not_reopened. intros ->. apply (reflexivity w : not_reopened w w). Qed.
Lemma not_reopened_insert p s s' w w' : objects w' = <[p := s']> (objects w) -> objects w !! p = Some s -> ws_pid s' = ws_pid s ->
  ws_state s' = STATE_CLOSED \/ ws_state s <> STATE_CLOSED /\ ws_state s' = STATE_CLOSING ->
  not_reopened w w'.
Proof.
  intros E Hs Hp Hc q t Hq. rewrite E in Hq. apply lookup_insert_Some in Hq as [[<- <-]|[_ Ht]]; [|by apply (reflexivity w : not_reopened w w)].
  destruct Hc as [|[? ?]]; [by left|right]. exists s. by split; [|split; [|split; [|right]]].
Qed.
Lemma stays_event e w : stays w (event_step e w).
Proof.
  unfold event_step. destruct e; repeat case_match; try reflexivity; apply same_stays; try done; [by apply not_reopened_same..|].
  eapply not_reopened_insert; [reflexivity|done|done|by left].
Qed.
Lemma stays_events evs : within stays (events evs).
Proof.
  intros w. unfold events. cbn. revert w. induction evs as [|e evs IH]; intros w; [done|].
  cbn. etrans; [apply stays_event|apply IH].
Qed.
Lemma stays_session p : within stays (the_session p).
Proof. intros w. unfold the_session. by destruct (objects w !! p). Qed.
Lemma stays_frame (h : sessionServiceClient -> sessionServiceClient) :
  (forall w, stopping (h w) = stopping w /\ opening (h w) = opening w /\ wsessions (h w) = wsessions w /\
     (exists l, signals (h w) = signals w ++ l) /\ objects (h w) = objects w) -> within stays (sm_modify h).
Proof.
  intros Hh w. rewrite sm_modify_eq. cbn [snd]. destruct (Hh w) as (E1 & E2 & E3 & [l E4] & E5). apply same_stays; try done.
  - intros x Hx. rewrite E4. apply elem_of_app. by left.
  - by apply not_reopened_same.
Qed.
Lemma stays_kill pid sig : within stays (sys_Kill pid sig).
Proof. apply stays_frame. intros w. repeat split. by eexists. Qed.
Lemma stays_signal pid sig : within stays (os_Signal pid sig).
Proof. intros w. unfold os_Signal. destruct (pid =? 0); [done|]. destruct (processes w !! pid); [apply stays_kill|done]. Qed.
Lemma stays_get : within stays sm_get.
Proof. by intros w. Qed.
Lemma stays_heartbeat net p : within stays (sendHeartbeat net p).
Proof.
  apply (within_bind stays); [apply stays_session|]. intros s. apply (within_bind stays); [apply stays_get|].
  intros w0 w. unfold wrapper_PutMessage. destruct (conn w), net; [|done..]. by apply same_stays; [..|apply not_reopened_same].
Qed.
Create HintDb staysdb.
Hint Resolve stays_events stays_session stays_kill stays_signal stays_get stays_heartbeat : staysdb.
Ltac staying :=
  repeat first
    [ solve [auto with staysdb] | apply (within_bind stays); [|intros ?] | apply (within_try stays) | apply (within_ret stays)
    | apply (within_fail stays) | apply (within_lift stays) | case_match
    | apply stays_frame; intros w; repeat split; exists []; by rewrite app_nil_r ].

(** Setting a session that is not closed to closing, in a handler no event falls into. *)
Lemma stays_closing {A} p s s' (m : SM sessionServiceClient A) w :
  objects w !! p = Some s -> ws_pid s' = ws_pid s -> ws_state s <> STATE_CLOSED -> ws_state s' = STATE_CLOSING ->
  within stays m -> stays w ((do! _ <- set_session p s'; m) w).2.
Proof.
  intros Hs Hp Hn Hc Hm. rewrite sm_bind_eq. unfold set_session. rewrite sm_modify_eq. etrans; [|apply Hm].
  apply same_stays; try done. eapply not_reopened_insert; [reflexivity|done|done|by right].
Qed.
Lemma stays_visit now net p : within stays (visit_wsession now net p).
Proof. unfold visit_wsession. staying. Qed.
Hint Resolve stays_visit : staysdb.
Lemma stays_houseKeeping now net evs last : within stays (wr_houseKeeping now net evs last).
Proof.
  unfold wr_houseKeeping. staying; [|].
  - apply (within_for stays). intros [id p]. staying.
  - intros w. rewrite sm_modify_eq. cbn [snd]. destruct (_ && _); [|done]. by apply same_stays; [..|apply not_reopened_same].
Qed.
Lemma stays_stop_session now p : within stays (stop_session now [] p).
Proof.
  intros w. unfold stop_session. rewrite sm_bind_eq. unfold the_session at 1. destruct (objects w !! p) as [s|] eqn:Hs; [|done].
  destruct (negb _); [|done]. cbn [andb]. case_bool_decide as Hst; [|done]. rewrite sm_bind_eq. unfold events. rewrite sm_modify_eq.
  cbn [foldl]. rewrite sm_bind_eq. unfold the_session. rewrite Hs. eapply stays_closing; try done. apply stays_kill.
Qed.
Lemma stop_loop_eq now (evs : string -> list event) (l : list (string * nat)) w : (forall id, evs id = []) ->
  sm_for l (fun '(id, p) => stop_session now (evs id) p) w = sm_for l (fun '(id, p) => stop_session now [] p) w.
Proof.
  intros He. revert w. induction l as [|[id p] l IH]; intros w; [done|]. cbn [sm_for]. rewrite !sm_bind_eq, He.
  by destruct (stop_session now [] p w) as [[u|e] v].
Qed.
Lemma stays_stop now evs : (forall id, evs id = []) -> within stays (GracefullyStopSessions now evs).
Proof.
  intros He. unfold GracefullyStopSessions. apply (within_bind stays).
  { intros w Hst Ho. rewrite sm_modify_eq. do 4 (split; [done|]). by apply not_reopened_same. }
  intros _.
  apply (within_bind stays); [apply stays_get|]. intros w0 w. rewrite stop_loop_eq by done.
  apply (within_for stays). intros [id p]. apply stays_stop_session.
Qed.
Lemma stays_close now grace id : within stays (close_session now [] grace id).
Proof.
  unfold close_session. apply (within_bind stays); [apply stays_get|]. intros w0. destruct (wsessions w0 !! id) as [p|]; [|staying].
  intros w. rewrite sm_bind_eq. unfold the_session at 1. destruct (objects w !! p) as [s|] eqn:Hs; [|done].
  case_bool_decide as Hst; [done|]. rewrite sm_bind_eq. unfold events. rewrite sm_modify_eq.
  cbn [foldl]. rewrite sm_bind_eq. unfold the_session. rewrite Hs. eapply stays_closing; try done. apply stays_signal.
Qed.
Lemma stays_command now net msg : within stays (handleSessionCommand now net [] msg).
Proof.
  unfold handleSessionCommand. destruct (MessageBodyOf msg).
  - intros w Hst. unfold wr_open_session. rewrite Hst. by revert Hst; apply (reflexivity w : stays w w).
  - apply stays_close.
  - unfold ping_session. staying.
Qed.
Lemma stays_recv dial get received now net : within stays (recv_turn dial get received now net []).
Proof. unfold recv_turn, initGetMessageClient. staying. apply stays_command. Qed.
Lemma stays_step w w' : wrapper_step false w w' -> stays w w'.
Proof.
  intros [e|dial get received now net evs _ Hr|start Hf|net|now net evs last|now evs Hr].
  - apply stays_event.
  - rewrite (Hr eq_refl). apply stays_recv.
  - intros Hst Ho. unfold open_start. rewrite sm_modify_eq. cbn [snd]. rewrite Ho. by apply (reflexivity w : stays w w).
  - intros Hst Ho. unfold open_record. rewrite Ho. by apply (reflexivity w : stays w w).
  - apply stays_houseKeeping.
  - apply stays_stop. by apply Hr.
Qed.
Lemma stays_run w w' : rtc (wrapper_step false) w w' -> stays w w'.
Proof. induction 1; [done|]. etrans; [by eapply stays_step|done]. Qed.
Lemma run_inv racing w w' : rtc (wrapper_step racing) w w' -> wrapper_inv racing w -> wrapper_inv racing w'.
Proof. induction 1; [done|]. intros Hi. by eapply IHrtc, wrapper_step_inv. Qed.

(** Stopping every session. *)
Definition told_to_stop (now : Z) (s s' : WSession) : Prop :=
  s' = s \/ s' = set_closing now (closingGracePeriodDuration s) s /\ ws_state s <> STATE_CLOSED.
Definition stopped (now : Z) p w : Prop := exists s, objects w !! p = Some s /\
  (ws_state s = STATE_CLOSED \/
   ws_state s = STATE_CLOSING /\ closingTimestamp s = Some now /\ (ws_pid s, SIGTERM) ∈ signals w).

Lemma stop_all_effect now (l : list (string * nat)) : forall w,
  wrapper_inv false w -> (forall kp, kp ∈ l -> wsessions w !! kp.1 = Some kp.2) ->
  exists w', sm_for l (fun '(id, p) => stop_session now [] p) w = (Ok (), w') /\
    (forall p s, objects w !! p = Some s -> exists s', objects w' !! p = Some s' /\ told_to_stop now s s') /\
    (forall p, stopped now p w -> stopped now p w') /\ (forall kp, kp ∈ l -> stopped now kp.2 w').
Proof.
  induction l as [|[id p] l IH]; intros w Hi Hl.
  - exists w. split; [done|]. split; [intros p s Hs; exists s; split; [done|by left]|]. split; [done|].
    intros kp Hin. by apply elem_of_nil in Hin.
  - assert (wsessions w !! id = Some p) as Hid by (apply (Hl (id, p)); left).
    destruct (wi_map _ _ Hi id p Hid) as (s & Hs & _).
    pose proof (keep_stop_session false now [] id p w (fun _ => eq_refl) Hid Hi) as Hi1.
    pose proof (stop_session_map now [] p w) as Hm.
    cbn [sm_for]. rewrite sm_bind_eq. rewrite (stop_session_eq false now p s w Hi Hs) in *. cbn [snd] in *.
    set (w1 := if bool_decide _ then w else _) in *.
    destruct (IH w1 Hi1) as (w' & E & Hobj & Hkeep & Hall).
    { intros kp Hin. rewrite Hm. apply Hl. by right. }
    assert (stopped now p w1 /\ (forall q t, objects w !! q = Some t -> exists t', objects w1 !! q = Some t' /\ told_to_stop now t t') /\
            forall q, stopped now q w -> stopped now q w1) as (Hp & Hobj1 & Hkeep1).
    { unfold w1. case_bool_decide as Hc; cbn.
      - split; [exists s; by split; [|left]|]. split; [|done]. intros q t Hq. exists t. split; [done|by left].
      - split; [eexists; split; [apply lookup_insert_eq|]; right; cbn; repeat split; apply elem_of_app; right; left|]. split.
        + intros q t Hq. destruct (decide (p = q)) as [<-|Hne].
          * rewrite lookup_insert_eq. assert (t = s) as -> by congruence. eexists. split; [done|]. by right.
          * rewrite lookup_insert_ne by done. exists t. split; [done|by left].
        + intros q (t & Ht & Hcase). unfold stopped. cbn. destruct (decide (p = q)) as [<-|Hne].
          * rewrite lookup_insert_eq. eexists. split; [done|]. right. cbn. repeat split. apply elem_of_app. right. left.
          * rewrite lookup_insert_ne by done. exists t. split; [done|].
            destruct Hcase as [|(? & ? & ?)]; [by left|right]. repeat split; try done. apply elem_of_app. by left. }
    exists w'. split; [exact E|]. split; [|split].
    + intros q t Hq. destruct (Hobj1 q t Hq) as (t1 & Ht1 & H1). destruct (Hobj q t1 Ht1) as (t2 & Ht2 & H2).
      exists t2. split; [done|]. destruct H1 as [->|[-> Hn]]; [done|]. right. split; [|done]. by destruct H2 as [->|[-> _]].
    + intros q Hq. by apply Hkeep, Hkeep1.
    + intros kp [->|Hin]%elem_of_cons; [by apply Hkeep|by apply Hall].
Qed.

(** The tick and a session whose grace period is over. *)
Definition session_closed p w : Prop := exists s, objects w !! p = Some s /\ ws_state s = STATE_CLOSED.
Lemma event_late e p s w : objects w !! p = Some s \/ session_closed p w ->
  objects (event_step e w) !! p = Some s \/ session_closed p (event_step e w).
Proof.
  unfold session_closed. intros H. unfold event_step. destruct e as [pid|q|q]; repeat case_match; try done. cbn.
  destruct (decide (q = p)) as [->|Hne]; [|by rewrite lookup_insert_ne]. rewrite lookup_insert_eq. right. by eexists.
Qed.
Lemma events_late evs p s : forall w, objects w !! p = Some s \/ session_closed p w ->
  objects (events evs w).2 !! p = Some s \/ session_closed p (events evs w).2.
Proof. unfold events. cbn. induction evs as [|e evs IH]; intros w H; [done|]. by apply IH, event_late. Qed.
Lemma events_signals evs : forall w, signals (events evs w).2 = signals w.
Proof.
  unfold events. cbn. induction evs as [|e evs IH]; intros w; [done|]. cbn. rewrite IH.
  unfold event_step. by destruct e; repeat case_match.
Qed.
Lemma tick_kills_late racing now net evs last id p s t w :
  wrapper_inv racing w -> wsessions w !! id = Some p -> objects w !! p = Some s -> ws_state s = STATE_CLOSING ->
  closingTimestamp s = Some t -> t + closingGracePeriodDuration s < now ->
  let w' := (wr_houseKeeping now net evs last w).2 in session_closed p w' \/ (ws_pid s, SIGKILL) ∈ signals w'.
Proof.
  intros Hi Hid Hs Hst Ht Hlate. unfold wr_houseKeeping. rewrite sm_bind_eq, sm_get_eq, sm_bind_eq.
  set (over v := session_closed p v \/ (ws_pid s, SIGKILL) ∈ signals v).
  set (pending v := objects v !! p = Some s \/ over v).
  assert (forall evs v, pending v -> pending (events evs v).2 /\ (over v -> over (events evs v).2)) as Hev.
  { intros l v Hp. unfold pending, over in *. rewrite events_signals. pose proof (events_late l p s v) as H.
    split; [tauto|]. intros [Hc|]; [|by right]. left. clear Hp H. revert v Hc. unfold events. cbn.
    induction l as [|e l IH]; intros v Hc; [done|]. apply IH. destruct Hc as (s' & Hs' & Hc').
    destruct (event_late e p s' v) as [H|H]; [by left| |done]. by exists s'. }
  assert (forall l v, (forall kp, kp ∈ l -> is_Some (objects v !! kp.2)) -> wrapper_inv racing v -> pending v ->
    exists v', sm_for l (fun '(id, p) => do! _ <- events (evs id); visit_wsession now (net id) p) v = (Ok (), v') /\
      pending v' /\ (over v -> over v') /\ ((id, p) ∈ l -> over v')) as Hloop.
  { clear w Hi Hid Hs. induction l as [|[i q] l IH]; intros v Hl Hi Hp.
    - exists v. split; [done|]. split; [done|]. split; [done|]. by intros ?%elem_of_nil.
    - destruct (events_inv racing (evs i) v Hi) as [Hi1 Hsame]. destruct (Hev (evs i) v Hp) as [Hp1 Ho1].
      destruct (Hl (i, q)) as [r0 Hr0]; [left|]. destruct (same_objects _ _ Hsame q r0 Hr0) as (r & Hr & _).
      cbn [sm_for]. rewrite !sm_bind_eq.
      change (events (evs i) v) with ((Ok (), (events (evs i) v).2) : result unit * sessionServiceClient). cbv beta iota.
      set (v1 := (events (evs i) v).2) in *. rewrite (visit_eq racing now (net i) q r v1 Hi1 Hr).
      assert (over v1 -> over (after_visit now (net i) r v1)) as Ho2.
      { intros [H|H]; [by left|right]. cbn. apply elem_of_app. by left. }
      assert (pending (after_visit now (net i) r v1)) as Hp2 by (destruct Hp1 as [H|H]; [by left|right; auto]).
      destruct (IH (after_visit now (net i) r v1)) as (v' & E & Hp' & Ho' & Hin'); [|by eapply visit_inv|done|].
      { intros kp Hin. destruct (Hl kp) as [u Hu]; [by right|]. destruct (same_objects _ _ Hsame kp.2 u Hu) as (u' & ? & _). by exists u'. }
      exists v'. split; [exact E|]. split; [done|]. split; [auto|]. intros [[= -> ->]|Hin]%elem_of_cons; [|auto].
      apply Ho'. destruct Hp1 as [H|H]; [|auto]. right. cbn. apply elem_of_app. right.
      assert (r = s) as -> by congruence. unfold killed. rewrite Hst, Ht, (proj2 (Z.ltb_lt _ _)) by lia. left. }
  destruct (Hloop (range (wsessions w)) w (mapped_objects racing w Hi) Hi (or_introl Hs)) as (w1 & E & Hp1 & _ & Hin).
  cbn beta in E. rewrite E. rewrite sm_bind_eq.
  destruct (Hev last w1 Hp1) as [_ Hover]. specialize (Hover (Hin (proj2 (elem_of_range _ _ _) Hid))).
  change (events last w1) with ((Ok (), (events last w1).2) : result unit * sessionServiceClient). cbv beta iota zeta.
  rewrite sm_modify_eq. cbn [snd]. by destruct (_ && _).
Qed.

(** The wrapper leaves nothing behind when it exits.  However commands, ticks, ends of processes and the
    stop interleave, also when a process ends between a test and a write: when the wrapper exits, it is
    stopping, and unless the stop or the end of a process fell between a test and a write every session
    of its map is closed and has no process left to wait for; and every signal it ever
    sent went to the process of a session, never to its own process group. *)
Theorem wrapper_exits_clean racing w : wrapper_reachable racing w ->
  (exits w = true -> stopping w = true /\
     (racing = false -> forall id p s, wsessions w !! id = Some p -> objects w !! p = Some s ->
        ws_state s = STATE_CLOSED /\ waiters w !! p = None)) /\
  forall pid sig, (pid, sig) ∈ signals w -> pid <> 0 /\ exists p s, objects w !! p = Some s /\ ws_pid s = pid.
Proof.
  intros Hi%wrapper_reachable_inv. split; [|apply Hi]. intros Hx. destruct (wi_exit _ _ Hi Hx) as [Hst Hall].
  split; [done|]. intros Hr id p s Hid Hs. pose proof (Hall Hr id p s Hid Hs) as Hc. split; [done|]. by eapply wi_closed.
Qed.

(** What holds at the stop: every open session is asked to terminate, and the wrapper stays in a state in which
    whoever is not closed has been asked. *)
Definition asked_to_end w : Prop := forall id p s, wsessions w !! id = Some p -> objects w !! p = Some s ->
  ws_state s <> STATE_CLOSED -> ws_state s = STATE_CLOSING /\ (ws_pid s, SIGTERM) ∈ signals w.
Lemma asked_stays w w' : stopping w = true -> opening w = None -> stays w w' -> asked_to_end w -> asked_to_end w'.
Proof.
  intros Hst Ho Hs Ha id p s' Hid Hp Hn. destruct (Hs Hst Ho) as (_ & _ & Hm & Hsig & Hr). rewrite Hm in Hid.
  destruct (Hr p s' Hp) as [|(s & Hs0 & Hn0 & Hpid & Hc)]; [done|]. destruct (Ha id p s Hid Hs0 Hn0) as [Hcl Hin].
  split; [by destruct Hc; congruence|]. rewrite Hpid. by apply Hsig.
Qed.
Lemma stop_asks now w : wrapper_inv false w -> opening w = None ->
  let w1 := (GracefullyStopSessions now (fun _ => []) w).2 in
  stopping w1 = true /\ opening w1 = None /\ wsessions w1 = wsessions w /\ asked_to_end w1 /\
  forall id p s, wsessions w !! id = Some p -> objects w !! p = Some s -> ws_state s <> STATE_CLOSED ->
    (ws_pid s, SIGTERM) ∈ signals w1.
Proof.
  intros Hi Ho w1. assert (wrapper_inv false (set_stopping w)) as Hi0.
  { destruct Hi as [M O P D C N G R T E]. split; try done. cbn. intros Hx. by destruct (E Hx). }
  destruct (stop_all_effect now (range (wsessions (set_stopping w))) (set_stopping w) Hi0) as (w1' & E1 & Hobj & _ & Hall).
  { intros [id p] Hin. by apply elem_of_range in Hin. }
  assert (w1 = w1') as <- by (unfold w1, GracefullyStopSessions; rewrite sm_bind_eq, sm_modify_eq, sm_bind_eq, sm_get_eq, E1; done).
  assert (stays (set_stopping w) w1) as Hs.
  { pose proof (within_for stays (range (wsessions (set_stopping w))) (fun '(id, p) => stop_session now [] p)
      ltac:(intros [id p]; apply stays_stop_session) (set_stopping w)) as H. by rewrite E1 in H. }
  destruct (Hs eq_refl Ho) as (Hst1 & Ho1 & Hm1 & _). do 3 (split; [done|]).
  assert (forall id p s, wsessions w !! id = Some p -> objects w1 !! p = Some s -> ws_state s <> STATE_CLOSED ->
    ws_state s = STATE_CLOSING /\ (ws_pid s, SIGTERM) ∈ signals w1) as Hasked.
  { intros id p s Hid Hp Hn. destruct (Hall (id, p)) as (s' & Hs' & Hcase); [by apply elem_of_range|]. cbn in Hs'.
    assert (s' = s) as -> by congruence. destruct Hcase as [|(? & _ & ?)]; done. }
  split; [intros id p s Hid; rewrite Hm1 in Hid; by apply (Hasked id)|].
  intros id p s Hid Hp Hn. destruct (Hobj p s Hp) as (s' & Hs' & Htold).
  assert (ws_state s' <> STATE_CLOSED) as Hn' by (by destruct Htold as [->|[-> _]]).
  destruct (Hasked id p s' Hid Hs' Hn') as [_ Hin].
  destruct Htold as [->|[-> _]]; exact Hin.
Qed.

(** C34: Stopping the wrapper ends.  When the wrapper is stopped with no OPEN under way, the process of every
    open session is asked to terminate.  From then on, whatever commands, ticks and ends of processes
    come, unless a process ends exactly between a test and a write: no session is taken; every session that
    is not closed is closing, was asked to terminate and has a grace period, and a tick after that period
    kills its process unless the session is closed by then; and once the processes have been waited for the
    next tick makes the wrapper exit. *)
Theorem graceful_stop_ends now w w2 :
  wrapper_reachable false w -> opening w = None ->
  let w1 := (GracefullyStopSessions now (fun _ => []) w).2 in
  rtc (wrapper_step false) w1 w2 ->
  (forall id p s, wsessions w !! id = Some p -> objects w !! p = Some s -> ws_state s <> STATE_CLOSED ->
     (ws_pid s, SIGTERM) ∈ signals w1) /\
  stopping w2 = true /\ opening w2 = None /\ wsessions w2 = wsessions w /\
  (forall id p s, wsessions w2 !! id = Some p -> objects w2 !! p = Some s -> ws_state s <> STATE_CLOSED ->
     ws_state s = STATE_CLOSING /\ (ws_pid s, SIGTERM) ∈ signals w2 /\
     exists t, closingTimestamp s = Some t /\
       forall now2 net evs last, t + closingGracePeriodDuration s < now2 ->
         let w3 := (wr_houseKeeping now2 net evs last w2).2 in
         session_closed p w3 \/ (ws_pid s, SIGKILL) ∈ signals w3) /\
  (all_waited w2 -> forall now2 net evs last, exits (wr_houseKeeping now2 net evs last w2).2 = true).
Proof.
  intros Hi%wrapper_reachable_inv Ho w1 Hrun. destruct (stop_asks now w Hi Ho) as (Hst1 & Ho1 & Hm1 & Ha1 & Hterm).
  assert (wrapper_inv false w1) as Hi1 by (by apply keep_stopping). pose proof (run_inv false _ _ Hrun Hi1) as Hi2.
  pose proof (stays_run _ _ Hrun) as Hs. destruct (Hs Hst1 Ho1) as (Hst2 & Ho2 & Hm2 & _).
  pose proof (asked_stays _ _ Hst1 Ho1 Hs Ha1) as Ha2. split; [exact Hterm|]. split; [done|]. split; [done|].
  split; [by rewrite Hm2|]. split.
  - intros id p s Hid Hp Hn. destruct (Ha2 id p s Hid Hp Hn) as [Hc Hin]. split; [done|]. split; [done|].
    destruct (wi_open _ _ Hi2 p s Hp Hn) as (_ & _ & Ht). destruct (Ht Hc) as [t Et]. exists t. split; [done|].
    intros now2 net evs last Hlate. by eapply tick_kills_late.
  - intros Hq now2 net evs last. by apply quiet_tick_exits.
Qed.

(** ** The wrapper and the session service of the node *)

Context {CB : Type}.

(** What the ticks of a wrapper put into the session service. *)
Definition put_of (now : Z) (m : StateMessage) : svc_op CB := OpPut now (st_Session m) (Some (st_State m)).
Definition tick (now : Z) w : sessionServiceClient := (wr_houseKeeping now (fun _ => Ok ()) (fun _ => []) [] w).2.
Definition tick_puts (now : Z) w : list (svc_op CB) :=
  map (put_of now) (drop (List.length (sent w)) (sent (tick now w))).

(** A round: what else the service does, then a tick of the wrapper, which is in state [rd_wrapper]. *)
Record round := mkRound { rd_others : list (svc_op CB); rd_now : Z; rd_wrapper : sessionServiceClient }.
Definition round_ops (r : round) : list (svc_op CB) := rd_others r ++ tick_puts (rd_now r) (rd_wrapper r).

Definition check_starts (ops : list (svc_op CB)) : nat :=
  List.length (List.filter (fun op => match op with OpStart => true | _ => false end) ops).
Definition not_put (id : string) (op : svc_op CB) : Prop := match op with OpPut _ s _ => s <> id | _ => True end.
Definition good_round (id : string) (r : round) : Prop :=
  (check_starts (rd_others r) <= 3)%nat /\ Forall (not_put id) (rd_others r) /\
  wrapper_reachable true (rd_wrapper r) /\ conn (rd_wrapper r) = true /\
  exists p s, wsessions (rd_wrapper r) !! id = Some p /\ objects (rd_wrapper r) !! p = Some s /\ ws_state s <> STATE_CLOSED.

Lemma answers_others id (ops : list (svc_op CB)) : forall n rest, Forall (not_put id) ops -> (n + check_starts ops <= 3)%nat ->
  answers id (n + check_starts ops) rest -> answers id n (ops ++ rest).
Proof using.
  induction ops as [|op ops IH]; intros n rest Hops Hn Ha; [by rewrite Nat.add_0_r in Ha|].
  apply Forall_cons in Hops as [Hop Hops].
  destruct op as [? ? ? ? ?|? ? ?|? ? ? ?|? id' [st|]|?|?|? ?| |?|]; cbn in *; try (by apply IH).
  - rewrite decide_False by done. by apply IH.
  - split; [lia|]. apply IH; [done|unfold check_starts in *; lia|]. unfold check_starts in *. by rewrite Nat.add_succ_r in Ha.
Qed.

Lemma puts_others id now (ms : list StateMessage) :
  Forall (fun m => st_Session m <> id) ms -> Forall (not_put id) (map (put_of now) ms) /\ check_starts (map (put_of now) ms) = 0%nat.
Proof using. induction 1 as [|m ms Hm _ [IH1 IH2]]; [done|]. split; [by constructor|done]. Qed.
Lemma answers_tick id now ms1 m ms2 n rest :
  (n <= 3)%nat -> st_Session m = id -> st_State m <> STATE_CLOSED ->
  Forall (fun m => st_Session m <> id) ms1 -> Forall (fun m => st_Session m <> id) ms2 ->
  answers id 0 rest -> answers id n (map (put_of now) (ms1 ++ m :: ms2) ++ rest).
Proof using.
  intros Hn Hid Hst H1 H2 Hr. rewrite map_app, <- app_assoc. destruct (puts_others id now ms1 H1) as [F1 C1].
  apply answers_others; [done|rewrite C1; lia|]. rewrite C1. cbn. rewrite decide_True by done. split; [done|].
  destruct (puts_others id now ms2 H2) as [F2 C2]. apply answers_others; [done|rewrite C2; lia|]. by rewrite C2.
Qed.

(** A tick reports every session once. *)
Lemma tick_reports_split now id p s w :
  wrapper_inv true w -> conn w = true -> wsessions w !! id = Some p -> objects w !! p = Some s ->
  exists ms1 m ms2, drop (List.length (sent w)) (sent (tick now w)) = ms1 ++ m :: ms2 /\
    st_Session m = id /\ st_State m = ws_state s /\
    Forall (fun m => st_Session m <> id) ms1 /\ Forall (fun m => st_Session m <> id) ms2.
Proof using.
  intros Hi Hconn Hid Hs. destruct (tick_eq true now (fun _ => Ok ()) w Hi) as (w' & E & Hsent & _). unfold tick. rewrite E. cbn [snd].
  rewrite Hsent, drop_app_length. unfold tick_reports.
  assert ((id, p) ∈ range (wsessions w)) as Hin by (by apply elem_of_range).
  pose proof (NoDup_range_keys (wsessions w)) as Hnd. apply list_elem_of_split in Hin as (l1 & l2 & Hl). rewrite Hl in *.
  rewrite fmap_app in Hnd. apply NoDup_app in Hnd as (_ & Hd1 & [Hd2 _]%NoDup_cons). cbn in Hd1.
  assert (forall l, (forall kp, kp ∈ l -> kp ∈ l1 ++ (id, p) :: l2) -> id ∉ l.*1 -> Forall (fun m => st_Session m <> id)
    (l ≫= fun kp => match objects w !! kp.2 with Some s => reported (Ok ()) w s | None => [] end)) as Hothers.
  { intros l Hsub Hni. apply Forall_forall. intros m ([i q] & Hm & Hq)%list_elem_of_bind. cbn in Hm.
    pose proof (Hsub _ Hq) as Hq'. rewrite <- Hl in Hq'. apply elem_of_range in Hq'. destruct (wi_map _ _ Hi i q Hq') as (t & Ht & <-).
    rewrite Ht in Hm. unfold reported in Hm. rewrite Hconn in Hm. apply list_elem_of_singleton in Hm as ->. cbn.
    intros <-. apply Hni. apply list_elem_of_fmap. by exists (ws_id t, q). }
  destruct (wi_map _ _ Hi id p Hid) as (s0 & Hs0 & Hsid). assert (s0 = s) as -> by congruence.
  assert (reported (Ok ()) w s = [mkStateMessage (FormatInt (messageId w)) (ws_podId s) (ws_id s) (ws_state s)]) as Hrep
    by (unfold reported; by rewrite Hconn).
  rewrite bind_app, bind_cons. cbn [fst snd]. rewrite Hs, Hrep. cbn [app].
  do 3 eexists. split; [reflexivity|]. split; [done|]. split; [done|]. split; apply Hothers.
  - intros kp Hk. apply elem_of_app. by left.
  - intros Hid1. apply (Hd1 id Hid1). left.
  - intros kp Hk. apply elem_of_app. right. by right.
  - done.
Qed.

Lemma rounds_answer id rounds : Forall (good_round id) rounds -> answers id 0 (rounds ≫= round_ops).
Proof using.
  induction 1 as [|r rounds (Hs & Ho & Hw & Hc & p & s & Hp & Hobj & Hst) _ IH]; [done|]. rewrite bind_cons. unfold round_ops at 1.
  rewrite <- app_assoc. apply answers_others; [done|lia|].
  destruct (tick_reports_split (rd_now r) id p s (rd_wrapper r)) as (ms1 & m & ms2 & E & Hid & Hm & H1 & H2);
    [by apply wrapper_reachable_inv|done..|].
  unfold tick_puts. rewrite E. apply answers_tick; try done. congruence.
Qed.

(** C35: The ticks of the wrapper keep its sessions alive.  If between two ticks of a connected wrapper at most
    three checks of the session service start, then a session that is open in the wrapper stays registered with its
    callback, which is never told that the heartbeat is missing, whatever else the service, the other pods
    and the streams do: the wrapper need not answer a single ping. *)
Theorem wrapper_keeps_sessions_alive rounds (g : GrpcSessionService CB) id l hb :
  svc_inv g -> checking g = None ->
  sessionHeartbeats g !! id = Some l -> heartbeats g !! l = Some hb -> hb_session hb = id ->
  consectuivePingFailures hb = 0 ->
  Forall (good_round id) rounds ->
  let g' := svc_run (rounds ≫= round_ops) g in
  (exists hb', getSessionHeartbeat g' id = Some hb' /\ stateCallback hb' = stateCallback hb) /\
  exists new, reports_of id g' = reports_of id g ++ new /\
    Forall (fun x => x.1 = stateCallback hb /\ sr_SessionState x.2 <> SessionStateNoHeartbeat) new.
Proof using. intros Hi Hc Hr Hh Hs Hf Hrounds. by eapply answering_session_kept, rounds_answer. Qed.
End Theorems.

(** ** Examples and witnesses *)

#[local] Open Scope string_scope.
Abbreviation up := (Ok () : result unit).
Definition command (session : string) (body : SessionCommand) : option SessionMessage := Some (mkSessionMessage "1" "p" session body).
Definition receives (received : option SessionMessage) (now : Z) (evs : list event) w : sessionServiceClient :=
  (recv_turn up up received now up evs w).2.
Definition starts (start : result Z) w : sessionServiceClient := (open_start start w).2.
Definition records w : sessionServiceClient := (open_record up w).2.
Definition opens (session : string) (start : result Z) w : sessionServiceClient :=
  records (starts start (receives (command session (OpenSessionBody "")) 0 [] w)).
(** One session with process 100, and one whose process could not be started. *)
Definition example_wrapper : sessionServiceClient := opens "t" (Err InternalError) (opens "s" (Ok 100) NewSessionServiceClient).
Definition process_ends (pid : Z) (p : nat) : list event := [ProcessExits pid; WaitReturns p; StateClosed p].
Definition stops (now : Z) w : sessionServiceClient := (GracefullyStopSessions now (fun _ => []) w).2.
Definition ticks (now : Z) w : sessionServiceClient := (wr_houseKeeping now (fun _ => up) (fun _ => []) [] w).2.
Definition seconds (n : Z) : Z := n * 10 ^ 9.
(** The wrapper is stopped, refuses a session and ticks; after the grace period it kills, then it exits. *)
Definition example_stopped : sessionServiceClient := stops 1 example_wrapper.
Definition example_waiting : sessionServiceClient :=
  ticks (seconds 30) (receives (command "u" (OpenSessionBody "")) 2 [] example_stopped).
Definition example_killed : sessionServiceClient := ticks (seconds 70) example_waiting.
Definition example_ended : sessionServiceClient := (events (process_ends 100 0) example_killed).2.
Definition example_exited : sessionServiceClient := ticks (seconds 80) example_ended.

Lemma opens_reachable racing session start w : opening w = None ->
  starts_fresh start (receives (command session (OpenSessionBody "")) 0 [] w) ->
  wrapper_reachable racing w -> wrapper_reachable racing (opens session start w).
Proof.
  intros Ho Hf Hr. unfold wrapper_reachable in *. etrans; [exact Hr|].
  eapply rtc_l; [by apply (step_receive racing w up up (command session (OpenSessionBody "")) 0 up [])|].
  eapply rtc_l; [by apply (step_open_start racing _ start)|]. apply rtc_once, step_open_record.
Qed.
Lemma example_wrapper_reachable racing : wrapper_reachable racing example_wrapper.
Proof.
  unfold example_wrapper. apply opens_reachable; [vm_compute; reflexivity|exact I|].
  apply opens_reachable; [reflexivity|split; [lia|vm_compute; reflexivity]|]. apply rtc_refl.
Qed.
Lemma events_reachable racing evs : forall w, rtc (wrapper_step racing) w (events evs w).2.
Proof. unfold events. cbn. induction evs as [|e evs IH]; intros w; [apply rtc_refl|]. eapply rtc_l; [apply step_event|apply IH]. Qed.
Lemma example_waiting_runs : rtc (wrapper_step false) example_stopped example_waiting.
Proof.
  eapply rtc_l; [apply (step_receive false example_stopped up up (command "u" (OpenSessionBody "")) 2 up []); [vm_compute; reflexivity|done]|].
  apply rtc_once, (step_tick false _ (seconds 30) (fun _ => up) (fun _ => []) []).
Qed.
Lemma example_ended_runs : rtc (wrapper_step false) example_stopped example_ended.
Proof.
  etrans; [apply example_waiting_runs|]. eapply rtc_l; [apply (step_tick false _ (seconds 70) (fun _ => up) (fun _ => []) [])|].
  apply (events_reachable false (process_ends 100 0)).
Qed.

Lemma wrapper_exits_clean_witness :
  exits example_exited = true /\ stopping example_exited = true /\
  (forall id p s, wsessions example_exited !! id = Some p -> objects example_exited !! p = Some s ->
     ws_state s = STATE_CLOSED /\ waiters example_exited !! p = None) /\
  signals example_exited = [(100, SIGTERM); (100, SIGKILL)].
Proof.
  assert (wrapper_reachable false example_exited) as Hr.
  { unfold wrapper_reachable. etrans; [apply (example_wrapper_reachable false)|].
    eapply rtc_l; [apply (step_stop false _ 1 (fun _ => [])); intros _; split; [vm_compute; reflexivity|done]|].
    etrans; [apply example_ended_runs|]. apply rtc_once, (step_tick false _ (seconds 80) (fun _ => up) (fun _ => []) []). }
  assert (exits example_exited = true) as Hx by (vm_compute; reflexivity).
  destruct (wrapper_exits_clean false example_exited Hr) as [H _]. destruct (H Hx) as [Hst Hall].
  split; [exact Hx|]. split; [exact Hst|]. split; [exact (Hall eq_refl)|]. vm_compute. reflexivity.
Defined.

Definition closing_session : WSession := mkWSession "s" 100 "p" STATE_CLOSING DefaultClosingGracePeriodDuration (Some 1).
Lemma graceful_stop_ends_witness :
  (100, SIGTERM) ∈ signals example_stopped /\ wsessions example_waiting = wsessions example_wrapper /\
  signals example_waiting = [(100, SIGTERM)] /\ (100, SIGKILL) ∈ signals example_killed /\
  exits example_killed = false /\ exits example_exited = true.
Proof.
  assert (opening example_wrapper = None) as Ho by (vm_compute; reflexivity).
  destruct (graceful_stop_ends 1 example_wrapper example_waiting (example_wrapper_reachable false) Ho example_waiting_runs)
    as (Hterm & _ & _ & Hm & Hk & _).
  destruct (graceful_stop_ends 1 example_wrapper example_ended (example_wrapper_reachable false) Ho example_ended_runs)
    as (_ & _ & _ & _ & _ & He).
  split; [apply (Hterm "s" 0%nat (mkWSession "s" 100 "p" STATE_OPEN DefaultClosingGracePeriodDuration None));
    [vm_compute; reflexivity..|discriminate]|].
  split; [exact Hm|]. split; [vm_compute; reflexivity|]. split; [|split; [vm_compute; reflexivity|]].
  - destruct (Hk "s" 0%nat closing_session) as (_ & _ & t & Ht & Hkill); [vm_compute; reflexivity..|discriminate|].
    injection Ht as <-. destruct (Hkill (seconds 70) (fun _ => up) (fun _ => []) [] eq_refl) as [(s & Hs & Hc)|H]; [|exact H].
    exfalso. vm_compute in Hs. injection Hs as <-. discriminate Hc.
  - apply He. intros id p Hid. apply elem_of_map_to_list in Hid. vm_compute in Hid.
    repeat (apply elem_of_cons in Hid as [[= -> ->]|Hid]; [vm_compute; reflexivity|]). by apply elem_of_nil in Hid.
Defined.

(** A stop in the middle of an OPEN: the session is taken by the stopped wrapper and is not asked to end, at the
    stop or by any later tick, and the wrapper does not exit before the process ends by itself. *)
Definition taken_after_stop : sessionServiceClient :=
  records (starts (Ok 101) (stops 5 (receives (command "u" (OpenSessionBody "")) 4 [] example_wrapper))).
Example session_taken_after_stop :
  let w := ticks (seconds 1000) (events (process_ends 100 0) taken_after_stop).2 in
  stopping taken_after_stop = true /\ wsessions taken_after_stop !! "u" = Some 2%nat /\
  ws_state <$> objects w !! 2%nat = Some STATE_OPEN /\ signals w = [(100, SIGTERM)] /\ exits w = false.
Proof. vm_compute. repeat split. Qed.
Lemma taken_after_stop_reachable : wrapper_reachable true taken_after_stop.
Proof.
  unfold wrapper_reachable. etrans; [apply (example_wrapper_reachable true)|].
  eapply rtc_l; [apply (step_receive true example_wrapper up up (command "u" (OpenSessionBody "")) 4 up []); [vm_compute; reflexivity|done]|].
  eapply rtc_l; [by apply (step_stop true _ 5 (fun _ => []))|].
  eapply rtc_l; [apply (step_open_start true _ (Ok 101)); split; [lia|vm_compute; reflexivity]|]. apply rtc_once. exact (step_open_record true _ up).
Qed.

Definition example_round (now : Z) : round := mkRound (example_check now) now example_wrapper.
Lemma wrapper_keeps_sessions_alive_witness :
  let g := svc_run (map example_round [2 * minute; 3 * minute; 4 * minute; 5 * minute; 6 * minute; 7 * minute] ≫= round_ops) example_service in
  exists hb, getSessionHeartbeat g "s" = Some hb /\ stateCallback hb = 1%nat.
Proof.
  intros g.
  destruct (wrapper_keeps_sessions_alive (map example_round [2 * minute; 3 * minute; 4 * minute; 5 * minute; 6 * minute; 7 * minute])
    example_service "s" 0 (mkHeartbeat 1%nat "p" "s" 0 0)) as [H _]; try reflexivity.
  - apply example_service_inv.
  - apply Forall_forall. intros r (now & -> & _)%list_elem_of_fmap. split; [cbn; lia|]. split; [|split; [apply example_wrapper_reachable|split; [reflexivity|]]].
    + repeat (apply Forall_cons; split; [first [exact I | done]|]). by apply Forall_nil.
    + eexists 0%nat, _. split; [vm_compute; reflexivity|]. split; [vm_compute; reflexivity|]. discriminate.
  - exact H.
Defined.

(** A ping of a session whose process runs is not answered. *)
Example live_session_ignores_ping :
  handleSessionCommand 5 up [] (mkSessionMessage "2" "p" "s" PingSessionBody) example_wrapper = (Ok (), example_wrapper).
Proof. vm_compute. reflexivity. Qed.

(** A process that ends while its session is being closed leaves the session closing for good: a stopped wrapper does not exit. *)
Example closed_session_closing_again :
  let w := receives (command "s" (CloseSessionBody 1)) 5 (process_ends 100 0) example_wrapper in
  let w' := (wr_houseKeeping (seconds 80) (fun _ => up) (fun _ => []) [] (GracefullyStopSessions 6 (fun _ => []) w).2).2 in
  ws_state <$> objects w' !! 0%nat = Some STATE_CLOSING /\ processes w' = ∅ /\ waiters w' = ∅ /\ exits w' = false.
Proof. vm_compute. repeat split. Qed.

(** A session that is opened again hides the process of the first one: nobody terminates it. *)
Example reopened_session_orphans_process :
  let w := opens "s" (Ok 101) example_wrapper in
  let w' := (wr_houseKeeping (seconds 80) (fun _ => up) (fun _ => []) [] (events (process_ends 101 2)
              (GracefullyStopSessions 6 (fun _ => []) w).2).2).2 in
  exits w' = true /\ processes w' !! 100 = Some true /\ signals w' = [(101, SIGTERM)].
Proof. vm_compute. repeat split. Qed.
