(* ===== verification/CoreClient.v ===== *)
(** * The agent's connection to the control plane

    [pkg/nodeagent/fornaxcore/fornaxcore_client.go]: a goroutine keeps a stream open, opens it again when it breaks, and
    copies every message to the channels that were registered for it.  A send to a closed channel panics; the panic
    is caught and the receiver taken off the list.  Dialing, asking for the stream and reading from it are the
    network: what they return are arguments of a turn of the loop. *)

From S2P Require Import Prelude GoStrings ContainerActor.
From Stdlib Require Import String.
#[local] Open Scope go_scope.

Section CoreClient.
Context {GR : GoRange} {Msg : Type}.

Record Channel := mkChannel { ch_closed : bool; ch_messages : list Msg }.
Record fornaxCoreClient := mkCoreClient {
  cc_done : bool;
  cc_conn : bool;
  cc_getMessageClient : bool;
  receivers : gmap string nat;
  (** the channels of the program that were used; one that was not is open and empty *)
  channels : gmap nat Channel
}.
Implicit Types f : fornaxCoreClient.
Definition channel_of f (c : nat) : Channel := default (mkChannel false []) (channels f !! c).

Definition NewFornaxCoreClient : fornaxCoreClient := mkCoreClient false false false ∅ ∅.
Definition cc_GetMessage (receiver : string) (channel : nat) : SM fornaxCoreClient unit :=
  sm_modify (fun f => mkCoreClient (cc_done f) (cc_conn f) (cc_getMessageClient f) (<[receiver := channel]> (receivers f)) (channels f)).
Definition cc_set_connection (c g : bool) f : fornaxCoreClient := mkCoreClient (cc_done f) c g (receivers f) (channels f).

(** [PutMessage]: what the call returns, if there is a connection. *)
Definition cc_PutMessage (call : result unit) : SM fornaxCoreClient unit := fun f =>
  if cc_conn f then (call, f) else (Err (OtherError "FornaxCore connection is not initialized yet"), f).

Definition cc_connect (dial : result unit) : SM fornaxCoreClient unit :=
  do! _ <- sm_lift dial; sm_modify (fun f => cc_set_connection true (cc_getMessageClient f) f).
Definition cc_initGetMessageClient (dial get : result unit) : SM fornaxCoreClient unit :=
  do! f <- sm_get;
  do! _ <- (if cc_conn f then sm_ret () else cc_connect dial);
  do! _ <- sm_lift get;
  sm_modify (fun f => cc_set_connection (cc_conn f) true f).

(** [v <- msg] with its recovery: whether the send panicked. *)
Definition send_message (msg : Msg) (c : nat) : SM fornaxCoreClient bool := fun f =>
  let ch := channel_of f c in
  if ch_closed ch then (Ok true, f)
  else (Ok false, mkCoreClient (cc_done f) (cc_conn f) (cc_getMessageClient f) (receivers f)
                    (<[c := mkChannel false (ch_messages ch ++ [msg])]> (channels f))).
Fixpoint send_to_all (msg : Msg) (rs : list (string * nat)) : SM fornaxCoreClient (list string) :=
  match rs with
  | [] => sm_ret []
  | (n, v) :: rs =>
    do! panicked <- send_message msg v;
    do! panicReceivers <- send_to_all msg rs;
    sm_ret (if panicked : bool then n :: panicReceivers else panicReceivers)
  end.
Definition remove_receivers (ns : list string) : SM fornaxCoreClient unit :=
  sm_modify (fun f => mkCoreClient (cc_done f) (cc_conn f) (cc_getMessageClient f) (foldr delete (receivers f) ns) (channels f)).

(** One turn of [recvMessage]: the message that was taken from the stream. *)
Definition recvMessage_turn (dial get : result unit) (received : option Msg) : SM fornaxCoreClient (option Msg) :=
  do! f <- sm_get;
  if cc_done f then sm_ret None
  else
    do! r <- sm_try (if cc_getMessageClient f then sm_ret () else cc_initGetMessageClient dial get);
    match r with
    | Err _ => sm_ret None
    | Ok _ =>
      match received with
      | None => do! _ <- sm_modify (fun f => cc_set_connection (cc_conn f) false f); sm_ret None
      | Some msg =>
        do! f <- sm_get;
        do! panicReceivers <- send_to_all msg (range (receivers f));
        do! _ <- remove_receivers panicReceivers;
        sm_ret (Some msg)
      end
    end.

(** [Stop]: without a connection, [f.conn.Close()] dereferences nil. *)
Definition cc_Stop : SM fornaxCoreClient unit := fun f =>
  let f := mkCoreClient true (cc_conn f) (cc_getMessageClient f) (receivers f) (channels f) in
  if cc_conn f then (Ok (), f) else (Err nil_panic, f).

(** ** What the receivers get *)

Definition copies (c : nat) (rs : list (string * nat)) : nat := List.length (List.filter (fun nv => bool_decide (nv.2 = c)) rs).

Lemma send_to_all_spec msg rs : forall f,
  exists f', send_to_all msg rs f =
      (Ok (omap (fun nv : string * nat => if ch_closed (channel_of f nv.2) then Some nv.1 else None) rs), f') /\
    cc_done f' = cc_done f /\ cc_conn f' = cc_conn f /\ cc_getMessageClient f' = cc_getMessageClient f /\ receivers f' = receivers f /\
    forall c, channel_of f' c = if ch_closed (channel_of f c) then channel_of f c
              else mkChannel false (ch_messages (channel_of f c) ++ replicate (copies c rs) msg).
Proof using.
  induction rs as [|[n v] rs IH]; intros f.
  - exists f. split; [done|]. repeat (split; [done|]). intros c. destruct (channel_of f c) as [[] ms]; [done|]. cbn. by rewrite app_nil_r.
  - cbn [send_to_all]. rewrite sm_bind_eq. unfold send_message. destruct (ch_closed (channel_of f v)) eqn:Hv.
    + destruct (IH f) as (f' & E & H1 & H2 & H3 & H4 & Hc). rewrite sm_bind_eq, E. exists f'. cbn. rewrite Hv.
      repeat (split; [done|]). intros c. rewrite Hc. unfold copies. cbn. case_bool_decide as Hcv; [subst c; by rewrite Hv|done].
    + set (f1 := mkCoreClient _ _ _ _ _). destruct (IH f1) as (f' & E & H1 & H2 & H3 & H4 & Hc). rewrite sm_bind_eq, E.
      assert (forall c, channel_of f1 c = if decide (c = v) then mkChannel false (ch_messages (channel_of f v) ++ [msg]) else channel_of f c) as Hf1.
      { intros c. unfold f1, channel_of. cbn. case_decide as Hcv; [subst; by rewrite lookup_insert_eq|by rewrite lookup_insert_ne]. }
      exists f'. cbn. rewrite Hv. split.
      { rewrite sm_ret_eq. do 2 f_equal. clear -Hf1 Hv. induction rs as [|x rs IH]; [done|]. cbn. rewrite Hf1, IH.
        case_decide as Hx; [by rewrite Hx, Hv|done]. }
      repeat (split; [done|]). intros c. rewrite Hc, Hf1. unfold copies. cbn. case_decide as Hcv.
      * subst c. rewrite Hv, bool_decide_true by done. cbn. by rewrite <- app_assoc.
      * by rewrite bool_decide_false by done.
Qed.

Definition run_turns (turns : list (result unit * result unit * option Msg)) f : list Msg * fornaxCoreClient :=
  foldl (fun '(taken, f) '(dial, get, received) =>
    match recvMessage_turn dial get received f with
    | (Ok (Some msg), f') => (taken ++ [msg], f')
    | (_, f') => (taken, f')
    end) ([], f) turns.

(** The receiver [n] and nobody else listens on the open channel [c], which holds [base] and then [ms]. *)
Definition listens (n : string) (c : nat) (base ms : list Msg) f : Prop :=
  receivers f !! n = Some c /\ (forall m, receivers f !! m = Some c -> m = n) /\ channel_of f c = mkChannel false (base ++ ms).

Lemma listens_frame n c base ms f f' :
  receivers f' = receivers f -> channels f' = channels f -> listens n c base ms f -> listens n c base ms f'.
Proof using. intros E1 E2. unfold listens, channel_of. by rewrite E1, E2. Qed.

Lemma copies_one n c (m : gmap string nat) : m !! n = Some c -> (forall k, m !! k = Some c -> k = n) -> copies c (range m) = 1%nat.
Proof using.
  intros Hn Hu. unfold copies. assert ((n, c) ∈ range m) as Hin by (by apply elem_of_range).
  pose proof (NoDup_range m) as Hnd. assert (forall kv, kv ∈ range m -> kv.2 = c -> kv = (n, c)) as Hall.
  { intros [k v] Hk. cbn. intros ->. f_equal. apply Hu. by apply elem_of_range in Hk. }
  clear -Hin Hnd Hall. induction (range m) as [|x l IH]; [by apply elem_of_nil in Hin|].
  apply NoDup_cons in Hnd as [Hx Hnd]. cbn. case_bool_decide as Hc.
  - rewrite (Hall x) in Hx by (done || left). cbn. f_equal. apply length_zero_iff_nil.
    assert (forall kv, kv ∈ l -> kv.2 <> c) as Hno by (intros kv Hk Hkc; apply Hx; rewrite <- (Hall kv); [done|by right|done]).
    clear -Hno. induction l as [|y l IH]; [done|]. cbn. rewrite bool_decide_false by (apply Hno; left). apply IH. intros kv Hk. apply Hno. by right.
  - apply elem_of_cons in Hin as [<-|Hin]; [done|]. apply IH; [done|done|]. intros kv Hk. apply Hall. by right.
Qed.

Lemma init_listens dial get n c base ms f :
  listens n c base ms f -> listens n c base ms (cc_initGetMessageClient dial get f).2.
Proof using.
  intros H. unfold cc_initGetMessageClient, cc_connect. rewrite !sm_bind_eq. sm_simpl.
  destruct (cc_conn f); sm_simpl; destruct dial, get; sm_simpl; cbn; by eapply listens_frame, H.
Qed.
Lemma foldr_delete_other (m : gmap string nat) n ns : n ∉ ns -> foldr delete m ns !! n = m !! n.
Proof using.
  induction ns as [|k ns IH]; intros Hn; [done|]. apply not_elem_of_cons in Hn as [Hk Hn]. cbn.
  rewrite lookup_delete_ne by congruence. by apply IH.
Qed.
Lemma foldr_delete_some (m : gmap string nat) ns k v : foldr delete m ns !! k = Some v -> m !! k = Some v.
Proof using. induction ns as [|i ns IH]; [done|]. cbn. intros [_ H]%lookup_delete_Some. by apply IH. Qed.

Lemma turn_listens dial get received n c base ms f :
  listens n c base ms f ->
  exists taken f', recvMessage_turn dial get received f = (Ok taken, f') /\
    listens n c base (ms ++ match taken with Some msg => [msg] | None => [] end) f'.
Proof using.
  intros H. unfold recvMessage_turn. rewrite sm_bind_eq, sm_get_eq. destruct (cc_done f).
  { exists None, f. by rewrite app_nil_r. }
  rewrite sm_bind_eq. unfold sm_try.
  set (init := if cc_getMessageClient f then _ else _).
  assert (listens n c base ms (init f).2) as H1 by (unfold init; destruct (cc_getMessageClient f); [done|by apply init_listens]).
  destruct (init f) as [[u|e] f1]; cbn [snd] in H1; [|exists None, f1; by rewrite app_nil_r].
  destruct received as [msg|]; [|eexists None, _; rewrite app_nil_r; split; [reflexivity|]; by eapply listens_frame, H1].
  rewrite sm_bind_eq, sm_get_eq, sm_bind_eq. destruct (send_to_all_spec msg (range (receivers f1)) f1) as (f2 & E & _ & _ & _ & Hr & Hc).
  rewrite E, sm_bind_eq. unfold remove_receivers. rewrite sm_modify_eq, sm_ret_eq.
  eexists (Some msg), _. split; [reflexivity|]. destruct H1 as (Hn & Hu & Hch).
  split; [|split]; cbn.
  - rewrite foldr_delete_other, Hr; [done|]. intros ([k v] & Hk & Hcl)%list_elem_of_omap. cbn in Hcl.
    destruct (ch_closed (channel_of f1 v)) eqn:Hv; [|done]. injection Hcl as ->. apply elem_of_range in Hk.
    assert (v = c) as -> by congruence. by rewrite Hch in Hv.
  - intros m Hm%foldr_delete_some. rewrite Hr in Hm. by apply Hu.
  - change (channel_of (mkCoreClient (cc_done f2) (cc_conn f2) (cc_getMessageClient f2) _ (channels f2)) c) with (channel_of f2 c).
    rewrite Hc, Hch. cbn. by rewrite (copies_one n c _ Hn Hu), <- app_assoc.
Qed.

(** A receiver gets every message of the stream once and in order.  However often connecting fails and the
    stream breaks and is opened again, the channel of a receiver that keeps it open holds, after what it held before,
    exactly the messages that were taken from the stream. *)
Theorem stream_delivered_in_order turns n c base f :
  listens n c base [] f ->
  let '(taken, f') := run_turns turns f in
  receivers f' !! n = Some c /\ channel_of f' c = mkChannel false (base ++ taken).
Proof using.
  intros H. unfold run_turns.
  assert (forall ms f, listens n c base ms f -> let '(taken, f') := foldl (fun '(taken, f) '(dial, get, received) =>
    match recvMessage_turn dial get received f with
    | (Ok (Some msg), f') => (taken ++ [msg], f')
    | (_, f') => (taken, f')
    end) (ms, f) turns in receivers f' !! n = Some c /\ channel_of f' c = mkChannel false (base ++ taken)) as Hgo; [|by apply Hgo].
  clear. induction turns as [|[[dial get] received] turns IH]; intros ms f H; cbn [foldl]; [by destruct H as (? & _ & ?)|].
  destruct (turn_listens dial get received n c base ms f H) as (taken & f' & E & H'). rewrite E.
  destruct taken as [msg|]; [by apply IH|]. rewrite app_nil_r in H'. by apply IH.
Qed.
End CoreClient.
Arguments fornaxCoreClient Msg : clear implicits.

(** ** Examples and witnesses *)

#[local] Open Scope string_scope.
Definition example_client : fornaxCoreClient nat := (cc_GetMessage "FornaxCoreActor@n" 0 NewFornaxCoreClient).2.
Definition example_turns : list (result unit * result unit * option nat) :=
  [(Err InternalError, Ok (), Some 1); (Ok (), Ok (), Some 2); (Ok (), Ok (), None); (Ok (), Err InternalError, Some 3); (Ok (), Ok (), Some 4)]%nat.

Lemma stream_delivered_in_order_witness :
  (run_turns example_turns example_client).1 = [2; 4]%nat /\
  channel_of (run_turns example_turns example_client).2 0 = mkChannel false [2; 4]%nat.
Proof.
  pose proof (stream_delivered_in_order example_turns "FornaxCoreActor@n" 0 [] example_client) as H.
  assert ((run_turns example_turns example_client).1 = [2; 4]%nat) as E by (vm_compute; reflexivity).
  split; [exact E|]. destruct (run_turns example_turns example_client) as [taken f']. cbn in E. subst taken.
  destruct H as [_ H]; [|exact H]. split; [vm_compute; reflexivity|]. split; [|vm_compute; reflexivity].
  intros m Hm. apply elem_of_map_to_list in Hm. vm_compute in Hm.
  apply elem_of_cons in Hm as [[= ->]|Hm]; [reflexivity|]. by apply elem_of_nil in Hm.
Defined.

(** Stopping a client that has not connected yet dereferences nil. *)
Example stop_before_connect_panics : (cc_Stop example_client).1 = Err nil_panic.
Proof. reflexivity. Qed.
