(* ===== verification/NodeBuckets.v ===== *)
(** * Node updates and stale nodes

    [pkg/fornaxcore/node/node.go] and [pkg/fornaxcore/store/pool.go].  [NodeUpdateBucket] is a doubly linked list of arrays,
    modelled by a heap of buckets; [StaleNodeBucket] keeps the nodes refreshed since the last call of [getStaleNodes] and
    the ones of the round before.  Nothing calls them yet; [NodePool] is part of the node manager's model. *)

From S2P Require Import Prelude ContainerActor.
#[local] Open Scope Z_scope.
#[local] Open Scope go_scope.

Definition MaxlengthOfNodeUpdates : Z := 5000.

Section NodeUpdates.
Context {U : Type}.

(** [store.ArrayBucket] *)
Record ArrayBucket := mkArrayBucket { Prev : option nat; Next : option nat; Elements : list U }.
Record NodeUpdateBucket := mkNodeUpdates {
  internalGlobalRevision : Z;
  bucketHead : option nat;
  bucketTail : option nat;
  buckets : gmap nat ArrayBucket
}.
Implicit Types nub : NodeUpdateBucket.

Definition deref nub (b : option nat) : result (nat * ArrayBucket) :=
  match b with
  | Some l => match buckets nub !! l with Some a => Ok (l, a) | None => Err nil_panic end
  | None => Err nil_panic
  end.
Definition truncate : SM NodeUpdateBucket unit := fun nub =>
  if MaxlengthOfNodeUpdates <? internalGlobalRevision nub then
    match deref nub (bucketHead nub) with
    | Ok (_, h) => (Ok (), mkNodeUpdates (internalGlobalRevision nub) (Next h) (bucketTail nub) (buckets nub))
    | Err e => (Err e, nub)
    end
  else (Ok (), nub).
Definition appendUpdate (update : U) : SM NodeUpdateBucket unit :=
  do! _ <- (fun nub =>
    match deref nub (bucketTail nub) with
    | Err e => (Err e, nub)
    | Ok (t, tail) =>
      if 500 <=? Z.of_nat (List.length (Elements tail)) then
        let n := fresh (dom (buckets nub)) in
        (Ok (), mkNodeUpdates (internalGlobalRevision nub) (bucketHead nub) (Some n)
           (<[n := mkArrayBucket (Some t) None [update]]> (<[t := mkArrayBucket (Prev tail) (Some n) (Elements tail)]> (buckets nub))))
      else
        (Ok (), mkNodeUpdates (internalGlobalRevision nub) (bucketHead nub) (Some t)
           (<[t := mkArrayBucket (Prev tail) (Next tail) (Elements tail ++ [update])]> (buckets nub)))
    end);
  do! _ <- sm_modify (fun nub => mkNodeUpdates (i64 (internalGlobalRevision nub + 1)) (bucketHead nub) (bucketTail nub) (buckets nub));
  truncate.

(** A bucket list that can be used starts with one empty bucket. *)
Definition NewNodeUpdates : NodeUpdateBucket := mkNodeUpdates 0 (Some 0%nat) (Some 0%nat) {[0%nat := mkArrayBucket None None []]}.

(** The buckets from [b] to the tail [t], linked both ways, with their elements. *)
Inductive linked (h : gmap nat ArrayBucket) : option nat -> nat -> nat -> list nat -> list U -> Prop :=
  | linked_last prev b a : h !! b = Some a -> Prev a = prev -> Next a = None -> (List.length (Elements a) <= 500)%nat ->
    linked h prev b b [b] (Elements a)
  | linked_next prev b b' t bs a us : h !! b = Some a -> Prev a = prev -> Next a = Some b' -> (List.length (Elements a) <= 500)%nat -> b <> t ->
    linked h (Some b) b' t bs us -> b ∉ bs -> linked h prev b t (b :: bs) (Elements a ++ us).

Lemma linked_elem h prev b t bs us : linked h prev b t bs us -> t ∈ bs /\ b ∈ bs /\ forall x, x ∈ bs -> is_Some (h !! x).
Proof using.
  induction 1 as [prev b a Hb|prev b b' t bs a us Hb Hp Hn Hl Ht H IH Hni].
  - split; [left|]. split; [left|]. intros x Hx%list_elem_of_singleton. subst. by eexists.
  - destruct IH as (H1 & H2 & H3). split; [by right|]. split; [left|]. intros x [->|Hx]%elem_of_cons; [by eexists|by apply H3].
Qed.
(** Buckets outside the list do not matter. *)
Lemma linked_frame h h' prev b t bs us :
  (forall x, x ∈ bs -> h' !! x = h !! x) -> linked h prev b t bs us -> linked h' prev b t bs us.
Proof using.
  intros Hf. induction 1 as [prev b a Hb|prev b b' t bs a us Hb Hp Hn Hl Ht H IH Hni].
  - apply linked_last; try done. rewrite Hf; [done|left].
  - eapply linked_next; try done; [rewrite Hf; [done|left]|]. apply IH. intros x Hx. apply Hf. by right.
Qed.

Lemma linked_append h prev b t bs us a u :
  linked h prev b t bs us -> h !! t = Some a -> (List.length (Elements a) < 500)%nat ->
  linked (<[t := mkArrayBucket (Prev a) (Next a) (Elements a ++ [u])]> h) prev b t bs (us ++ [u]).
Proof using.
  intros H Ht Hlen. induction H as [prev b a0 Hb Hp Hn Hl|prev b b' t bs a0 us Hb Hp Hn Hl Hbt H IH Hni].
  - assert (a0 = a) as -> by congruence.
    apply (linked_last _ prev b (mkArrayBucket (Prev a) (Next a) (Elements a ++ [u]))); try done.
    + apply lookup_insert_eq.
    + cbn. rewrite length_app. cbn. lia.
  - rewrite <- app_assoc. eapply linked_next; [rewrite lookup_insert_ne by done; exact Hb|done|done|done|done|by apply IH|done].
Qed.
Lemma linked_grow h prev b t bs us a n u :
  linked h prev b t bs us -> h !! t = Some a -> h !! n = None ->
  linked (<[n := mkArrayBucket (Some t) None [u]]> (<[t := mkArrayBucket (Prev a) (Some n) (Elements a)]> h)) prev b n (bs ++ [n]) (us ++ [u]).
Proof using.
  intros H Ht Hn. assert (n <> t) as Hnt by congruence.
  induction H as [prev b a0 Hb Hp Hnx Hl|prev b b' t bs a0 us Hb Hp Hnx Hl Hbt H IH Hni].
  - assert (a0 = a) as -> by congruence. cbn [app].
    apply (linked_next _ prev b n n [n] (mkArrayBucket (Prev a) (Some n) (Elements a)) [u]); try done.
    + rewrite lookup_insert_ne, lookup_insert_eq by done. done.
    + apply (linked_last _ (Some b) n (mkArrayBucket (Some b) None [u])); try done; [apply lookup_insert_eq|cbn; lia].
    + intros ?%list_elem_of_singleton. congruence.
  - assert (b <> n) as Hbn by congruence. rewrite <- app_assoc. cbn [app].
    eapply linked_next; [rewrite !lookup_insert_ne by done; exact Hb|done|done|done|done|by apply IH|].
    intros [Hin|Hin%list_elem_of_singleton]%elem_of_app; [done|]. congruence.
Qed.

Definition holds (us : list U) nub : Prop := exists h t bs, bucketHead nub = Some h /\ bucketTail nub = Some t /\
  linked (buckets nub) None h t bs us /\ internalGlobalRevision nub = Z.of_nat (List.length us).

Lemma append_holds us u nub : (List.length us < 5000)%nat -> holds us nub ->
  exists nub', appendUpdate u nub = (Ok (), nub') /\ holds (us ++ [u]) nub'.
Proof using.
  intros Hlen (h & t & bs & Hh & Ht & Hl & Hr). destruct (linked_elem _ _ _ _ _ _ Hl) as (Htb & _ & Hsome).
  destruct (Hsome t Htb) as [a Ha]. unfold appendUpdate. rewrite sm_bind_eq. unfold deref at 1. rewrite Ht, Ha.
  set (nub1 := if 500 <=? Z.of_nat (List.length (Elements a)) then _ else _).
  assert (exists nub2, nub1 = (Ok (), nub2) /\ internalGlobalRevision nub2 = internalGlobalRevision nub /\
    exists t' bs', bucketHead nub2 = Some h /\ bucketTail nub2 = Some t' /\ linked (buckets nub2) None h t' bs' (us ++ [u]))
    as (nub2 & E & Hr2 & t' & bs' & Hh2 & Ht2 & Hl2).
  { unfold nub1. destruct (Z.leb_spec 500 (Z.of_nat (List.length (Elements a)))) as [Hge|Hlt]; eexists; (split; [reflexivity|]); cbn;
      (split; [done|]).
    - exists (fresh (dom (buckets nub))), (bs ++ [fresh (dom (buckets nub))]). split; [done|]. split; [done|].
      apply linked_grow; [done|done|]. apply not_elem_of_dom, is_fresh.
    - exists t, bs. split; [done|]. split; [done|]. apply linked_append; [done|done|lia]. }
  rewrite E. rewrite sm_bind_eq, sm_modify_eq. unfold truncate. cbn [internalGlobalRevision].
  rewrite Hr2, Hr. rewrite wraps_small by lia. rewrite (proj2 (Z.ltb_ge _ _)) by (unfold MaxlengthOfNodeUpdates; lia).
  eexists. split; [reflexivity|]. exists h, t', bs'. split; [done|]. split; [done|]. split; [done|]. cbn. rewrite length_app. cbn. lia.
Qed.

(** Up to the maximum nothing is dropped: after at most five thousand updates the buckets from head to tail,
    linked both ways with at most five hundred elements each, hold all of them in order. *)
Theorem updates_kept (us : list U) : (List.length us <= 5000)%nat ->
  exists nub, sm_for us appendUpdate NewNodeUpdates = (Ok (), nub) /\ holds us nub.
Proof using.
  intros Hlen. assert (holds [] NewNodeUpdates) as H0.
  { exists 0%nat, 0%nat, [0%nat]. repeat split. apply (linked_last _ None 0 (mkArrayBucket None None [])); try done. cbn. lia. }
  assert (forall us us0 nub, (List.length us0 + List.length us <= 5000)%nat -> holds us0 nub ->
    exists nub', sm_for us appendUpdate nub = (Ok (), nub') /\ holds (us0 ++ us) nub') as Hgo.
  { clear. induction us as [|u us IH]; intros us0 nub Hlen H; [exists nub; by rewrite app_nil_r|]. cbn in Hlen.
    destruct (append_holds us0 u nub) as (nub1 & E & H1); [lia|done|]. cbn [sm_for]. rewrite sm_bind_eq, E.
    destruct (IH (us0 ++ [u]) nub1) as (nub' & E' & H'); [rewrite length_app; cbn; lia|done|]. exists nub'. by rewrite <- app_assoc in H'. }
  apply (Hgo us [] NewNodeUpdates); [done|done].
Qed.
End NodeUpdates.

(** Once the maximum is passed, every update drops a whole bucket, whatever it holds: the twelfth one finds no head left. *)
Example updates_beyond_maximum :
  let '(r, nub) := sm_for (seq 0 5011) appendUpdate NewNodeUpdates in
  r = Ok () /\ bucketHead nub = None /\ (appendUpdate 0%nat nub).1 = Err nil_panic.
Proof. vm_compute. repeat split. Qed.

Lemma updates_kept_witness :
  exists nub, sm_for (seq 0 3) appendUpdate NewNodeUpdates = (Ok (), nub) /\ holds (seq 0 3) nub.
Proof. apply (updates_kept (seq 0 3)). cbn. lia. Defined.

Section StaleNodes.
Context {GR : GoRange} {N : Type} (node_name : N -> string).

Record StaleNodeBucket := mkStaleNodes { bucketStale : gmap string N; bucketRefresh : gmap string N }.
Implicit Types snb : StaleNodeBucket.

Definition refreshNode (node : N) snb : StaleNodeBucket :=
  mkStaleNodes (delete (node_name node) (bucketStale snb)) (<[node_name node := node]> (bucketRefresh snb)).
Definition getStaleNodes snb : list N * StaleNodeBucket :=
  (map snd (range (bucketStale snb)), mkStaleNodes (bucketRefresh snb) ∅).

(** Refreshes and rounds, and what the rounds returned. *)
Inductive stale_op := Refresh (node : N) | Round.
Definition stale_run (ops : list stale_op) snb : list (list N) * StaleNodeBucket :=
  foldl (fun '(out, snb) op =>
    match op with
    | Refresh node => (out, refreshNode node snb)
    | Round => let '(stales, snb) := getStaleNodes snb in (out ++ [stales], snb)
    end) ([], snb) ops.

(** The last refresh of [name], with the number of rounds since; [None] when there was none. *)
Definition last_refresh (name : string) : list stale_op -> option (N * nat) :=
  foldl (fun acc op =>
    match op with
    | Refresh node => if decide (node_name node = name) then Some (node, 0%nat) else acc
    | Round => prod_map id S <$> acc
    end) None.

Lemma last_refresh_snoc name ops op : last_refresh name (ops ++ [op]) =
  match op with
  | Refresh node => if decide (node_name node = name) then Some (node, 0%nat) else last_refresh name ops
  | Round => prod_map id S <$> last_refresh name ops
  end.
Proof using. unfold last_refresh. by rewrite foldl_app. Qed.

Definition generations (ops : list stale_op) snb : Prop := forall name node,
  (bucketRefresh snb !! name = Some node <-> last_refresh name ops = Some (node, 0%nat)) /\
  (bucketStale snb !! name = Some node <-> last_refresh name ops = Some (node, 1%nat)).

Lemma generations_step op ops snb : generations ops snb ->
  generations (ops ++ [op]) (match op with Refresh node => refreshNode node snb | Round => (getStaleNodes snb).2 end).
Proof using.
  intros H name node. destruct (H name node) as [Hr Hs]. rewrite last_refresh_snoc. destruct op as [n|]; cbn.
  - case_decide as Hn.
    + rewrite Hn, lookup_insert_eq, lookup_delete_eq. split; split; intros E; congruence.
    + by rewrite lookup_insert_ne, lookup_delete_ne by done.
  - rewrite lookup_empty. split; [|rewrite Hr].
    + split; [done|]. destruct (last_refresh name ops) as [[]|]; done.
    + destruct (last_refresh name ops) as [[m k]|]; cbn; [|done]. unfold prod_map. cbn. split; [by intros [= -> ->]|]. intros [= -> ->]. done.
Qed.
Lemma generations_run ops : generations ops (stale_run ops (mkStaleNodes ∅ ∅)).2.
Proof using.
  induction ops as [|op ops IH] using rev_ind.
  - intros name node. cbn. rewrite !lookup_empty. done.
  - unfold stale_run in *. rewrite foldl_app. cbn.
    destruct (foldl _ _ ops) as [out snb]. cbn in IH. pose proof (generations_step op ops snb IH) as H. by destruct op.
Qed.

(** A round returns exactly the nodes that were refreshed last in the round before it: a node that is refreshed in
    every round is never called stale, and one that stops is reported exactly once, by the second round after. *)
Theorem stale_after_two_rounds ops node :
  node ∈ (getStaleNodes (stale_run ops (mkStaleNodes ∅ ∅)).2).1 <-> exists name, last_refresh name ops = Some (node, 1%nat).
Proof using.
  cbn. rewrite list_elem_of_fmap. split.
  - intros ([name n] & -> & Hin%elem_of_range). exists name. by apply (generations_run ops name n).
  - intros [name H]. exists (name, node). split; [done|]. apply elem_of_range. by apply (generations_run ops name node).
Qed.
End StaleNodes.
