(* ===== verification/AgentStore.v ===== *)
(** * The database of a node agent

    [pkg/store/storage/sqlite/sqlite.go] and [pkg/nodeagent/store/storefactory.go]: one table per kind of
    object, and what the agent reads from it when it starts ([NewFornaxNode] and
    [LoadPodsFromContainerRuntime] of [pkg/nodeagent/node/node.go]).

    A table maps an identifier, its primary key, to a revision and a text.  The prepared statements run on
    the database and not in the transaction that [PutObject] and [DelObject] open, so a statement that has
    succeeded stays when a later one fails.  The node actor writes in goroutines of their own, in no
    particular order; [puts_any_order] is why that is safe.  The encoding of objects is an interface. *)

From S2P Require Import Prelude GoStrings ApiTypes Collection NodeMonitor AgentTypes.
From Stdlib Require Import String.
#[local] Open Scope Z_scope.
#[local] Open Scope go_scope.

Definition ObjectNotFound : GoError := OtherError "object not found".
Definition database_error : GoError := OtherError "database error".
Definition nil_object : GoError := OtherError "panic: nil pointer dereference".

(** [TextFromObjectFunc] and [TextToObjectFunc]: JSON *)
Class TextCodec (T : Type) := {
  TextFromObject : T -> result string;
  TextToObject : string -> result T
}.
Class TextCodecOK (T : Type) {TC : TextCodec T} := {
  text_round_trip o : exists text, TextFromObject o = Ok text /\ TextToObject text = Ok o
}.

(** ** The table *)

Abbreviation table := (gmap string (Z * string)).
(** Where the database may fail. *)
Inductive db_fault := BeginFails | InsertFails | UpdateFails | DeleteFails.
#[export] Instance db_fault_eq_dec : EqDecision db_fault.
Proof. solve_decision. Defined.

(** [insert into ...]: refused by the primary key if there is a row. *)
Definition insert_row (identifier : string) (revision : Z) (text : string) (t : table) : table :=
  match t !! identifier with
  | Some _ => t
  | None => <[identifier := (revision, text)]> t
  end.
(** [update ... where identifier = ? and revision <= ?] *)
Definition update_row (identifier : string) (revision : Z) (text : string) (t : table) : table :=
  match t !! identifier with
  | Some (r, _) => if r <=? revision then <[identifier := (revision, text)]> t else t
  | None => t
  end.

Section Store.
Context {GR : GoRange} {T : Type} {TC : TextCodec T}.

Definition PutObject (fault : option db_fault) (identifier : string) (obj : T) (revision : Z) : SM table unit := fun t =>
  match TextFromObject obj with
  | Err e => (Err e, t)
  | Ok text =>
    if bool_decide (fault = Some BeginFails) || bool_decide (fault = Some InsertFails) then (Err database_error, t)
    else
      let t := insert_row identifier revision text t in
      if bool_decide (fault = Some UpdateFails) then (Err database_error, t)
      else (Ok (), update_row identifier revision text t)
  end.

Definition DelObject (fault : option db_fault) (identifier : string) : SM table unit := fun t =>
  if bool_decide (fault = Some BeginFails) || bool_decide (fault = Some DeleteFails) then (Err database_error, t)
  else (Ok (), delete identifier t).

Definition GetObject (identifier : string) (t : table) : result T :=
  match t !! identifier with
  | None => Err ObjectNotFound
  | Some (_, text) => TextToObject text
  end.

Fixpoint read_rows (rows : list (string * (Z * string))) : result (list T) :=
  match rows with
  | [] => Ok []
  | (_, (_, text)) :: rows =>
    let? obj := TextToObject text in
    let? objs := read_rows rows in
    Ok (obj :: objs)
  end.
Definition ListObject (t : table) : result (list T) := read_rows (range t).

(** ** The newest revision wins *)

(** A write: identifier, object and revision. *)
Abbreviation write := (string * T * Z)%type.
Definition put (w : write) (t : table) : table := let '(id, o, r) := w in (PutObject None id o r t).2.
#[local] Arguments put : simpl never.
Definition puts (ws : list write) (t : table) : table := foldl (fun t w => put w t) t ws.

Context {TO : TextCodecOK T}.
Definition text_of (o : T) : string := match TextFromObject o with Ok text => text | Err _ => ""%string end.

Lemma put_eq id o r t :
  put (id, o, r) t = match t !! id with
                     | Some (r', _) => if r' <=? r then <[id := (r, text_of o)]> t else t
                     | None => <[id := (r, text_of o)]> t
                     end.
Proof using TO.
  unfold put, PutObject, text_of. destruct (text_round_trip o) as (text & -> & _).
  rewrite !bool_decide_false by done. cbn. unfold insert_row, update_row.
  destruct (t !! id) as [[r' text']|] eqn:Ht; [by rewrite Ht|].
  rewrite lookup_insert_eq, Z.leb_refl. apply insert_insert_eq.
Qed.

(** The revision and text a write leaves in its row. *)
Definition newer (row : option (Z * string)) (r : Z) (text : string) : Z * string :=
  match row with Some (r', text') => if r' <=? r then (r, text) else (r', text') | None => (r, text) end.
Lemma put_lookup id o r t k :
  put (id, o, r) t !! k = if decide (k = id) then Some (newer (t !! id) r (text_of o)) else t !! k.
Proof using TO.
  rewrite put_eq. unfold newer. case_decide as Hk; [subst k|];
    destruct (t !! id) as [[r' text']|] eqn:Ht; try case_match;
    rewrite ?lookup_insert_eq, ?lookup_insert_ne by done; congruence.
Qed.

Lemma put_comm w1 w2 t : w1.2 <> w2.2 \/ w1.1.1 <> w2.1.1 -> put w1 (put w2 t) = put w2 (put w1 t).
Proof using TO.
  destruct w1 as [[id1 o1] r1], w2 as [[id2 o2] r2]. cbn [fst snd]. intros Hne. apply map_eq. intros k.
  rewrite !put_lookup. destruct (decide (id1 = id2)) as [->|Hid].
  - case_decide; [|done]. subst k. rewrite !decide_True by done. f_equal.
    unfold newer. destruct (t !! id2) as [[r text]|]; simpl;
      repeat (match goal with |- context [?x <=? ?y] => destruct (Z.leb_spec x y) end; simpl); try done;
      destruct Hne; try done; lia.
  - repeat case_decide; congruence.
Qed.

Definition distinct_writes (ws : list write) : Prop := NoDup (map (fun w => (w.1.1, w.2)) ws).
Lemma distinct_writes_perm ws ws' : ws ≡ₚ ws' -> distinct_writes ws -> distinct_writes ws'.
Proof. unfold distinct_writes. intros Hp. by rewrite Hp. Qed.

Lemma puts_older id r text ws : forall t,
  t !! id = Some (r, text) -> (forall o' r', (id, o', r') ∈ ws -> r' < r) -> puts ws t !! id = Some (r, text).
Proof using TO.
  induction ws as [|[[j o2] r2] ws IH]; intros t Ht Hlt; [done|]. simpl. apply IH.
  - rewrite put_lookup. case_decide; [subst j|done]. rewrite Ht. simpl.
    rewrite (proj2 (Z.leb_gt _ _)); [done|]. apply (Hlt o2). left.
  - intros o' r' Hin. apply (Hlt o'). by right.
Qed.

Lemma puts_newest ws id o r : forall t,
  distinct_writes ws -> (id, o, r) ∈ ws -> (forall o' r', (id, o', r') ∈ ws -> r' <= r) ->
  (forall row, t !! id = Some row -> row.1 <= r) -> puts ws t !! id = Some (r, text_of o).
Proof using TO.
  induction ws as [|[[i o'] r'] ws IH]; intros t Hd Hin Hmax Ht; [by apply elem_of_nil in Hin|].
  simpl. apply NoDup_cons in Hd as [Hd' Hd]. apply elem_of_cons in Hin as [[= <- <- <-]|Hin].
  - apply puts_older.
    + rewrite put_lookup, decide_True by done. f_equal. unfold newer. destruct (t !! id) as [[r2 text]|] eqn:E; [|done].
      rewrite (proj2 (Z.leb_le _ _)); [done|]. by apply (Ht _ eq_refl).
    + intros o2 r2 Hin. assert (r2 <= r) by (apply (Hmax o2); by right).
      destruct (decide (r2 = r)) as [->|]; [|lia]. destruct Hd'. apply list_elem_of_fmap. by exists (id, o2, r).
  - apply IH; [done|done|intros; by eapply Hmax; right|]. intros row. rewrite put_lookup. case_decide; [|apply Ht].
    subst i. intros [= <-]. unfold newer. destruct (t !! id) as [[r0 text0]|] eqn:E.
    + case_match; simpl; [apply (Hmax o'); left|by apply (Ht _ eq_refl)].
    + simpl. apply (Hmax o'). left.
Qed.

Lemma puts_perm ws ws' : ws ≡ₚ ws' -> forall t, distinct_writes ws -> puts ws t = puts ws' t.
Proof using TO.
  induction 1 as [|w ws ws' _ IH|w1 w2 ws|ws1 ws2 ws3 H12 IH1 H23 IH2]; intros t Hd; [done| | |].
  - apply NoDup_cons in Hd as [_ Hd]. simpl. by apply IH.
  - simpl. f_equal. apply put_comm. apply NoDup_cons in Hd as [Hd _].
    destruct (decide (w1.2 = w2.2)) as [E|]; [|by left]. right. intros E'. apply Hd. rewrite E, E'. left.
  - rewrite IH1 by done. by apply IH2, (distinct_writes_perm ws1).
Qed.
Lemma newest_read ws t id o r :
  distinct_writes ws -> (id, o, r) ∈ ws -> (forall o' r', (id, o', r') ∈ ws -> r' <= r) ->
  (forall row, t !! id = Some row -> row.1 <= r) -> GetObject id (puts ws t) = Ok o.
Proof using TO.
  intros Hd Hin Hmax Ht. unfold GetObject. rewrite (puts_newest ws id o r t) by done. unfold text_of.
  destruct (text_round_trip o) as (text & -> & ->). done.
Qed.

(** The writes of the agent may reach its database in any order.  Writes with different revisions of
    an object leave the same table whichever order the goroutines get to run in, and in the row of an
    object the write with the largest revision. *)
Theorem puts_any_order (ws ws' : list write) (t : table) :
  ws ≡ₚ ws' -> distinct_writes ws ->
  puts ws t = puts ws' t /\
  forall id o r, (id, o, r) ∈ ws ->
    (forall o' r', (id, o', r') ∈ ws -> r' <= r) ->
    (forall row, t !! id = Some row -> row.1 <= r) ->
    puts ws t !! id = Some (r, text_of o) /\ GetObject id (puts ws t) = Ok o.
Proof using TO.
  intros Hp Hd. split; [by apply puts_perm|]. intros id o r Hin Hmax Ht.
  split; [by apply puts_newest|by eapply newest_read].
Qed.

End Store.

(** ** Starting again *)

Record FornaxNodeWithRevision {QL : QuantityLib} := mkNodeRevision {
  fnr_Identifier : string; fnr_Node : Node; fnr_Revision : Z
}.

Section Restart.
Context {GR : GoRange} {CG : ClientGo} {QL : QuantityLib}.
Context {NC : TextCodec FornaxNodeWithRevision} {PC : TextCodec FornaxPod}.

Definition GetNode (identifier : string) (t : table) : result FornaxNodeWithRevision := GetObject identifier t.
Definition PutNode (fault : option db_fault) (node : FornaxNodeWithRevision) (revision : Z) : SM table unit :=
  PutObject fault (fnr_Identifier node) node revision.
Definition PutPod (fault : option db_fault) (pod : FornaxPod) (revision : Z) : SM table unit :=
  PutObject fault (Identifier pod) pod revision.

(** The node takes up the identity and the revision it had; its status is filled in afterwards. *)
Definition NewFornaxNode (v1node : Node) (t : table) : result (Node * Z) :=
  match GetNode (Name v1node) t with
  | Err e => if bool_decide (e = ObjectNotFound) then Ok (v1node, 0) else Err e
  | Ok stored =>
    if bool_decide (Name (fnr_Node stored) <> Name v1node) then Ok (v1node, 0)
    else
      let m := om v1node in
      let s := om (fnr_Node stored) in
      Ok (mkObject (mkObjectMeta (om_Name m) (om_Namespace m) (om_UID s) (om_ResourceVersion s) (om_CreationTimestamp s)
            (om_DeletionTimestamp m) (om_DeletionGracePeriodSeconds m) (om_Labels m) (om_Annotations m) (om_Finalizers m))
            (Spec v1node) (Status v1node), fnr_Revision stored)
  end.

(** The write [incrementNodeRevision] starts for a revision of the node. *)
Definition node_write (w : Node * Z) : string * FornaxNodeWithRevision * Z :=
  (Name w.1, mkNodeRevision _ (Name w.1) w.1 w.2, w.2).

(** An agent that starts again goes on with the last revision it reported: once the writes of its
    revisions have reached the database, in whatever order, the node gets back the largest one, with the
    resource version that was written with it. *)
Theorem restart_resumes_revision {NO : TextCodecOK FornaxNodeWithRevision} v1node (ws ws' : list (Node * Z)) t node rev :
  Forall (fun w => Name w.1 = Name v1node) ws -> NoDup (map snd ws) -> ws ≡ₚ ws' ->
  (node, rev) ∈ ws -> Forall (fun w => w.2 <= rev) ws ->
  (forall row, t !! Name v1node = Some row -> row.1 <= rev) ->
  exists node', NewFornaxNode v1node (puts (map node_write ws') t) = Ok (node', rev) /\
    om_ResourceVersion (om node') = om_ResourceVersion (om node) /\ om_UID (om node') = om_UID (om node).
Proof.
  intros Hn Hd Hp Hin Hmax Ht.
  assert (distinct_writes (map node_write ws)) as Hdw.
  { unfold distinct_writes. rewrite map_map. apply (NoDup_fmap_1 snd). by rewrite <- list_fmap_compose. }
  assert (Name node = Name v1node) as Hname by (rewrite Forall_forall in Hn; by apply (Hn (node, rev))).
  rewrite <- (puts_perm _ _ (fmap_Permutation node_write _ _ Hp)) by done.
  unfold NewFornaxNode, GetNode.
  rewrite (newest_read _ _ _ (mkNodeRevision _ (Name node) node rev) rev).
  - cbn. rewrite bool_decide_false by (intros []; done). by eexists.
  - done.
  - rewrite <- Hname. apply list_elem_of_fmap. by exists (node, rev).
  - intros o' r' ([n r] & E & Hw)%list_elem_of_fmap. injection E as _ _ ->. rewrite Forall_forall in Hmax. by apply (Hmax (n, r)).
  - done.
Qed.

(** ** Pods found in the database *)

(** [GetPodStatus] of the container runtime: the status of every container it knows, none if it does not
    know the sandbox *)
Context {W : Type} (GetPodStatus : string -> list string -> SM W (option (gmap string CriStatus))).

Definition mark_container (statuses : gmap string CriStatus) (fpod : FornaxPod) (l : nat) : result FornaxPod :=
  match container_heap fpod !! l with
  | None => Err nil_object
  | Some v =>
    match statuses !! RuntimeContainer v with
    | Some status =>
      match fc_Status v with
      | None => Err nil_object
      | Some _ =>
        Ok (set_fp_Containers (fp_Containers fpod)
              (<[l := set_fc_Status (Some (mkContainerStatus (Some status))) v]> (container_heap fpod)) fpod)
      end
    | None =>
      Ok (set_FornaxPodState PodStateFailed (set_fp_Containers (fp_Containers fpod)
            (<[l := set_fc_State ContainerStateTerminated v]> (container_heap fpod)) fpod))
    end
  end.
Fixpoint mark_containers (statuses : gmap string CriStatus) (ls : list nat) (fpod : FornaxPod) : result FornaxPod :=
  match ls with
  | [] => Ok fpod
  | l :: ls => let? fpod := mark_container statuses fpod l in mark_containers statuses ls fpod
  end.

(** A pod from the database, and whether it counts as running. *)
Definition load_pod (fpod : FornaxPod) : SM W (bool * FornaxPod) :=
  match RuntimePod fpod with
  | None => sm_ret (false, fpod)
  | Some rp =>
    do! status <- GetPodStatus (rp_Id rp) (map RuntimeContainer (pod_containers fpod));
    match status with
    | Some statuses =>
      do! fpod <- sm_lift (mark_containers statuses (map snd (range (fp_Containers fpod))) fpod);
      sm_ret (true, fpod)
    | None =>
      sm_ret (false, set_FornaxPodState PodStateTerminated
        (set_fp_Containers (fp_Containers fpod)
           (foldr (alter (set_fc_State ContainerStateTerminated)) (container_heap fpod)
              (map snd (range (fp_Containers fpod)))) fpod))
    end
  end.

Fixpoint load_pods (pods : list FornaxPod) : SM W (list FornaxPod * list FornaxPod) :=
  match pods with
  | [] => sm_ret ([], [])
  | fpod :: pods =>
    do! (running, fpod) <- load_pod fpod;
    do! (runningPods, terminatedPods) <- load_pods pods;
    sm_ret (if running then (fpod :: runningPods, terminatedPods) else (runningPods, fpod :: terminatedPods))
  end.
Definition LoadPodsFromContainerRuntime (t : table) : SM W (list FornaxPod * list FornaxPod) :=
  do! pods <- sm_lift (ListObject t);
  load_pods pods.

(** The runtime knows the container, or its pod has failed. *)
Definition accounted (fpod : FornaxPod) (l : nat) : Prop := forall c, container_heap fpod !! l = Some c ->
  (exists status, fc_Status c = Some (mkContainerStatus (Some status))) \/
  (fc_State c = ContainerStateTerminated /\ FornaxPodState fpod = PodStateFailed).

Lemma mark_container_spec statuses fpod l fpod' :
  mark_container statuses fpod l = Ok fpod' ->
  Identifier fpod' = Identifier fpod /\ fp_Containers fpod' = fp_Containers fpod /\ accounted fpod' l /\
  forall k, accounted fpod k -> accounted fpod' k.
Proof.
  unfold mark_container. destruct (container_heap fpod !! l) as [v|] eqn:Hl; [|done].
  destruct (statuses !! RuntimeContainer v) as [st|]; [destruct (fc_Status v) as [old|]; [|done]|]; intros [= <-];
    (split; [done|]; split; [done|]; split).
  - intros c. cbn. rewrite lookup_insert_eq. intros [= <-]. left. by eexists.
  - intros k Hk c. cbn. destruct (decide (k = l)) as [->|Hne];
      [rewrite lookup_insert_eq; intros [= <-]; left; by eexists|rewrite lookup_insert_ne by done; apply Hk].
  - intros c. cbn. rewrite lookup_insert_eq. intros [= <-]. by right.
  - intros k Hk c. cbn. destruct (decide (k = l)) as [->|Hne];
      [rewrite lookup_insert_eq; intros [= <-]; by right|rewrite lookup_insert_ne by done].
    intros Hc. destruct (Hk c Hc) as [|[? _]]; auto.
Qed.
Lemma mark_containers_spec statuses ls : forall fpod fpod',
  mark_containers statuses ls fpod = Ok fpod' ->
  Identifier fpod' = Identifier fpod /\ fp_Containers fpod' = fp_Containers fpod /\
  (forall l, l ∈ ls \/ accounted fpod l -> accounted fpod' l).
Proof.
  induction ls as [|l ls IH]; intros fpod fpod' H; cbn in H.
  { injection H as <-. split; [done|]. split; [done|]. intros l [Hl|]; [by apply elem_of_nil in Hl|done]. }
  destruct (mark_container statuses fpod l) as [f1|] eqn:E1; [|done].
  destruct (mark_container_spec _ _ _ _ E1) as (I1 & C1 & A1 & K1). destruct (IH _ _ H) as (I2 & C2 & K2).
  split; [congruence|]. split; [congruence|]. intros k [[->|Hk]%elem_of_cons|Hk]; auto.
Qed.

(** What the agent makes of the pods in its database: each is taken up once.  A pod counts as running if
    the runtime knows its sandbox; then every container has a status of the runtime, or is terminated and
    the pod has failed.  It counts as terminated if it never had a sandbox or the runtime has lost it. *)
Theorem load_pods_accounts pods : forall w w' running terminated,
  load_pods pods w = (Ok (running, terminated), w') ->
  map Identifier (running ++ terminated) ≡ₚ map Identifier pods /\
  Forall (fun fpod => forall name l, fp_Containers fpod !! name = Some l -> accounted fpod l) running /\
  Forall (fun fpod => RuntimePod fpod = None \/ FornaxPodState fpod = PodStateTerminated) terminated.
Proof.
  induction pods as [|fpod pods IH]; intros w w' running terminated H; cbn [load_pods] in H; sm_simpl_in H.
  { injection H as <- <- <-. done. }
  destruct (load_pod fpod w) as [[[b f1]|e] w1] eqn:E1; [|done]. sm_simpl_in H.
  destruct (load_pods pods w1) as [[[rs ts]|e] w2] eqn:E2; [|done]. destruct (IH _ _ _ _ E2) as (P & R & Tm).
  assert (Identifier f1 = Identifier fpod /\
    (b = true -> forall name l, fp_Containers f1 !! name = Some l -> accounted f1 l) /\
    (b = false -> RuntimePod f1 = None \/ FornaxPodState f1 = PodStateTerminated)) as (I1 & A1 & T1).
  { unfold load_pod in E1. destruct (RuntimePod fpod) as [rp|] eqn:Hrp.
    2:{ sm_simpl_in E1. injection E1 as <- <- <-. split; [done|]. split; [done|by left]. }
    sm_simpl_in E1. destruct (GetPodStatus _ _ w) as [[[statuses|]|e] w0]; [| |done].
    - sm_simpl_in E1. destruct (mark_containers _ _ fpod) as [f|e] eqn:Em; [|done]. sm_simpl_in E1. injection E1 as <- <- <-.
      destruct (mark_containers_spec _ _ _ _ Em) as (Hi & Hcs & Ha). split; [done|]. split; [|done].
      intros _ name l Hl. apply Ha. left. apply list_elem_of_fmap. exists (name, l). rewrite elem_of_range. by rewrite <- Hcs.
    - sm_simpl_in E1. injection E1 as <- <- <-. split; [done|]. split; [done|by right]. }
  destruct b; sm_simpl_in H; injection H as <- <- <-; simpl.
  - split; [rewrite I1; by constructor|]. split; [constructor; [by apply A1|done]|done].
  - split; [|split; [done|constructor; [by apply T1|done]]]. rewrite fmap_app, fmap_cons, <- Permutation_middle, I1, <- fmap_app. by constructor.
Qed.

End Restart.

(** ** Witnesses *)

#[local] Instance plain_text : TextCodec string := {| TextFromObject := Ok; TextToObject := Ok |}.
#[local] Instance plain_text_ok : TextCodecOK string.
Proof. split. intros o. by exists o. Qed.

Lemma puts_any_order_witness :
  let ws := [("a", "new", 7); ("b", "other", 3); ("a", "old", 5)]%string in
  GetObject "a" (puts ws ∅) = Ok "new"%string /\ puts ws ∅ = puts (reverse ws) ∅.
Proof.
  intros ws. assert (distinct_writes ws) as Hd.
  { unfold distinct_writes, ws. simpl. repeat (apply NoDup_cons; split; [|]); try apply NoDup_nil_2; set_solver. }
  destruct (puts_any_order ws (reverse ws) ∅ (symmetry (reverse_Permutation ws)) Hd) as [Hp Hn]. split; [|exact Hp].
  apply (Hn "a" "new" 7)%string.
  - left.
  - unfold ws. intros o' r' Hin. rewrite !elem_of_cons in Hin.
    destruct Hin as [E|[E|[E|E]]]; [injection E as ? ?; lia|done|injection E as ? ?; lia|by apply elem_of_nil in E].
  - intros row Hrow. by rewrite lookup_empty in Hrow.
Defined.

(** A write that fails after its insert has succeeded is reported as failed and stays. *)
Example failed_write_stays :
  PutObject (Some UpdateFails) "a"%string "text"%string 1 ∅ = (Err database_error, {["a" := (1, "text")]}%string).
Proof. vm_compute. reflexivity. Qed.
