(* ===== verification/Actors.v ===== *)
(** * Actors and their mailboxes

    [pkg/message/actor.go]: an actor is a goroutine that handles the messages of its channel one by one.  The
    channel holds thirty messages; a send to a full channel waits, a send to a closed one panics, and the
    panic is caught.  A handler sends messages of its own while it runs: an actor is then [Busy] with the
    messages it still has to send.

    [accepted] and [handled] are the messages an actor has taken into its channel and out of it; they are not
    part of the program.  The rest of the agent's model uses mailboxes without a bound; [cyclic_sends_stuck]
    shows what the bound can do, and [ranked_sends_progress] when it does not. *)

From S2P Require Import Prelude.
#[local] Open Scope nat_scope.
#[local] Open Scope go_scope.

Definition channel_size : nat := 30.

Section Actors.
Context {Msg St : Type}.

(** [ActorMessage]; [ActorStop] is the body [None]. *)
Record ActorMessage := mkActorMessage { Sender : option nat; Body : option Msg }.

Inductive activity := Idle | Busy (pending : list (nat * ActorMessage)) | Stopped.

Record LocalChannelActor := mkActor {
  channel : list ActorMessage;
  closed : bool;
  doing : activity;
  accepted : list ActorMessage;
  handled : list ActorMessage
}.
Definition NewLocalChannelActor : LocalChannelActor := mkActor [] false Idle [] [].

(** [LocalChannelActorRef.Receive]: [None] while the sender has to wait.  The error of the caught panic is
    assigned to a variable of the inner function, so the caller gets nil. *)
Definition Receive (a : LocalChannelActor) (msg : ActorMessage) : option (result unit * LocalChannelActor) :=
  if closed a then Some (Ok (), a)
  else if List.length (channel a) <? channel_size
  then Some (Ok (), mkActor (channel a ++ [msg]) false (doing a) (accepted a ++ [msg]) (handled a))
  else None.

(** The shared objects the handlers work on, and the actors.  [messageFunc i] is the handler of actor [i]:
    its reply or error, and what it sends. *)
Record system := mkSystem { actors : gmap nat LocalChannelActor; shared : St }.
Context (messageFunc : nat -> ActorMessage -> St -> (result (option Msg) * list (nat * ActorMessage)) * St).
Implicit Types (s : system) (a : LocalChannelActor).

Definition set_actor (i : nat) a s : system := mkSystem (<[i := a]> (actors s)) (shared s).
Definition set_doing (d : activity) a : LocalChannelActor := mkActor (channel a) (closed a) d (accepted a) (handled a).

(** [OnReceive]: the reply goes to the sender. *)
Definition OnReceive (i : nat) (msg : ActorMessage) (st : St) : list (nat * ActorMessage) * St :=
  let '((r, sends), st) := messageFunc i msg st in
  (sends ++ match r, Sender msg with
            | Ok (Some reply), Some to => [(to, mkActorMessage (Some i) (Some reply))]
            | _, _ => []
            end, st).

(** The goroutine takes the next message. *)
Definition take_message (i : nat) s : option system :=
  match actors s !! i with
  | Some a =>
    match doing a, channel a with
    | Idle, msg :: rest =>
      match Body msg with
      | None => Some (set_actor i (mkActor rest true Stopped (accepted a) (handled a)) s)
      | Some _ =>
        let '(sends, st) := OnReceive i msg (shared s) in
        Some (mkSystem (<[i := mkActor rest (closed a) (Busy sends) (accepted a) (handled a ++ [msg])]> (actors s)) st)
      end
    | _, _ => None
    end
  | None => None
  end.

(** A busy actor sends its next message, or is done. *)
Definition send_next (i : nat) s : option system :=
  match actors s !! i with
  | Some a =>
    match doing a with
    | Busy [] => Some (set_actor i (set_doing Idle a) s)
    | Busy ((to, msg) :: pending) =>
      let s1 := set_actor i (set_doing (Busy pending) a) s in
      match actors s1 !! to with
      | None => Some s1
      | Some b => match Receive b msg with Some (_, b') => Some (set_actor to b' s1) | None => None end
      end
    | _ => None
    end
  | None => None
  end.

(** A goroutine outside the actors sends; [Stop] is a send of [ActorStop]. *)
Definition send_from_outside (to : nat) (msg : ActorMessage) s : option system :=
  match actors s !! to with
  | None => Some s
  | Some b => match Receive b msg with Some (_, b') => Some (set_actor to b' s) | None => None end
  end.
Definition Stop (to : nat) s : option system := send_from_outside to (mkActorMessage None None) s.

Inductive actor_step : system -> system -> Prop :=
  | takes i s s' : take_message i s = Some s' -> actor_step s s'
  | sends i s s' : send_next i s = Some s' -> actor_step s s'
  | outside to msg s s' : send_from_outside to msg s = Some s' -> actor_step s s'.

(** ** Every message once, in order *)

Definition actor_inv a : Prop :=
  Forall (fun m => is_Some (Body m)) (handled a) /\
  match doing a with
  | Stopped => closed a = true /\ exists stop, Body stop = None /\ accepted a = handled a ++ stop :: channel a
  | _ => closed a = false /\ accepted a = handled a ++ channel a
  end.
Definition all_actors (P : LocalChannelActor -> Prop) s : Prop := forall i a, actors s !! i = Some a -> P a.

Lemma all_actors_insert P i a s : P a -> all_actors P s -> all_actors P (set_actor i a s).
Proof using. intros Ha Hs j b. cbn. rewrite lookup_insert_Some. intros [[<- <-]|[_ Hj]]; [done|by eapply Hs]. Qed.
Lemma Receive_inv a msg r a' : actor_inv a -> Receive a msg = Some (r, a') -> actor_inv a'.
Proof using.
  intros [Hh Hd]. unfold Receive. destruct (closed a) eqn:Ec; [intros [= _ <-]; split; [done|]; by rewrite Ec|].
  destruct (_ <? _); [|done]. intros [= _ <-]. split; [done|]. cbn. destruct (doing a).
  - destruct Hd as [_ ->]. by rewrite <- app_assoc.
  - destruct Hd as [_ ->]. by rewrite <- app_assoc.
  - destruct Hd as [? _]. congruence.
Qed.
Lemma set_doing_inv d a : doing a <> Stopped -> d <> Stopped -> actor_inv a -> actor_inv (set_doing d a).
Proof using. intros Ha Hd [Hh Hc]. split; [done|]. cbn. destruct (doing a), d; try done. Qed.

Lemma actor_step_inv s s' : actor_step s s' -> all_actors actor_inv s -> all_actors actor_inv s'.
Proof using.
  intros Hstep Hs. destruct Hstep as [i s s' H|i s s' H|to msg s s' H].
  - unfold take_message in H. destruct (actors s !! i) as [a|] eqn:Ea; [|done]. specialize (Hs i a Ea) as Hi.
    destruct Hi as [Hh Hd]. destruct (doing a) eqn:Ed; [|done|done]. destruct (channel a) as [|msg rest] eqn:Ech; [done|].
    destruct Hd as [Hc Hacc]. destruct (Body msg) as [b|] eqn:Eb.
    + destruct (OnReceive i msg (shared s)) as [sends st]. injection H as <-.
      intros j b'. cbn. rewrite lookup_insert_Some. intros [[<- <-]|[_ Hj]]; [|by eapply Hs]. split; cbn.
      * apply Forall_app. split; [done|]. constructor; [by rewrite Eb|constructor].
      * split; [done|]. rewrite Hacc. by rewrite <- app_assoc.
    + injection H as <-. apply all_actors_insert; [|done]. split; [done|]. cbn. split; [done|]. by exists msg.
  - unfold send_next in H. destruct (actors s !! i) as [a|] eqn:Ea; [|done]. specialize (Hs i a Ea) as Hi.
    destruct (doing a) as [|[|[to msg] pending]|] eqn:Ed; [done| | |done].
    + injection H as <-. apply all_actors_insert; [|done]. apply set_doing_inv; [by rewrite Ed|done|done].
    + set (s1 := set_actor i _ s) in *.
      assert (all_actors actor_inv s1) as H1 by (apply all_actors_insert; [apply set_doing_inv; [by rewrite Ed|done|done]|done]).
      destruct (actors s1 !! to) as [b|] eqn:Eb; [|by injection H as <-].
      destruct (Receive b msg) as [[r b']|] eqn:Er; [|done]. injection H as <-.
      apply all_actors_insert; [|done]. by eapply Receive_inv, Er; eapply H1.
  - unfold send_from_outside in H. destruct (actors s !! to) as [b|] eqn:Eb; [|by injection H as <-].
    destruct (Receive b msg) as [[r b']|] eqn:Er; [|done]. injection H as <-.
    apply all_actors_insert; [|done]. by eapply Receive_inv, Er; eapply Hs.
Qed.

(** Every actor handles its messages once and in order.  However the actors take turns, what an actor
    has handled are the first messages its channel has accepted, in their order; a request to stop is the
    last message it takes, and an idle actor with an empty channel has handled all of them. *)
Theorem actor_handles_in_order s0 s i a :
  all_actors (fun a => a = NewLocalChannelActor) s0 -> rtc actor_step s0 s -> actors s !! i = Some a ->
  handled a `prefix_of` accepted a /\ Forall (fun m => is_Some (Body m)) (handled a) /\
  (closed a = true -> exists stop rest, Body stop = None /\ accepted a = handled a ++ stop :: rest) /\
  (doing a = Idle -> channel a = [] -> handled a = accepted a).
Proof using.
  intros H0 Hrun Hi. assert (all_actors actor_inv s) as Hs.
  { assert (all_actors actor_inv s0) as H1 by (intros j b Hb; rewrite (H0 j b Hb); repeat split; constructor).
    clear Hi H0. induction Hrun as [|s1 s2 s3 Hstep _ IH]; [done|]. by apply IH, (actor_step_inv s1). }
  destruct (Hs i a Hi) as [Hh Hd]. destruct (doing a) eqn:Ed.
  - destruct Hd as [Hc Hacc]. split_and!; [rewrite Hacc; by apply prefix_app_r|done|congruence|].
    intros _ He. by rewrite Hacc, He, app_nil_r.
  - destruct Hd as [Hc Hacc]. split_and!; [rewrite Hacc; by apply prefix_app_r|done|congruence|done].
  - destruct Hd as [Hc (stop & Hst & Hacc)]. split_and!; [rewrite Hacc; by apply prefix_app_r|done| |done].
    intros _. by exists stop, (channel a).
Qed.

(** ** Progress *)

Inductive internal_step : system -> system -> Prop :=
  | takes_turn i s s' : take_message i s = Some s' -> internal_step s s'
  | sends_turn i s s' : send_next i s = Some s' -> internal_step s s'.

(** An actor that has something to do. *)
Definition active a : Prop := doing a <> Stopped /\ (channel a <> [] \/ doing a <> Idle).

Section Ranked.
(** Handlers send, and reply, only to actors of a lower rank. *)
Context (rank : nat -> nat)
  (Hrank : forall i msg st to m, (to, m) ∈ (OnReceive i msg st).1 -> rank to < rank i).

Definition sends_down s : Prop := forall i a pending to m,
  actors s !! i = Some a -> doing a = Busy pending -> (to, m) ∈ pending -> rank to < rank i.

Lemma Receive_doing a msg r a' : Receive a msg = Some (r, a') -> doing a' = doing a.
Proof using. unfold Receive. destruct (closed a); [by intros [= _ <-]|]. destruct (_ <? _); [by intros [= _ <-]|done]. Qed.
Lemma sends_down_insert i a s :
  (forall pending to m, doing a = Busy pending -> (to, m) ∈ pending -> rank to < rank i) -> sends_down s -> sends_down (set_actor i a s).
Proof using. intros Ha Hs j b pending to m. cbn. rewrite lookup_insert_Some. intros [[<- <-]|[_ Hj]]; [by apply Ha|by eapply Hs]. Qed.

Lemma actor_step_sends_down s s' : actor_step s s' -> sends_down s -> sends_down s'.
Proof using Hrank.
  intros Hstep Hs. destruct Hstep as [i s s' H|i s s' H|to msg s s' H].
  - unfold take_message in H. destruct (actors s !! i) as [a|] eqn:Ea; [|done].
    destruct (doing a) eqn:Ed; [|done|done]. destruct (channel a) as [|msg rest]; [done|]. destruct (Body msg).
    + pose proof (Hrank i msg (shared s)) as Hr. destruct (OnReceive i msg (shared s)) as [sends st]. injection H as <-.
      intros j b pending to m'. cbn. rewrite lookup_insert_Some. intros [[<- <-]|[_ Hj]]; [|by eapply Hs].
      cbn. intros [= <-]. apply Hr.
    + injection H as <-. by apply sends_down_insert.
  - unfold send_next in H. destruct (actors s !! i) as [a|] eqn:Ea; [|done].
    destruct (doing a) as [|[|[to msg] pending]|] eqn:Ed; [done| | |done].
    + injection H as <-. by apply sends_down_insert.
    + set (s1 := set_actor i _ s) in *. assert (sends_down s1) as H1.
      { apply sends_down_insert; [|done]. cbn. intros p to' m' [= <-] Hin. eapply (Hs i a); [done|done|]. by right. }
      destruct (actors s1 !! to) as [b|] eqn:Eb; [|by injection H as <-].
      destruct (Receive b msg) as [[r b']|] eqn:Er; [|done]. injection H as <-. apply sends_down_insert; [|done].
      rewrite (Receive_doing _ _ _ _ Er). intros p to' m' Hp Hin. by eapply (H1 to b).
  - unfold send_from_outside in H. destruct (actors s !! to) as [b|] eqn:Eb; [|by injection H as <-].
    destruct (Receive b msg) as [[r b']|] eqn:Er; [|done]. injection H as <-. apply sends_down_insert; [|done].
    rewrite (Receive_doing _ _ _ _ Er). intros p to' m' Hp Hin. by eapply (Hs to b).
Qed.

Lemma active_progress s : all_actors actor_inv s -> sends_down s ->
  forall n i a, rank i < n -> actors s !! i = Some a -> active a -> exists s', internal_step s s'.
Proof using.
  intros Hs Hd. induction n as [|n IH]; intros i a Hn Hi [Hst Hact]; [lia|].
  destruct (doing a) as [|[|[to msg] pending]|] eqn:Ed; [| | |done].
  - destruct Hact as [Hch|]; [|done]. destruct (channel a) as [|msg rest] eqn:Ech; [done|].
    destruct (take_message i s) as [s'|] eqn:Et; [exists s'; by eapply takes_turn|].
    unfold take_message in Et. rewrite Hi, Ed, Ech in Et. destruct (Body msg); [|done].
    by destruct (OnReceive i msg (shared s)).
  - eexists. eapply (sends_turn i). unfold send_next. by rewrite Hi, Ed.
  - destruct (send_next i s) as [s'|] eqn:Es; [exists s'; by eapply sends_turn|].
    unfold send_next in Es. rewrite Hi, Ed in Es. cbn [set_actor actors] in Es.
    assert (rank to < rank i) as Hr by (eapply (Hd i a); [done|done|by left]).
    rewrite lookup_insert_ne in Es by (intros <-; lia). destruct (actors s !! to) as [b|] eqn:Eb; [|done].
    unfold Receive in Es. destruct (closed b) eqn:Ec; [done|].
    destruct (Nat.ltb_spec (List.length (channel b)) channel_size) as [|Hfull]; [done|].
    apply (IH to b); [lia|done|]. split.
    + destruct (Hs to b Eb) as [_ Hb]. intros Hbd. rewrite Hbd in Hb. destruct Hb. congruence.
    + left. intros Hnil. rewrite Hnil in Hfull. unfold channel_size in Hfull. cbn in Hfull. lia.
Qed.

(** C27: Actors whose messages only go down do not block each other.  If handlers send and reply only to
    actors of a lower rank, then in every state the actors can reach, with channels however full, one of
    them can go on as long as one of them has something to do. *)
Theorem ranked_sends_progress s0 s i a :
  all_actors (fun a => a = NewLocalChannelActor) s0 -> rtc actor_step s0 s ->
  actors s !! i = Some a -> active a -> exists s', internal_step s s'.
Proof using Hrank.
  intros H0 Hrun Hi Hact.
  assert (all_actors actor_inv s /\ sends_down s) as [Hs Hd].
  { assert (all_actors actor_inv s0 /\ sends_down s0) as H1.
    { split; [intros j b Hb; rewrite (H0 j b Hb); repeat split; constructor|].
      intros j b p to m Hb Hp. rewrite (H0 j b Hb) in Hp. done. }
    clear Hi H0. induction Hrun as [|s1 s2 s3 Hstep _ IH]; [done|]. apply IH.
    destruct H1 as [H1 H2]. split; [by apply (actor_step_inv s1)|by apply (actor_step_sends_down s1)]. }
  apply (active_progress s Hs Hd (S (rank i)) i a); [lia|done|done].
Qed.
End Ranked.
End Actors.
Arguments ActorMessage Msg : clear implicits.
Arguments LocalChannelActor Msg : clear implicits.
Arguments system Msg St : clear implicits.

(** ** Examples *)

Section Examples.
Abbreviation amsg := (ActorMessage nat).
Definition hello : amsg := mkActorMessage None (Some 0).
(** Actor 1 passes every message on to actor 0, which only counts. *)
Definition down (i : nat) (m : amsg) (st : nat) : (result (option nat) * list (nat * amsg)) * nat :=
  ((Ok None, if decide (i = 1) then [(0, m)] else []), S st).
(** Actors 0 and 1 pass every message on to each other. *)
Definition across (i : nat) (m : amsg) (st : nat) : (result (option nat) * list (nat * amsg)) * nat :=
  ((Ok None, [(1 - i, m)]), st).
Definition two : system nat nat := mkSystem {[0 := NewLocalChannelActor; 1 := NewLocalChannelActor]} 0.

Inductive amove := a_take (i : nat) | a_send (i : nat) | a_outside (to : nat) (m : amsg).
Definition amove_run f (mv : amove) (s : system nat nat) : option (system nat nat) :=
  match mv with
  | a_take i => take_message f i s
  | a_send i => send_next i s
  | a_outside to m => send_from_outside to m s
  end.
Definition moves_run f (l : list amove) (s : system nat nat) : system nat nat :=
  foldl (fun s mv => default s (amove_run f mv s)) s l.
Lemma moves_run_steps f l : forall s, rtc (actor_step f) s (moves_run f l s).
Proof.
  induction l as [|mv l IH]; intros s; [apply rtc_refl|]. cbn [moves_run foldl].
  destruct (amove_run f mv s) as [s1|] eqn:E; [|apply IH]. eapply rtc_l, IH.
  destruct mv; [by eapply takes|by eapply sends|by eapply outside].
Qed.
Lemma two_new : all_actors (fun a => a = NewLocalChannelActor) two.
Proof. intros i a. cbn. rewrite lookup_insert_Some. intros [[_ <-]|[_ Ha]]; [done|]. by apply lookup_singleton_Some in Ha as [_ <-]. Qed.

Definition example_run : system nat nat :=
  moves_run down [a_outside 1 hello; a_outside 1 hello; a_take 1; a_send 1; a_send 1; a_take 0; a_send 0;
                  a_outside 0 (mkActorMessage None None); a_take 0; a_outside 0 hello] two.
Lemma actor_handles_in_order_witness :
  exists a, actors example_run !! 0 = Some a /\ closed a = true /\ handled a = [hello] /\ handled a `prefix_of` accepted a.
Proof.
  destruct (actors example_run !! 0) as [a|] eqn:Ea; [|vm_compute in Ea; discriminate].
  destruct (actor_handles_in_order down two example_run 0 a two_new (moves_run_steps _ _ _) Ea) as (Hp & _ & _).
  exists a. split; [done|]. split; [|split; [|exact Hp]].
  - vm_compute in Ea. injection Ea as <-. reflexivity.
  - vm_compute in Ea. injection Ea as <-. reflexivity.
Defined.

Definition example_full : system nat nat :=
  moves_run down (replicate 30 (a_outside 0 hello) ++ [a_outside 1 hello; a_take 1]) two.
Lemma ranked_sends_progress_witness : exists s', internal_step down example_full s'.
Proof.
  destruct (actors example_full !! 1) as [a|] eqn:Ea; [|vm_compute in Ea; discriminate].
  apply (ranked_sends_progress down (fun i => i)) with (s0 := two) (i := 1) (a := a).
  - intros i msg st to m. unfold OnReceive, down. cbn. case_decide as Hi; cbn.
    + rewrite list_elem_of_singleton. intros [= -> _]. lia.
    + intros H. inversion H.
  - exact two_new.
  - apply moves_run_steps.
  - exact Ea.
  - vm_compute in Ea. injection Ea as <-. split; [discriminate|]. right. discriminate.
Defined.

(** Two actors that send to each other, as the actors of the node and of a pod do: once both channels are
    full and both are sending, neither goes on. *)
Definition example_stuck : system nat nat :=
  moves_run across (replicate 30 (a_outside 0 hello) ++ [a_take 0] ++ replicate 30 (a_outside 1 hello)
                    ++ [a_take 1; a_outside 0 hello; a_outside 1 hello]) two.
Lemma no_actor_no_turn (s : system nat nat) i :
  actors s !! i = None -> take_message across i s = None /\ send_next i s = None.
Proof. intros Hn. unfold take_message, send_next. by rewrite Hn. Qed.
Lemma cyclic_sends_stuck :
  rtc (actor_step across) two example_stuck /\
  (forall i, take_message across i example_stuck = None /\ send_next i example_stuck = None) /\
  exists a, actors example_stuck !! 0 = Some a /\ List.length (channel a) = 30.
Proof.
  split; [apply moves_run_steps|]. split.
  - intros i. destruct (decide (i = 0)) as [->|H0]; [split; vm_compute; reflexivity|].
    destruct (decide (i = 1)) as [->|H1]; [split; vm_compute; reflexivity|].
    apply no_actor_no_turn, not_elem_of_dom.
    assert (dom (actors example_stuck) = {[0; 1]}) as -> by (vm_compute; reflexivity). set_solver.
  - vm_compute. eexists. split; reflexivity.
Qed.

(** A message to an actor that has stopped is lost, and the sender is told that it was sent. *)
Lemma lost_message_not_reported (m : amsg) a : closed a = true -> Receive a m = Some (Ok (), a).
Proof. intros H. unfold Receive. by rewrite H. Qed.
End Examples.
