(* ===== verification/ContainerRuntime.v ===== *)
(** * The container runtime of a node

    [pkg/nodeagent/runtime/runtime.go]: the runtime service of the agent over the container runtime
    interface (CRI).  The CRI service and containerd are not part of the program: [cri_call] are the calls
    the agent makes, [CRI] runs them, and [CRIOK] states what the CRI protocol documents: identifiers are
    handed out once, what was removed does not come back, a list is complete, and removing a sandbox removes
    its containers.

    [rt_call] answers the calls of the pod actors ([agent_call]) with this service; the theorem
    [runtime_serves_pods] says that it is the runtime the theorems of [PodLifecycle] ask for. *)

From S2P Require Import Prelude GoStrings ApiTypes Interfaces AgentTypes ContainerActor PodActor PodLifecycle.
From Stdlib Require Import String.
#[local] Open Scope Z_scope.
#[local] Open Scope go_scope.

(** ** The container runtime interface *)

Record CriContainer := mkCriContainer {
  crc_Id : string;
  crc_PodSandboxId : string;
  crc_Name : string;
  crc_State : CriState
}.
(** [PodSandboxStatus], its network *)
Record SandboxStatus := mkSandboxStatus { net_Ip : string; net_AdditionalIps : list string }.

Inductive cri_call : Type -> Type :=
  | cri_Status : cri_call (option (list (string * bool)))
  | cri_RunPodSandbox : string -> string -> cri_call string
  | cri_ListPodSandbox : option string -> cri_call (list string)
  | cri_PodSandboxStatus : string -> cri_call SandboxStatus
  | cri_StopPodSandbox : string -> cri_call unit
  | cri_RemovePodSandbox : string -> cri_call unit
  | cri_CreateContainer : string -> string -> cri_call string
  | cri_ListContainers : option string -> option string -> cri_call (list CriContainer)
  | cri_ContainerStatus : string -> cri_call (option CriStatus)
  | cri_StartContainer : string -> cri_call unit
  | cri_StopContainer : string -> Z -> cri_call unit
  | cri_RemoveContainer : string -> cri_call unit
  | cri_ExecSync : string -> list string -> Z -> cri_call (string * string)
  | task_Kill : string -> Z -> cri_call unit.

Class CRI (W : Type) := { cri : forall {A}, cri_call A -> SM W A }.
#[export] Hint Mode CRI ! : typeclass_instances.

Definition creates_in (s : string) {A} (c : cri_call A) : bool :=
  match c with cri_CreateContainer s' _ => bool_decide (s' = s) | _ => false end.

(** [runtime.Pod]; a nil map is [None]. *)
Record RtPod := mkRtPod {
  rtp_Id : string;
  rtp_IPs : list string;
  rtp_SandboxConfig : string;
  rtp_Sandbox : option string;
  rtp_Containers : option (gmap string CriContainer)
}.
(** [runtime.Container] *)
Record RtContainer := mkRtContainer { rtc_Id : string; rtc_ContainerConfig : string; rtc_Container : option CriContainer }.
(** [runtime.PodStatus] *)
Record PodStatusT := mkPodStatusT { SandboxStatusOf : SandboxStatus; ContainerStatuses : gmap string (option CriStatus) }.

(** [util.NotFoundError] *)
Definition is_not_found (e : GoError) : bool := bool_decide (e = NotFoundError).

Section Runtime.
Context {GR : GoRange} {W : Type} {RT : CRI W}.

Definition rt_GetPodSandbox (podSandboxID : string) : SM W (option string) :=
  do! sandboxes <- cri (cri_ListPodSandbox (Some podSandboxID));
  sm_ret (head sandboxes).

Definition rt_GetRuntimeStatus : SM W (list (string * bool)) :=
  do! status <- cri cri_Status;
  match status with
  | Some conditions =>
    if (List.length conditions <? 2)%nat then sm_fail (OtherError "RuntimeReady or NetworkReady condition are not set")
    else sm_ret conditions
  | None => sm_fail (OtherError "RuntimeReady or NetworkReady condition are not set")
  end.

(** The caller drops the container that is returned beside an error. *)
Definition rt_CreateContainer (podSandboxID containerConfig : string) : SM W RtContainer :=
  do! containerId <- cri (cri_CreateContainer podSandboxID containerConfig);
  do! containers <- cri (cri_ListContainers (Some containerId) (Some podSandboxID));
  match containers with
  | [c] => sm_ret (mkRtContainer containerId containerConfig (Some c))
  | _ => sm_fail (OtherError "Do not get exact one container with id")
  end.

Definition getPodSandboxStatus (podSandboxID : string) : SM W SandboxStatus := cri (cri_PodSandboxStatus podSandboxID).
Definition getAllContainers : SM W (list CriContainer) := cri (cri_ListContainers None None).
Definition getPodContainers (podSandboxID : string) : SM W (list CriContainer) :=
  cri (cri_ListContainers None (Some podSandboxID)).

Definition sandbox_ips (s : SandboxStatus) : list string :=
  filter (fun ip => ip <> ""%string) (net_Ip s :: net_AdditionalIps s).

Definition rt_CreateSandbox (sandboxConfig runtimeClassName : string) : SM W RtPod :=
  do! podSandBoxID <- cri (cri_RunPodSandbox sandboxConfig runtimeClassName);
  do! sandboxes <- cri (cri_ListPodSandbox (Some podSandBoxID));
  match sandboxes with
  | [sandbox] =>
    do! sandboxStatus <- getPodSandboxStatus podSandBoxID;
    sm_ret (mkRtPod podSandBoxID (sandbox_ips sandboxStatus) sandboxConfig (Some sandbox) (Some ∅))
  | _ => sm_fail (OtherError "Do not get exact one pod sandbox with id")
  end.

Definition rt_GetContainerStatus (containerId : string) : SM W ContainerStatus :=
  do! response <- cri (cri_ContainerStatus containerId);
  sm_ret (mkContainerStatus response).

Fixpoint container_statuses (containerIDs : list string) (m : gmap string (option CriStatus)) :
    SM W (gmap string (option CriStatus)) :=
  match containerIDs with
  | [] => sm_ret m
  | v :: containerIDs =>
    do! r <- sm_try (rt_GetContainerStatus v);
    match r with
    | Ok s => container_statuses containerIDs (<[v := RuntimeStatus s]> m)
    | Err e => if is_not_found e then container_statuses containerIDs m else sm_fail e
    end
  end.
Definition rt_GetPodStatus (podSandboxID : string) (containerIDs : list string) : SM W (option PodStatusT) :=
  do! r <- sm_try (getPodSandboxStatus podSandboxID);
  match r with
  | Err e => if is_not_found e then sm_ret None else sm_fail e
  | Ok sandboxStatus =>
    do! m <- container_statuses containerIDs ∅;
    sm_ret (Some (mkPodStatusT sandboxStatus m))
  end.

Fixpoint sandbox_pods (sandboxes : list string) (podsMap : gmap string RtPod) : SM W (gmap string RtPod) :=
  match sandboxes with
  | [] => sm_ret podsMap
  | v :: sandboxes =>
    do! sandboxStatus <- getPodSandboxStatus v;
    sandbox_pods sandboxes (<[v := mkRtPod v (sandbox_ips sandboxStatus) "" (Some v) None]> podsMap)
  end.
(** [pod.Containers[name] = v]: the map of a pod made here is nil. *)
Fixpoint file_containers (containers : list CriContainer) (podsMap : gmap string RtPod) : result (gmap string RtPod) :=
  match containers with
  | [] => Ok podsMap
  | v :: containers =>
    match podsMap !! crc_PodSandboxId v with
    | None => file_containers containers podsMap
    | Some pod =>
      match rtp_Containers pod with
      | None => Err nil_panic
      | Some m => file_containers containers (<[crc_PodSandboxId v := mkRtPod (rtp_Id pod) (rtp_IPs pod)
          (rtp_SandboxConfig pod) (rtp_Sandbox pod) (Some (<[crc_Name v := v]> m))]> podsMap)
      end
    end
  end.
Definition rt_GetPods (includeContainers : bool) : SM W (list RtPod) :=
  do! response <- cri (cri_ListPodSandbox None);
  do! podsMap <- sandbox_pods response ∅;
  if includeContainers then
    do! containers <- getAllContainers;
    do! podsMap <- sm_lift (file_containers containers podsMap);
    sm_ret (map snd (range podsMap))
  else sm_ret (map snd (range podsMap)).

(** [int64(timeout.Seconds())] *)
Definition rt_StopContainer (containerID : string) (timeout : Z) : SM W unit :=
  do! r <- sm_try (cri (cri_StopContainer containerID (timeout ÷ 10 ^ 9)));
  match r with
  | Err e => if is_not_found e then sm_ret () else sm_fail e
  | Ok _ => sm_ret ()
  end.
Definition rt_StartContainer (containerID : string) : SM W unit := cri (cri_StartContainer containerID).

Definition rt_TerminateContainer (containerID : string) : SM W unit :=
  do! r <- sm_try (rt_GetContainerStatus containerID);
  match r with
  | Err e => if is_not_found e then sm_ret () else sm_fail e
  | Ok status =>
    match RuntimeStatus status with
    | None => sm_fail nil_panic
    | Some s =>
      do! _ <- (if bool_decide (cri_State s = CONTAINER_RUNNING) then cri (cri_StopContainer containerID 0) else sm_ret ());
      cri (cri_RemoveContainer containerID)
    end
  end.

Definition remove_listed (v : CriContainer) : SM W unit :=
  do! _ <- (if bool_decide (crc_State v <> CONTAINER_EXITED) then rt_TerminateContainer (crc_Id v) else sm_ret ());
  cri (cri_RemoveContainer (crc_Id v)).
(** [err] of a call on a sandbox that is not found is dropped, and the function returns. *)
Definition rt_TerminatePod (podSandboxID : string) (containerIDs : list string) : SM W unit :=
  do! _ <- match containerIDs with
           | [] => do! containers <- getPodContainers podSandboxID; sm_for containers remove_listed
           | _ => sm_ret ()
           end;
  do! r <- sm_try (cri (cri_StopPodSandbox podSandboxID));
  match r with
  | Err e => if is_not_found e then sm_ret () else sm_fail e
  | Ok _ =>
    do! r <- sm_try (cri (cri_RemovePodSandbox podSandboxID));
    match r with
    | Err e => if is_not_found e then sm_ret () else sm_fail e
    | Ok _ => sm_ret ()
    end
  end.

(** Signals 19 and 18 stop and continue the processes of a container. *)
Definition rt_HibernateContainer (containerID : string) : SM W unit := cri (task_Kill containerID 19).
Definition rt_WakeupContainer (containerID : string) : SM W unit := cri (task_Kill containerID 18).
Definition rt_ExecCommand (containerID : string) (cmd : list string) (timeout : Z) : SM W (string * string) :=
  cri (cri_ExecSync containerID cmd timeout).
End Runtime.

(** ** What CRI documents *)

Class CRIOK (W : Type) {RT : CRI W} := {
  (** a container or sandbox is there; its identifier has been handed out; a container is in a sandbox *)
  cri_lives : string -> W -> Prop;
  cri_used : string -> W -> Prop;
  cri_inside : string -> string -> W -> Prop;
  inside_lives s id w : cri_inside s id w -> cri_lives id w;
  inside_used s id w : cri_inside s id w -> cri_used id w;
  cri_keeps_used A (c : cri_call A) w id : cri_used id w -> cri_used id (cri c w).2;
  cri_not_revived A (c : cri_call A) w id : cri_used id w -> cri_lives id (cri c w).2 -> cri_lives id w;
  cri_only_create_fills A (c : cri_call A) w s id :
    creates_in s c = false -> cri_inside s id (cri c w).2 -> cri_inside s id w;
  create_used s config w id w' : cri (cri_CreateContainer s config) w = (Ok id, w') -> cri_used id w';
  run_used config h w s w' : cri (cri_RunPodSandbox config h) w = (Ok s, w') -> cri_used s w';
  list_used f w l w' s : cri (cri_ListPodSandbox f) w = (Ok l, w') -> s ∈ l -> cri_used s w';
  list_complete_in s w l w' id :
    cri (cri_ListContainers None (Some s)) w = (Ok l, w') -> cri_inside s id w -> exists c, c ∈ l /\ crc_Id c = id;
  remove_gone id w w' : cri (cri_RemoveContainer id) w = (Ok (), w') -> ~ cri_lives id w';
  status_missing id w w' : cri (cri_ContainerStatus id) w = (Err NotFoundError, w') -> ~ cri_lives id w';
  remove_sandbox_gone s w w' : cri (cri_RemovePodSandbox s) w = (Ok (), w') -> ~ cri_lives s w';
  stop_missing s w w' : cri (cri_StopPodSandbox s) w = (Err NotFoundError, w') -> ~ cri_lives s w';
  remove_missing s w w' : cri (cri_RemovePodSandbox s) w = (Err NotFoundError, w') -> ~ cri_lives s w'
}.

Section Sandboxes.
Context {W : Type} {RT : CRI W} {RO : CRIOK W}.

(** Nothing comes back, and nothing new is in the sandbox [s]. *)
Record settles (s : string) (w w' : W) : Prop := {
  settles_used id : cri_used id w -> cri_used id w';
  settles_lives id : cri_used id w -> cri_lives id w' -> cri_lives id w;
  settles_inside id : cri_inside s id w' -> cri_inside s id w
}.
#[export] Instance settles_preorder s : PreOrder (settles s).
Proof. split; [by intros w; split|]. intros w1 w2 w3 [] []. split; naive_solver. Qed.

Lemma cri_settles s {A} (c : cri_call A) : creates_in s c = false -> within (settles s) (cri c).
Proof.
  intros Hc w. split; intros id.
  - apply cri_keeps_used.
  - apply cri_not_revived.
  - by apply cri_only_create_fills.
Qed.

(** Follows the structure of a computation down to its calls. *)
Ltac settle :=
  repeat first [ by apply cri_settles | apply (within_ret _) | apply (within_fail _) | apply within_try
               | apply (within_bind _); [|intros ?] | case_match ].

Lemma GetContainerStatus_settles s id : within (settles s) (rt_GetContainerStatus id).
Proof. unfold rt_GetContainerStatus. settle. Qed.
Lemma TerminateContainer_settles s id : within (settles s) (rt_TerminateContainer id).
Proof. unfold rt_TerminateContainer, rt_GetContainerStatus. settle. Qed.

(** A container that was terminated is gone. *)
Lemma TerminateContainer_gone id w w' : rt_TerminateContainer id w = (Ok (), w') -> ~ cri_lives id w'.
Proof.
  unfold rt_TerminateContainer, rt_GetContainerStatus. rewrite sm_bind_eq. unfold sm_try. rewrite sm_bind_eq.
  destruct (cri (cri_ContainerStatus id) w) as [[r|e] w1] eqn:E1.
  - rewrite sm_ret_eq. cbn [RuntimeStatus]. destruct r as [st|]; [|done]. rewrite sm_bind_eq.
    match goal with |- context [match ?c w1 with _ => _ end] => destruct (c w1) as [[u|e] w2] end; [|done]. apply remove_gone.
  - destruct (is_not_found e) eqn:En; [|done]. apply bool_decide_eq_true in En as ->.
    rewrite sm_ret_eq. intros [= <-]. by eapply status_missing.
Qed.

Lemma remove_listed_settles s v : within (settles s) (remove_listed v).
Proof.
  unfold remove_listed. settle.
Qed.
Lemma remove_all_gone (s : string) l : forall w w',
  sm_for l remove_listed w = (Ok (), w') -> forall c, c ∈ l -> cri_used (crc_Id c) w -> ~ cri_lives (crc_Id c) w'.
Proof.
  induction l as [|v l IH]; intros w w'; simpl; [set_solver|].
  rewrite sm_bind_eq. destruct (remove_listed v w) as [[u|e] w1] eqn:E1; [|done]. intros Hr c Hc Hu Hl.
  pose proof (remove_listed_settles s v w) as H1. rewrite E1 in H1. cbn in H1.
  apply elem_of_cons in Hc as [->|Hc]; [|by eapply IH; eauto; apply (settles_used _ _ _ H1)].
  assert (within (settles s) (sm_for l remove_listed)) as Hl2 by (apply (within_for _); intros x; apply remove_listed_settles).
  specialize (Hl2 w1). rewrite Hr in Hl2. cbn in Hl2.
  unfold remove_listed in E1. rewrite sm_bind_eq in E1. match type of E1 with context [match ?c w with _ => _ end] => destruct (c w) as [[u'|e] w2] end; [|done].
  destruct u. apply remove_gone in E1. apply E1. apply (settles_lives _ _ _ Hl2); [by apply (settles_used _ _ _ H1)|done].
Qed.

(** What is left of [TerminatePod] once the containers are removed. *)
Lemma remove_sandbox_settles s (c : SM W unit) :
  c = (do! r <- sm_try (cri (cri_StopPodSandbox s));
       match r with
       | Err e => if is_not_found e then sm_ret () else sm_fail e
       | Ok _ => do! r <- sm_try (cri (cri_RemovePodSandbox s));
                 match r with
                 | Err e => if is_not_found e then sm_ret () else sm_fail e
                 | Ok _ => sm_ret ()
                 end
       end) ->
  within (settles s) c /\ forall w w', c w = (Ok (), w') -> ~ cri_lives s w'.
Proof.
  intros ->. split.
  - settle.
  - intros w w'. rewrite sm_bind_eq. unfold sm_try. destruct (cri (cri_StopPodSandbox s) w) as [[u|e] w1] eqn:E1.
    + rewrite sm_bind_eq. destruct (cri (cri_RemovePodSandbox s) w1) as [[u'|e] w2] eqn:E2.
      * rewrite sm_ret_eq. intros [= <-]. destruct u'. by eapply remove_sandbox_gone.
      * destruct (is_not_found e) eqn:En; [|done]. apply bool_decide_eq_true in En as ->. rewrite sm_ret_eq.
        intros [= <-]. by eapply remove_missing.
    + destruct (is_not_found e) eqn:En; [|done]. apply bool_decide_eq_true in En as ->. rewrite sm_ret_eq.
      intros [= <-]. by eapply stop_missing.
Qed.

Lemma rt_TerminatePod_gone s w w' : rt_TerminatePod s [] w = (Ok (), w') -> ~ cri_lives s w'.
Proof.
  unfold rt_TerminatePod. rewrite sm_bind_eq.
  match goal with |- context [match ?c w with _ => _ end] => destruct (c w) as [[u|e] w1] end; [|done].
  apply (remove_sandbox_settles s _ eq_refl).
Qed.

(** Terminating a pod in the runtime leaves nothing of it.  When [TerminatePod] of a sandbox reports
    success, also because the runtime no longer knew the sandbox, the sandbox is gone and so is every
    container that was in it. *)
Theorem terminate_pod_empties_sandbox s w w' :
  rt_TerminatePod s [] w = (Ok (), w') -> ~ cri_lives s w' /\ forall id, ~ cri_inside s id w'.
Proof.
  unfold rt_TerminatePod. rewrite sm_bind_eq.
  destruct ((do! containers <- getPodContainers s; sm_for containers remove_listed) w) as [[u|e] w1] eqn:E1; [|done].
  destruct (remove_sandbox_settles s _ eq_refl) as [Hs Hg].
  intros H2. split; [by eapply Hg|]. intros id Hin. specialize (Hs w1). rewrite H2 in Hs. cbn in Hs.
  rewrite sm_bind_eq in E1. unfold getPodContainers in E1.
  destruct (cri (cri_ListContainers None (Some s)) w) as [[l|e] w2] eqn:E2; [|done]. destruct u.
  pose proof (cri_settles s (cri_ListContainers None (Some s)) eq_refl w) as H02. rewrite E2 in H02. cbn in H02.
  assert (within (settles s) (sm_for l remove_listed)) as Hl by (apply (within_for _); intros x; apply remove_listed_settles).
  specialize (Hl w2). rewrite E1 in Hl. cbn in Hl.
  apply (settles_inside _ _ _ Hs) in Hin as Hin1. apply (settles_inside _ _ _ Hl) in Hin1 as Hin2.
  apply (settles_inside _ _ _ H02) in Hin2 as Hin0.
  destruct (list_complete_in s w l w2 id E2 Hin0) as (c & Hc & <-).
  apply (remove_all_gone s l w2 w1 E1 c Hc); [by eapply inside_used|by eapply inside_lives].
Qed.
End Sandboxes.

(** ** The runtime of the pod actors

    The rest of the host (images, cgroups, directories, volumes, sessions and the configuration of a
    sandbox) is [host_call]; none of it makes or brings back a container. *)

Class AgentHost {QL : QuantityLib} (W : Type) := {
  host_call : forall {A}, agent_call A -> SM W A;
  host_sandbox_config : Pod -> SM W string
}.
#[export] Hint Mode AgentHost - ! : typeclass_instances.

Section Serve.
Context {QL : QuantityLib} {W : Type} {RT : CRI W} {AH : AgentHost W} (RuntimeHandler : string).

(** [createPodSandbox] of [pod_sandbox.go] *)
Definition createPodSandbox (pod : Pod) : SM W RuntimePodT :=
  do! podSandboxConfig <- host_sandbox_config pod;
  do! runtimepod <- rt_CreateSandbox podSandboxConfig RuntimeHandler;
  sm_ret (mkRuntimePod (rtp_Id runtimepod) (rtp_Sandbox runtimepod)).

Definition rt_call {A} (c : agent_call A) : SM W A :=
  match c in agent_call A return SM W A with
  | dep_CreateSandbox pod => createPodSandbox pod
  | dep_GetPodSandbox id => rt_GetPodSandbox id
  | dep_TerminatePod id => rt_TerminatePod id []
  | dep_CreateContainer sandbox config => do! c <- rt_CreateContainer sandbox config; sm_ret (rtc_Id c)
  | dep_StartContainer id => rt_StartContainer id
  | dep_StopContainer id timeout => rt_StopContainer id timeout
  | dep_TerminateContainer id => rt_TerminateContainer id
  | dep_GetContainerStatus id => rt_GetContainerStatus id
  | dep_HibernateContainer id => rt_HibernateContainer id
  | dep_WakeupContainer id => rt_WakeupContainer id
  | c => host_call c
  end.
Definition runtime_deps : AgentDeps W := {| run_call := @rt_call |}.

(** What every call keeps. *)
Context {RO : CRIOK W}.
Record kept (w w' : W) : Prop := {
  kept_used id : cri_used id w -> cri_used id w';
  kept_lives id : cri_used id w -> cri_lives id w' -> cri_lives id w
}.
#[export] Instance kept_preorder : PreOrder kept.
Proof. split; [by intros w; split|]. intros w1 w2 w3 [] []. split; naive_solver. Qed.

Context (Hhost : forall A (c : agent_call A), within kept (host_call c))
  (Hconfig : forall pod, within kept (host_sandbox_config pod)).

Lemma cri_kept {A} (c : cri_call A) : within kept (cri c).
Proof using. intros w. split; intros id; [apply cri_keeps_used|apply cri_not_revived]. Qed.

Ltac keep :=
  repeat first [ apply cri_kept | apply (within_ret _) | apply (within_fail _) | apply within_try
               | apply Hhost | apply Hconfig | apply (within_for _); intros ? | apply (within_bind _); [|intros ?] | case_match ].

Lemma rt_call_kept {A} (c : agent_call A) : within kept (rt_call c).
Proof using Hhost Hconfig.
  destruct c; cbn [rt_call]; try apply Hhost;
    unfold createPodSandbox, rt_CreateSandbox, getPodSandboxStatus, rt_GetPodSandbox, rt_TerminatePod, getPodContainers,
      remove_listed, rt_CreateContainer, rt_StartContainer, rt_StopContainer, rt_TerminateContainer, rt_GetContainerStatus,
      rt_HibernateContainer, rt_WakeupContainer; keep.
Qed.

Lemma created_used sandbox config w id w' :
  rt_call (dep_CreateContainer sandbox config) w = (Ok id, w') -> cri_used id w'.
Proof using.
  cbn [rt_call]. unfold rt_CreateContainer. rewrite !sm_bind_eq.
  destruct (cri (cri_CreateContainer sandbox config) w) as [[i|e] w1] eqn:E1; [|done]. rewrite sm_bind_eq.
  pose proof (cri_kept (cri_ListContainers (Some i) (Some sandbox)) w1) as Hk.
  destruct (cri (cri_ListContainers (Some i) (Some sandbox)) w1) as [[l|e] w2]; [|done].
  destruct l as [|c [|c2 l]]; [done| |done]. rewrite !sm_ret_eq. intros [= <- <-].
  apply (kept_used _ _ Hk). by eapply create_used.
Qed.
Lemma made_sandbox_used pod w rp sandbox w' :
  rt_call (dep_CreateSandbox pod) w = (Ok rp, w') -> rp_Sandbox rp = Some sandbox -> cri_used sandbox w'.
Proof using.
  cbn [rt_call]. unfold createPodSandbox, rt_CreateSandbox, getPodSandboxStatus. rewrite sm_bind_eq.
  destruct (host_sandbox_config pod w) as [[config|e] w0]; [|done]. rewrite !sm_bind_eq.
  destruct (cri (cri_RunPodSandbox config RuntimeHandler) w0) as [[s|e] w1]; [|done]. rewrite sm_bind_eq.
  destruct (cri (cri_ListPodSandbox (Some s)) w1) as [[l|e] w2] eqn:E2; [|done].
  destruct l as [|s' [|s2 l]]; [done| |done]. rewrite sm_bind_eq.
  pose proof (cri_kept (cri_PodSandboxStatus s) w2) as Hk.
  destruct (cri (cri_PodSandboxStatus s) w2) as [[st|e] w3]; [|done]. rewrite !sm_ret_eq. intros [= <- <-] [= <-].
  apply (kept_used _ _ Hk). eapply list_used; [done|]. by apply list_elem_of_singleton.
Qed.
Lemma found_used id w sandbox w' : rt_call (dep_GetPodSandbox id) w = (Ok (Some sandbox), w') -> cri_used sandbox w'.
Proof using.
  cbn [rt_call]. unfold rt_GetPodSandbox. rewrite sm_bind_eq.
  destruct (cri (cri_ListPodSandbox (Some id)) w) as [[l|e] w1] eqn:E1; [|done]. rewrite sm_ret_eq. intros [= Hh <-].
  eapply list_used; [done|]. by apply head_Some_elem_of.
Qed.

(** C26: The runtime service is the runtime the pod actors rely on.  With the calls of the pod actors
    answered by the runtime service, over any container runtime that behaves as CRI documents, a container
    or sandbox that was terminated is gone from the runtime, identifiers are never handed out twice and
    nothing comes back to life. *)
Theorem runtime_serves_pods :
  exists AO : @AgentDepsOK QL W runtime_deps,
    (forall id w, @lives _ _ _ AO id w <-> cri_lives id w) /\ (forall id w, @used _ _ _ AO id w <-> cri_used id w).
Proof using Hhost Hconfig.
  unshelve eexists; [refine (@Build_AgentDepsOK QL W runtime_deps cri_lives cri_used _ _ _ _ _ _ _)|split; done].
  - intros A c w id. apply (kept_used _ _ (rt_call_kept c w)).
  - intros A c w id. apply (kept_lives _ _ (rt_call_kept c w)).
  - apply created_used.
  - apply made_sandbox_used.
  - apply found_used.
  - intros id w w'. apply TerminateContainer_gone.
  - intros id w w'. apply rt_TerminatePod_gone.
Qed.
End Serve.

(** ** A small CRI service *)

Record sim_cri := mkSimCri {
  sc_used : gset string;
  sc_sandboxes : gset string;
  sc_containers : gmap string CriContainer
}.
Definition sc_listed (f : option string) (s : option string) (w : sim_cri) : list CriContainer :=
  filter (fun c => default (crc_Id c) f = crc_Id c /\ default (crc_PodSandboxId c) s = crc_PodSandboxId c)
    (map snd (map_to_list (sc_containers w))).

Section SimCri.
Definition sim_cri_call {A} (c : cri_call A) : SM sim_cri A :=
  match c in cri_call A return SM sim_cri A with
  | cri_Status => sm_ret (Some [("RuntimeReady"%string, true); ("NetworkReady"%string, true)])
  | cri_RunPodSandbox _ _ => fun w =>
    let id := fresh (sc_used w) in
    (Ok id, mkSimCri ({[id]} ∪ sc_used w) ({[id]} ∪ sc_sandboxes w) (delete id (sc_containers w)))
  | cri_ListPodSandbox f => fun w => (Ok (filter (fun s => default s f = s) (elements (sc_sandboxes w ∩ sc_used w))), w)
  | cri_PodSandboxStatus s => fun w =>
    (if bool_decide (s ∈ sc_sandboxes w) then Ok (mkSandboxStatus "10.0.0.2" []) else Err NotFoundError, w)
  | cri_StopPodSandbox s => fun w =>
    (if bool_decide (s ∈ sc_sandboxes w \/ is_Some (sc_containers w !! s)) then Ok () else Err NotFoundError, w)
  | cri_RemovePodSandbox s => fun w =>
    (Ok (), mkSimCri (sc_used w) (sc_sandboxes w ∖ {[s]}) (delete s (filter (fun c => crc_PodSandboxId c.2 <> s) (sc_containers w))))
  | cri_CreateContainer s name => fun w =>
    let id := fresh (sc_used w) in
    (Ok id, mkSimCri ({[id]} ∪ sc_used w) (sc_sandboxes w)
       (<[id := mkCriContainer id s name CONTAINER_CREATED]> (sc_containers w)))
  | cri_ListContainers f s => fun w => (Ok (sc_listed f s w), w)
  | cri_ContainerStatus id => fun w =>
    (match sc_containers w !! id with
     | Some c => Ok (Some (mkCriStatus id (crc_State c) 0 0))
     | None => if bool_decide (id ∈ sc_sandboxes w) then Err InternalError else Err NotFoundError
     end, w)
  | cri_StartContainer id => sm_ret ()
  | cri_StopContainer id _ => sm_ret ()
  | cri_RemoveContainer id => fun w =>
    (Ok (), mkSimCri (sc_used w) (sc_sandboxes w ∖ {[id]}) (delete id (sc_containers w)))
  | cri_ExecSync _ _ _ => sm_ret (""%string, ""%string)
  | task_Kill _ _ => sm_ret ()
  end.
#[export] Instance sim_cri_service : CRI sim_cri := {| cri := @sim_cri_call |}.

Definition sim_inside (s id : string) (w : sim_cri) : Prop :=
  id ∈ sc_used w /\ exists c, sc_containers w !! id = Some c /\ crc_PodSandboxId c = s /\ crc_Id c = id.
#[export] Instance sim_cri_ok : CRIOK sim_cri.
Proof.
  refine {| cri_lives id w := id ∈ sc_sandboxes w \/ is_Some (sc_containers w !! id);
            cri_used id w := id ∈ sc_used w;
            cri_inside := sim_inside |}.
  - intros s id w (_ & c & Hc & _). right. by eexists.
  - by intros s id w [Hu _].
  - intros A c w id Hu. destruct c; cbn; set_solver.
  - intros A c w id Hu. assert (id <> fresh (sc_used w)) as Hne by (intros ->; exact (is_fresh (sc_used w) Hu)).
    destruct c; cbn; try done.
    + rewrite lookup_delete_is_Some. set_solver.
    + rewrite lookup_delete_is_Some. intros [Hs|[_ [c Hc]]]; [set_solver|].
      apply map_lookup_filter_Some in Hc as [Hc _]. right. by eexists.
    + by rewrite lookup_insert_ne.
    + rewrite lookup_delete_is_Some. set_solver.
  - intros A c w s id. destruct c; cbn; try (by intros _); unfold sim_inside; cbn.
    + intros _ [Hu (c & Hc & Hs & Hid)]. apply lookup_delete_Some in Hc as [Hne Hc]. split; [set_solver|by eexists].
    + intros _ [Hu (c & Hc & Hs & Hid)]. apply lookup_delete_Some in Hc as [_ Hc].
      apply map_lookup_filter_Some in Hc as [Hc _]. split; [done|by eexists].
    + intros Hne%bool_decide_eq_false [Hu (c & Hc & Hs & Hid)].
      apply lookup_insert_Some in Hc as [[<- <-]|[Hi Hc]]; [done|]. split; [set_solver|by eexists].
    + intros _ [Hu (c & Hc & Hs & Hid)]. apply lookup_delete_Some in Hc as [_ Hc]. split; [done|by eexists].
  - cbn. intros s config w id w' [= <- <-]. set_solver.
  - cbn. intros config h w s w' [= <- <-]. set_solver.
  - cbn. intros f w l w' s [= <- <-] [_ Hs]%list_elem_of_filter. set_solver.
  - cbn. intros s w l w' id [= <- <-] (_ & c & Hc & Hs & Hid). exists c. split; [|done]. unfold sc_listed.
    apply list_elem_of_filter. split; [by cbn|]. apply list_elem_of_fmap. exists (id, c). by rewrite elem_of_map_to_list.
  - cbn. intros id w w' [= <-]. cbn. rewrite lookup_delete_eq. intros [Hs|[c Hc]]; [set_solver|done].
  - cbn. intros id w w'. destruct (sc_containers w !! id) eqn:Ec; [done|]. case_bool_decide as Hb; [done|].
    intros [= <-]. rewrite Ec. by intros [|[]].
  - cbn. intros s w w' [= <-]. cbn. rewrite lookup_delete_eq. intros [Hs|[c Hc]]; [set_solver|done].
  - cbn. intros s w w'. case_bool_decide as Hb; [done|]. by intros [= <-].
  - by cbn.
Defined.
End SimCri.

(** A sandbox with two containers is terminated. *)
Definition example_cri : sim_cri :=
  ((do! s <- cri (cri_RunPodSandbox "pod" "runc");
    do! _ <- cri (cri_CreateContainer s "a");
    cri (cri_CreateContainer s "b")) (mkSimCri ∅ ∅ ∅)).2.
Definition example_sandbox : string := default ""%string (head (elements (sc_sandboxes example_cri))).

Lemma terminate_pod_empties_sandbox_witness :
  List.length (sc_listed None (Some example_sandbox) example_cri) = 2%nat /\
  exists w', rt_TerminatePod example_sandbox [] example_cri = (Ok (), w') /\
    ~ cri_lives example_sandbox w' /\ forall id, ~ cri_inside example_sandbox id w'.
Proof.
  split; [vm_compute; reflexivity|].
  destruct (rt_TerminatePod example_sandbox [] example_cri) as [r w'] eqn:E.
  assert (r = Ok ()) as -> by (apply (f_equal fst) in E; vm_compute in E; by symmetry).
  exists w'. split; [done|]. apply (terminate_pod_empties_sandbox example_sandbox example_cri). exact E.
Defined.

Definition sim_host_call {QL : QuantityLib} {A} (c : agent_call A) : SM sim_cri A :=
  match c in agent_call A return SM sim_cri A with
  | dep_PullImage _ => sm_ret "image"%string
  | dep_ContainerConfig _ _ _ => sm_ret "config"%string
  | dep_IsPodCgroupExist _ => sm_ret false
  | dep_CreatePodCgroup _ => sm_ret ()
  | dep_DeletePodCgroup _ => sm_ret ()
  | dep_UpdateQOSCgroups => sm_ret ()
  | dep_MakePodDataDirs _ => sm_ret ()
  | dep_MakePodLogDir _ => sm_ret ()
  | dep_CleanupPodDataDirs _ => sm_ret ()
  | dep_CleanupPodLogDir _ => sm_ret ()
  | dep_RemoveSandboxLogs _ => sm_ret ()
  | dep_MountVolumes _ => sm_ret ()
  | dep_UnmountVolumes _ => sm_ret ()
  | dep_OpenSession _ _ => sm_ret ()
  | dep_CloseSession _ _ _ => sm_ret ()
  | dep_PingSession _ _ => sm_ret ()
  | _ => sm_fail InternalError
  end.
#[export] Instance sim_host {QL : QuantityLib} : AgentHost sim_cri :=
  {| host_call := @sim_host_call QL; host_sandbox_config pod := sm_ret (om_Name (om pod)) |}.

Lemma runtime_serves_pods_witness :
  exists AO : @AgentDepsOK quantity_Z sim_cri (runtime_deps "runc"),
    (forall id w, @lives _ _ _ AO id w <-> cri_lives id w) /\ (forall id w, @used _ _ _ AO id w <-> cri_used id w).
Proof.
  apply (runtime_serves_pods "runc").
  - intros A c w. destruct c; cbn; reflexivity.
  - intros pod w. cbn. reflexivity.
Defined.

(** Asked for the containers too, [GetPods] panics on the first container of a sandbox. *)
Lemma get_pods_panics :
  (rt_GetPods true example_cri).1 = Err nil_panic /\ exists l, (rt_GetPods false example_cri).1 = Ok l.
Proof. split; [vm_compute; reflexivity|]. vm_compute. by eexists. Qed.
