(* ===== verification/Expansion.v ===== *)
(** * Variable references in container settings

    [third_party/forked/golang/expansion/expand.go] of the Kubernetes tree, which the agent uses for the
    environment of a container.  Strings are lists of bytes.  The loop runs over an index and copies the
    bytes since its last stop; [expands] is the syntax it is meant to implement, one rule for every form
    of the input.  An index out of range would be [None]; the theorem shows that there is none.  A byte
    outside ASCII directly behind an operator is taken for a character of its own and encoded again. *)

From S2P Require Import Prelude GoStrings.
From Stdlib Require Import String.

Abbreviation bytes := (list ascii).
Definition operator : ascii := "$".
Definition referenceOpener : ascii := "(".
Definition referenceCloser : ascii := ")".
Abbreviation to_bytes := String.list_ascii_of_string.
Abbreviation of_bytes := String.string_of_list_ascii.

(** [string(b)] of a byte is the UTF-8 text of the character with that number. *)
Definition string_of_byte (b : ascii) : bytes :=
  let n := nat_of_ascii b in
  if (n <? 128)%nat then [b] else [ascii_of_nat (192 + n / 64); ascii_of_nat (128 + n mod 64)].

(** ** The code *)

(** [MappingFuncFor] and [syntaxWrap] *)
Definition syntaxWrap (input : bytes) : bytes := operator :: referenceOpener :: input ++ [referenceCloser].
Fixpoint mapping_in (context : list (gmap string string)) (input : bytes) : bytes :=
  match context with
  | [] => syntaxWrap input
  | vars :: context =>
    match vars !! of_bytes input with
    | Some val => to_bytes val
    | None => mapping_in context input
    end
  end.

(** The loop of [tryReadVariableName] from index [i] on. *)
Fixpoint find_closer (input : bytes) (i : nat) : option nat :=
  match input with
  | [] => None
  | c :: input => if Ascii.eqb c referenceCloser then Some i else find_closer input (S i)
  end.
Definition tryReadVariableName (input : bytes) : option (bytes * bool * nat) :=
  match input with
  | [] => None
  | c :: rest =>
    if Ascii.eqb c operator then Some ([c], false, 1)
    else if Ascii.eqb c referenceOpener then
      match find_closer rest 1 with
      | Some i => Some (take (i - 1) (drop 1 input), true, i + 1)
      | None => Some ([operator; referenceOpener], false, 1)
      end
    else Some (operator :: string_of_byte c, false, 1)
  end.

Section Expand.
Context (mapping : bytes -> bytes).

Fixpoint expand_loop (fuel : nat) (input : bytes) (cursor checkpoint : nat) (buf : bytes) : option bytes :=
  match fuel with
  | O => None
  | S fuel =>
    match input !! cursor with
    | None => Some (buf ++ drop checkpoint input)
    | Some c =>
      if Ascii.eqb c operator && (cursor + 1 <? List.length input)%nat then
        let buf := buf ++ take (cursor - checkpoint) (drop checkpoint input) in
        match tryReadVariableName (drop (cursor + 1) input) with
        | None => None
        | Some (read, isVar, advance) =>
          let buf := buf ++ (if isVar : bool then mapping read else read) in
          let cursor := cursor + advance in
          expand_loop fuel input (cursor + 1) (cursor + 1) buf
        end
      else expand_loop fuel input (cursor + 1) checkpoint buf
    end
  end.
Definition Expand (input : bytes) : option bytes := expand_loop (S (List.length input)) input 0 0 [].

(** ** The syntax *)

(** [behind c] is what is written for the byte [c] behind an operator that begins no expression. *)
Inductive expands_as (behind : ascii -> bytes) : bytes -> bytes -> Prop :=
  | ex_end : expands_as behind [] []
  | ex_text c s o : c <> operator -> expands_as behind s o -> expands_as behind (c :: s) (c :: o)
  | ex_last : expands_as behind [operator] [operator]
  | ex_escape s o : expands_as behind s o -> expands_as behind (operator :: operator :: s) (operator :: o)
  | ex_reference name s o :
    referenceCloser ∉ name -> expands_as behind s o ->
    expands_as behind (operator :: referenceOpener :: name ++ referenceCloser :: s) (mapping name ++ o)
  | ex_open s o :
    referenceCloser ∉ s -> expands_as behind s o ->
    expands_as behind (operator :: referenceOpener :: s) (operator :: referenceOpener :: o)
  | ex_other c s o :
    c <> operator -> c <> referenceOpener -> expands_as behind s o ->
    expands_as behind (operator :: c :: s) (operator :: behind c ++ o).

(** The syntax: an operator that begins no expression, and what follows it, is copied. *)
Definition expands : bytes -> bytes -> Prop := expands_as (fun c => [c]).
(** No byte outside ASCII directly behind an operator. *)
Definition plain (s : bytes) : Prop :=
  forall i c, s !! i = Some operator -> s !! (i + 1) = Some c -> (nat_of_ascii c < 128)%nat.

Lemma find_closer_spec s : forall i,
  match find_closer s i with
  | Some j => exists name rest, s = name ++ referenceCloser :: rest /\ referenceCloser ∉ name /\ j = (i + List.length name)%nat
  | None => referenceCloser ∉ s
  end.
Proof.
  induction s as [|c s IH]; intros i; simpl; [set_solver|].
  destruct (Ascii.eqb_spec c referenceCloser) as [->|Hc].
  - exists [], s. split; [done|]. split; [set_solver|]. simpl. lia.
  - specialize (IH (S i)). destruct (find_closer s (S i)) as [j|].
    + destruct IH as (name & rest & -> & Hn & ->). exists (c :: name), rest. split; [done|]. split; [set_solver|simpl; lia].
    + set_solver.
Qed.

(** One step of the loop at an operator: how the input goes on, what is written and what is left. *)
Lemma read_spec c s :
  exists read isVar advance rest,
    tryReadVariableName (c :: s) = Some (read, isVar, advance) /\
    rest = drop advance (c :: s) /\ (1 <= advance <= S (List.length s))%nat /\
    forall o, expands_as string_of_byte rest o -> expands_as string_of_byte (operator :: c :: s) ((if isVar : bool then mapping read else read) ++ o).
Proof.
  unfold tryReadVariableName. destruct (Ascii.eqb_spec c operator) as [->|Hop].
  { exists [operator], false, 1, s. split_and!; [done|done|lia|simpl; lia|]. intros o Ho. by apply ex_escape. }
  destruct (Ascii.eqb_spec c referenceOpener) as [->|Hopen].
  - pose proof (find_closer_spec s 1) as Hf. destruct (find_closer s 1) as [j|].
    + destruct Hf as (name & rest & -> & Hn & ->). do 4 eexists. split; [reflexivity|]. split; [reflexivity|].
      split; [simpl; rewrite length_app; simpl; lia|]. intros o. simpl.
      rewrite drop_0, Nat.sub_0_r, take_app_length.
      replace (List.length name + 1)%nat with (List.length (name ++ [referenceCloser])) by (rewrite length_app; simpl; lia).
      replace (name ++ referenceCloser :: rest) with ((name ++ [referenceCloser]) ++ rest) by (by rewrite <- app_assoc).
      rewrite drop_app_length, <- app_assoc. by apply ex_reference.
    + exists [operator; referenceOpener], false, 1, s. split_and!; [done|done|lia|simpl; lia|]. intros o Ho. by apply ex_open.
  - exists (operator :: string_of_byte c), false, 1, s. split_and!; [done|done|lia|simpl; lia|]. intros o Ho. by apply ex_other.
Qed.

(** The loop has copied [buf], stands behind [mid], which it has not copied yet, and has [rest] to go. *)
Lemma loop_spec fuel : forall pre mid rest buf,
  (List.length rest < fuel)%nat ->
  exists o, expands_as string_of_byte rest o /\
    expand_loop fuel (pre ++ mid ++ rest) (List.length (pre ++ mid)) (List.length pre) buf = Some (buf ++ mid ++ o).
Proof.
  induction fuel as [|fuel IH]; intros pre mid rest buf Hlen; [lia|]. cbn [expand_loop].
  destruct rest as [|c s].
  { exists []. split; [constructor|]. rewrite !app_nil_r.
    assert ((pre ++ mid) !! List.length (pre ++ mid) = None) as -> by (by apply lookup_ge_None).
    by rewrite drop_app_length. }
  rewrite !(app_assoc pre mid), lookup_app_r, Nat.sub_diag by lia. cbn [lookup list_lookup].
  cbn [List.length] in Hlen.
  destruct (Ascii.eqb c operator && _) eqn:Eop.
  - apply andb_true_iff in Eop as [->%Ascii.eqb_eq Hmore%Nat.ltb_lt]. rewrite !length_app in Hmore. cbn in Hmore.
    destruct s as [|c2 s2]; [cbn in Hmore; lia|].
    replace (drop (List.length (pre ++ mid) + 1) ((pre ++ mid) ++ operator :: c2 :: s2)) with (c2 :: s2).
    2: { replace (List.length (pre ++ mid) + 1)%nat with (List.length ((pre ++ mid) ++ [operator])) by (rewrite length_app; cbn; lia).
         replace ((pre ++ mid) ++ operator :: c2 :: s2) with (((pre ++ mid) ++ [operator]) ++ c2 :: s2) by (by rewrite <- app_assoc).
         by rewrite drop_app_length. }
    destruct (read_spec c2 s2) as (read & isVar & advance & rest & -> & Hrest & Hadv & Hex). cbn zeta.
    set (pre' := pre ++ mid ++ operator :: take advance (c2 :: s2)).
    assert ((pre ++ mid) ++ operator :: c2 :: s2 = pre' ++ [] ++ rest) as ->.
    { unfold pre'. rewrite Hrest, <- !app_assoc. cbn [app]. by rewrite take_drop. }
    assert (List.length (pre ++ mid) + advance + 1 = List.length pre')%nat as ->.
    { unfold pre'. rewrite !length_app. cbn [List.length]. rewrite length_take. cbn [List.length]. lia. }
    set (buf' := (buf ++ _) ++ _).
    destruct (IH pre' [] rest buf') as (o & Ho & Hloop).
    { rewrite Hrest, length_drop. cbn [List.length] in *. lia. }
    rewrite (app_nil_r pre') in Hloop. rewrite Hloop. eexists. split; [by apply Hex|]. f_equal. unfold buf'.
    rewrite <- !app_assoc. f_equal. rewrite length_app.
    replace (List.length pre + List.length mid - List.length pre)%nat with (List.length mid) by lia.
    unfold pre'. rewrite <- !app_assoc, drop_app_length, take_app_length. done.
  - replace (List.length (pre ++ mid) + 1)%nat with (List.length (pre ++ mid ++ [c])) by (rewrite !length_app; cbn; lia).
    replace ((pre ++ mid) ++ c :: s) with (pre ++ (mid ++ [c]) ++ s) by (by rewrite <- !app_assoc).
    destruct (IH pre (mid ++ [c]) s buf) as (o & Ho & ->); [lia|]. exists (c :: o). split; [|by rewrite <- !app_assoc].
    destruct (Ascii.eqb_spec c operator) as [->|Hc]; [|by constructor].
    cbn in Eop. apply Nat.ltb_ge in Eop. rewrite !length_app in Eop. cbn in Eop.
    destruct s; [|cbn in Eop; lia]. inversion Ho; subst. apply ex_last.
Qed.

Lemma closer_unique (n1 n2 r1 r2 : bytes) :
  referenceCloser ∉ n1 -> referenceCloser ∉ n2 -> n1 ++ referenceCloser :: r1 = n2 ++ referenceCloser :: r2 -> n1 = n2 /\ r1 = r2.
Proof.
  revert n2. induction n1 as [|c n1 IH]; intros [|c2 n2] H1 H2 Heq; cbn in Heq; simplify_eq; [done|set_solver|set_solver|].
  destruct (IH n2) as [-> ->]; set_solver.
Qed.
Lemma expands_det behind s o1 : expands_as behind s o1 -> forall o2, expands_as behind s o2 -> o1 = o2.
Proof.
  induction 1 as [|c s o Hc Ho IH| |s o Ho IH|name s o Hn Ho IH|s o Hs Ho IH|c s o Hc1 Hc2 Ho IH]; intros o2 H2;
    inversion H2; simplify_eq; try done; try (f_equal; by apply IH); try (by rewrite (IH _ ltac:(eassumption)));
    try set_solver.
  destruct (closer_unique name0 name s0 s) as [-> ->]; [done..|]. f_equal. by apply IH.
Qed.

Lemma expand_code s o : Expand s = Some o <-> expands_as string_of_byte s o.
Proof.
  destruct (loop_spec (S (List.length s)) [] [] s [] ltac:(lia)) as (o' & Ho' & Heq).
  unfold Expand. cbn [app List.length] in Heq. rewrite Heq. split; [by intros [= <-]|].
  intros Ho. f_equal. by eapply expands_det.
Qed.

Lemma plain_tail c s : plain (c :: s) -> plain s.
Proof. intros H i d Hi Hd. exact (H (S i) d Hi Hd). Qed.
Lemma plain_drop s1 s2 : plain (s1 ++ s2) -> plain s2.
Proof. induction s1 as [|c s1 IH]; [done|]. intros H. by apply IH, (plain_tail c). Qed.
Lemma expands_plain f g s o :
  (forall c, (nat_of_ascii c < 128)%nat -> f c = g c) -> expands_as f s o -> plain s -> expands_as g s o.
Proof.
  intros Hfg. induction 1 as [|c s o Hc Ho IH| |s o Ho IH|name s o Hn Ho IH|s o Hs Ho IH|c s o Hc1 Hc2 Ho IH]; intros Hp.
  - constructor.
  - apply ex_text; [done|]. by apply IH, (plain_tail c).
  - apply ex_last.
  - apply ex_escape, IH. by apply (plain_drop [operator; operator]).
  - apply ex_reference; [done|]. apply IH, (plain_drop (operator :: referenceOpener :: name ++ [referenceCloser])).
    cbn. by rewrite <- app_assoc.
  - apply ex_open; [done|]. by apply IH, (plain_drop [operator; referenceOpener]).
  - rewrite (Hfg c) by (by apply (Hp 0%nat)). apply ex_other; [done|done|]. by apply IH, (plain_drop [operator; c]).
Qed.

(** C28: variable references are expanded as the syntax says.  The loop always ends and never reads beyond
    the end of the text.  In a text without a byte outside ASCII directly behind an operator, a reference to a
    variable becomes its value, a doubled operator one operator, and everything else, an unfinished
    reference, an operator that begins no expression and a last operator included, is copied; the result is
    determined by the syntax alone. *)
Theorem expand_implements_syntax s :
  (exists o, Expand s = Some o) /\ (plain s -> forall o, Expand s = Some o <-> expands s o).
Proof.
  assert (forall c, (nat_of_ascii c < 128)%nat -> string_of_byte c = [c]) as Hb.
  { intros c Hc. unfold string_of_byte. by rewrite (proj2 (Nat.ltb_lt _ _) Hc). }
  split.
  - destruct (loop_spec (S (List.length s)) [] [] s [] ltac:(lia)) as (o & _ & Heq). by exists o.
  - intros Hp o. rewrite expand_code. split; intros Ho.
    + by apply (expands_plain string_of_byte).
    + apply (expands_plain (fun c => [c])); [|done|done]. intros c Hc. by rewrite Hb.
Qed.

(** A text with its operators doubled stands for itself. *)
Fixpoint escape (s : bytes) : bytes :=
  match s with
  | [] => []
  | c :: s => if Ascii.eqb c operator then operator :: operator :: escape s else c :: escape s
  end.
Lemma escape_expands behind s : expands_as behind (escape s) s.
Proof.
  induction s as [|c s IH]; simpl; [constructor|]. destruct (Ascii.eqb_spec c operator) as [->|Hc]; [by apply ex_escape|by apply ex_text].
Qed.
End Expand.

(** ** A concrete text *)

Definition example_mapping : bytes -> bytes := mapping_in [{["X"%string := "v"%string]}].
Lemma example_plain : plain (to_bytes "$(X)$$b$c").
Proof.
  intros i c Hi Hc. do 9 (destruct i as [|i]; [vm_compute in Hi, Hc; simplify_eq; vm_compute; lia|]).
  vm_compute in Hi. discriminate.
Qed.
Lemma expand_implements_syntax_witness :
  Expand example_mapping (to_bytes "$(X)$$b$c") = Some (to_bytes "v$b$c").
Proof.
  apply (expand_implements_syntax example_mapping (to_bytes "$(X)$$b$c")); [exact example_plain|].
  apply (ex_reference example_mapping (fun c => [c]) ["X"%char] (to_bytes "$$b$c") (to_bytes "$b$c")).
  - apply (bool_decide_unpack _). vm_compute. exact I.
  - apply ex_escape, ex_text; [discriminate|]. apply (ex_other example_mapping (fun c => [c]) "c"%char [] []);
      [discriminate|discriminate|constructor].
Defined.
