(* ===== verification/ContainerConfig.v ===== *)
(** * What the agent tells the container runtime

    Labels and annotations of sandboxes and containers ([pkg/nodeagent/pod/kubelet_labels.go]), their
    environment ([pkg/nodeagent/runtime/k8s_helper.go] with the helpers of the Kubernetes tree it calls),
    CPU shares and quotas, namespaces and ports ([kubelet_util.go]), and the two configurations made of them
    ([generateContainerConfig] of [pod_container.go], [generatePodSandboxConfig] of [pod_sandbox.go]).

    [ConfigPod] and [ConfigContainer] are the fields of [v1.Pod] and [v1.Container] these functions read.
    JSON and hashing of the API types, name validation and reading a resource field are the interface
    [ConfigLib]. *)

From S2P Require Import Prelude GoStrings ApiTypes ContainerActor Expansion.
From Stdlib Require Import String.
#[local] Open Scope Z_scope.
#[local] Open Scope go_scope.

(** ** The pod and its containers *)

Record KeyRef := mkKeyRef { kr_Name : string; kr_Key : string; kr_Optional : option bool }.
Record EnvVarSource := mkEnvVarSource {
  FieldRef : option (string * string);
  ResourceFieldRef : option (string * string);
  ConfigMapKeyRef : option KeyRef;
  SecretKeyRef : option KeyRef
}.
Record EnvVarSpec := mkEnvVarSpec { es_Name : string; es_Value : string; es_ValueFrom : option EnvVarSource }.
Record EnvFromSource := mkEnvFromSource {
  ef_Prefix : string;
  ConfigMapRef : option (string * option bool);
  SecretRef : option (string * option bool)
}.
(** [v1.ConfigMap] and [v1.Secret] *)
Record DataMap := mkDataMap { dm_Name : string; dm_Data : gmap string string }.

Section Pods.
Context {QL : QuantityLib} {Handler : Type}.
Record ConfigContainer := mkConfigContainer {
  cf_Name : string;
  cf_Command : list string;
  cf_Args : list string;
  cf_WorkingDir : string;
  cf_Ports : list ContainerPort;
  cf_EnvFrom : list EnvFromSource;
  cf_Env : list EnvVarSpec;
  cf_Requests : ResourceList;
  cf_Limits : ResourceList;
  TerminationMessagePath : string;
  TerminationMessagePolicy : string;
  LifecyclePreStop : option Handler;
  Privileged : option bool
}.
Record ConfigPod := mkConfigPod {
  pf_meta : ObjectMeta;
  pf_Containers : list ConfigContainer;
  pf_InitContainers : list ConfigContainer;
  TerminationGracePeriodSeconds : option Z;
  EnableServiceLinks : option bool;
  pf_NodeName : string;
  ServiceAccountName : string;
  pf_HostIP : string;
  Hostname : string;
  pf_HostNetwork : bool;
  HostPID : bool;
  HostIPC : bool;
  ShareProcessNamespace : option bool
}.
End Pods.
Arguments ConfigContainer {QL} Handler.
Arguments ConfigPod {QL} Handler.

Class ConfigLib {QL : QuantityLib} := {
  Handler : Type;
  (** [encoding/json] of the ports and of a handler *)
  marshal_ports : list ContainerPort -> result string;
  unmarshal_ports : string -> result (list ContainerPort);
  marshal_handler : Handler -> result string;
  unmarshal_handler : string -> result Handler;
  ports_round_trip l s : marshal_ports l = Ok s -> unmarshal_ports s = Ok l;
  handler_round_trip h s : marshal_handler h = Ok s -> unmarshal_handler s = Ok h;
  (** the 32-bit FNV hash of the JSON text of a container *)
  HashContainer : ConfigContainer Handler -> Z;
  hash_range c : 0 <= HashContainer c < 2 ^ 32;
  (** [validation.IsEnvVarName], [validation.IsQualifiedName], [fieldpath.FormatMap] *)
  IsEnvVarName : string -> bool;
  IsQualifiedName : string -> bool;
  FormatMap : gmap string string -> string;
  (** [ExtractContainerResourceValue], [ExtractResourceValueByContainerName] *)
  ExtractContainerResourceValue : string -> ConfigContainer Handler -> result string;
  ExtractResourceValueByContainerName : string -> ConfigPod Handler -> string -> result string
}.

(** ** Labels and annotations *)

Definition KubernetesPodNameLabel := "io.kubernetes.pod.name"%string.
Definition KubernetesPodNamespaceLabel := "io.kubernetes.pod.namespace"%string.
Definition KubernetesPodUIDLabel := "io.kubernetes.pod.uid"%string.
Definition KubernetesContainerNameLabel := "io.kubernetes.container.name"%string.
Definition podDeletionGracePeriodLabel := "io.kubernetes.pod.deletionGracePeriod"%string.
Definition podTerminationGracePeriodLabel := "io.kubernetes.pod.terminationGracePeriod"%string.
Definition containerHashLabel := "io.kubernetes.container.hash"%string.
Definition containerRestartCountLabel := "io.kubernetes.container.restartCount"%string.
Definition containerTerminationMessagePathLabel := "io.kubernetes.container.terminationMessagePath"%string.
Definition containerTerminationMessagePolicyLabel := "io.kubernetes.container.terminationMessagePolicy"%string.
Definition containerPreStopHandlerLabel := "io.kubernetes.container.preStopHandler"%string.
Definition containerPortsLabel := "io.kubernetes.container.ports"%string.

Abbreviation labels := (gmap string string).

Section Labels.
Context {QL : QuantityLib} {CL : ConfigLib}.
Abbreviation pod_t := (ConfigPod Handler).
Abbreviation container_t := (ConfigContainer Handler).

Record labeledPodSandboxInfo := mkSandboxInfo {
  lps_Labels : labels; lps_PodName : string; lps_PodNamespace : string; lps_PodUID : string }.
Record labeledContainerInfo := mkContainerInfo {
  lc_ContainerName : string; lc_PodName : string; lc_PodNamespace : string; lc_PodUID : string }.
Record annotatedContainerInfo := mkAnnotatedInfo {
  ac_Hash : Z;
  ac_RestartCount : Z;
  PodDeletionGracePeriod : option Z;
  PodTerminationGracePeriod : option Z;
  ac_TerminationMessagePath : string;
  ac_TerminationMessagePolicy : string;
  PreStopHandler : option Handler;
  ac_ContainerPorts : list ContainerPort
}.

Definition newPodLabels (pod : pod_t) : labels :=
  <[KubernetesPodUIDLabel := om_UID (pf_meta pod)]>
  (<[KubernetesPodNamespaceLabel := om_Namespace (pf_meta pod)]>
  (<[KubernetesPodNameLabel := om_Name (pf_meta pod)]> (om_Labels (pf_meta pod)))).
Definition newPodAnnotations (pod : pod_t) : labels := om_Annotations (pf_meta pod).
Definition newContainerLabels (container : container_t) (pod : pod_t) : labels :=
  <[KubernetesContainerNameLabel := cf_Name container]>
  (<[KubernetesPodUIDLabel := om_UID (pf_meta pod)]>
  (<[KubernetesPodNamespaceLabel := om_Namespace (pf_meta pod)]>
  (<[KubernetesPodNameLabel := om_Name (pf_meta pod)]> ∅))).

Definition put_some {A} (key : string) (f : A -> string) (v : option A) (m : labels) : labels :=
  match v with Some x => <[key := f x]> m | None => m end.
Definition put_json {A} (key : string) (marshal : A -> result string) (v : A) (m : labels) : labels :=
  match marshal v with Ok raw => <[key := raw]> m | Err _ => m end.
Definition newContainerAnnotations (container : container_t) (pod : pod_t) (restartCount : Z)
    (overrideAnnotations : labels) : labels :=
  let annotations := <[containerHashLabel := FormatUint16 (HashContainer container)]> (∅ : labels) in
  let annotations := <[containerRestartCountLabel := FormatInt restartCount]> annotations in
  let annotations := <[containerTerminationMessagePathLabel := TerminationMessagePath container]> annotations in
  let annotations := <[containerTerminationMessagePolicyLabel := TerminationMessagePolicy container]> annotations in
  let annotations := put_some podDeletionGracePeriodLabel FormatInt (om_DeletionGracePeriodSeconds (pf_meta pod)) annotations in
  let annotations := put_some podTerminationGracePeriodLabel FormatInt (TerminationGracePeriodSeconds pod) annotations in
  let annotations := match LifecyclePreStop container with
                     | Some h => put_json containerPreStopHandlerLabel marshal_handler h annotations
                     | None => annotations
                     end in
  let annotations := if (0 <? List.length (cf_Ports container))%nat
                     then put_json containerPortsLabel marshal_ports (cf_Ports container) annotations else annotations in
  overrideAnnotations ∪ annotations.

Definition getStringValueFromLabel (l : labels) (label : string) : string := default ""%string (l !! label).
(** The error is logged, the value beside it is 0 or nil. *)
Definition getIntValueFromLabel (l : labels) (label : string) : Z :=
  match l !! label with Some v => match ParseInt v with inl n => n | inr _ => 0 end | None => 0 end.
Definition getUint64ValueFromLabel (l : labels) (label : string) : Z :=
  match l !! label with Some v => match ParseUint16 v with inl n => n | inr _ => 0 end | None => 0 end.
Definition getInt64PointerFromLabel (l : labels) (label : string) : option Z :=
  match l !! label with Some v => match ParseInt v with inl n => Some n | inr _ => None end | None => None end.
Definition getJSONObjectFromLabel {A} (unmarshal : string -> result A) (l : labels) (label : string) : option A :=
  match l !! label with Some v => match unmarshal v with Ok x => Some x | Err _ => None end | None => None end.

Definition getPodSandboxInfoFromLabels (l : labels) : labeledPodSandboxInfo :=
  mkSandboxInfo
    (filter (fun kv => kv.1 <> KubernetesPodNameLabel /\ kv.1 <> KubernetesPodNamespaceLabel /\ kv.1 <> KubernetesPodUIDLabel) l)
    (getStringValueFromLabel l KubernetesPodNameLabel) (getStringValueFromLabel l KubernetesPodNamespaceLabel)
    (getStringValueFromLabel l KubernetesPodUIDLabel).
Definition getPodSandboxInfoFromAnnotations (annotations : labels) : labels := annotations.
Definition getContainerInfoFromLabels (l : labels) : labeledContainerInfo :=
  mkContainerInfo (getStringValueFromLabel l KubernetesContainerNameLabel) (getStringValueFromLabel l KubernetesPodNameLabel)
    (getStringValueFromLabel l KubernetesPodNamespaceLabel) (getStringValueFromLabel l KubernetesPodUIDLabel).
Definition getContainerInfoFromAnnotations (annotations : labels) : annotatedContainerInfo :=
  mkAnnotatedInfo (getUint64ValueFromLabel annotations containerHashLabel)
    (getIntValueFromLabel annotations containerRestartCountLabel)
    (getInt64PointerFromLabel annotations podDeletionGracePeriodLabel)
    (getInt64PointerFromLabel annotations podTerminationGracePeriodLabel)
    (getStringValueFromLabel annotations containerTerminationMessagePathLabel)
    (getStringValueFromLabel annotations containerTerminationMessagePolicyLabel)
    (getJSONObjectFromLabel unmarshal_handler annotations containerPreStopHandlerLabel)
    (default [] (getJSONObjectFromLabel unmarshal_ports annotations containerPortsLabel)).

Lemma put_some_ne {A} k (f : A -> string) v m k' : k <> k' -> put_some k f v m !! k' = m !! k'.
Proof. intros Hk. destruct v; [by apply lookup_insert_ne|done]. Qed.
Lemma put_some_eq {A} k (f : A -> string) v m : m !! k = None -> put_some k f v m !! k = f <$> v.
Proof. intros Hk. destruct v; [by apply lookup_insert_eq|done]. Qed.
Lemma put_json_ne {A} k (f : A -> result string) v m k' : k <> k' -> put_json k f v m !! k' = m !! k'.
Proof. intros Hk. unfold put_json. destruct (f v); [by apply lookup_insert_ne|done]. Qed.

(** Reads one label of a map built by the functions above. *)
Ltac label_ne := by (let H := fresh in intros H; vm_compute in H; discriminate).
Ltac read_label :=
  repeat first [ rewrite lookup_insert_eq | rewrite lookup_insert_ne by label_ne | rewrite put_some_ne by label_ne
               | rewrite put_json_ne by label_ne ].

Lemma annotations_ports_ne (container : container_t) k (m : labels) :
  containerPortsLabel <> k ->
  (if (0 <? List.length (cf_Ports container))%nat then put_json containerPortsLabel marshal_ports (cf_Ports container) m else m) !! k = m !! k.
Proof. intros Hk. destruct (_ <? _)%nat; [by apply put_json_ne|done]. Qed.
Lemma annotations_handler_ne (h : option Handler) k (m : labels) :
  containerPreStopHandlerLabel <> k ->
  (match h with Some h => put_json containerPreStopHandlerLabel marshal_handler h m | None => m end) !! k = m !! k.
Proof. intros Hk. destruct h; [by apply put_json_ne|done]. Qed.

(** What can be written: both texts can be made, and the numbers are 64-bit. *)
Definition int64_ok (z : Z) : Prop := - 2 ^ 63 <= z <= MaxInt64.
Record writable (container : container_t) (pod : pod_t) : Prop := {
  wr_ports : exists s, marshal_ports (cf_Ports container) = Ok s;
  wr_handler h : LifecyclePreStop container = Some h -> exists s, marshal_handler h = Ok s;
  wr_deletion z : om_DeletionGracePeriodSeconds (pf_meta pod) = Some z -> int64_ok z;
  wr_termination z : TerminationGracePeriodSeconds pod = Some z -> int64_ok z
}.

Lemma int64_pointer_round_trip (v : option Z) :
  (forall z, v = Some z -> int64_ok z) ->
  match FormatInt <$> v with Some t => match ParseInt t with inl n => Some n | inr _ => None end | None => None end = v.
Proof. intros Hv. destruct v as [z|]; [|done]. cbn. by rewrite ParseInt_FormatInt by (by apply Hv). Qed.

(** C29: What the agent writes into the runtime about a container it reads back.  From the labels and
    annotations of a container and of its sandbox come the names, the identifiers and, for numbers of 64
    bits and handlers and ports that have a JSON text, every setting that was written; the labels of the pod
    come back without the three names the agent reserves. *)
Theorem runtime_labels_round_trip (container : container_t) (pod : pod_t) restartCount :
  writable container pod -> int64_ok restartCount ->
  getContainerInfoFromLabels (newContainerLabels container pod) =
    mkContainerInfo (cf_Name container) (om_Name (pf_meta pod)) (om_Namespace (pf_meta pod)) (om_UID (pf_meta pod)) /\
  getContainerInfoFromAnnotations (newContainerAnnotations container pod restartCount ∅) =
    mkAnnotatedInfo (HashContainer container) restartCount (om_DeletionGracePeriodSeconds (pf_meta pod))
      (TerminationGracePeriodSeconds pod) (TerminationMessagePath container) (TerminationMessagePolicy container)
      (LifecyclePreStop container) (cf_Ports container) /\
  lps_PodName (getPodSandboxInfoFromLabels (newPodLabels pod)) = om_Name (pf_meta pod) /\
  lps_PodNamespace (getPodSandboxInfoFromLabels (newPodLabels pod)) = om_Namespace (pf_meta pod) /\
  lps_PodUID (getPodSandboxInfoFromLabels (newPodLabels pod)) = om_UID (pf_meta pod) /\
  forall k, lps_Labels (getPodSandboxInfoFromLabels (newPodLabels pod)) !! k =
    (if decide (k = KubernetesPodNameLabel \/ k = KubernetesPodNamespaceLabel \/ k = KubernetesPodUIDLabel) then None
     else om_Labels (pf_meta pod) !! k).
Proof.
  intros [[ps Hps] Hh Hd Ht] Hrc. split_and!.
  - unfold getContainerInfoFromLabels, getStringValueFromLabel, newContainerLabels. by read_label.
  - unfold getContainerInfoFromAnnotations, newContainerAnnotations. rewrite (left_id_L ∅ (∪)).
    unfold getUint64ValueFromLabel, getIntValueFromLabel, getInt64PointerFromLabel, getStringValueFromLabel, getJSONObjectFromLabel.
    f_equal; rewrite ?annotations_ports_ne, ?annotations_handler_ne by label_ne; read_label.
    + by rewrite ParseUint16_FormatUint16 by (pose proof (hash_range container); unfold MaxUint64; lia).
    + by rewrite ParseInt_FormatInt.
    + rewrite put_some_eq by (by read_label). by apply int64_pointer_round_trip.
    + rewrite put_some_eq by (by read_label). by apply int64_pointer_round_trip.
    + done.
    + done.
    + destruct (LifecyclePreStop container) as [h|]; [|by read_label].
      destruct (Hh h eq_refl) as [t Hm]. unfold put_json. rewrite Hm, lookup_insert_eq.
      by rewrite (handler_round_trip h t Hm).
    + destruct (cf_Ports container) as [|p l] eqn:El; cbn [List.length Nat.ltb Nat.leb].
      * rewrite annotations_handler_ne by label_ne. by read_label.
      * unfold put_json. rewrite Hps, lookup_insert_eq. by rewrite (ports_round_trip _ _ Hps).
  - unfold getPodSandboxInfoFromLabels, getStringValueFromLabel, newPodLabels. cbn. by read_label.
  - unfold getPodSandboxInfoFromLabels, getStringValueFromLabel, newPodLabels. cbn. by read_label.
  - unfold getPodSandboxInfoFromLabels, getStringValueFromLabel, newPodLabels. cbn. by read_label.
  - intros k. cbn. case_decide as Hk.
    + apply map_lookup_filter_None. right. cbn. intros x _. tauto.
    + unfold newPodLabels. rewrite map_lookup_filter, !lookup_insert_ne by (intros Heq; apply Hk; rewrite <- Heq; tauto).
      destruct (om_Labels (pf_meta pod) !! k); [|done]. cbn. rewrite option_guard_True; [done|]. cbn. tauto.
Qed.
End Labels.

(** ** The environment of a container *)

(** [SplitMaybeSubscriptedPath]: the path and the subscript *)
Definition SplitMaybeSubscriptedPath (fieldPath : string) : option (string * string) :=
  if HasSuffix fieldPath "']" then
    let s := String.substring 0 (String.length fieldPath - 2) fieldPath in
    match String.index 0 "['" s with
    | None => None
    | Some O => None
    | Some i => Some (String.substring 0 i s, String.substring (i + 2) (String.length s - (i + 2)) s)
    end
  else None.

Definition downward_fields : list string :=
  ["metadata.annotations"; "metadata.labels"; "metadata.name"; "metadata.namespace"; "metadata.uid"; "spec.nodeName";
   "spec.restartPolicy"; "spec.serviceAccountName"; "spec.schedulerName"; "status.phase"; "status.hostIP";
   "status.podIP"; "status.podIPs"]%string.
Definition ConvertDownwardAPIFieldLabel (version label : string) : result string :=
  if negb (version =? "v1")%string then Err (OtherError "unsupported pod version")
  else match SplitMaybeSubscriptedPath label with
  | Some (path, _) =>
    if (path =? "metadata.annotations")%string || (path =? "metadata.labels")%string then Ok label
    else Err (OtherError "field label does not support subscript")
  | None =>
    if bool_decide (label ∈ downward_fields) then Ok label
    else if (label =? "spec.host")%string then Ok "spec.nodeName"%string
    else Err (OtherError "field label not supported")
  end.

(** [strings.ToLower] on ASCII text *)
Definition ToLower (s : string) : string :=
  of_bytes (map (fun c => let n := nat_of_ascii c in
    if ((65 <=? n) && (n <=? 90))%nat then ascii_of_nat (n + 32) else c) (to_bytes s)).

Section Environment.
Context {GR : GoRange} {QL : QuantityLib} {CL : ConfigLib}.
Abbreviation pod_t := (ConfigPod Handler).
Abbreviation container_t := (ConfigContainer Handler).

Definition ExtractFieldPathAsString (m : ObjectMeta) (fieldPath : string) : result string :=
  match SplitMaybeSubscriptedPath fieldPath with
  | Some (path, subscript) =>
    if (path =? "metadata.annotations")%string then
      if IsQualifiedName (ToLower subscript) then Ok (default ""%string (om_Annotations m !! subscript))
      else Err (OtherError "invalid key subscript")
    else if (path =? "metadata.labels")%string then
      if IsQualifiedName subscript then Ok (default ""%string (om_Labels m !! subscript))
      else Err (OtherError "invalid key subscript")
    else Err (OtherError "fieldPath does not support subscript")
  | None =>
    if (fieldPath =? "metadata.annotations")%string then Ok (FormatMap (om_Annotations m))
    else if (fieldPath =? "metadata.labels")%string then Ok (FormatMap (om_Labels m))
    else if (fieldPath =? "metadata.name")%string then Ok (om_Name m)
    else if (fieldPath =? "metadata.namespace")%string then Ok (om_Namespace m)
    else if (fieldPath =? "metadata.uid")%string then Ok (om_UID m)
    else Err (OtherError "unsupported fieldPath")
  end.

Definition podFieldSelectorRuntimeValue (fs : string * string) (pod : pod_t) (podIP : string) (podIPs : list string) :
    result string :=
  let? internalFieldPath := ConvertDownwardAPIFieldLabel fs.1 fs.2 in
  if (internalFieldPath =? "spec.nodeName")%string then Ok (pf_NodeName pod)
  else if (internalFieldPath =? "spec.serviceAccountName")%string then Ok (ServiceAccountName pod)
  else if (internalFieldPath =? "status.hostIP")%string then Ok (pf_HostIP pod)
  else if (internalFieldPath =? "status.podIP")%string then Ok podIP
  else if (internalFieldPath =? "status.podIPs")%string then Ok (Join podIPs ",")
  else ExtractFieldPathAsString (pf_meta pod) internalFieldPath.

Definition containerResourceRuntimeValue (fs : string * string) (pod : pod_t) (container : container_t) : result string :=
  if (fs.1 =? "")%string then ExtractContainerResourceValue fs.2 container
  else ExtractResourceValueByContainerName fs.2 pod fs.1.

(** The maps [configMaps], [secrets] and [tmpEnv]. *)
Record env_st := mkEnvSt {
  configMaps : gmap string DataMap;
  secrets : gmap string DataMap;
  tmpEnv : gmap string string
}.

(** A source by its name: one used before, or the first of the list. *)
Definition find_source (cache : gmap string DataMap) (l : list DataMap) (name : string) (optional : option bool) :
    result (option DataMap) :=
  match cache !! name with
  | Some d => Ok (Some d)
  | None =>
    match List.find (fun v => (dm_Name v =? name)%string) l with
    | Some d => Ok (Some d)
    | None => if default false optional then Ok None else Err (OtherError "config map or secret not found")
    end
  end.
Definition add_data (prefix : string) (data : gmap string string) (tmp : gmap string string) : gmap string string :=
  foldl (fun m '(k, v) =>
    let k := String.append prefix k in
    if IsEnvVarName k then <[k := v]> m else m) tmp (range data).

Definition env_from (v1ConfigMaps v1Secrets : list DataMap) (st : env_st) (envFrom : EnvFromSource) : result env_st :=
  match ConfigMapRef envFrom, SecretRef envFrom with
  | Some (name, optional), _ =>
    let? d := find_source (configMaps st) v1ConfigMaps name optional in
    Ok (match d with
        | None => st
        | Some d => mkEnvSt (<[name := d]> (configMaps st)) (secrets st) (add_data (ef_Prefix envFrom) (dm_Data d) (tmpEnv st))
        end)
  | None, Some (name, optional) =>
    let? d := find_source (secrets st) v1Secrets name optional in
    Ok (match d with
        | None => st
        | Some d => mkEnvSt (configMaps st) (<[name := d]> (secrets st)) (add_data (ef_Prefix envFrom) (dm_Data d) (tmpEnv st))
        end)
  | None, None => Ok st
  end.
Fixpoint env_from_all (v1ConfigMaps v1Secrets : list DataMap) (l : list EnvFromSource) (st : env_st) : result env_st :=
  match l with
  | [] => Ok st
  | e :: l => let? st := env_from v1ConfigMaps v1Secrets st e in env_from_all v1ConfigMaps v1Secrets l st
  end.

Definition key_value (sources : gmap string DataMap) (r : KeyRef) : result (option string) :=
  match sources !! kr_Name r with
  | None => Err (OtherError "couldn't get configMap from passed configMap lists")
  | Some d =>
    match dm_Data d !! kr_Key r with
    | Some v => Ok (Some v)
    | None => if default false (kr_Optional r) then Ok None else Err (OtherError "couldn't find key")
    end
  end.
(** The value of one declared variable; [None]: the variable is skipped.  The references in a value are
    read from [tmpEnv] as it is then. *)
Definition runtime_value (pod : pod_t) (container : container_t) (podIP : string) (podIPs : list string)
    (st : env_st) (envVar : EnvVarSpec) : result (option string) :=
  if negb (es_Value envVar =? "")%string then
    match Expand (mapping_in [tmpEnv st]) (to_bytes (es_Value envVar)) with
    | Some v => Ok (Some (of_bytes v))
    | None => Err (OtherError "panic: index out of range")
    end
  else match es_ValueFrom envVar with
  | None => Ok (Some ""%string)
  | Some src =>
    match FieldRef src, ResourceFieldRef src, ConfigMapKeyRef src, SecretKeyRef src with
    | Some fs, _, _, _ => let? v := podFieldSelectorRuntimeValue fs pod podIP podIPs in Ok (Some v)
    | None, Some fs, _, _ => let? v := containerResourceRuntimeValue fs pod container in Ok (Some v)
    | None, None, Some r, _ => key_value (configMaps st) r
    | None, None, None, Some r => key_value (secrets st) r
    | None, None, None, None => Ok (Some ""%string)
    end
  end.
Definition set_var (name : string) (v : option string) (st : env_st) : env_st :=
  match v with
  | Some v => mkEnvSt (configMaps st) (secrets st) (<[name := v]> (tmpEnv st))
  | None => st
  end.
Fixpoint declare_all (pod : pod_t) (container : container_t) (podIP : string) (podIPs : list string)
    (l : list EnvVarSpec) (st : env_st) : result env_st :=
  match l with
  | [] => Ok st
  | envVar :: l =>
    let? v := runtime_value pod container podIP podIPs st envVar in
    declare_all pod container podIP podIPs l (set_var (es_Name envVar) v st)
  end.

Definition MakeEnvironmentVariables (pod : pod_t) (container : container_t) (v1ConfigMaps v1Secrets : list DataMap)
    (podIP : string) (podIPs : list string) : result (list (string * string)) :=
  match EnableServiceLinks pod with
  | None => Err (OtherError "nil pod.spec.enableServiceLinks encountered, cannot construct envvars")
  | Some _ =>
    let? st := env_from_all v1ConfigMaps v1Secrets (cf_EnvFrom container) (mkEnvSt ∅ ∅ ∅) in
    let? st := declare_all pod container podIP podIPs (cf_Env container) st in
    Ok (range (tmpEnv st))
  end.

Lemma declare_all_app pod container podIP podIPs l1 l2 st :
  declare_all pod container podIP podIPs (l1 ++ l2) st =
  (let? st1 := declare_all pod container podIP podIPs l1 st in declare_all pod container podIP podIPs l2 st1).
Proof.
  revert st. induction l1 as [|v l1 IH]; intros st; simpl; [done|].
  destruct (runtime_value pod container podIP podIPs st v); simpl; [apply IH|done].
Qed.
Lemma declare_all_other pod container podIP podIPs l k : forall st st',
  declare_all pod container podIP podIPs l st = Ok st' -> k ∉ map es_Name l -> tmpEnv st' !! k = tmpEnv st !! k.
Proof.
  induction l as [|v l IH]; intros st st'; simpl; [by intros [= <-]|].
  destruct (runtime_value pod container podIP podIPs st v) as [x|e]; simpl; [|done].
  intros Hd [Hne Hk]%not_elem_of_cons. rewrite (IH _ _ Hd Hk). destruct x; [|done]. cbn. by rewrite lookup_insert_ne.
Qed.

(** C30: The environment of a container is the one its specification describes.  No variable is set twice;
    a declared variable has the value its last declaration has over the variables set before it, whatever
    the config maps and secrets say; a variable that is not declared has the value the sources give it. *)
Theorem environment_as_declared pod container v1ConfigMaps v1Secrets podIP podIPs envs :
  MakeEnvironmentVariables pod container v1ConfigMaps v1Secrets podIP podIPs = Ok envs ->
  NoDup (map fst envs) /\
  exists sources, env_from_all v1ConfigMaps v1Secrets (cf_EnvFrom container) (mkEnvSt ∅ ∅ ∅) = Ok sources /\
  (forall before v after, cf_Env container = before ++ v :: after -> es_Name v ∉ map es_Name after ->
     exists st x, declare_all pod container podIP podIPs before sources = Ok st /\
       runtime_value pod container podIP podIPs st v = Ok x /\
       forall y, (es_Name v, y) ∈ envs <-> Some y = match x with Some _ => x | None => tmpEnv st !! es_Name v end) /\
  (forall k y, k ∉ map es_Name (cf_Env container) -> (k, y) ∈ envs <-> tmpEnv sources !! k = Some y).
Proof.
  unfold MakeEnvironmentVariables. destruct (EnableServiceLinks pod); [|done].
  destruct (env_from_all _ _ _ _) as [sources|e]; [|done]. cbn [bind_result].
  destruct (declare_all pod container podIP podIPs (cf_Env container) sources) as [final|e] eqn:Hd; [|done].
  cbn [bind_result]. intros [= <-]. split.
  { apply NoDup_range_keys. }
  exists sources. split; [done|]. split.
  - intros before v after Henv Hlast. rewrite Henv, declare_all_app in Hd.
    destruct (declare_all pod container podIP podIPs before sources) as [st|e] eqn:Hb; [|done]. cbn [bind_result] in Hd.
    cbn [declare_all] in Hd. destruct (runtime_value pod container podIP podIPs st v) as [x|e] eqn:Hx; [|done].
    cbn [bind_result] in Hd. exists st, x. split; [done|]. split; [done|]. intros y.
    rewrite elem_of_range, (declare_all_other _ _ _ _ _ _ _ _ Hd Hlast).
    destruct x as [x|]; cbn; [rewrite lookup_insert_eq; naive_solver|]. naive_solver.
  - intros k y Hk. by rewrite elem_of_range, (declare_all_other _ _ _ _ _ _ _ _ Hd Hk).
Qed.
End Environment.

(** ** CPU and memory settings *)

Definition MinShares : Z := 2.
Definition MaxShares : Z := 262144.
Definition SharesPerCPU : Z := 1024.
Definition MilliCPUToCPU : Z := 1000.
Definition quotaPeriod : Z := 100000.
Definition minQuotaPeriod : Z := 1000.

(** [MilliCPUToShares] of [kubelet/cm/helpers_linux.go]; [/] rounds towards zero, products are 64-bit. *)
Definition MilliCPUToShares (milliCPU : Z) : Z :=
  if milliCPU =? 0 then MinShares
  else
    let shares := i64 (milliCPU * SharesPerCPU) ÷ MilliCPUToCPU in
    if shares <? MinShares then MinShares else if MaxShares <? shares then MaxShares else shares.
Definition milliCPUToQuota (milliCPU period : Z) : Z :=
  if milliCPU =? 0 then 0
  else
    let quota := i64 (milliCPU * period) ÷ MilliCPUToCPU in
    if quota <? minQuotaPeriod then minQuotaPeriod else quota.

(** [criv1.LinuxContainerResources] *)
Record LinuxResources := mkLinuxResources {
  CpuShares : Z; MemoryLimitInBytes : Z; CpuQuota : Z; CpuPeriod : Z }.
(** The fields of the node configuration in use, and the feature gate of the quota period. *)
Record CpuConfig := mkCpuConfig { CPUCFSQuota : bool; CPUCFSQuotaPeriod : Z; quota_period_gate : bool }.

Inductive NamespaceMode := NamespaceMode_POD | NamespaceMode_CONTAINER | NamespaceMode_NODE.
Record NamespaceOption := mkNamespaceOption { ns_Ipc : NamespaceMode; ns_Network : NamespaceMode; ns_Pid : NamespaceMode }.
Inductive Protocol := Protocol_TCP | Protocol_UDP | Protocol_SCTP.
Record PortMapping := mkPortMapping { pm_HostIp : string; pm_HostPort : Z; pm_ContainerPort : Z; pm_Protocol : Protocol }.

Section Resources.
Context {GR : GoRange} {QL : QuantityLib} {CL : ConfigLib}.
Abbreviation pod_t := (ConfigPod Handler).
Abbreviation container_t := (ConfigContainer Handler).

Definition qValue (q : Quantity) : Z := ScaledValue q 0.
Definition qMilliValue (q : Quantity) : Z := ScaledValue q (-3).
Definition qIsZero (q : Quantity) : bool := qval q =? 0.

Definition calculateLinuxResources (nodeConfig : CpuConfig) (cpuRequest cpuLimit memoryLimit : Quantity) : LinuxResources :=
  let cpuShares := if qIsZero cpuRequest && negb (qIsZero cpuLimit) then MilliCPUToShares (qMilliValue cpuLimit)
                   else MilliCPUToShares (qMilliValue cpuRequest) in
  let memLimit := qValue memoryLimit in
  if CPUCFSQuota nodeConfig then
    let cpuPeriod := if quota_period_gate nodeConfig then CPUCFSQuotaPeriod nodeConfig ÷ 1000 else quotaPeriod in
    mkLinuxResources cpuShares memLimit (milliCPUToQuota (qMilliValue cpuLimit) cpuPeriod) cpuPeriod
  else mkLinuxResources cpuShares memLimit 0 0.

(** [addResourceList] and [maxResourceList] change every entry once, so the order does not matter. *)
Definition addResourceList (list newList : ResourceList) : ResourceList :=
  union_with (fun value quantity => Some (qAdd value quantity)) list newList.
Definition maxResourceList (list newList : ResourceList) : ResourceList :=
  union_with (fun value quantity => Some (if 0 <? qCmp quantity value then quantity else value)) list newList.
Definition PodRequestsAndLimitsWithoutOverhead (pod : pod_t) : ResourceList * ResourceList :=
  let reqs := foldl addResourceList ∅ (map cf_Requests (pf_Containers pod)) in
  let limits := foldl addResourceList ∅ (map cf_Limits (pf_Containers pod)) in
  (foldl maxResourceList reqs (map cf_Requests (pf_InitContainers pod)),
   foldl maxResourceList limits (map cf_Limits (pf_InitContainers pod))).
Definition calculateSandboxResources (nodeConfig : CpuConfig) (pod : pod_t) : LinuxResources :=
  let '(req, lim) := PodRequestsAndLimitsWithoutOverhead pod in
  calculateLinuxResources nodeConfig (rl_get req ResourceCPU) (rl_get lim ResourceCPU) (rl_get lim ResourceMemory).

(** ** Namespaces, ports and the two configurations *)

Definition ipcNamespaceForPod (pod : pod_t) : NamespaceMode := if HostIPC pod then NamespaceMode_NODE else NamespaceMode_POD.
Definition networkNamespaceForPod (pod : pod_t) : NamespaceMode :=
  if pf_HostNetwork pod then NamespaceMode_NODE else NamespaceMode_POD.
Definition pidNamespaceForPod (pod : pod_t) : NamespaceMode :=
  if HostPID pod then NamespaceMode_NODE
  else if default false (ShareProcessNamespace pod) then NamespaceMode_POD
  else NamespaceMode_CONTAINER.
Definition namespacesForPod (pod : pod_t) : NamespaceOption :=
  mkNamespaceOption (ipcNamespaceForPod pod) (networkNamespaceForPod pod) (pidNamespaceForPod pod).

Definition ToRuntimeProtocol (protocol : string) : Protocol :=
  if (protocol =? "TCP")%string then Protocol_TCP
  else if (protocol =? "UDP")%string then Protocol_UDP
  else if (protocol =? "SCTP")%string then Protocol_SCTP
  else Protocol_TCP.
Definition MakePortMappings (container : container_t) : list PortMapping :=
  map (fun p => mkPortMapping (cp_HostIP p) (cp_HostPort p) (cp_ContainerPort p) (ToRuntimeProtocol (cp_Protocol p)))
    (cf_Ports container).
Definition HasPrivilegedContainer (pod : pod_t) : bool :=
  existsb (fun c => default false (Privileged c)) (pf_InitContainers pod ++ pf_Containers pod).

(** [for _, v := range l { ptrs = append(ptrs, &v) }]: every pointer is to the one variable of the loop,
    which ends with the last element. *)
Definition pointers_to_loop_variable {A} (l : list A) : list A :=
  match last l with Some v => map (fun _ => v) l | None => [] end.

(** [criv1.PodSandboxConfig], without the log directory, the security context and the empty DNS settings *)
Record SandboxConfig := mkSandboxConfig {
  psc_Name : string;
  psc_Namespace : string;
  psc_Uid : string;
  psc_Labels : labels;
  psc_Annotations : labels;
  psc_Hostname : string;
  psc_PortMappings : list PortMapping;
  psc_Privileged : bool;
  psc_Resources : LinuxResources
}.
Definition generatePodSandboxConfig (nodeConfig : CpuConfig) (pod : pod_t) : SandboxConfig :=
  mkSandboxConfig (om_Name (pf_meta pod)) (om_Namespace (pf_meta pod)) (om_UID (pf_meta pod))
    (newPodLabels pod) (newPodAnnotations pod)
    (if negb (pf_HostNetwork pod) && negb (Hostname pod =? "")%string then Hostname pod else ""%string)
    (mjoin (map (fun c => pointers_to_loop_variable (MakePortMappings c)) (pf_Containers pod)))
    (HasPrivilegedContainer pod) (calculateSandboxResources nodeConfig pod).

(** [strings.ReplaceAll(s, old, new)] for an [old] that is not empty *)
Fixpoint ReplaceAll (s old new : bytes) (skip : nat) : bytes :=
  match s with
  | [] => []
  | c :: s' =>
    match skip with
    | Datatypes.S n => ReplaceAll s' old new n
    | O => if bool_decide (take (List.length old) s = old) then new ++ ReplaceAll s' old new (List.length old - 1)
           else c :: ReplaceAll s' old new 0
    end
  end.
Definition substitute (envs : list (string * string)) (text : string) : string :=
  of_bytes (foldl (fun cmd '(name, value) => ReplaceAll cmd (syntaxWrap (to_bytes name)) (to_bytes value) 0) (to_bytes text) envs).

(** [criv1.ContainerConfig], without the log path and the terminal flags *)
Record CriContainerConfig := mkCriContainerConfig {
  ccf_Name : string;
  ccf_Image : string;
  ccf_Command : list string;
  ccf_Args : list string;
  ccf_WorkingDir : string;
  ccf_Labels : labels;
  ccf_Annotations : labels;
  ccf_Envs : list (string * string);
  ccf_Linux : option LinuxResources
}.
(** [logs] is the result of [BuildContainerLogsDirectory].  Both the command and its arguments are made
    from [container.Command]; what [generateLinuxContainerConfig] returns is dropped. *)
Definition generateContainerConfig (logs : result unit) (pod : pod_t) (IPs : list string) (container : container_t)
    (imageId : string) : result CriContainerConfig :=
  let? _ := logs in
  let? envs := MakeEnvironmentVariables pod container [] [] (default ""%string (head IPs)) IPs in
  let commands := map (substitute envs) (cf_Command container) in
  let args := map (substitute envs) (cf_Command container) in
  Ok (mkCriContainerConfig (cf_Name container) imageId commands args (cf_WorkingDir container)
        (newContainerLabels container pod) (newContainerAnnotations container pod 0 ∅) envs None).

Lemma MilliCPUToShares_range m : MinShares <= MilliCPUToShares m <= MaxShares.
Proof using.
  unfold MilliCPUToShares, MinShares, MaxShares. destruct (m =? 0); [lia|].
  destruct (Z.ltb_spec (i64 (m * SharesPerCPU) ÷ MilliCPUToCPU) 2); [lia|].
  destruct (Z.ltb_spec 262144 (i64 (m * SharesPerCPU) ÷ MilliCPUToCPU)); lia.
Qed.
Lemma milliCPUToQuota_spec m period :
  0 < m < 2 ^ 40 -> 0 < period <= 2 ^ 20 ->
  minQuotaPeriod <= milliCPUToQuota m period /\
  (milliCPUToQuota m period = minQuotaPeriod \/
   1000 * milliCPUToQuota m period <= m * period < 1000 * milliCPUToQuota m period + 1000).
Proof using.
  intros Hm Hp. unfold milliCPUToQuota, minQuotaPeriod, MilliCPUToCPU.
  replace (m =? 0) with false by lia. assert (0 < m * period < 2 ^ 62) as Hr by nia.
  rewrite (wraps_small 64) by lia. rewrite Z.quot_div_nonneg by lia.
  pose proof (Z.div_mod (m * period) 1000 ltac:(lia)). pose proof (Z.mod_pos_bound (m * period) 1000 ltac:(lia)).
  destruct (Z.ltb_spec (m * period / 1000) 1000); lia.
Qed.

(** The CPU settings a container gets are those of its request and limit.  Its shares stay in the range
    of the kernel whatever the numbers are, also when their product overflows; without a limit there is no
    quota, and with one of less than a billion CPUs, over a period of at most a second, the quota is the
    share of the period the limit asks for, but never less than a millisecond. *)
Theorem cpu_settings_sound cfg req lim mem :
  0 <= qMilliValue lim < 2 ^ 40 ->
  0 < CPUCFSQuotaPeriod cfg ÷ 1000 <= 10 ^ 6 ->
  let r := calculateLinuxResources cfg req lim mem in
  MinShares <= CpuShares r <= MaxShares /\ MemoryLimitInBytes r = qValue mem /\
  (CPUCFSQuota cfg = true ->
   (qMilliValue lim = 0 -> CpuQuota r = 0) /\
   (0 < qMilliValue lim -> minQuotaPeriod <= CpuQuota r /\
     (CpuQuota r = minQuotaPeriod \/ 1000 * CpuQuota r <= qMilliValue lim * CpuPeriod r < 1000 * CpuQuota r + 1000))).
Proof using.
  intros Hlim Hperiod r. split; [|split].
  - unfold r, calculateLinuxResources. destruct (CPUCFSQuota cfg), (qIsZero req && _); apply MilliCPUToShares_range.
  - unfold r, calculateLinuxResources. by destruct (CPUCFSQuota cfg).
  - intros Hq. unfold r, calculateLinuxResources. rewrite Hq. cbn [CpuQuota CpuPeriod]. split.
    + intros ->. done.
    + intros Hpos. apply milliCPUToQuota_spec; [lia|]. unfold quotaPeriod. destruct (quota_period_gate cfg); lia.
Qed.

(** What a pod asks for: the sum over its containers, or the most an init container asks for. *)
Lemma rl_get_add a b n : qval (rl_get (addResourceList a b) n) = qval (rl_get a n) + qval (rl_get b n).
Proof using.
  unfold rl_get, addResourceList. rewrite lookup_union_with.
  destruct (a !! n), (b !! n); cbn; rewrite ?qval_add, ?qval_zero; lia.
Qed.
Lemma rl_get_sum l n : forall a,
  qval (rl_get (foldl addResourceList a l) n) = qval (rl_get a n) + foldr Z.add 0 (map (fun r => qval (rl_get r n)) l).
Proof using.
  induction l as [|r l IH]; intros a; simpl; [lia|]. rewrite IH, rl_get_add. lia.
Qed.
Lemma rl_get_max a b n :
  0 <= qval (rl_get a n) -> 0 <= qval (rl_get b n) ->
  qval (rl_get (maxResourceList a b) n) = Z.max (qval (rl_get a n)) (qval (rl_get b n)).
Proof using.
  unfold rl_get, maxResourceList. rewrite lookup_union_with. intros Ha Hb.
  destruct (a !! n) as [x|], (b !! n) as [y|]; cbn in *; rewrite ?qval_zero in *; try lia.
  unfold qCmp. destruct (Z.compare_spec (qval y) (qval x)); cbn; lia.
Qed.
Lemma rl_get_max_all l n : forall a,
  0 <= qval (rl_get a n) -> Forall (fun r => 0 <= qval (rl_get r n)) l ->
  qval (rl_get (foldl maxResourceList a l) n) = foldr Z.max (qval (rl_get a n)) (map (fun r => qval (rl_get r n)) l).
Proof using.
  induction l as [|r l IH]; intros a Ha Hl; simpl; [done|]. apply Forall_cons in Hl as [Hr Hl].
  rewrite IH; [|rewrite rl_get_max by done; lia|done]. rewrite rl_get_max by done. clear IH.
  induction l as [|r2 l IH2]; simpl; [lia|]. apply Forall_cons in Hl as [Hr2 Hl]. rewrite (IH2 Hl). lia.
Qed.
Lemma sum_nonneg l : Forall (Z.le 0) l -> 0 <= foldr Z.add 0 l.
Proof using. induction 1; simpl; lia. Qed.

(** The requests of a pod cover all its containers.  For every resource, what the sandbox is sized by is
    the sum of what the containers ask for, raised to what an init container asks for alone. *)
Theorem pod_requests_cover_containers (pod : pod_t) n :
  (forall c, c ∈ pf_Containers pod ++ pf_InitContainers pod -> 0 <= qval (rl_get (cf_Requests c) n)) ->
  qval (rl_get (PodRequestsAndLimitsWithoutOverhead pod).1 n) =
    foldr Z.max (foldr Z.add 0 (map (fun c => qval (rl_get (cf_Requests c) n)) (pf_Containers pod)))
      (map (fun c => qval (rl_get (cf_Requests c) n)) (pf_InitContainers pod)).
Proof using.
  intros Hpos. cbn. assert (qval (rl_get (∅ : ResourceList) n) = 0) as H0 by (unfold rl_get; rewrite lookup_empty; apply qval_zero).
  rewrite rl_get_max_all.
  - rewrite rl_get_sum, H0. rewrite !map_map. done.
  - rewrite rl_get_sum, H0, Z.add_0_l. apply sum_nonneg. rewrite map_map, Forall_forall. intros x.
    rewrite list_elem_of_fmap. intros (c & -> & Hc). apply Hpos. set_solver.
  - rewrite Forall_forall. intros r. rewrite list_elem_of_fmap. intros (c & -> & Hc). apply Hpos. set_solver.
Qed.
End Resources.

(** ** Witnesses and examples *)

(** A library over plain values: JSON of a list of ports is a text of their numbers, which is enough for the
    port lists below. *)
Section Example.
Definition example_port (n : Z) : ContainerPort := mkContainerPort "" 0 n "TCP" "".
Definition ports_text (l : list ContainerPort) : result string :=
  if bool_decide (l = []) then Ok "[]"%string else if bool_decide (l = [example_port 80]) then Ok "[80]"%string else Err InternalError.
Definition text_ports (s : string) : result (list ContainerPort) :=
  if (s =? "[]")%string then Ok [] else if (s =? "[80]")%string then Ok [example_port 80] else Err InternalError.
#[export] Instance example_lib : ConfigLib | 100.
Proof.
  refine {| Handler := string; marshal_ports := ports_text; unmarshal_ports := text_ports;
            marshal_handler := fun h => Ok h; unmarshal_handler := fun s => Ok s;
            HashContainer := fun _ => 51966;
            IsEnvVarName := fun s => negb (s =? "")%string; IsQualifiedName := fun s => negb (s =? "")%string;
            FormatMap := fun _ => ""%string;
            ExtractContainerResourceValue := fun _ _ => Ok "1"%string;
            ExtractResourceValueByContainerName := fun _ _ _ => Ok "1"%string |}.
  - unfold ports_text, text_ports. intros l s. repeat case_bool_decide; intros [= <-]; subst; done.
  - by intros h s [= <-].
  - done.
Defined.

Definition example_container (ports : list ContainerPort) (env : list EnvVarSpec) (limit : Z) : ConfigContainer Handler :=
  mkConfigContainer "c" ["run $(A)"%string] ["--flag"%string] "/" ports
    [mkEnvFromSource "CFG_" (Some ("cm"%string, None)) None] env
    {[ResourceCPU := NewQuantity 1]} {[ResourceCPU := NewQuantity limit]} "/dev/log" "File" (Some "stop"%string) None.
Definition example_config_pod (cs : list (ConfigContainer Handler)) : ConfigPod Handler :=
  mkConfigPod (mkObjectMeta "p" "ns" "uid" "1" 0 None (Some 30) {["app"%string := "a"%string]} ∅ []) cs [] None (Some true)
    "node" "" "10.0.0.1" "" false false false None.

Lemma runtime_labels_round_trip_witness :
  let c := example_container [example_port 80] [] 2 in
  ac_ContainerPorts (getContainerInfoFromAnnotations (newContainerAnnotations c (example_config_pod [c]) 3 ∅)) = [example_port 80] /\
  lc_PodName (getContainerInfoFromLabels (newContainerLabels c (example_config_pod [c]))) = "p"%string.
Proof.
  cbn zeta. destruct (runtime_labels_round_trip (example_container [example_port 80] [] 2)
    (example_config_pod [example_container [example_port 80] [] 2]) 3) as (Hl & Ha & _).
  - split; cbn; [by eexists|by eexists|by intros z [= <-]|done].
  - done.
  - rewrite Ha, Hl. split; reflexivity.
Defined.

Definition example_env : list EnvVarSpec :=
  [mkEnvVarSpec "A" "a" None; mkEnvVarSpec "B" "<$(A)$(CFG_x)>" None; mkEnvVarSpec "CFG_x" "mine" None;
   mkEnvVarSpec "HOST" "" (Some (mkEnvVarSource (Some ("v1"%string, "status.hostIP"%string)) None None None))].
Definition example_cm : DataMap := mkDataMap "cm" {["x"%string := "1"%string; "y"%string := "2"%string]}.
Lemma environment_as_declared_witness :
  exists envs,
    MakeEnvironmentVariables (example_config_pod []) (example_container [] example_env 2) [example_cm] [] "10.1.0.2" [] = Ok envs /\
    ("B"%string, "<a1>"%string) ∈ envs /\ ("CFG_y"%string, "2"%string) ∈ envs.
Proof.
  destruct (MakeEnvironmentVariables (example_config_pod []) (example_container [] example_env 2) [example_cm] [] "10.1.0.2" [])
    as [envs|e] eqn:E; [|vm_compute in E; discriminate].
  exists envs. split; [done|].
  destruct (environment_as_declared _ _ _ _ _ _ _ E) as (_ & sources & Hs & Hd & Ho).
  vm_compute in Hs. injection Hs as <-. split.
  - destruct (Hd [mkEnvVarSpec "A" "a" None] (mkEnvVarSpec "B" "<$(A)$(CFG_x)>" None) (drop 2 example_env)) as (st & x & Hst & Hx & Hy);
      [reflexivity|refine (bool_decide_eq_true_1 _ _); vm_compute; reflexivity|].
    vm_compute in Hst. injection Hst as <-. vm_compute in Hx. injection Hx as <-. by apply Hy.
  - apply Ho; [refine (bool_decide_eq_true_1 _ _); vm_compute; reflexivity|]. vm_compute. reflexivity.
Defined.

Definition example_cfg : CpuConfig := mkCpuConfig true (10 ^ 8) false.
Lemma cpu_settings_sound_witness :
  let r := calculateLinuxResources example_cfg (NewQuantity 1) (NewQuantity 2) qzero in
  CpuShares r = 1024 /\ CpuQuota r = 200000 /\ minQuotaPeriod <= CpuQuota r.
Proof.
  cbn zeta. split; [reflexivity|]. split; [reflexivity|].
  destruct (cpu_settings_sound example_cfg (NewQuantity 1) (NewQuantity 2) qzero) as (_ & _ & Hq); [by vm_compute|by vm_compute|].
  apply Hq; [reflexivity|by vm_compute].
Defined.
Lemma pod_requests_cover_containers_witness :
  let c := example_container [] [] 2 in
  qval (rl_get (PodRequestsAndLimitsWithoutOverhead (example_config_pod [c; c])).1 ResourceCPU) = 2 * 10 ^ 9.
Proof.
  cbn zeta. rewrite (pod_requests_cover_containers (example_config_pod [example_container [] [] 2; example_container [] [] 2]) ResourceCPU).
  - vm_compute. reflexivity.
  - intros c Hc. cbn [example_config_pod pf_Containers pf_InitContainers app] in Hc.
    rewrite !elem_of_cons, elem_of_nil in Hc. destruct Hc as [->|[->|[]]]; vm_compute; discriminate.
Defined.

(** Of the ports of a container only the last reaches the sandbox, as often as there are ports. *)
Lemma only_last_port_forwarded :
  map pm_ContainerPort (psc_PortMappings (generatePodSandboxConfig example_cfg
    (example_config_pod [example_container [example_port 80; example_port 443] [] 2]))) = [443; 443].
Proof. vm_compute. reflexivity. Qed.

(** The arguments of a container are its command again, and its limits do not reach the runtime. *)
Lemma args_and_limits_dropped c config :
  generateContainerConfig (Ok ()) (example_config_pod []) [] c "image" = Ok config ->
  ccf_Args config = ccf_Command config /\ ccf_Linux config = None.
Proof.
  unfold generateContainerConfig. cbn [bind_result].
  destruct (MakeEnvironmentVariables _ _ _ _ _ _); [|done]. cbn [bind_result]. by intros [= <-].
Qed.

(** What a command becomes depends on the order in which the environment is iterated. *)
Lemma command_depends_on_order :
  substitute [("A", "$(B)"); ("B", "x")]%string "run $(A)" = "run x"%string /\
  substitute [("B", "x"); ("A", "$(B)")]%string "run $(A)" = "run $(B)"%string.
Proof. split; vm_compute; reflexivity. Qed.

(** An operator in front of a character outside ASCII spoils it: the bytes C3 A9 come out as C3 83 A9. *)
Lemma operator_spoils_utf8 :
  Expand (mapping_in []) (map ascii_of_nat [36; 195; 169]%nat) = Some (map ascii_of_nat [36; 195; 131; 169]%nat).
Proof. vm_compute. reflexivity. Qed.
End Example.
