(* ===== verification/SecurityContext.v ===== *)
(** * Security contexts of containers

    [pkg/nodeagent/pod/security_context.go] with [kubernetes/pkg/securitycontext/util.go]: what the runtime is told about the user, the
    privileges and the seccomp profile of a container, from the security contexts of the pod and of the
    container.  Windows options are left out.  Seccomp is said twice, as a path (deprecated) and as a
    profile.  The profile root is an absolute path. *)

From S2P Require Import Prelude GoStrings ApiTypes ObjectVersion ContainerConfig.
From Stdlib Require Import String.
#[local] Open Scope Z_scope.
#[local] Open Scope string_scope.

Inductive SeccompProfileType := SeccompUnconfined | SeccompRuntimeDefault | SeccompLocalhost | SeccompOther.
#[export] Instance SeccompProfileType_eq_dec : EqDecision SeccompProfileType.
Proof. solve_decision. Defined.
Record SeccompProfile := mkSeccompProfile { sp_Type : SeccompProfileType; LocalhostProfile : option string }.
Record SELinuxOptions := mkSELinuxOptions { se_User : string; se_Role : string; se_Type : string; se_Level : string }.
Record Capabilities := mkCapabilities { cap_Add : list string; cap_Drop : list string }.
Inductive ProcMountType := DefaultProcMount | UnmaskedProcMount.
#[export] Instance ProcMountType_eq_dec : EqDecision ProcMountType.
Proof. solve_decision. Defined.

(** [v1.SecurityContext] of a container and [v1.PodSecurityContext] *)
Record SecurityContext := mkSecurityContext {
  sc_Capabilities : option Capabilities;
  sc_Privileged : option bool;
  sc_SELinuxOptions : option SELinuxOptions;
  sc_RunAsUser : option Z;
  sc_RunAsGroup : option Z;
  sc_RunAsNonRoot : option bool;
  sc_ReadOnlyRootFilesystem : option bool;
  sc_AllowPrivilegeEscalation : option bool;
  sc_ProcMount : option ProcMountType;
  sc_SeccompProfile : option SeccompProfile
}.
Record PodSecurityContext := mkPodSecurityContext {
  psc_SELinuxOptions : option SELinuxOptions;
  psc_RunAsUser : option Z;
  psc_RunAsGroup : option Z;
  psc_RunAsNonRoot : option bool;
  psc_SupplementalGroups : list Z;
  psc_FSGroup : option Z;
  psc_SeccompProfile : option SeccompProfile
}.
Definition no_context : SecurityContext := mkSecurityContext None None None None None None None None None None.

(** ** [securitycontext.DetermineEffectiveSecurityContext] *)

Definition securityContextFromPodSecurityContext (pod : option PodSecurityContext) : option SecurityContext :=
  match pod with
  | None => None
  | Some p => Some (mkSecurityContext None None (psc_SELinuxOptions p) (psc_RunAsUser p) (psc_RunAsGroup p) (psc_RunAsNonRoot p)
                      None None None None)
  end.
(** [if container != nil { effective = container }] *)
Definition override {A} (container effective : option A) : option A :=
  match container with Some x => Some x | None => effective end.
Definition DetermineEffectiveSecurityContext (pod : option PodSecurityContext) (containerSc : option SecurityContext) : SecurityContext :=
  match securityContextFromPodSecurityContext pod, containerSc with
  | None, None => no_context
  | Some effectiveSc, None => effectiveSc
  | None, Some c => c
  | Some e, Some c =>
    mkSecurityContext (override (sc_Capabilities c) (sc_Capabilities e)) (override (sc_Privileged c) (sc_Privileged e))
      (override (sc_SELinuxOptions c) (sc_SELinuxOptions e)) (override (sc_RunAsUser c) (sc_RunAsUser e))
      (override (sc_RunAsGroup c) (sc_RunAsGroup e)) (override (sc_RunAsNonRoot c) (sc_RunAsNonRoot e))
      (override (sc_ReadOnlyRootFilesystem c) (sc_ReadOnlyRootFilesystem e))
      (override (sc_AllowPrivilegeEscalation c) (sc_AllowPrivilegeEscalation e)) (override (sc_ProcMount c) (sc_ProcMount e))
      (sc_SeccompProfile e)
  end.
Definition AddNoNewPrivileges (sc : SecurityContext) : bool :=
  match sc_AllowPrivilegeEscalation sc with None => false | Some b => negb b end.
Definition defaultMaskedPaths : list string :=
  ["/proc/acpi"; "/proc/kcore"; "/proc/keys"; "/proc/latency_stats"; "/proc/timer_list"; "/proc/timer_stats"; "/proc/sched_debug";
   "/proc/scsi"; "/sys/firmware"].
Definition defaultReadonlyPaths : list string :=
  ["/proc/asound"; "/proc/bus"; "/proc/fs"; "/proc/irq"; "/proc/sys"; "/proc/sysrq-trigger"].
Definition ConvertToRuntimeMaskedPaths (opt : option ProcMountType) : list string :=
  if bool_decide (opt = Some UnmaskedProcMount) then [] else defaultMaskedPaths.
Definition ConvertToRuntimeReadonlyPaths (opt : option ProcMountType) : list string :=
  if bool_decide (opt = Some UnmaskedProcMount) then [] else defaultReadonlyPaths.

(** ** Seccomp *)

Definition SeccompProfileRuntimeDefault : string := "runtime/default".
Definition SeccompProfileNameUnconfined : string := "unconfined".
Definition SeccompLocalhostProfileNamePrefix : string := "localhost/".
Definition SeccompContainerAnnotationKeyPrefix : string := "container.seccomp.security.alpha.kubernetes.io/".
Definition SeccompPodAnnotationKey : string := "seccomp.security.alpha.kubernetes.io/pod".

Definition filepath_Join (root name : string) : string := path_Clean (String.append root (String.append "/" name)).
Definition localhost_file (p : SeccompProfile) : option string :=
  match sp_Type p, LocalhostProfile p with
  | SeccompLocalhost, Some f => if (f =? "")%string then None else Some f
  | _, _ => None
  end.

Section Seccomp.
Context (annotations : gmap string string) (containerName : string) (podSc : option PodSecurityContext) (containerSc : option SecurityContext)
  (fallbackToRuntimeDefault : bool) (profileRootPath : string).

Definition fieldProfile (scmp : option SeccompProfile) : string :=
  match scmp with
  | None => if fallbackToRuntimeDefault then SeccompProfileRuntimeDefault else ""
  | Some p =>
    if bool_decide (sp_Type p = SeccompRuntimeDefault) then SeccompProfileRuntimeDefault
    else match localhost_file p with
         | Some f => String.append SeccompLocalhostProfileNamePrefix (filepath_Join profileRootPath f)
         | None =>
           if bool_decide (sp_Type p = SeccompUnconfined) then SeccompProfileNameUnconfined
           else if fallbackToRuntimeDefault then SeccompProfileRuntimeDefault else ""
         end
  end.
Definition annotationProfile (profile : string) : string :=
  if HasPrefix profile SeccompLocalhostProfileNamePrefix then
    String.append SeccompLocalhostProfileNamePrefix (filepath_Join profileRootPath (TrimPrefix profile SeccompLocalhostProfileNamePrefix))
  else profile.
Definition container_annotation : option string :=
  if (containerName =? "")%string then None else annotations !! String.append SeccompContainerAnnotationKeyPrefix containerName.
Definition getSeccompProfilePath : string :=
  match containerSc ≫= sc_SeccompProfile with
  | Some p => fieldProfile (Some p)
  | None =>
    match container_annotation with
    | Some profile => annotationProfile profile
    | None =>
      match podSc ≫= psc_SeccompProfile with
      | Some p => fieldProfile (Some p)
      | None =>
        match annotations !! SeccompPodAnnotationKey with
        | Some profile => annotationProfile profile
        | None => if fallbackToRuntimeDefault then SeccompProfileRuntimeDefault else ""
        end
      end
    end
  end.

(** [criv1.SecurityProfile] *)
Inductive SecurityProfile := ProfileRuntimeDefault | ProfileUnconfined | ProfileLocalhost (localhostRef : string).
Definition fieldSeccompProfile (scmp : option SeccompProfile) : SecurityProfile :=
  match scmp with
  | None => if fallbackToRuntimeDefault then ProfileRuntimeDefault else ProfileUnconfined
  | Some p =>
    if bool_decide (sp_Type p = SeccompRuntimeDefault) then ProfileRuntimeDefault
    else match localhost_file p with
         | Some f => ProfileLocalhost (filepath_Join profileRootPath f)
         | None => ProfileUnconfined
         end
  end.
Definition getSeccompProfile : SecurityProfile :=
  match containerSc ≫= sc_SeccompProfile with
  | Some p => fieldSeccompProfile (Some p)
  | None =>
    match podSc ≫= psc_SeccompProfile with
    | Some p => fieldSeccompProfile (Some p)
    | None => if fallbackToRuntimeDefault then ProfileRuntimeDefault else ProfileUnconfined
    end
  end.
End Seccomp.

(** ** What the runtime is told *)

(** [criv1.LinuxContainerSecurityContext] *)
Record LinuxSecurityContext := mkLinuxSecurityContext {
  lsc_Capabilities : option Capabilities;
  lsc_Privileged : bool;
  lsc_NamespaceOptions : NamespaceOption;
  lsc_SelinuxOptions : option SELinuxOptions;
  lsc_RunAsUser : option Z;
  lsc_RunAsGroup : option Z;
  lsc_RunAsUsername : string;
  lsc_ReadonlyRootfs : bool;
  lsc_SupplementalGroups : list Z;
  lsc_NoNewPrivs : bool;
  lsc_MaskedPaths : list string;
  lsc_ReadonlyPaths : list string;
  lsc_Seccomp : SecurityProfile;
  lsc_ApparmorProfile : string;
  lsc_SeccompProfilePath : string
}.
Definition AppArmorBetaContainerAnnotationKeyPrefix : string := "container.apparmor.security.beta.kubernetes.io/".
Definition GetProfileNameFromPodAnnotations (annotations : gmap string string) (containerName : string) : string :=
  default "" (annotations !! String.append AppArmorBetaContainerAnnotationKeyPrefix containerName).
(** The copies the code makes of these are the same values. *)
Definition convertToRuntimeSELinuxOption (opts : option SELinuxOptions) : option SELinuxOptions :=
  (fun o => mkSELinuxOptions (se_User o) (se_Role o) (se_Type o) (se_Level o)) <$> opts.
Definition convertToRuntimeCapabilities (opts : option Capabilities) : option Capabilities :=
  (fun o => mkCapabilities (map id (cap_Add o)) (map id (cap_Drop o))) <$> opts.

(** The fields [convertToRuntimeSecurityContext] sets; the effective context is never nil. *)
Record converted := mkConverted {
  cv_Capabilities : option Capabilities; cv_SelinuxOptions : option SELinuxOptions; cv_RunAsUser : option Z; cv_RunAsGroup : option Z;
  cv_Privileged : bool; cv_ReadonlyRootfs : bool
}.
Definition convertToRuntimeSecurityContext (sc : SecurityContext) : converted :=
  mkConverted (convertToRuntimeCapabilities (sc_Capabilities sc)) (convertToRuntimeSELinuxOption (sc_SELinuxOptions sc))
    (sc_RunAsUser sc) (sc_RunAsGroup sc) (default false (sc_Privileged sc)) (default false (sc_ReadOnlyRootFilesystem sc)).
Definition determineEffectiveSecurityContext (annotations : gmap string string) (namespaces : NamespaceOption) (containerName : string)
    (podSc : option PodSecurityContext) (containerSc : option SecurityContext) (uid : option Z) (username : string)
    (seccompDefault : bool) (seccompProfileRoot : string) : LinuxSecurityContext :=
  let effectiveSc := DetermineEffectiveSecurityContext podSc containerSc in
  let synthesized := convertToRuntimeSecurityContext effectiveSc in
  mkLinuxSecurityContext (cv_Capabilities synthesized) (cv_Privileged synthesized) namespaces (cv_SelinuxOptions synthesized)
    (match cv_RunAsUser synthesized with Some u => Some u | None => uid end) (cv_RunAsGroup synthesized)
    (match cv_RunAsUser synthesized with Some _ => "" | None => username end) (cv_ReadonlyRootfs synthesized)
    (match podSc with Some p => option_list (psc_FSGroup p) ++ psc_SupplementalGroups p | None => [] end)
    (AddNoNewPrivileges effectiveSc) (ConvertToRuntimeMaskedPaths (sc_ProcMount effectiveSc))
    (ConvertToRuntimeReadonlyPaths (sc_ProcMount effectiveSc))
    (getSeccompProfile podSc containerSc seccompDefault seccompProfileRoot)
    (GetProfileNameFromPodAnnotations annotations containerName)
    (getSeccompProfilePath annotations containerName podSc containerSc seccompDefault seccompProfileRoot).

(** ** What is proved *)

(** What a profile path says. *)
Definition profile_of_path (path : string) : SecurityProfile :=
  if (path =? SeccompProfileRuntimeDefault)%string then ProfileRuntimeDefault
  else if HasPrefix path SeccompLocalhostProfileNamePrefix then ProfileLocalhost (TrimPrefix path SeccompLocalhostProfileNamePrefix)
  else ProfileUnconfined.
(** A profile of a known type, with its file if it is one of the host. *)
Definition proper_profile (p : SeccompProfile) : Prop :=
  match sp_Type p with SeccompOther => False | SeccompLocalhost => is_Some (localhost_file p) | _ => True end.

Lemma fields_agree fb root p : proper_profile p -> profile_of_path (fieldProfile fb root (Some p)) = fieldSeccompProfile fb root (Some p).
Proof.
  intros Hp. unfold fieldProfile, fieldSeccompProfile. destruct (sp_Type p) eqn:Et; unfold proper_profile in Hp; rewrite Et in Hp.
  - rewrite bool_decide_false by done. unfold localhost_file. rewrite Et. done.
  - rewrite bool_decide_true by done. done.
  - rewrite bool_decide_false by done. destruct Hp as [f ->]. unfold profile_of_path.
    assert (HasPrefix (String.append SeccompLocalhostProfileNamePrefix (filepath_Join root f)) SeccompLocalhostProfileNamePrefix = true) as ->
      by (apply prefix_append).
    rewrite TrimPrefix_append. done.
  - done.
Qed.

(** The two ways of saying which seccomp profile a container gets agree: without the deprecated annotations and with
    profiles of a known type that name their file, the profile and the path mean the same, the profile of the container if it
    has one, else the one of the pod, else the default. *)
Theorem seccomp_settings_agree annotations containerName podSc containerSc fb root :
  container_annotation annotations containerName = None -> annotations !! SeccompPodAnnotationKey = None ->
  (forall p, containerSc ≫= sc_SeccompProfile = Some p -> proper_profile p) ->
  (forall p, podSc ≫= psc_SeccompProfile = Some p -> proper_profile p) ->
  profile_of_path (getSeccompProfilePath annotations containerName podSc containerSc fb root) = getSeccompProfile podSc containerSc fb root.
Proof.
  intros Ha Hp Hc Hps. unfold getSeccompProfilePath, getSeccompProfile.
  destruct (containerSc ≫= sc_SeccompProfile) as [p|]; [by apply fields_agree, Hc|]. rewrite Ha.
  destruct (podSc ≫= psc_SeccompProfile) as [p|]; [by apply fields_agree, Hps|]. rewrite Hp. by destruct fb.
Qed.

(** A container gets exactly what its own context and then the one of its pod ask for.  It is privileged only
    if its own context says so; it runs as the user of its context, else of the pod, else of the image; it may gain
    privileges unless its own context forbids it; and the kernel paths are masked unless its own context asks for
    them. *)
Theorem security_context_effective annotations namespaces containerName podSc containerSc uid username fb root :
  let r := determineEffectiveSecurityContext annotations namespaces containerName podSc containerSc uid username fb root in
  (lsc_Privileged r = true <-> containerSc ≫= sc_Privileged = Some true) /\
  lsc_RunAsUser r = override (containerSc ≫= sc_RunAsUser) (override (podSc ≫= psc_RunAsUser) uid) /\
  lsc_RunAsGroup r = override (containerSc ≫= sc_RunAsGroup) (podSc ≫= psc_RunAsGroup) /\
  lsc_SelinuxOptions r = override (containerSc ≫= sc_SELinuxOptions) (podSc ≫= psc_SELinuxOptions) /\
  lsc_Capabilities r = containerSc ≫= sc_Capabilities /\
  (lsc_NoNewPrivs r = true <-> containerSc ≫= sc_AllowPrivilegeEscalation = Some false) /\
  (lsc_MaskedPaths r = [] <-> containerSc ≫= sc_ProcMount = Some UnmaskedProcMount).
Proof.
  assert (forall o, convertToRuntimeSELinuxOption o = o) as Hse by (by intros [[]|]).
  assert (forall o, convertToRuntimeCapabilities o = o) as Hcap.
  { intros [[a d]|]; [|done]. unfold convertToRuntimeCapabilities. cbn. by rewrite !map_id. }
  assert (forall o : option bool, default false o = true <-> o = Some true) as Hb by (intros [[]|]; done).
  assert (forall o : option bool, match o with None => false | Some b => negb b end = true <-> o = Some false) as Hn by (intros [[]|]; done).
  assert (forall o, ConvertToRuntimeMaskedPaths o = [] <-> o = Some UnmaskedProcMount) as Hm.
  { intros o. unfold ConvertToRuntimeMaskedPaths. by case_bool_decide. }
  cbv zeta. unfold determineEffectiveSecurityContext, AddNoNewPrivileges, DetermineEffectiveSecurityContext. cbn -[convertToRuntimeCapabilities].
  rewrite Hse, Hcap. split; [rewrite Hb|]; [|split; [|split; [|split; [|split; [|split; [rewrite Hn|rewrite Hm]]]]]];
    destruct podSc as [p|], containerSc as [c|]; cbn; try done; try (by destruct (sc_Privileged c)); try (by destruct (sc_RunAsUser c));
    try (by destruct (sc_RunAsGroup c)); try (by destruct (sc_SELinuxOptions c)); try (by destruct (sc_Capabilities c));
    try (by destruct (sc_AllowPrivilegeEscalation c)); try (by destruct (sc_ProcMount c));
    try (by destruct (psc_RunAsUser p)); try (by destruct (psc_RunAsGroup p)); try (by destruct (psc_SELinuxOptions p)).
Qed.

(** ** Examples and witnesses *)

Definition with_seccomp (p : SeccompProfile) : option SecurityContext :=
  Some (mkSecurityContext None None None None None None None None None (Some p)).

Lemma seccomp_settings_agree_witness :
  let c := with_seccomp (mkSeccompProfile SeccompLocalhost (Some "p.json")) in
  getSeccompProfilePath ∅ "c" None c true "/var/lib/seccomp" = "localhost//var/lib/seccomp/p.json" /\
  getSeccompProfile None c true "/var/lib/seccomp" = ProfileLocalhost "/var/lib/seccomp/p.json".
Proof.
  intros c. split; [vm_compute; reflexivity|].
  rewrite <- (seccomp_settings_agree ∅ "c" None c true "/var/lib/seccomp"); [vm_compute; reflexivity|reflexivity|reflexivity| |discriminate].
  intros p [= <-]. vm_compute. by eexists.
Defined.

(** A profile of the host without a file: the path says the runtime's default, the profile says unconfined, and the
    profile is what the runtime looks at. *)
Example profile_without_file_unconfined :
  let c := with_seccomp (mkSeccompProfile SeccompLocalhost None) in
  getSeccompProfilePath ∅ "c" None c true "/var/lib/seccomp" = SeccompProfileRuntimeDefault /\
  getSeccompProfile None c true "/var/lib/seccomp" = ProfileUnconfined.
Proof. split; reflexivity. Qed.

(** The annotation of a pod reaches only the path. *)
Example annotated_profile_ignored :
  getSeccompProfilePath {[SeccompPodAnnotationKey := SeccompProfileRuntimeDefault]} "c" None None false "/var/lib/seccomp" = SeccompProfileRuntimeDefault /\
  getSeccompProfile None None false "/var/lib/seccomp" = ProfileUnconfined.
Proof. split; vm_compute; reflexivity. Qed.

(** A profile may name any file of the host. *)
Example profile_outside_root :
  getSeccompProfile None (with_seccomp (mkSeccompProfile SeccompLocalhost (Some "../../../etc/open.json"))) true "/var/lib/seccomp" =
  ProfileLocalhost "/etc/open.json".
Proof. vm_compute. reflexivity. Qed.
