(* ===== verification/LinuxConfig.v ===== *)
(** * Linux settings of sandboxes and containers

    The rest of [pkg/nodeagent/pod/kubelet_util.go] and [pod_sandbox.go]: huge page limits, the memory settings of
    cgroup v2, devices and mounts of a container, the security context, overhead and addresses of a
    sandbox, over [ContainerConfig] and [SecurityContext].

    [HostLib] stands for what is read from outside: the page sizes of the kernel, the parsers of quantities and
    addresses, SELinux, and the file of the termination log.  Numbers are Go's: the factor 0.8 is the
    double nearest to it, and a product of doubles is rounded once. *)

From S2P Require Import Prelude GoStrings ApiTypes Interfaces ObjectVersion Expansion ContainerConfig SecurityContext.
From Stdlib Require Import String.
#[local] Open Scope Z_scope.

Class HostLib {QL : QuantityLib} := {
  (** [resource.ParseQuantity], [libcontainercgroups.HugePageSizes], [netutils.ParseIPSloppy], [selinux.GetEnabled] *)
  ParseQuantity : string -> result Quantity;
  HugePageSizes : list string;
  ParseIPSloppy : string -> bool;
  selinux_GetEnabled : bool
}.

(** ** Huge pages *)

Definition ResourceHugePagesPrefix : string := "hugepages-".
Definition IsHugePageResourceName (name : string) : bool := HasPrefix name ResourceHugePagesPrefix.
Definition hugePageSizeUnitList : list string := ["B"; "KB"; "MB"; "GB"; "TB"; "PB"]%string.
(** The loop goes on while the size is a multiple of 1024 and there is a larger unit. *)
Fixpoint unit_loop (size : Z) (unit : string) (larger : list string) : Z * string * list string :=
  match larger with
  | next :: larger' => if Z.rem size 1024 =? 0 then unit_loop (size ÷ 1024) next larger' else (size, unit, larger)
  | [] => (size, unit, [])
  end.
Definition HugePageUnitSizeFromByteSize (size : Z) : result string :=
  let '(size, unit, larger) := unit_loop size "B" (tail hugePageSizeUnitList) in
  if (1024 <? size) && negb (bool_decide (larger = [])) then Err (OtherError "size must be guaranteed to divisible into the largest units")
  else Ok (String.append (FormatInt size) unit).

Section LinuxConfig.
Context {GR : GoRange} {QL : QuantityLib} {CL : ConfigLib} {HL : HostLib}.
Abbreviation pod_t := (ConfigPod Handler).
Abbreviation container_t := (ConfigContainer Handler).

Definition HugePageSizeFromResourceName (name : string) : result Quantity :=
  if IsHugePageResourceName name then ParseQuantity (TrimPrefix name ResourceHugePagesPrefix)
  else Err (OtherError "invalid hugepage name").
(** [uint64] of a 64-bit integer *)
Definition u64 (z : Z) : Z := z mod 2 ^ 64.
(** The text of the page size a resource limits, if it is one of huge pages. *)
Definition huge_page_size (name : string) : option string :=
  if IsHugePageResourceName name then
    match HugePageSizeFromResourceName name with
    | Err _ => None
    | Ok pageSize =>
      match HugePageUnitSizeFromByteSize (qValue pageSize) with Err _ => None | Ok sizeString => Some sizeString end
    end
  else None.
Definition require_page (required : gmap string Z) (limit : string * Quantity) : gmap string Z :=
  match huge_page_size limit.1 with Some sizeString => <[sizeString := u64 (qValue limit.2)]> required | None => required end.
Definition GetHugepageLimitsFromResources (limits : gmap string Quantity) : list (string * Z) :=
  let required := foldl require_page ∅ (range limits) in
  map (fun pageSize => (pageSize, default 0 (required !! pageSize))) HugePageSizes.

(** ** Linux settings of a container *)

Definition MemoryMin : string := "memory.min".
Definition MemoryHigh : string := "memory.high".
(** [DefaultMemoryThrottlingFactor] = 0.8, as a multiple of 2^-52 *)
Definition throttling_factor : Z := 3602879701896397.
(** [int64(float64(memoryLimit) * config.DefaultMemoryThrottlingFactor)] *)
Definition throttled (memoryLimit : Z) : Z :=
  float64_of_int (float64_of_int memoryLimit * throttling_factor) ÷ 2 ^ 52.
Definition memory_unified (memoryRequest memoryLimit : Z) : gmap string string :=
  let unified := if memoryRequest =? 0 then ∅ else {[MemoryMin := FormatInt memoryRequest]} in
  let memoryHigh := if memoryLimit =? 0 then 0 else throttled memoryLimit in
  if memoryRequest <? memoryHigh then <[MemoryHigh := FormatInt memoryHigh]> unified else unified.

Record NodeSettings := mkNodeSettings {
  cfg_cpu : CpuConfig; OOMScoreAdj : Z; cfg_SeccompDefault : bool; cfg_SeccompProfileRoot : string
}.
(** [criv1.LinuxContainerConfig] *)
Record LinuxContainerConfig := mkLinuxContainer {
  lcc_SecurityContext : LinuxSecurityContext;
  lcc_Resources : LinuxResources;
  lcc_OomScoreAdj : Z;
  lcc_HugepageLimits : list (string * Z);
  lcc_MemorySwapLimitInBytes : Z;
  lcc_Unified : gmap string string
}.
(** [hugeLimits] are the limits of the container under the names the model's resources do not have. *)
Definition generateLinuxContainerConfig (nodeConfig : NodeSettings) (container : container_t) (pod : pod_t)
    (podSc : option PodSecurityContext) (containerSc : option SecurityContext) (hugeLimits : gmap string Quantity)
    (uid : option Z) (username : string) (enforceMemoryQoS : bool) : LinuxContainerConfig :=
  let resources := calculateLinuxResources (cfg_cpu nodeConfig) (rl_get (cf_Requests container) ResourceCPU)
                     (rl_get (cf_Limits container) ResourceCPU) (rl_get (cf_Limits container) ResourceMemory) in
  mkLinuxContainer
    (determineEffectiveSecurityContext (om_Annotations (pf_meta pod)) (namespacesForPod pod) (cf_Name container) podSc containerSc
       uid username (cfg_SeccompDefault nodeConfig) (cfg_SeccompProfileRoot nodeConfig))
    resources (OOMScoreAdj nodeConfig) (GetHugepageLimitsFromResources hugeLimits) (MemoryLimitInBytes resources)
    (if enforceMemoryQoS
     then memory_unified (qValue (rl_get (cf_Requests container) ResourceMemory)) (qValue (rl_get (cf_Limits container) ResourceMemory))
     else ∅).

(** ** Devices and mounts *)

Record DeviceInfo := mkDeviceInfo { PathOnHost : string; PathInContainer : string; dev_Permissions : string }.
Record CriDevice := mkCriDevice { cd_HostPath : string; cd_ContainerPath : string; cd_Permissions : string }.
Record Mount := mkMount {
  mt_Name : string; mt_ContainerPath : string; mt_HostPath : string; mt_ReadOnly : bool; SELinuxRelabel : bool; Propagation : Z
}.
Record CriMount := mkCriMount {
  cm_HostPath : string; cm_ContainerPath : string; cm_Readonly : bool; cm_SelinuxRelabel : bool; cm_Propagation : Z
}.
Definition makeDevices (devices : list DeviceInfo) : list CriDevice :=
  map (fun device => mkCriDevice (PathOnHost device) (PathInContainer device) (dev_Permissions device)) devices.

(** [filepath.Clean] of a rooted path; the second half is Windows. *)
Definition MakeAbsolutePath (goos path : string) : string :=
  if negb (goos =? "windows")%string then path_Clean (String.append "/" path)
  else if has_char path ":"%char then path
  else if HasPrefix path "/" || HasPrefix path "\" then String.append "c:" path
  else String.append "c:\" path.

(** [cid] is the random name, [created] the result of [os.Create]. *)
Definition makeMounts (goos cid : string) (created : result unit) (mounts : list Mount) (podContainerDir : string)
    (container : container_t) : list CriMount :=
  let volumeMounts := map (fun v => mkCriMount (mt_HostPath v) (mt_ContainerPath v) (mt_ReadOnly v)
                                      (SELinuxRelabel v && selinux_GetEnabled) (Propagation v)) mounts in
  if negb (podContainerDir =? "")%string && negb (TerminationMessagePath container =? "")%string then
    match created with
    | Err _ => volumeMounts
    | Ok _ =>
      volumeMounts ++ [mkCriMount (MakeAbsolutePath goos (filepath_Join podContainerDir cid))
                         (MakeAbsolutePath goos (TerminationMessagePath container)) false selinux_GetEnabled 0]
    end
  else volumeMounts.

(** ** Linux settings of a sandbox *)

(** [criv1.LinuxPodSandboxConfig] *)
Record LinuxSandboxConfig := mkLinuxSandbox {
  lsb_CgroupParent : string;
  lsb_Privileged : bool;
  lsb_Seccomp : SecurityProfile;
  lsb_Sysctls : gmap string string;
  lsb_RunAsUser : option Z;
  lsb_RunAsGroup : option Z;
  lsb_NamespaceOptions : option NamespaceOption;
  lsb_SupplementalGroups : list Z;
  lsb_SelinuxOptions : option SELinuxOptions;
  lsb_Resources : option LinuxResources;
  lsb_Overhead : option LinuxResources
}.
(** [sysctls] is the list of the pod's security context. *)
Definition addPodSecurityContext (goos : string) (pod : pod_t) (sc : option PodSecurityContext) (sysctls : list (string * string))
    (lpsc : LinuxSandboxConfig) : LinuxSandboxConfig :=
  let unix := negb (goos =? "windows")%string in
  match sc with
  | None =>
    mkLinuxSandbox (lsb_CgroupParent lpsc) (lsb_Privileged lpsc) (lsb_Seccomp lpsc) ∅ (lsb_RunAsUser lpsc) (lsb_RunAsGroup lpsc)
      (lsb_NamespaceOptions lpsc) (lsb_SupplementalGroups lpsc) (lsb_SelinuxOptions lpsc) (lsb_Resources lpsc) (lsb_Overhead lpsc)
  | Some sc =>
    mkLinuxSandbox (lsb_CgroupParent lpsc) (lsb_Privileged lpsc) (lsb_Seccomp lpsc)
      (foldl (fun m '(name, value) => <[name := value]> m) ∅ sysctls)
      (if unix then override (psc_RunAsUser sc) (lsb_RunAsUser lpsc) else lsb_RunAsUser lpsc)
      (if unix then override (psc_RunAsGroup sc) (lsb_RunAsGroup lpsc) else lsb_RunAsGroup lpsc)
      (Some (namespacesForPod pod))
      (lsb_SupplementalGroups lpsc ++ (if unix then option_list (psc_FSGroup sc) else []) ++ psc_SupplementalGroups sc)
      (if unix then override (psc_SELinuxOptions sc) (lsb_SelinuxOptions lpsc) else lsb_SelinuxOptions lpsc)
      (lsb_Resources lpsc) (lsb_Overhead lpsc)
  end.
(** [cgroupParent] is the answer of the quality-of-service manager. *)
Definition generatePodSandboxLinuxConfig (goos cgroupParent : string) (pod : pod_t) (sc : option PodSecurityContext)
    (sysctls : list (string * string)) : LinuxSandboxConfig :=
  addPodSecurityContext goos pod sc sysctls
    (mkLinuxSandbox cgroupParent (HasPrivilegedContainer pod) ProfileRuntimeDefault ∅ None None None [] None None None).

(** [overhead]: CPU and memory of [pod.Spec.Overhead] *)
Definition convertOverheadToLinuxResources (nodeConfig : CpuConfig) (overhead : option (Quantity * Quantity)) : LinuxResources :=
  match overhead with
  | Some (cpu, memory) => calculateLinuxResources nodeConfig cpu cpu memory
  | None => mkLinuxResources 0 0 0 0
  end.
Definition applySandboxResources (nodeConfig : CpuConfig) (pod : pod_t) (overhead : option (Quantity * Quantity))
    (psc : option LinuxSandboxConfig) : option LinuxSandboxConfig :=
  (fun l => mkLinuxSandbox (lsb_CgroupParent l) (lsb_Privileged l) (lsb_Seccomp l) (lsb_Sysctls l) (lsb_RunAsUser l)
     (lsb_RunAsGroup l) (lsb_NamespaceOptions l) (lsb_SupplementalGroups l) (lsb_SelinuxOptions l)
     (Some (calculateSandboxResources nodeConfig pod)) (Some (convertOverheadToLinuxResources nodeConfig overhead))) <$> psc.

(** The primary address and the additional ones; one that cannot be read, and there is none. *)
Fixpoint additional_ips (l : list string) (podIPs : list string) : list string :=
  match l with
  | [] => podIPs
  | ip :: l => if ParseIPSloppy ip then additional_ips l (podIPs ++ [ip]) else []
  end.
Definition determinePodSandboxIPs (network : option (string * list string)) : list string :=
  match network with
  | None => []
  | Some (ip, additional) =>
    if (ip =? "")%string then additional_ips additional []
    else if ParseIPSloppy ip then additional_ips additional [ip]
    else []
  end.
(** ** Huge pages, proved *)

Lemma unit_loop_spec size unit larger s u rest :
  unit_loop size unit larger = (s, u, rest) ->
  exists k, size = s * 1024 ^ Z.of_nat k /\ u :: rest = drop k (unit :: larger) /\ (k <= List.length larger)%nat.
Proof using.
  revert size unit. induction larger as [|next larger IH]; intros size unit; simpl.
  - intros [= <- <- <-]. exists 0%nat. split_and!; [lia|done|lia].
  - destruct (Z.eqb_spec (Z.rem size 1024) 0) as [Hr|Hr].
    + intros (k & Hk & Hd & Hl)%IH. exists (Datatypes.S k). split_and!; [|done|simpl; lia].
      rewrite Nat2Z.inj_succ, Z.pow_succ_r by lia. pose proof (Z.quot_rem' size 1024). lia.
    + intros [= <- <- <-]. exists 0%nat. split_and!; [lia|done|simpl; lia].
Qed.
(** The text is the size: a number with the unit of a power of 1024. *)
Lemma unit_size_value size t :
  HugePageUnitSizeFromByteSize size = Ok t ->
  exists s k, size = s * 1024 ^ Z.of_nat k /\ (k < 6)%nat /\
    exists u, hugePageSizeUnitList !! k = Some u /\ t = String.append (FormatInt s) u.
Proof using.
  unfold HugePageUnitSizeFromByteSize. destruct (unit_loop _ _ _) as [[s u] rest] eqn:E.
  apply unit_loop_spec in E as (k & Hs & Hd & Hl). destruct (_ && _); [done|]. intros [= <-].
  exists s, k. split; [done|]. simpl in Hl. split; [lia|]. exists u. split; [|done].
  assert ((u :: rest) !! 0%nat = Some u) as H by done. rewrite Hd, lookup_drop, Nat.add_0_r in H. exact H.
Qed.

(** The loop over the limits keeps the last amount of every page size. *)
Lemma required_spec (l : list (string * Quantity)) m size v :
  foldl require_page m l !! size = Some v ->
  m !! size = Some v \/ exists name amount, (name, amount) ∈ l /\ huge_page_size name = Some size /\ v = u64 (qValue amount).
Proof.
  revert m. induction l as [|[name amount] l IH]; intros m; simpl; [by left|].
  intros [H|(n & a & Hin & Hs & Hv)]%IH; [|right; exists n, a; split_and!; [by right|done|done]].
  unfold require_page in H. simpl in H. destruct (huge_page_size name) as [s|] eqn:Hs; [|by left].
  apply lookup_insert_Some in H as [[-> <-]|[_ H]]; [|by left]. right. exists name, amount. split_and!; [by left|done|done].
Qed.
Lemma required_mono (l : list (string * Quantity)) m size :
  is_Some (m !! size) -> is_Some (foldl require_page m l !! size).
Proof.
  revert m. induction l as [|[name amount] l IH]; intros m Hm; simpl; [done|]. apply IH.
  unfold require_page. simpl. destruct (huge_page_size name); [|done]. by apply lookup_insert_is_Some'; right.
Qed.
Lemma required_some (l : list (string * Quantity)) m size name amount :
  (name, amount) ∈ l -> huge_page_size name = Some size ->
  is_Some (foldl require_page m l !! size).
Proof.
  revert m. induction l as [|[n a] l IH]; intros m Hin Hs; [by apply elem_of_nil in Hin|]. simpl.
  apply elem_of_cons in Hin as [[= <- <-]|Hin]; [|by apply IH]. apply required_mono. unfold require_page. simpl.
  by rewrite Hs, lookup_insert_eq.
Qed.

(** Every page size of the kernel gets exactly one limit: that of a resource which names this size, and 0
    if there is none; so pages nobody asked for cannot be used. *)
Theorem huge_page_limits_complete (limits : gmap string Quantity) :
  map fst (GetHugepageLimitsFromResources limits) = HugePageSizes /\
  forall size v, (size, v) ∈ GetHugepageLimitsFromResources limits ->
    (exists name amount, limits !! name = Some amount /\ huge_page_size name = Some size /\ v = u64 (qValue amount)) \/
    (v = 0 /\ forall name, is_Some (limits !! name) -> huge_page_size name <> Some size).
Proof.
  unfold GetHugepageLimitsFromResources. set (m := foldl _ _ _). split; [by rewrite map_map, map_id|].
  intros size v (s & [= <- ->] & _)%list_elem_of_fmap. destruct (m !! size) as [w|] eqn:Hw; simpl.
  - left. apply required_spec in Hw as [Hw|(name & amount & Hin%elem_of_range & Hs & ->)]; [by rewrite lookup_empty in Hw|eauto].
  - right. split; [done|]. intros name [amount Ha] Hs. apply elem_of_range in Ha.
    destruct (required_some (range limits) ∅ size name amount Ha Hs) as [x Hx]. unfold m in Hw. congruence.
Qed.

(** ** Memory, proved *)

Lemma float64_of_int_close z : 0 <= z -> Z.abs (float64_of_int z - z) * 2 ^ 53 <= z.
Proof using.
  intros Hz. unfold float64_of_int. rewrite (Z.abs_eq z) by lia. set (e := Z.log2 z - 52).
  destruct (Z.leb_spec e 0) as [He|He]; [lia|].
  destruct (decide (z = 0)) as [->|Hnz]; [done|]. rewrite Z.sgn_pos by lia.
  pose proof (Z.log2_spec z ltac:(lia)) as [Hlog _].
  assert (2 ^ Z.log2 z = 2 ^ (e - 1) * 2 ^ 53) as Hpow.
  { rewrite <- Z.pow_add_r by lia. f_equal. unfold e. lia. }
  assert (2 ^ e = 2 * 2 ^ (e - 1)) as Hdouble by (rewrite <- Z.pow_succ_r by lia; f_equal; lia).
  pose proof (Z.div_mod z (2 ^ e) ltac:(lia)) as Hdm. pose proof (Z.mod_pos_bound z (2 ^ e) ltac:(lia)) as Hr.
  set (q := z / 2 ^ e) in *. set (r := z mod 2 ^ e) in *. set (h := 2 ^ (e - 1)) in *.
  assert (Z.abs (1 * ((if (h <? r) || ((r =? h) && Z.odd q) then q + 1 else q) * 2 ^ e) - z) <= h) as Hclose.
  { destruct (Z.ltb_spec h r); simpl; [nia|]. destruct (Z.eqb_spec r h); simpl; [destruct (Z.odd q); nia|nia]. }
  nia.
Qed.
(** Four fifths of the limit, rounded down, up to a petabyte; the error of the product and of the factor
    never shows. *)
Lemma throttled_bounds limit : 0 <= limit < 2 ^ 50 -> 5 * throttled limit <= 4 * limit <= 5 * throttled limit + 5.
Proof using.
  intros Hl. unfold throttled. rewrite (float64_of_int_exact limit) by lia.
  pose proof (float64_of_int_close (limit * throttling_factor) ltac:(unfold throttling_factor; lia)) as Hc.
  set (f := float64_of_int _) in *. unfold throttling_factor in Hc.
  assert (0 <= f) by (destruct (decide (limit = 0)) as [->|]; [unfold f; vm_compute; discriminate|lia]).
  rewrite Z.quot_div_nonneg by lia.
  pose proof (Z.div_mod f (2 ^ 52) ltac:(lia)). pose proof (Z.mod_pos_bound f (2 ^ 52) ltac:(lia)). lia.
Qed.

(** The memory settings of a container.  Its request becomes the guaranteed minimum; with a limit below
    a petabyte, four fifths of it is where throttling starts, unless the request is at least that much,
    so that throttling always starts above the guaranteed minimum and below the limit. *)
Theorem memory_settings_sound memoryRequest memoryLimit :
  0 <= memoryRequest -> 0 <= memoryLimit < 2 ^ 50 ->
  let unified := memory_unified memoryRequest memoryLimit in
  (memoryRequest <> 0 -> unified !! MemoryMin = Some (FormatInt memoryRequest)) /\
  (memoryRequest = 0 -> unified !! MemoryMin = None) /\
  match unified !! MemoryHigh with
  | Some t => exists high, t = FormatInt high /\ memoryRequest < high /\ 5 * high <= 4 * memoryLimit <= 5 * high + 5
  | None => 4 * memoryLimit <= 5 * memoryRequest + 5
  end.
Proof using.
  intros Hr Hl. cbv zeta. unfold memory_unified. pose proof (throttled_bounds memoryLimit Hl) as Hb.
  set (base := if memoryRequest =? 0 then _ else _).
  assert ((if memoryLimit =? 0 then 0 else throttled memoryLimit) = throttled memoryLimit) as ->.
  { destruct (Z.eqb_spec memoryLimit 0) as [->|]; [reflexivity|done]. }
  assert (base !! MemoryMin = (if memoryRequest =? 0 then None else Some (FormatInt memoryRequest))) as Hmin
    by (unfold base; by destruct (_ =? 0)).
  assert (base !! MemoryHigh = None) as Hhigh by (unfold base; by destruct (_ =? 0)).
  destruct (Z.ltb_spec memoryRequest (throttled memoryLimit)) as [Hlt|Hle].
  - rewrite lookup_insert_ne, lookup_insert_eq, Hmin by done.
    split_and!; [intros H; by rewrite (proj2 (Z.eqb_neq _ _) H)|by intros ->|]. eauto.
  - rewrite Hmin, Hhigh. split_and!; [intros H; by rewrite (proj2 (Z.eqb_neq _ _) H)|by intros ->|]. lia.
Qed.

(** ** Sandboxes, proved *)

Lemma additional_ips_spec l acc :
  (Forall (fun ip => ParseIPSloppy ip = true) l -> additional_ips l acc = acc ++ l) /\
  (~ Forall (fun ip => ParseIPSloppy ip = true) l -> additional_ips l acc = []).
Proof.
  revert acc. induction l as [|ip l IH]; intros acc; simpl; [split; [by rewrite app_nil_r|intros []; constructor]|].
  destruct (ParseIPSloppy ip) eqn:Hip; split.
  - intros [_ Hl]%Forall_cons. destruct (IH (acc ++ [ip])) as [H _]. rewrite H, <- (assoc_L (++)) by done. done.
  - intros Hn. apply IH. intros Hl. apply Hn. by constructor.
  - intros [H _]%Forall_cons. congruence.
  - done.
Qed.
(** The addresses of a sandbox are the ones its network names, the primary one first, or none at all if
    one of them cannot be read. *)
Lemma sandbox_ips_spec ip additional :
  let named := (if (ip =? "")%string then [] else [ip]) ++ additional in
  (Forall (fun a => ParseIPSloppy a = true) named -> determinePodSandboxIPs (Some (ip, additional)) = named) /\
  (~ Forall (fun a => ParseIPSloppy a = true) named -> determinePodSandboxIPs (Some (ip, additional)) = []).
Proof.
  cbv zeta. unfold determinePodSandboxIPs. destruct (ip =? "")%string; simpl; [apply (additional_ips_spec additional [])|].
  destruct (additional_ips_spec additional [ip]) as [H1 H2]. destruct (ParseIPSloppy ip) eqn:Hip; split.
  - by intros [_ ?]%Forall_cons; apply H1.
  - intros Hn. apply H2. intros Hl. apply Hn. by constructor.
  - intros [? _]%Forall_cons. congruence.
  - done.
Qed.

(** A pod without a security context of its own gets no namespace options: the runtime then gives a pod
    that asked for the network of the host a network of its own. *)
Lemma no_context_no_namespaces goos cgroupParent (pod : pod_t) sysctls :
  lsb_NamespaceOptions (generatePodSandboxLinuxConfig goos cgroupParent pod None sysctls) = None.
Proof. done. Qed.
Lemma context_namespaces goos cgroupParent (pod : pod_t) sc sysctls :
  lsb_NamespaceOptions (generatePodSandboxLinuxConfig goos cgroupParent pod (Some sc) sysctls) = Some (namespacesForPod pod).
Proof. done. Qed.
End LinuxConfig.
