(* ===== verification/ImageManager.v ===== *)
(** * Images

    [pkg/nodeagent/images/image_manager.go].  The image service of the runtime and the parser of image references are not in
    the tree: the service is the class [ImageService], the parser is a parameter that says of a reference whether it has
    a tag and whether it has a digest. *)

From S2P Require Import Prelude GoStrings.
From Stdlib Require Import String.
#[local] Open Scope string_scope.
#[local] Open Scope go_scope.

Record CriImage := mkCriImage { img_Id : string; img_RepoTags : list string }.
Class ImageService (W : Type) := {
  svc_ListImages : string -> SM W (list CriImage);
  svc_PullImage : string -> SM W unit
}.
#[export] Hint Mode ImageService ! : typeclass_instances.

Inductive PullPolicy := PullAlways | PullNever | PullIfNotPresent.
#[export] Instance PullPolicy_eq_dec : EqDecision PullPolicy.
Proof. solve_decision. Defined.

Definition ErrImageInspect : GoError := OtherError "ImageInspectError".
Definition ErrImagePull : GoError := OtherError "ErrImagePull".
Definition ErrInvalidImageName : GoError := OtherError "InvalidImageName".

(** Nothing calls it. *)
Definition shouldPullImage (policy : PullPolicy) (imagePresent : bool) : bool :=
  if bool_decide (policy = PullNever) then false
  else bool_decide (policy = PullAlways) || bool_decide (policy = PullIfNotPresent) && negb imagePresent.

Section ImageManager.
Context {W : Type} {IS : ImageService W} (parseNormalizedNamed : string -> option (bool * bool)).

Record imageManager := mkImageManager { imageRefs : gmap string CriImage; imageService : W }.
Implicit Types m : imageManager.

Definition NewImageManager (w : W) : imageManager := mkImageManager ∅ w.
Definition service {A} (e : GoError) (c : SM W A) : SM imageManager A := fun m =>
  let '(r, w) := c (imageService m) in
  (match r with Ok a => Ok a | Err _ => Err e end, mkImageManager (imageRefs m) w).
Definition remember (t : string) (image : CriImage) : SM imageManager unit :=
  sm_modify (fun m => mkImageManager (<[t := image]> (imageRefs m)) (imageService m)).

Definition applyDefaultImageTag (image : string) : result string :=
  match parseNormalizedNamed image with
  | None => Err ErrInvalidImageName
  | Some (isTagged, isDigested) => Ok (if negb isTagged && negb isDigested then String.append image ":latest" else image)
  end.

(** The loop over the listed images, from the value of [present] before it. *)
Fixpoint pick_image (imageWithTag : string) (present : bool) (images : list CriImage) : option CriImage * bool :=
  match images with
  | [] => (None, present)
  | v :: images =>
    let present := foldl (fun p t => HasSuffix t imageWithTag || p) present (img_RepoTags v) in
    if present then (Some v, present) else pick_image imageWithTag present images
  end.

(** [None] is the nil image with a nil error. *)
Definition image_with_tag (imageWithTag : string) : SM imageManager (option CriImage) :=
  do! m <- sm_get;
  match imageRefs m !! imageWithTag with
  | Some image => sm_ret (Some image)
  | None =>
    do! images <- service ErrImageInspect (svc_ListImages imageWithTag);
    match pick_image imageWithTag false images with
    | (Some image, _) => do! _ <- remember imageWithTag image; sm_ret (Some image)
    | (None, present) =>
      do! _ <- service ErrImagePull (svc_PullImage imageWithTag);
      do! images <- service ErrImageInspect (svc_ListImages imageWithTag);
      match pick_image imageWithTag present images with
      | (Some image, _) => do! _ <- remember imageWithTag image; sm_ret (Some image)
      | (None, _) => sm_ret None
      end
    end
  end.
Definition PullImageForContainer (image : string) : SM imageManager (option CriImage) :=
  do! imageWithTag <- sm_lift (applyDefaultImageTag image);
  image_with_tag imageWithTag.

(** ** What is proved *)

Definition named (imageWithTag : string) (image : CriImage) : Prop := exists t, t ∈ img_RepoTags image /\ HasSuffix t imageWithTag = true.
Definition refs_ok m : Prop := forall t image, imageRefs m !! t = Some image -> named t image.

Lemma any_suffix t tags : forall b, foldl (fun p x => HasSuffix x t || p) b tags = true <-> b = true \/ exists x, x ∈ tags /\ HasSuffix x t = true.
Proof using.
  induction tags as [|x tags IH]; intros b; cbn.
  - split; [by left|]. intros [|(x & Hx & _)]; [done|]. by apply elem_of_nil in Hx.
  - rewrite IH. rewrite orb_true_iff. split.
    + intros [[H| ->]|(y & Hy & H)]; [|by left|]; right; [exists x|exists y]; split; [left|done|by right|done].
    + intros [->|(y & [->|Hy]%elem_of_cons & H)]; [by left; right|by left; left|]. right. by exists y.
Qed.
Lemma pick_image_spec t images : match pick_image t false images with
  | (Some image, _) => image ∈ images /\ named t image
  | (None, present) => present = false /\ forall image, image ∈ images -> ~ named t image
  end.
Proof using.
  induction images as [|v images IH]; cbn.
  - split; [done|]. intros image H. by apply elem_of_nil in H.
  - destruct (foldl _ false (img_RepoTags v)) eqn:E.
    + apply any_suffix in E as [|(x & Hx & Hs)]; [done|]. split; [left|by exists x].
    + destruct (pick_image t false images) as [[image|] p]; destruct IH as [H1 H2].
      * split; [by right|done].
      * split; [done|]. intros image [->|Hin]%elem_of_cons; [|by apply H2].
        intros (x & Hx & Hs). assert (foldl (fun p x => HasSuffix x t || p) false (img_RepoTags v) = true) as E'; [|congruence].
        apply any_suffix. right. by exists x.
Qed.

(** What the runtime promises: an image that was pulled is listed. *)
Class PulledListed := {
  pulled_listed t (w w1 : W) : svc_PullImage t w = (Ok (), w1) -> forall images (w2 : W), svc_ListImages t w1 = (Ok images, w2) ->
    exists image, image ∈ images /\ named t image
}.

Lemma image_known t m img : imageRefs m !! t = Some img -> image_with_tag t m = (Ok (Some img), m).
Proof using. intros H. unfold image_with_tag. by rewrite sm_bind_eq, sm_get_eq, H. Qed.
Lemma remember_ok t img m : refs_ok m -> named t img -> refs_ok (mkImageManager (<[t := img]> (imageRefs m)) (imageService m)).
Proof using. intros Hok Hn t' img'. cbn. intros [[<- <-]|[_ H]]%lookup_insert_Some; [done|by apply Hok]. Qed.
Lemma image_with_tag_spec {PL : PulledListed} t m r m' :
  refs_ok m -> image_with_tag t m = (Ok r, m') ->
  refs_ok m' /\ exists img, r = Some img /\ named t img /\ imageRefs m' !! t = Some img.
Proof using.
  intros Hok. unfold image_with_tag. rewrite sm_bind_eq, sm_get_eq. destruct (imageRefs m !! t) as [img|] eqn:Em.
  { rewrite sm_ret_eq. intros [= <- <-]. split; [done|]. exists img. split; [done|]. split; [by apply Hok|done]. }
  rewrite sm_bind_eq. unfold service at 1. destruct (svc_ListImages t (imageService m)) as [[images|e] w1]; [|done].
  pose proof (pick_image_spec t images) as Hp. destruct (pick_image t false images) as [[img|] present].
  { destruct Hp as [_ Hn]. unfold remember at 1. rewrite sm_bind_eq, sm_modify_eq, sm_ret_eq. intros [= <- <-].
    split; [by apply (remember_ok t img (mkImageManager (imageRefs m) w1))|]. exists img. cbn. by rewrite lookup_insert_eq. }
  destruct Hp as [-> _]. rewrite sm_bind_eq. unfold service at 1. cbn [imageService imageRefs].
  destruct (svc_PullImage t w1) as [[[]|e] w2] eqn:Epull; [|done]. rewrite sm_bind_eq. unfold service at 1. cbn [imageService imageRefs].
  destruct (svc_ListImages t w2) as [[images2|e] w3] eqn:El; [|done].
  destruct (pulled_listed t w1 w2 Epull images2 w3 El) as (img0 & Hin0 & Hn0).
  pose proof (pick_image_spec t images2) as Hp. destruct (pick_image t false images2) as [[img|] present2].
  - destruct Hp as [_ Hn]. unfold remember at 1. rewrite sm_bind_eq, sm_modify_eq, sm_ret_eq. intros [= <- <-].
    split; [by apply (remember_ok t img (mkImageManager (imageRefs m) w3))|]. exists img. cbn. by rewrite lookup_insert_eq.
  - destruct Hp as [_ Hno]. by destruct (Hno img0 Hin0).
Qed.

(** A container gets an image with its reference.  If the runtime lists what it has pulled, a call that does not
    fail returns an image that has a tag ending in the reference of the container, with the tag latest if it has none; and
    a second call returns the same image without asking the runtime. *)
Theorem container_gets_its_image {PL : PulledListed} image m r m' :
  refs_ok m -> PullImageForContainer image m = (Ok r, m') ->
  refs_ok m' /\ exists t img, applyDefaultImageTag image = Ok t /\ r = Some img /\ named t img /\
    PullImageForContainer image m' = (Ok (Some img), m').
Proof using.
  intros Hok. unfold PullImageForContainer. rewrite !sm_bind_eq, !sm_lift_eq.
  destruct (applyDefaultImageTag image) as [t|e]; [|done]. intros H.
  destruct (image_with_tag_spec t m r m' Hok H) as (Hok' & img & -> & Hn & Hm). split; [done|]. exists t, img.
  split; [done|]. split; [done|]. split; [done|]. by apply image_known.
Qed.
End ImageManager.

(** ** A small image service *)

(** The images of the host and of the registry; references are not parsed further than to their last colon. *)
Definition sim_images : Type := list CriImage * list CriImage.
Definition tagged_with (t : string) (images : list CriImage) : list CriImage :=
  List.filter (fun i => existsb (fun x => HasSuffix x t) (img_RepoTags i)) images.
#[export] Instance sim_image_service : ImageService sim_images | 100 := {|
  svc_ListImages := fun t w => (Ok (tagged_with t w.1), w);
  svc_PullImage := fun t w =>
    match tagged_with t w.2 with
    | [] => (Err NotFoundError, w)
    | i :: _ => (Ok (), ((w.1 ++ [i])%list, w.2))
    end
|}.
Lemma tagged_named t images image : image ∈ tagged_with t images <-> image ∈ images /\ named t image.
Proof.
  unfold tagged_with. rewrite !list_elem_of_In, filter_In, existsb_exists. unfold named.
  split; intros [H (x & Hx & Hs)]; (split; [done|]); exists x; (split; [by apply list_elem_of_In|done]).
Qed.
#[export] Instance sim_pulled_listed : PulledListed (W := sim_images).
Proof.
  split. intros t w w1. cbn. pose proof (tagged_named t w.2) as Ht. destruct (tagged_with t w.2) as [|i rest]; [done|]. intros [= <-] images w2 [= <- _].
  destruct (proj1 (Ht i)) as [_ Hn]; [left|]. exists i. split; [|done]. apply tagged_named. split; [|done]. apply elem_of_app. right. left.
Qed.
Definition example_parse (image : string) : option (bool * bool) :=
  if (image =? "")%string then None else Some (1 <? List.length (Split image ":"), false)%nat.
Definition busybox : CriImage := mkCriImage "sha256:1" ["docker.io/library/busybox:latest"].
Definition example_images : imageManager (W := sim_images) := NewImageManager ([], [busybox]).

Lemma container_gets_its_image_witness :
  exists img m', PullImageForContainer example_parse "busybox" example_images = (Ok (Some img), m') /\ named "busybox:latest" img.
Proof.
  destruct (PullImageForContainer example_parse "busybox" example_images) as [[r|e] m'] eqn:E; [|vm_compute in E; discriminate].
  destruct (container_gets_its_image example_parse "busybox" example_images r m') as (_ & t & img & Ht & -> & Hn & _).
  - intros t img H. cbn in H. rewrite lookup_empty in H. discriminate.
  - exact E.
  - exists img, m'. split; [reflexivity|]. vm_compute in Ht. injection Ht as <-. exact Hn.
Defined.

(** Any image whose name ends in the reference is taken: another repository's image starts in its place. *)
Example foreign_image_taken :
  let other := mkCriImage "sha256:2" ["docker.io/someone/evil-busybox:latest"] in
  (PullImageForContainer example_parse "busybox" (NewImageManager ([other; busybox], []))).1 = Ok (Some other).
Proof. vm_compute. reflexivity. Qed.

(** The pull policy is not looked at: an image that must be pulled again is not, and one that must never be pulled is. *)
Example pull_policy_ignored :
  shouldPullImage PullAlways true = true /\ shouldPullImage PullNever false = false /\
  imageService (PullImageForContainer example_parse "busybox" (NewImageManager ([busybox], [busybox]))).2 = ([busybox], [busybox]) /\
  imageService (PullImageForContainer example_parse "busybox" example_images).2 = ([busybox], [busybox]).
Proof. repeat split; vm_compute; reflexivity. Qed.
