(* ===== verification/NodeActor.v ===== *)
(** * The node actor

    [pkg/nodeagent/node]: the agent of a node ([node_actor.go], [node.go], [message.go]).  It obeys the control
    plane's messages, keeps one pod actor per pod, gives pods their host ports, numbers the changes it
    reports and forwards them through the actor of [pkg/nodeagent/fornaxcore/fornaxcore_actor.go].

    A pod object and its actor are one pointer into [pod_objs]; a message that reports a change carries
    that pointer, so that the node actor sees the pod as it is when it handles the message.  All the pod
    actors use the same dependencies [W]; [NodeDeps] adds what only the node actor needs: the status of
    the machine and the local database, whose writes the source starts in goroutines. *)

From S2P Require Import Prelude GoStrings ApiTypes Interfaces Collection PortManager NodeManager NodeMonitor AgentTypes ContainerActor PodActor.
From Stdlib Require Import String.
#[local] Open Scope Z_scope.
#[local] Open Scope go_scope.

Class NodeDeps {QL : QuantityLib} (W : Type) := {
  nd_SetNodeStatus : Node -> SM W Node;
  nd_PutPod : FornaxPod -> Z -> SM W unit;
  nd_DelPod : string -> SM W unit;
  nd_PutNode : Node -> Z -> SM W unit
}.
#[export] Hint Mode NodeDeps - ! : typeclass_instances.

(** [net.ParseCIDR]: whether a text is an address range; the first address of the node, which its network
    provider finds on the host *)
Class NetLib := { ParseCIDR : string -> bool; node_address : string }.

Inductive agent_NodeState :=
  | NodeStateInitializing | NodeStateInitialized | NodeStateRegistering | NodeStateRegistered | NodeStateReady.
#[export] Instance agent_NodeState_eq_dec : EqDecision agent_NodeState.
Proof. solve_decision. Defined.

(** What the node actor receives. *)
Inductive node_msg {QL : QuantityLib} :=
  | FromCore (body : MessageBody)
  | PodChanged (l : nat)
  | SessionChanged (l s : nat)
  | NodeUpdate.
(** What it sends to the actor of the control plane: a message of the protocol, or, when a command is
    refused, an [internal.PodStatusChange] or [internal.SessionStatusChange]. *)
Inductive core_msg {QL : QuantityLib} :=
  | ToCore (body : MessageBody)
  | InternalChange.

(** ** [fornaxcore_actor.go] *)

Record FornaxCoreActor {QL : QuantityLib} := mkCoreActor {
  fca_identifier : string;
  fornaxcores : list string;
  messageSeq : Z;
  put_messages : list (string * FornaxCoreMessage)
}.

Section CoreActor.
Context {QL : QuantityLib}.

(** Every known instance of the control plane gets the message; the type assertion on the body panics
    for an internal message. *)
Definition actorMessageProcess (m : core_msg) : SM FornaxCoreActor unit := fun a =>
  let seq := i64 (messageSeq a + 1) in
  let a := mkCoreActor _ (fca_identifier a) (fornaxcores a) seq (put_messages a) in
  match m with
  | ToCore body =>
    let msg := mkMessage _ (FormatUint seq) (fca_identifier a) body in
    (Ok (), mkCoreActor _ (fca_identifier a) (fornaxcores a) seq
              (put_messages a ++ map (fun core => (core, msg)) (fornaxcores a)))
  | InternalChange =>
    match fornaxcores a with
    | [] => (Ok (), a)
    | _ => (Err (OtherError "panic: interface conversion"), a)
    end
  end.

(** The agent is told which instances of the control plane there are.  A connection is kept only if its
    address is among the new ones, which are those without a connection yet. *)
Definition onFornaxCoreConfigurationCommand (primaryIp : string) (standbys : list string) :
    SM FornaxCoreActor unit := fun a =>
  if bool_decide (primaryIp = ""%string) then
    (Err (OtherError "primary ip in fornax core configuration is nil"), a)
  else
    let newips := filter (fun ip => ip ∉ fornaxcores a) (primaryIp :: standbys) in
    let oldfornaxcores := filter (fun ip => ip ∉ newips) (fornaxcores a) in
    let newfornaxcores := remove_dups newips in
    (Ok (), mkCoreActor _ (fca_identifier a)
              (filter (fun ip => ip ∉ oldfornaxcores) (fornaxcores a ++ newfornaxcores)) (messageSeq a) (put_messages a)).

(** So every connection is dropped, also the one to an instance the configuration names. *)
Lemma configuration_drops_known_cores primaryIp standbys (a : FornaxCoreActor) ip :
  primaryIp <> ""%string -> ip ∈ fornaxcores a ->
  ip ∉ fornaxcores (onFornaxCoreConfigurationCommand primaryIp standbys a).2.
Proof.
  intros Hp Hip. unfold onFornaxCoreConfigurationCommand. rewrite bool_decide_false by done. cbn [snd fornaxcores].
  intros [Hold _]%list_elem_of_filter. apply Hold, list_elem_of_filter. split; [|done].
  by intros [? _]%list_elem_of_filter.
Qed.
Example known_configuration_disconnects (a : FornaxCoreActor) :
  fornaxcores a = ["core1"%string] -> fornaxcores (onFornaxCoreConfigurationCommand "core1" [] a).2 = [].
Proof. intros Ha. unfold onFornaxCoreConfigurationCommand. cbn [snd fornaxcores bool_decide]. rewrite Ha. vm_compute. reflexivity. Qed.

End CoreActor.

Section NodeActor.
Context {GR : GoRange} {GS : GoSort} {CG : ClientGo} {QL : QuantityLib} {SC : SessionCodec} {W : Type}
  {AD : AgentDeps W} {ND : NodeDeps W} {NL : NetLib}.
Context (NodeIP RuntimeHandler : string).

Record node_st := mkNodeSt {
  na_state : agent_NodeState;
  V1Node : Node;
  Revision : Z;
  node_Pods : gmap string nat;
  podActors : gmap string nat;
  pod_objs : gmap nat (pod_st W);
  nodePortManager : HostPortRange;
  na_mailbox : list node_msg;
  core_sent : list core_msg;
  na_deps : W;
  (** the revision the goroutine of [onNodeConfigurationCommand] has taken and not reported yet *)
  na_ready : option Z
}.
Implicit Types n : node_st.

Definition set_na_state v n := mkNodeSt v (V1Node n) (Revision n) (node_Pods n) (podActors n) (pod_objs n)
  (nodePortManager n) (na_mailbox n) (core_sent n) (na_deps n) (na_ready n).
Definition set_V1Node v n := mkNodeSt (na_state n) v (Revision n) (node_Pods n) (podActors n) (pod_objs n)
  (nodePortManager n) (na_mailbox n) (core_sent n) (na_deps n) (na_ready n).
Definition set_Revision v n := mkNodeSt (na_state n) (V1Node n) v (node_Pods n) (podActors n) (pod_objs n)
  (nodePortManager n) (na_mailbox n) (core_sent n) (na_deps n) (na_ready n).
Definition set_node_pods v w n := mkNodeSt (na_state n) (V1Node n) (Revision n) v w (pod_objs n)
  (nodePortManager n) (na_mailbox n) (core_sent n) (na_deps n) (na_ready n).
Definition set_pod_objs v n := mkNodeSt (na_state n) (V1Node n) (Revision n) (node_Pods n) (podActors n) v
  (nodePortManager n) (na_mailbox n) (core_sent n) (na_deps n) (na_ready n).
Definition set_nodePortManager v n := mkNodeSt (na_state n) (V1Node n) (Revision n) (node_Pods n) (podActors n)
  (pod_objs n) v (na_mailbox n) (core_sent n) (na_deps n) (na_ready n).
Definition set_na_mailbox v n := mkNodeSt (na_state n) (V1Node n) (Revision n) (node_Pods n) (podActors n)
  (pod_objs n) (nodePortManager n) v (core_sent n) (na_deps n) (na_ready n).
Definition set_core_sent v n := mkNodeSt (na_state n) (V1Node n) (Revision n) (node_Pods n) (podActors n)
  (pod_objs n) (nodePortManager n) (na_mailbox n) v (na_deps n) (na_ready n).
Definition set_na_deps v n := mkNodeSt (na_state n) (V1Node n) (Revision n) (node_Pods n) (podActors n)
  (pod_objs n) (nodePortManager n) (na_mailbox n) (core_sent n) v (na_ready n).
Definition set_na_ready v n := mkNodeSt (na_state n) (V1Node n) (Revision n) (node_Pods n) (podActors n)
  (pod_objs n) (nodePortManager n) (na_mailbox n) (core_sent n) (na_deps n) v.

Definition node_get : SM node_st node_st := fun n => (Ok n, n).
Definition node_dep {A} (c : SM W A) : SM node_st A := fun n =>
  let '(r, w) := c (na_deps n) in (r, set_na_deps w n).
Definition port_manager {A} (c : SM HostPortRange A) : SM node_st A := fun n =>
  let '(r, pm) := c (nodePortManager n) in (r, set_nodePortManager pm n).
Definition notify_core (m : core_msg) : SM node_st unit :=
  sm_modify (fun n => set_core_sent (core_sent n ++ [m]) n).

(** What a pod actor told its supervisor, as messages of the node actor. *)
Definition from_pod (l : nat) (m : status_msg) : node_msg :=
  match m with PodStatusChange => PodChanged l | SessionStatusChange s => SessionChanged l s end.
(** A step of the pod behind [l] or of its actors. *)
Definition run_pod {A} (l : nat) (c : SM (pod_st W) A) : SM node_st A := fun n =>
  match pod_objs n !! l with
  | None => (Err nil_panic, n)
  | Some a =>
    let '(r, a') := c (set_pa_deps (na_deps n) a) in
    (r, set_na_mailbox (na_mailbox n ++ map (from_pod l) (pa_notified a'))
          (set_na_deps (pa_deps a') (set_pod_objs (<[l := set_pa_notified [] a']> (pod_objs n)) n)))
  end.
Definition get_pod (l : nat) : SM node_st FornaxPod := run_pod l the_pod.

(** ** Revisions *)

(** [fmt.Sprint] of a revision that has not overflowed *)
Definition incrementNodeRevision : SM node_st Z := fun n =>
  let revision := i64 (Revision n + 1) in
  let node := map_om (om_set_ResourceVersion (FormatUint revision)) (V1Node n) in
  let '(_, w) := nd_PutNode node revision (na_deps n) in
  (Ok revision, set_na_deps w (set_V1Node node (set_Revision revision n))).

(** ** Pods *)

Definition with_resource_version (v : Z) (p : FornaxPod) : FornaxPod :=
  set_fp_Pod (map_om (om_set_ResourceVersion (FormatUint v)) (fp_Pod p)) p.

(** [ValidatePodSpec] and [ValidateConfigMapSpec] accept everything. *)
Definition buildAFornaxPod (now : Z) (state : types_PodState) (v1pod : Pod) (isDaemon : bool) : SM node_st FornaxPod :=
  do! n <- node_get;
  let fornaxPod := mkFornaxPod _ (Name v1pod) state isDaemon v1pod None ∅ ∅ ∅ ∅ in
  let fornaxPod := SetPodStatus now (Some node_address) fornaxPod in
  let pod := map_om (fun m => om_set_Labels (<[LabelFornaxCoreNode := Name (V1Node n)]> (om_Labels m)) m)
               (fp_Pod fornaxPod) in
  do! pod <- port_manager (AllocatePodPortMapping NodeIP pod);
  sm_ret (set_fp_Pod pod fornaxPod).

(** The actor of a pod starts by recovering the actors of its containers and sessions. *)
Definition startPodActor (fpod : FornaxPod) : SM node_st nat :=
  do! n <- node_get;
  let status := Status (fp_Pod fpod) in
  let pod := set_Status (mkPodStatus (Phase status) node_address (StartTime status) (ps_Message status) (ps_Reason status))
               (map_om (fun m => om_set_Labels (<[LabelFornaxCoreNode := Name (V1Node n)]> (om_Labels m)) m)
                  (fp_Pod fpod)) in
  let fpod := set_fp_Pod pod fpod in
  let l := fresh (dom (pod_objs n)) in
  do! _ <- sm_modify (fun n => set_pod_objs (<[l := NewPodActor fpod (na_deps n)]> (pod_objs n)) n);
  do! _ <- sm_modify (fun n =>
    set_node_pods (<[Identifier fpod := l]> (node_Pods n)) (<[Identifier fpod := l]> (podActors n)) n);
  do! _ <- run_pod l recoverContainerAndSessionActors;
  sm_ret l.

Definition createPodAndActor (now : Z) (state : types_PodState) (v1Pod : Pod) (isDaemon : bool) : SM node_st nat :=
  do! fpod <- buildAFornaxPod now state v1Pod isDaemon;
  do! _ <- node_dep (nd_PutPod fpod 0);
  startPodActor fpod.

Definition cleanupPodStoreAndActor (fppod : FornaxPod) : SM node_st unit :=
  do! n <- node_get;
  do! _ <- match podActors n !! Identifier fppod with
           | Some l => run_pod l pa_Stop
           | None => sm_ret ()
           end;
  do! _ <- sm_modify (fun n => set_node_pods (delete (Identifier fppod) (node_Pods n))
                                 (delete (Identifier fppod) (podActors n)) n);
  do! _ <- port_manager (DeallocatePodPortMapping (fp_Pod fppod));
  node_dep (nd_DelPod (Identifier fppod)).

(** Pods found in the local database when the agent starts: a running pod takes back its ports. *)
Definition recreatePodStateFromRuntimeSummary (terminatedPods runningPods : list FornaxPod) : SM node_st unit :=
  do! _ <- sm_for terminatedPods (fun fpod => do! _ <- startPodActor fpod; sm_ret ());
  sm_for runningPods (fun fpod =>
    do! _ <- port_manager (initNodePortRangeSlot (fp_Pod fpod));
    do! _ <- startPodActor fpod; sm_ret ()).

(** ** Reports *)

Definition all_pod_states (revision : Z) n : list PodState :=
  omap (fun '(_, l) => (fun a => pod_state revision (pa_pod a)) <$> pod_objs n !! l) (range (node_Pods n)).
Definition BuildFornaxGrpcNodeState n (revision : Z) : MessageBody :=
  NodeState (V1Node n) revision (all_pod_states revision n).
Definition BuildFornaxGrpcNodeReady n (revision : Z) : MessageBody :=
  NodeMonitor.NodeReady (V1Node n) revision (all_pod_states revision n).

Definition report_node : SM node_st unit :=
  do! n <- node_get; notify_core (ToCore (BuildFornaxGrpcNodeState n (Revision n))).

(** ** Commands of the control plane *)

Definition ValidateNodeSpec (apiNode : Node) : list GoError :=
  let spec := Spec apiNode in
  (if bool_decide (PodCIDR spec = ""%string) then [OtherError "api node spec pod cidr is nil"]
   else if ParseCIDR (PodCIDR spec) then [] else [OtherError "api node spec PodCIDR is invalid"])
  ++ (if ParseCIDR (PodCIDR spec) then [] else map (fun _ => OtherError "api node spec PodCIDRs is invalid") (PodCIDRs spec))
  ++ (match PodCIDRs spec with
      | c :: _ => if bool_decide (c = PodCIDR spec) then [] else [OtherError "api node spec podcidrs[0] does not match podcidr"]
      | [] => []
      end).

Definition string_less (x y : string) : bool :=
  match String.compare x y with Lt => true | _ => false end.
Definition NodeSpecPodCidrChanged (myNode apiNode : Node) : bool :=
  match ValidateNodeSpec apiNode with
  | _ :: _ => false
  | [] =>
    let mine := Spec myNode in
    let api := Spec apiNode in
    bool_decide (PodCIDR mine = ""%string) || bool_decide (PodCIDR mine <> PodCIDR api) ||
    bool_decide (List.length (PodCIDRs mine) <> List.length (PodCIDRs api)) ||
    bool_decide (gosort string_less (PodCIDRs mine) <> gosort string_less (PodCIDRs api))
  end.

Definition initializeNodeDaemons (now : Z) (pods : list Pod) : SM node_st unit :=
  sm_for pods (fun p =>
    if negb (List.length (Containers (Spec p)) =? 1)%nat
    then sm_fail (OtherError "Daemon pod can only have one container")
    else if negb (HostNetwork (Spec p)) then sm_fail (OtherError "Daemon pod must use host network")
    else
      do! n <- node_get;
      match node_Pods n !! Name p with
      | Some _ => sm_ret ()
      | None =>
        do! l <- createPodAndActor now PodStateCreating p true;
        run_pod l (send_pod MPodCreate)
      end).

Definition onNodeConfigurationCommand (now : Z) (apiNode : Node) (daemonPods : list Pod) : SM node_st unit :=
  do! n <- node_get;
  if bool_decide (na_state n <> NodeStateRegistering)
  then sm_fail (OtherError "node is not in registering state")
  else if negb (bool_decide (ValidateNodeSpec apiNode = []))
  then sm_fail (OtherError "api node spec is invalid")
  else
    do! _ <- sm_modify (fun n => set_V1Node (set_Spec (Spec apiNode) (V1Node n)) n);
    do! n <- node_get;
    if NodeSpecPodCidrChanged (V1Node n) apiNode && negb (bool_decide (node_Pods n = ∅))
    then sm_fail (OtherError "change pod cidr when node has pods is not allowed, should not happen")
    else
      do! _ <- initializeNodeDaemons now daemonPods;
      sm_modify (set_na_state NodeStateRegistered).

Definition onPodCreateCommand (now : Z) (podIdentifier : string) (pod : Pod) : SM node_st unit :=
  do! n <- node_get;
  if bool_decide (na_state n <> NodeStateReady) then
    do! _ <- notify_core InternalChange;
    sm_fail (OtherError "Node is not in ready state to create a new pod")
  else match node_Pods n !! podIdentifier with
  | Some _ => sm_fail (OtherError "Pod already exist")
  | None =>
    do! r <- sm_try (createPodAndActor now PodStateCreating pod false);
    match r with
    | Err e => do! _ <- notify_core InternalChange; sm_fail e
    | Ok l => run_pod l (send_pod MPodCreate)
    end
  end.

(** A pod without actor gets a new one; no operation leaves a pod in that state. *)
Definition onPodTerminateCommand (podIdentifier : string) : SM node_st unit :=
  do! n <- node_get;
  match node_Pods n !! podIdentifier with
  | None => sm_fail (OtherError "Pod does not exist, Fornax core is not in sync")
  | Some p =>
    do! fpod <- get_pod p;
    match podActors n !! podIdentifier with
    | Some l =>
      if PodInTerminating fpod then sm_ret () else run_pod l (send_pod MPodTerminate)
    | None =>
      do! l <- startPodActor fpod;
      run_pod l (send_pod MPodTerminate)
    end
  end.

Definition onPodHibernateCommand (podIdentifier : string) : SM node_st unit :=
  do! n <- node_get;
  if bool_decide (na_state n <> NodeStateReady) then sm_fail (OtherError "Node is not in ready state to active a standby pod")
  else match podActors n !! podIdentifier with
  | None => sm_fail (OtherError "Pod does not exist, Fornax core is not in sync")
  | Some l => run_pod l (send_pod MPodHibernate)
  end.

Definition onSessionOpenCommand (sessionIdentifier podIdentifier sessionData : string) : SM node_st unit :=
  do! s <- sm_lift (json_Unmarshal sessionData);
  do! n <- node_get;
  match podActors n !! podIdentifier with
  | Some l =>
    if bool_decide (na_state n = NodeStateReady) then run_pod l (send_pod (MSessionOpen sessionIdentifier s))
    else do! _ <- notify_core InternalChange; sm_fail (OtherError "node not ready")
  | None => do! _ <- notify_core InternalChange; sm_fail (OtherError "Pod does not exist, can not open session")
  end.

Definition onSessionCloseCommand (sessionIdentifier podIdentifier : string) : SM node_st unit :=
  do! n <- node_get;
  match podActors n !! podIdentifier with
  | None => sm_fail (OtherError "Pod does not exist, can not close session")
  | Some l => run_pod l (send_pod (MSessionClose sessionIdentifier))
  end.

Definition processFornaxCoreMessage (now : Z) (msg : MessageBody) : SM node_st unit :=
  match msg with
  | NodeConfiguration _ node daemonPods => onNodeConfigurationCommand now node daemonPods
  | NodeFullSync => report_node
  | PodCreate podIdentifier pod => onPodCreateCommand now podIdentifier pod
  | PodTerminate podIdentifier => onPodTerminateCommand podIdentifier
  | PodHibernate podIdentifier => onPodHibernateCommand podIdentifier
  | SessionOpen sessionIdentifier podIdentifier sessionData =>
    onSessionOpenCommand sessionIdentifier podIdentifier sessionData
  | SessionClose sessionIdentifier podIdentifier => onSessionCloseCommand sessionIdentifier podIdentifier
  | SessionStateUpdate _ | PodStateUpdate _ | NodeState _ _ _ => notify_core (ToCore msg)
  | _ => sm_ret ()
  end.

(** ** The handler *)

Definition on_pod_changed (l : nat) : SM node_st unit :=
  do! fppod <- get_pod l;
  let cleanup := bool_decide (FornaxPodState fppod = PodStateCleanup) in
  do! _ <- (if cleanup then do! _ <- sm_try (cleanupPodStoreAndActor fppod); sm_ret () else sm_ret ());
  do! revision <-
    (if PodInTransitState fppod then sm_ret (Atoi_value (om_ResourceVersion (om (fp_Pod fppod))))
     else
       do! revision <- incrementNodeRevision;
       do! _ <- run_pod l (on_pod (with_resource_version revision));
       do! fppod <- get_pod l;
       do! _ <- notify_core (ToCore (BuildFornaxcoreGrpcPodState revision fppod));
       sm_ret revision);
  if cleanup then sm_ret ()
  else
    do! fppod <- get_pod l;
    do! _ <- sm_try (node_dep (nd_PutPod fppod revision)); sm_ret ().

(** The message holds the pointer to the session. *)
Definition on_session_changed (l s : nat) : SM node_st unit :=
  do! _ <- run_pod l (get_session s);
  do! revision <- incrementNodeRevision;
  do! _ <- run_pod l (on_session s (map_om (om_set_ResourceVersion (FormatUint revision))));
  do! fpsession <- run_pod l (get_session s);
  do! _ <- match BuildFornaxcoreGrpcSessionState revision fpsession with
           | Some body => notify_core (ToCore body)
           | None => sm_ret ()
           end;
  do! fppod <- get_pod l;
  do! _ <- sm_try (node_dep (nd_PutPod fppod revision)); sm_ret ().

Definition nodeHandler (now : Z) (m : node_msg) : SM node_st unit :=
  match m with
  | FromCore msg => processFornaxCoreMessage now msg
  | PodChanged l => on_pod_changed l
  | SessionChanged l s => on_session_changed l s
  | NodeUpdate =>
    do! n <- node_get;
    do! node <- node_dep (nd_SetNodeStatus (V1Node n));
    do! _ <- sm_modify (set_V1Node node);
    report_node
  end.

(** ** Becoming ready *)

Definition IsNodeStatusReady n : bool :=
  let alloc := Allocatable (Status (V1Node n)) in
  let positive r := match alloc !! r with Some q => 0 <? qSign q | None => false end in
  let daemonReady := forallb (fun '(_, l) =>
    match pod_objs n !! l with
    | Some a => negb (Daemon (pa_pod a)) || bool_decide (FornaxPodState (pa_pod a) = PodStateRunning)
    | None => true
    end) (range (node_Pods n)) in
  positive ResourceCPU && positive ResourceMemory && daemonReady && IsNodeCondtionReady (V1Node n).

(** One round of the goroutine that [onNodeConfigurationCommand] starts: first half, up to the new
    revision, and second half, the report.  The node actor may run in between. *)
Definition ready_revision : SM node_st (option Z) :=
  do! n <- node_get;
  if bool_decide (na_state n <> NodeStateRegistered) then sm_ret None
  else
    do! node <- node_dep (nd_SetNodeStatus (V1Node n));
    do! _ <- sm_modify (set_V1Node node);
    do! n <- node_get;
    if IsNodeStatusReady n then do! revision <- incrementNodeRevision; sm_ret (Some revision) else sm_ret None.
Definition ready_report (revision : Z) : SM node_st unit :=
  do! _ <- sm_modify (fun n =>
    let node := map_om (om_set_ResourceVersion (FormatUint revision)) (V1Node n) in
    set_V1Node (set_Status (mkNodeStatus _ NodeRunning (Conditions (Status node)) (Allocatable (Status node))) node) n);
  do! n <- node_get;
  do! _ <- notify_core (ToCore (BuildFornaxGrpcNodeReady n revision));
  sm_modify (set_na_state NodeStateReady).
Definition ready_take n : node_st :=
  match ready_revision n with
  | (Ok r, n') => set_na_ready r n'
  | (Err _, n') => n'
  end.

(** The message [Start] repeats until the control plane has answered with a configuration. *)
Definition register : SM node_st unit :=
  do! n <- node_get;
  if bool_decide (na_state n = NodeStateRegistering)
  then notify_core (ToCore (NodeRegistry (V1Node n) (Revision n)))
  else sm_ret ().

(** ** The agent of a node *)

Definition node_turn (now : Z) : SM node_st unit := fun n =>
  match na_mailbox n with
  | [] => (Ok (), n)
  | m :: rest => nodeHandler now m (set_na_mailbox rest n)
  end.

(** The reports of a node are not commands; the control plane never sends them to a node. *)
Definition is_command (body : MessageBody) : Prop :=
  match body with SessionStateUpdate _ | PodStateUpdate _ | NodeState _ _ _ => False | _ => True end.

Inductive node_step : node_st -> node_st -> Prop :=
  | core_commands body n : is_command body -> node_step n (set_na_mailbox (na_mailbox n ++ [FromCore body]) n)
  | minute_passes n : na_state n = NodeStateReady -> node_step n (set_na_mailbox (na_mailbox n ++ [NodeUpdate]) n)
  | node_turns now n : node_step n (node_turn now n).2
  | registers n : node_step n (register n).2
  | ready_takes n : na_ready n = None -> node_step n (ready_take n)
  | ready_sends revision n : na_ready n = Some revision ->
    node_step n (set_na_ready None (ready_report revision n).2)
  | pod_moves l now retries waits n :
    node_step n (run_pod l (pod_turn RuntimeHandler now retries waits) n).2
  | pod_ticked l n : node_step n (run_pod l (send_pod MHouseKeeping) n).2
  | container_moves l e n : node_step n (run_pod l (container_step e) n).2
  | session_reports l r n : node_step n (run_pod l (send_pod (MSessionState r)) n).2.

End NodeActor.
Arguments node_st {QL} W.
