(* ===== verification/CoreBroker.v ===== *)
(** * From the control plane to the node actor

    The receiving half of [pkg/nodeagent/fornaxcore/fornaxcore_actor.go]: [NewFornaxCoreActor] makes a client for every
    instance of the control plane, [Start] registers one channel with all of them, and a goroutine takes
    the messages from that channel and hands them to the node actor; a message that names new instances
    replaces the clients.

    A client is an object of [CoreClient], a goroutine [recvMessage] a reference to one; the channel is
    lent to the client for a turn.  The fields [bk_taken] and [bk_handled] record what was taken from the
    streams and from the channel. *)

From S2P Require Import Prelude GoStrings ApiTypes NodeMonitor ContainerActor CoreClient NodeActor.
From Stdlib Require Import String.
#[local] Open Scope nat_scope.
#[local] Open Scope go_scope.

(** [MessageType_UNSPECIFIED], [MessageType_FORNAX_CORE_CONFIGURATION] and all the others *)
Inductive core_body {QL : QuantityLib} :=
  | Unspecified
  | CoreConfiguration (primaryIp : string) (standbys : list string)
  | NodeCommand (body : MessageBody).
Record core_in {QL : QuantityLib} := mkCoreIn { ci_node : string; ci_body : core_body }.

(** Where the goroutine of [Start] is: before it was started, at the head of its loop, in the [select]. *)
Inductive broker_pc := NotStarted | AtHead | AtSelect | Exited.

Record broker {QL : QuantityLib} := mkBroker {
  bk_identifier : string;
  bk_cores : gmap string nat;
  bk_objs : list (fornaxCoreClient core_in);
  bk_loops : list nat;
  bk_chan : @Channel core_in;
  bk_pc : broker_pc;
  bk_stop : bool;
  bk_taken : list core_in;
  bk_handled : list core_in;
  bk_node : list core_in;
  bk_crashed : bool
}.

Section Broker.
Context {GR : GoRange} {QL : QuantityLib}.
Implicit Types b : broker.

Definition set_cores v b := mkBroker _ (bk_identifier b) v (bk_objs b) (bk_loops b) (bk_chan b) (bk_pc b) (bk_stop b)
  (bk_taken b) (bk_handled b) (bk_node b) (bk_crashed b).
Definition set_clients v l b := mkBroker _ (bk_identifier b) (bk_cores b) v l (bk_chan b) (bk_pc b) (bk_stop b)
  (bk_taken b) (bk_handled b) (bk_node b) (bk_crashed b).
Definition set_chan v b := mkBroker _ (bk_identifier b) (bk_cores b) (bk_objs b) (bk_loops b) v (bk_pc b) (bk_stop b)
  (bk_taken b) (bk_handled b) (bk_node b) (bk_crashed b).
Definition set_loop pc stop b := mkBroker _ (bk_identifier b) (bk_cores b) (bk_objs b) (bk_loops b) (bk_chan b) pc stop
  (bk_taken b) (bk_handled b) (bk_node b) (bk_crashed b).
Definition set_record taken handled node b := mkBroker _ (bk_identifier b) (bk_cores b) (bk_objs b) (bk_loops b) (bk_chan b)
  (bk_pc b) (bk_stop b) taken handled node (bk_crashed b).
Definition set_crashed v b := mkBroker _ (bk_identifier b) (bk_cores b) (bk_objs b) (bk_loops b) (bk_chan b) (bk_pc b) (bk_stop b)
  (bk_taken b) (bk_handled b) (bk_node b) v.

Definition fornaxChannel : nat := 0.
Definition fornaxChannel_capacity : nat := 30.

(** A call of the client [i], which sees the channel. *)
Definition on_client {A} (i : nat) (c : SM (fornaxCoreClient core_in) A) : SM broker A := fun b =>
  match bk_objs b !! i with
  | None => (Err nil_panic, b)
  | Some f =>
    let lent := mkCoreClient (cc_done f) (cc_conn f) (cc_getMessageClient f) (receivers f) {[fornaxChannel := bk_chan b]} in
    let '(r, f') := c lent in
    (r, set_chan (channel_of f' fornaxChannel) (set_clients (<[i := f']> (bk_objs b)) (bk_loops b) b))
  end.

(** [f.Start()] of a client starts one more goroutine. *)
Definition start_client (i : nat) : SM broker unit :=
  sm_modify (fun b => set_clients (bk_objs b) (bk_loops b ++ [i]) b).
Definition new_client : SM broker nat := fun b =>
  (Ok (List.length (bk_objs b)), set_clients (bk_objs b ++ [NewFornaxCoreClient]) (bk_loops b) b).

Fixpoint InitFornaxCoreClients (fornaxCoreIps : list string) (fornaxcores : gmap string nat) : SM broker (gmap string nat) :=
  match fornaxCoreIps with
  | [] => sm_ret fornaxcores
  | ip :: ips =>
    do! f <- new_client;
    do! _ <- start_client f;
    InitFornaxCoreClients ips (<[ip := f]> fornaxcores)
  end.

Definition NewFornaxCoreActor (nodeName : string) (fornaxCoreIps : list string) : broker :=
  let b := mkBroker _ nodeName ∅ [] [] (mkChannel false []) NotStarted false [] [] [] false in
  match InitFornaxCoreClients fornaxCoreIps ∅ b with
  | (Ok cores, b) => set_cores cores b
  | (Err _, b) => b
  end.

Definition receiver_name b : string := ("FornaxCoreActor@" ++ bk_identifier b)%string.
Definition core_Start : SM broker unit :=
  do! b <- sm_get;
  do! _ <- sm_for (range (bk_cores b)) (fun '(_, v) => on_client v (cc_GetMessage (receiver_name b) fornaxChannel));
  sm_modify (fun b => set_loop AtHead (bk_stop b) b).

Definition core_Stop : SM broker unit :=
  do! _ <- sm_modify (fun b => set_loop (bk_pc b) true b);
  do! b <- sm_get;
  sm_for (range (bk_cores b)) (fun '(_, v) => on_client v cc_Stop).

(** The new clients are started a second time, and [GetMessage] is never called for them. *)
Definition core_onFornaxCoreConfigurationCommand (primaryIp : string) (standbys : list string) : SM broker unit :=
  do! b <- sm_get;
  if bool_decide (primaryIp = ""%string) then sm_fail (OtherError "primary ip in fornax core configuration is nil")
  else
    let newips := filter (fun ip => ip ∉ dom (bk_cores b)) (primaryIp :: standbys) in
    let oldfornaxcores := filter (fun kv => kv.1 ∉ newips) (bk_cores b) in
    do! newfornaxcores <- InitFornaxCoreClients newips ∅;
    do! _ <- sm_for (range newfornaxcores) (fun '(k, v) =>
      do! _ <- start_client v; sm_modify (fun b => set_cores (<[k := v]> (bk_cores b)) b));
    sm_for (range oldfornaxcores) (fun '(k, v) =>
      do! _ <- sm_modify (fun b => set_cores (delete k (bk_cores b)) b);
      on_client v cc_Stop).

(** A message for another node is warned about and handled like the others. *)
Definition handle (msg : core_in) : SM broker unit :=
  match ci_body msg with
  | Unspecified => sm_ret ()
  | CoreConfiguration primaryIp standbys => core_onFornaxCoreConfigurationCommand primaryIp standbys
  | NodeCommand _ => sm_modify (fun b => set_record (bk_taken b) (bk_handled b) (bk_node b ++ [msg]) b)
  end.

(** An error that is returned is ignored, a panic ends the process. *)
Definition broker_outcome {A} (c : result A * broker) : broker :=
  match c.1 with Err e => set_crashed (bool_decide (e = nil_panic)) c.2 | Ok _ => c.2 end.

(** A turn of [recvMessage] of the client [i] *)
Definition client_turn (i : nat) (dial get : result unit) (received : option core_in) b : broker :=
  match on_client i (recvMessage_turn dial get received) b with
  | (Ok (Some msg), b) => set_record (bk_taken b ++ [msg]) (bk_handled b) (bk_node b) b
  | (_, b) => b
  end.

(** [if n.stop { close(n.fornaxChannel); break }] *)
Definition loop_head b : broker :=
  if bk_stop b then set_chan (mkChannel true (ch_messages (bk_chan b))) (set_loop Exited true b)
  else set_loop AtSelect false b.
(** [case msg, ok := <-n.fornaxChannel] *)
Definition loop_select b : broker :=
  match ch_messages (bk_chan b) with
  | [] => b
  | msg :: rest =>
    let b := set_record (bk_taken b) (bk_handled b ++ [msg]) (bk_node b)
               (set_chan (mkChannel (ch_closed (bk_chan b)) rest) (set_loop AtHead (bk_stop b) b)) in
    broker_outcome (handle msg b)
  end.

(** A client waits while the channel is full. *)
Inductive broker_step b : broker -> Prop :=
  | br_turn i dial get received : bk_crashed b = false -> i ∈ bk_loops b ->
    ch_closed (bk_chan b) = true \/ List.length (ch_messages (bk_chan b)) < fornaxChannel_capacity ->
    broker_step b (client_turn i dial get received b)
  | br_head : bk_crashed b = false -> bk_pc b = AtHead -> broker_step b (loop_head b)
  | br_select : bk_crashed b = false -> bk_pc b = AtSelect -> broker_step b (loop_select b)
  | br_stop : bk_crashed b = false -> broker_step b (broker_outcome (core_Stop b)).

(** ** Clients that are registered and clients nobody listens to *)

Definition registered (n : string) (f : fornaxCoreClient core_in) : Prop :=
  receivers f !! n = Some fornaxChannel /\ forall m, receivers f !! m = Some fornaxChannel -> m = n.
Definition deaf_client (f : fornaxCoreClient core_in) : Prop := cc_done f = true \/ receivers f = ∅.

Lemma range_empty {A} : range (∅ : gmap string A) = [].
Proof. pose proof (range_perm (∅ : gmap string A)) as H. rewrite map_to_list_empty in H. by apply Permutation_nil_r in H. Qed.

(** A turn of a registered client puts what it took into the open channel. *)
Lemma turn_registered i dial get received b f base :
  bk_objs b !! i = Some f -> registered (receiver_name b) f -> bk_chan b = mkChannel false base ->
  exists f' taken, registered (receiver_name b) f' /\
    client_turn i dial get received b =
      set_record (bk_taken b ++ taken) (bk_handled b) (bk_node b)
        (set_chan (mkChannel false (base ++ taken)) (set_clients (<[i := f']> (bk_objs b)) (bk_loops b) b)).
Proof.
  intros Hi [Hn Hu] Hc. unfold client_turn, on_client. rewrite Hi, Hc. cbn zeta.
  set (lent := mkCoreClient _ _ _ _ _).
  assert (listens (receiver_name b) fornaxChannel base [] lent) as Hl.
  { split_and!; [done|done|]. unfold lent, channel_of. cbn [channels]. by rewrite lookup_singleton_eq, app_nil_r. }
  destruct (turn_listens dial get received _ _ _ _ _ Hl) as (taken & f' & E & Hr & Hu' & Hch).
  rewrite E. exists f', (match taken with Some m => [m] | None => [] end). split; [done|].
  destruct taken; rewrite Hch; [done|]. cbn. rewrite !app_nil_r. by destruct b.
Qed.

(** A client nobody listens to changes nothing but itself. *)
Lemma turn_deaf dial get received f :
  deaf_client f -> exists taken f', recvMessage_turn dial get received f = (Ok taken, f') /\
    deaf_client f' /\ channels f' = channels f.
Proof.
  intros [Hd|He]; unfold recvMessage_turn; rewrite sm_bind_eq, sm_get_eq.
  { rewrite Hd. exists None, f. split_and!; [done|by left|done]. }
  destruct (cc_done f) eqn:Hd; [exists None, f; split_and!; [done|by left|done]|].
  rewrite sm_bind_eq. unfold sm_try. set (init := if cc_getMessageClient f then _ else _).
  assert (receivers (init f).2 = ∅ /\ channels (init f).2 = channels f) as [H1 H2].
  { unfold init, cc_initGetMessageClient, cc_connect. destruct (cc_getMessageClient f); [done|].
    rewrite !sm_bind_eq. sm_simpl. destruct (cc_conn f); sm_simpl; destruct dial, get; sm_simpl; by cbn. }
  destruct (init f) as [[u|e] f1]; cbn [snd] in H1, H2; [|exists None, f1; split_and!; [done|by right|done]].
  destruct received as [msg|]; [|eexists None, _; split_and!; [reflexivity|by right|done]].
  rewrite sm_bind_eq, sm_get_eq, H1, range_empty, sm_bind_eq. cbn [send_to_all]. rewrite sm_ret_eq, sm_bind_eq.
  unfold remove_receivers. rewrite sm_modify_eq, sm_ret_eq. eexists (Some msg), _. split_and!; [reflexivity|by right|done].
Qed.

(** ** After [Start] *)

Definition only (n : string) (f : fornaxCoreClient core_in) : Prop := forall m, receivers f !! m = Some fornaxChannel -> m = n.

Lemma init_clients_spec ips : forall cores b, exists cores',
  InitFornaxCoreClients ips cores b =
    (Ok cores', set_clients (bk_objs b ++ replicate (List.length ips) NewFornaxCoreClient)
                  (bk_loops b ++ seq (List.length (bk_objs b)) (List.length ips)) b) /\
  (forall ip i, cores' !! ip = Some i -> (ip ∉ ips /\ cores !! ip = Some i) \/
     (ip ∈ ips /\ List.length (bk_objs b) <= i < List.length (bk_objs b) + List.length ips)) /\
  (forall ip, ip ∈ ips -> is_Some (cores' !! ip)) /\
  (forall ip, ip ∉ ips -> cores' !! ip = cores !! ip) /\
  (NoDup ips -> forall j ip, ips !! j = Some ip -> cores' !! ip = Some (List.length (bk_objs b) + j)).
Proof.
  induction ips as [|ip ips IH]; intros cores b; cbn [InitFornaxCoreClients].
  - exists cores. rewrite sm_ret_eq. cbn. rewrite !app_nil_r. split_and!; [by destruct b|..].
    + intros ip i Hi. left. by split; [apply not_elem_of_nil|].
    + by intros ip ?%elem_of_nil.
    + done.
    + done.
  - unfold new_client, start_client. rewrite sm_bind_eq. cbn beta iota. rewrite sm_bind_eq, sm_modify_eq.
    match goal with |- context [InitFornaxCoreClients ips (<[ip := ?i]> cores) ?b1] =>
      destruct (IH (<[ip := i]> cores) b1) as (cores' & E & H1 & H2 & H3 & H4) end.
    cbn [bk_objs bk_loops set_clients] in *. rewrite length_app in *. cbn [List.length] in *.
    exists cores'. rewrite E. split_and!.
    + destruct b. cbn. by rewrite <- !app_assoc, Nat.add_1_r.
    + intros k i Hk. destruct (H1 k i Hk) as [[Hn Hi]|[Hn Hi]].
      * destruct (decide (k = ip)) as [->|Hne].
        -- rewrite lookup_insert_eq in Hi. injection Hi as <-. right. split; [left|lia].
        -- rewrite lookup_insert_ne in Hi by done. left. split; [|done]. by apply not_elem_of_cons.
      * right. split; [by right|lia].
    + intros k [->|Hk]%elem_of_cons; [|by apply H2]. destruct (decide (ip ∈ ips)) as [Hin|Hin]; [by apply H2|].
      rewrite H3 by done. by rewrite lookup_insert_eq.
    + intros k [Hne Hk]%not_elem_of_cons. rewrite H3 by done. by rewrite lookup_insert_ne.
    + intros [Hin Hnd]%NoDup_cons j k Hj. destruct j as [|j]; cbn in Hj.
      * injection Hj as ->. rewrite H3 by done. rewrite lookup_insert_eq. f_equal. lia.
      * rewrite (H4 Hnd _ _ Hj). f_equal. lia.
Qed.

Lemma get_message_client n i b f :
  bk_objs b !! i = Some f -> only n f -> exists f',
    on_client i (cc_GetMessage n fornaxChannel) b = (Ok (), set_clients (<[i := f']> (bk_objs b)) (bk_loops b) b) /\ registered n f'.
Proof.
  intros Hi Ho. unfold on_client, cc_GetMessage. rewrite Hi, sm_modify_eq. eexists. split.
  - unfold channel_of. cbn [channels]. rewrite lookup_singleton_eq. cbn. destruct b as [? ? ? ? [] ? ? ? ? ? ?]. reflexivity.
  - split; cbn; [by rewrite lookup_insert_eq|]. intros m. destruct (decide (m = n)) as [->|Hne]; [done|].
    rewrite lookup_insert_ne by done. apply Ho.
Qed.

Lemma register_all n (l : list (string * nat)) : forall b,
  Forall (fun kv => kv.2 < List.length (bk_objs b)) l -> Forall (only n) (bk_objs b) ->
  exists objs', sm_for l (fun '(_, v) => on_client v (cc_GetMessage n fornaxChannel)) b = (Ok (), set_clients objs' (bk_loops b) b) /\
    List.length objs' = List.length (bk_objs b) /\ Forall (only n) objs' /\
    forall i f, objs' !! i = Some f -> registered n f \/ i ∉ l.*2 /\ bk_objs b !! i = Some f.
Proof.
  induction l as [|[k v] l IH]; intros b Hl Ho.
  - exists (bk_objs b). split_and!; [by destruct b|done|done|]. intros i f Hi. right. split; [apply not_elem_of_nil|done].
  - apply Forall_cons in Hl as [Hv Hl]. cbn in Hv. apply lookup_lt_is_Some in Hv as [f Hf].
    destruct (get_message_client n v b f Hf) as (f' & E & Hr); [by eapply Forall_lookup_1 in Ho|].
    cbn [sm_for]. rewrite sm_bind_eq, E.
    set (b1 := set_clients _ _ _). destruct (IH b1) as (objs' & E' & Hlen & Ho' & Hreg).
    { unfold b1. cbn. by rewrite length_insert. }
    { unfold b1. cbn. apply Forall_insert; [done|]. exact (proj2 Hr). }
    exists objs'. split_and!.
    + rewrite E'. by destruct b.
    + rewrite Hlen. unfold b1. cbn. by rewrite length_insert.
    + done.
    + intros i g Hg. destruct (Hreg i g Hg) as [H|[Hn Hi]]; [by left|]. unfold b1 in Hi. cbn in Hi.
      destruct (decide (i = v)) as [->|Hne].
      * rewrite list_lookup_insert_eq in Hi by (by eapply lookup_lt_Some). injection Hi as <-. by left.
      * rewrite list_lookup_insert_ne in Hi by done. right. split; [|done]. cbn. by apply not_elem_of_cons.
Qed.

(** ** Frames *)

(** What the calls of clients leave alone *)
Definition frame b b' : Prop :=
  bk_identifier b' = bk_identifier b /\ bk_pc b' = bk_pc b /\ bk_stop b' = bk_stop b /\ bk_taken b' = bk_taken b /\
  bk_handled b' = bk_handled b /\ bk_node b' = bk_node b /\ bk_crashed b' = bk_crashed b.
#[local] Instance frame_preorder : PreOrder frame.
Proof.
  split; [by intros b; repeat split|]. intros b1 b2 b3 (?&?&?&?&?&?&?) (?&?&?&?&?&?&?). by repeat split; congruence.
Qed.
Lemma frame_on_client {A} i (c : SM _ A) : within frame (on_client i c).
Proof. intros b. unfold on_client. destruct (bk_objs b !! i); [|done]. destruct (c _). by repeat split. Qed.
Lemma frame_modify f : (forall b, frame b (f b)) -> within frame (sm_modify f).
Proof. intros H b. rewrite sm_modify_eq. apply H. Qed.
Lemma frame_stop (l : list (string * nat)) : within frame (sm_for l (fun '(_, v) => on_client v cc_Stop)).
Proof. apply (within_for frame). intros [k v]. apply frame_on_client. Qed.
Lemma frame_configuration primaryIp standbys : within frame (core_onFornaxCoreConfigurationCommand primaryIp standbys).
Proof.
  unfold core_onFornaxCoreConfigurationCommand. apply (within_bind frame); [by intros b|]. intros b.
  case_bool_decide; [apply (within_fail frame)|]. apply (within_bind frame).
  { intros b1. destruct (init_clients_spec (filter (fun ip => ip ∉ dom (bk_cores b)) (primaryIp :: standbys)) ∅ b1) as (c & E & _).
    rewrite E. by repeat split. }
  intros cores. apply (within_bind frame); [apply (within_for frame)|intros _; apply (within_for frame)]; intros [k v].
  - apply (within_bind frame); [by apply frame_modify|intros _; by apply frame_modify].
  - apply (within_bind frame); [by apply frame_modify|intros _; apply frame_on_client].
Qed.
Lemma outcome_frame {A} (c : result A * broker) b :
  frame b c.2 -> bk_taken (broker_outcome c) = bk_taken b /\ bk_stop (broker_outcome c) = bk_stop b /\
    bk_node (broker_outcome c) = bk_node b.
Proof. intros (?&?&?&?&?&?&?). destruct c as [[] b']; by repeat split. Qed.
Lemma stop_stops b : bk_stop (broker_outcome (core_Stop b)) = true.
Proof.
  unfold core_Stop. rewrite sm_bind_eq, sm_modify_eq, sm_bind_eq, sm_get_eq.
  by destruct (outcome_frame _ _ (frame_stop (range (bk_cores (set_loop (bk_pc b) true b))) (set_loop (bk_pc b) true b))) as (_ & -> & _).
Qed.

(** ** Forwarding *)

Definition for_node (m : core_in) : bool := match ci_body m with NodeCommand _ => true | _ => false end.
Definition configures (m : core_in) : bool := match ci_body m with CoreConfiguration _ _ => true | _ => false end.

Record forwarding b : Prop := {
  fw_registered : Forall (registered (receiver_name b)) (bk_objs b);
  fw_loops : Forall (fun i => i < List.length (bk_objs b)) (bk_loops b);
  fw_open : ch_closed (bk_chan b) = false;
  fw_taken : bk_taken b = bk_handled b ++ ch_messages (bk_chan b);
  fw_node : bk_node b = List.filter for_node (bk_handled b)
}.

Lemma started_forwards name ips : NoDup ips -> forwarding (core_Start (NewFornaxCoreActor name ips)).2.
Proof.
  intros Hnd. unfold NewFornaxCoreActor. set (b0 := mkBroker _ _ _ _ _ _ _ _ _ _ _ _).
  destruct (init_clients_spec ips ∅ b0) as (cores & E & H1 & _ & _ & H4). rewrite E. cbn [fst snd].
  set (b1 := set_cores cores _). unfold core_Start. rewrite sm_bind_eq, sm_get_eq, sm_bind_eq.
  destruct (register_all (receiver_name b1) (range (bk_cores b1)) b1) as (objs & E' & Hlen & _ & Hreg).
  { apply Forall_forall. intros [k i] [[_ Hk]|[_ Hk]]%elem_of_range%H1; [by rewrite lookup_empty in Hk|]. cbn in Hk |- *. rewrite length_replicate. lia. }
  { apply Forall_replicate. by intros m. }
  rewrite E', sm_modify_eq. split; cbn; [| |done|done|done].
  - apply Forall_lookup. intros i f Hi. destruct (Hreg i f Hi) as [H|[Hn _]]; [exact H|]. destruct Hn.
    assert (i < List.length ips) as [ip Hip]%lookup_lt_is_Some.
    { apply lookup_lt_Some in Hi. rewrite Hlen in Hi. cbn in Hi. by rewrite length_replicate in Hi. }
    specialize (H4 Hnd i ip Hip). cbn in H4. apply list_elem_of_fmap. exists (ip, i). split; [done|]. by apply elem_of_range.
  - apply Forall_forall. intros i Hi%elem_of_seq. rewrite Hlen. cbn. rewrite length_replicate. lia.
Qed.

Lemma forwarding_step b b' :
  broker_step b b' -> forwarding b -> bk_stop b' = false -> Forall (fun m => configures m = false) (bk_taken b') -> forwarding b'.
Proof.
  intros Hs [Hreg Hloops Ho Ht Hn] Hstop Hno. destruct Hs as [i dial get received Hc Hi _|Hc Hpc|Hc Hpc|Hc].
  - destruct (bk_chan b) as [c base] eqn:Hch. cbn in Ho, Ht. subst c.
    eapply Forall_forall in Hloops as Hlt; [|exact Hi]. apply lookup_lt_is_Some in Hlt as [f Hf].
    destruct (turn_registered i dial get received b f base Hf) as (f' & taken & Hf' & E); [by eapply Forall_lookup_1 in Hreg|done|].
    rewrite E. split; cbn; [by apply Forall_insert|by rewrite length_insert|done|by rewrite Ht, app_assoc|done].
  - unfold loop_head in *. destruct (bk_stop b); [done|]. by split.
  - unfold loop_select in *. destruct (ch_messages (bk_chan b)) as [|msg rest] eqn:Hm; [split; [done..|by rewrite Hm|done]|].
    assert (configures msg = false -> forwarding (broker_outcome (handle msg (set_record (bk_taken b) (bk_handled b ++ [msg]) (bk_node b)
      (set_chan (mkChannel (ch_closed (bk_chan b)) rest) (set_loop AtHead (bk_stop b) b)))))) as Hgo.
    { intros Hcf. assert (List.filter for_node (bk_handled b ++ [msg]) = bk_node b ++ (if for_node msg then [msg] else [])) as Hf
        by (rewrite List.filter_app, Hn; cbn; by destruct (for_node msg)).
      assert (bk_taken b = (bk_handled b ++ [msg]) ++ rest) as Ht' by (by rewrite <- app_assoc).
      unfold handle, for_node, configures in *. destruct (ci_body msg); [|done|]; rewrite ?app_nil_r in Hf; by split. }
    apply Hgo. destruct (configures msg) eqn:Hcf; [|done]. exfalso.
    unfold handle in Hno. unfold configures in Hcf. destruct (ci_body msg) as [|primaryIp standbys|] eqn:Hb; [done| |done].
    match type of Hno with context [core_onFornaxCoreConfigurationCommand _ _ ?b1] =>
      destruct (outcome_frame _ _ (frame_configuration primaryIp standbys b1)) as (E & _) end.
    rewrite E in Hno. cbn in Hno. rewrite Ht in Hno. apply Forall_app in Hno as [_ Hno].
    apply Forall_cons in Hno as [Hno _]. unfold configures in Hno. by rewrite Hb in Hno.
  - by rewrite stop_stops in Hstop.
Qed.

(** The records only grow, and a stopped agent stays stopped. *)
Lemma broker_step_grows b b' : broker_step b b' -> bk_taken b `prefix_of` bk_taken b' /\ (bk_stop b = true -> bk_stop b' = true).
Proof.
  intros [i dial get received Hc Hi _|Hc Hpc|Hc Hpc|Hc].
  - unfold client_turn. pose proof (frame_on_client i (recvMessage_turn dial get received) b) as (_ & _ & Hs & Ht & _).
    destruct (on_client _ _ b) as [[[msg|]|e] b2]; cbn in *; rewrite Ht; (split; [|congruence]); [by eexists|done|done].
  - unfold loop_head. by destruct (bk_stop b).
  - unfold loop_select. destruct (ch_messages (bk_chan b)) as [|msg rest]; [done|]. unfold handle.
    destruct (ci_body msg) as [|primaryIp standbys|]; [done| |done].
    match goal with |- context [core_onFornaxCoreConfigurationCommand _ _ ?b1] =>
      destruct (outcome_frame _ _ (frame_configuration primaryIp standbys b1)) as (-> & -> & _) end. done.
  - rewrite stop_stops. split; [|done]. unfold core_Stop. rewrite sm_bind_eq, sm_modify_eq, sm_bind_eq, sm_get_eq.
    by destruct (outcome_frame _ _ (frame_stop (range (bk_cores (set_loop (bk_pc b) true b))) (set_loop (bk_pc b) true b))) as (-> & _).
Qed.

(** Every command of the control plane reaches the node actor once and in order.  However the clients
    of the instances reconnect, take their turns and wait for the channel, and as long as the agent is not
    stopped or told of other instances, the messages taken from the streams are those the broker has
    handled followed by those in its channel, and the node actor was handed exactly the commands among the
    handled ones. *)
Theorem commands_forwarded_in_order name ips b :
  NoDup ips -> rtc broker_step (core_Start (NewFornaxCoreActor name ips)).2 b ->
  bk_stop b = false -> Forall (fun m => configures m = false) (bk_taken b) ->
  bk_taken b = bk_handled b ++ ch_messages (bk_chan b) /\ bk_node b = List.filter for_node (bk_handled b).
Proof.
  intros Hnd Hrun Hstop Hno. enough (forwarding b) as [] by done.
  revert Hstop Hno. pose proof (started_forwards name ips Hnd) as Hf. revert Hf.
  induction Hrun as [|b1 b2 b3 Hs Hrun IH]; intros Hf Hstop Hno; [done|]. apply IH; [|done|done].
  assert (bk_taken b2 `prefix_of` bk_taken b3 /\ (bk_stop b2 = true -> bk_stop b3 = true)) as [[k Hk] Hst].
  { clear -Hrun. induction Hrun as [|b1 b2 b3 H _ [IH1 IH2]]; [done|].
    destruct (broker_step_grows _ _ H) as [H1 H2]. split; [by etrans|auto]. }
  eapply forwarding_step; [exact Hs|done| |].
  - destruct (bk_stop b2); [by rewrite Hst in Hstop|done].
  - rewrite Hk in Hno. by apply Forall_app in Hno as [].
Qed.

(** ** After a change of instances *)

(** Calls that leave the channel and the deaf clients alone *)
Definition hushed b b' : Prop :=
  bk_chan b' = bk_chan b /\ (Forall deaf_client (bk_objs b) -> Forall deaf_client (bk_objs b')).
#[local] Instance hushed_preorder : PreOrder hushed.
Proof. split; [by intros b|]. intros b1 b2 b3 [H1 H2] [H3 H4]. split; [congruence|auto]. Qed.

Lemma stop_client i b f : bk_objs b !! i = Some f -> exists f',
  (on_client i cc_Stop b).2 = set_clients (<[i := f']> (bk_objs b)) (bk_loops b) b /\ cc_done f' = true.
Proof.
  intros Hi. unfold on_client, cc_Stop. rewrite Hi. cbn zeta.
  exists (mkCoreClient true (cc_conn f) (cc_getMessageClient f) (receivers f) {[fornaxChannel := bk_chan b]}).
  split; [|done]. unfold channel_of.
  cbn [cc_conn]. destruct (cc_conn f); cbn [snd channels]; rewrite lookup_singleton_eq; destruct b; reflexivity.
Qed.
Lemma hushed_stop i : within hushed (on_client i cc_Stop).
Proof.
  intros b. destruct (bk_objs b !! i) as [f|] eqn:Hi; [|unfold on_client; by rewrite Hi].
  destruct (stop_client i b f Hi) as (f' & -> & Hd). split; [done|]. intros H. apply Forall_insert; [done|by left].
Qed.
Lemma hushed_modify f : (forall b, hushed b (f b)) -> within hushed (sm_modify f).
Proof. intros H b. rewrite sm_modify_eq. apply H. Qed.
Lemma hushed_init ips : within hushed (InitFornaxCoreClients ips ∅).
Proof.
  intros b. destruct (init_clients_spec ips ∅ b) as (c & E & _). rewrite E. split; [done|]. cbn. intros H.
  apply Forall_app. split; [done|]. apply Forall_replicate. by right.
Qed.
Lemma hushed_configuration primaryIp standbys : within hushed (core_onFornaxCoreConfigurationCommand primaryIp standbys).
Proof.
  unfold core_onFornaxCoreConfigurationCommand. apply (within_bind hushed); [by intros b|]. intros b.
  case_bool_decide; [apply (within_fail hushed)|]. apply (within_bind hushed); [apply hushed_init|].
  intros cores. apply (within_bind hushed); [apply (within_for hushed)|intros _; apply (within_for hushed)]; intros [k v].
  - apply (within_bind hushed); [by apply hushed_modify|intros _; by apply hushed_modify].
  - apply (within_bind hushed); [by apply hushed_modify|intros _; apply hushed_stop].
Qed.
Lemma hushed_Stop : within hushed core_Stop.
Proof.
  unfold core_Stop. apply (within_bind hushed); [by apply hushed_modify|]. intros _.
  apply (within_bind hushed); [by intros b|]. intros b. apply (within_for hushed). intros [k v]. apply hushed_stop.
Qed.
Lemma hushed_outcome {A} (c : result A * broker) b : hushed b c.2 -> hushed b (broker_outcome c).
Proof. by destruct c as [[] b']. Qed.

(** What the node actor has and what can still come *)
Definition heard b : list core_in := bk_node b ++ List.filter for_node (ch_messages (bk_chan b)).

Lemma deaf_step b b' :
  broker_step b b' -> Forall deaf_client (bk_objs b) -> Forall deaf_client (bk_objs b') /\ heard b' = heard b.
Proof.
  intros Hs Hd. unfold heard. destruct Hs as [i dial get received Hc Hi _|Hc Hpc|Hc Hpc|Hc].
  - unfold client_turn, on_client. destruct (bk_objs b !! i) as [f|] eqn:Hf; [|done].
    eapply Forall_lookup_1 in Hd as Hdf; [|exact Hf].
    set (lent := mkCoreClient _ _ _ _ _). destruct (turn_deaf dial get received lent) as (taken & f' & E & Hf' & Hch); [exact Hdf|].
    rewrite E. assert (channel_of f' fornaxChannel = bk_chan b) as Hcf.
    { unfold channel_of. rewrite Hch. unfold lent. cbn [channels]. by rewrite lookup_singleton_eq. }
    rewrite Hcf. destruct taken; cbn; (split; [by apply Forall_insert|done]).
  - unfold loop_head. by destruct (bk_stop b).
  - unfold loop_select. destruct (ch_messages (bk_chan b)) as [|msg rest] eqn:Hm; [by rewrite Hm|].
    unfold handle. destruct (ci_body msg) as [|primaryIp standbys|] eqn:Hb; cbn [List.filter]; unfold for_node at 2; rewrite Hb.
    + done.
    + match goal with |- context [core_onFornaxCoreConfigurationCommand _ _ ?b1] =>
        destruct (hushed_outcome _ _ (hushed_configuration primaryIp standbys b1)) as [E H];
        destruct (outcome_frame _ _ (frame_configuration primaryIp standbys b1)) as (_ & _ & ->) end.
      rewrite E. by split; [apply H|].
    + cbn. by rewrite <- app_assoc.
  - destruct (hushed_outcome _ _ (hushed_Stop b)) as [-> H]. split; [by apply H|].
    unfold core_Stop. rewrite sm_bind_eq, sm_modify_eq, sm_bind_eq, sm_get_eq.
    by destruct (outcome_frame _ _ (frame_stop (range (bk_cores (set_loop (bk_pc b) true b))) (set_loop (bk_pc b) true b))) as (_ & _ & ->).
Qed.

(** Every client is one of the current ones or deaf. *)
Definition tracked b : Prop := forall i f, bk_objs b !! i = Some f -> deaf_client f \/ exists ip, bk_cores b !! ip = Some i.

Lemma add_cores_spec (l : list (string * nat)) : forall b, exists b',
  sm_for l (fun '(k, v) => do! _ <- start_client v; sm_modify (fun b => set_cores (<[k := v]> (bk_cores b)) b)) b = (Ok (), b') /\
  bk_objs b' = bk_objs b /\ dom (bk_cores b') = dom (bk_cores b) ∪ list_to_set l.*1.
Proof.
  induction l as [|[k v] l IH]; intros b; [exists b; set_solver|]. cbn [sm_for]. unfold start_client at 1. sm_simpl.
  match goal with |- context [sm_for l _ ?b1] => destruct (IH b1) as (b' & E & Ho & Hd) end.
  exists b'. rewrite E, Ho, Hd. split_and!; [done..|]. cbn. set_solver.
Qed.

(** The clients of a list are stopped one after the other, unless one of them panics. *)
Lemma stop_all_spec (l : list (string * nat)) : forall b r b',
  Forall (fun kv => kv.2 < List.length (bk_objs b)) l ->
  sm_for l (fun '(k, v) => do! _ <- sm_modify (fun b => set_cores (delete k (bk_cores b)) b); on_client v cc_Stop) b = (r, b') ->
  match r with
  | Ok _ => forall i f', bk_objs b' !! i = Some f' -> deaf_client f' \/ i ∉ l.*2 /\ bk_objs b !! i = Some f'
  | Err e => e = nil_panic
  end.
Proof.
  induction l as [|[k v] l IH]; intros b r b' Hl E.
  { injection E as <- <-. intros i f' Hi. right. split; [apply not_elem_of_nil|done]. }
  apply Forall_cons in Hl as [Hv Hl]. cbn in Hv. apply lookup_lt_is_Some in Hv as [f Hf].
  cbn [sm_for] in E. rewrite sm_bind_eq, sm_bind_eq, sm_modify_eq in E.
  set (b1 := set_cores _ b) in E. destruct (stop_client v b1 f Hf) as (f1 & E1 & Hd).
  destruct (on_client v cc_Stop b1) as [[[]|e] b2] eqn:Ec; cbn in E1; subst b2.
  - apply IH in E; [|cbn; by rewrite length_insert]. destruct r; [|done].
    intros i f' Hi. destruct (E i f' Hi) as [?|[Hn Hi']]; [by left|]. cbn in Hi'. destruct (decide (i = v)) as [->|Hne].
    + rewrite list_lookup_insert_eq in Hi' by (by eapply lookup_lt_Some). injection Hi' as <-. left. by left.
    + rewrite list_lookup_insert_ne in Hi' by done. right. split; [|done]. cbn. by apply not_elem_of_cons.
  - injection E as <- _. unfold on_client, cc_Stop in Ec. change (bk_objs b1) with (bk_objs b) in Ec. rewrite Hf in Ec.
    cbn in Ec. destruct (cc_conn f); congruence.
Qed.

Definition cores_exist b : Prop := forall ip i, bk_cores b !! ip = Some i -> i < List.length (bk_objs b).

(** A change of instances stops every client there was, and nobody listens to the new ones. *)
Lemma configuration_deafens primaryIp standbys b :
  primaryIp <> ""%string -> tracked b -> cores_exist b ->
  match core_onFornaxCoreConfigurationCommand primaryIp standbys b with
  | (Ok _, b') => Forall deaf_client (bk_objs b')
  | (Err e, _) => e = nil_panic
  end.
Proof.
  intros Hp Ht Hex. unfold core_onFornaxCoreConfigurationCommand. rewrite sm_bind_eq, sm_get_eq, bool_decide_false by done.
  cbv zeta. set (newips := filter _ (primaryIp :: standbys)).
  assert (filter (fun kv : string * nat => kv.1 ∉ newips) (bk_cores b) = bk_cores b) as ->.
  { apply map_filter_id. intros k i Hk Hin. apply list_elem_of_filter in Hin as [Hin _]. apply Hin. by eapply elem_of_dom_2. }
  destruct (init_clients_spec newips ∅ b) as (cores & E & _). rewrite sm_bind_eq, E, sm_bind_eq.
  match goal with |- context [sm_for (range cores) _ ?b1] => destruct (add_cores_spec (range cores) b1) as (b2 & -> & Ho & _) end.
  destruct (sm_for (range (bk_cores b)) _ b2) as [r b3] eqn:Es. eapply stop_all_spec in Es as H.
  2: { apply Forall_forall. intros [k i] Hk%elem_of_range. rewrite Ho. cbn. rewrite length_app. apply Hex in Hk. lia. }
  destruct r; [|done]. apply Forall_lookup. intros i f Hi. destruct (H i f Hi) as [?|[Hn Hi']]; [done|].
  rewrite Ho in Hi'. cbn in Hi'. apply lookup_app_Some in Hi' as [Hi'|[_ Hi']].
  - destruct (Ht i f Hi') as [?|[ip Hip]]; [done|]. destruct Hn. apply list_elem_of_fmap. exists (ip, i).
    split; [done|]. by apply elem_of_range.
  - apply lookup_replicate in Hi' as [-> _]. by right.
Qed.

(** The clients change, but none of them comes back. *)
Definition ages b b' : Prop :=
  bk_cores b' = bk_cores b /\ List.length (bk_objs b') = List.length (bk_objs b) /\
  forall i f', bk_objs b' !! i = Some f' -> deaf_client f' \/ exists f, bk_objs b !! i = Some f /\ ~ deaf_client f.
Lemma ages_sound b b' : ages b b' -> tracked b -> cores_exist b -> tracked b' /\ cores_exist b'.
Proof.
  intros (Hc & Hl & Ha) Ht Hex. split; [|intros ip i; rewrite Hc, Hl; apply Hex].
  intros i f' Hi. rewrite Hc. destruct (Ha i f' Hi) as [?|(f & Hf & Hn)]; [by left|]. destruct (Ht i f Hf); [done|by right].
Qed.
Lemma deaf_dec f : deaf_client f \/ ~ deaf_client f.
Proof. unfold deaf_client. destruct (cc_done f); [by left; left|]. destruct (decide (receivers f = ∅)); [by left; right|]. right. naive_solver. Qed.
Lemma ages_insert b i f f' loops chan :
  bk_objs b !! i = Some f -> (deaf_client f -> deaf_client f') ->
  ages b (set_chan chan (set_clients (<[i := f']> (bk_objs b)) loops b)).
Proof.
  intros Hi Hd. split_and!; [done|cbn; by rewrite length_insert|]. cbn. intros j g Hj.
  destruct (decide (i = j)) as [<-|Hne].
  - rewrite list_lookup_insert_eq in Hj by (by eapply lookup_lt_Some). injection Hj as <-.
    destruct (deaf_dec f) as [?|?]; [left; auto|right; eauto].
  - rewrite list_lookup_insert_ne in Hj by done. destruct (deaf_dec g); [by left|right; eauto].
Qed.
Lemma ages_refl b : ages b b.
Proof. split_and!; [done..|]. intros i f Hi. destruct (deaf_dec f); [by left|right; eauto]. Qed.
#[local] Instance ages_preorder : PreOrder ages.
Proof.
  split.
  - exact ages_refl.
  - intros b1 b2 b3 (H1 & H2 & H3) (H4 & H5 & H6). split_and!; [congruence..|]. intros i f Hi.
    destruct (H6 i f Hi) as [?|(g & Hg & Hn)]; [by left|]. destruct (H3 i g Hg); [done|by right].
Qed.
Lemma ages_Stop : within ages core_Stop.
Proof.
  unfold core_Stop. apply (within_bind ages); [intros b; rewrite sm_modify_eq; exact (ages_refl b)|]. intros _.
  apply (within_bind ages); [intros b; exact (ages_refl b)|]. intros b0. apply (within_for ages). intros [k v] b.
  unfold on_client, cc_Stop. destruct (bk_objs b !! v) as [f|] eqn:Hv; [|exact (ages_refl b)]. cbn zeta.
  destruct (cc_conn _); cbn [snd]; (apply (ages_insert b v f); [done|by left]).
Qed.

Definition sound b : Prop := Forall deaf_client (bk_objs b) \/ tracked b /\ cores_exist b.
Lemma sound_step b b' : broker_step b b' -> sound b -> bk_crashed b' = false -> sound b'.
Proof.
  intros Hs [Hd|[Ht Hex]] Hcr; [left; by destruct (deaf_step _ _ Hs Hd)|].
  destruct Hs as [i dial get received Hc Hi _|Hc Hpc|Hc Hpc|Hc].
  - right. apply (ages_sound b); [|done|done]. unfold client_turn, on_client.
    destruct (bk_objs b !! i) as [f|] eqn:Hf; [|exact (ages_refl b)].
    set (lent := mkCoreClient _ _ _ _ _). destruct (recvMessage_turn dial get received lent) as [r f'] eqn:E.
    assert (ages b (set_chan (channel_of f' fornaxChannel) (set_clients (<[i := f']> (bk_objs b)) (bk_loops b) b))) as Ha.
    { apply (ages_insert b i f); [done|]. intros Hdf.
      destruct (turn_deaf dial get received lent Hdf) as (t & f2 & E2 & H2 & _). congruence. }
    destruct r as [[msg|]|e]; exact Ha.
  - unfold loop_head. by destruct (bk_stop b); right.
  - unfold loop_select in *. destruct (ch_messages (bk_chan b)) as [|msg rest] eqn:Hm; [by right|]. unfold handle in *.
    destruct (ci_body msg) as [|primaryIp standbys|]; [by right| |by right].
    destruct (decide (primaryIp = ""%string)) as [->|Hp].
    { right. unfold core_onFornaxCoreConfigurationCommand. rewrite sm_bind_eq, sm_get_eq, bool_decide_true by done. done. }
    match type of Hcr with context [core_onFornaxCoreConfigurationCommand _ _ ?b1] =>
      pose proof (configuration_deafens primaryIp standbys b1 Hp Ht Hex) as H end.
    destruct (core_onFornaxCoreConfigurationCommand _ _ _) as [[u|e] b2]; [by left|]. subst e. done.
  - right. apply (ages_sound b); [|done|done]. pose proof (ages_Stop b) as H.
    by destruct (core_Stop b) as [[u|e] b2].
Qed.
Lemma started_sound name ips : NoDup ips -> sound (core_Start (NewFornaxCoreActor name ips)).2.
Proof.
  intros Hnd. right. unfold NewFornaxCoreActor. set (b0 := mkBroker _ _ _ _ _ _ _ _ _ _ _ _).
  destruct (init_clients_spec ips ∅ b0) as (cores & E & H1 & _ & _ & H4). rewrite E. cbn [fst snd].
  set (b1 := set_cores cores _).
  assert (forall ip i, cores !! ip = Some i -> i < List.length ips) as Hlt.
  { intros ip i [[_ H]|[_ H]]%H1; [by rewrite lookup_empty in H|cbn in H; lia]. }
  unfold core_Start. rewrite sm_bind_eq, sm_get_eq, sm_bind_eq.
  destruct (register_all (receiver_name b1) (range (bk_cores b1)) b1) as (objs & E' & Hlen & _ & _).
  { apply Forall_forall. intros [k i] Hk%elem_of_range. cbn. rewrite length_replicate. by eapply Hlt. }
  { apply Forall_replicate. by intros m. }
  rewrite E', sm_modify_eq. cbn in Hlen. rewrite length_replicate in Hlen. split.
  - intros i f Hi. right. apply lookup_lt_Some in Hi. cbn in Hi. rewrite Hlen in Hi.
    apply lookup_lt_is_Some in Hi as [ip Hip]. exists ip. apply (H4 Hnd i ip Hip).
  - intros ip i Hi. cbn in *. rewrite Hlen. by eapply Hlt.
Qed.

(** After a change of instances the agent hears nothing any more: what reaches the node actor from then
    on was in the channel already. *)
Lemma new_instances_unheard name ips b b' msg rest primaryIp standbys :
  NoDup ips -> rtc broker_step (core_Start (NewFornaxCoreActor name ips)).2 b ->
  bk_crashed b = false -> bk_pc b = AtSelect -> ch_messages (bk_chan b) = msg :: rest ->
  ci_body msg = CoreConfiguration primaryIp standbys -> primaryIp <> ""%string ->
  bk_crashed (loop_select b) = false -> rtc broker_step (loop_select b) b' ->
  bk_node b' `prefix_of` bk_node b ++ List.filter for_node rest.
Proof.
  intros Hnd Hrun Hc Hpc Hm Hb Hp Hc' Hrun'.
  assert (sound b) as Hs.
  { pose proof (started_sound name ips Hnd) as Hs. revert Hs Hc. clear -Hrun. induction Hrun as [|b1 b2 b3 H Hr IH]; [done|].
    intros Hs Hc. apply IH; [|done]. eapply sound_step; [done|done|]. destruct Hr as [|b2 b4 b5 H4 _]; [done|].
    by destruct H4. }
  assert (Forall deaf_client (bk_objs (loop_select b)) /\ heard (loop_select b) = bk_node b ++ List.filter for_node rest) as [Hd Hh].
  { destruct Hs as [Hd|[Ht Hex]].
    - destruct (deaf_step b (loop_select b)) as [Hd' Hh]; [by constructor|done|]. split; [done|]. rewrite Hh. unfold heard.
      rewrite Hm. cbn. unfold for_node at 1. by rewrite Hb.
    - unfold loop_select, handle in *. rewrite Hm, Hb in *.
      match type of Hc' with context [core_onFornaxCoreConfigurationCommand _ _ ?b1] =>
        pose proof (configuration_deafens primaryIp standbys b1 Hp Ht Hex) as H;
        pose proof (outcome_frame _ _ (frame_configuration primaryIp standbys b1)) as (_ & _ & Hn);
        pose proof (hushed_outcome _ _ (hushed_configuration primaryIp standbys b1)) as [Hch _] end.
      unfold heard. rewrite Hn, Hch. split; [|done].
      destruct (core_onFornaxCoreConfigurationCommand _ _ _) as [[u|e] b2]; [done|]. subst e. done. }
  assert (heard b' = heard (loop_select b)) as Hh'.
  { revert Hd. clear -Hrun'. induction Hrun' as [|b1 b2 b3 H _ IH]; [done|]. intros Hd.
    destruct (deaf_step _ _ H Hd) as [Hd2 <-]. by apply IH. }
  exists (List.filter for_node (ch_messages (bk_chan b'))). by rewrite <- Hh, <- Hh'.
Qed.

(** ** The instances a node sends to *)

Lemma stopped_dom (l : list (string * nat)) : forall b b',
  sm_for l (fun '(k, v) => do! _ <- sm_modify (fun b => set_cores (delete k (bk_cores b)) b); on_client v cc_Stop) b = (Ok (), b') ->
  dom (bk_cores b') = dom (bk_cores b) ∖ list_to_set l.*1.
Proof.
  induction l as [|[k v] l IH]; intros b b' E; [injection E as <-; set_solver|].
  cbn [sm_for] in E. rewrite sm_bind_eq, sm_bind_eq, sm_modify_eq in E.
  assert (bk_cores (on_client v cc_Stop (set_cores (delete k (bk_cores b)) b)).2 = delete k (bk_cores b)) as Hc.
  { unfold on_client, cc_Stop. destruct (bk_objs _ !! v); [|done]. cbn zeta. by destruct (cc_conn _). }
  destruct (on_client v cc_Stop _) as [[[]|e] b2]; [|done]. cbn in Hc. rewrite (IH _ _ E), Hc. set_solver.
Qed.
Lemma dom_range {A} (m : gmap string A) : list_to_set (range m).*1 = dom m.
Proof.
  apply set_eq. intros k. rewrite elem_of_list_to_set, list_elem_of_fmap, elem_of_dom. split.
  - intros ([k' v] & -> & Hk%elem_of_range). by exists v.
  - intros [v Hv]. exists (k, v). split; [done|]. by apply elem_of_range.
Qed.
Lemma init_clients_dom ips b cores b' :
  InitFornaxCoreClients ips ∅ b = (Ok cores, b') -> dom cores = list_to_set ips /\ bk_cores b' = bk_cores b.
Proof.
  destruct (init_clients_spec ips ∅ b) as (c & E & H1 & H2 & _). rewrite E. intros [= <- <-]. split; [|done]. apply set_eq. intros k.
  rewrite elem_of_dom, elem_of_list_to_set. split; [|apply H2]. intros [i [[_ Hk]|[Hk _]]%H1]; [by rewrite lookup_empty in Hk|done].
Qed.

(** A change of instances leaves clients for exactly the addresses the sending half ([NodeActor]) goes on with. *)
Lemma configuration_refines primaryIp standbys b b' (a : FornaxCoreActor) :
  dom (bk_cores b) = list_to_set (fornaxcores a) ->
  core_onFornaxCoreConfigurationCommand primaryIp standbys b = (Ok (), b') ->
  dom (bk_cores b') = list_to_set (fornaxcores (onFornaxCoreConfigurationCommand primaryIp standbys a).2).
Proof.
  intros Hd. unfold core_onFornaxCoreConfigurationCommand, onFornaxCoreConfigurationCommand. rewrite sm_bind_eq, sm_get_eq.
  case_bool_decide; [done|]. cbn [snd fornaxcores]. rewrite sm_bind_eq.
  set (newips := filter (fun ip => ip ∉ dom (bk_cores b)) (primaryIp :: standbys)).
  assert (forall k, k ∈ newips -> k ∉ fornaxcores a) as Hnew.
  { intros k [Hk _]%list_elem_of_filter. by rewrite Hd, elem_of_list_to_set in Hk. }
  assert (filter (fun ip => ip ∉ fornaxcores a) (primaryIp :: standbys) = newips) as ->.
  { apply list_filter_iff. intros k. by rewrite Hd, elem_of_list_to_set. }
  assert (filter (fun kv : string * nat => kv.1 ∉ newips) (bk_cores b) = bk_cores b) as ->.
  { apply map_filter_id. intros k i Hk Hin. apply (Hnew k Hin). rewrite <- (elem_of_list_to_set (C := gset string)), <- Hd.
    by eapply elem_of_dom_2. }
  destruct (InitFornaxCoreClients newips ∅ b) as [[cores|e] b1] eqn:E; [|done]. apply init_clients_dom in E as [E Hb1]. rewrite sm_bind_eq.
  destruct (add_cores_spec (range cores) b1) as (b2 & -> & _ & Hd2). intros Hs%stopped_dom.
  rewrite Hs, Hd2, !dom_range, E, Hb1.
  apply set_eq. intros k. rewrite elem_of_difference, elem_of_union, !elem_of_list_to_set, list_elem_of_filter, elem_of_app, elem_of_remove_dups, list_elem_of_filter, Hd, elem_of_list_to_set.
  pose proof (Hnew k). tauto.
Qed.
End Broker.

(** ** Concrete runs *)

Inductive broker_move := MTurn (i : nat) (received : option core_in) | MHead | MSelect | MStop.
Definition broker_play (m : broker_move) (b : broker) : option broker :=
  if bk_crashed b then None
  else match m with
  | MTurn i received =>
    if bool_decide (i ∈ bk_loops b) && (List.length (ch_messages (bk_chan b)) <? fornaxChannel_capacity)
    then Some (client_turn i (Ok ()) (Ok ()) received b) else None
  | MHead => match bk_pc b with AtHead => Some (loop_head b) | _ => None end
  | MSelect => match bk_pc b with AtSelect => Some (loop_select b) | _ => None end
  | MStop => Some (broker_outcome (core_Stop b))
  end.
Definition broker_run (l : list broker_move) (b : broker) : option broker := foldl (fun ob m => ob ≫= broker_play m) (Some b) l.
Lemma broker_play_step m b b' : broker_play m b = Some b' -> broker_step b b'.
Proof.
  unfold broker_play. destruct (bk_crashed b) eqn:Hc; [done|]. destruct m as [i received| | |].
  - destruct (bool_decide (i ∈ bk_loops b)) eqn:Hi; [|done]. apply bool_decide_eq_true in Hi. cbn [andb].
    destruct (Nat.ltb_spec (List.length (ch_messages (bk_chan b))) fornaxChannel_capacity); [|done].
    intros [= <-]. constructor; [done|done|by right].
  - destruct (bk_pc b) eqn:Hp; [done| |done|done]. intros [= <-]. by constructor.
  - destruct (bk_pc b) eqn:Hp; [done|done| |done]. intros [= <-]. by constructor.
  - intros [= <-]. by constructor.
Qed.
Lemma broker_run_steps l b b' : broker_run l b = Some b' -> rtc broker_step b b'.
Proof.
  unfold broker_run. revert b. induction l as [|m l IH]; intros b; cbn [foldl]; [by intros [= <-]|]. cbn [mbind option_bind].
  destruct (broker_play m b) as [b1|] eqn:E; [intros H; eapply rtc_l; [by eapply broker_play_step|by apply IH]|].
  intros H. assert (forall l, foldl (fun ob m => ob ≫= broker_play m) (None : option broker) l = None) as Hn by (clear; by induction l).
  by rewrite Hn in H.
Qed.

Definition two_cores : broker := (core_Start (NewFornaxCoreActor "ns/node1" ["core1"; "core2"]%string)).2.
Definition terminate_pod (node pod : string) : core_in := mkCoreIn _ node (NodeCommand (PodTerminate pod)).
Definition forwarding_run : list broker_move :=
  [MTurn 0 (Some (terminate_pod "ns/node1" "a")); MTurn 1 (Some (mkCoreIn _ "ns/node1" Unspecified)); MHead;
   MTurn 0 None; MSelect; MTurn 1 (Some (terminate_pod "ns/node2" "b")); MHead; MSelect; MHead; MSelect;
   MTurn 0 (Some (terminate_pod "ns/node1" "c"))].
Definition forwarded : broker := default two_cores (broker_run forwarding_run two_cores).

Lemma commands_forwarded_in_order_witness :
  List.length (bk_taken forwarded) = 4 /\ List.length (bk_node forwarded) = 2 /\
  bk_taken forwarded = bk_handled forwarded ++ ch_messages (bk_chan forwarded) /\
  bk_node forwarded = List.filter for_node (bk_handled forwarded).
Proof.
  split; [vm_compute; reflexivity|]. split; [vm_compute; reflexivity|].
  apply (commands_forwarded_in_order "ns/node1" ["core1"; "core2"]%string forwarded).
  - apply (bool_decide_unpack _). vm_compute. exact I.
  - apply (broker_run_steps forwarding_run). vm_compute. reflexivity.
  - vm_compute. reflexivity.
  - apply (bool_decide_unpack _). vm_compute. exact I.
Defined.

(** The second command was meant for another node. *)
Example other_node_served : ci_node <$> bk_node forwarded = ["ns/node1"; "ns/node2"]%string.
Proof. vm_compute. reflexivity. Qed.

(** A change of instances that is handled before one of the clients has connected ends the process. *)
Definition new_core : core_in := mkCoreIn _ "ns/node1" (CoreConfiguration "core3" []).
Example configuration_before_connection_panics :
  bk_crashed <$> broker_run [MTurn 0 (Some new_core); MHead; MSelect] two_cores = Some true.
Proof. vm_compute. reflexivity. Qed.
(** With all of them connected, the old clients are gone and the new one has two goroutines. *)
Example new_instance_started_twice :
  (fun b => (bk_crashed b, dom (bk_cores b), bk_loops b, List.length (bk_objs b))) <$>
    broker_run [MTurn 1 None; MTurn 0 (Some new_core); MHead; MSelect] two_cores = Some (false, {["core3"%string]}, [0; 1; 2; 2], 3).
Proof. vm_compute. reflexivity. Qed.
