(* ===== verification/GrpcServer.v ===== *)
(** * The gRPC server

    [pkg/fornaxcore/grpc/server]: one outgoing channel per connected node, whose messages [GetMessage]
    numbers and streams to the agent, and a fixed set of handler channels for incoming messages, each
    served by one goroutine; all messages of a node go to the same channel.

    The outgoing side is [Network]; it is the state behind [nodeagent.NodeAgentClient], so it is reached
    both from here and, through the pod and session managers, from inside the handlers: the state [W]
    behind the node manager contains it ([HasNetwork]).  A channel is the list of messages in it; a send
    on a full channel only waits. *)

From S2P Require Import Prelude GoStrings ApiTypes Interfaces Collection NodeManager NodeMonitor.
From Stdlib Require Import String.
#[local] Open Scope Z_scope.
#[local] Open Scope go_scope.

(** ** The outgoing side *)

(** The channel of a node and the state of the [GetMessage] call that reads it. *)
Record Connection {QL : QuantityLib} := mkConnection {
  conn_queue : list MessageBody;
  conn_seq : Z;
  conn_sent : list FornaxCoreMessage
}.

Section Network.
Context {CG : ClientGo} {QL : QuantityLib} {SC : SessionCodec}.
Abbreviation Network := (gmap string Connection).

Definition DispatchNodeMessage (nodeIdentifier : string) (message : MessageBody) : SM Network unit := fun net =>
  match net !! nodeIdentifier with
  | None => (Err (OtherError "unknown destination"), net)
  | Some c => (Ok (), <[nodeIdentifier := mkConnection _ (conn_queue c ++ [message]) (conn_seq c) (conn_sent c)]> net)
  end.

Definition grpc_CreatePod (nodeIdentifier : string) (pod : Pod) : SM Network unit :=
  DispatchNodeMessage nodeIdentifier (PodCreate (Name pod) pod).
Definition grpc_TerminatePod (nodeIdentifier : string) (pod : Pod) : SM Network unit :=
  DispatchNodeMessage nodeIdentifier (PodTerminate (Name pod)).
Definition grpc_HibernatePod (nodeIdentifier : string) (pod : Pod) : SM Network unit :=
  DispatchNodeMessage nodeIdentifier (PodHibernate (Name pod)).
Definition grpc_CloseSession (nodeIdentifier : string) (pod : Pod) (session : ApplicationSession) :
    SM Network unit :=
  DispatchNodeMessage nodeIdentifier (SessionClose (Name session) (Name pod)).
Definition grpc_OpenSession (nodeIdentifier : string) (pod : Pod) (session : ApplicationSession) :
    SM Network unit :=
  do! sessionData <- sm_lift (json_Marshal session) ;
  DispatchNodeMessage nodeIdentifier (SessionOpen (Name session) (Name pod) sessionData).
Definition FullSyncNode (nodeIdentifier : string) : SM Network unit :=
  DispatchNodeMessage nodeIdentifier NodeFullSync.

#[export] Instance grpc_agents : NodeAgentClient Network | 10 := {|
  na_CreatePod := grpc_CreatePod;
  na_TerminatePod := grpc_TerminatePod;
  na_HibernatePod := grpc_HibernatePod;
  na_OpenSession := grpc_OpenSession;
  na_CloseSession := grpc_CloseSession
|}.

(** One turn of the loop in [GetMessage]: the next message leaves with a fresh number.  [Send] failing
    ends the call, see [delistNode]. *)
Definition GetMessage_send (identifier : string) (net : Network) : Network :=
  match net !! identifier with
  | Some (mkConnection _ (msg :: q) seq sent) =>
    let messageSeq := i64 (seq + 1) in
    <[identifier := mkConnection _ q messageSeq
        (sent ++ [mkMessage _ (FormatInt messageSeq) identifier msg])]> net
  | _ => net
  end.
End Network.
Abbreviation Network := (gmap string Connection).

(** ** The server *)

(** Where the outgoing side sits in the state behind the managers. *)
Class HasNetwork {QL : QuantityLib} (W : Type) := {
  get_net : W -> Network;
  put_net : Network -> W -> W;
  get_put_net : forall net w, get_net (put_net net w) = net;
  put_get_net : forall w, put_net (get_net w) w = w
}.

Section Server.
Context {GR : GoRange} {GS : GoSort} {CG : ClientGo} {QL : QuantityLib} {SC : SessionCodec} {W : Type}
  {NC : NodeCollaborators W} {HN : HasNetwork W}.

Record grpcServer := mkServer {
  srv_monitor : nodeMonitor W;
  nodeIncommingChans : gmap string nat;
  nodeMessageHandlerChans : list (list FornaxCoreMessage)
}.
Implicit Types g : grpcServer.

Definition DefaultNodeIncomingHandlerNum : nat := 4.
Definition NewGrpcServer (mon : nodeMonitor W) : grpcServer :=
  mkServer mon ∅ (replicate DefaultNodeIncomingHandlerNum []).

Definition mon_net (mon : nodeMonitor W) : Network := get_net (nm_world (mon_nodeManager mon)).
Definition set_mon_net (net : Network) (mon : nodeMonitor W) : nodeMonitor W :=
  let nm := mon_nodeManager mon in
  mkMonitor (mon_nodes mon) (staleNodes mon) (mkNM (nm_nodes nm) (nodeUpdates nm) (put_net net (nm_world nm))).

Definition monitor {A} (c : SM (nodeMonitor W) A) : SM grpcServer A := fun g =>
  let '(r, mon) := c (srv_monitor g) in (r, mkServer mon (nodeIncommingChans g) (nodeMessageHandlerChans g)).
Definition network {A} (c : SM Network A) : SM grpcServer A := fun g =>
  let '(r, net) := c (mon_net (srv_monitor g)) in
  (r, mkServer (set_mon_net net (srv_monitor g)) (nodeIncommingChans g) (nodeMessageHandlerChans g)).

(** The error of [OnNodeConnect] is not looked at. *)
Definition enlistNode (node : string) : SM grpcServer unit :=
  do! g <- sm_get ;
  match mon_net (srv_monitor g) !! node with
  | Some _ => sm_fail (OtherError "node already has channel")
  | None =>
    do! _ <- sm_try (monitor (OnNodeConnect node)) ;
    network (sm_modify (<[node := mkConnection _ [] 0 []]>))
  end.

Definition delistNode (node : string) : SM grpcServer unit :=
  do! _ <- sm_try (monitor (OnNodeDisconnect node)) ;
  network (sm_modify (delete node)).

(** [rand.Intn] is the argument [i]. *)
Definition getNodeMessageHandlerChannel (i : nat) (nodeId : string) : SM grpcServer nat := fun g =>
  match nodeIncommingChans g !! nodeId with
  | Some messageCh => (Ok messageCh, g)
  | None =>
    let channel := (i mod List.length (nodeMessageHandlerChans g))%nat in
    (Ok channel, mkServer (srv_monitor g) (<[nodeId := channel]> (nodeIncommingChans g))
                   (nodeMessageHandlerChans g))
  end.

Definition PutMessage (i : nat) (message : FornaxCoreMessage) : SM grpcServer unit :=
  do! messageCh <- getNodeMessageHandlerChannel i (msg_NodeIdentifier message) ;
  sm_modify (fun g => mkServer (srv_monitor g) (nodeIncommingChans g)
                        (alter (fun q => q ++ [message]) messageCh (nodeMessageHandlerChans g))).

(** The handler of a message; other types are only logged. *)
Definition dispatch (now : Z) (message : FornaxCoreMessage) : SM (nodeMonitor W) (option MessageBody) :=
  let nodeId := msg_NodeIdentifier message in
  match msg_Body message with
  | NodeRegistry node revision => OnRegistry now nodeId node revision
  | NodeReady node revision podStates => OnNodeReady now nodeId node revision podStates
  | NodeState node revision podStates => OnNodeStateUpdate now nodeId node revision podStates
  | PodStateUpdate podState => OnPodStateUpdate now nodeId podState
  | SessionStateUpdate sessionState => OnSessionUpdate now nodeId sessionState
  | _ => sm_ret None
  end.

Definition handleMessages (now : Z) (message : FornaxCoreMessage) : SM grpcServer unit :=
  let nodeId := msg_NodeIdentifier message in
  do! r <- sm_try (monitor (dispatch now message)) ;
  do! _ <- match r with
           | Err NodeRevisionOutOfOrderError => sm_try (network (DispatchNodeMessage nodeId NodeFullSync))
           | _ => sm_ret (Ok ())
           end ;
  match r with
  | Ok (Some msg) => do! _ <- sm_try (network (DispatchNodeMessage nodeId msg)) ; sm_ret ()
  | _ => sm_ret ()
  end.

(** One turn of the goroutine of a handler channel. *)
Definition serve (now : Z) (channel : nat) (g : grpcServer) : option FornaxCoreMessage * grpcServer :=
  match nodeMessageHandlerChans g !! channel with
  | Some (msg :: q) =>
    let g := mkServer (srv_monitor g) (nodeIncommingChans g) (<[channel := q]> (nodeMessageHandlerChans g)) in
    (Some msg, (handleMessages now msg g).2)
  | _ => (None, g)
  end.
End Server.
Arguments grpcServer {QL} W.

(** ** Order of incoming messages *)

Section Order.
Context {GR : GoRange} {GS : GoSort} {CG : ClientGo} {QL : QuantityLib} {SC : SessionCodec} {W : Type}
  {NC : NodeCollaborators W} {HN : HasNetwork W}.
Implicit Types (g : grpcServer W) (m : FornaxCoreMessage).

(** What the handlers may change: everything but the incoming side. *)
Definition same_incoming g g' : Prop :=
  nodeIncommingChans g' = nodeIncommingChans g /\ nodeMessageHandlerChans g' = nodeMessageHandlerChans g.

Lemma monitor_incoming {A} (c : SM (nodeMonitor W) A) g : same_incoming g (monitor c g).2.
Proof. unfold monitor. by destruct (c (srv_monitor g)). Qed.
Lemma network_incoming {A} (c : SM Network A) g : same_incoming g (network c g).2.
Proof. unfold network. by destruct (c _). Qed.

Lemma sm_try_incoming {A} (c : SM (grpcServer W) A) g :
  same_incoming g (c g).2 -> same_incoming g (sm_try c g).2.
Proof. unfold sm_try. by destruct (c g). Qed.
Lemma sm_bind_incoming {A B} (c : SM (grpcServer W) A) (k : A -> SM (grpcServer W) B) g :
  same_incoming g (c g).2 -> (forall a g', same_incoming g' (k a g').2) ->
  same_incoming g (sm_bind c k g).2.
Proof.
  intros [H1 H2] Hk. rewrite sm_bind_eq. destruct (c g) as [[a|e] g1]; [|done]. simpl in *.
  destruct (Hk a g1) as [K1 K2]. split; congruence.
Qed.

Lemma handleMessages_incoming now m g : same_incoming g (handleMessages now m g).2.
Proof.
  unfold handleMessages. apply sm_bind_incoming; [apply sm_try_incoming, monitor_incoming|].
  intros r g1. apply sm_bind_incoming.
  - destruct r as [|[]]; try done; apply sm_try_incoming, network_incoming.
  - intros _ g2. destruct r as [[b|]|]; try done.
    apply sm_bind_incoming; [apply sm_try_incoming, network_incoming|done].
Qed.

(** Executions of the server: the messages put so far and the messages handled so far.  Connections,
    other goroutines of the control plane and the stream to the agents change the rest of the state. *)
Inductive served : grpcServer W -> list FornaxCoreMessage -> list FornaxCoreMessage -> Prop :=
  | served_new mon : served (NewGrpcServer mon) [] []
  | served_put g p h i m : served g p h -> served (PutMessage i m g).2 (p ++ [m]) h
  | served_handle g p h now c m g' : served g p h -> serve now c g = (Some m, g') -> served g' p (h ++ [m])
  | served_other g p h g' : served g p h -> same_incoming g g' -> served g' p h.

Definition from (node : string) m : bool := String.eqb (msg_NodeIdentifier m) node.
Definition of_node (node : string) (l : list FornaxCoreMessage) : list FornaxCoreMessage :=
  filter (fun m => from node m = true) l.

(** The messages of a node that wait in its channel. *)
Definition waiting g (node : string) : list FornaxCoreMessage :=
  match nodeIncommingChans g !! node with
  | Some c => of_node node (default [] (nodeMessageHandlerChans g !! c))
  | None => []
  end.

Record incoming_inv g (p h : list FornaxCoreMessage) : Prop := {
  ii_some : nodeMessageHandlerChans g <> [];
  ii_chan : forall node c, nodeIncommingChans g !! node = Some c -> is_Some (nodeMessageHandlerChans g !! c);
  ii_own : forall c q m, nodeMessageHandlerChans g !! c = Some q -> m ∈ q ->
    nodeIncommingChans g !! msg_NodeIdentifier m = Some c;
  ii_order : forall node, of_node node p = of_node node h ++ waiting g node
}.

Lemma of_node_app node l1 l2 : of_node node (l1 ++ l2) = of_node node l1 ++ of_node node l2.
Proof. apply filter_app. Qed.

Lemma of_node_one node m : of_node node [m] = if decide (msg_NodeIdentifier m = node) then [m] else [].
Proof.
  unfold of_node, from. rewrite filter_cons. destruct (String.eqb_spec (msg_NodeIdentifier m) node) as [E|E].
  - by rewrite (decide_True (P := msg_NodeIdentifier m = node)).
  - by rewrite (decide_False (P := msg_NodeIdentifier m = node)).
Qed.

(** A node that is not assigned a channel has nothing queued. *)
Lemma unassigned_not_queued g p h c q node :
  incoming_inv g p h -> nodeMessageHandlerChans g !! c = Some q -> nodeIncommingChans g !! node <> Some c ->
  of_node node q = [].
Proof.
  intros Hi Hq Hn. destruct (of_node node q) as [|m l] eqn:E; [done|]. exfalso. apply Hn.
  assert (m ∈ of_node node q) as Hm by (rewrite E; by left).
  unfold of_node, from in Hm. apply list_elem_of_filter in Hm as [Hf Hin].
  apply String.eqb_eq in Hf. subst node. by eapply ii_own.
Qed.

Lemma put_inv g p h i m : incoming_inv g p h -> incoming_inv (PutMessage i m g).2 (p ++ [m]) h.
Proof.
  intros Hi. unfold PutMessage. rewrite sm_bind_eq. set (node := msg_NodeIdentifier m).
  assert (exists c g1, getNodeMessageHandlerChannel i node g = (Ok c, g1) /\ incoming_inv g1 p h /\
    nodeIncommingChans g1 !! node = Some c) as (c & g1 & -> & Hi1 & Hc).
  { unfold getNodeMessageHandlerChannel. destruct (nodeIncommingChans g !! node) as [c|] eqn:Hn; [by exists c, g|].
    eexists _, _. split; [done|]. split; [|apply lookup_insert_eq]. pose proof (ii_some _ _ _ Hi) as Hne.
    split; simpl; [done| | |].
    - intros n c [[_ <-]|[_ ?]]%lookup_insert_Some; [|by eapply ii_chan].
      apply lookup_lt_is_Some_2, Nat.mod_upper_bound. by destruct (nodeMessageHandlerChans g).
    - intros c q m' Hq Hin. rewrite lookup_insert_ne; [by eapply ii_own|].
      intros Heq. pose proof (ii_own _ _ _ Hi c q m' Hq Hin). congruence.
    - intros n. rewrite (ii_order _ _ _ Hi n). f_equal. unfold waiting. simpl. rewrite lookup_insert.
      case_decide as E; [subst n|done]. rewrite Hn.
      destruct (nodeMessageHandlerChans g !! _) as [q|] eqn:Hq; [|done]. simpl.
      symmetry. eapply unassigned_not_queued; [done|done|by rewrite Hn]. }
  clear Hi. destruct Hi1 as [Hs Hch Hown Hord]. unfold sm_modify. simpl.
  destruct (Hch node c Hc) as [q0 Hq0]. split; simpl.
  - intros E. apply (f_equal (@List.length _)) in E. rewrite length_alter in E.
    by destruct (nodeMessageHandlerChans g1).
  - intros n c' Hn. destruct (Hch n c' Hn) as [q Hq]. apply lookup_lt_is_Some_2. rewrite length_alter.
    by eapply lookup_lt_Some.
  - intros c' q m' Hq Hin. destruct (decide (c = c')) as [<-|Hne].
    + rewrite list_lookup_alter_eq, Hq0 in Hq. simplify_eq/=.
      apply elem_of_app in Hin as [Hin|Hin%list_elem_of_singleton]; [by eapply Hown|by subst m'].
    + rewrite list_lookup_alter_ne in Hq by done. by eapply Hown.
  - intros n. rewrite of_node_app, Hord, <- app_assoc. f_equal. unfold waiting. simpl.
    rewrite of_node_one. fold node. destruct (nodeIncommingChans g1 !! n) as [c'|] eqn:Hn.
    + destruct (decide (c = c')) as [<-|Hne].
      * rewrite list_lookup_alter_eq, Hq0. simpl. by rewrite of_node_app, of_node_one.
      * rewrite list_lookup_alter_ne by done. case_decide; [congruence|]. by rewrite app_nil_r.
    + case_decide; [congruence|done].
Qed.

Lemma same_incoming_inv g g' p h : same_incoming g g' -> incoming_inv g p h -> incoming_inv g' p h.
Proof.
  intros [E1 E2] [H1 H2 H3 H4]. split; rewrite ?E1, ?E2; [done|done|done|].
  intros node. rewrite H4. unfold waiting. by rewrite E1, E2.
Qed.

Lemma serve_inv now c g p h m g' :
  incoming_inv g p h -> serve now c g = (Some m, g') -> incoming_inv g' p (h ++ [m]).
Proof.
  intros Hi Hs. unfold serve in Hs.
  destruct (nodeMessageHandlerChans g !! c) as [[|m' q]|] eqn:Hq; simplify_eq.
  eapply same_incoming_inv; [apply handleMessages_incoming|].
  pose proof (ii_own _ _ _ Hi c (m :: q) m Hq ltac:(by left)) as Hm.
  destruct Hi as [Hsm Hch Hown Hord]. split; simpl.
  - intros E. apply (f_equal (@List.length _)) in E. rewrite length_insert in E.
    by destruct (nodeMessageHandlerChans g).
  - intros n c' Hn. apply lookup_lt_is_Some_2. rewrite length_insert. by apply lookup_lt_is_Some, (Hch n).
  - intros c' q' m' [(<- & <- & _)|[_ Hq']]%list_lookup_insert_Some Hin; [|by eapply Hown].
    eapply Hown; [exact Hq|by right].
  - intros n. rewrite Hord, of_node_app, <- app_assoc. f_equal. unfold waiting. simpl.
    rewrite of_node_one. destruct (nodeIncommingChans g !! n) as [c'|] eqn:Hn.
    + destruct (decide (c = c')) as [<-|Hne].
      * rewrite Hq, list_lookup_insert_eq by (by eapply lookup_lt_Some). simpl.
        change (m :: q) with ([m] ++ q). by rewrite of_node_app, of_node_one.
      * rewrite list_lookup_insert_ne by done. case_decide; [congruence|done].
    + case_decide; [congruence|done].
Qed.

Lemma served_inv g p h : served g p h -> incoming_inv g p h.
Proof.
  induction 1 as [mon|g p h i m _ IH|g p h now c m g' _ IH Hs|g p h g' _ IH Hs].
  - split; [done|done| |done]. intros c q m Hq Hin. unfold NewGrpcServer in Hq. cbn [nodeMessageHandlerChans] in Hq.
    apply lookup_replicate in Hq as [-> _]. by apply elem_of_nil in Hin.
  - by apply put_inv.
  - by eapply serve_inv.
  - by eapply same_incoming_inv.
Qed.

(** C16: the messages of a node are handled in the order they arrived.  However the handler goroutines
    are scheduled and whichever handler a node is assigned to, the messages of a node that were handled
    are the first ones it sent, each once, and the others wait in order: none is lost, duplicated or
    overtaken. *)
Theorem node_messages_in_order g p h node :
  served g p h -> of_node node p = of_node node h ++ waiting g node.
Proof. intros Hs. apply ii_order. by apply served_inv. Qed.

(** ** Revisions *)

Definition push (msg : MessageBody) (c : Connection) : Connection :=
  mkConnection _ (conn_queue c ++ [msg]) (conn_seq c) (conn_sent c).

Lemma network_nodes {A} (c : SM Network A) g :
  mon_nodes (srv_monitor (network c g).2) = mon_nodes (srv_monitor g).
Proof. unfold network. by destruct (c _). Qed.

Lemma sm_try_snd {St A} (c : SM St A) s : (sm_try c s).2 = (c s).2.
Proof. unfold sm_try. by destruct (c s). Qed.

(** The answers a handler sends do not touch the revisions. *)
Lemma handleMessages_nodes now m g :
  mon_nodes (srv_monitor (handleMessages now m g).2) = mon_nodes (dispatch now m (srv_monitor g)).2.
Proof.
  unfold handleMessages. rewrite (sm_bind_snd _ _ (fun g => mon_nodes (srv_monitor g))).
  - rewrite sm_try_snd. unfold monitor. by destruct (dispatch now m (srv_monitor g)).
  - intros r g1. rewrite (sm_bind_snd _ _ (fun g => mon_nodes (srv_monitor g))).
    + destruct r as [|[]]; try done; by rewrite sm_try_snd, network_nodes.
    + intros _ g2. destruct r as [[b|]|]; try done.
      rewrite (sm_bind_snd _ _ (fun g => mon_nodes (srv_monitor g))) by done.
      by rewrite sm_try_snd, network_nodes.
Qed.

(** A change that does not follow is answered by a request for everything.  A pod report of a
    connected node whose revision is neither the last one nor its successor changes no manager and
    sends the node a full-sync request; otherwise its revision is recorded and the node manager
    applies it. *)
Theorem pod_report_in_order now g m nodeId podState c :
  msg_NodeIdentifier m = nodeId -> msg_Body m = PodStateUpdate podState ->
  mon_net (srv_monitor g) !! nodeId = Some c ->
  if decide (out_of_order (srv_monitor g) nodeId (psm_NodeRevision podState)) then
    handleMessages now m g =
      (Ok (), mkServer (set_mon_net (<[nodeId := push NodeFullSync c]> (mon_net (srv_monitor g)))
                          (srv_monitor g)) (nodeIncommingChans g) (nodeMessageHandlerChans g))
  else
    revision_of (srv_monitor (handleMessages now m g).2) nodeId = Some (psm_NodeRevision podState) /\
    forall nm', nm_UpdatePodState now nodeId (psm_Pod podState) (decode_sessions (psm_SessionStates podState))
        (mon_nodeManager (srv_monitor g)) = (Ok (), nm') ->
      mon_nodeManager (srv_monitor (handleMessages now m g).2) = nm'.
Proof.
  intros <- Hb Hc. case_decide as Ho.
  - unfold handleMessages. rewrite sm_bind_eq. unfold sm_try at 1, monitor, dispatch. rewrite Hb.
    rewrite (pod_state_out_of_order now _ podState (srv_monitor g) Ho). cbv iota beta.
    rewrite sm_bind_eq. unfold sm_try, network. cbn [srv_monitor nodeIncommingChans nodeMessageHandlerChans].
    unfold DispatchNodeMessage. rewrite Hc. done.
  - destruct (pod_state_in_order now _ podState (srv_monitor g) Ho) as [Hrev Hnm].
    split; [unfold revision_of in *; rewrite handleMessages_nodes; unfold dispatch; by rewrite Hb|].
    intros nm' Hnm'. rewrite Hnm' in Hnm. simpl in Hnm.
    assert ((OnPodStateUpdate now (msg_NodeIdentifier m) podState (srv_monitor g)).1 = Ok None) as Hr.
    { unfold OnPodStateUpdate. rewrite sm_bind_eq, sm_get_eq. unfold out_of_order, revision_of in Ho.
      destruct (mon_nodes (srv_monitor g) !! msg_NodeIdentifier m) as [n|]; [|by destruct Ho].
      rewrite sm_bind_eq, sm_lift_eq, validate_spec, decide_False by done.
      rewrite sm_bind_eq. unfold set_revision. rewrite sm_modify_eq, sm_bind_eq.
      unfold manager. simpl. by rewrite Hnm'. }
    unfold handleMessages. rewrite sm_bind_eq. unfold sm_try at 1, monitor, dispatch. rewrite Hb.
    destruct (OnPodStateUpdate _ _ _ _) as [r mon1]. simpl in Hr, Hnm. by subst r.
Qed.

(** *** Which messages move the revision of a node *)

Lemma set_revision_other nodeId r (mon : nodeMonitor W) n :
  n <> nodeId -> mon_nodes (set_revision nodeId r mon).2 !! n = mon_nodes mon !! n.
Proof. intros Hn. unfold set_revision. simpl. by rewrite lookup_insert_ne. Qed.

(** A computation that leaves the revisions of [n] alone. *)
Definition keeps_rev {A} (n : string) (c : SM (nodeMonitor W) A) : Prop :=
  forall mon, mon_nodes (c mon).2 !! n = mon_nodes mon !! n.

Lemma keeps_rev_bind {A B} n (c : SM (nodeMonitor W) A) (k : A -> SM (nodeMonitor W) B) :
  keeps_rev n c -> (forall a, keeps_rev n (k a)) -> keeps_rev n (sm_bind c k).
Proof.
  intros Hc Hk mon. rewrite sm_bind_eq. specialize (Hc mon). destruct (c mon) as [[a|e] mon1]; [|done].
  simpl in Hc. by rewrite <- Hc, (Hk a mon1).
Qed.
Lemma keeps_rev_manager {A} n (c : SM (nodeManager W) A) : keeps_rev n (manager c).
Proof. intros mon. by rewrite manager_nodes. Qed.
Lemma keeps_rev_get n : keeps_rev n sm_get. Proof. done. Qed.
Lemma keeps_rev_ret {A} n (a : A) : keeps_rev n (sm_ret a). Proof. done. Qed.
Lemma keeps_rev_lift {A} n (r : result A) : keeps_rev n (sm_lift r). Proof. done. Qed.
Lemma keeps_rev_fail {A} n e : keeps_rev (A := A) n (sm_fail e). Proof. done. Qed.
Lemma keeps_rev_set n nodeId r : n <> nodeId -> keeps_rev n (set_revision nodeId r).
Proof. intros Hn mon. by apply set_revision_other. Qed.

Create HintDb revdb.
#[local] Hint Resolve keeps_rev_bind keeps_rev_manager keeps_rev_get keeps_rev_ret keeps_rev_lift
  keeps_rev_fail keeps_rev_set : revdb.

Lemma dispatch_other now m n : n <> msg_NodeIdentifier m -> keeps_rev n (dispatch now m).
Proof.
  intros Hn. unfold dispatch. destruct (msg_Body m); auto with revdb;
    unfold OnRegistry, OnNodeReady, OnNodeStateUpdate, updateOrCreateNode, OnPodStateUpdate, OnSessionUpdate.
  all: repeat (apply keeps_rev_bind; [auto with revdb|intros ?]); auto with revdb.
  all: repeat case_match; auto 6 with revdb.
  all: apply keeps_rev_bind; [|auto with revdb];
    apply keeps_rev_bind; [auto with revdb|intros ?]; repeat case_match; auto 6 with revdb.
Qed.

(** The revision a message of the node leaves, when the monitor holds [cur]: a registration sets it, a
    full report does unless it is older (revision 1 is that of a restarted agent), a single change
    does when its own revision is the next one. *)
Definition revision_after (cur : Z) (body : MessageBody) : Z :=
  match body with
  | NodeRegistry _ r => r
  | NodeReady _ r _ | NodeState _ r _ => if decide (cur <= r \/ r = 1) then r else cur
  | PodStateUpdate p => if decide (psm_NodeRevision p = i64 (cur + 1)) then psm_NodeRevision p else cur
  | SessionStateUpdate s =>
    match json_Unmarshal (ss_SessionData s) with
    | Ok _ => if decide (ss_NodeRevision s = i64 (cur + 1)) then ss_NodeRevision s else cur
    | Err _ => cur
    end
  | _ => cur
  end.

(** A single change that neither repeats the revision [cur] nor follows it. *)
Definition leaves_gap (cur : Z) (body : MessageBody) : Prop :=
  match body with
  | PodStateUpdate p => psm_NodeRevision p <> cur /\ psm_NodeRevision p <> i64 (cur + 1)
  | SessionStateUpdate s => (exists session, json_Unmarshal (ss_SessionData s) = Ok session) /\
      ss_NodeRevision s <> cur /\ ss_NodeRevision s <> i64 (cur + 1)
  | _ => False
  end.

Lemma sm_bind_ret_snd {St A B C} (c : SM St A) (b : B) (f : St -> C) s :
  f (sm_bind c (fun _ => sm_ret b) s).2 = f (c s).2.
Proof. by apply (sm_bind_snd c (fun _ => sm_ret b) f). Qed.

Lemma full_report_after now nodeId node r ps (mon : nodeMonitor W) cur :
  revision_of mon nodeId = Some cur ->
  revision_of (updateOrCreateNode now nodeId node r ps mon).2 nodeId =
    Some (if decide (cur <= r \/ r = 1) then r else cur).
Proof.
  intros Hc. rewrite full_report_revision, Hc. f_equal.
  destruct (Z.ltb_spec r cur), (Z.eqb_spec r 1); simpl; case_decide; lia || done.
Qed.

Lemma out_of_order_at (mon : nodeMonitor W) n cur r :
  revision_of mon n = Some cur -> out_of_order mon n r <-> r <> cur /\ r <> i64 (cur + 1).
Proof. intros Hc. unfold out_of_order. by rewrite Hc. Qed.

(** C17: a gap in a node's revisions is only closed by a full report or a new registration.  The
    revision the monitor holds for a node changes only by a message of the node itself, and then to
    the revision this message carries: always for a registration, for a full report unless it is
    older (or the first one of a restarted agent), and for a single change of a pod or session only
    when it carries exactly the next revision.  A single change that leaves a gap is refused as out
    of order and changes nothing at all. *)
Theorem revision_moves_in_order now m (mon : nodeMonitor W) n cur :
  revision_of mon n = Some cur ->
  revision_of (dispatch now m mon).2 n =
    Some (if decide (n = msg_NodeIdentifier m) then revision_after cur (msg_Body m) else cur) /\
  (n = msg_NodeIdentifier m -> leaves_gap cur (msg_Body m) ->
   dispatch now m mon = (Err NodeRevisionOutOfOrderError, mon)).
Proof.
  intros Hc. case_decide as Hn.
  2:{ split; [|done]. unfold revision_of in *. by rewrite (dispatch_other now m n Hn mon). }
  subst n. unfold dispatch.
  destruct (msg_Body m) as [|node r| |node r ps|node r ps| | | | |p| | |s] eqn:Hb; try done; cbn [revision_after leaves_gap].
  - split; [|done]. unfold OnRegistry, revision_of. rewrite sm_bind_eq.
    unfold set_revision. rewrite sm_modify_eq. cbv iota.
    rewrite (sm_bind_snd _ _ mon_nodes) by done. rewrite manager_nodes. simpl. by rewrite lookup_insert_eq.
  - split; [|done]. unfold OnNodeReady, revision_of. rewrite (sm_bind_ret_snd _ _ mon_nodes).
    by apply full_report_after.
  - split; [|done]. unfold OnNodeStateUpdate, revision_of. rewrite (sm_bind_ret_snd _ _ mon_nodes).
    by apply full_report_after.
  - pose proof (out_of_order_at mon _ cur (psm_NodeRevision p) Hc) as Hout.
    destruct (decide (out_of_order mon (msg_NodeIdentifier m) (psm_NodeRevision p))) as [Ho|Ho].
    { rewrite pod_state_out_of_order by done. rewrite decide_False by tauto. done. }
    destruct (pod_state_in_order now _ p mon Ho) as [Hr _]. rewrite Hr.
    split; [|tauto]. case_decide; [done|]. f_equal. destruct (decide (psm_NodeRevision p = cur)); tauto.
  - destruct (json_Unmarshal (ss_SessionData s)) as [sess|e] eqn:Hs.
    2:{ split; [|by intros _ [[? ?] _]]. unfold OnSessionUpdate. by rewrite sm_bind_eq, sm_lift_eq, Hs. }
    pose proof (out_of_order_at mon _ cur (ss_NodeRevision s) Hc) as Hout.
    destruct (decide (out_of_order mon (msg_NodeIdentifier m) (ss_NodeRevision s))) as [Ho|Ho].
    { rewrite (session_state_out_of_order now _ s sess) by done. rewrite decide_False by tauto. done. }
    destruct (session_state_in_order now _ s sess mon Hs Ho) as [Hr _]. rewrite Hr.
    split; [|tauto]. case_decide; [done|]. f_equal. destruct (decide (ss_NodeRevision s = cur)); tauto.
Qed.

(** A node that was disconnected and comes back: the monitor's request for a full report is dropped,
    nothing is sent. *)
Lemma reconnect_sends_nothing g node r :
  staleNodes (srv_monitor g) !! node = Some r -> mon_net (srv_monitor g) !! node = None ->
  exists g', enlistNode node g = (Ok (), g') /\
    mon_net (srv_monitor g') = <[node := mkConnection _ [] 0 []]> (mon_net (srv_monitor g)).
Proof.
  intros Hs Hn. unfold enlistNode. rewrite sm_bind_eq, sm_get_eq, Hn, sm_bind_eq.
  unfold sm_try, monitor, OnNodeConnect. rewrite sm_bind_eq, sm_get_eq, Hs. eexists. split; [done|].
  unfold mon_net. simpl. by rewrite get_put_net.
Qed.
End Order.
