(* ===== verification/CommandPath.v ===== *)
(** * Commands from the server to the node actor

    One agent and one instance of the control plane: [DispatchNodeMessage], [enlistNode], [delistNode] and
    the loop of [GetMessage] at the server ([GrpcServer]), the stream, the client, its channel and the
    goroutine of the agent ([CoreClient], [CoreBroker]).

    A stream delivers in order what the server sent on it, and may break at any time.  The client
    notices a break when [Recv] fails and asks for a new stream on its next turn; what the server had
    sent and the client had not read is then lost.  The server notices it when the context of the call
    is done or [Send] fails, and calls [delistNode], which drops the queue; until then the call stays
    listed, commands are still accepted for it and new calls of the agent are refused.  The two notice
    independently.  A send on the queue that [delistNode] closes at the same moment panics and is not
    modelled, nor is the bound of the queue.  The server has no code that sends a configuration of
    instances, so none is dispatched here. *)

From S2P Require Import Prelude GoStrings ApiTypes Interfaces NodeMonitor ContainerActor CoreClient CoreBroker GrpcServer.
From Stdlib Require Import String.
#[local] Open Scope nat_scope.
#[local] Open Scope go_scope.

Record link {QL : QuantityLib} := mkLink {
  lk_net : Network;
  lk_broker : broker;
  (** sent by the server and not read by the client yet *)
  lk_flight : list FornaxCoreMessage;
  (** whether the call listed at the server feeds the client's stream *)
  lk_attached : bool;
  (** the commands [DispatchNodeMessage] accepted, and those of them that were lost with a stream *)
  lk_dispatched : list MessageBody;
  lk_lost : list MessageBody
}.

Section Link.
Context {GR : GoRange} {CG : ClientGo} {QL : QuantityLib}.
Context (node : string).
Implicit Types (l : link) (b : broker).

(** What arrives of a message *)
Definition on_wire (m : FornaxCoreMessage) : core_in := mkCoreIn _ (msg_NodeIdentifier m) (NodeCommand (msg_Body m)).
Definition command_of (m : core_in) : option MessageBody := match ci_body m with NodeCommand body => Some body | _ => None end.

Definition queue_of l : list MessageBody := match lk_net l !! node with Some c => conn_queue c | None => [] end.
(** What a turn of the loop in [GetMessage] puts on the stream *)
Definition newly_sent (net : Network) : list FornaxCoreMessage :=
  match net !! node, GetMessage_send node net !! node with
  | Some c, Some c' => drop (List.length (conn_sent c)) (conn_sent c')
  | _, _ => []
  end.

(** The steps of the two programs while the stream holds. *)
Inductive link_move l : link -> Prop :=
  | ln_send : link_move l (mkLink _ (GetMessage_send node (lk_net l)) (lk_broker l)
      (lk_flight l ++ if lk_attached l then newly_sent (lk_net l) else []) (lk_attached l) (lk_dispatched l) (lk_lost l))
  | ln_receive msg rest : lk_flight l = msg :: rest ->
    List.length (ch_messages (bk_chan (lk_broker l))) < fornaxChannel_capacity ->
    link_move l (mkLink _ (lk_net l) (client_turn 0 (Ok ()) (Ok ()) (Some (on_wire msg)) (lk_broker l))
      rest (lk_attached l) (lk_dispatched l) (lk_lost l))
  | ln_head : bk_pc (lk_broker l) = AtHead ->
    link_move l (mkLink _ (lk_net l) (loop_head (lk_broker l)) (lk_flight l) (lk_attached l) (lk_dispatched l) (lk_lost l))
  | ln_select : bk_pc (lk_broker l) = AtSelect ->
    link_move l (mkLink _ (lk_net l) (loop_select (lk_broker l)) (lk_flight l) (lk_attached l) (lk_dispatched l) (lk_lost l)).

(** Those steps, commands, and what happens to the stream: a turn of the client without a message (dialing
    fails, the call is refused, or the stream broke), the server ending its call, and the server accepting a
    new call of a client that has no stream. *)
Inductive link_step l : link -> Prop :=
  | ln_move l' : link_move l l' -> link_step l l'
  | ln_dispatch body net : body <> FornaxCoreConfiguration -> DispatchNodeMessage node body (lk_net l) = (Ok (), net) ->
    link_step l (mkLink _ net (lk_broker l) (lk_flight l) (lk_attached l) (lk_dispatched l ++ [body])
      (lk_lost l ++ if lk_attached l then [] else [body]))
  | ln_no_message dial get :
    link_step l (mkLink _ (lk_net l) (client_turn 0 dial get None (lk_broker l)) [] false (lk_dispatched l)
      (lk_lost l ++ map msg_Body (lk_flight l) ++ if lk_attached l then queue_of l else []))
  | ln_delist c : lk_net l !! node = Some c ->
    link_step l (mkLink _ (delete node (lk_net l)) (lk_broker l) (lk_flight l) false (lk_dispatched l)
      (lk_lost l ++ if lk_attached l then conn_queue c else []))
  | ln_accept f : lk_net l !! node = None -> lk_flight l = [] ->
    bk_objs (lk_broker l) !! 0 = Some f -> cc_getMessageClient f = false ->
    link_step l (mkLink _ (<[node := mkConnection _ [] 0 []]> (lk_net l)) (lk_broker l) [] true (lk_dispatched l) (lk_lost l)).

(** The agent has started, with one instance, and has not called it yet. *)
Definition started_link (core : string) : link :=
  mkLink _ ∅ (core_Start (NewFornaxCoreActor node [core])).2 [] false [] [].

(** What the node actor was handed, and what is still on its way to it: in the channel of the agent, on
    the stream, and in the queue of a call that feeds the stream. *)
Definition delivered l : list MessageBody := omap command_of (bk_node (lk_broker l)).
Definition under_way l : list MessageBody :=
  omap command_of (ch_messages (bk_chan (lk_broker l))) ++ map msg_Body (lk_flight l) ++
  if lk_attached l then queue_of l else [].

(** ** The invariant of a connection *)

Record linked l : Prop := {
  ld_forwarding : forwarding (lk_broker l);
  ld_client : exists f, bk_objs (lk_broker l) !! 0 = Some f /\ cc_done f = false;
  ld_running : bk_crashed (lk_broker l) = false /\ bk_stop (lk_broker l) = false /\
    (bk_pc (lk_broker l) = AtHead \/ bk_pc (lk_broker l) = AtSelect);
  ld_wire : Forall (fun m => exists x, m = on_wire x) (bk_taken (lk_broker l));
  ld_account : lk_dispatched l ≡ₚ delivered l ++ under_way l ++ lk_lost l;
  ld_order : delivered l ++ under_way l `sublist_of` lk_dispatched l
}.

Lemma range_one {A} k (v : A) : range (<[k := v]> (∅ : gmap string A)) = [(k, v)].
Proof.
  pose proof (range_perm (<[k := v]> (∅ : gmap string A))) as H.
  rewrite insert_empty, map_to_list_singleton in *. by apply Permutation_singleton_r in H.
Qed.
Lemma started_linked core : linked (started_link core).
Proof.
  pose proof (started_forwards node [core] (NoDup_singleton core)) as Hf.
  unfold started_link. remember (core_Start (NewFornaxCoreActor node [core])).2 as b eqn:E.
  unfold core_Start, NewFornaxCoreActor in E. cbn [InitFornaxCoreClients new_client start_client] in E.
  rewrite !sm_bind_eq in E. cbn in E. rewrite range_one in E. cbn in E. subst b.
  split; cbn [lk_broker lk_net lk_dispatched]; [exact Hf|by eexists|by repeat split; left|done..].
Qed.

Lemma turn_keeps_done {Msg} dial get (received : option Msg) f :
  cc_done (recvMessage_turn dial get received f).2 = cc_done f.
Proof.
  unfold recvMessage_turn. rewrite sm_bind_eq, sm_get_eq. destruct (cc_done f) eqn:Hd; [done|].
  rewrite sm_bind_eq. unfold sm_try. set (init := if cc_getMessageClient f then _ else _).
  assert (cc_done (init f).2 = cc_done f) as H.
  { unfold init, cc_initGetMessageClient, cc_connect. destruct (cc_getMessageClient f); [done|].
    rewrite !sm_bind_eq. sm_simpl. destruct (cc_conn f); sm_simpl; destruct dial, get; sm_simpl; by cbn. }
  destruct (init f) as [[u|e] f1]; cbn [snd] in H; [|cbn; congruence].
  destruct received as [msg|]; [|cbn; congruence].
  rewrite sm_bind_eq, sm_get_eq, sm_bind_eq. destruct (send_to_all_spec msg (range (receivers f1)) f1) as (f2 & -> & H2 & _).
  rewrite sm_bind_eq. unfold remove_receivers. rewrite sm_modify_eq, sm_ret_eq. cbn. congruence.
Qed.
(** With the network up, a client that is not stopped takes the next message. *)
Lemma turn_takes {Msg} (msg : Msg) f :
  cc_done f = false -> exists f', recvMessage_turn (Ok ()) (Ok ()) (Some msg) f = (Ok (Some msg), f').
Proof.
  intros Hd. unfold recvMessage_turn. rewrite sm_bind_eq, sm_get_eq, Hd, sm_bind_eq. unfold sm_try.
  set (init := if cc_getMessageClient f then _ else _).
  assert (exists f1, init f = (Ok (), f1)) as [f1 ->].
  { unfold init, cc_initGetMessageClient, cc_connect. destruct (cc_getMessageClient f); [by eexists|].
    rewrite !sm_bind_eq. sm_simpl. destruct (cc_conn f); sm_simpl; by eexists. }
  rewrite sm_bind_eq, sm_get_eq, sm_bind_eq. destruct (send_to_all_spec msg (range (receivers f1)) f1) as (f2 & -> & _).
  rewrite sm_bind_eq. unfold remove_receivers. rewrite sm_modify_eq, sm_ret_eq. by eexists.
Qed.
Lemma turn_takes_received {Msg} dial get (received : option Msg) f msg f' :
  recvMessage_turn dial get received f = (Ok (Some msg), f') -> received = Some msg.
Proof.
  unfold recvMessage_turn. rewrite sm_bind_eq, sm_get_eq. destruct (cc_done f); [done|].
  rewrite sm_bind_eq. unfold sm_try.
  set (init := if cc_getMessageClient f then _ else _). destruct (init f) as [[u|e] f1]; [|done].
  destruct received as [m|]; [|done]. rewrite sm_bind_eq, sm_get_eq, sm_bind_eq.
  destruct (send_to_all_spec m (range (receivers f1)) f1) as (f2 & -> & _). rewrite sm_bind_eq. unfold remove_receivers.
  rewrite sm_modify_eq, sm_ret_eq. congruence.
Qed.

(** What a turn of the client changes *)
Lemma client_turn_spec dial get received b f :
  forwarding b -> bk_objs b !! 0 = Some f -> cc_done f = false ->
  let b' := client_turn 0 dial get received b in
  exists ms, (ms = [] \/ exists msg, received = Some msg /\ ms = [msg]) /\
    (forall msg, dial = Ok () -> get = Ok () -> received = Some msg -> ms = [msg]) /\
    forwarding b' /\ (exists f', bk_objs b' !! 0 = Some f' /\ cc_done f' = false) /\
    bk_taken b' = bk_taken b ++ ms /\ ch_messages (bk_chan b') = ch_messages (bk_chan b) ++ ms /\
    bk_crashed b' = bk_crashed b /\ bk_stop b' = bk_stop b /\ bk_pc b' = bk_pc b /\ bk_node b' = bk_node b.
Proof.
  intros [Hreg Hloops Ho Ht Hn] Hf Hd.
  assert (exists ms, (ms = [] \/ exists msg, received = Some msg /\ ms = [msg]) /\
    (forall msg, dial = Ok () -> get = Ok () -> received = Some msg -> ms = [msg]) /\
    bk_taken (client_turn 0 dial get received b) = bk_taken b ++ ms /\
    exists f', bk_objs (client_turn 0 dial get received b) !! 0 = Some f' /\ cc_done f' = false)
    as (ms & Hms & Hup & Htk & Hobj).
  { unfold client_turn, on_client. rewrite Hf. cbn zeta. set (lent := mkCoreClient _ _ _ _ _).
    pose proof (turn_keeps_done dial get received lent) as Hk. change (cc_done lent) with (cc_done f) in Hk.
    assert (forall f', cc_done f' = cc_done f -> exists f2, <[0 := f']> (bk_objs b) !! 0 = Some f2 /\ cc_done f2 = false) as Hobj.
    { intros f' E. exists f'. split; [|congruence]. apply list_lookup_insert_eq. by eapply lookup_lt_Some. }
    assert (forall msg, dial = Ok () -> get = Ok () -> received = Some msg ->
      exists f1, recvMessage_turn dial get received lent = (Ok (Some msg), f1)) as Htake.
    { intros msg -> -> ->. by apply turn_takes. }
    destruct (recvMessage_turn dial get received lent) as [[[m|]|e] f'] eqn:E; cbn [snd] in Hk.
    - apply turn_takes_received in E as ->. exists [m]. split_and!; [eauto|naive_solver|done|by apply Hobj].
    - exists []. split_and!; [by left| |by rewrite app_nil_r|by apply Hobj].
      intros msg H1 H2 H3. by destruct (Htake msg H1 H2 H3).
    - exists []. split_and!; [by left| |by rewrite app_nil_r|by apply Hobj].
      intros msg H1 H2 H3. by destruct (Htake msg H1 H2 H3). }
  destruct (bk_chan b) as [cl base] eqn:Hch. cbn in Ho, Ht. subst cl.
  destruct (turn_registered 0 dial get received b f base Hf) as (f' & taken & Hr & E); [by eapply Forall_lookup_1|done|].
  cbv zeta. rewrite E in *. cbn in Htk. apply app_inv_head in Htk as ->. exists ms.
  split_and!; try done. split; cbn; [by apply Forall_insert|by rewrite length_insert|done|by rewrite Ht, app_assoc|done].
Qed.

Lemma wire_no_configuration (taken : list core_in) :
  Forall (fun m => exists x, m = on_wire x) taken -> Forall (fun m => configures m = false) taken.
Proof. intros H. eapply Forall_impl; [exact H|]. by intros m [x ->]. Qed.

Lemma select_spec l msg rest : linked l -> ch_messages (bk_chan (lk_broker l)) = msg :: rest ->
  let b := lk_broker l in
  loop_select b = set_record (bk_taken b) (bk_handled b ++ [msg]) (bk_node b ++ [msg])
    (set_chan (mkChannel (ch_closed (bk_chan b)) rest) (set_loop AtHead (bk_stop b) b)).
Proof.
  intros [Hf _ _ Hw _ _] Hm. cbv zeta. unfold loop_select. rewrite Hm.
  rewrite (fw_taken _ Hf), Hm in Hw. apply Forall_app in Hw as [_ [[x ->] _]%Forall_cons]. done.
Qed.

Lemma newly_sent_spec net :
  match net !! node with
  | Some c => exists c', GetMessage_send node net !! node = Some c' /\
      map msg_Body (newly_sent net) ++ conn_queue c' = conn_queue c
  | None => GetMessage_send node net = net
  end.
Proof.
  unfold newly_sent, GetMessage_send. destruct (net !! node) as [[[|msg q] seq sent]|] eqn:Hn; [| |done].
  - rewrite Hn. eexists. split; [done|]. cbn. by rewrite drop_all.
  - rewrite lookup_insert_eq. eexists. split; [done|]. cbn. by rewrite drop_app_length.
Qed.

(** A step changes what was delivered and what is under way as the ledger says. *)
Lemma linked_ledger l l' :
  linked l -> forwarding (lk_broker l') -> (exists f, bk_objs (lk_broker l') !! 0 = Some f /\ cc_done f = false) ->
  bk_crashed (lk_broker l') = false /\ bk_stop (lk_broker l') = false /\
    (bk_pc (lk_broker l') = AtHead \/ bk_pc (lk_broker l') = AtSelect) ->
  Forall (fun m => exists x, m = on_wire x) (bk_taken (lk_broker l')) ->
  (exists new gone, lk_dispatched l' = lk_dispatched l ++ new /\ lk_lost l' = lk_lost l ++ gone /\
     (delivered l' ++ under_way l') ++ gone = (delivered l ++ under_way l) ++ new) ->
  linked l'.
Proof.
  intros [_ _ _ _ Ha Ho] Hf Hc Hr Hw (new & gone & Hd & Hl & E). split; [done..| |].
  - rewrite Hd, Hl, Ha. trans (((delivered l ++ under_way l) ++ new) ++ lk_lost l); [solve_Permutation|].
    rewrite <- E. solve_Permutation.
  - rewrite Hd. etrans; [apply sublist_inserts_r; reflexivity|]. rewrite E. by apply sublist_app.
Qed.

Lemma linked_move l l' : link_move l l' -> linked l -> linked l' /\ lk_dispatched l' = lk_dispatched l /\
  delivered l' ++ under_way l' = delivered l ++ under_way l.
Proof.
  intros Hs Hl. pose proof Hl as [Hf (f & Ho & Hd) (Hc & Hst & Hpc) Hw _ _].
  assert (lk_dispatched l' = lk_dispatched l /\ lk_lost l' = lk_lost l) as [E1 E2] by (by destruct Hs).
  assert (forwarding (lk_broker l') /\ (exists f, bk_objs (lk_broker l') !! 0 = Some f /\ cc_done f = false) /\
    (bk_crashed (lk_broker l') = false /\ bk_stop (lk_broker l') = false /\
      (bk_pc (lk_broker l') = AtHead \/ bk_pc (lk_broker l') = AtSelect)) /\
    Forall (fun m => exists x, m = on_wire x) (bk_taken (lk_broker l')) /\
    delivered l' ++ under_way l' = delivered l ++ under_way l) as (H1 & H2 & H3 & H4 & E3).
  2:{ split_and!; [|done..]. apply (linked_ledger l); [done..|]. exists [], []. rewrite !app_nil_r. by rewrite E1, E2, E3. }
  unfold delivered, under_way. destruct Hs as [|msg rest Hm Hroom|Hh|Hs]; cbn [lk_broker lk_flight lk_attached lk_net] in *.
  - split_and!; [done|by exists f|done..|]. do 2 f_equal. destruct (lk_attached l); [|by rewrite !app_nil_r].
    unfold queue_of. cbn [lk_net]. pose proof (newly_sent_spec (lk_net l)) as Hn.
    destruct (lk_net l !! node) as [c|] eqn:Hnet.
    + destruct Hn as (c' & -> & Hq). by rewrite map_app, <- app_assoc, Hq.
    + rewrite Hn, Hnet. unfold newly_sent. rewrite Hnet. by rewrite !app_nil_r.
  - destruct (client_turn_spec (Ok ()) (Ok ()) (Some (on_wire msg)) (lk_broker l) f Hf Ho Hd)
      as (ms & _ & Hms & Hf' & Hobj & Htk & Hch & Hc' & Hst' & Hpc' & Hn').
    rewrite (Hms _ eq_refl eq_refl eq_refl) in *. cbv zeta in *. rewrite Hc', Hst', Hpc', Htk, Hn', Hch, Hm.
    split_and!; [done|done|done|done|done| |].
    + apply Forall_app. split; [done|]. apply Forall_singleton. by eexists.
    + by rewrite omap_app, <- !app_assoc.
  - unfold loop_head. rewrite Hst. cbn. split_and!; [|by exists f|done|done|by right|done|done]. destruct Hf. by split.
  - destruct (ch_messages (bk_chan (lk_broker l))) as [|msg rest] eqn:Hm.
    { unfold loop_select. rewrite Hm. split_and!; [done|by exists f|done..|by rewrite Hm]. }
    pose proof (select_spec l msg rest Hl Hm) as Es. cbv zeta in Es.
    assert (forwarding (loop_select (lk_broker l))) as Hf'.
    { eapply forwarding_step; [by apply br_select|exact Hf|by rewrite Es|]. rewrite Es. by apply wire_no_configuration. }
    rewrite Es in *. cbn. split_and!; [done|by exists f|done|done|by left|done|].
    rewrite omap_app, <- !app_assoc. f_equal. cbn. by destruct (command_of msg).
Qed.

Lemma linked_step l l' : link_step l l' -> linked l -> linked l'.
Proof.
  intros Hs Hl. pose proof Hl as [Hf (f & Ho & Hd) (Hc & Hst & Hpc) Hw _ _].
  destruct Hs as [l' Hm|body net Hb E|dial get|c Hn|f' Hn Hfl Ho' Hg].
  - by eapply linked_move.
  - unfold DispatchNodeMessage in E. destruct (lk_net l !! node) as [c|] eqn:Hn; [|done]. injection E as <-.
    apply (linked_ledger l); cbn [lk_broker]; [done..|by exists f|done|done|].
    exists [body], (if lk_attached l then [] else [body]). split_and!; [done|done|].
    unfold delivered, under_way, queue_of. cbn [lk_broker lk_flight lk_attached lk_net]. rewrite lookup_insert_eq, Hn.
    destruct (lk_attached l); cbn [conn_queue]; by rewrite ?app_nil_r, <- !app_assoc.
  - destruct (client_turn_spec dial get None (lk_broker l) f Hf Ho Hd)
      as (ms & Hms & _ & Hf' & Hobj & Htk & Hch & Hc' & Hst' & Hpc' & Hn').
    assert (ms = []) as -> by (by destruct Hms as [|(? & ? & ?)]). cbv zeta in *. rewrite app_nil_r in *.
    apply (linked_ledger l); cbn [lk_broker]; [done..|by rewrite Hc', Hst', Hpc'|by rewrite Htk|].
    eexists [], _. split_and!; [by rewrite app_nil_r|done|].
    unfold delivered, under_way. cbn [lk_broker lk_flight lk_attached]. rewrite Hn', Hch. cbn.
    by rewrite !app_nil_r, <- !app_assoc.
  - apply (linked_ledger l); cbn [lk_broker]; [done..|by exists f|done|done|].
    eexists [], _. split_and!; [by rewrite app_nil_r|done|].
    unfold delivered, under_way, queue_of. cbn [lk_broker lk_flight lk_attached]. rewrite Hn.
    by rewrite !app_nil_r, <- !app_assoc.
  - apply (linked_ledger l); cbn [lk_broker]; [done..|by exists f|done|done|].
    exists [], []. rewrite !app_nil_r. split_and!; [done|done|].
    unfold delivered, under_way, queue_of. cbn [lk_broker lk_flight lk_attached lk_net]. rewrite lookup_insert_eq, Hn, Hfl. by case_match.
Qed.
Lemma linked_run l l' : rtc link_step l l' -> linked l -> linked l'.
Proof. induction 1; [done|]. intros. by eauto using linked_step. Qed.

(** ** Progress *)

Definition backlog l : nat :=
  4 * (if lk_attached l then List.length (queue_of l) else 0) + 3 * List.length (lk_flight l) +
  2 * List.length (ch_messages (bk_chan (lk_broker l))) + match bk_pc (lk_broker l) with AtHead => 1 | _ => 0 end.

Lemma backlog_shrinks l :
  linked l -> under_way l = [] \/ exists l', link_move l l' /\ backlog l' < backlog l.
Proof.
  intros Hl. pose proof Hl as [Hf (f & Ho & Hd) (Hc & Hst & Hpc) Hw _ _].
  destruct (ch_messages (bk_chan (lk_broker l))) as [|msg rest] eqn:Hm.
  - destruct (lk_flight l) as [|msg rest] eqn:Hfl.
    + destruct (lk_attached l) eqn:Hat; [|left; unfold under_way; by rewrite Hm, Hfl, Hat].
      destruct (queue_of l) as [|body q] eqn:Hq; [left; unfold under_way; by rewrite Hm, Hfl, Hat, Hq|].
      right. eexists. split; [apply ln_send|]. unfold backlog. cbn [lk_net lk_broker lk_attached lk_flight].
      unfold queue_of in *. cbn [lk_net]. rewrite Hat, Hfl, Hq. destruct (lk_net l !! node) as [c|] eqn:Hn; [|done].
      pose proof (newly_sent_spec (lk_net l)) as Hs. unfold newly_sent, GetMessage_send in *. rewrite Hn in *.
      destruct c as [q' seq sent]. cbn in Hq. subst q'. rewrite lookup_insert_eq. cbn.
      rewrite drop_app_length. cbn. lia.
    + right. eexists. split; [apply (ln_receive l msg rest Hfl); rewrite Hm; unfold fornaxChannel_capacity; cbn; lia|].
      destruct (client_turn_spec (Ok ()) (Ok ()) (Some (on_wire msg)) (lk_broker l) f Hf Ho Hd)
        as (ms & _ & Hms & _ & _ & _ & Hch & _ & _ & Hpc' & _).
      rewrite (Hms _ eq_refl eq_refl eq_refl) in Hch. cbv zeta in *. unfold backlog, queue_of.
      cbn [lk_net lk_broker lk_attached lk_flight]. rewrite Hch, Hpc', Hm, Hfl. cbn. destruct (lk_attached l); lia.
  - right. destruct Hpc as [Hpc|Hpc]; eexists.
    + split; [by apply ln_head|]. unfold backlog, loop_head, queue_of. cbn [lk_net lk_broker lk_attached lk_flight]. rewrite Hst, Hpc. cbn. lia.
    + split; [by apply ln_select|]. unfold backlog, queue_of. cbn [lk_net lk_broker lk_attached lk_flight].
      pose proof (select_spec l msg rest Hl Hm) as E. cbv zeta in E. rewrite E, Hm, Hpc. cbn. destruct (lk_attached l); lia.
Qed.

Lemma sublist_whole {A} (l1 l2 : list A) : l1 `sublist_of` l2 -> List.length l2 = List.length l1 -> l1 = l2.
Proof.
  induction 1 as [|x l1 l2 H IH|x l1 l2 H IH]; cbn; [done| |]; intros E; [f_equal; apply IH; lia|].
  apply sublist_length in H. lia.
Qed.

(** C18: commands reach the node actor in order and at most once, and are lost only with a stream.  Whatever
    is dispatched, however often dialing fails and streams break and are opened again, and however the server,
    the client and the agent's goroutine interleave: the commands handed to the node actor, followed by those
    still on their way to it, are a subsequence of those dispatched; the missing ones are exactly those that
    were on a stream or in the queue behind it when the client or the server gave it up, or that were accepted
    for a call that no longer fed the client.  So while no stream breaks none is missing; and from every state
    the steps of the two programs alone hand over everything that is on its way. *)
Theorem dispatched_commands_arrive core l :
  rtc link_step (started_link core) l ->
  delivered l ++ under_way l `sublist_of` lk_dispatched l /\
  lk_dispatched l ≡ₚ delivered l ++ under_way l ++ lk_lost l /\
  (lk_lost l = [] -> delivered l ++ under_way l = lk_dispatched l) /\
  exists l', rtc link_move l l' /\ lk_dispatched l' = lk_dispatched l /\ delivered l' = delivered l ++ under_way l.
Proof.
  intros Hrun. pose proof (linked_run _ _ Hrun (started_linked core)) as Hl. clear Hrun.
  split; [apply Hl|]. split; [apply Hl|]. split.
  { intros Hn. pose proof (ld_account l Hl) as Ha. rewrite Hn, app_nil_r in Ha.
    apply sublist_whole; [apply Hl|]. by apply Permutation_length. }
  remember (backlog l) as n eqn:Hn. revert l Hn Hl. induction n as [n IH] using lt_wf_ind. intros l -> Hl.
  destruct (backlog_shrinks l Hl) as [Hdone|(l1 & Hs & Hlt)]; [exists l; by rewrite Hdone, app_nil_r|].
  destruct (linked_move l l1 Hs Hl) as (Hl1 & Hd & E).
  destruct (IH _ Hlt l1 eq_refl Hl1) as (l' & Hrun & Hd' & Hall).
  exists l'. split; [by eapply rtc_l|]. split; congruence.
Qed.
End Link.

(** ** A concrete run *)

Inductive link_act := ASend | AReceive | AHead | ASelect | ADispatch (body : MessageBody) | ANoMessage | ADelist | AAccept.
Definition link_play (node : string) (a : link_act) (l : link) : option link :=
  let b := lk_broker l in
  match a with
  | ASend => Some (mkLink _ (GetMessage_send node (lk_net l)) b
      (lk_flight l ++ if lk_attached l then newly_sent node (lk_net l) else []) (lk_attached l) (lk_dispatched l) (lk_lost l))
  | AReceive =>
    match lk_flight l with
    | msg :: rest =>
      if (List.length (ch_messages (bk_chan b)) <? fornaxChannel_capacity)
      then Some (mkLink _ (lk_net l) (client_turn 0 (Ok ()) (Ok ()) (Some (on_wire msg)) b) rest (lk_attached l)
                   (lk_dispatched l) (lk_lost l))
      else None
    | [] => None
    end
  | AHead =>
    match bk_pc b with
    | AtHead => Some (mkLink _ (lk_net l) (loop_head b) (lk_flight l) (lk_attached l) (lk_dispatched l) (lk_lost l))
    | _ => None
    end
  | ASelect =>
    match bk_pc b with
    | AtSelect => Some (mkLink _ (lk_net l) (loop_select b) (lk_flight l) (lk_attached l) (lk_dispatched l) (lk_lost l))
    | _ => None
    end
  | ADispatch body =>
    match DispatchNodeMessage node body (lk_net l), body with
    | _, FornaxCoreConfiguration => None
    | (Ok (), net), _ => Some (mkLink _ net b (lk_flight l) (lk_attached l) (lk_dispatched l ++ [body])
                                (lk_lost l ++ if lk_attached l then [] else [body]))
    | _, _ => None
    end
  | ANoMessage => Some (mkLink _ (lk_net l) (client_turn 0 (Ok ()) (Ok ()) None b) [] false (lk_dispatched l)
      (lk_lost l ++ map msg_Body (lk_flight l) ++ if lk_attached l then queue_of node l else []))
  | ADelist =>
    match lk_net l !! node with
    | Some c => Some (mkLink _ (delete node (lk_net l)) b (lk_flight l) false (lk_dispatched l)
                        (lk_lost l ++ if lk_attached l then conn_queue c else []))
    | None => None
    end
  | AAccept =>
    match lk_net l !! node, lk_flight l, bk_objs b !! 0 with
    | None, [], Some f =>
      if cc_getMessageClient f then None
      else Some (mkLink _ (<[node := mkConnection _ [] 0 []]> (lk_net l)) b [] true (lk_dispatched l) (lk_lost l))
    | _, _, _ => None
    end
  end.
Definition link_run (node : string) (acts : list link_act) (l : link) : option link :=
  foldl (fun ol a => ol ≫= link_play node a) (Some l) acts.

Lemma link_play_step node a l l' : link_play node a l = Some l' -> link_step node l l'.
Proof.
  destruct a as [| | | |body| | |]; cbn [link_play].
  - intros [= <-]. apply ln_move, ln_send.
  - destruct (lk_flight l) as [|msg rest] eqn:Hf; [done|].
    destruct (Nat.ltb_spec (List.length (ch_messages (bk_chan (lk_broker l)))) fornaxChannel_capacity); [|done].
    intros [= <-]. by apply ln_move, ln_receive.
  - destruct (bk_pc (lk_broker l)) eqn:Hp; [done| |done|done]. intros [= <-]. by apply ln_move, ln_head.
  - destruct (bk_pc (lk_broker l)) eqn:Hp; [done|done| |done]. intros [= <-]. by apply ln_move, ln_select.
  - destruct (DispatchNodeMessage node body (lk_net l)) as [[[]|e] net] eqn:E; [|by destruct body].
    intros H. assert (body <> FornaxCoreConfiguration) as Hb by (by intros ->).
    replace l' with (mkLink _ net (lk_broker l) (lk_flight l) (lk_attached l) (lk_dispatched l ++ [body])
      (lk_lost l ++ if lk_attached l then [] else [body])) by (destruct body; by simplify_eq).
    by apply ln_dispatch.
  - intros [= <-]. apply ln_no_message.
  - destruct (lk_net l !! node) as [c|] eqn:Hn; [|done]. intros [= <-]. by apply ln_delist.
  - destruct (lk_net l !! node) eqn:Hn; [done|]. destruct (lk_flight l) eqn:Hf; [|done].
    destruct (bk_objs (lk_broker l) !! 0) as [f|] eqn:Ho; [|done]. destruct (cc_getMessageClient f) eqn:Hg; [done|].
    intros [= <-]. by eapply ln_accept.
Qed.
Lemma link_run_steps node acts l l' : link_run node acts l = Some l' -> rtc (link_step node) l l'.
Proof.
  unfold link_run. revert l. induction acts as [|a acts IH]; intros l; cbn [foldl]; [by intros [= <-]|].
  cbn [mbind option_bind]. destruct (link_play node a l) as [l1|] eqn:E.
  - intros H. eapply rtc_l; [by eapply link_play_step|by apply IH].
  - intros H. assert (forall acts, foldl (fun ol a => ol ≫= link_play node a) (None : option link) acts = None) as Hn
      by (clear; by induction acts). by rewrite Hn in H.
Qed.

(** The agent connects; of two commands the first is taken by the client, the second is lost with the
    stream; the agent connects again and a third command is dispatched. *)
Definition reconnecting : list link_act :=
  [AAccept; ADispatch (PodTerminate "a"); ADispatch (PodTerminate "b"); ASend; AReceive; ANoMessage; ADelist; AAccept;
   ADispatch NodeFullSync].
Definition reconnected : link :=
  default (started_link "ns/node1" "core1") (link_run "ns/node1" reconnecting (started_link "ns/node1" "core1")).

Lemma dispatched_commands_arrive_witness :
  delivered reconnected = [] /\ lk_dispatched reconnected = [PodTerminate "a"; PodTerminate "b"; NodeFullSync] /\
  lk_lost reconnected = [PodTerminate "b"] /\
  exists l, rtc (link_move "ns/node1") reconnected l /\ delivered l = [PodTerminate "a"; NodeFullSync].
Proof.
  split; [vm_compute; reflexivity|]. split; [vm_compute; reflexivity|]. split; [vm_compute; reflexivity|].
  destruct (dispatched_commands_arrive "ns/node1" "core1" reconnected) as (_ & _ & _ & l & H1 & _ & H2).
  - apply (link_run_steps "ns/node1" reconnecting). vm_compute. reflexivity.
  - exists l. split; [exact H1|]. rewrite H2. vm_compute. reflexivity.
Defined.
