(* ===== verification/NodeReports.v ===== *)
(** * The reports of a node

    Both ends of the revision protocol together: the node actor ([NodeActor]) numbers the changes it
    reports, the control plane's node monitor ([NodeMonitor], [GrpcServer]) accepts a single change only if
    its number follows.  Once the node is ready its actor is the only one that takes revisions and sends
    reports, one message after the other, and the monitor never has to refuse one of them, as long as the
    messages arrive in the order they were sent.  Before that a second goroutine does so too, and a report
    may overtake the one of the revision before it ([AgentExamples.ready_report_overtaken]). *)

From S2P Require Import Prelude GoStrings ApiTypes Interfaces Collection PortManager NodeManager NodeMonitor GrpcServer AgentTypes ContainerActor PodActor NodeActor.
From Stdlib Require Import String.
#[local] Open Scope Z_scope.
#[local] Open Scope go_scope.

(** [json.Marshal] succeeds on sessions and [json.Unmarshal] reads what it wrote. *)
Class SessionCodecOK {SC : SessionCodec} := {
  codec_ok s : exists data s', json_Marshal s = Ok data /\ json_Unmarshal data = Ok s'
}.

Section Reported.
Context {QL : QuantityLib} {SC : SessionCodec}.

(** A full report at revision [v], and a message that announces the new revision [v]. *)
Definition full_at (v : Z) (body : MessageBody) : Prop :=
  match body with NodeRegistry _ r | NodeState _ r _ => r = v | _ => False end.
Definition announces (v : Z) (body : MessageBody) : Prop :=
  match body with
  | PodStateUpdate p => psm_NodeRevision p = v
  | SessionStateUpdate s => ss_NodeRevision s = v /\ exists session, json_Unmarshal (ss_SessionData s) = Ok session
  | NodeMonitor.NodeReady _ r _ => r = v
  | _ => False
  end.

(** A full report that was built before others were sent; the monitor takes one at revision 1 for that
    of a restarted agent, so that one is no such report. *)
Definition late_at (v : Z) (body : MessageBody) : Prop :=
  match body with NodeState _ r _ => 1 < r <= v | _ => False end.

(** [reported r outs r']: the messages take the revision from [r] to [r'] one by one. *)
Inductive reported : Z -> list core_msg -> Z -> Prop :=
  | reported_nil r : reported r [] r
  | reported_internal r outs r' : reported r outs r' -> reported r (InternalChange :: outs) r'
  | reported_full r body outs r' : full_at r body -> reported r outs r' -> reported r (ToCore body :: outs) r'
  | reported_late r body outs r' : late_at r body -> reported r outs r' -> reported r (ToCore body :: outs) r'
  | reported_next r body outs r' :
    announces (i64 (r + 1)) body -> reported (i64 (r + 1)) outs r' -> reported r (ToCore body :: outs) r'.

Lemma reported_app r1 l1 r2 l2 r3 : reported r1 l1 r2 -> reported r2 l2 r3 -> reported r1 (l1 ++ l2) r3.
Proof. induction 1; intros H2; simpl;
  [done|apply reported_internal; auto|apply reported_full; auto|apply reported_late; auto|apply reported_next; auto]. Qed.

Lemma reported_bounds r outs r' :
  reported r outs r' -> 0 <= r -> r + Z.of_nat (List.length outs) < 2 ^ 63 ->
  r <= r' <= r + Z.of_nat (List.length outs).
Proof.
  induction 1 as [r|r outs r' _ IH|r body outs r' _ _ IH|r body outs r' _ _ IH|r body outs r' _ _ IH];
    cbn [List.length]; intros Hr Hb; [lia|specialize (IH Hr); lia|specialize (IH Hr); lia|specialize (IH Hr); lia|].
  rewrite wraps_small in * by lia. specialize (IH ltac:(lia)). lia.
Qed.

End Reported.

Section NodeReports.
Context {GR : GoRange} {GS : GoSort} {CG : ClientGo} {QL : QuantityLib} {SC : SessionCodec} {W : Type}
  {AD : AgentDeps W} {ND : NodeDeps W} {NL : NetLib}.
Context (NodeIP RuntimeHandler : string).
Abbreviation node_st := (node_st W).
Implicit Types n : node_st.

(** The node is ready, only commands arrive from the control plane, and every pod has its actor. *)
Record orderly n : Prop := {
  orderly_ready : na_state n = NodeStateReady /\ na_ready n = None;
  orderly_commands body : FromCore body ∈ na_mailbox n -> is_command body;
  orderly_actors : podActors n = node_Pods n
}.
(** Nothing is reported and no pod object is lost. *)
Record still n n' : Prop := {
  still_revision : Revision n' = Revision n;
  still_sent : core_sent n' = core_sent n;
  still_objs l : is_Some (pod_objs n !! l) -> is_Some (pod_objs n' !! l);
  still_orderly : orderly n -> orderly n'
}.
Ltac still_split := split; try done; try (by intros []; split).
#[export] Instance still_preorder : PreOrder still.
Proof. split; [by intros n; split|]. intros n1 n2 n3 [] []. split; [congruence..|auto|auto]. Qed.

Record reports n n' : Prop := {
  reports_sent : exists outs, core_sent n' = core_sent n ++ outs /\ reported (Revision n) outs (Revision n');
  reports_orderly : orderly n -> orderly n'
}.
#[export] Instance reports_preorder : PreOrder reports.
Proof.
  split.
  - intros n. split; [|done]. exists []. split; [by rewrite app_nil_r|constructor].
  - intros n1 n2 n3 [(o1 & E1 & R1) C1] [(o2 & E2 & R2) C2]. split; [|auto].
    exists (o1 ++ o2). split; [by rewrite E2, E1, (assoc_L (++))|by eapply reported_app].
Qed.
Lemma still_reports n n' : still n n' -> reports n n'.
Proof.
  intros [Hr Hs _ Hc]. split; [|done]. exists []. rewrite Hr, Hs, app_nil_r. split; [done|constructor].
Qed.
Lemma within_still {A} (c : SM node_st A) : within still c -> within reports c.
Proof. intros Hc n. by apply still_reports. Qed.

Lemma still_run_pod {A} l (c : SM (pod_st W) A) : within still (run_pod l c).
Proof.
  intros n. unfold run_pod. destruct (pod_objs n !! l) as [a|] eqn:El; [|done].
  destruct (c _) as [r a']. split; try done; simpl.
  - intros k Hk. destruct (decide (k = l)) as [->|Hne]; [by rewrite lookup_insert_eq|by rewrite lookup_insert_ne].
  - intros [Hrd Hc Hk]. split; [done| |done]. intros body [Hb|Hb]%elem_of_app; [by apply Hc|].
    apply list_elem_of_fmap in Hb as ([|s] & Hb & _); done.
Qed.
Lemma still_node_dep {A} (c : SM W A) : within still (node_dep c).
Proof. intros n. unfold node_dep. destruct (c _). still_split. Qed.
Lemma still_port_manager {A} (c : SM HostPortRange A) : within still (port_manager c).
Proof. intros n. unfold port_manager. destruct (c _). still_split. Qed.
Lemma still_get : within still node_get.
Proof. by intros n. Qed.
Lemma still_node f : within still (sm_modify (fun n => set_V1Node (f n) n)).
Proof. intros n. still_split. Qed.
Lemma still_pods f :
  within still (sm_modify (fun n => set_node_pods (f (node_Pods n)) (f (podActors n)) n)).
Proof. intros n. split; try done. intros [Hrd Hc Hk]. split; [done|done|]. simpl. by rewrite Hk. Qed.
Lemma still_pods_insert id l :
  within still (sm_modify (fun n => set_node_pods (<[id := l]> (node_Pods n)) (<[id := l]> (podActors n)) n)).
Proof. apply (still_pods (fun m => <[id := l]> m)). Qed.
Lemma still_pods_delete id :
  within still (sm_modify (fun n => set_node_pods (delete id (node_Pods n)) (delete id (podActors n)) n)).
Proof. apply (still_pods (fun m => delete id m)). Qed.
Lemma reports_internal : within reports (notify_core InternalChange).
Proof.
  intros n. split; [|by intros []; split]. exists [InternalChange]. split; [done|by repeat constructor].
Qed.

Create HintDb still discriminated.
#[local] Hint Resolve within_ret within_fail within_lift within_read still_preorder reports_preorder
  still_run_pod still_node_dep still_port_manager still_get still_node still_pods_insert still_pods_delete reports_internal : still.
Ltac still_step :=
  first [ solve [eauto 2 with still nocore]
        | apply (within_bind still); [|intros ?]
        | apply within_try | apply (within_for still); intros ?
        | progress case_match ].
Ltac still_auto := repeat still_step.
Ltac reports_step :=
  first [ solve [eauto 2 with still nocore]
        | solve [apply within_still; still_auto]
        | apply (within_bind reports); [|intros ?]
        | apply within_try
        | progress case_match ].
Ltac reports_auto := repeat reports_step.

Lemma still_startPodActor fpod : within still (startPodActor fpod).
Proof.
  unfold startPodActor. apply (within_bind still); [still_auto|]. intros n0.
  apply (within_bind still); [|intros _; still_auto].
  intros n. still_split. simpl. intros l Hl.
  match goal with |- is_Some (<[?k := _]> _ !! _) => destruct (decide (l = k)) as [->|Hne] end;
    [by rewrite lookup_insert_eq|by rewrite lookup_insert_ne].
Qed.
#[local] Hint Resolve still_startPodActor : still.
Lemma still_createPodAndActor now st pod d : within still (createPodAndActor NodeIP now st pod d).
Proof. unfold createPodAndActor, buildAFornaxPod. still_auto. Qed.
Lemma still_cleanup fppod : within still (cleanupPodStoreAndActor fppod).
Proof. unfold cleanupPodStoreAndActor. still_auto. Qed.
#[local] Hint Resolve still_createPodAndActor still_cleanup : still.
Lemma still_daemons now pods : within still (initializeNodeDaemons NodeIP now pods).
Proof. unfold initializeNodeDaemons. still_auto. Qed.
#[local] Hint Resolve still_daemons : still.

Lemma reports_report_node : within reports report_node.
Proof.
  intros n. unfold report_node, node_get, notify_core. rewrite sm_bind_eq, sm_modify_eq. split; [|by intros []; split].
  eexists [_]. split; [done|]. by apply reported_full; [|constructor].
Qed.
#[local] Hint Resolve reports_report_node : still.

(** A configuration is accepted only by a node that is not ready. *)
Definition quiet n n' : Prop := Revision n' = Revision n /\ core_sent n' = core_sent n.
#[local] Instance quiet_preorder : PreOrder quiet.
Proof. split; [by split|]. intros n1 n2 n3 [] []. split; congruence. Qed.
Lemma still_quiet {A} (c : SM node_st A) : within still c -> within quiet c.
Proof. intros Hc n. by destruct (Hc n). Qed.
Lemma reports_configuration now apiNode daemonPods :
  within reports (onNodeConfigurationCommand NodeIP now apiNode daemonPods).
Proof.
  intros n. assert (within quiet (onNodeConfigurationCommand NodeIP now apiNode daemonPods)) as Hq.
  { unfold onNodeConfigurationCommand.
    repeat first [ by apply within_fail | apply still_quiet; solve [still_auto] | by intros k
                 | apply (within_bind quiet); [|intros ?] | progress case_match ]. }
  destruct (Hq n) as [Hr Hs]. split.
  - exists []. rewrite Hr, Hs, app_nil_r. split; [done|constructor].
  - intros Ho. unfold onNodeConfigurationCommand. rewrite sm_bind_eq. unfold node_get.
    rewrite bool_decide_true; [done|]. by rewrite (proj1 (orderly_ready _ Ho)).
Qed.
#[local] Hint Resolve reports_configuration : still.

Lemma reports_command now body :
  is_command body -> within reports (processFornaxCoreMessage NodeIP now body).
Proof.
  intros Hc. destruct body; try done; unfold processFornaxCoreMessage,
    onPodCreateCommand, onPodTerminateCommand, onPodHibernateCommand, onSessionOpenCommand,
    onSessionCloseCommand, get_pod; reports_auto.
Qed.

(** A new revision and the one message that announces it. *)
Lemma increment_spec n : exists n', incrementNodeRevision n = (Ok (i64 (Revision n + 1)), n') /\
  Revision n' = i64 (Revision n + 1) /\ core_sent n' = core_sent n /\ pod_objs n' = pod_objs n /\
  (orderly n -> orderly n').
Proof.
  unfold incrementNodeRevision. destruct (nd_PutNode _ _ _) as [r w].
  eexists. repeat (split; [done|]). by intros []; split.
Qed.

Lemma announce_reports n1 n2 n3 n4 body :
  Revision n2 = i64 (Revision n1 + 1) -> core_sent n2 = core_sent n1 -> (orderly n1 -> orderly n2) ->
  still n2 n3 -> announces (i64 (Revision n1 + 1)) body ->
  still (notify_core (ToCore body) n3).2 n4 -> reports n1 n4.
Proof.
  intros Hr Hs Hm [R3 S3 _ C3] Hb [R4 S4 _ C4]. split.
  - exists [ToCore body]. split; [by rewrite S4, <- Hs, <- S3|]. apply reported_next; [done|].
    rewrite R4. simpl. rewrite R3, Hr. constructor.
  - intros H1. apply C4. destruct (C3 (Hm H1)). by split.
Qed.

Lemma run_pod_total {A} l (c : SM (pod_st W) A) n :
  is_Some (pod_objs n !! l) -> (forall a, exists x, (c a).1 = Ok x) -> exists x n', run_pod l c n = (Ok x, n') /\ still n n'.
Proof.
  intros [a Ha] Hc. pose proof (still_run_pod l c n) as Hs. unfold run_pod in *. rewrite Ha in *.
  destruct (Hc (set_pa_deps (na_deps n) a)) as [x Hx]. destruct (c _) as [r a']. simpl in Hx. subst r. by do 2 eexists.
Qed.

Lemma reports_pod_changed l : within reports (on_pod_changed l).
Proof.
  intros n. unfold on_pod_changed. rewrite sm_bind_eq. unfold get_pod at 1.
  destruct (pod_objs n !! l) as [a|] eqn:Ha.
  2:{ unfold run_pod. rewrite Ha. reflexivity. }
  destruct (run_pod_total l the_pod n) as (fppod & n1 & -> & H1); [by rewrite Ha|by eexists|].
  etrans; [by apply still_reports|]. rewrite sm_bind_eq.
  match goal with |- context [(if ?b then ?x else ?y) n1] => set (c := if b then x else y) end.
  assert (within still c) as Hc by (unfold c; still_auto). specialize (Hc n1).
  destruct (c n1) as [[[]|e] n2]; [|by apply still_reports]. cbn [snd] in Hc.
  assert (is_Some (pod_objs n2 !! l)) as Hl by (apply (still_objs _ _ Hc), (still_objs _ _ H1); by rewrite Ha).
  etrans; [by apply still_reports|]. clear c Hc. rewrite sm_bind_eq.
  set (rest := fun revision => if bool_decide (FornaxPodState fppod = PodStateCleanup) then @sm_ret node_st unit ()
    else do! fppod <- get_pod l; do! _ <- sm_try (node_dep (nd_PutPod (W := W) fppod revision)); sm_ret ()).
  assert (forall r, within still (rest r)) as Hrest by (intros r; unfold rest, get_pod; still_auto).
  destruct (PodInTransitState fppod).
  - rewrite sm_ret_eq. apply still_reports, Hrest.
  - rewrite sm_bind_eq. destruct (increment_spec n2) as (n3 & -> & R3 & S3 & O3 & M3).
    rewrite sm_bind_eq. destruct (run_pod_total l (on_pod (with_resource_version (i64 (Revision n2 + 1)))) n3)
      as ([] & n4 & -> & H4); [by rewrite O3|by eexists|].
    rewrite sm_bind_eq. destruct (run_pod_total l the_pod n4) as (fppod' & n5 & E5 & H5);
      [apply (still_objs _ _ H4); by rewrite O3|by eexists|]. unfold get_pod at 1. rewrite E5, sm_bind_eq.
    destruct (notify_core (ToCore (BuildFornaxcoreGrpcPodState (i64 (Revision n2 + 1)) fppod')) n5) as [r6 n6] eqn:E6.
    assert (r6 = Ok ()) as -> by (unfold notify_core in E6; rewrite sm_modify_eq in E6; congruence).
    rewrite sm_ret_eq. eapply (announce_reports n2 n3 n5 _ (BuildFornaxcoreGrpcPodState (i64 (Revision n2 + 1)) fppod'));
      [done|done|done|by etrans|done|]. rewrite E6. apply Hrest.
Qed.

Lemma reports_session_changed {CO : SessionCodecOK} l s : within reports (on_session_changed l s).
Proof.
  intros n. unfold on_session_changed. rewrite sm_bind_eq.
  pose proof (still_run_pod l (get_session s) n) as H1.
  destruct (run_pod l (get_session s) n) as [[sess|e] n1] eqn:E1; cbn [snd] in H1; [|by apply still_reports].
  etrans; [by apply still_reports|].
  assert (exists a v, pod_objs n1 !! l = Some a /\ session_heap (pa_pod a) !! s = Some v) as (a & v & Ha & Hv).
  { unfold run_pod, get_session in E1. destruct (pod_objs n !! l) as [a|]; [|done]. simpl in E1.
    destruct (session_heap (pa_pod a) !! s) as [v|] eqn:Hv; [|done]. simplify_eq/=.
    rewrite lookup_insert_eq. by do 2 eexists. }
  rewrite sm_bind_eq. destruct (increment_spec n1) as (n2 & -> & R2 & S2 & O2 & M2).
  set (rev := i64 (Revision n1 + 1)) in *. rewrite sm_bind_eq.
  destruct (run_pod_total l (on_session s (map_om (om_set_ResourceVersion (FormatUint rev)))) n2)
    as ([] & n3 & E3 & H3); [by rewrite O2, Ha|by eexists|]. rewrite E3, sm_bind_eq.
  assert (exists a' v', pod_objs n3 !! l = Some a' /\ session_heap (pa_pod a') !! s = Some v') as (a' & v' & Ha' & Hv').
  { unfold run_pod in E3. rewrite O2, Ha in E3. simplify_eq/=. rewrite lookup_insert_eq. do 2 eexists. split; [done|].
    simpl. by rewrite lookup_alter_eq, Hv. }
  pose proof (still_run_pod l (get_session s) n3) as H4.
  destruct (run_pod l (get_session s) n3) as [r4 n4] eqn:E4. cbn [snd] in H4.
  assert (r4 = Ok v') as ->.
  { unfold run_pod, get_session in E4. rewrite Ha' in E4. simpl in E4. rewrite Hv' in E4. by simplify_eq/=. }
  unfold BuildFornaxcoreGrpcSessionState, session_state.
  destruct (codec_ok (fs_Session v')) as (data & s' & -> & Hdec). cbn [fmap option_fmap option_map].
  rewrite sm_bind_eq. set (body := SessionStateUpdate (mkSessionState rev data)).
  destruct (notify_core (ToCore body) n4) as [r5 n5] eqn:E5.
  assert (r5 = Ok ()) as -> by (unfold notify_core in E5; rewrite sm_modify_eq in E5; congruence).
  eapply (announce_reports n1 n2 n4 _ body); [done|done|done|by etrans|split; [done|by exists s']|].
  rewrite E5. assert (within still (do! fppod <- get_pod l;
    do! _ <- sm_try (node_dep (nd_PutPod (W := W) fppod rev)); sm_ret ())) as Hc by (unfold get_pod; still_auto).
  apply Hc.
Qed.

(** The goroutine that waits for the node to become ready has nothing to do any more. *)
Lemma still_ready_take n : orderly n -> still n (ready_take n).
Proof.
  intros [[Hst Hrd] _ _]. unfold ready_take, ready_revision. rewrite sm_bind_eq. unfold node_get.
  rewrite bool_decide_true by (by rewrite Hst). rewrite sm_ret_eq. split; try done. intros [? ? ?]. by split.
Qed.

Lemma node_turn_reports {CO : SessionCodecOK} now n : orderly n -> reports n (node_turn NodeIP now n).2.
Proof.
  intros Hc. unfold node_turn. destruct (na_mailbox n) as [|m rest] eqn:Hm; [done|].
  set (n1 := set_na_mailbox rest n). trans n1.
  - apply still_reports. split; try done. intros [Hrd Hcmd Ha]. split; [done| |done]. intros body Hb. apply Hcmd. rewrite Hm. by right.
  - destruct m as [body|l|l s|]; unfold nodeHandler.
    + apply reports_command, (orderly_commands _ Hc). rewrite Hm. left.
    + apply reports_pod_changed.
    + by apply reports_session_changed.
    + revert n1. intros n1.
      assert (within reports (do! n <- node_get; do! node <- node_dep (nd_SetNodeStatus (W := W) (V1Node n));
        do! _ <- sm_modify (set_V1Node node); report_node)) as Hw; [|apply Hw].
      reports_auto.
Qed.

Lemma node_step_reports {CO : SessionCodecOK} n n' :
  node_step NodeIP RuntimeHandler n n' -> orderly n -> reports n n'.
Proof.
  intros Hstep Hc. destruct Hstep.
  - apply still_reports. split; try done. intros [Hrd Hcmd Ha]. split; [done| |done]. intros b [Hb|Hb]%elem_of_app; [by apply Hcmd|].
    apply list_elem_of_singleton in Hb. by simplify_eq.
  - apply still_reports. split; try done. intros [Hrd Hcmd Ha]. split; [done| |done]. intros b [Hb|Hb]%elem_of_app; [by apply Hcmd|].
    by apply list_elem_of_singleton in Hb.
  - by apply node_turn_reports.
  - unfold register. rewrite sm_bind_eq. unfold node_get. case_bool_decide; [|done].
    split; [|by intros []; split]. eexists [_]. split; [done|]. by apply reported_full; [|constructor].
  - by apply still_reports, still_ready_take.
  - destruct (orderly_ready _ Hc). congruence.
  - apply still_reports, still_run_pod.
  - apply still_reports, still_run_pod.
  - apply still_reports, still_run_pod.
  - apply still_reports, still_run_pod.
Qed.

Lemma node_run_reports {CO : SessionCodecOK} n n' :
  rtc (node_step NodeIP RuntimeHandler) n n' -> orderly n -> reports n n'.
Proof.
  induction 1 as [n|n n1 n' Hstep _ IH]; intros Hc; [done|].
  pose proof (node_step_reports _ _ Hstep Hc) as Hr. etrans; [done|]. apply IH, Hr, Hc.
Qed.

End NodeReports.

(** ** At the control plane *)

Section Accepted.
Context {GR : GoRange} {GS : GoSort} {CG : ClientGo} {QL : QuantityLib} {SC : SessionCodec} {C : Type}
  {NC : NodeCollaborators C} {HN : HasNetwork C}.
Implicit Types mon : nodeMonitor C.

(** The node monitor handles the messages of a node one after the other and refuses none of its single
    changes. *)
Fixpoint accepted (now : Z) (node : string) (outs : list core_msg) mon : Prop :=
  match outs with
  | [] => True
  | InternalChange :: outs => accepted now node outs mon
  | ToCore body :: outs =>
    match body with
    | PodStateUpdate p => ~ out_of_order mon node (psm_NodeRevision p)
    | SessionStateUpdate s => ~ out_of_order mon node (ss_NodeRevision s)
    | _ => True
    end /\
    accepted now node outs (dispatch now (mkMessage _ "" node body) mon).2
  end.
Fixpoint monitor_after (now : Z) (node : string) (outs : list core_msg) mon : nodeMonitor C :=
  match outs with
  | [] => mon
  | InternalChange :: outs => monitor_after now node outs mon
  | ToCore body :: outs => monitor_after now node outs (dispatch now (mkMessage _ "" node body) mon).2
  end.

Lemma registry_revision now node v r mon : revision_of (OnRegistry now node v r mon).2 node = Some r.
Proof.
  unfold OnRegistry, revision_of. rewrite sm_bind_eq. unfold set_revision. rewrite sm_modify_eq.
  rewrite (sm_bind_snd _ _ mon_nodes) by done. rewrite manager_nodes. simpl. by rewrite lookup_insert_eq.
Qed.

Lemma reported_accepted now node outs : forall r r' mon,
  reported r outs r' -> 0 <= r -> r + Z.of_nat (List.length outs) < 2 ^ 63 ->
  revision_of mon node = Some r ->
  accepted now node outs mon /\ revision_of (monitor_after now node outs mon) node = Some r'.
Proof.
  induction outs as [|m outs IH]; intros r r' mon Hrep Hr Hb Hcur; [inversion Hrep; by subst|].
  cbn [List.length] in Hb.
  inversion Hrep as [|? ? ? Hrest|? body ? ? Hfull Hrest|? body ? ? Hlate Hrest|? body ? ? Hann Hrest]; subst.
  - simpl. apply (IH r); [done|done|lia|done].
  - assert (revision_of (dispatch now (mkMessage _ "" node body) mon).2 node = Some r) as Hnext.
    { destruct body; simpl in Hfull; try done; subst; unfold dispatch; simpl.
      - apply registry_revision.
      - unfold OnNodeStateUpdate, revision_of. rewrite (sm_bind_snd _ _ mon_nodes) by done.
        pose proof (full_report_revision now node node0 r podStates mon) as H. unfold revision_of in H, Hcur.
        rewrite H, Hcur. by destruct (_ && _). }
    cbn [accepted monitor_after]. destruct (IH r r' (dispatch now (mkMessage _ "" node body) mon).2) as [H1 H2];
      [done|done|lia|done|]. split; [split; [by destruct body|done]|done].
  - assert (revision_of (dispatch now (mkMessage _ "" node body) mon).2 node = Some r) as Hnext.
    { destruct body; simpl in Hlate; try done; unfold dispatch; simpl.
      unfold OnNodeStateUpdate, revision_of. rewrite (sm_bind_snd _ _ mon_nodes) by done.
      pose proof (full_report_revision now node node0 nodeRevision podStates mon) as H. unfold revision_of in H, Hcur.
      rewrite H, Hcur, (proj2 (Z.eqb_neq nodeRevision 1)) by lia.
      destruct (Z.ltb_spec nodeRevision r); simpl; f_equal; lia. }
    cbn [accepted monitor_after]. destruct (IH r r' (dispatch now (mkMessage _ "" node body) mon).2) as [H1 H2];
      [done|done|lia|done|]. split; [split; [by destruct body|done]|done].
  - rewrite wraps_small in Hann, Hrest by lia.
    assert (forall v, v = r + 1 -> ~ out_of_order mon node v) as Hin.
    { intros v -> Ho. unfold out_of_order in Ho. rewrite Hcur in Ho. rewrite wraps_small in Ho by lia. tauto. }
    assert (revision_of (dispatch now (mkMessage _ "" node body) mon).2 node = Some (r + 1)) as Hnext.
    { destruct body; simpl in Hann; try done; unfold dispatch; simpl.
      - subst. unfold OnNodeReady, revision_of. rewrite (sm_bind_snd _ _ mon_nodes) by done.
        pose proof (full_report_revision now node node0 (r + 1) podStates mon) as H. unfold revision_of in H, Hcur.
        rewrite H, Hcur, (proj2 (Z.ltb_ge _ _)) by lia. done.
      - destruct (pod_state_in_order now node podState mon) as [H _]; [by apply Hin|]. by rewrite H, Hann.
      - destruct Hann as [Hann [s Hs]].
        destruct (session_state_in_order now node sessionState s mon Hs) as [H _]; [by apply Hin|]. by rewrite H, Hann. }
    cbn [accepted monitor_after].
    destruct (IH (r + 1) r' (dispatch now (mkMessage _ "" node body) mon).2) as [H1 H2]; [done|lia|lia|done|].
    split; [split; [|done]|done]. destruct body; simpl in Hann; try done; [by apply Hin|by apply Hin, Hann].
Qed.

End Accepted.

Section EndToEnd.
Context {GR : GoRange} {GS : GoSort} {CG : ClientGo} {QL : QuantityLib} {SC : SessionCodec} {CO : SessionCodecOK}
  {W C : Type} {AD : AgentDeps W} {ND : NodeDeps W} {NL : NetLib} {NC : NodeCollaborators C} {HN : HasNetwork C}.


End EndToEnd.
