(* ===== verification/AgentExamples.v ===== *)
(** * Runs of a node agent

    Concrete runs of the node actor over the small runtime of [PodLifecycle]: the witness of
    [agent_reports_accepted] and what the models of the port manager, the pod actor and the node actor
    show together. *)

From S2P Require Import Prelude GoStrings ApiTypes Interfaces Collection PortManager NodeManager NodeMonitor GrpcServer AgentTypes ContainerActor PodActor PodLifecycle NodeActor NodeReports.
From Stdlib Require Import String.
#[local] Open Scope Z_scope.
#[local] Open Scope go_scope.

Section AgentExamples.

#[local] Instance sim_node : NodeDeps sim := {|
  nd_SetNodeStatus := fun node => sm_ret node;
  nd_PutPod := fun _ _ => sm_ret ();
  nd_DelPod := fun _ => sm_ret ();
  nd_PutNode := fun _ _ => sm_ret ()
|}.
#[local] Instance sim_net : NetLib := {| ParseCIDR := fun _ => true; node_address := "10.0.0.1" |}.
Definition agent_session : ApplicationSession :=
  mkObject (mkObjectMeta "s" "ns" "s" "1" 0 None None ∅ ∅ [])
    (mkSessionSpec "ns/app" "" false None 0) (mkSessionStatus None [] SessionStatusStarting [] None None 0).
#[local] Instance sim_codec : SessionCodec := {|
  json_Marshal := fun _ => Ok "{}"%string; json_Unmarshal := fun _ => Ok agent_session
|}.
#[local] Instance sim_codec_ok : SessionCodecOK.
Proof. split. intros s. by do 2 eexists. Defined.
#[local] Instance no_collaborators : NodeCollaborators unit := {|
  nc_FindPod := fun _ _ => None;
  nc_FailPod := fun _ w => w;
  nc_AddOrUpdatePod := fun _ _ pod => sm_ret pod;
  nc_DeletePod := fun _ _ pod => sm_ret pod;
  nc_OnSessionStatusFromNode := fun _ _ _ _ => sm_ret ()
|}.
Abbreviation agent := (node_st sim).

Inductive node_move :=
  | nm_core (body : MessageBody)
  | nm_turn
  | nm_pod (l : nat) (waits : list (list container_event))
  | nm_container (l : nat) (e : container_event).
Definition commands (mv : node_move) : Prop := match mv with nm_core body => is_command body | _ => True end.
Definition node_play (mv : node_move) (n : agent) : agent :=
  match mv with
  | nm_core body => set_na_mailbox (na_mailbox n ++ [FromCore body]) n
  | nm_turn => (node_turn "10.0.0.1" 0 n).2
  | nm_pod l waits => (run_pod l (pod_turn "runc" 0 0 waits) n).2
  | nm_container l e => (run_pod l (container_step e) n).2
  end.
Fixpoint node_play_all (l : list node_move) (n : agent) : agent :=
  match l with [] => n | mv :: l => node_play_all l (node_play mv n) end.

Lemma node_play_steps l : forall n, Forall commands l ->
  rtc (node_step "10.0.0.1" "runc") n (node_play_all l n).
Proof.
  induction l as [|mv l IH]; intros n Hl; [apply rtc_refl|]. apply Forall_cons in Hl as [Hmv Hl].
  eapply rtc_l; [|by apply IH].
  destruct mv; [by apply core_commands|apply node_turns|apply pod_moves|apply container_moves].
Qed.

Definition agent_node : Node :=
  mkObject (mkObjectMeta "node1" "" "node1" "5" 0 None None ∅ ∅ []) (mkNodeSpec "10.1.0.0/16" [])
    (mkNodeStatus _ NodeRunning [] ∅).
Definition agent_start : agent :=
  mkNodeSt NodeStateReady agent_node 5 ∅ ∅ ∅ (NewHostPortRange 4 1024) [] [] (mkSim ∅ ∅) None.
Definition agent_pod (name : string) : Pod :=
  mkObject (mkObjectMeta name "ns" name "1" 0 None None ∅ ∅ [])
    (mkPodSpec _ [mkContainer _ "c" "image" [mkContainerPort "" 0 80 "TCP" ""] [] ∅ no_hooks] [] false)
    (mkPodStatus PodPending "" None "" "").

(** Pod [a] is created and reported running. *)
Definition run_a : list node_move :=
  [nm_core (PodCreate "ns/a" (agent_pod "a")); nm_turn; nm_pod 0 []; nm_container 0 (probe_event 0 RuntimeStatusProbe true);
   nm_pod 0 []; nm_pod 0 []; nm_pod 0 []; nm_turn; nm_turn].

Definition agent_monitor : nodeMonitor unit :=
  mkMonitor {["node1"%string := mkNodeWithRevision "node1" 5]} ∅ (mkNM ∅ [] ()).


(** While the node waits to become ready, the goroutine that announces it takes revision 6; the node
    actor reports a pod at revisions 7 and 8 before the announcement leaves.  The control plane, which has
    seen revision 5, refuses these reports. *)
Definition ready_node : Node :=
  set_Status (mkNodeStatus _ NodePending [(ApiTypes.NodeReady, ConditionTrue)]
    {[ResourceCPU := 4; ResourceMemory := 8]}) agent_node.
Definition waiting_agent : agent :=
  set_na_state NodeStateRegistered (set_V1Node ready_node
    (node_play_all (take 7 run_a) agent_start)).
Definition overtaken_agent : agent :=
  let n := ready_take waiting_agent in
  let n := node_play_all [nm_turn; nm_turn] n in
  match na_ready n with Some revision => set_na_ready None (ready_report revision n).2 | None => n end.
Definition sent_revision (m : core_msg) : option (bool * Z) :=
  match m with
  | ToCore (PodStateUpdate p) => Some (false, psm_NodeRevision p)
  | ToCore (NodeMonitor.NodeReady _ r _) => Some (true, r)
  | _ => None
  end.
Example ready_report_overtaken :
  omap sent_revision (core_sent overtaken_agent) = [(false, 7); (false, 8); (true, 6)] /\
  ~ accepted 0 "node1" (core_sent overtaken_agent) agent_monitor.
Proof. split; [vm_compute; reflexivity|]. vm_compute. intros [H _]. apply H. split; discriminate. Qed.

(** Pod [a] is terminated; the request for pod [b] arrives between its two reports. *)
Definition terminate_a : list node_move :=
  [nm_core (PodTerminate "ns/a"); nm_turn; nm_pod 0 [[actor_turn 0]]; nm_core (PodCreate "ns/b" (agent_pod "b"));
   nm_pod 0 []; nm_turn; nm_turn; nm_turn; nm_core (PodCreate "ns/c" (agent_pod "c")); nm_turn].
Definition ports_of (l : nat) (n : agent) : option (list Z) :=
  (fun a => pod_ports (fp_Pod (pa_pod a))) <$> pod_objs n !! l.

(** Both reports of the terminated pod [a] carry the pointer to it, and both are handled after its
    clean-up: its ports are given back twice, the second time to the account of pod [b], which has got
    them meanwhile.  Pods [b] and [c] run with the same host port. *)
Example two_pods_share_a_host_port :
  let n := node_play_all (run_a ++ terminate_a) agent_start in
  node_Pods n = {["ns/b" := 1%nat; "ns/c" := 2%nat]}%string /\
  ports_of 1 n = Some [1024] /\ ports_of 2 n = Some [1024].
Proof. vm_compute. split_and!; reflexivity. Qed.

(** A pod that cannot be created is reported with an internal message, on which the actor of the
    control plane panics. *)
Example refused_pod_panics_agent :
  let n := node_play_all [nm_core (PodCreate "ns/a" (agent_pod "a")); nm_turn]
             (set_nodePortManager (NewHostPortRange 1 1024) agent_start) in
  core_sent n = [InternalChange] /\ node_Pods n = ∅ /\
  (actorMessageProcess InternalChange (mkCoreActor _ "node1" ["core1"%string] 0 [])).1
  = Err (OtherError "panic: interface conversion").
Proof. vm_compute. split_and!; reflexivity. Qed.

(** The address ranges of the node are replaced before they are compared, so that they never differ. *)
Lemma pod_cidr_never_changed (node apiNode : Node) :
  PodCIDR (Spec apiNode) <> ""%string -> NodeSpecPodCidrChanged (set_Spec (Spec apiNode) node) apiNode = false.
Proof.
  intros Hne. unfold NodeSpecPodCidrChanged. destruct (ValidateNodeSpec apiNode); [|done]. simpl.
  rewrite (bool_decide_false (PodCIDR (Spec apiNode) = _)) by done.
  rewrite !bool_decide_false by (by intros []). done.
Qed.

End AgentExamples.
