(* ===== verification/StatusUpdate.v ===== *)
(** * Store accessors and the optimistic update loop

    The accessors of [pkg/store/factory/factory.go] the managers use, over [MemoryStore], and the
    loop by which the session manager and the application status manager write a status: read the
    object, change the copy, write it back on condition that its version is still the stored one,
    and start again when somebody else was faster.

    The rest of the control plane keeps using the store while the loop runs: [env] gives the calls
    that other goroutines make, [env (2i)] before the read of attempt [i] and [env (2i+1)] between
    its read and its write. *)

From S2P Require Import Prelude GoStrings ApiTypes ObjectVersion ObjStoreMap MemoryStore StoreInvariant StoreRefinement.
From Stdlib Require Import String.
Import VersionedMap.
#[local] Open Scope Z_scope.
#[local] Open Scope go_scope.

Definition IsObjectNotFoundErr (err : GoError) : bool :=
  match err with KeyNotFoundError => true | _ => false end.

(** [fmt.Sprintf("%s/%s", grvKey, label)] *)
Definition store_key (grvKey label : string) : string :=
  String.append grvKey (String.append "/" label).

Definition zero_meta : ObjectMeta := mkObjectMeta "" "" "" "" 0 None None ∅ ∅ [].
Definition zero_session : ApplicationSession :=
  mkObject zero_meta (mkSessionSpec "" "" false None 0)
    (mkSessionStatus None [] SessionStatusUnspecified [] None None 0).

Section Factory.
Context {CG : ClientGo} {QL : QuantityLib}.
Abbreviation SessionStore := (MemoryStore ApplicationSessionSpec ApplicationSessionStatus).
Abbreviation ApplicationStore := (MemoryStore ApplicationSpec ApplicationStatus).

(** An error other than "not found" is dropped and the caller gets a zeroed session. *)
Definition GetApplicationSessionCache (store : SessionStore) (sessionLabel : string) :
    result (option ApplicationSession) :=
  match Get store (store_key ApplicationSessionGrvKey sessionLabel) (mkGetOptions false "") with
  | Err err => if IsObjectNotFoundErr err then Ok None else Ok (Some zero_session)
  | Ok out => Ok out
  end.

Definition GetApplicationCache (store : ApplicationStore) (applicationLabel : string) :
    result (option Application) :=
  match Get store (store_key ApplicationGrvKey applicationLabel) (mkGetOptions false "") with
  | Err err => if IsObjectNotFoundErr err then Ok None else Err err
  | Ok out => Ok out
  end.

Definition CreateApplicationSession (session : ApplicationSession) : SM SessionStore ApplicationSession :=
  Create (store_key ApplicationSessionGrvKey (Name session)) session.

Definition CreateApplication (application : Application) : SM ApplicationStore Application :=
  Create (store_key ApplicationGrvKey (Name application)) application.

(** The second result of [EnsureUpdateAndDelete] is [None] when the object is gone: [out] stays
    the zeroed session it was made as, and the callers do not look at it. *)
Definition UpdateApplicationSession (session : ApplicationSession) :
    SM SessionStore (option ApplicationSession) :=
  EnsureUpdateAndDelete (store_key ApplicationSessionGrvKey (Name session)) true None session.
End Factory.

(** ** The loop *)

Section UpdateLoop.
Context {S T : Type}.
Abbreviation Obj := (Object S T).
Abbreviation MStore := (MemoryStore S T).
Context (env : nat -> list (store_op (S := S) (T := T)))
  (get : MStore -> result (option Obj)) (change : Obj -> Obj) (put : Obj -> SM MStore (option Obj)).

(** [for i := ...; i++ { obj := get(); if obj == nil { return nil };
    updateErr = put(change(obj)); if updateErr == nil { break } }; return updateErr] *)
Fixpoint update_loop (attempts i : nat) (ms : MStore) : result unit * MStore :=
  match attempts with
  | O => (Ok (), ms)
  | Datatypes.S attempts =>
    let ms := (run_all (env (2 * i)) ms).2 in
    match get ms with
    | Err e => (Err e, ms)
    | Ok None => (Ok (), ms)
    | Ok (Some obj) =>
      let ms := (run_all (env (2 * i + 1)) ms).2 in
      match put (change obj) ms with
      | (Ok _, ms) => (Ok (), ms)
      | (Err updateErr, ms) =>
        match attempts with
        | O => (Err updateErr, ms)
        | _ => update_loop attempts (Datatypes.S i) ms
        end
      end
    end
  end.

(** The run stays inside the domain of the store: the calls of the others are proper calls, the
    revision counter has room, and the object that is read carries the name it is stored under. *)
Fixpoint loop_ok (depth : nat) (named : Obj -> Prop) (attempts i : nat) (ms : MStore) : Prop :=
  match attempts with
  | O => True
  | Datatypes.S attempts =>
    ops_ok depth (env (2 * i)) ms /\
    let ms := (run_all (env (2 * i)) ms).2 in
    match get ms with
    | Ok (Some obj) =>
      named obj /\ ops_ok depth (env (2 * i + 1)) ms /\
      let ms := (run_all (env (2 * i + 1)) ms).2 in
      MemoryRev ms + 2 <= MaxUint64 /\
      match put (change obj) ms with
      | (Ok _, _) => True
      | (Err _, ms) => loop_ok depth named attempts (Datatypes.S i) ms
      end
    | _ => True
    end
  end.
End UpdateLoop.

Lemma ShouldDelete_Set {S T} (o : Object S T) r :
  ShouldDeleteSpec (SetObjectResourceVersion o r) = ShouldDeleteSpec o.
Proof. done. Qed.

(** ** Writing back *)

Section WriteBack.
Context {S T : Type} (depth : nat) (Hdepth : depth <> 0%nat).
Abbreviation Obj := (Object S T).
Abbreviation MStore := (MemoryStore S T).

(** The map after [o] was written under [key] and, if nothing holds it any longer, deleted. *)
Definition written (key : string) (o : Obj) (a : vmap S T) : vmap S T :=
  if ShouldDeleteSpec o then mkVMap (rev a + 2) (delete key (objects a))
  else mkVMap (rev a + 1) (<[key := SetObjectResourceVersion o (rev a + 1)]> (objects a)).

Lemma spec_write_back a key cur o :
  objects a !! key = Some cur -> GetObjectResourceVersion cur = Ok (ObjectRV cur) ->
  ObjectRV o = ObjectRV cur ->
  exists r, run_spec (OpEnsureUpdateAndDelete key true None o) a = (Ok r, written key o a).
Proof.
  intros Ho Hrv Hv. cbn [run_spec]. unfold spec_update, update, written. rewrite Ho.
  cbn [check_cached check_pre bind_result]. unfold UpdateState. rewrite Hrv.
  unfold GetTryUpdateFunc. rewrite Hrv. cbn [bind_result]. rewrite Hv, Z.eqb_refl.
  cbn [bind_result]. unfold write. change (ShouldDeleteSpec (SetObjectResourceVersion _ _))
    with (ShouldDeleteSpec o).
  destruct (ShouldDeleteSpec o); [|eauto].
  unfold spec_delete, remove. cbn [check_cached objects rev]. rewrite lookup_insert_eq.
  cbn [check_pre check_val bind_result]. rewrite delete_insert_eq.
  replace (rev a + 1 + 1) with (rev a + 2) by lia. eauto.
Qed.

(** Nobody in between: the write succeeds. *)
Lemma write_back ms a key cur o :
  refines depth ms a -> MemoryRev ms + 2 <= MaxUint64 -> objects a !! key = Some cur ->
  ObjectRV o = ObjectRV cur ->
  exists r ms', EnsureUpdateAndDelete key true None o ms = (Ok r, ms') /\
    refines depth ms' (written key o a).
Proof.
  intros Hrf Hr Ho Hv.
  destruct (refines_RV depth Hdepth ms a key cur Hrf Ho) as [Hrv _].
  destruct (spec_write_back a key cur o Ho Hrv Hv) as [r Hs].
  destruct (EnsureUpdateAndDelete_agrees depth Hdepth ms a key true None o Hrf) as [H1 H2];
    [by apply (rf_dom _ _ _ Hrf); eauto|done|].
  rewrite Hs in H1, H2. destruct (EnsureUpdateAndDelete _ _ _ _ ms) as [x ms'].
  simpl in *. subst x. eauto.
Qed.

(** In any case: it fails and changes nothing, finds nothing, or replaces the version of [o]. *)
Lemma write_back_any ms a key o :
  refines depth ms a -> key_ok depth key -> MemoryRev ms + 2 <= MaxUint64 ->
  match EnsureUpdateAndDelete key true None o ms with
  | (Err _, ms') => refines depth ms' a
  | (Ok _, ms') =>
    match objects a !! key with
    | None => refines depth ms' a
    | Some cur => ObjectRV o = ObjectRV cur /\ refines depth ms' (written key o a)
    end
  end.
Proof.
  intros Hrf Hk Hr. destruct (objects a !! key) as [cur|] eqn:Ho.
  - destruct (decide (ObjectRV o = ObjectRV cur)) as [Hv|Hv].
    + by destruct (write_back ms a key cur o Hrf Hr Ho Hv) as (r & ms' & -> & Hw).
    + destruct (update_other_version depth Hdepth ms a key true cur o Hrf ltac:(lia) Ho Hv) as [e He].
      unfold EnsureUpdateAndDelete. rewrite sm_bind_eq, He. done.
  - destruct (EnsureUpdateAndDelete_agrees depth Hdepth ms a key true None o Hrf Hk Hr) as [H1 H2].
    cbn [run_spec] in H1, H2. unfold spec_update, update in H1, H2. rewrite Ho in H1, H2.
    destruct (EnsureUpdateAndDelete _ _ _ _ ms) as [x ms']. simpl in *. by subst x.
Qed.

(** ** A version identifies the object *)

(** Between [a] and [a'] revisions grew, and whatever [a'] holds with a revision [a] had already
    given out, [a] holds under the same key. *)
Definition old_kept (a a' : vmap S T) : Prop :=
  rev a <= rev a' /\
  forall k o, objects a' !! k = Some o -> ObjectRV o <= rev a -> objects a !! k = Some o.

#[local] Instance old_kept_preorder : PreOrder old_kept.
Proof.
  split; [by intros a; split; [lia|]|].
  intros a1 a2 a3 [H1 K1] [H2 K2]. split; [lia|]. intros k o Ho Hle. apply K1; [|done].
  apply K2; [done|lia].
Qed.

Lemma old_kept_write key o a :
  0 <= rev a -> rev a + 1 <= MaxUint64 -> old_kept a (write key o a).2.
Proof.
  intros Hr Hm. split; simpl; [lia|]. intros k o' Ho' Hle.
  apply lookup_insert_Some in Ho' as [[_ <-]|[_ ?]]; [|done]. rewrite ObjectRV_Set in Hle; lia.
Qed.

Lemma old_kept_delete key a n : 0 <= n -> old_kept a (mkVMap (rev a + n) (delete key (objects a))).
Proof.
  intros Hn. split; simpl; [lia|]. intros k o Ho _. by apply lookup_delete_Some in Ho as [_ ?].
Qed.

Lemma old_kept_create key o a :
  0 <= rev a -> rev a + 1 <= MaxUint64 -> old_kept a (create key o a).2.
Proof. intros. unfold create. destruct (objects a !! key); [done|]. by apply old_kept_write. Qed.

Lemma old_kept_update key ignore pre upd cached a :
  0 <= rev a -> rev a + 1 <= MaxUint64 -> old_kept a (spec_update key ignore pre upd cached a).2.
Proof.
  intros. unfold spec_update, update. destruct (objects a !! key); [|done].
  destruct (let? _ := check_cached cached in _); [|done]. by apply old_kept_write.
Qed.

Lemma old_kept_spec_delete key pre val cached a :
  old_kept a (spec_delete key pre val cached a).2.
Proof.
  unfold spec_delete, remove. destruct (check_cached cached); [|done].
  destruct (objects a !! key); [|done]. case_match; [|done]. by apply old_kept_delete.
Qed.

Lemma old_kept_run op a :
  0 <= rev a -> rev a + 2 <= MaxUint64 -> (forall n, op = OpOther n -> 0 <= n) ->
  old_kept a (run_spec op a).2.
Proof.
  intros Hr Hm Hn. destruct op; cbn [run_spec].
  - apply old_kept_create; lia.
  - apply old_kept_spec_delete.
  - apply old_kept_update; lia.
  - destruct (objects a !! key); [|apply old_kept_create; lia]. destruct merge as [m|]; [|done].
    destruct (m _ _); [|done]. apply old_kept_update; lia.
  - destruct (objects a !! key); [done|]. apply old_kept_create; lia.
  - destruct (objects a !! key); [|apply old_kept_create; lia]. apply old_kept_write; lia.
  - pose proof (old_kept_update key ignoreNotFound pre (GetTryUpdateFunc obj) None a) as H.
    destruct (spec_update _ _ _ _ _ a) as [[[o|]|e] a']; simpl in *; [|apply H; lia|apply H; lia].
    destruct (ShouldDeleteSpec o); [|apply H; lia]. etransitivity; [apply H; lia|].
    pose proof (old_kept_spec_delete key pre None None a').
    by destruct (spec_delete _ _ _ _ a') as [[] a''].
  - done.
  - done.
  - split; simpl; [specialize (Hn n eq_refl); lia|done].
Qed.

Lemma old_kept_run_all ops ms a :
  refines depth ms a -> ops_ok depth ops ms -> old_kept a (run_spec_all ops a).2.
Proof.
  revert ms a. induction ops as [|op ops IH]; intros ms a Hrf Hok; [done|].
  destruct Hok as [Hop Hok]. destruct (run_agrees depth Hdepth op ms a Hrf Hop) as [_ Hrf'].
  pose proof (si_rev depth ms (rf_inv _ _ _ Hrf)). rewrite (rf_rev _ _ _ Hrf) in *.
  assert (old_kept a (run_spec op a).2) as H1.
  { apply old_kept_run; [lia| |].
    - destruct Hop as [? _]. rewrite (rf_rev _ _ _ Hrf) in *. lia.
    - intros n ->. destruct Hop as [_ [? _]]. done. }
  specialize (IH _ _ Hrf' Hok). simpl. destruct (run_spec op a) as [r a1]. simpl in *.
  etransitivity; [apply H1|]. by destruct (run_spec_all ops a1).
Qed.

Lemma run_spec_all_app ops1 ops2 (a : vmap S T) :
  (run_spec_all (ops1 ++ ops2) a).2 = (run_spec_all ops2 (run_spec_all ops1 a).2).2.
Proof.
  revert a. induction ops1 as [|op ops1 IH]; intros a; [done|]. simpl.
  destruct (run_spec op a) as [r a1]. specialize (IH a1). simpl in *.
  destruct (run_spec_all (ops1 ++ ops2) a1), (run_spec_all ops1 a1). done.
Qed.

(** ** The loop is atomic *)

Context (key : string)
  (get : MStore -> result (option Obj)) (change : Obj -> Obj) (put : Obj -> SM MStore (option Obj))
  (named : Obj -> Prop).
Hypothesis Hkey : key_ok depth key.
Hypothesis Hget : forall ms a, refines depth ms a -> get ms = Ok (objects a !! key).
Hypothesis Hput : forall o, named o -> put (change o) = EnsureUpdateAndDelete key true None (change o).
Hypothesis Hchange : forall o, ObjectRV (change o) = ObjectRV o.

(** Read, change and write in one step. *)
Definition changed (a : vmap S T) : vmap S T :=
  match objects a !! key with Some o => written key (change o) a | None => a end.

(** Without interference the first attempt decides. *)
Lemma loop_undisturbed attempts ms a :
  refines depth ms a -> MemoryRev ms + 2 <= MaxUint64 -> (0 < attempts)%nat ->
  (forall o, objects a !! key = Some o -> named o) ->
  exists ms', update_loop (fun _ => []) get change put attempts 0 ms = (Ok (), ms') /\
    refines depth ms' (changed a).
Proof.
  unfold changed. intros Hrf Hr Hn Hnm. destruct attempts as [|n]; [lia|]. cbn [update_loop run_all snd].
  rewrite (Hget ms a Hrf). destruct (objects a !! key) as [o|] eqn:Ho; [|eauto].
  rewrite (Hput o (Hnm o eq_refl)).
  destruct (write_back ms a key o (change o) Hrf Hr Ho (Hchange o)) as (r & ms' & -> & Hrf'). eauto.
Qed.
Context (env : nat -> list (store_op (S := S) (T := T))).

(** The calls of the others, up to moment [j]. *)
Definition others (i j : nat) : list (store_op (S := S) (T := T)) := List.concat (env <$> seq i j).

Lemma others_more i j a :
  (run_spec_all (others i (Datatypes.S (Datatypes.S j))) a).2 =
  (run_spec_all (others (i + 2) j) (run_spec_all (env (i + 1)) (run_spec_all (env i) a).2).2).2.
Proof.
  unfold others. cbn [seq fmap list_fmap List.concat]. rewrite !run_spec_all_app.
  by replace (i + 2)%nat with (Datatypes.S (Datatypes.S i)) by lia; replace (i + 1)%nat with (Datatypes.S i) by lia.
Qed.

Lemma others_one i a : (run_spec_all (others i 1) a).2 = (run_spec_all (env i) a).2.
Proof. unfold others. cbn [seq fmap list_fmap List.concat]. by rewrite app_nil_r. Qed.

(** A call that succeeds has the effect of [changed] at one moment between the calls of the others,
    one that fails has none; one attempt nobody disturbs makes it succeed. *)
Definition atomic (attempts i : nat) (a : vmap S T) (r : result unit) (ms' : MStore) : Prop :=
  exists j, (j <= 2 * attempts)%nat /\
    refines depth ms' (match r with
                       | Ok _ => changed (run_spec_all (others (2 * i) j) a).2
                       | Err _ => (run_spec_all (others (2 * i) j) a).2
                       end) /\
    ((exists k, (i <= k < i + attempts)%nat /\ env (2 * k + 1) = []) -> r = Ok ()).

Lemma loop_atomic attempts i ms a :
  refines depth ms a -> loop_ok env get change put depth named attempts i ms -> attempts <> 0%nat ->
  atomic attempts i a (update_loop env get change put attempts i ms).1
    (update_loop env get change put attempts i ms).2.
Proof.
  revert i ms a. induction attempts as [|n IH]; intros i ms a Hrf Hok Hn0; [done|].
  cbn [update_loop loop_ok] in *. destruct Hok as [Hops Hok].
  destruct (run_all_agrees depth Hdepth (env (2 * i)) ms a Hrf Hops) as [_ Hrf1].
  set (ms1 := (run_all (env (2 * i)) ms).2) in *.
  rewrite (Hget ms1 _ Hrf1) in *. rewrite <- (others_one (2 * i) a) in *.
  destruct (objects _ !! key) as [o|] eqn:Ho.
  2:{ exists 1%nat. split; [lia|]. split; [|done]. unfold changed. by rewrite Ho. }
  destruct Hok as (Hn & Hops2 & Hr & Hok). rewrite (Hput o Hn) in *.
  destruct (run_all_agrees depth Hdepth (env (2 * i + 1)) ms1 _ Hrf1 Hops2) as [_ Hrf2].
  pose proof (old_kept_run_all (env (2 * i + 1)) ms1 _ Hrf1 Hops2) as [_ Hkept].
  set (ms2 := (run_all (env (2 * i + 1)) ms1).2) in *.
  assert (forall j, (run_spec_all (others (2 * i) (2 + j)) a).2 =
    (run_spec_all (others (2 * i + 2) j)
      (run_spec_all (env (2 * i + 1)) (run_spec_all (others (2 * i) 1) a).2).2).2) as Hmore
    by (intros j; rewrite others_one; apply others_more).
  destruct (refines_RV depth Hdepth ms1 _ key o Hrf1 Ho) as [_ [_ Hle]].
  set (a1 := (run_spec_all (others (2 * i) 1) a).2) in *.
  set (a2 := (run_spec_all (env (2 * i + 1)) a1).2) in *.
  assert ((run_spec_all (others (2 * i) 2) a).2 = a2) as H2 by exact (Hmore 0%nat).
  pose proof (write_back_any ms2 a2 key (change o) Hrf2 Hkey Hr) as Hw.
  destruct (EnsureUpdateAndDelete key true None (change o) ms2) as [[r|e] ms3] eqn:Eput.
  - exists 2%nat. split; [lia|]. split; [|done]. cbn [fst snd]. unfold changed. rewrite H2.
    destruct (objects a2 !! key) as [cur|] eqn:Hcur; [|done].
    destruct Hw as [Hv Hw]. rewrite Hchange in Hv.
    specialize (Hkept key cur Hcur). rewrite <- Hv in Hkept. specialize (Hkept Hle). by simplify_eq.
  - assert (env (2 * i + 1) <> []) as Hdist.
    { intros He. subst a2 ms2. rewrite He in *. cbn [run_all run_spec_all snd] in *.
      destruct (write_back ms1 a1 key o (change o) Hrf1 Hr Ho (Hchange o)) as (? & ? & ? & _).
      congruence. }
    destruct n as [|n].
    + exists 2%nat. split; [lia|]. cbn [fst snd]. rewrite H2. split; [done|].
      intros (k & Hk & He). by replace k with i in He by lia.
    + destruct (IH (Datatypes.S i) ms3 a2 Hw Hok ltac:(done)) as (j & Hj & Hrf' & Hsucc).
      exists (2 + j)%nat. rewrite Hmore. replace (2 * Datatypes.S i)%nat with (2 * i + 2)%nat in Hrf' by lia.
      split; [lia|]. split; [done|]. intros (k & Hk & He). apply Hsucc. exists k. split; [|done].
      assert (k <> i) by (intros ->; done). lia.
Qed.
End WriteBack.

(** ** The accessors on a store that represents a map *)

Section Accessors.
Context {CG : ClientGo} {QL : QuantityLib} (depth : nat) (Hdepth : depth <> 0%nat).

Lemma get_plain {S T} (ms : MemoryStore S T) a key :
  refines depth ms a -> key_ok depth key ->
  Get ms key (mkGetOptions false "") =
  match objects a !! key with Some o => Ok (Some o) | None => Err KeyNotFoundError end.
Proof.
  intros Hrf Hk. rewrite (Get_agrees depth Hdepth ms a key _ Hrf Hk). simpl.
  destruct (objects a !! key); done.
Qed.

Lemma GetApplicationSessionCache_spec ms a label :
  refines depth ms a -> key_ok depth (store_key ApplicationSessionGrvKey label) ->
  GetApplicationSessionCache ms label = Ok (objects a !! store_key ApplicationSessionGrvKey label).
Proof.
  intros Hrf Hk. unfold GetApplicationSessionCache. rewrite (get_plain ms a _ Hrf Hk).
  by destruct (objects a !! _).
Qed.

Lemma GetApplicationCache_spec ms a label :
  refines depth ms a -> key_ok depth (store_key ApplicationGrvKey label) ->
  GetApplicationCache ms label = Ok (objects a !! store_key ApplicationGrvKey label).
Proof.
  intros Hrf Hk. unfold GetApplicationCache. rewrite (get_plain ms a _ Hrf Hk).
  by destruct (objects a !! _).
Qed.
End Accessors.
