(* ===== verification/SessionManager.v ===== *)
(** * The session manager

    [pkg/fornaxcore/session/session_manager.go].  The manager keeps no state of its own: it writes
    session objects to the session store and sends open and close commands to node agents ([W]).
    [UpdateSessionStatus] runs the update loop of [StatusUpdate] with four attempts; the calls other
    goroutines make on the store during it are the argument [env]. *)

From S2P Require Import Prelude GoStrings ApiTypes Interfaces ObjectVersion ObjStoreMap MemoryStore StoreInvariant StoreRefinement StatusUpdate.
From Stdlib Require Import String.
Import VersionedMap.
#[local] Open Scope Z_scope.
#[local] Open Scope go_scope.

Abbreviation SessionStore := (MemoryStore ApplicationSessionSpec ApplicationSessionStatus).
Abbreviation session_op := (store_op (S := ApplicationSessionSpec) (T := ApplicationSessionStatus)).

Record sessionManager (W : Type) := mkSessionManager { sessionStore : SessionStore; nodeAgentClient : W }.
Arguments mkSessionManager {W}.
Arguments sessionStore {W}.
Arguments nodeAgentClient {W}.

Section SessionManager.
Context {CG : ClientGo} {QL : QuantityLib} {W : Type} {NA : NodeAgentClient W}.
Abbreviation SMgr := (sessionManager W).

Definition on_store {A} (c : SM SessionStore A) : SM SMgr A := fun sm =>
  let '(r, ms) := c (sessionStore sm) in (r, mkSessionManager ms (nodeAgentClient sm)).
Definition on_agent {A} (c : SM W A) : SM SMgr A := fun sm =>
  let '(r, w) := c (nodeAgentClient sm) in (r, mkSessionManager (sessionStore sm) w).

Definition sm_CloseSession (pod : Pod) (session : ApplicationSession) : SM SMgr unit :=
  match om_Labels (om pod) !! LabelFornaxCoreNode with
  | Some nodeName => on_agent (na_CloseSession nodeName pod session)
  | None => sm_fail (OtherError "Can not find which node this pod is on")
  end.

Definition sm_OpenSession (pod : Pod) (session : ApplicationSession) : SM SMgr unit :=
  match om_Labels (om pod) !! LabelFornaxCoreNode with
  | Some nodeName => on_agent (na_OpenSession nodeName pod session)
  | None => sm_fail (OtherError "Can not find which node session is on")
  end.

(** The copy that is written back: the new status, and the finalizer that keeps an open session. *)
Definition updated_session (newStatus : ApplicationSessionStatus) (session : ApplicationSession) :
    ApplicationSession :=
  let updatedSession := set_Status newStatus session in
  if SessionIsOpen updatedSession
  then map_om (fun m => AddFinalizer m FinalizerOpenSession) updatedSession
  else map_om (fun m => RemoveFinalizer m FinalizerOpenSession) updatedSession.

Definition _updateSessionStatus (env : nat -> list session_op) (sessionName : string)
    (newStatus : ApplicationSessionStatus) : SM SessionStore unit :=
  update_loop env (fun store => GetApplicationSessionCache store sessionName)
    (updated_session newStatus) UpdateApplicationSession 4 0.

Definition sm_UpdateSessionStatus (env : nat -> list session_op) (session : ApplicationSession)
    (newStatus : ApplicationSessionStatus) : SM SMgr unit :=
  on_store (_updateSessionStatus env (Name session) newStatus).

(** [util.NewCurrentMetaTimeNormallized] *)
Definition NewCurrentMetaTimeNormallized (now : Z) : Z := now - now mod 10 ^ 9.

(** The status of a session as the node reports it, with the times of the control plane. *)
Definition stamp_status (now : Z) (s : ApplicationSessionStatus) : ApplicationSessionStatus :=
  let s := if bool_decide (SessionStatus s = SessionStatusAvailable)
           then set_Available (Some (NewCurrentMetaTimeNormallized now)) (now / 1000) s else s in
  if bool_decide (SessionStatus s = SessionStatusClosed)
  then set_CloseTime (Some (NewCurrentMetaTimeNormallized now)) s else s.

(** The errors of [CreateApplicationSession], [CloseSession] and [UpdateSessionStatus] are dropped. *)
Definition OnSessionStatusFromNode (now : Z) (env : nat -> list session_op) (nodeId : string)
    (pod : Pod) (session : ApplicationSession) : SM SMgr unit :=
  do! sm <- sm_get ;
  do! storeCopy <- sm_lift (GetApplicationSessionCache (sessionStore sm) (Name session)) ;
  match storeCopy with
  | None =>
    if SessionIsClosed session then sm_ret ()
    else do! _ <- sm_try (on_store (CreateApplicationSession session)) ; sm_ret ()
  | Some storeCopy =>
    do! session <-
      (if SessionIsOpen session && bool_decide (DeletionTimestamp storeCopy <> None) then
         let session := map_om (om_set_DeletionTimestamp (DeletionTimestamp storeCopy)) session in
         do! _ <- sm_try (sm_CloseSession pod session) ; sm_ret session
       else sm_ret session) ;
    do! _ <- sm_try (sm_UpdateSessionStatus env storeCopy (stamp_status now (Status session))) ;
    sm_ret ()
  end.

(** ** Writing a status *)

Lemma updated_session_Status st s : Status (updated_session st s) = st.
Proof. unfold updated_session. by destruct (SessionIsOpen _). Qed.
Lemma updated_session_Spec st s : Spec (updated_session st s) = Spec s.
Proof. unfold updated_session. by destruct (SessionIsOpen _). Qed.
Lemma updated_session_Name st s : Name (updated_session st s) = Name s.
Proof. unfold updated_session. by destruct (SessionIsOpen _). Qed.
Lemma updated_session_RV st s : ObjectRV (updated_session st s) = ObjectRV s.
Proof. unfold updated_session. by destruct (SessionIsOpen _). Qed.

(** The finalizer is there exactly while the session is open. *)
Lemma updated_session_finalizer st s :
  FinalizerOpenSession ∈ om_Finalizers (om (updated_session st s)) <->
  SessionIsOpen (updated_session st s) = true.
Proof.
  unfold SessionIsOpen at 1. rewrite updated_session_Status. unfold updated_session.
  destruct (SessionIsOpen (set_Status st s)) eqn:E; unfold SessionIsOpen in E; simpl in E; rewrite E.
  - split; [done|]. intros _. apply AddFinalizer_spec. by left.
  - split; [|done]. intros H. by apply RemoveFinalizer_spec in H as [].
Qed.

(** The other finalizers stay. *)
Lemma updated_session_other_finalizers st s f :
  f <> FinalizerOpenSession ->
  f ∈ om_Finalizers (om (updated_session st s)) <-> f ∈ om_Finalizers (om s).
Proof.
  intros Hf. unfold updated_session.
  destruct (SessionIsOpen (set_Status st s)); cbn [map_om om].
  - rewrite AddFinalizer_spec. cbn. naive_solver.
  - rewrite RemoveFinalizer_spec. cbn. naive_solver.
Qed.

(** A write removes a session only if nobody asked to keep it: it is not open, its deletion was
    requested, its grace period is over, and no other finalizer is left. *)
Lemma updated_session_deleted st s :
  ShouldDeleteSpec (updated_session st s) = true ->
  SessionIsOpen (updated_session st s) = false /\ DeletionTimestamp s <> None /\
  forall f, f ∈ om_Finalizers (om s) -> f = FinalizerOpenSession.
Proof.
  intros Hd. unfold ShouldDeleteSpec in Hd.
  destruct (om_Finalizers (om (updated_session st s))) as [|f l] eqn:Hf; [|done].
  split; [|split].
  - destruct (SessionIsOpen (updated_session st s)) eqn:E; [|done].
    apply updated_session_finalizer in E. rewrite Hf in E. by apply elem_of_nil in E.
  - intros Hn. assert (DeletionTimestamp (updated_session st s) = DeletionTimestamp s) as Hds.
    { unfold updated_session. by destruct (SessionIsOpen _). }
    by rewrite Hds, Hn in Hd.
  - intros f Hfs. destruct (decide (f = FinalizerOpenSession)) as [|Hne]; [done|].
    apply (updated_session_other_finalizers st s f Hne) in Hfs. rewrite Hf in Hfs.
    by apply elem_of_nil in Hfs.
Qed.
End SessionManager.

Section SessionStoreSpec.
Context {CG : ClientGo} {QL : QuantityLib} {W : Type} {NA : NodeAgentClient W}
  (depth : nat) (Hdepth : depth <> 0%nat).
Abbreviation SMgr := (sessionManager W).
Implicit Types (ms : SessionStore) (a : vmap ApplicationSessionSpec ApplicationSessionStatus).

Abbreviation session_key := (store_key ApplicationSessionGrvKey).

Lemma UpdateApplicationSession_key name st s :
  Name s = name ->
  UpdateApplicationSession (updated_session st s) =
  EnsureUpdateAndDelete (session_key name) true None (updated_session st s).
Proof. intros <-. unfold UpdateApplicationSession. by rewrite updated_session_Name. Qed.

(** The map after a status was written. *)
Definition status_written (name : string) (st : ApplicationSessionStatus) :=
  changed (session_key name) (updated_session st).

Lemma update_status_undisturbed ms a name st :
  refines depth ms a -> MemoryRev ms + 2 <= MaxUint64 -> key_ok depth (session_key name) ->
  (forall s, objects a !! session_key name = Some s -> Name s = name) ->
  exists ms', _updateSessionStatus (fun _ => []) name st ms = (Ok (), ms') /\
    refines depth ms' (status_written name st a).
Proof.
  intros Hrf Hr Hk Hn. unfold _updateSessionStatus, status_written.
  apply (loop_undisturbed depth Hdepth (session_key name) _ (updated_session st) _
    (fun s => Name s = name)); [|by apply UpdateApplicationSession_key|apply updated_session_RV|done
    |done|lia|done].
  intros ms1 a1 Hrf1. by apply (GetApplicationSessionCache_spec depth Hdepth).
Qed.

Lemma status_written_other name st a k :
  k <> session_key name -> objects (status_written name st a) !! k = objects a !! k.
Proof.
  intros Hk. unfold status_written, changed, written. destruct (objects a !! session_key name); [|done].
  case_match; simpl; by rewrite ?lookup_delete_ne, ?lookup_insert_ne by congruence.
Qed.

(** The run of a status update stays inside the domain of the store. *)
Definition session_loop_ok (env : nat -> list session_op) (name : string)
    (st : ApplicationSessionStatus) (ms : SessionStore) : Prop :=
  loop_ok env (fun store => GetApplicationSessionCache store name) (updated_session st)
    UpdateApplicationSession depth (fun s => Name s = name) 4 0 ms.

(** C37: writing a session status is atomic.  Whatever calls other goroutines make on the store
    between the reads and the conditional writes of [_updateSessionStatus], a call that succeeds
    leaves the store as if the session had been read, changed and written in one step at some
    moment between those calls, and a call that fails leaves no trace; if one of the four attempts
    is not disturbed between its read and its write, the call succeeds. *)
Theorem session_status_update_atomic ms a env name st :
  refines depth ms a -> key_ok depth (session_key name) -> session_loop_ok env name st ms ->
  let r := (_updateSessionStatus env name st ms).1 in
  exists j, (j <= 8)%nat /\
    let a0 := (run_spec_all (others env 0 j) a).2 in
    refines depth (_updateSessionStatus env name st ms).2
      (match r with Ok _ => status_written name st a0 | Err _ => a0 end) /\
    ((exists k, (k <= 3)%nat /\ env (2 * k + 1)%nat = []) -> r = Ok ()).
Proof.
  intros Hrf Hk Hok. unfold _updateSessionStatus.
  destruct (loop_atomic depth Hdepth (session_key name)
    (fun store => GetApplicationSessionCache store name) (updated_session st)
    UpdateApplicationSession (fun s => Name s = name) Hk) with (env := env) (attempts := 4%nat)
    (i := 0%nat) (ms := ms) (a := a) as (j & Hj & Hw & Hs);
    [|by intros; apply UpdateApplicationSession_key|intros; apply updated_session_RV|done|done|done|].
  - intros ms1 a1 Hrf1. by apply (GetApplicationSessionCache_spec depth Hdepth).
  - exists j. split; [lia|]. split; [exact Hw|]. intros (k & Hk3 & He). apply Hs. exists k.
    split; [lia|done].
Qed.

(** What a status write does.  Only the session of that name changes; it keeps its
    specification, gets the status, and carries the open-session finalizer exactly if the status is
    open.  It disappears only if it is not open, its deletion was requested and no other finalizer
    is left: an open session is never removed. *)
Theorem session_status_write ms a name st s :
  refines depth ms a -> MemoryRev ms + 2 <= MaxUint64 ->
  objects a !! session_key name = Some s -> Name s = name ->
  exists ms' a', _updateSessionStatus (fun _ => []) name st ms = (Ok (), ms') /\
    refines depth ms' a' /\
    (forall k, k <> session_key name -> objects a' !! k = objects a !! k) /\
    match objects a' !! session_key name with
    | Some s' => Status s' = st /\ Spec s' = Spec s /\ Name s' = name /\
        (FinalizerOpenSession ∈ om_Finalizers (om s') <-> SessionIsOpen s' = true)
    | None => SessionIsOpen (set_Status st s) = false /\ DeletionTimestamp s <> None /\
        forall f, f ∈ om_Finalizers (om s) -> f = FinalizerOpenSession
    end.
Proof.
  intros Hrf Hr Hs Hn.
  destruct (update_status_undisturbed ms a name st Hrf Hr) as (ms' & Hu & Hrf').
  { apply (rf_dom _ _ _ Hrf). eauto. }
  { intros s' Hs'. congruence. }
  exists ms', (status_written name st a). split; [done|]. split; [done|].
  split; [by intros; apply status_written_other|].
  unfold status_written, changed, written. rewrite Hs.
  destruct (ShouldDeleteSpec (updated_session st s)) eqn:Hd; cbn [objects].
  - rewrite lookup_delete_eq. destruct (updated_session_deleted st s Hd) as (Ho & ? & ?).
    split; [|done]. unfold SessionIsOpen in *. by rewrite updated_session_Status in Ho.
  - rewrite lookup_insert_eq. split; [by apply updated_session_Status|].
    split; [by apply updated_session_Spec|]. split; [by rewrite <- Hn, <- (updated_session_Name st s)|].
    apply updated_session_finalizer.
Qed.

(** ** Reports of the nodes *)

(** The map after a report: a session the store has gets the reported status, an unknown one that
    is not closed is created. *)
Definition report_applied (now : Z) (session : ApplicationSession)
    (a : vmap ApplicationSessionSpec ApplicationSessionStatus) :=
  match objects a !! session_key (Name session) with
  | Some _ => status_written (Name session) (stamp_status now (Status session)) a
  | None => if SessionIsClosed session then a
            else (create (session_key (Name session)) session a).2
  end.

(** The node is told to close a session it still has open although its deletion was requested. *)
Definition report_answered (pod : Pod) (session : ApplicationSession)
    (a : vmap ApplicationSessionSpec ApplicationSessionStatus) (w : W) : W :=
  match objects a !! session_key (Name session), om_Labels (om pod) !! LabelFornaxCoreNode with
  | Some s, Some nodeName =>
    if SessionIsOpen session && bool_decide (DeletionTimestamp s <> None)
    then (na_CloseSession nodeName pod
            (map_om (om_set_DeletionTimestamp (DeletionTimestamp s)) session) w).2
    else w
  | _, _ => w
  end.

Lemma sm_CloseSession_eq pod session (sm : SMgr) :
  (sm_CloseSession pod session sm).2 =
  mkSessionManager (sessionStore sm)
    (match om_Labels (om pod) !! LabelFornaxCoreNode with
     | Some n => (na_CloseSession n pod session (nodeAgentClient sm)).2
     | None => nodeAgentClient sm end).
Proof.
  unfold sm_CloseSession, on_agent. destruct (om_Labels (om pod) !! _) as [n|]; [|by destruct sm].
  by destruct (na_CloseSession n pod session (nodeAgentClient sm)).
Qed.

(** The close command of a report, its error dropped. *)
Lemma report_close_eq (go : bool) pod session t (sm : SMgr) :
  exists session',
    (if go then
       let session := map_om (om_set_DeletionTimestamp t) session in
       do! _ <- sm_try (sm_CloseSession pod session) ; sm_ret session
     else sm_ret session) sm =
    (Ok session', mkSessionManager (sessionStore sm)
      (match om_Labels (om pod) !! LabelFornaxCoreNode with
       | Some n => if go then (na_CloseSession n pod (map_om (om_set_DeletionTimestamp t) session)
                     (nodeAgentClient sm)).2 else nodeAgentClient sm
       | None => nodeAgentClient sm end)) /\ Status session' = Status session.
Proof.
  destruct go.
  - cbv zeta. rewrite sm_bind_eq. unfold sm_try.
    pose proof (sm_CloseSession_eq pod (map_om (om_set_DeletionTimestamp t) session) sm) as Hc.
    destruct (sm_CloseSession _ _ sm) as [r sm']. simpl in Hc. subst sm'. by eexists.
  - exists session. split; [|done]. destruct (om_Labels (om pod) !! LabelFornaxCoreNode); by destruct sm.
Qed.

Lemma create_reported (key : string) (session : ApplicationSession) ms a :
  refines depth ms a -> MemoryRev ms < MaxUint64 -> key_ok depth key ->
  refines depth (Create key session ms).2 (create key session a).2.
Proof.
  intros Hrf Hr Hk.
  destruct (Create_agrees depth Hdepth ms a key session Hrf Hk Hr) as [_ H2].
  unfold sm_some in H2. rewrite sm_bind_eq in H2.
  destruct (Create key session ms) as [[o|e] ms']; exact H2.
Qed.

Lemma on_store_eq {A} (c : SM SessionStore A) (sm : SMgr) :
  on_store c sm = ((c (sessionStore sm)).1, mkSessionManager (c (sessionStore sm)).2 (nodeAgentClient sm)).
Proof. unfold on_store. by destruct (c (sessionStore sm)). Qed.
Lemma sm_try_eq {St A} (c : SM St A) s : sm_try c s = (Ok (c s).1, (c s).2).
Proof. unfold sm_try. by destruct (c s). Qed.

(** A session report of a node is applied.  The store takes over the reported status with the
    control plane's times (or the session itself, when the store does not know it and it is not
    closed), and exactly in the case that the session is still open on the node although its
    deletion was requested, the node is sent a close command, carrying the deletion time. *)
Lemma report_refines (now : Z) (nodeId : string) (pod : Pod) (session : ApplicationSession)
    (sm : SMgr) a :
  refines depth (sessionStore sm) a -> MemoryRev (sessionStore sm) + 2 <= MaxUint64 ->
  key_ok depth (session_key (Name session)) ->
  (forall s, objects a !! session_key (Name session) = Some s -> Name s = Name session) ->
  exists sm', OnSessionStatusFromNode now (fun _ => []) nodeId pod session sm = (Ok (), sm') /\
    refines depth (sessionStore sm') (report_applied now session a) /\
    nodeAgentClient sm' = report_answered pod session a (nodeAgentClient sm).
Proof.
  intros Hrf Hr Hk Hn. unfold OnSessionStatusFromNode. rewrite sm_bind_eq, sm_get_eq, sm_bind_eq.
  rewrite sm_lift_eq, (GetApplicationSessionCache_spec depth Hdepth _ a _ Hrf Hk).
  unfold report_applied, report_answered.
  destruct (objects a !! session_key (Name session)) as [s|] eqn:Hs.
  - pose proof (Hn s eq_refl) as Hns. rewrite sm_bind_eq.
    destruct (report_close_eq (SessionIsOpen session && bool_decide (DeletionTimestamp s <> None)) pod
      session (DeletionTimestamp s) sm) as (session' & Hgo & Hst).
    cbv zeta in Hgo |- *. rewrite Hgo, sm_bind_eq, sm_try_eq, Hst.
    unfold sm_UpdateSessionStatus. rewrite on_store_eq, Hns. cbn [sessionStore nodeAgentClient fst snd].
    destruct (update_status_undisturbed (sessionStore sm) a (Name session)
      (stamp_status now (Status session)) Hrf Hr Hk) as (ms' & Hu & Hrf'); [congruence|].
    rewrite Hu. eexists. split; [done|]. split; [done|]. cbn [nodeAgentClient].
    by destruct (om_Labels (om pod) !! LabelFornaxCoreNode).
  - destruct (SessionIsClosed session); [by exists sm|].
    rewrite sm_bind_eq, sm_try_eq. unfold CreateApplicationSession. rewrite on_store_eq.
    eexists. split; [done|]. split; [|done]. cbn [sessionStore snd].
    by apply create_reported; [|lia|].
Qed.

End SessionStoreSpec.

(** ** A concrete session *)

Definition example_status (st : SessionStatusT) : ApplicationSessionStatus :=
  mkSessionStatus (Some "ns/pod1"%string) [] st [] None None 0.
Definition example_session (rv : string) (st : SessionStatusT) : ApplicationSession :=
  mkObject (mkObjectMeta "s1" "ns" "uid" rv 0 (Some 5) None ∅ ∅ [FinalizerOpenSession])
    (mkSessionSpec "ns/app" "data" false None 10) (example_status st).

(** The session exists, its deletion was requested, and it is open. *)
Definition example_session_ops : list session_op :=
  [OpCreate (store_key ApplicationSessionGrvKey "ns/s1") (example_session "" SessionStatusAvailable)].
Definition example_session_store : SessionStore := (run_all example_session_ops (NewMemoryStore 100)).2.
Definition example_session_map := (run_spec_all example_session_ops (mkVMap 100 ∅)).2.

Lemma example_session_refines : refines 5 example_session_store example_session_map.
Proof.
  apply (run_all_agrees 5 ltac:(discriminate));
    [apply refines_new; split; vm_compute; congruence|].
  vm_compute. repeat split; discriminate.
Qed.

(** Another goroutine replaces the session between the first read and the first write. *)
Definition example_env (i : nat) : list session_op :=
  match i with
  | 1%nat => [OpUpdate (store_key ApplicationSessionGrvKey "ns/s1") false None
                (GetTryUpdateFunc (example_session "101" SessionStatusInUse)) None]
  | _ => []
  end.

Lemma session_status_update_atomic_witness :
  (_updateSessionStatus example_env "ns/s1" (example_status SessionStatusClosing)
     example_session_store).1 = Ok ().
Proof.
  destruct (session_status_update_atomic 5 ltac:(discriminate) example_session_store
    example_session_map example_env "ns/s1" (example_status SessionStatusClosing)
    example_session_refines) as (j & _ & _ & H).
  - reflexivity.
  - vm_compute. repeat split; discriminate.
  - apply H. exists 1%nat. split; [lia|reflexivity].
Defined.

Lemma session_status_write_witness :
  exists ms' a', _updateSessionStatus (fun _ => []) "ns/s1" (example_status SessionStatusClosed)
      example_session_store = (Ok (), ms') /\ refines 5 ms' a' /\
    store_lookup ms' (store_key ApplicationSessionGrvKey "ns/s1") = None.
Proof.
  destruct (session_status_write 5 ltac:(discriminate) example_session_store example_session_map
    "ns/s1" (example_status SessionStatusClosed) (example_session "101" SessionStatusAvailable)
    example_session_refines) as (ms' & a' & H1 & H2 & _);
    [vm_compute; discriminate|vm_compute; reflexivity|reflexivity|].
  exists ms', a'. split; [exact H1|]. split; [exact H2|].
  apply (f_equal snd) in H1. simpl in H1. rewrite <- H1. vm_compute. reflexivity.
Defined.

(** Node agents that remember the close commands they get. *)
#[export] Instance example_agents : NodeAgentClient (list (string * string)) := {|
  na_CreatePod := fun _ _ => sm_ret ();
  na_TerminatePod := fun _ _ => sm_ret ();
  na_HibernatePod := fun _ _ => sm_ret ();
  na_OpenSession := fun _ _ _ => sm_ret ();
  na_CloseSession := fun node _ session => sm_modify (fun w => (node, Name session) :: w)
|}.
Definition example_node_pod : Pod :=
  mkObject (mkObjectMeta "pod1" "ns" "" "" 0 None None {[LabelFornaxCoreNode := "node1"%string]} ∅ [])
    (mkPodSpec _ [] [] false) (mkPodStatus PodRunning "" None "" "").
