(* ===== verification/AppStatus.v ===== *)
(** * Writing application status

    [pkg/fornaxcore/application/application_status.go] and the change map of
    [pkg/fornaxcore/session/async_session_status_updater.go].  [_updateApplicationStatus] is the update
    loop of [StatusUpdate] with three attempts.  [AsyncUpdate] is the asynchronous updater: callers put
    the newest status of an application into a map and signal a channel, one goroutine takes the map
    over, writes, and puts back what failed.  It is a step relation over the calls on the map and the
    channel, so every interleaving of callers and updater is covered. *)

From S2P Require Import Prelude GoStrings ApiTypes ObjectVersion ObjStoreMap MemoryStore StoreInvariant StoreRefinement StatusUpdate.
From stdpp Require Import relations.
From Stdlib Require Import String.
Import VersionedMap.
#[local] Open Scope Z_scope.
#[local] Open Scope go_scope.

(** ** The synchronous write *)

Section StatusManager.
Context {CG : ClientGo} {QL : QuantityLib}.
Abbreviation ApplicationStore := (MemoryStore ApplicationSpec ApplicationStatus).
Abbreviation app_op := (store_op (S := ApplicationSpec) (T := ApplicationStatus)).
Abbreviation app_key := (store_key ApplicationGrvKey).

Definition UPDATE_RETRIES : nat := 2.

(** The copy that is written back: the new status, and the finalizer that keeps an application while
    it has pods. *)
Definition updated_application (newStatus : ApplicationStatus) (application : Application) : Application :=
  let updatedApplication := set_Status newStatus application in
  if TotalInstances newStatus =? 0
  then map_om (fun m => RemoveFinalizer m FinalizerApplicationPod) updatedApplication
  else map_om (fun m => AddFinalizer m FinalizerApplicationPod) updatedApplication.

Definition _updateApplicationStatus (env : nat -> list app_op) (applicationKey : string)
    (newStatus : ApplicationStatus) : SM ApplicationStore unit :=
  update_loop env (fun store => GetApplicationCache store applicationKey)
    (updated_application newStatus)
    (fun o => EnsureUpdateAndDelete (app_key applicationKey) true None o) (UPDATE_RETRIES + 1) 0.

Definition asm_UpdateApplicationStatus (env : nat -> list app_op) (application : Application)
    (newStatus : ApplicationStatus) : SM ApplicationStore unit :=
  _updateApplicationStatus env (Name application) newStatus.

Lemma updated_application_RV st app : ObjectRV (updated_application st app) = ObjectRV app.
Proof. unfold updated_application. by case_match. Qed.
Lemma updated_application_Status st app : Status (updated_application st app) = st.
Proof. unfold updated_application. by case_match. Qed.
Lemma updated_application_DeletionTimestamp st app :
  DeletionTimestamp (updated_application st app) = DeletionTimestamp app.
Proof. unfold updated_application. by case_match. Qed.

Lemma updated_application_finalizer st app :
  FinalizerApplicationPod ∈ om_Finalizers (om (updated_application st app)) <-> TotalInstances st <> 0.
Proof.
  unfold updated_application. destruct (Z.eqb_spec (TotalInstances st) 0) as [E|E]; cbn [map_om om].
  - rewrite RemoveFinalizer_spec. naive_solver.
  - rewrite AddFinalizer_spec. naive_solver.
Qed.

Section Spec.
Context (depth : nat) (Hdepth : depth <> 0%nat).

Definition application_loop_ok (env : nat -> list app_op) (applicationKey : string)
    (st : ApplicationStatus) (ms : ApplicationStore) : Prop :=
  loop_ok env (fun store => GetApplicationCache store applicationKey) (updated_application st)
    (fun o => EnsureUpdateAndDelete (app_key applicationKey) true None o)
    depth (fun _ => True) (UPDATE_RETRIES + 1) 0 ms.

Lemma application_update_atomic ms a env k st :
  refines depth ms a -> key_ok depth (app_key k) -> application_loop_ok env k st ms ->
  atomic depth (app_key k) (updated_application st) env 3 0 a
    (_updateApplicationStatus env k st ms).1 (_updateApplicationStatus env k st ms).2.
Proof.
  intros Hrf Hk Hok. unfold _updateApplicationStatus.
  apply (loop_atomic depth Hdepth (app_key k) (fun store => GetApplicationCache store k)
    (updated_application st) (fun o => EnsureUpdateAndDelete (app_key k) true None o) (fun _ => True) Hk)
    with (env := env) (attempts := 3%nat) (i := 0%nat); [|done|apply updated_application_RV|done|done|done].
  intros ms1 a1 Hrf1. by apply (GetApplicationCache_spec depth Hdepth).
Qed.

(** An application with pods stays.  Whatever calls other goroutines make meanwhile, a status
    update that succeeds takes effect in one step at some moment [j]: the application then stored gets
    the status and, while the status counts pods, the finalizer that keeps it; it is removed only if
    the status counts no pods and its deletion was requested.  A call that fails changes nothing, and
    no call touches another application. *)
Theorem application_status_update_safe ms a env k st :
  refines depth ms a -> key_ok depth (app_key k) -> application_loop_ok env k st ms ->
  let '(r, ms') := _updateApplicationStatus env k st ms in
  exists j a', (j <= 6)%nat /\ refines depth ms' a' /\
    let a0 := (run_spec_all (others env 0 j) a).2 in
    (forall k', k' <> app_key k -> objects a' !! k' = objects a0 !! k') /\
    match r, objects a0 !! app_key k, objects a' !! app_key k with
    | Ok _, Some app, Some app' => Status app' = st /\ Spec app' = Spec app /\
        (FinalizerApplicationPod ∈ om_Finalizers (om app') <-> TotalInstances st <> 0)
    | Ok _, Some app, None => TotalInstances st = 0 /\ DeletionTimestamp app <> None
    | _, x, y => x = y
    end.
Proof.
  intros Hrf Hk Hok. pose proof (application_update_atomic ms a env k st Hrf Hk Hok) as (j & Hj & Hw & _).
  destruct (_updateApplicationStatus env k st ms) as [r ms']. cbn [fst snd] in Hw.
  set (a0 := (run_spec_all (others env (2 * 0) j) a).2) in *.
  exists j, (match r with Ok _ => changed (app_key k) (updated_application st) a0 | Err _ => a0 end).
  split; [done|]. split; [done|].
  change (run_spec_all (others env 0 j) a).2 with a0. cbv zeta. clearbody a0.
  destruct r as [[]|e]; [|split; [done|by destruct (objects a0 !! app_key k)]].
  unfold changed, written. destruct (objects a0 !! app_key k) as [app|] eqn:Ha; [|by rewrite Ha].
  destruct (ShouldDeleteSpec (updated_application st app)) eqn:Hd; cbn [objects].
  - split; [by intros; apply lookup_delete_ne|]. rewrite lookup_delete_eq.
    unfold ShouldDeleteSpec in Hd. rewrite updated_application_DeletionTimestamp in Hd.
    destruct (om_Finalizers (om (updated_application st app))) eqn:Hf; [|done].
    split; [|by destruct (DeletionTimestamp app)].
    destruct (decide (TotalInstances st = 0)) as [|Hne]; [done|].
    apply (updated_application_finalizer st app) in Hne. rewrite Hf in Hne. by apply elem_of_nil in Hne.
  - split; [by intros; apply lookup_insert_ne|]. rewrite lookup_insert_eq.
    split; [apply updated_application_Status|].
    split; [by unfold updated_application; case_match|apply updated_application_finalizer].
Qed.
End Spec.
End StatusManager.

(** ** The asynchronous updater *)

(** [ApplicationStatusChangeMap]; the session updater has the same code over session statuses. *)
Section ChangeMap.
Context {V : Type}.
Abbreviation StatusChangeMap := (gmap string V).

Definition addStatusChange (name : string) (status : V) (replace : bool) (changes : StatusChangeMap) :
    StatusChangeMap :=
  match changes !! name with
  | Some _ => if replace then <[name := status]> changes else changes
  | None => <[name := status]> changes
  end.

(** The copy of the map, and the map without the copied names. *)
Definition getAndRemoveStatusChangeSnapshot (changes : StatusChangeMap) :
    StatusChangeMap * StatusChangeMap :=
  let updatedStatus := map_fold (fun name v m => <[name := v]> m) ∅ changes in
  (updatedStatus, map_fold (fun name _ m => delete name m) changes updatedStatus).

Lemma addStatusChange_replace name v changes :
  addStatusChange name v true changes = <[name := v]> changes.
Proof. unfold addStatusChange. by case_match. Qed.

Lemma snapshot_all changes : getAndRemoveStatusChangeSnapshot changes = (changes, ∅).
Proof.
  unfold getAndRemoveStatusChangeSnapshot.
  assert (map_fold (fun name v m => <[name := v]> m) ∅ changes = changes) as ->.
  { apply (map_fold_weak_ind (fun r m => r = m)); [done|]. by intros k v m r _ ->. }
  f_equal. apply map_empty. intros k. apply eq_None_not_Some. intros [v Hv].
  assert (forall m : StatusChangeMap, map_fold (fun name _ m => delete name m) changes m !! k = Some v ->
    m !! k = None) as Hdel.
  { intros m. apply (map_fold_weak_ind (fun r m => r !! k = Some v -> m !! k = None)).
    - intros _. apply lookup_empty.
    - intros i x m' r _ IH Hr. apply lookup_delete_Some in Hr as [Hne Hr].
      rewrite lookup_insert_ne by done. by apply IH. }
  assert (forall m : StatusChangeMap, map_fold (fun name _ m => delete name m) changes m !! k = Some v ->
    changes !! k = Some v) as Hsub.
  { intros m. apply (map_fold_weak_ind (fun r _ => r !! k = Some v -> changes !! k = Some v)); [done|].
    intros i x m' r _ IH Hr. apply lookup_delete_Some in Hr as [_ Hr]. by apply IH. }
  pose proof (Hdel _ Hv). pose proof (Hsub _ Hv). congruence.
Qed.
End ChangeMap.

(** [SessionStatusChangeMap] *)
Definition addSessionStatusChange : string -> ApplicationSessionStatus -> bool ->
    gmap string ApplicationSessionStatus -> gmap string ApplicationSessionStatus := addStatusChange.
Definition getAndRemoveSessionStatusChangeSnapshot : gmap string ApplicationSessionStatus ->
    gmap string ApplicationSessionStatus * gmap string ApplicationSessionStatus :=
  getAndRemoveStatusChangeSnapshot.

Module AsyncUpdate.
(** The name an updater puts into its own channel to try again; every updater has its own. *)
Class RetrySignal := retry_signal : string.
Section AsyncUpdate.
Context {V : Type} {RS : RetrySignal}.

(** [make(chan string, 500)] *)
Definition channel_capacity : nat := 500.

(** A caller of [AsyncUpdateApplicationStatus] that has put its status into the map: it looks whether
    the channel is empty, and if so sends. *)
Inductive caller := Checking (name : string) | Sending (name : string).

(** The updating goroutine: waiting; draining the [n] signals it saw; about to take the snapshot;
    writing the statuses of the snapshot; putting failed ones back, and signalling each. *)
Inductive updater :=
  | Waiting
  | Draining (n : nat)
  | Snapshot
  | Writing (todo : list (string * V)) (failed : gmap string V)
  | PuttingBack (failed : list (string * V))
  | BackChecking (failed : list (string * V))
  | BackSending (failed : list (string * V)).

(** The manager, the goroutines on it, and two ghost fields: the newest status handed in for each
    application, and the status last accepted by the store. *)
Record async_state := mkState {
  statusUpdateCh : list string;
  statusChanges : gmap string V;
  run : updater;
  callers : list caller;
  newest : gmap string V;
  stored : gmap string V
}.

Definition init : async_state := mkState [] ∅ Waiting [] ∅ ∅.

(** The steps a caller or a failing store decides about, and all others. *)
Inductive label := HandIn | WriteFails | Internal.

Inductive async_step : label -> async_state -> async_state -> Prop :=
  (** [asm.statusChanges.addStatusChange(name, newStatus, true)] *)
  | step_add ch m r cs nw st name v :
      async_step HandIn (mkState ch m r cs nw st)
        (mkState ch (addStatusChange name v true m) r (Checking name :: cs) (<[name := v]> nw) st)
  (** [if len(asm.statusUpdateCh) == 0] *)
  | step_signalled ch m r cs1 cs2 nw st name :
      ch <> [] ->
      async_step Internal (mkState ch m r (cs1 ++ Checking name :: cs2) nw st) (mkState ch m r (cs1 ++ cs2) nw st)
  | step_empty m r cs1 cs2 nw st name :
      async_step Internal (mkState [] m r (cs1 ++ Checking name :: cs2) nw st)
        (mkState [] m r (cs1 ++ Sending name :: cs2) nw st)
  (** [asm.statusUpdateCh <- name], which blocks on a full channel *)
  | step_send ch m r cs1 cs2 nw st name :
      (List.length ch < channel_capacity)%nat ->
      async_step Internal (mkState ch m r (cs1 ++ Sending name :: cs2) nw st)
        (mkState (ch ++ [name]) m r (cs1 ++ cs2) nw st)
  (** [case <-asm.statusUpdateCh: remainingLen := len(asm.statusUpdateCh)] *)
  | step_receive x ch m cs nw st :
      async_step Internal (mkState (x :: ch) m Waiting cs nw st) (mkState ch m (Draining (List.length ch)) cs nw st)
  | step_drain x ch m n cs nw st :
      async_step Internal (mkState (x :: ch) m (Draining (Datatypes.S n)) cs nw st) (mkState ch m (Draining n) cs nw st)
  | step_drained ch m cs nw st :
      async_step Internal (mkState ch m (Draining 0) cs nw st) (mkState ch m Snapshot cs nw st)
  (** [getAndRemoveStatusChangeSnapshot]; the order of the loop over the snapshot is free *)
  | step_snapshot ch m todo snap m' cs nw st :
      getAndRemoveStatusChangeSnapshot m = (snap, m') -> todo ≡ₚ map_to_list snap ->
      async_step Internal (mkState ch m Snapshot cs nw st) (mkState ch m' (Writing todo ∅) cs nw st)
  (** [err := asm._updateApplicationStatus(app, status)] *)
  | step_write_ok ch m name v todo failed cs nw st :
      async_step Internal (mkState ch m (Writing ((name, v) :: todo) failed) cs nw st)
        (mkState ch m (Writing todo failed) cs nw (<[name := v]> st))
  | step_write_err ch m name v todo failed cs nw st :
      async_step WriteFails (mkState ch m (Writing ((name, v) :: todo) failed) cs nw st)
        (mkState ch m (Writing todo (<[name := v]> failed)) cs nw st)
  | step_written ch m failed l cs nw st :
      l ≡ₚ map_to_list failed ->
      async_step Internal (mkState ch m (Writing [] failed) cs nw st) (mkState ch m (PuttingBack l) cs nw st)
  (** [addStatusChange(name, status, false)], then the same signal *)
  | step_put_back ch m name v l cs nw st :
      async_step Internal (mkState ch m (PuttingBack ((name, v) :: l)) cs nw st)
        (mkState ch (addStatusChange name v false m) (BackChecking l) cs nw st)
  | step_back_signalled ch m l cs nw st :
      ch <> [] ->
      async_step Internal (mkState ch m (BackChecking l) cs nw st) (mkState ch m (PuttingBack l) cs nw st)
  | step_back_empty m l cs nw st :
      async_step Internal (mkState [] m (BackChecking l) cs nw st) (mkState [] m (BackSending l) cs nw st)
  | step_back_send ch m l cs nw st :
      (List.length ch < channel_capacity)%nat ->
      async_step Internal (mkState ch m (BackSending l) cs nw st)
        (mkState (ch ++ [retry_signal]) m (PuttingBack l) cs nw st)
  | step_round_done ch m cs nw st :
      async_step Internal (mkState ch m (PuttingBack []) cs nw st) (mkState ch m Waiting cs nw st).

Definition any_step (s1 s2 : async_state) : Prop := exists l, async_step l s1 s2.
Definition reachable (s : async_state) : Prop := rtc any_step init s.

(** What the updater carries. *)
Definition in_flight (r : updater) : list (string * V) :=
  match r with
  | Writing todo failed => todo ++ map_to_list failed
  | PuttingBack l | BackChecking l | BackSending l => l
  | _ => []
  end.

(** The updater is past its snapshot and not about to signal. *)
Definition must_be_signalled (r : updater) : bool :=
  match r with Waiting | Writing _ _ | PuttingBack _ => true | _ => false end.

Record inv (s : async_state) : Prop := {
  (** a status in the map has a signal, or somebody about to signal *)
  inv_signal : must_be_signalled (run s) = true -> statusChanges s <> ∅ ->
    statusUpdateCh s <> [] \/ callers s <> [];
  inv_drain : forall n, run s = Draining n -> (n <= List.length (statusUpdateCh s))%nat;
  inv_nodup : NoDup (in_flight (run s)).*1;
  (** the map holds newest statuses *)
  inv_map : forall n v, statusChanges s !! n = Some v -> newest s !! n = Some v;
  (** a status in flight is the newest unless the map has a newer one *)
  inv_flight : forall n v, (n, v) ∈ in_flight (run s) -> statusChanges s !! n = None ->
    newest s !! n = Some v;
  (** every newest status is in the map, in flight, or stored *)
  inv_newest : forall n v, newest s !! n = Some v ->
    is_Some (statusChanges s !! n) \/ n ∈ (in_flight (run s)).*1 \/ stored s !! n = Some v
}.

Lemma inv_init : inv init.
Proof. split; simpl; [done|done|constructor|done|set_solver|done]. Qed.

(** A step of the signalling: map, newest and stored statuses stay, and so does what is in flight. *)
Lemma inv_frame s ch r cs :
  inv s -> in_flight r ≡ₚ in_flight (run s) ->
  (must_be_signalled r = true -> statusChanges s <> ∅ -> ch <> [] \/ cs <> []) ->
  (forall n, r = Draining n -> (n <= List.length ch)%nat) ->
  inv (mkState ch (statusChanges s) r cs (newest s) (stored s)).
Proof.
  intros [_ _ Hnd Hm Hf Hn] Hp Hs Hd. split; simpl; [done|done|by rewrite Hp|done| |].
  - intros n v. rewrite Hp. apply Hf.
  - intros n v. rewrite Hp. apply Hn.
Qed.

Lemma inv_add s name v :
  inv s -> inv (mkState (statusUpdateCh s) (addStatusChange name v true (statusChanges s)) (run s)
    (Checking name :: callers s) (<[name := v]> (newest s)) (stored s)).
Proof.
  intros [_ Hd Hnd Hm Hf Hn]. rewrite addStatusChange_replace.
  split; simpl; [by right|done|done| | |]; intros n w.
  - rewrite !lookup_insert. case_decide; [done|]. apply Hm.
  - intros Hin. rewrite !lookup_insert. case_decide; [done|]. by apply Hf.
  - rewrite !lookup_insert. case_decide; [by left|]. apply Hn.
Qed.

Lemma inv_snapshot ch m todo snap m' cs nw st :
  getAndRemoveStatusChangeSnapshot m = (snap, m') -> todo ≡ₚ map_to_list snap ->
  inv (mkState ch m Snapshot cs nw st) -> inv (mkState ch m' (Writing todo ∅) cs nw st).
Proof.
  rewrite snapshot_all. intros [= <- <-] Hp [_ _ _ Hm _ Hn]. simpl in *.
  split; simpl; rewrite ?map_to_list_empty, ?app_nil_r; [done|done| |done| |].
  - rewrite Hp. apply NoDup_fst_map_to_list.
  - intros n v. rewrite Hp, elem_of_map_to_list. intros ? _. by apply Hm.
  - intros n v Hv. destruct (Hn n v Hv) as [[w Hw]|[?|?]]; [|set_solver|by right; right].
    right; left. rewrite Hp. apply list_elem_of_fmap. exists (n, w).
    by rewrite elem_of_map_to_list.
Qed.

Lemma inv_write_ok ch m name v todo failed cs nw st :
  inv (mkState ch m (Writing ((name, v) :: todo) failed) cs nw st) ->
  inv (mkState ch m (Writing todo failed) cs nw (<[name := v]> st)).
Proof.
  intros [Hs _ Hnd Hm Hf Hn]. simpl in *. apply NoDup_cons in Hnd as [Hnot Hnd].
  split; simpl; [by apply Hs|done|done|done| |].
  - intros n w Hin. apply Hf. by right.
  - intros n w Hw. rewrite lookup_insert. destruct (m !! n) as [x|] eqn:Hx; [by left|]. right.
    case_decide as E.
    + subst n. right. rewrite <- Hw. apply eq_sym, Hf; [by left|done].
    + destruct (Hn n w Hw) as [[? ?]|[Hin|?]]; [congruence| |by right].
      apply elem_of_cons in Hin as [?|?]; [congruence|by left].
Qed.

Lemma inv_put_back ch m name v l cs nw st :
  inv (mkState ch m (PuttingBack ((name, v) :: l)) cs nw st) ->
  inv (mkState ch (addStatusChange name v false m) (BackChecking l) cs nw st).
Proof.
  intros [_ _ Hnd Hm Hf Hn]. simpl in *. apply NoDup_cons in Hnd as [Hnot Hnd].
  assert (forall n w, (n, w) ∈ l -> n <> name) as Hne.
  { intros n w Hin ->. apply Hnot, list_elem_of_fmap. by exists (name, w). }
  unfold addStatusChange.
  destruct (m !! name) as [x|] eqn:Hx; split; simpl; try done; intros n w.
  - intros Hin. apply Hf. by right.
  - intros Hw. destruct (Hn n w Hw) as [?|[Hin|?]]; [by left| |by right; right].
    apply elem_of_cons in Hin as [->|?]; [left; by rewrite Hx|by right; left].
  - rewrite lookup_insert. case_decide as E; [|apply Hm]. intros [= <-]. subst n.
    apply Hf; [by left|done].
  - intros Hin. rewrite lookup_insert_ne by (apply not_eq_sym; eauto). apply Hf. by right.
  - intros Hw. rewrite lookup_insert. case_decide as E; [by left|].
    destruct (Hn n w Hw) as [?|[Hin|?]]; [by left| |by right; right].
    apply elem_of_cons in Hin as [->|?]; [done|by right; left].
Qed.

Lemma inv_step l s1 s2 : async_step l s1 s2 -> inv s1 -> inv s2.
Proof.
  intros Hstep Hinv.
  assert (forall ch r cs, s2 = mkState ch (statusChanges s1) r cs (newest s1) (stored s1) ->
    in_flight r ≡ₚ in_flight (run s1) ->
    (must_be_signalled r = true -> statusChanges s1 <> ∅ -> ch <> [] \/ cs <> []) ->
    (forall n, r = Draining n -> (n <= List.length ch)%nat) -> inv s2) as Hframe.
  { intros ch r cs ->. by apply inv_frame. }
  pose proof (inv_signal _ Hinv) as Hsig. pose proof (inv_drain _ Hinv) as Hdr.
  pose proof (inv_nodup _ Hinv) as Hnd.
  destruct Hstep; simpl in *.
  1: by apply (inv_add (mkState ch m r cs nw st)).
  1: eapply Hframe; [done|done|by left|done].
  1: eapply Hframe; [done|done|intros _ _; right; by destruct cs1|done].
  1: eapply Hframe; [done|done|intros _ _; left; by destruct ch|].
  1: intros n Hr; specialize (Hdr n Hr); rewrite length_app; simpl in *; lia.
  1: eapply Hframe; [done|done|done|by intros n [= <-]].
  1: eapply Hframe; [done|done|done|intros n' [= <-]; specialize (Hdr _ eq_refl); simpl in Hdr; lia].
  1: by eapply Hframe.
  1: by eapply inv_snapshot.
  1: by eapply inv_write_ok.
  1: eapply Hframe; [done| |by apply Hsig|done].
  1: { apply NoDup_cons in Hnd as [Hnot _]. simpl. rewrite map_to_list_insert;
       [by rewrite <- Permutation_middle|].
       apply eq_None_not_Some. intros [w Hw]. apply Hnot. rewrite fmap_app. apply elem_of_app. right.
       apply list_elem_of_fmap. exists (name, w). by rewrite elem_of_map_to_list. }
  1: eapply Hframe; [done|done|by apply Hsig|done].
  1: by eapply inv_put_back.
  1: eapply Hframe; [done|done|by left|done].
  1: by eapply Hframe.
  1: eapply Hframe; [done|done|intros _ _; left; by destruct ch|done].
  1: eapply Hframe; [done|done|by apply Hsig|done].
Qed.

Lemma reachable_inv s : reachable s -> inv s.
Proof.
  unfold reachable. intros Hr. assert (inv init) as Hi by apply inv_init.
  revert Hi. induction Hr as [|s1 s2 s3 [l Hs] _ IH]; [done|]. intros Hi. apply IH. by eapply inv_step.
Qed.

(** Nothing is going on: the updater waits, no caller is underway and no signal is pending. *)
Definition quiet (s : async_state) : Prop :=
  run s = Waiting /\ callers s = [] /\ statusUpdateCh s = [].

Lemma quiet_settled s :
  inv s -> quiet s ->
  statusChanges s = ∅ /\ forall n v, newest s !! n = Some v -> stored s !! n = Some v.
Proof.
  intros [Hs _ _ _ _ Hn] (Hw & Hc & Hch). rewrite Hw, Hc, Hch in *. simpl in *.
  assert (statusChanges s = ∅) as He.
  { destruct (decide (statusChanges s = ∅)) as [|Hne]; [done|]. by destruct (Hs eq_refl Hne) as []. }
  split; [done|]. intros n v Hv. destruct (Hn n v Hv) as [[w Hx]|[?|?]]; [|set_solver|done].
  by rewrite He, lookup_empty in Hx.
Qed.

(** No status update is forgotten.  In whatever order callers, signals, failing writes and
    retries interleave, when the updater has come to rest no status is left in the change map, and
    for every application the status the store accepted last is the newest one handed in. *)
Theorem async_updates_settle (s : async_state) :
  reachable s -> quiet s ->
  statusChanges s = ∅ /\ forall n v, newest s !! n = Some v -> stored s !! n = Some v.
Proof. intros Hr. apply quiet_settled. by apply reachable_inv. Qed.

(** *** Coming to rest *)

Definition caller_weight (c : caller) : nat := match c with Checking _ => 13 | Sending _ => 12 end.
Definition updater_weight (r : updater) : nat :=
  match r with
  | Waiting => 0
  | Draining _ => 8
  | Snapshot => 7
  | Writing todo failed => 6 + List.length todo + 20 * size failed
  | PuttingBack l => 5 + 20 * List.length l
  | BackChecking l => 22 + 20 * List.length l
  | BackSending l => 21 + 20 * List.length l
  end.

(** What is left to do: a signal is worth a round, a status in the map a write, a failed status a
    signal and a write. *)
Definition weight (s : async_state) : nat :=
  10 * List.length (statusUpdateCh s) + 2 * size (statusChanges s) + updater_weight (run s) +
  sum_list_with caller_weight (callers s).

Lemma size_addStatusChange name v b (m : gmap string V) :
  (size (addStatusChange name v b m) <= size m + 1)%nat.
Proof.
  unfold addStatusChange. destruct (m !! name) as [x|] eqn:Hx.
  - destruct b; [|lia]. rewrite map_size_insert_Some by eauto. lia.
  - rewrite map_size_insert_None by done. lia.
Qed.

Lemma weight_step s1 s2 : async_step Internal s1 s2 -> (weight s2 < weight s1)%nat.
Proof.
  unfold weight. intros Hstep. remember Internal as l eqn:Hl.
  destruct Hstep; try discriminate Hl; simpl;
    rewrite ?sum_list_with_app, ?length_app; simpl; try lia.
  - rewrite snapshot_all in H. injection H as <- <-. rewrite H0, length_map_to_list, !map_size_empty. lia.
  - rewrite H, length_map_to_list. lia.
  - pose proof (size_addStatusChange name v false m). lia.
Qed.

(** The updater never blocks on its own retry signal while fewer callers than the channel has slots
    are underway. *)
Definition room (s : async_state) : Prop :=
  (List.length (callers s) < channel_capacity)%nat /\
  forall l, run s = BackSending l ->
    (List.length (statusUpdateCh s) + List.length (callers s) < channel_capacity)%nat.

Lemma room_step s1 s2 : async_step Internal s1 s2 -> room s1 -> room s2.
Proof.
  unfold room. intros Hstep. remember Internal as lb eqn:Hl.
  destruct Hstep; try discriminate Hl; simpl; rewrite ?length_app; simpl; intros [H1 H2];
    (split; [lia|intros l' Hl']); try discriminate Hl'; try (specialize (H2 _ Hl')); lia.
Qed.

Lemma stuck_quiet s : inv s -> room s -> nf (async_step Internal) s -> quiet s.
Proof.
  intros Hinv [Hr1 Hr2] Hnf. destruct s as [ch m r cs nw st]. simpl in *.
  assert (forall s', ~ async_step Internal (mkState ch m r cs nw st) s') as Hno
    by (intros s' Hs'; apply Hnf; by exists s').
  destruct r; simpl in *.
  - destruct ch as [|x ch]; [|by edestruct Hno; constructor].
    destruct cs as [|[name|name] cs]; [done| |]; exfalso; eapply Hno.
    + apply (step_empty m Waiting [] cs nw st name).
    + apply (step_send [] m Waiting [] cs nw st name). unfold channel_capacity. simpl. lia.
  - exfalso. destruct n as [|n]; [eapply Hno; constructor|].
    pose proof (inv_drain _ Hinv _ eq_refl). simpl in *.
    destruct ch as [|x ch]; simpl in *; [lia|]. eapply Hno; constructor.
  - exfalso. eapply Hno, step_snapshot; [apply snapshot_all|done].
  - exfalso. destruct todo as [|[n v] todo]; [by eapply Hno, step_written|eapply Hno, step_write_ok].
  - exfalso. destruct failed as [|[n v] l]; eapply Hno; [apply step_round_done|apply step_put_back].
  - exfalso. destruct ch; eapply Hno; [apply step_back_empty|by apply step_back_signalled].
  - exfalso. eapply Hno, step_back_send. specialize (Hr2 _ eq_refl). lia.
Qed.

Lemma newest_step s1 s2 : async_step Internal s1 s2 -> newest s2 = newest s1.
Proof. intros H. remember Internal as l. by destruct H. Qed.

(** The updater comes to rest.  Once nothing new is handed in and the store accepts the writes,
    every execution ends, whatever the interleaving, and where it ends the store has accepted the
    newest status of every application last (fewer callers than the channel holds signals being
    underway, so that the updater cannot block on its own retry signal). *)
Theorem async_updates_terminate (s : async_state) :
  reachable s -> room s ->
  sn (async_step Internal) s /\
  forall s', rtc (async_step Internal) s s' -> nf (async_step Internal) s' ->
    quiet s' /\ forall n v, newest s !! n = Some v -> stored s' !! n = Some v.
Proof.
  intros Hreach Hroom. split.
  - clear Hreach Hroom. remember (weight s) as w eqn:Hw. revert s Hw.
    induction w as [w IH] using lt_wf_ind. intros s ->. constructor. intros s' Hs'.
    eapply IH; [|done]. by apply weight_step.
  - apply reachable_inv in Hreach as Hinv. clear Hreach. intros s' Hrun Hnf.
    induction Hrun as [s|s1 s2 s3 Hs _ IH].
    + pose proof (stuck_quiet s Hinv Hroom Hnf) as Hq. split; [done|]. by apply quiet_settled.
    + rewrite <- (newest_step _ _ Hs). apply IH; [by eapply room_step|by eapply inv_step|done].
Qed.
End AsyncUpdate.
Arguments updater : clear implicits.
Arguments async_state : clear implicits.
End AsyncUpdate.
Definition FornaxCore_ApplicationStatusManager_Retry : string := "FornaxCore_ApplicationStatusManager_StatusUpdate_Retry".

(** ** Concrete runs *)

(** One status is handed in, signalled, fails once, is put back with a signal, and is written. *)
Definition example_ghost : gmap string nat := {["ns/app"%string := 7%nat]}.
Definition example_rest : AsyncUpdate.async_state nat :=
  AsyncUpdate.mkState [] ∅ AsyncUpdate.Waiting [] example_ghost example_ghost.

Section ExampleRun.
Import AsyncUpdate.
#[local] Instance example_retry : RetrySignal := FornaxCore_ApplicationStatusManager_Retry.

Definition example_handed_in : AsyncUpdate.async_state nat :=
  mkState [] example_ghost Waiting [Checking "ns/app"] example_ghost ∅.

Lemma example_handed_in_reachable : reachable example_handed_in.
Proof.
  eapply rtc_l; [|apply rtc_refl]. exists HandIn.
  pose proof (step_add [] ∅ Waiting [] ∅ ∅ "ns/app"%string 7%nat) as H.
  by rewrite addStatusChange_replace in H.
Qed.

(** A round from the point where a signal is received up to the writes. *)
Lemma example_round x :
  rtc any_step (mkState [x] example_ghost Waiting [] example_ghost ∅)
    (mkState [] ∅ (Writing [("ns/app"%string, 7%nat)] ∅) [] example_ghost ∅).
Proof.
  eapply rtc_l; [eexists; apply step_receive|].
  eapply rtc_l; [eexists; apply step_drained|].
  eapply rtc_l; [eexists; eapply step_snapshot; [apply snapshot_all|unfold example_ghost; by rewrite map_to_list_singleton]|].
  apply rtc_refl.
Qed.

Lemma example_rest_reachable : reachable example_rest.
Proof.
  eapply (transitivity (R := rtc any_step)); [apply example_handed_in_reachable|].
  eapply rtc_l; [eexists; apply (step_empty _ _ [] [])|].
  eapply rtc_l; [eexists; apply (step_send _ _ _ [] []); unfold channel_capacity; simpl; lia|].
  eapply (transitivity (R := rtc any_step)); [apply example_round|].
  eapply rtc_l; [eexists; apply step_write_err|].
  eapply rtc_l; [eexists; eapply step_written; by rewrite insert_empty, map_to_list_singleton|].
  eapply rtc_l; [eexists; apply step_put_back|].
  assert (addStatusChange "ns/app"%string 7%nat false ∅ = example_ghost) as -> by reflexivity.
  eapply rtc_l; [eexists; apply step_back_empty|].
  eapply rtc_l; [eexists; apply step_back_send; unfold channel_capacity; simpl; lia|].
  eapply rtc_l; [eexists; apply step_round_done|].
  eapply (transitivity (R := rtc any_step)); [apply example_round|].
  eapply rtc_l; [eexists; apply step_write_ok|].
  eapply rtc_l; [eexists; eapply step_written; by rewrite map_to_list_empty|].
  eapply rtc_l; [eexists; apply step_round_done|]. apply rtc_refl.
Qed.

Lemma async_updates_settle_witness :
  reachable example_rest /\ quiet example_rest /\ stored example_rest !! "ns/app"%string = Some 7%nat.
Proof.
  split; [exact example_rest_reachable|]. split; [by repeat split|].
  apply (async_updates_settle example_rest example_rest_reachable); [by repeat split|reflexivity].
Defined.

Lemma async_updates_terminate_witness :
  sn (async_step Internal) example_handed_in /\
  forall s', rtc (async_step Internal) example_handed_in s' -> nf (async_step Internal) s' ->
    stored s' !! "ns/app"%string = Some 7%nat.
Proof.
  destruct (async_updates_terminate example_handed_in example_handed_in_reachable) as [H1 H2].
  - split; [unfold channel_capacity; simpl; lia|discriminate].
  - split; [exact H1|]. intros s' Hr Hn. apply (H2 s' Hr Hn). reflexivity.
Defined.
End ExampleRun.

(** An application with one pod left whose deletion was requested. *)
Definition example_app_status (n : Z) : ApplicationStatus := mkApplicationStatus n n 0 0 0 n.
Definition example_application : Application :=
  mkObject (mkObjectMeta "app" "ns" "uid" "" 0 (Some 5) None ∅ ∅ [FinalizerApplicationPod])
    (mkApplicationSpec _ [] false ∅ (mkScalingPolicy 0 1 1 ScalingPolicyTypeUnset None None))
    (example_app_status 1).
Definition example_app_ops : list (store_op (S := ApplicationSpec) (T := ApplicationStatus)) :=
  [OpCreate (store_key ApplicationGrvKey "ns/app") example_application].
Definition example_app_store := (run_all example_app_ops (NewMemoryStore 100)).2.
Definition example_app_map := (run_spec_all example_app_ops (mkVMap 100 ∅)).2.

Lemma example_app_refines : refines 5 example_app_store example_app_map.
Proof.
  apply (run_all_agrees 5 ltac:(discriminate));
    [apply refines_new; split; vm_compute; congruence|].
  vm_compute. repeat split; discriminate.
Qed.

(** The last pod is gone: the application goes. *)
Lemma application_status_update_safe_witness :
  let '(r, ms') := _updateApplicationStatus (fun _ => []) "ns/app" (example_app_status 0)
    example_app_store in
  r = Ok () /\ store_lookup ms' (store_key ApplicationGrvKey "ns/app") = None /\
  exists a', refines 5 ms' a'.
Proof.
  pose proof (application_status_update_safe 5 ltac:(discriminate) example_app_store example_app_map
    (fun _ => []) "ns/app" (example_app_status 0) example_app_refines eq_refl) as H.
  destruct (_updateApplicationStatus _ _ _ example_app_store) as [r ms'] eqn:E.
  destruct H as (j & a' & _ & Hrf & _); [vm_compute; repeat split; discriminate|].
  assert (r = Ok ()) as -> by (apply (f_equal fst) in E; vm_compute in E; congruence).
  split; [reflexivity|]. split; [|exists a'; exact Hrf].
  apply (f_equal snd) in E. simpl in E. rewrite <- E. vm_compute. reflexivity.
Defined.
