(* ===== verification/SessionUpdater.v ===== *)
(** * The session status updater

    [pkg/fornaxcore/session/async_session_status_updater.go]: the updater of session statuses.  It is the
    application status updater ([AsyncUpdate] of [AppStatus]) but for the writes: the snapshot is cut into
    batches of ten, the writes of a batch run in goroutines of their own and the updater waits for all of
    them before it goes on.

    [batch_step] is the updater with its batches.  Two theorems connect it with [AsyncUpdate]: every step is
    one of that updater up to the order of the pending writes ([batch_simulates]), so that nothing is
    forgotten, and every run without new statuses ends.  The goroutines of a batch record failed writes in
    one shared Go map without a lock; in the model each such write is one step.

    The constructor [NewSessionStatusUpdater] leaves the change map and the session manager nil, so that the updater
    it makes panics on the first status ([new_updater_panics]); the theorem is about an updater whose two fields
    have been set ([filled_in]). *)

From S2P Require Import Prelude GoStrings ApiTypes AppStatus.
From Stdlib Require Import String.
Import AsyncUpdate.
#[local] Open Scope nat_scope.

Definition FornaxCore_SessionStatusManager_Retry : string := "FornaxCore_SessionStatusManager_StatusUpdate_Retry".
#[export] Instance session_retry : RetrySignal := FornaxCore_SessionStatusManager_Retry.

(** [if len(sessions) == 10] *)
Definition batch_size : nat := 10.

Section Updater.
Context {V : Type}.

(** [Collecting rest sessions failed]: the loop over the snapshot with [rest] still to visit;
    [Batch running rest last failed]: [batchUpdateSession] with the goroutines in [running] not done. *)
Inductive batch_updater :=
  | SWaiting
  | SDraining (n : nat)
  | SSnapshot
  | Collecting (rest sessions : list (string * V)) (failed : gmap string V)
  | Batch (running rest : list (string * V)) (last : bool) (failed : gmap string V)
  | SPuttingBack (failed : list (string * V))
  | SBackChecking (failed : list (string * V))
  | SBackSending (failed : list (string * V)).

(** [sessionStatusUpdater] as it is made: the channel, the pointer to the change map and the session manager. *)
Record sessionStatusUpdater := mkUpdater {
  su_statusUpdateCh : list string;
  su_statusChanges : option (gmap string V);
  su_sessionManager : bool
}.
Definition NewSessionStatusUpdater : sessionStatusUpdater := mkUpdater [] None false.
(** [AsyncUpdateSessionStatus] up to its test of the channel. *)
Definition updater_hand_in (name : string) (v : V) (u : sessionStatusUpdater) : result sessionStatusUpdater :=
  match su_statusChanges u with
  | None => Err (OtherError "panic: nil pointer dereference")
  | Some m => Ok (mkUpdater (su_statusUpdateCh u) (Some (addStatusChange name v true m)) (su_sessionManager u))
  end.
Definition filled_in (u : sessionStatusUpdater) : sessionStatusUpdater := mkUpdater (su_statusUpdateCh u) (Some ∅) true.

Record batch_state := mkBatchState {
  b_statusUpdateCh : list string;
  b_statusChanges : gmap string V;
  b_run : batch_updater;
  b_callers : list caller;
  b_newest : gmap string V;
  b_stored : gmap string V
}.
(** [AsyncSessionStatusUpdateRun] of an updater that has its fields; without them there is nothing to run. *)
Definition batch_start (u : sessionStatusUpdater) : option batch_state :=
  match su_statusChanges u, su_sessionManager u with
  | Some m, true => Some (mkBatchState (su_statusUpdateCh u) m SWaiting [] m ∅)
  | _, _ => None
  end.

Inductive batch_step : label -> batch_state -> batch_state -> Prop :=
  (** [AsyncUpdateSessionStatus] *)
  | b_add ch m r cs nw st name v :
      batch_step HandIn (mkBatchState ch m r cs nw st)
        (mkBatchState ch (addStatusChange name v true m) r (Checking name :: cs) (<[name := v]> nw) st)
  | b_signalled ch m r cs1 cs2 nw st name :
      ch <> [] ->
      batch_step Internal (mkBatchState ch m r (cs1 ++ Checking name :: cs2) nw st) (mkBatchState ch m r (cs1 ++ cs2) nw st)
  | b_empty m r cs1 cs2 nw st name :
      batch_step Internal (mkBatchState [] m r (cs1 ++ Checking name :: cs2) nw st)
        (mkBatchState [] m r (cs1 ++ Sending name :: cs2) nw st)
  | b_send ch m r cs1 cs2 nw st name :
      List.length ch < channel_capacity ->
      batch_step Internal (mkBatchState ch m r (cs1 ++ Sending name :: cs2) nw st)
        (mkBatchState (ch ++ [name]) m r (cs1 ++ cs2) nw st)
  (** [case <-sm.statusUpdateCh: remainingLen := len(sm.statusUpdateCh)] *)
  | b_receive x ch m cs nw st :
      batch_step Internal (mkBatchState (x :: ch) m SWaiting cs nw st) (mkBatchState ch m (SDraining (List.length ch)) cs nw st)
  | b_drain x ch m n cs nw st :
      batch_step Internal (mkBatchState (x :: ch) m (SDraining (S n)) cs nw st) (mkBatchState ch m (SDraining n) cs nw st)
  | b_drained ch m cs nw st :
      batch_step Internal (mkBatchState ch m (SDraining 0) cs nw st) (mkBatchState ch m SSnapshot cs nw st)
  | b_snapshot ch m todo snap m' cs nw st :
      getAndRemoveStatusChangeSnapshot m = (snap, m') -> todo ≡ₚ map_to_list snap ->
      batch_step Internal (mkBatchState ch m SSnapshot cs nw st) (mkBatchState ch m' (Collecting todo [] ∅) cs nw st)
  (** [for n, v := range sessionStatuses { sessions[n] = v; if len(sessions) == 10 { ... } }] *)
  | b_collect ch m x rest sessions failed cs nw st :
      List.length (sessions ++ [x]) <> batch_size ->
      batch_step Internal (mkBatchState ch m (Collecting (x :: rest) sessions failed) cs nw st)
        (mkBatchState ch m (Collecting rest (sessions ++ [x]) failed) cs nw st)
  | b_full ch m x rest sessions failed cs nw st :
      List.length (sessions ++ [x]) = batch_size ->
      batch_step Internal (mkBatchState ch m (Collecting (x :: rest) sessions failed) cs nw st)
        (mkBatchState ch m (Batch (sessions ++ [x]) rest false failed) cs nw st)
  | b_last ch m sessions failed cs nw st :
      batch_step Internal (mkBatchState ch m (Collecting [] sessions failed) cs nw st)
        (mkBatchState ch m (Batch sessions [] true failed) cs nw st)
  (** one goroutine of the batch: [err := sm.sessionManager._updateSessionStatus(name, status)] *)
  | b_write_ok ch m name v gs1 gs2 rest last failed cs nw st :
      batch_step Internal (mkBatchState ch m (Batch (gs1 ++ (name, v) :: gs2) rest last failed) cs nw st)
        (mkBatchState ch m (Batch (gs1 ++ gs2) rest last failed) cs nw (<[name := v]> st))
  | b_write_err ch m name v gs1 gs2 rest last failed cs nw st :
      batch_step WriteFails (mkBatchState ch m (Batch (gs1 ++ (name, v) :: gs2) rest last failed) cs nw st)
        (mkBatchState ch m (Batch (gs1 ++ gs2) rest last (<[name := v]> failed)) cs nw st)
  (** [wg.Wait()] *)
  | b_waited ch m rest failed cs nw st :
      batch_step Internal (mkBatchState ch m (Batch [] rest false failed) cs nw st)
        (mkBatchState ch m (Collecting rest [] failed) cs nw st)
  | b_written ch m rest failed l cs nw st :
      l ≡ₚ map_to_list failed ->
      batch_step Internal (mkBatchState ch m (Batch [] rest true failed) cs nw st) (mkBatchState ch m (SPuttingBack l) cs nw st)
  (** failed writes go back into the map, with a signal *)
  | b_put_back ch m name v l cs nw st :
      batch_step Internal (mkBatchState ch m (SPuttingBack ((name, v) :: l)) cs nw st)
        (mkBatchState ch (addStatusChange name v false m) (SBackChecking l) cs nw st)
  | b_back_signalled ch m l cs nw st :
      ch <> [] ->
      batch_step Internal (mkBatchState ch m (SBackChecking l) cs nw st) (mkBatchState ch m (SPuttingBack l) cs nw st)
  | b_back_empty m l cs nw st :
      batch_step Internal (mkBatchState [] m (SBackChecking l) cs nw st) (mkBatchState [] m (SBackSending l) cs nw st)
  | b_back_send ch m l cs nw st :
      List.length ch < channel_capacity ->
      batch_step Internal (mkBatchState ch m (SBackSending l) cs nw st)
        (mkBatchState (ch ++ [retry_signal]) m (SPuttingBack l) cs nw st)
  | b_round_done ch m cs nw st :
      batch_step Internal (mkBatchState ch m (SPuttingBack []) cs nw st) (mkBatchState ch m SWaiting cs nw st).

Definition any_batch_step (s1 s2 : batch_state) : Prop := exists l, batch_step l s1 s2.
Definition batch_reachable (s : batch_state) : Prop :=
  exists s0, batch_start (filled_in NewSessionStatusUpdater) = Some s0 /\ rtc any_batch_step s0 s.
Example new_updater_panics name v :
  updater_hand_in name v NewSessionStatusUpdater = Err (OtherError "panic: nil pointer dereference") /\
  batch_start NewSessionStatusUpdater = None.
Proof. done. Qed.

(** ** The updater without batches *)

(** What is running and what is still to come are the writes left to do. *)
Definition abs_run (r : batch_updater) : updater V :=
  match r with
  | SWaiting => Waiting
  | SDraining n => Draining n
  | SSnapshot => Snapshot
  | Collecting rest sessions failed => Writing (sessions ++ rest) failed
  | Batch running rest _ failed => Writing (running ++ rest) failed
  | SPuttingBack l => PuttingBack l
  | SBackChecking l => BackChecking l
  | SBackSending l => BackSending l
  end.
Definition abs (s : batch_state) : async_state V :=
  mkState (b_statusUpdateCh s) (b_statusChanges s) (abs_run (b_run s)) (b_callers s) (b_newest s) (b_stored s).

(** The order in which the writes are done does not matter to anybody. *)
Definition reordered_run (r1 r2 : updater V) : Prop :=
  match r1, r2 with
  | Writing todo1 failed1, Writing todo2 failed2 => todo1 ≡ₚ todo2 /\ failed1 = failed2
  | _, _ => r1 = r2
  end.
Definition reordered (s1 s2 : async_state V) : Prop :=
  reordered_run (run s1) (run s2) /\
  s2 = mkState (statusUpdateCh s1) (statusChanges s1) (run s2) (callers s1) (newest s1) (stored s1).
Lemma reordered_refl s : reordered s s.
Proof. split; [by destruct (run s)|by destruct s]. Qed.

(** The last batch comes after the whole snapshot. *)
Definition last_batch_ok (s : batch_state) : Prop :=
  match b_run s with Batch _ rest true _ => rest = [] | _ => True end.

(** How much collecting is left before the next write. *)
Definition collecting (r : batch_updater) : nat :=
  match r with
  | Collecting rest _ _ => 3 * List.length rest + 2
  | Batch _ rest last _ => 3 * List.length rest + if last then 0 else 3
  | _ => 0
  end.

(** One step is one step of the updater without batches, its next write being any of those that are
    running, or none, and then less is left to collect. *)
Lemma batch_simulates l s1 s2 :
  batch_step l s1 s2 -> last_batch_ok s1 ->
  last_batch_ok s2 /\
  ((exists s1', reordered (abs s1) s1' /\ async_step l s1' (abs s2)) \/
   (l = Internal /\ abs s2 = abs s1 /\ collecting (b_run s2) < collecting (b_run s1))).
Proof.
  intros Hstep Hok.
  assert (forall s, s = abs s2 -> async_step l (abs s1) s ->
          exists s1', reordered (abs s1) s1' /\ async_step l s1' (abs s2)) as Hsame.
  { intros s -> H. exists (abs s1). split; [apply reordered_refl|done]. }
  destruct Hstep; (split; [done|]); unfold abs in *; cbn in *.
  1: left; eapply Hsame; [done|apply step_add].
  1: left; eapply Hsame; [done|by apply step_signalled].
  1: left; eapply Hsame; [done|apply step_empty].
  1: left; eapply Hsame; [done|by apply step_send].
  1: left; eapply Hsame; [done|apply step_receive].
  1: left; eapply Hsame; [done|apply step_drain].
  1: left; eapply Hsame; [done|apply step_drained].
  1: left; eapply Hsame; [done|by eapply step_snapshot].
  1: right; rewrite <- (assoc_L (++)); split_and!; [done|done|lia].
  1: right; rewrite <- (assoc_L (++)); split_and!; [done|done|lia].
  1: right; split_and!; [done|done|lia].
  1: left; exists (mkState ch m (Writing ((name, v) :: (gs1 ++ gs2) ++ rest) failed) cs nw st);
     split; [|apply step_write_ok].
  1: split; cbn; [|done]; split; [by rewrite <- Permutation_middle|done].
  1: left; exists (mkState ch m (Writing ((name, v) :: (gs1 ++ gs2) ++ rest) failed) cs nw st);
     split; [|apply step_write_err].
  1: split; cbn; [|done]; split; [by rewrite <- Permutation_middle|done].
  1: right; split_and!; [done|done|lia].
  1: left; subst rest; eapply Hsame; [done|by apply step_written].
  1: left; eapply Hsame; [done|apply step_put_back].
  1: left; eapply Hsame; [done|by apply step_back_signalled].
  1: left; eapply Hsame; [done|apply step_back_empty].
  1: left; eapply Hsame; [done|by apply step_back_send].
  1: left; eapply Hsame; [done|apply step_round_done].
Qed.

(** ** What reordering keeps *)

Lemma reordered_in_flight r1 r2 : reordered_run r1 r2 -> in_flight r1 ≡ₚ in_flight r2.
Proof. destruct r1, r2; simpl; try (by intros [=]); try (by intros [= ->]). intros [-> ->]. done. Qed.
Lemma reordered_inv s1 s2 : reordered s1 s2 -> inv s1 -> inv s2.
Proof.
  intros [Hr ->] Hinv. apply inv_frame; [done|symmetry; by apply reordered_in_flight| |].
  - intros Hm. apply (inv_signal _ Hinv). destruct (run s1), (run s2); simpl in *; done.
  - intros n E. rewrite E in Hr. apply (inv_drain _ Hinv). by destruct (run s1); simpl in Hr.
Qed.
Lemma reordered_weight s1 s2 : reordered s1 s2 -> weight s2 = weight s1.
Proof.
  intros [Hr ->]. unfold weight. cbn. assert (updater_weight (run s2) = updater_weight (run s1)) as ->; [|done].
  destruct (run s1), (run s2); simpl in *; try done; try (by injection Hr as ->). by destruct Hr as [-> ->].
Qed.
Lemma reordered_room s1 s2 : reordered s1 s2 -> room s1 -> room s2.
Proof.
  intros [Hr ->] [H1 H2]. split; [done|]. cbn. intros l E. rewrite E in Hr. apply (H2 l). by destruct (run s1); simpl in Hr.
Qed.

(** ** Nothing is forgotten *)

(** The statuses are settled, and no batch is too large. *)
Definition within_batch (s : batch_state) : Prop :=
  match b_run s with
  | Collecting _ sessions _ => List.length sessions < batch_size
  | Batch running _ _ _ => List.length running <= batch_size
  | _ => True
  end.
Record batch_inv (s : batch_state) : Prop := {
  bi_inv : inv (abs s);
  bi_last : last_batch_ok s;
  bi_size : within_batch s
}.
Lemma within_batch_step l s1 s2 : batch_step l s1 s2 -> within_batch s1 -> within_batch s2.
Proof.
  unfold within_batch. destruct 1; cbn; auto; unfold batch_size in *; rewrite ?length_app in *; cbn in *; lia.
Qed.
Lemma batch_inv_step l s1 s2 : batch_step l s1 s2 -> batch_inv s1 -> batch_inv s2.
Proof.
  intros Hstep [Hinv Hlast Hsize]. destruct (batch_simulates l s1 s2 Hstep Hlast) as [Hlast' Hsim].
  split; [|done|by eapply within_batch_step]. destruct Hsim as [(s1' & Hr & Ha)|(_ & -> & _)]; [|done].
  eapply inv_step; [exact Ha|]. by eapply reordered_inv.
Qed.
Lemma batch_reachable_inv s : batch_reachable s -> batch_inv s.
Proof.
  intros (s0 & [= <-] & Hr). set (s0 := mkBatchState _ _ _ _ _ _) in Hr.
  assert (batch_inv s0) as Hi by (split; [apply inv_init|done|done]).
  revert Hi. induction Hr as [|s1 s2 s3 [l Hs] _ IH]; [done|]. intros Hi. apply IH. by eapply batch_inv_step.
Qed.

(** ** Coming to rest *)

Definition batch_weight (s : batch_state) : nat := 4 * weight (abs s) + collecting (b_run s).

Lemma batch_weight_step s1 s2 :
  last_batch_ok s1 -> batch_step Internal s1 s2 -> batch_weight s2 < batch_weight s1.
Proof.
  intros Hlast Hstep. unfold batch_weight.
  destruct (batch_simulates _ _ _ Hstep Hlast) as [_ [(s1' & Hr & Ha)|(_ & -> & Hc)]]; [|lia].
  pose proof (weight_step _ _ Ha) as Hw. rewrite (reordered_weight _ _ Hr) in Hw.
  remember Internal as l eqn:Hl. clear Ha Hr. destruct Hstep; try discriminate Hl; cbn in *; try lia.
  rewrite snapshot_all in H. injection H as <- <-. rewrite H0, length_map_to_list, !map_size_empty in *. lia.
Qed.

Definition batch_quiet (s : batch_state) : Prop := b_run s = SWaiting /\ b_callers s = [] /\ b_statusUpdateCh s = [].

Lemma batch_stuck_quiet s :
  batch_inv s -> room (abs s) -> nf (batch_step Internal) s -> batch_quiet s.
Proof.
  intros [Hinv Hlast Hsize] [Hr1 Hr2] Hnf. destruct s as [ch m r cs nw st]. simpl in *.
  assert (forall s', ~ batch_step Internal (mkBatchState ch m r cs nw st) s') as Hno
    by (intros s' Hs'; apply Hnf; by exists s').
  destruct r as [|n| |rest sessions failed|running rest last failed|l|l|l]; simpl in *; [|exfalso..].
  - destruct ch as [|x ch]; [|by edestruct Hno; constructor].
    destruct cs as [|[name|name] cs]; [done| |]; exfalso; eapply Hno.
    + apply (b_empty m SWaiting [] cs nw st name).
    + apply (b_send [] m SWaiting [] cs nw st name). unfold channel_capacity. simpl. lia.
  - destruct n as [|n]; [eapply Hno; constructor|].
    pose proof (inv_drain _ Hinv _ eq_refl). simpl in *.
    destruct ch as [|x ch]; simpl in *; [lia|]. eapply Hno; constructor.
  - eapply Hno, b_snapshot; [apply snapshot_all|done].
  - destruct rest as [|x rest]; [eapply Hno, b_last|].
    destruct (decide (List.length (sessions ++ [x]) = batch_size)); [by eapply Hno, b_full|by eapply Hno, b_collect].
  - destruct running as [|[n v] running]; [|apply (Hno _ (b_write_ok _ _ _ _ [] _ _ _ _ _ _ _))].
    destruct last; [by eapply Hno, b_written|eapply Hno, b_waited].
  - destruct l as [|[n v] l]; eapply Hno; [apply b_round_done|apply b_put_back].
  - destruct ch; eapply Hno; [apply b_back_empty|by apply b_back_signalled].
  - eapply Hno, b_back_send. specialize (Hr2 _ eq_refl). lia.
Qed.

Lemma batch_room_step s1 s2 :
  batch_step Internal s1 s2 -> last_batch_ok s1 -> room (abs s1) -> room (abs s2).
Proof.
  intros Hstep Hlast Hroom.
  destruct (batch_simulates _ _ _ Hstep Hlast) as [_ [(s1' & Hr & Ha)|(_ & -> & _)]]; [|done].
  eapply room_step; [exact Ha|]. by eapply reordered_room.
Qed.

(** What the updater holds of a snapshot: the writes to come, those that run and those that failed. *)
Definition held (s : batch_state) : list (string * V) := in_flight (abs_run (b_run s)).
Lemma newest_kept s : inv (abs s) -> forall n v, b_newest s !! n = Some v ->
  b_statusChanges s !! n = Some v \/ (n, v) ∈ held s \/ b_stored s !! n = Some v.
Proof.
  intros Hinv n v Hn. destruct (b_statusChanges s !! n) as [v'|] eqn:Em.
  { left. pose proof (inv_map _ Hinv n v' Em) as Hv. cbn in Hv. congruence. }
  destruct (inv_newest _ Hinv n v Hn) as [[? Hm]|[Hf|Hs]]; [cbn in Hm; congruence| |by right; right].
  right; left. apply list_elem_of_fmap in Hf as ([n' v'] & -> & Hf).
  pose proof (inv_flight _ Hinv _ v' Hf Em) as Hv. cbn in *. rewrite Hn in Hv. by injection Hv as ->.
Qed.

End Updater.
Arguments sessionStatusUpdater : clear implicits.
Arguments batch_updater : clear implicits.
Arguments batch_state : clear implicits.

(** ** A concrete run *)

(** Twelve statuses are handed in before the updater looks. *)
Definition twelve : list (string * nat) :=
  [("s0", 0); ("s1", 1); ("s2", 2); ("s3", 3); ("s4", 4); ("s5", 5); ("s6", 6); ("s7", 7); ("s8", 8);
   ("s9", 9); ("t0", 10); ("t1", 11)]%string.
Definition hand_in (l : list (string * nat)) : batch_state nat :=
  foldl (fun s '(name, v) => mkBatchState (b_statusUpdateCh s) (addStatusChange name v true (b_statusChanges s)) (b_run s)
           (Checking name :: b_callers s) (<[name := v]> (b_newest s)) (b_stored s)) (mkBatchState [] ∅ SWaiting [] ∅ ∅) l.
Lemma hand_in_reachable l : batch_reachable (hand_in l).
Proof.
  exists (mkBatchState [] ∅ SWaiting [] ∅ ∅). split; [done|]. unfold hand_in. generalize (mkBatchState (V := nat) [] ∅ SWaiting [] ∅ ∅) as s0.
  induction l as [|[name v] l IH]; intros s0; [done|].
  cbn. eapply rtc_l; [|apply IH]. exists HandIn. destruct s0. apply b_add.
Qed.
