(* ===== verification/AppPool.v ===== *)
(** * The pods and sessions of one application

    [pkg/fornaxcore/application/application_pool.go] with the types of [application_pod.go],
    [application_session.go] and [application_manager.go].  A pool keeps its pods in one map per
    pod state and its sessions in one map per session state.

    The session objects are shared: the pool stores pointers, and the application manager changes
    the objects through them.  So the pool holds locations and the objects live in a heap that the
    reading operations take as an argument.  The pods of a pool are owned by it. *)

From S2P Require Import Prelude GoStrings ApiTypes.
From Stdlib Require Import String.
#[local] Open Scope Z_scope.

(** ** Maps of maps

    [podsByState] and [sessions] are maps from a state to a map of names; the code keeps every
    element in the map of its own state.  [represents B M] says that the maps [B] split the map
    [M] by state; the lemmas turn the code's moves between maps into plain map updates. *)

Section Buckets.
Context {GR : GoRange} {St A : Type} `{Countable St} (st_of : A -> St).
Abbreviation Buckets := (gmap St (gmap string A)).
Implicit Types (B : Buckets) (M : gmap string A).

Definition bucket B (st : St) : gmap string A := default ∅ (B !! st).
Definition bucket_insert (st : St) (n : string) (a : A) B : Buckets :=
  <[st := <[n := a]> (bucket B st)]> B.
Definition bucket_delete (st : St) (n : string) B : Buckets :=
  <[st := delete n (bucket B st)]> B.

(** [for st, b := range B { if a, f := b[n]; f { ... } }] *)
Fixpoint find_in (l : list (St * gmap string A)) (n : string) : option (St * A) :=
  match l with
  | [] => None
  | (st, b) :: l => match b !! n with Some a => Some (st, a) | None => find_in l n end
  end.
Definition find_bucket B (n : string) : option (St * A) := find_in (range B) n.

Definition represents B M : Prop :=
  forall st, B !! st = Some (filter (fun na => st_of na.2 = st) M).

Lemma lookup_bucket B M st n a :
  represents B M -> bucket B st !! n = Some a <-> M !! n = Some a /\ st_of a = st.
Proof.
  intros HB. unfold bucket. rewrite HB. simpl. by rewrite map_lookup_filter_Some.
Qed.

Lemma bucket_eq B M st : represents B M -> bucket B st = filter (fun na => st_of na.2 = st) M.
Proof. intros HB. unfold bucket. by rewrite HB. Qed.

Lemma find_in_Some l n st a :
  find_in l n = Some (st, a) -> exists b, (st, b) ∈ l /\ b !! n = Some a.
Proof.
  induction l as [|[st' b] l IH]; simpl; [done|]. destruct (b !! n) as [a'|] eqn:Hb.
  - intros [= <- <-]. exists b. split; [left|done].
  - intros (b' & Hin & Hb')%IH. exists b'. split; [by right|done].
Qed.

Lemma find_in_None l n : find_in l n = None <-> forall st b, (st, b) ∈ l -> b !! n = None.
Proof.
  induction l as [|[st' b] l IH]; simpl.
  - split; [intros _ ? ? Hx; by apply elem_of_nil in Hx|done].
  - destruct (b !! n) as [a'|] eqn:Hb.
    + split; [done|]. intros Hx. specialize (Hx st' b). rewrite Hx in Hb; [done|left].
    + rewrite IH. split.
      * intros Hx st b' [[= -> ->]|Hin]%elem_of_cons; [done|by apply (Hx st)].
      * intros Hx st b' Hin. apply (Hx st). by right.
Qed.

(** Whatever order [range] takes, the search finds the element and the map it is in. *)
Lemma find_bucket_spec B M n :
  represents B M -> find_bucket B n = (fun a => (st_of a, a)) <$> M !! n.
Proof.
  intros HB. unfold find_bucket.
  destruct (find_in (range B) n) as [[st a]|] eqn:Hf.
  - apply find_in_Some in Hf as (b & Hin & Hb). apply elem_of_range in Hin.
    rewrite HB in Hin. simplify_eq. apply map_lookup_filter_Some in Hb as [-> <-]. done.
  - destruct (M !! n) as [a|] eqn:Hn; [|done]. rewrite find_in_None in Hf.
    assert ((st_of a, filter (fun na => st_of na.2 = st_of a) M) ∈ range B) as Hin
      by (apply elem_of_range, HB).
    specialize (Hf _ _ Hin). by apply map_lookup_filter_None_1 in Hf as [Hf|Hf];
      [rewrite Hn in Hf|specialize (Hf a Hn)].
Qed.

Lemma represents_insert B M n a :
  represents B M -> (forall old, M !! n = Some old -> st_of old = st_of a) ->
  represents (bucket_insert (st_of a) n a B) (<[n := a]> M).
Proof.
  intros HB Hold st. unfold bucket_insert. rewrite (bucket_eq _ M) by done.
  destruct (decide (st = st_of a)) as [->|Hst].
  - rewrite lookup_insert_eq. f_equal. by rewrite map_filter_insert_True.
  - rewrite lookup_insert_ne, HB by done. f_equal.
    rewrite map_filter_insert_False by (simpl; congruence). apply map_filter_strong_ext.
    intros n' a'. simpl. split; intros [Hst' Hn']; [|by apply lookup_delete_Some in Hn' as [_ Hn']].
    split; [done|]. apply lookup_delete_Some. split; [|done]. intros <-.
    apply Hst. by rewrite <- (Hold a' Hn').
Qed.

(** Moving an element: insert it where it belongs now, delete it where it was. *)
Lemma represents_move B M n old a :
  represents B M -> M !! n = Some old -> st_of old <> st_of a ->
  represents (bucket_delete (st_of old) n (bucket_insert (st_of a) n a B)) (<[n := a]> M).
Proof.
  intros HB Hn Hst st. unfold bucket_delete, bucket_insert.
  destruct (decide (st = st_of old)) as [->|Ho].
  - rewrite lookup_insert_eq. f_equal. unfold bucket at 1. rewrite lookup_insert_ne by congruence.
    rewrite HB. simpl. rewrite map_filter_insert_False by (simpl; congruence).
    by rewrite map_filter_delete.
  - rewrite lookup_insert_ne by done. destruct (decide (st = st_of a)) as [->|Ha].
    + rewrite lookup_insert_eq. f_equal. rewrite (bucket_eq _ M) by done.
      by rewrite map_filter_insert_True.
    + rewrite lookup_insert_ne, HB by done. f_equal.
      rewrite map_filter_insert_False by (simpl; congruence). apply map_filter_strong_ext.
      intros n' a'. simpl. split; intros [Hst' Hn']; [|by apply lookup_delete_Some in Hn' as [_ Hn']].
      split; [done|]. apply lookup_delete_Some. split; [|done]. intros <-. congruence.
Qed.

Lemma represents_delete_all B M n : represents B M -> represents (delete n <$> B) (delete n M).
Proof. intros HB st. rewrite lookup_fmap, HB. simpl. f_equal. by rewrite map_filter_delete. Qed.

Lemma represents_delete B M n a :
  represents B M -> M !! n = Some a -> represents (bucket_delete (st_of a) n B) (delete n M).
Proof.
  intros HB Hn st. unfold bucket_delete. rewrite (bucket_eq _ M) by done.
  destruct (decide (st = st_of a)) as [->|Hst].
  - rewrite lookup_insert_eq. f_equal. by rewrite map_filter_delete.
  - rewrite lookup_insert_ne, HB by done. f_equal. rewrite map_filter_delete.
    symmetry. apply delete_id, map_lookup_filter_None_2. right. intros x Hx. simpl. congruence.
Qed.

(** The sizes of the maps add up. *)
Lemma size_buckets (sts : list St) M :
  NoDup sts -> (forall a, st_of a ∈ sts) ->
  foldr Nat.add 0%nat ((fun st => size (filter (fun na => st_of na.2 = st) M)) <$> sts) = size M.
Proof.
  intros Hnd Hall. induction M as [|n a M Hn IH] using map_ind.
  - rewrite map_size_empty. clear. induction sts as [|st sts IH]; csimpl; [done|].
    by rewrite IH, map_filter_empty, map_size_empty.
  - rewrite map_size_insert_None by done. rewrite <- IH. clear IH.
    specialize (Hall a). induction Hnd as [|st sts Hst Hnd IH]; [by apply elem_of_nil in Hall|].
    csimpl. apply elem_of_cons in Hall as [<-|Hall].
    + rewrite map_filter_insert_True by done.
      rewrite map_size_insert_None by (apply map_lookup_filter_None_2; by left). simpl. f_equal.
      f_equal. clear -Hst Hn. induction sts as [|st sts IH]; csimpl; [done|].
      apply not_elem_of_cons in Hst as [Hne Hst]. rewrite IH by done.
      by rewrite map_filter_insert_False, delete_id by (simpl; congruence).
    + rewrite IH by done. rewrite map_filter_insert_False by (simpl; set_solver).
      rewrite delete_id by done. lia.
Qed.

(** A loop that adds up the lengths of the maps counts every element once. *)
Lemma length_buckets (sts : list St) B M :
  NoDup sts -> (forall st, st ∈ sts) -> represents B M ->
  foldl (fun length v => (length + size v.2)%nat) 0%nat (range B) = size M.
Proof.
  intros Hnd Hall HB. rewrite <- (size_buckets sts M) by done.
  assert (range B ≡ₚ (fun st => (st, filter (fun na => st_of na.2 = st) M)) <$> sts) as Hp.
  { apply NoDup_Permutation; [apply NoDup_range| |].
    - apply NoDup_fmap_1 with (f := fst). rewrite <- list_fmap_compose.
      erewrite (list_fmap_ext _ id) by done. by rewrite list_fmap_id.
    - intros [st b]. rewrite elem_of_range, HB, list_elem_of_fmap. split.
      + intros [= <-]. by exists st.
      + by intros (st' & [= <- <-] & _). }
  assert (forall (l : list (St * gmap string A)) n,
    foldl (fun acc v => (acc + size v.2)%nat) n l =
    (n + foldr Nat.add 0 ((fun v => size v.2) <$> l))%nat) as Hf.
  { induction l as [|v l IH]; intros n; csimpl; [lia|]. rewrite IH. lia. }
  rewrite Hf, Hp, <- list_fmap_compose. done.
Qed.
End Buckets.

(** ** The pool *)

Inductive ApplicationPodState :=
  PodStatePending | PodStateAllocated | PodStateDeleting | PodStateIdle.
#[export] Instance ApplicationPodState_eq_dec : EqDecision ApplicationPodState.
Proof. solve_decision. Defined.
#[export] Instance ApplicationPodState_countable : Countable ApplicationPodState.
Proof.
  refine (inj_countable'
    (fun s => match s with
       PodStatePending => 0 | PodStateAllocated => 1 | PodStateDeleting => 2 | PodStateIdle => 3 end)%nat
    (fun n => match n with
       0 => PodStatePending | 1 => PodStateAllocated | 2 => PodStateDeleting | _ => PodStateIdle
       end)%nat _).
  by intros [].
Defined.

Inductive ApplicationSessionState :=
  SessionStatePending | SessionStateStarting | SessionStateRunning | SessionStateDeleting.
#[export] Instance ApplicationSessionState_eq_dec : EqDecision ApplicationSessionState.
Proof. solve_decision. Defined.
#[export] Instance ApplicationSessionState_countable : Countable ApplicationSessionState.
Proof.
  refine (inj_countable'
    (fun s => match s with SessionStatePending => 0 | SessionStateStarting => 1
       | SessionStateRunning => 2 | SessionStateDeleting => 3 end)%nat
    (fun n => match n with 0 => SessionStatePending | 1 => SessionStateStarting
       | 2 => SessionStateRunning | _ => SessionStateDeleting end)%nat _).
  by intros [].
Defined.

(** [sessions map[string]bool] only ever holds [true]: a set of session ids. *)
Record ApplicationPod := mkApplicationPod {
  podName : string; pod_state : ApplicationPodState; pod_sessions : gset string
}.
Definition NewApplicationPod (podName : string) (state : ApplicationPodState) : ApplicationPod :=
  mkApplicationPod podName state ∅.

(** Pointers to session objects, and the objects. *)
Abbreviation session_ptr := nat (only parsing).
Abbreviation SessionHeap := (gmap nat ApplicationSession).

Record PoolSession := mkPoolSession { ps_session : session_ptr; ps_state : ApplicationSessionState }.

Record ApplicationPool := mkApplicationPool {
  appName : string;
  podsByState : gmap ApplicationPodState (gmap string ApplicationPod);
  sessions : gmap ApplicationSessionState (gmap string PoolSession)
}.

Definition NewApplicationPool (appName : string) : ApplicationPool :=
  mkApplicationPool appName
    {[ PodStatePending := ∅; PodStateIdle := ∅; PodStateAllocated := ∅; PodStateDeleting := ∅ ]}
    {[ SessionStatePending := ∅; SessionStateStarting := ∅; SessionStateRunning := ∅;
       SessionStateDeleting := ∅ ]}.

Definition set_podsByState b (pool : ApplicationPool) : ApplicationPool :=
  mkApplicationPool (appName pool) b (sessions pool).
Definition set_sessions b (pool : ApplicationPool) : ApplicationPool :=
  mkApplicationPool (appName pool) (podsByState pool) b.

Record ApplicationPodSummary := mkPodSummary {
  totalCount : Z; pendingCount : Z; deletingCount : Z; idleCount : Z; occupiedCount : Z
}.
Record ApplicationSessionSummary := mkSessionSummary {
  ss_pendingCount : Z; ss_startingCount : Z; ss_runningCount : Z; ss_timeoutCount : Z;
  ss_deletingCount : Z
}.

Definition DefaultSessionOpenTimeoutDuration : Z := 10 * 10 ^ 9.

Section Pool.
Context {GR : GoRange}.
Implicit Types (pool : ApplicationPool) (h : SessionHeap).

(** *** Pods *)

Definition pods_in pool (st : ApplicationPodState) : gmap string ApplicationPod :=
  bucket (podsByState pool) st.

(** The counters are [int32]. *)
Definition summaryPod pool : ApplicationPodSummary :=
  let pending := i32 (Z.of_nat (size (pods_in pool PodStatePending))) in
  let deleting := i32 (Z.of_nat (size (pods_in pool PodStateDeleting))) in
  let occupied := i32 (Z.of_nat (size (pods_in pool PodStateAllocated))) in
  let idle := i32 (Z.of_nat (size (pods_in pool PodStateIdle))) in
  mkPodSummary (i32 (i32 (i32 (pending + deleting) + idle) + occupied)) pending deleting idle occupied.

Definition getPodNoLock pool (podName : string) : option ApplicationPod :=
  snd <$> find_bucket (podsByState pool) podName.
Definition getPod := getPodNoLock.

Definition add_sessions (sessionIds : list string) (p : ApplicationPod) : ApplicationPod :=
  mkApplicationPod (podName p) (pod_state p) (list_to_set sessionIds ∪ pod_sessions p).
Definition set_pod_state (st : ApplicationPodState) (p : ApplicationPod) : ApplicationPod :=
  mkApplicationPod (podName p) st (pod_sessions p).

Definition addOrUpdatePodNoLock pool (podName : string) (podState : ApplicationPodState)
    (sessionIds : list string) : ApplicationPod * ApplicationPool :=
  match find_bucket (podsByState pool) podName with
  | Some (st, p) =>
    let p := add_sessions sessionIds p in
    if decide (pod_state p = podState)
    then (p, set_podsByState (bucket_insert st podName p (podsByState pool)) pool)
    else
      let p := set_pod_state podState p in
      (p, set_podsByState
            (bucket_delete st podName (bucket_insert podState podName p (podsByState pool))) pool)
  | None =>
    let p := add_sessions sessionIds (NewApplicationPod podName podState) in
    (p, set_podsByState (bucket_insert podState podName p (podsByState pool)) pool)
  end.

Definition addOrUpdatePod pool (podName : string) (podState : ApplicationPodState)
    (sessionIds : list string) : ApplicationPod * ApplicationPool :=
  match getPodNoLock pool podName with
  | Some p =>
    if decide (pod_state p = PodStateDeleting /\ podState <> PodStateDeleting) then (p, pool)
    else if decide (pod_state p <> PodStatePending /\ podState = PodStatePending) then (p, pool)
    else addOrUpdatePodNoLock pool podName podState sessionIds
  | None => addOrUpdatePodNoLock pool podName podState sessionIds
  end.

Definition deletePod pool (podName : string) : ApplicationPool :=
  set_podsByState (delete podName <$> podsByState pool) pool.

Definition getSomeIdlePods pool (num : nat) : list ApplicationPod :=
  take num (range (pods_in pool PodStateIdle)).*2.

Definition activePodNums pool : Z * Z * Z :=
  (Z.of_nat (size (pods_in pool PodStateAllocated)), Z.of_nat (size (pods_in pool PodStatePending)),
   Z.of_nat (size (pods_in pool PodStateIdle))).

Definition podLength pool : nat :=
  foldl (fun length v => (length + size v.2)%nat) 0%nat (range (podsByState pool)).

Definition podListOfState pool (st : ApplicationPodState) : list ApplicationPod :=
  (range (pods_in pool st)).*2.

Definition podList pool : list ApplicationPod :=
  v ← range (podsByState pool); (range v.2).*2.

(** *** Sessions *)

Definition sessions_in pool (st : ApplicationSessionState) : gmap string PoolSession :=
  bucket (sessions pool) st.

Definition sessionLength pool : nat :=
  foldl (fun num v => (num + size v.2)%nat) 0%nat (range (sessions pool)).

Definition sessionList pool : list PoolSession := v ← range (sessions pool); (range v.2).*2.

Definition getSessionNoLock pool (key : string) : option PoolSession :=
  snd <$> find_bucket (sessions pool) key.
Definition getSession := getSessionNoLock.

Definition getPodSessions pool (podName : string) : list PoolSession :=
  match getPodNoLock pool podName with
  | None => []
  | Some pod => omap (getSessionNoLock pool) (range (set_to_map (fun k => (k, ())) (pod_sessions pod) : gmap string unit)).*1
  end.

(** The object behind a pool session. *)
Definition session_of h (s : PoolSession) : option ApplicationSession := h !! ps_session s.

(** [s.session.CreationTimestamp.Time.Before(time.Now().Add(-1 * timeoutDuration))] *)
Definition session_timed_out (now : Z) (session : ApplicationSession) : bool :=
  let timeoutDuration :=
    if 0 <? OpenTimeoutSeconds (Spec session) then OpenTimeoutSeconds (Spec session) * 10 ^ 9
    else DefaultSessionOpenTimeoutDuration in
  om_CreationTimestamp (om session) <? now - timeoutDuration.

Definition timed_out h (now : Z) (s : PoolSession) : bool :=
  match session_of h s with Some session => session_timed_out now session | None => false end.

(** The starting sessions that have not timed out are counted twice. *)
Definition summarySession pool h (now : Z) : ApplicationSessionSummary :=
  let count b st := Z.of_nat (List.length
    (filter (fun s => timed_out h now s = b) (range (sessions_in pool st)).*2)) in
  mkSessionSummary
    (count false SessionStatePending)
    (Z.of_nat (size (sessions_in pool SessionStateStarting)) + count false SessionStateStarting)
    (Z.of_nat (size (sessions_in pool SessionStateRunning)))
    (count true SessionStatePending + count true SessionStateStarting)
    (Z.of_nat (size (sessions_in pool SessionStateDeleting))).

(** The search for the pod that holds the session stops at the first map that has it. *)
Definition deleteSessionNoLock pool (session : ApplicationSession) : ApplicationPool :=
  let sessionId := UID session in
  let pool :=
    match PodReference (Status session) with
    | Some podName =>
      match find_bucket (podsByState pool) podName with
      | Some (st, pod) =>
        let pod := mkApplicationPod (AppPool.podName pod) (pod_state pod)
                     (pod_sessions pod ∖ {[sessionId]}) in
        if decide (pod_sessions pod = ∅ /\ pod_state pod = PodStateAllocated) then
          set_podsByState
            (bucket_insert PodStateIdle podName (set_pod_state PodStateIdle pod)
              (bucket_delete st podName (podsByState pool))) pool
        else set_podsByState (bucket_insert st podName pod (podsByState pool)) pool
      | None => pool
      end
    | None => pool
    end in
  set_sessions (delete sessionId <$> sessions pool) pool.
Definition deleteSession := deleteSessionNoLock.

(** The state [addSession] files a session under; [None] for a terminal session. *)
Definition session_pool_state (session : ApplicationSession) : option ApplicationSessionState :=
  if bool_decide (is_Some (DeletionTimestamp session)) then Some SessionStateDeleting
  else if SessionIsOpen session then Some SessionStateRunning
  else if SessionIsStarting session then Some SessionStateStarting
  else if SessionIsPending session then Some SessionStatePending
  else if SessionIsClosing session then Some SessionStateDeleting
  else None.

Definition addSession pool (sessionId : string) (ptr : session_ptr) (session : ApplicationSession) :
    ApplicationPool :=
  match session_pool_state session with
  | None => deleteSessionNoLock pool session
  | Some newState =>
    let pool :=
      match getSessionNoLock pool sessionId with
      | Some s =>
        if decide (newState = ps_state s) then pool
        else set_sessions (bucket_delete (ps_state s) sessionId (sessions pool)) pool
      | None => pool
      end in
    let pool := set_sessions
      (bucket_insert newState sessionId (mkPoolSession ptr newState) (sessions pool)) pool in
    match PodReference (Status session) with
    | Some podName => (addOrUpdatePodNoLock pool podName PodStateAllocated [UID session]).2
    | None => pool
    end
  end.

Definition non_running pool h (now : Z) (b : bool) (st : ApplicationSessionState) : list PoolSession :=
  filter (fun s => timed_out h now s = b) (range (sessions_in pool st)).*2.

(** [(pendingSessions, deletingSessions, timeoutSessions)] *)
Definition getNonRunningSessions pool h (now : Z) :
    list PoolSession * list PoolSession * list PoolSession :=
  (non_running pool h now false SessionStatePending ++ non_running pool h now false SessionStateStarting,
   (range (sessions_in pool SessionStateDeleting)).*2,
   non_running pool h now true SessionStatePending ++ non_running pool h now true SessionStateStarting).

(** [updateSessionPool]: the creation time is rewritten through the pointer. *)
Definition updateSessionPool (now : Z) pool h (ptr : session_ptr) : ApplicationPool * SessionHeap :=
  match h !! ptr with
  | None => (pool, h)
  | Some session =>
    if SessionInTerminalState session then (deleteSession pool session, h)
    else
      let session := map_om (om_set_CreationTimestamp now) session in
      (addSession pool (UID session) ptr session, <[ptr := session]> h)
  end.

Definition getSessionApplicationKey (session : ApplicationSession) : string :=
  String.append (om_Namespace (om session)) (String.append "/" (ApplicationName (Spec session))).
End Pool.

(** ** What a pool represents

    [M] gives the pod under each name and [N] the session under each id; the state of a pod or a
    session decides the map it is in. *)

Record pool_repr (pool : ApplicationPool) (M : gmap string ApplicationPod)
    (N : gmap string PoolSession) : Prop := {
  pr_pods : represents pod_state (podsByState pool) M;
  pr_sessions : represents ps_state (sessions pool) N;
  pr_names : forall n p, M !! n = Some p -> podName p = n
}.

(** The sessions of a pod that may not be there. *)
Definition sessions_of (M : gmap string ApplicationPod) (n : string) : gset string :=
  match M !! n with Some p => pod_sessions p | None => ∅ end.

(** The pod [n] in state [st], with the ids added. *)
Definition put_pod (n : string) (st : ApplicationPodState) (ids : list string)
    (M : gmap string ApplicationPod) : gmap string ApplicationPod :=
  <[n := mkApplicationPod n st (list_to_set ids ∪ sessions_of M n)]> M.

(** The pod a session ran on without that session: an allocated pod left without sessions becomes
    idle. *)
Definition release_pod (sessionId : string) (p : ApplicationPod) : ApplicationPod :=
  let rest := pod_sessions p ∖ {[sessionId]} in
  mkApplicationPod (podName p)
    (if decide (rest = ∅ /\ pod_state p = PodStateAllocated) then PodStateIdle else pod_state p) rest.

Definition release (session : ApplicationSession) (M : gmap string ApplicationPod) :
    gmap string ApplicationPod :=
  match PodReference (Status session) with
  | Some n => alter (release_pod (UID session)) n M
  | None => M
  end.

Section PoolLemmas.
Context {GR : GoRange}.
Implicit Types (pool : ApplicationPool) (h : SessionHeap).

Lemma NewApplicationPool_repr name : pool_repr (NewApplicationPool name) ∅ ∅.
Proof. split; [by intros []|by intros []|]. intros n p Hn. by rewrite lookup_empty in Hn. Qed.

Lemma getPod_repr pool M N n : pool_repr pool M N -> getPod pool n = M !! n.
Proof.
  intros [HB _ _]. unfold getPod, getPodNoLock. rewrite (find_bucket_spec _ _ _ _ HB).
  by destruct (M !! n).
Qed.

Lemma getSession_repr pool M N id : pool_repr pool M N -> getSession pool id = N !! id.
Proof.
  intros [_ HB _]. unfold getSession, getSessionNoLock. rewrite (find_bucket_spec _ _ _ _ HB).
  by destruct (N !! id).
Qed.

Lemma addOrUpdatePodNoLock_repr pool M N n st ids :
  pool_repr pool M N -> pool_repr (addOrUpdatePodNoLock pool n st ids).2 (put_pod n st ids M) N.
Proof.
  intros [HB HS Hn]. unfold addOrUpdatePodNoLock, put_pod, sessions_of, add_sessions,
    set_pod_state, NewApplicationPod.
  rewrite (find_bucket_spec _ _ _ n HB).
  assert (forall p, podName p = n -> forall n' p', <[n := p]> M !! n' = Some p' -> podName p' = n') as Hins.
  { intros p Hp n' p' [[<- <-]|[_ H']]%lookup_insert_Some; [done|by apply Hn]. }
  destruct (M !! n) as [p|] eqn:Hp; simpl.
  - specialize (Hn n p Hp) as Hnp. case_decide as Hst; simpl.
    + subst st. split; [|done|by apply Hins]. rewrite Hnp.
      apply (represents_insert pod_state (podsByState pool) M n
        (mkApplicationPod n (pod_state p) (list_to_set ids ∪ pod_sessions p))); [done|].
      intros old Hold. by simplify_eq.
    + split; [|done|by apply Hins]. rewrite Hnp.
      by apply (represents_move pod_state (podsByState pool) M n p
        (mkApplicationPod n st (list_to_set ids ∪ pod_sessions p))).
  - split; [|done|by apply Hins].
    apply (represents_insert pod_state (podsByState pool) M n
      (mkApplicationPod n st (list_to_set ids ∪ ∅))); [done|]. intros old Hold. by simplify_eq.
Qed.

(** The guards of [addOrUpdatePod]. *)
Definition may_move (from to : ApplicationPodState) : bool :=
  negb (bool_decide (from = PodStateDeleting) && negb (bool_decide (to = PodStateDeleting))) &&
  negb (negb (bool_decide (from = PodStatePending)) && bool_decide (to = PodStatePending)).

Lemma addOrUpdatePod_repr pool M N n st ids :
  pool_repr pool M N ->
  pool_repr (addOrUpdatePod pool n st ids).2
    (match M !! n with
     | Some p => if may_move (pod_state p) st then put_pod n st ids M else M
     | None => put_pod n st ids M
     end) N.
Proof.
  intros Hr. unfold addOrUpdatePod. change (getPodNoLock pool n) with (getPod pool n).
  rewrite (getPod_repr pool M N n Hr).
  pose proof (addOrUpdatePodNoLock_repr pool M N n st ids Hr).
  destruct (M !! n) as [p|]; [|done]. unfold may_move.
  by destruct (pod_state p), st.
Qed.

Lemma deletePod_repr pool M N n :
  pool_repr pool M N -> pool_repr (deletePod pool n) (delete n M) N.
Proof.
  intros [HB HS Hn]. split; simpl; [by apply represents_delete_all|done|].
  intros n' p' [_ H']%lookup_delete_Some. by apply Hn.
Qed.

Lemma deleteSession_repr pool M N session :
  pool_repr pool M N ->
  pool_repr (deleteSession pool session) (release session M) (delete (UID session) N).
Proof.
  intros [HB HS Hn]. unfold deleteSession, deleteSessionNoLock, release.
  assert (forall B, represents pod_state B (release session M) ->
    (forall n p, release session M !! n = Some p -> podName p = n) ->
    pool_repr (set_sessions (delete (UID session) <$> sessions pool) (set_podsByState B pool))
      (release session M) (delete (UID session) N)) as Hfin.
  { intros B HB' Hn'. split; simpl; [done|by apply represents_delete_all|done]. }
  unfold release in Hfin.
  destruct (PodReference (Status session)) as [n|]; [|by destruct pool; apply Hfin].
  rewrite (find_bucket_spec _ _ _ n HB). destruct (M !! n) as [p|] eqn:Hp; simpl.
  2:{ assert (alter (release_pod (UID session)) n M = M) as Ha.
      { apply map_eq. intros k. rewrite lookup_alter. case_decide; [subst|done]. by rewrite Hp. }
      rewrite Ha in *. destruct pool. by apply Hfin. }
  assert (alter (release_pod (UID session)) n M = <[n := release_pod (UID session) p]> M) as Ha.
  { apply map_eq. intros k. rewrite lookup_alter, lookup_insert. case_decide; [|done].
    subst. by rewrite Hp. }
  rewrite Ha in *.
  assert (forall n' p', <[n := release_pod (UID session) p]> M !! n' = Some p' -> podName p' = n')
    as Hnames.
  { intros n' p' [[<- <-]|[_ H']]%lookup_insert_Some; [by apply (Hn n p)|by apply Hn]. }
  unfold release_pod in *. case_decide as Hidle; simpl; apply Hfin; try done; clear Hfin.
  - destruct Hidle as [Hempty Hst].
    intros st. unfold bucket_insert, set_pod_state. simpl.
    rewrite Hst in *.
    pose proof (represents_delete pod_state (podsByState pool) M n p HB Hp) as Hd. rewrite Hst in Hd.
    pose proof (represents_insert pod_state _ _ n
      (mkApplicationPod (podName p) PodStateIdle (pod_sessions p ∖ {[UID session]})) Hd) as Hi.
    rewrite insert_delete_eq in Hi. apply Hi. intros old. by rewrite lookup_delete_eq.
  - apply (represents_insert pod_state (podsByState pool) M n
      (mkApplicationPod (podName p) (pod_state p) (pod_sessions p ∖ {[UID session]}))); [done|].
    intros old Hold. by simplify_eq.
Qed.

Lemma addSession_repr pool M N id ptr session :
  pool_repr pool M N ->
  match session_pool_state session with
  | None => pool_repr (addSession pool id ptr session) (release session M) (delete (UID session) N)
  | Some st =>
    pool_repr (addSession pool id ptr session)
      (match PodReference (Status session) with
       | Some n => put_pod n PodStateAllocated [UID session] M | None => M end)
      (<[id := mkPoolSession ptr st]> N)
  end.
Proof.
  intros Hr. unfold addSession. destruct (session_pool_state session) as [st|];
    [|by apply deleteSession_repr].
  change (getSessionNoLock pool id) with (getSession pool id).
  rewrite (getSession_repr pool M N id Hr).
  match goal with |- pool_repr (match _ with Some _ => (addOrUpdatePodNoLock ?p _ _ _).2 | None => _ end) _ _ =>
    set (pool' := p) end.
  assert (pool_repr pool' M (<[id := mkPoolSession ptr st]> N)) as Hr'.
  { destruct Hr as [HB HS Hn]. subst pool'.
    destruct (N !! id) as [s|] eqn:Hs; [case_decide as Hst|]; split; simpl; try done.
    - apply (represents_insert ps_state (sessions pool) N id (mkPoolSession ptr st)); [done|].
      intros old Hold. by simplify_eq/=.
    - pose proof (represents_delete ps_state (sessions pool) N id s HS Hs) as Hd.
      pose proof (represents_insert ps_state _ _ id (mkPoolSession ptr st) Hd) as Hi.
      rewrite insert_delete_eq in Hi. apply Hi. intros old. by rewrite lookup_delete_eq.
    - apply (represents_insert ps_state (sessions pool) N id (mkPoolSession ptr st)); [done|].
      intros old Hold. by simplify_eq/=. }
  destruct (PodReference (Status session)) as [n|]; [|done].
  by apply addOrUpdatePodNoLock_repr.
Qed.
End PoolLemmas.

(** ** Properties of a pool *)

Section PoolTheorems.
Context {GR : GoRange}.
Implicit Types (pool : ApplicationPool) (h : SessionHeap).

(** Every change a pool undergoes. *)
Inductive pool_step : ApplicationPool -> ApplicationPool -> Prop :=
  | step_addOrUpdatePod pool n st ids : pool_step pool (addOrUpdatePod pool n st ids).2
  | step_deletePod pool n : pool_step pool (deletePod pool n)
  | step_deleteSession pool session : pool_step pool (deleteSession pool session)
  | step_updateSessionPool now pool h ptr : pool_step pool (updateSessionPool now pool h ptr).1.

Lemma updateSessionPool_repr now pool h ptr M N :
  pool_repr pool M N -> exists M' N', pool_repr (updateSessionPool now pool h ptr).1 M' N'.
Proof.
  intros Hr. unfold updateSessionPool. destruct (h !! ptr) as [session|]; [|by eauto].
  destruct (SessionInTerminalState session); simpl; [by eauto using deleteSession_repr|].
  set (s' := map_om (om_set_CreationTimestamp now) session).
  pose proof (addSession_repr pool M N (UID s') ptr s' Hr) as Ha.
  destruct (session_pool_state s'); eauto.
Qed.

Lemma pool_step_repr pool pool' M N :
  pool_step pool pool' -> pool_repr pool M N -> exists M' N', pool_repr pool' M' N'.
Proof.
  destruct 1; intros Hr; eauto using addOrUpdatePod_repr, deletePod_repr, deleteSession_repr,
    updateSessionPool_repr.
Qed.

Lemma pool_reachable_repr name pool :
  rtc pool_step (NewApplicationPool name) pool -> exists M N, pool_repr pool M N.
Proof.
  intros Hr.
  assert (exists M N, pool_repr (NewApplicationPool name) M N) as H0
    by eauto using NewApplicationPool_repr.
  revert H0. induction Hr as [|p1 p2 p3 Hs _ IH]; [done|].
  intros (M & N & Hr1). by eapply IH, pool_step_repr.
Qed.

Lemma pod_states_all : NoDup [PodStatePending; PodStateAllocated; PodStateDeleting; PodStateIdle] /\
  forall st, st ∈ [PodStatePending; PodStateAllocated; PodStateDeleting; PodStateIdle].
Proof. split; [repeat constructor; set_solver|intros []; set_solver]. Qed.

Lemma session_states_all :
  NoDup [SessionStatePending; SessionStateStarting; SessionStateRunning; SessionStateDeleting] /\
  forall st, st ∈ [SessionStatePending; SessionStateStarting; SessionStateRunning; SessionStateDeleting].
Proof. split; [repeat constructor; set_solver|intros []; set_solver]. Qed.

Lemma podLength_repr pool M N : pool_repr pool M N -> podLength pool = size M.
Proof. intros [HB _ _]. by apply (length_buckets pod_state _ _ M (proj1 pod_states_all) (proj2 pod_states_all)). Qed.

Lemma sessionLength_repr pool M N : pool_repr pool M N -> sessionLength pool = size N.
Proof.
  intros [_ HB _].
  by apply (length_buckets ps_state _ _ N (proj1 session_states_all) (proj2 session_states_all)).
Qed.

(** In every pool the operations can build, a pod name and a session id are each filed under
    exactly one state, the state they carry, and the lengths count each of them once. *)
Theorem pool_partitioned name pool :
  rtc pool_step (NewApplicationPool name) pool ->
  (forall st n p, pods_in pool st !! n = Some p -> podName p = n /\ pod_state p = st) /\
  (forall st1 st2 n p1 p2, pods_in pool st1 !! n = Some p1 -> pods_in pool st2 !! n = Some p2 ->
     st1 = st2 /\ p1 = p2) /\
  (forall st id s, sessions_in pool st !! id = Some s -> ps_state s = st) /\
  (forall st1 st2 id s1 s2, sessions_in pool st1 !! id = Some s1 ->
     sessions_in pool st2 !! id = Some s2 -> st1 = st2 /\ s1 = s2) /\
  podLength pool = (size (pods_in pool PodStatePending) + size (pods_in pool PodStateAllocated) +
    size (pods_in pool PodStateDeleting) + size (pods_in pool PodStateIdle))%nat.
Proof.
  intros (M & N & Hr)%pool_reachable_repr. pose proof Hr as [HB HS Hn]. unfold pods_in, sessions_in.
  split; [|split; [|split; [|split]]].
  - intros st n p [Hp Hst]%(lookup_bucket pod_state _ M); [|done]. split; [by apply Hn|done].
  - intros st1 st2 n p1 p2 [H1 <-]%(lookup_bucket pod_state _ M) [H2 <-]%(lookup_bucket pod_state _ M);
      [|done..]. by simplify_eq.
  - intros st id s [_ Hst]%(lookup_bucket ps_state _ N); done.
  - intros st1 st2 id s1 s2 [H1 <-]%(lookup_bucket ps_state _ N) [H2 <-]%(lookup_bucket ps_state _ N);
      [|done..]. by simplify_eq.
  - rewrite (podLength_repr pool M N Hr), !(bucket_eq pod_state _ M) by done.
    rewrite <- (size_buckets pod_state _ M (proj1 pod_states_all) (fun a => proj2 pod_states_all _)).
    csimpl. lia.
Qed.

(** A pod never goes back.  [addOrUpdatePod] leaves a pod that is being deleted in that state
    and never makes a pod pending again; every move it does make is the requested one, it keeps
    the sessions the pod already had, and it touches no other pod and no session. *)
Theorem pod_state_never_reverts pool M N n st ids :
  pool_repr pool M N ->
  let pool' := (addOrUpdatePod pool n st ids).2 in
  (forall p, getPod pool n = Some p ->
     exists p', getPod pool' n = Some p' /\
       (pod_state p = PodStateDeleting -> pod_state p' = PodStateDeleting) /\
       (pod_state p <> PodStatePending -> pod_state p' <> PodStatePending) /\
       (pod_state p' = pod_state p \/ pod_state p' = st) /\ pod_sessions p ⊆ pod_sessions p') /\
  (getPod pool n = None -> getPod pool' n = Some (mkApplicationPod n st (list_to_set ids ∪ ∅))) /\
  (forall m, m <> n -> getPod pool' m = getPod pool m) /\
  (forall id, getSession pool' id = getSession pool id).
Proof.
  intros Hr pool'. pose proof (addOrUpdatePod_repr pool M N n st ids Hr) as Hr'. fold pool' in Hr'.
  split; [|split; [|split]].
  - intros p Hp. rewrite (getPod_repr _ _ _ _ Hr) in Hp. rewrite Hp in Hr'.
    rewrite (getPod_repr _ _ _ _ Hr'). unfold put_pod, sessions_of.
    destruct (may_move (pod_state p) st) eqn:Hm; [|by exists p; rewrite Hp; auto 10].
    rewrite lookup_insert_eq. eexists. split; [done|]. simpl. rewrite Hp.
    unfold may_move in Hm. destruct (pod_state p), st; try done; repeat split; auto; set_solver.
  - intros Hn. rewrite (getPod_repr _ _ _ _ Hr) in Hn. rewrite Hn in Hr'.
    rewrite (getPod_repr _ _ _ _ Hr'). unfold put_pod, sessions_of. by rewrite lookup_insert_eq, Hn.
  - intros m Hm. rewrite (getPod_repr _ _ _ _ Hr), (getPod_repr _ _ _ _ Hr').
    destruct (M !! n) as [p|]; [destruct (may_move _ _)|]; unfold put_pod; by rewrite ?lookup_insert_ne.
  - intros id. by rewrite (getSession_repr _ _ _ _ Hr), (getSession_repr _ _ _ _ Hr').
Qed.

(** Closing the last session of an allocated pod makes it available again.  Deleting a session
    removes it from the pool and from the pod it refers to; that pod becomes idle exactly when it
    was allocated and has no session left, and no other pod changes. *)
Theorem delete_session_frees_pod pool M N session n p :
  pool_repr pool M N -> PodReference (Status session) = Some n -> getPod pool n = Some p ->
  let pool' := deleteSession pool session in
  getSession pool' (UID session) = None /\
  (exists p', getPod pool' n = Some p' /\ pod_sessions p' = pod_sessions p ∖ {[UID session]} /\
     (pod_state p' = PodStateIdle <->
        pod_state p = PodStateIdle \/
        (pod_state p = PodStateAllocated /\ pod_sessions p ⊆ {[UID session]})) /\
     (pod_state p' <> pod_state p -> pod_state p = PodStateAllocated)) /\
  (forall m, m <> n -> getPod pool' m = getPod pool m) /\
  (forall id, id <> UID session -> getSession pool' id = getSession pool id).
Proof.
  intros Hr Hn Hp pool'. pose proof (deleteSession_repr pool M N session Hr) as Hr'. fold pool' in Hr'.
  unfold release in Hr'. rewrite Hn in Hr'. rewrite (getPod_repr _ _ _ _ Hr) in Hp.
  split; [|split; [|split]].
  - by rewrite (getSession_repr _ _ _ _ Hr'), lookup_delete_eq.
  - rewrite (getPod_repr _ _ _ _ Hr'), lookup_alter_eq, Hp. eexists. split; [done|].
    unfold release_pod. simpl. split; [done|].
    assert (pod_sessions p ∖ {[UID session]} = ∅ <-> pod_sessions p ⊆ {[UID session]}) as He
      by (split; [apply empty_difference_subseteq_L|apply subseteq_empty_difference_L]).
    case_decide as Hd; split; try done; try (by intros _; apply Hd).
    + rewrite He in Hd. tauto.
    + rewrite He in Hd. split; [auto|]. intros [?|[? ?]]; [done|]. by destruct Hd.
  - intros m Hm. rewrite (getPod_repr _ _ _ _ Hr), (getPod_repr _ _ _ _ Hr').
    by rewrite lookup_alter_ne.
  - intros id Hid. rewrite (getSession_repr _ _ _ _ Hr), (getSession_repr _ _ _ _ Hr').
    by rewrite lookup_delete_ne.
Qed.

(** Where the status of a session puts it. *)
Definition filed_under (session : ApplicationSession) : option ApplicationSessionState :=
  match DeletionTimestamp session, SessionStatus (Status session) with
  | Some _, _ => Some SessionStateDeleting
  | None, (SessionStatusUnspecified | SessionStatusPending) => Some SessionStatePending
  | None, (SessionStatusClosed | SessionStatusTimeout) => None
  | None, _ => Some SessionStateRunning
  end.

Lemma session_pool_state_filed session : session_pool_state session = filed_under session.
Proof.
  unfold session_pool_state, filed_under, SessionIsOpen, SessionIsStarting, SessionIsPending,
    SessionIsClosing. destruct (DeletionTimestamp session) as [t|]; [by rewrite bool_decide_eq_true_2|].
  rewrite bool_decide_eq_false_2 by (by intros [? ?]).
  by destruct (SessionStatus (Status session)).
Qed.

(** A session is filed by its status: deleting when its deletion was requested, pending while
    it has no pod, running from the moment it is started until it is closed, and not at all once
    it is closed or timed out; the pod it refers to is allocated to it. *)
Theorem session_filed_by_status pool M N ptr session :
  pool_repr pool M N ->
  let pool' := addSession pool (UID session) ptr session in
  getSession pool' (UID session) = mkPoolSession ptr <$> filed_under session /\
  (forall id, id <> UID session -> getSession pool' id = getSession pool id) /\
  (forall st n, filed_under session = Some st -> PodReference (Status session) = Some n ->
     exists p, getPod pool' n = Some p /\ pod_state p = PodStateAllocated /\
       UID session ∈ pod_sessions p) /\
  (PodReference (Status session) = None -> forall n, getPod pool' n = getPod pool n).
Proof.
  intros Hr pool'. pose proof (addSession_repr pool M N (UID session) ptr session Hr) as Hr'.
  fold pool' in Hr'. rewrite session_pool_state_filed in Hr'.
  destruct (filed_under session) as [st|] eqn:Hf; split_and!.
  - by rewrite (getSession_repr _ _ _ _ Hr'), lookup_insert_eq.
  - intros id Hid. by rewrite (getSession_repr _ _ _ _ Hr'), (getSession_repr _ _ _ _ Hr), lookup_insert_ne.
  - intros ? n _ Hn. rewrite (getPod_repr _ _ _ _ Hr'), Hn. unfold put_pod.
    rewrite lookup_insert_eq. eexists. split; [done|]. simpl. split; [done|]. set_solver.
  - intros Hn n. by rewrite (getPod_repr _ _ _ _ Hr'), (getPod_repr _ _ _ _ Hr), Hn.
  - by rewrite (getSession_repr _ _ _ _ Hr'), lookup_delete_eq.
  - intros id Hid. by rewrite (getSession_repr _ _ _ _ Hr'), (getSession_repr _ _ _ _ Hr), lookup_delete_ne.
  - done.
  - intros Hn n. rewrite (getPod_repr _ _ _ _ Hr'), (getPod_repr _ _ _ _ Hr). unfold release.
    by rewrite Hn.
Qed.

Lemma filter_bool_split {A} (f : A -> bool) (l : list A) :
  filter (fun x => f x = false) l ++ filter (fun x => f x = true) l ≡ₚ l.
Proof.
  induction l as [|x l IH]; [done|]. rewrite !filter_cons. destruct (f x) eqn:E; simpl.
  - rewrite <- Permutation_middle. by constructor.
  - by constructor.
Qed.

(** The application worker sees every session that is not running, once: the pending, timed out
    and deleting lists together are the sessions filed under pending, starting and deleting, and a
    session is in the timed out list exactly when its open timeout has passed since it was
    (re)filed. *)
Theorem non_running_sessions_split pool M N h now pend del tmo :
  pool_repr pool M N -> getNonRunningSessions pool h now = (pend, del, tmo) ->
  (forall s, s ∈ pend <-> exists id, N !! id = Some s /\
     (ps_state s = SessionStatePending \/ ps_state s = SessionStateStarting) /\
     timed_out h now s = false) /\
  (forall s, s ∈ tmo <-> exists id, N !! id = Some s /\
     (ps_state s = SessionStatePending \/ ps_state s = SessionStateStarting) /\
     timed_out h now s = true) /\
  (forall s, s ∈ del <-> exists id, N !! id = Some s /\ ps_state s = SessionStateDeleting) /\
  (List.length pend + List.length tmo + List.length del =
    size (sessions_in pool SessionStatePending) + size (sessions_in pool SessionStateStarting) +
    size (sessions_in pool SessionStateDeleting))%nat.
Proof.
  intros [_ HS _] [= <- <- <-].
  assert (forall st s, s ∈ (range (sessions_in pool st)).*2 <-> exists id, N !! id = Some s /\ ps_state s = st)
    as Hin.
  { intros st s. rewrite list_elem_of_fmap. split.
    - intros ([id s'] & -> & Hid%elem_of_range). exists id. by apply (lookup_bucket ps_state _ N) in Hid.
    - intros (id & Hid). exists (id, s). split; [done|]. apply elem_of_range.
      by apply (lookup_bucket ps_state _ N). }
  assert (forall b st s, s ∈ non_running pool h now b st <->
    timed_out h now s = b /\ exists id, N !! id = Some s /\ ps_state s = st) as Hnr.
  { intros b st s. unfold non_running. by rewrite list_elem_of_filter, Hin. }
  split; [|split; [|split]].
  - intros s. rewrite elem_of_app, !Hnr. naive_solver.
  - intros s. rewrite elem_of_app, !Hnr. naive_solver.
  - intros s. apply Hin.
  - assert (forall st, (List.length (non_running pool h now false st) +
      List.length (non_running pool h now true st) = size (sessions_in pool st))%nat) as Hlen.
    { intros st. rewrite <- length_range, <- (length_fmap snd), <- length_app.
      unfold non_running. by rewrite filter_bool_split. }
    pose proof (Hlen SessionStatePending). pose proof (Hlen SessionStateStarting).
    rewrite !length_app, length_fmap, length_range. lia.
Qed.
End PoolTheorems.

(** ** Concrete pools *)

Definition example_session (id : string) (st : SessionStatusT) (pod : option string) :
    ApplicationSession :=
  mkObject (mkObjectMeta id "ns" id "1" 0 None None ∅ ∅ [])
    (mkSessionSpec "app" "data" false None 0) (mkSessionStatus pod [] st [] None None 0).

(** One idle pod, one allocated pod with the session "s1", one pending session "s2". *)
Definition example_pool : ApplicationPool :=
  let pool := (addOrUpdatePod (NewApplicationPool "ns/app") "ns/p1" PodStatePending []).2 in
  let pool := (addOrUpdatePod pool "ns/p1" PodStateIdle []).2 in
  let h : SessionHeap := {[ 1%nat := example_session "s1" SessionStatusAvailable (Some "ns/p2");
                            2%nat := example_session "s2" SessionStatusPending None ]} in
  let pool := (updateSessionPool 5 pool h 1).1 in
  (updateSessionPool 6 pool h 2).1.

Lemma example_pool_reachable : rtc pool_step (NewApplicationPool "ns/app") example_pool.
Proof.
  eapply rtc_r; [|apply step_updateSessionPool]. eapply rtc_r; [|apply step_updateSessionPool].
  eapply rtc_r; [|apply step_addOrUpdatePod]. eapply rtc_r; [|apply step_addOrUpdatePod].
  apply rtc_refl.
Qed.

Definition example_pods : gmap string ApplicationPod :=
  {[ "ns/p1" := mkApplicationPod "ns/p1" PodStateIdle ∅;
     "ns/p2" := mkApplicationPod "ns/p2" PodStateAllocated {[ "s1" ]} ]}.
Definition example_sessions : gmap string PoolSession :=
  {[ "s1" := mkPoolSession 1 SessionStateRunning; "s2" := mkPoolSession 2 SessionStatePending ]}.

Lemma example_pool_repr : pool_repr example_pool example_pods example_sessions.
Proof.
  split; [intros []; vm_compute; reflexivity|intros []; vm_compute; reflexivity|].
  intros n p. unfold example_pods.
  by intros [[<- <-]|[_ [<- <-]%lookup_singleton_Some]]%lookup_insert_Some.
Qed.

Lemma pool_partitioned_witness :
  podLength example_pool = 2%nat /\
  forall st n p, pods_in example_pool st !! n = Some p -> podName p = n /\ pod_state p = st.
Proof.
  split; [vm_compute; reflexivity|].
  destruct (pool_partitioned "ns/app" example_pool example_pool_reachable) as [H _]. exact H.
Defined.

Lemma pod_state_never_reverts_witness :
  exists p', getPod (addOrUpdatePod example_pool "ns/p2" PodStatePending []).2 "ns/p2" = Some p' /\
    pod_state p' <> PodStatePending.
Proof.
  destruct (pod_state_never_reverts example_pool example_pods example_sessions "ns/p2"
    PodStatePending [] example_pool_repr) as [H _].
  destruct (H (mkApplicationPod "ns/p2" PodStateAllocated {[ "s1" ]})) as (p' & Hp' & _ & Hst & _);
    [vm_compute; reflexivity|].
  exists p'. split; [exact Hp'|]. apply Hst. discriminate.
Defined.

Lemma delete_session_frees_pod_witness :
  exists p', getPod (deleteSession example_pool
      (example_session "s1" SessionStatusClosed (Some "ns/p2"%string))) "ns/p2" = Some p' /\
    pod_state p' = PodStateIdle.
Proof.
  destruct (delete_session_frees_pod example_pool example_pods example_sessions
    (example_session "s1" SessionStatusClosed (Some "ns/p2"%string)) "ns/p2"
    (mkApplicationPod "ns/p2" PodStateAllocated {[ "s1" ]}) example_pool_repr)
    as (_ & (p' & Hp' & _ & Hst & _) & _); [reflexivity|vm_compute; reflexivity|].
  exists p'. split; [exact Hp'|]. apply Hst. right. split; [reflexivity|]. done.
Defined.

Lemma session_filed_by_status_witness :
  getSession (addSession example_pool "s3" 3 (example_session "s3" SessionStatusPending None)) "s3" =
  Some (mkPoolSession 3 SessionStatePending).
Proof.
  destruct (session_filed_by_status example_pool example_pods example_sessions 3
    (example_session "s3" SessionStatusPending None) example_pool_repr) as [H _]. exact H.
Defined.

Lemma non_running_sessions_split_witness :
  let h : SessionHeap := {[ 2%nat := example_session "s2" SessionStatusPending None ]} in
  exists pend del tmo, getNonRunningSessions example_pool h 7 = (pend, del, tmo) /\
    (List.length pend + List.length tmo + List.length del = 1)%nat.
Proof.
  intros h. eexists _, _, _. split; [reflexivity|].
  destruct (non_running_sessions_split example_pool example_pods example_sessions h 7 _ _ _
    example_pool_repr eq_refl) as (_ & _ & _ & H). exact H.
Defined.

(** ** Two ways the pool departs from its comments *)

(** A starting session is filed as running, never as starting, because [SessionIsOpen] already
    accepts it: whatever the clock says it is in none of the lists of non-running sessions, so a
    session whose pod never answers does not time out. *)
Theorem starting_session_never_times_out {GR : GoRange} pool M N h now ptr session :
  pool_repr pool M N -> SessionStatus (Status session) = SessionStatusStarting ->
  DeletionTimestamp session = None ->
  getSession (addSession pool (UID session) ptr session) (UID session) =
    Some (mkPoolSession ptr SessionStateRunning) /\
  forall s, s ∈ (getNonRunningSessions (addSession pool (UID session) ptr session) h now).1.1 \/
            s ∈ (getNonRunningSessions (addSession pool (UID session) ptr session) h now).2 ->
    ps_state s <> SessionStateRunning.
Proof.
  intros Hr Hst Hd. pose proof (addSession_repr pool M N (UID session) ptr session Hr) as Hr'.
  rewrite session_pool_state_filed in Hr'. unfold filed_under in Hr'. rewrite Hd, Hst in Hr'.
  split; [by rewrite (getSession_repr _ _ _ _ Hr'), lookup_insert_eq|]. intros s.
  assert (forall b st, s ∈ non_running (addSession pool (UID session) ptr session) h now b st ->
    ps_state s = st) as Hnr.
  { intros b st. unfold non_running. rewrite list_elem_of_filter, list_elem_of_fmap.
    intros (_ & [id s'] & -> & Hid%elem_of_range).
    by apply (lookup_bucket ps_state _ _ _ _ _ (pr_sessions _ _ _ Hr')) in Hid as [_ ?]. }
  simpl. rewrite !elem_of_app. intros [[Hs|Hs]|[Hs|Hs]]; by rewrite (Hnr _ _ Hs).
Qed.

Lemma starting_session_never_times_out_witness :
  getSession (addSession example_pool "s3" 3
    (example_session "s3" SessionStatusStarting (Some "ns/p1"%string))) "s3" =
  Some (mkPoolSession 3 SessionStateRunning).
Proof.
  destruct (starting_session_never_times_out example_pool example_pods example_sessions ∅ 0 3
    (example_session "s3" SessionStatusStarting (Some "ns/p1"%string)) example_pool_repr)
    as [H _]; [reflexivity|reflexivity|exact H].
Defined.

(** Filing a session does not go through the guards of [addOrUpdatePod]: a pod that is being deleted
    becomes allocated again when an event of a session on it arrives. *)
Lemma session_event_revives_deleting_pod :
  let pool := (addOrUpdatePod example_pool "ns/p2" PodStateDeleting []).2 in
  pod_state <$> getPod pool "ns/p2" = Some PodStateDeleting /\
  pod_state <$> getPod (addSession pool "s1" 1
    (example_session "s1" SessionStatusInUse (Some "ns/p2"%string))) "ns/p2" = Some PodStateAllocated.
Proof. vm_compute. split; reflexivity. Qed.
