(* ===== verification/AppManager.v ===== *)
(** * The application manager

    [application_manager.go], [application_session.go] and [application_pod.go] of
    [pkg/fornaxcore/application].  The manager owns the pools and the session objects; pods,
    node agents and stored objects are reached through [ie.PodManagerInterface],
    [ie.SessionManagerInterface] and the application store, here the class [Collaborators] over
    the state [W] behind those interfaces.

    A handler runs as one step.  [time.Now()] is read once per call and passed as [now]; the
    random part of a pod name is an argument.  Calls on the work queue are recorded in order. *)

From S2P Require Import Prelude GoStrings ApiTypes Interfaces AppPool.
From Stdlib Require Import String.
#[local] Open Scope Z_scope.

(** ** The interfaces *)

Class Collaborators {CG : ClientGo} {QL : QuantityLib} (W : Type) := {
  FindPod : W -> string -> option Pod;
  TerminatePod : string -> SM W unit;
  AddOrUpdatePod : string -> Pod -> SM W Pod;
  (** the pod found is a pointer into the cache of the pod manager; the one write made through it *)
  ClearDeletionTimestamp : string -> W -> W;
  OpenSession : Pod -> ApplicationSession -> SM W unit;
  CloseSession : Pod -> ApplicationSession -> SM W unit;
  UpdateSessionStatus : ApplicationSession -> ApplicationSessionStatus -> SM W unit;
  GetApplicationCache : W -> string -> result (option Application);
  UpdateApplicationStatus : Application -> ApplicationStatus -> SM W unit
}.

Inductive QueueCall :=
  | QAdd (key : string)
  | QAddAfter (key : string) (duration : Z)
  | QAddRateLimited (key : string)
  | QForget (key : string)
  | QDone (key : string).

Record ApplicationManager (W : Type) := mkAM {
  applicationPools : gmap string ApplicationPool;
  session_heap : SessionHeap;
  next_session : nat;
  applicationQueue : list QueueCall;
  world : W
}.
Arguments mkAM {W}.
Arguments applicationPools {W}.
Arguments session_heap {W}.
Arguments next_session {W}.
Arguments applicationQueue {W}.
Arguments world {W}.

Definition DefaultApplicationSyncErrorRecycleDuration : Z := 10 * 10 ^ 9.
Definition DefaultPodDeletingTimeoutDuration : Z := 30 * 10 ^ 9.
Definition DefaultPodPendingTimeoutDuration : Z := 30 * 10 ^ 9.

Section Manager.
Context {GR : GoRange} {GS : GoSort} {CG : ClientGo} {QL : QuantityLib} {W : Type}
  {CO : Collaborators W}.
Abbreviation AM := (ApplicationManager W).
Implicit Types am : AM.

(** ** Access to the state *)

Definition set_pools p am : AM :=
  mkAM p (session_heap am) (next_session am) (applicationQueue am) (world am).
Definition set_heap h am : AM :=
  mkAM (applicationPools am) h (next_session am) (applicationQueue am) (world am).
Definition set_world w am : AM :=
  mkAM (applicationPools am) (session_heap am) (next_session am) (applicationQueue am) w.
Definition queue_call (c : QueueCall) am : AM :=
  mkAM (applicationPools am) (session_heap am) (next_session am) (applicationQueue am ++ [c]) (world am).

(** A call through one of the interfaces. *)
Definition call {A} (c : SM W A) : SM AM A := fun am =>
  let '(r, w) := c (world am) in (r, set_world w am).

Definition getApplicationPool am (key : string) : option ApplicationPool := applicationPools am !! key.

(** [*pool] for the pool of an application; the pointer comes from the map. *)
Definition the_pool am (key : string) : ApplicationPool :=
  default (NewApplicationPool key) (applicationPools am !! key).
Definition put_pool (key : string) (pool : ApplicationPool) : SM AM unit :=
  sm_modify (fun am => set_pools (<[key := pool]> (applicationPools am)) am).
Definition on_pool (key : string) (f : ApplicationPool -> ApplicationPool) : SM AM unit :=
  sm_modify (fun am => set_pools (<[key := f (the_pool am key)]> (applicationPools am)) am).

Definition deleteApplicationPool (key : string) : SM AM unit :=
  sm_modify (fun am => set_pools (delete key (applicationPools am)) am).

Definition getOrCreateApplicationPool (key : string) : SM AM unit :=
  sm_modify (fun am =>
    match getApplicationPool am key with
    | Some _ => am
    | None => set_pools (<[key := NewApplicationPool key]> (applicationPools am)) am
    end).

Definition enqueueApplication (key : string) : SM AM unit := sm_modify (queue_call (QAdd key)).

(** [*session]; a nil pointer would panic. *)
Definition load (ptr : nat) : SM AM ApplicationSession := fun am =>
  match session_heap am !! ptr with
  | Some s => (Ok s, am)
  | None => (Err (OtherError "panic: nil pointer"), am)
  end.
Definition store_session (ptr : nat) (s : ApplicationSession) : SM AM unit :=
  sm_modify (fun am => set_heap (<[ptr := s]> (session_heap am)) am).

(** The object an event carries gets an address. *)
Definition new_session (s : ApplicationSession) : SM AM nat := fun am =>
  (Ok (next_session am),
   mkAM (applicationPools am) (<[next_session am := s]> (session_heap am))
     (next_session am + 1)%nat (applicationQueue am) (world am)).

Definition update_session_pool (now : Z) (key : string) (ptr : nat) : SM AM unit :=
  sm_modify (fun am =>
    let '(pool, h) := updateSessionPool now (the_pool am key) (session_heap am) ptr in
    set_heap h (set_pools (<[key := pool]> (applicationPools am)) am)).

(** ** Sessions ([application_session.go]) *)

Definition changeSessionStatus (ptr : nat) (status : SessionStatusT) : SM AM unit :=
  do! session <- load ptr ;
  let newStatus := set_SessionStatus status (Status session) in
  let newStatus :=
    if decide (status = SessionStatusClosed \/ status = SessionStatusTimeout)
    then set_ClientSessions [] newStatus else newStatus in
  let session := set_Status newStatus session in
  do! _ <- store_session ptr session ;
  call (UpdateSessionStatus session newStatus).

(** [newStatus.AccessEndPoints = append(session.Status.AccessEndPoints, ...)]: every port starts
    again from the old list, so the last one is the only one added. *)
Definition bind_endpoints (pod : Pod) (old : list AccessEndPoint) : list AccessEndPoint :=
  foldl (fun acc cont =>
    foldl (fun _ port => old ++ [mkAccessEndPoint (cp_Protocol port) (cp_HostIP port) (cp_HostPort port)])
      acc (c_Ports cont)) old (Containers (Spec pod)).

Definition bindSessionToPod (now : Z) (key : string) (pod : Pod) (ptr : nat) : SM AM unit :=
  do! session <- load ptr ;
  let oldStatus := Status session in
  let newStatus := set_PodReference (Some (Name pod))
    (set_AccessEndPoints (bind_endpoints pod (AccessEndPoints oldStatus))
      (set_SessionStatus SessionStatusStarting oldStatus)) in
  let bound := set_Status newStatus session in
  do! _ <- store_session ptr bound ;
  do! r <- sm_try (call (OpenSession pod bound)) ;
  match r with
  | Err e => do! _ <- store_session ptr session ; sm_fail e
  | Ok _ => update_session_pool now key ptr
  end.

Definition deleteApplicationSession (now : Z) (key : string) (s : PoolSession) : SM AM unit :=
  let ptr := ps_session s in
  do! session <- load ptr ;
  let session :=
    match DeletionTimestamp session with
    | Some _ => map_om (om_set_DeletionTimestamp (Some now)) session
    | None => session
    end in
  do! _ <- store_session ptr session ;
  if SessionIsClosing session then sm_ret ()
  else if SessionIsOpen session then
    match PodReference (Status session) with
    | Some podName =>
      do! am <- sm_get ;
      match FindPod (world am) podName with
      | Some pod =>
        do! _ <- sm_try (changeSessionStatus ptr SessionStatusClosing) ;
        do! session <- load ptr ;
        call (CloseSession pod session)
      | None => do! _ <- sm_try (changeSessionStatus ptr SessionStatusClosed) ; sm_ret ()
      end
    | None => sm_ret ()
    end
  else
    do! _ <- (if SessionIsPending session then changeSessionStatus ptr SessionStatusTimeout
              else sm_ret ()) ;
    do! session <- load ptr ;
    on_pool key (fun pool => deleteSession pool session).

(** [PendingSessions.Less]; the pointers of a pool are never nil. *)
Definition creation_of (h : SessionHeap) (s : PoolSession) : Z :=
  match session_of h s with Some session => om_CreationTimestamp (om session) | None => 0 end.
Definition PendingSessions_Less (h : SessionHeap) (s1 s2 : PoolSession) : bool :=
  creation_of h s1 <? creation_of h s2.

(** The loop that gives pending sessions to idle pods, with the errors it collected. *)
Fixpoint assign_sessions (now : Z) (key : string) (idlePods : list ApplicationPod)
    (pendingSessions : list PoolSession) : SM AM (list GoError) :=
  match idlePods, pendingSessions with
  | [], _ | _, [] => sm_ret []
  | ap :: idlePods, as_ :: rest =>
    do! am <- sm_get ;
    match FindPod (world am) (podName ap) with
    | Some pod =>
      do! r <- sm_try (bindSessionToPod now key pod (ps_session as_)) ;
      match r with
      | Err e =>
        do! errs <- assign_sessions now key idlePods (as_ :: rest) ;
        sm_ret (e :: errs)
      | Ok _ =>
        do! session <- load (ps_session as_) ;
        do! _ <- on_pool key (fun pool =>
          (addOrUpdatePod pool (podName ap) PodStateAllocated [UID session]).2) ;
        assign_sessions now key idlePods rest
      end
    | None => assign_sessions now key idlePods (as_ :: rest)
    end
  end.

Definition deployApplicationSessions (now : Z) (key : string) : SM AM unit :=
  do! am <- sm_get ;
  let pool := the_pool am key in
  let '(pendingSessions, deletingSessions, timeoutSessions) :=
    getNonRunningSessions pool (session_heap am) now in
  let idlePods := getSomeIdlePods pool (List.length pendingSessions) in
  let pendingSessions := gosort (PendingSessions_Less (session_heap am)) pendingSessions in
  do! errs1 <- assign_sessions now key idlePods pendingSessions ;
  do! errs2 <- sm_collect timeoutSessions (deleteApplicationSession now key) ;
  do! errs3 <- sm_collect deletingSessions (deleteApplicationSession now key) ;
  match errs1 ++ errs2 ++ errs3 with
  | [] => sm_ret ()
  | errs => sm_fail (AggregateError (List.length errs))
  end.

Definition cleanupSessionOnDeletedPod (now : Z) (key podName : string) : SM AM unit :=
  do! am <- sm_get ;
  do! _ <- sm_collect (getPodSessions (the_pool am key) podName) (deleteApplicationSession now key) ;
  sm_ret ().

Definition cleanupSessionOfApplication (now : Z) (key : string) : SM AM unit :=
  do! am <- sm_get ;
  do! errs <- sm_collect (sessionList (the_pool am key)) (deleteApplicationSession now key) ;
  match errs with [] => sm_ret () | _ => sm_fail (AggregateError (List.length errs)) end.

(** The events of the session store.  [onApplicationSessionUpdateEvent] only logs the old copy. *)
Definition onApplicationSessionUpdateEvent (now : Z) (ptr : nat) : SM AM unit :=
  do! newCopy <- load ptr ;
  let key := getSessionApplicationKey newCopy in
  do! _ <- getOrCreateApplicationPool key ;
  do! am <- sm_get ;
  match getSession (the_pool am key) (UID newCopy) with
  | Some _ => do! _ <- update_session_pool now key ptr ; enqueueApplication key
  | None =>
    do! _ <- (if negb (SessionInTerminalState newCopy) then update_session_pool now key ptr
              else sm_ret ()) ;
    enqueueApplication key
  end.

Definition onApplicationSessionDeleteEvent (now : Z) (session : ApplicationSession) : SM AM unit :=
  let key := getSessionApplicationKey session in
  do! am <- sm_get ;
  match getApplicationPool am key with
  | None => sm_ret ()
  | Some pool =>
    do! _ <-
      match getSession pool (UID session) with
      | Some oldCopy =>
        do! old <- load (ps_session oldCopy) ;
        do! _ <- (match DeletionTimestamp old with
                  | None => store_session (ps_session oldCopy)
                              (map_om (om_set_DeletionTimestamp (Some now)) old)
                  | Some _ => sm_ret () end) ;
        update_session_pool now key (ps_session oldCopy)
      | None => sm_ret ()
      end ;
    enqueueApplication key
  end.

Definition onApplicationSessionAddEvent (now : Z) (ptr : nat) : SM AM unit :=
  do! session <- load ptr ;
  match DeletionTimestamp session with
  | Some _ => onApplicationSessionDeleteEvent now session
  | None =>
    let key := getSessionApplicationKey session in
    do! _ <- getOrCreateApplicationPool key ;
    do! am <- sm_get ;
    match getSession (the_pool am key) (UID session) with
    | Some _ => onApplicationSessionUpdateEvent now ptr
    | None =>
      do! _ <- (if negb (SessionInTerminalState session) then update_session_pool now key ptr
                else sm_ret ()) ;
      enqueueApplication key
    end
  end.

Inductive StoreEventType := EventAdded | EventModified | EventDeleted | EventOther.

Definition onSessionEventFromStorage (now : Z) (t : StoreEventType) (session : ApplicationSession) :
    SM AM unit :=
  match t with
  | EventAdded => do! ptr <- new_session session ; onApplicationSessionAddEvent now ptr
  | EventModified => do! ptr <- new_session session ; onApplicationSessionUpdateEvent now ptr
  | EventDeleted => onApplicationSessionDeleteEvent now session
  | EventOther => sm_ret ()
  end.

(** ** Pods ([application_pod.go]) *)

(** [getPodApplicationKey]: the application in the label of the pod, if it is in the store. *)
Definition getPodApplicationKey am (pod : Pod) : result string :=
  match om_Labels (om pod) !! LabelFornaxCoreApplication with
  | None => Ok EmptyString
  | Some applicationLabel =>
    match GetApplicationCache (world am) applicationLabel with
    | Err e => Err e
    | Ok None => Ok EmptyString
    | Ok (Some _) => Ok applicationLabel
    end
  end.

(** The key the handlers go on with: on an error the label is consulted, but only [if !found], and
    a label that is not there reads as the empty string. *)
Definition application_key_or_label am (pod : Pod) : string :=
  match getPodApplicationKey am pod with
  | Ok key => key
  | Err _ =>
    match om_Labels (om pod) !! LabelFornaxCoreApplication with
    | None => EmptyString
    | Some _ => EmptyString
    end
  end.

(** The second half of [deleteApplicationPod]. *)
Definition request_termination (key podName : string) : SM AM unit :=
  do! _ <- on_pool key (fun pool => (addOrUpdatePod pool podName PodStateDeleting []).2) ;
  do! r <- sm_try (call (TerminatePod podName)) ;
  match r with
  | Ok _ => sm_ret ()
  | Err e =>
    if decide (e = PodNotFoundError) then on_pool key (fun pool => deletePod pool podName)
    else sm_fail e
  end.

Definition deleteApplicationPod (now : Z) (key podName : string) : SM AM unit :=
  do! am <- sm_get ;
  match getPod (the_pool am key) podName with
  | None => sm_ret ()
  | Some podState =>
    if decide (pod_state podState = PodStateDeleting) then
      match FindPod (world am) podName with
      | Some pod =>
        match DeletionTimestamp pod with
        | Some t =>
          if t <? now - DefaultPodDeletingTimeoutDuration then
            do! _ <- sm_modify (fun am => set_world (ClearDeletionTimestamp podName (world am)) am) ;
            request_termination key podName
          else sm_ret ()
        | None => sm_ret ()
        end
      | None => sm_ret ()
      end
    else request_termination key podName
  end.

Definition handlePodAddUpdateFromNode (now : Z) (pod : Pod) : SM AM unit :=
  let podName := Name pod in
  do! am <- sm_get ;
  let applicationKey := application_key_or_label am pod in
  if String.eqb applicationKey EmptyString then
    do! _ <- sm_try (call (TerminatePod podName)) ; sm_ret ()
  else
    do! _ <- getOrCreateApplicationPool applicationKey ;
    do! am <- sm_get ;
    let ap := getPod (the_pool am applicationKey) podName in
    let update : SM AM unit :=
      do! _ <-
        (if PodIsPending pod then
           on_pool applicationKey (fun pool => (addOrUpdatePod pool podName PodStatePending []).2)
         else if PodIsRunning pod then
           if (PodHasSession pod).2 then
             on_pool applicationKey (fun pool =>
               (addOrUpdatePod pool podName PodStateAllocated (GetPodSessionNames pod)).2)
           else on_pool applicationKey (fun pool => (addOrUpdatePod pool podName PodStateIdle []).2)
         else sm_ret ()) ;
      enqueueApplication applicationKey in
    match ap with
    | Some ap =>
      match pod_state ap with
      | PodStateDeleting =>
        do! _ <- sm_try (deleteApplicationPod now applicationKey (AppPool.podName ap)) ; sm_ret ()
      | PodStateAllocated => sm_ret ()
      | PodStatePending => if PodIsPending pod then sm_ret () else update
      | PodStateIdle => update
      end
    | None => update
    end.

Definition handlePodDeleteFromNode (now : Z) (pod : Pod) : SM AM unit :=
  let podName := Name pod in
  match DeletionTimestamp pod with
  | None => handlePodAddUpdateFromNode now pod
  | Some _ =>
    do! am <- sm_get ;
    let applicationKey := application_key_or_label am pod in
    if String.eqb applicationKey EmptyString then sm_ret ()
    else
      match getApplicationPool am applicationKey with
      | None => sm_ret ()
      | Some _ =>
        do! _ <- cleanupSessionOnDeletedPod now applicationKey podName ;
        do! _ <- on_pool applicationKey (fun pool => deletePod pool podName) ;
        enqueueApplication applicationKey
      end
  end.

Definition onPodEventFromNode (now : Z) (t : PodEventType) (pod : Pod) : SM AM unit :=
  match om_Labels (om pod) !! LabelFornaxCoreNodeDaemon with
  | Some _ => sm_ret ()
  | None =>
    match t with
    | PodEventTypeCreate | PodEventTypeUpdate => handlePodAddUpdateFromNode now pod
    | PodEventTypeDelete | PodEventTypeTerminate => handlePodDeleteFromNode now pod
    end
  end.

(** What [uuid.New()] and [rand.String(16)] produce for one pod. *)
Record PodSeed := mkPodSeed { seed_uuid : string; seed_rand : string; seed_clock : Z }.

(** The containers of the application with the three variables of the session service. *)
Definition template_container (podKey appKey : string) (v : Container) : Container :=
  mkContainer _ (c_Name v) (c_Image v) (c_Ports v)
    (c_Env v ++ [mkEnvVar LabelFornaxCorePod (EnvLiteral podKey);
                 mkEnvVar LabelFornaxCoreApplication (EnvLiteral appKey);
                 mkEnvVar LabelFornaxCoreSessionService (EnvFieldRef "v1" "status.hostIP")])
    (c_Requests v) (c_Hooks v).

Definition getPodApplicationPodTemplate (now : Z) (uid name : string) (application : Application)
    (standby : bool) : Pod :=
  let annotations : gmap string string :=
    if standby then {[ AnnotationFornaxCoreHibernatePod := "hibernate"%string ]} else ∅ in
  let annotations :=
    if UsingNodeSessionService (Spec application)
    then <[ AnnotationFornaxCoreSessionServicePod := "sessionservicepod"%string ]> annotations
    else annotations in
  let meta := mkObjectMeta name (om_Namespace (om application)) uid "0" now None
    (om_DeletionGracePeriodSeconds (om application))
    {[ LabelFornaxCoreApplication := Name application ]} annotations [] in
  let podKey := MetaNamespaceKeyFunc (om_Namespace meta) (om_Name meta) in
  mkObject meta
    (mkPodSpec _ (template_container podKey (Name application) <$> as_Containers (Spec application)) [] false)
    (mkPodStatus PodPending "" None "" "").

Definition createApplicationPod (now : Z) (seed : PodSeed) (application : Application)
    (standby : bool) : SM AM Pod :=
  let name := String.append (om_Name (om application)) (String.append "-"
    (String.append (seed_rand seed) (String.append "-" (FormatUint (seed_clock seed))))) in
  call (AddOrUpdatePod "" (getPodApplicationPodTemplate now (seed_uuid seed) name application standby)).

(** One loop of [getPodsToBeDelete]: [None] means the quota is reached and the function returns. *)
Fixpoint pick_pods (ok : ApplicationPod -> bool) (l : list ApplicationPod) (desired : Z)
    (acc : list ApplicationPod) : list ApplicationPod * bool :=
  match l with
  | [] => (acc, false)
  | p :: l =>
    if ok p then
      if Z.of_nat (List.length (acc ++ [p])) =? desired then (acc ++ [p], true)
      else pick_pods ok l desired (acc ++ [p])
    else pick_pods ok l desired acc
  end.

Fixpoint pick_rounds (rounds : list ((ApplicationPod -> bool) * list ApplicationPod)) (desired : Z)
    (acc : list ApplicationPod) : list ApplicationPod :=
  match rounds with
  | [] => acc
  | (ok, l) :: rounds =>
    let '(acc, full) := pick_pods ok l desired acc in
    if full then acc else pick_rounds rounds desired acc
  end.

(** The five loops.  [len(pod.Status.HostIP) >= 0] always holds. *)
Definition getPodsToBeDelete am (pool : ApplicationPool) (numOfDesiredDelete : Z) : list ApplicationPod :=
  let found_pod (test : Pod -> bool) (p : ApplicationPod) : bool :=
    match FindPod (world am) (podName p) with None => true | Some pod => test pod end in
  let pendingPods := podListOfState pool PodStatePending in
  let idlePods := podListOfState pool PodStateIdle in
  let unscheduled := found_pod (fun pod => String.eqb (HostIP (Status pod)) EmptyString) in
  pick_rounds
    [ (unscheduled, pendingPods); (unscheduled, pendingPods);
      (found_pod (fun _ => true), pendingPods);
      (found_pod (fun pod => bool_decide (Phase (Status pod) = PodUnknown)), idlePods);
      (found_pod (fun pod => bool_decide (Phase (Status pod) = PodRunning)), idlePods) ]
    numOfDesiredDelete [].

(** The creation loop: [Some errs] when it ran to its end, [None] when it left because the namespace
    is being terminated. *)
Fixpoint create_pods (now : Z) (key : string) (application : Application) (standby : bool)
    (seeds : list PodSeed) : SM AM (option (list GoError)) :=
  match seeds with
  | [] => sm_ret (Some [])
  | seed :: seeds =>
    do! r <- sm_try (createApplicationPod now seed application standby) ;
    match r with
    | Err e =>
      if decide (e = NamespaceTerminatingError) then sm_ret None
      else
        do! rest <- create_pods now key application standby seeds ;
        sm_ret ((fun errs => e :: errs) <$> rest)
    | Ok pod =>
      do! _ <- on_pool key (fun pool => (addOrUpdatePod pool (Name pod) PodStatePending []).2) ;
      create_pods now key application standby seeds
    end
  end.

(** The deletion loop stops at the first error. *)
Fixpoint delete_pods (now : Z) (key : string) (l : list ApplicationPod) : SM AM unit :=
  match l with
  | [] => sm_ret ()
  | ap :: l =>
    do! r <- sm_try (deleteApplicationPod now key (podName ap)) ;
    match r with Err _ => sm_fail (AggregateError 1) | Ok _ => delete_pods now key l end
  end.

(** [seeds i] is the randomness of the [i]-th pod of the call. *)
Definition deployApplicationPods (now : Z) (seeds : nat -> PodSeed) (key : string)
    (application : Application) (desiredAddition : Z) : SM AM unit :=
  let applicationBurst := ApplicationScalingBurst application in
  if 0 <? desiredAddition then
    let desiredAddition := Z.min desiredAddition applicationBurst in
    let standby := negb (UsingNodeSessionService (Spec application)) in
    do! r <- create_pods now key application standby (seeds <$> seq 0 (Z.to_nat desiredAddition)) ;
    match r with
    | None | Some [] => sm_ret ()
    | Some errs => sm_fail (AggregateError (List.length errs))
    end
  else if desiredAddition <? 0 then
    let desiredSubstraction := Z.min (- desiredAddition) applicationBurst in
    do! am <- sm_get ;
    delete_pods now key (getPodsToBeDelete am (the_pool am key) desiredSubstraction)
  else sm_ret ().

Definition cleanupPodOfApplication (now : Z) (key : string) : SM AM unit :=
  do! am <- sm_get ;
  do! errs <- sm_collect (podList (the_pool am key)) (fun ap => deleteApplicationPod now key (podName ap)) ;
  match errs with
  | [] => sm_ret ()
  | _ => sm_fail (OtherError "Some pods failed to be deleted")
  end.

(** ** Applications ([application_manager.go]) *)

Definition onApplicationAddEvent (application : Application) : SM AM unit :=
  let applicationKey := Name application in
  do! _ <- getOrCreateApplicationPool applicationKey ;
  enqueueApplication applicationKey.

(** [specChanged] stands for [!reflect.DeepEqual(oldCopy.Spec, newCopy.Spec)]. *)
Definition onApplicationUpdateEvent (specChanged : bool) (oldCopy newCopy : Application) : SM AM unit :=
  if (bool_decide (is_Some (DeletionTimestamp newCopy)) && bool_decide (DeletionTimestamp oldCopy = None))
     || specChanged
  then enqueueApplication (Name newCopy)
  else sm_ret ().

Definition onApplicationDeleteEvent (application : Application) : SM AM unit :=
  sm_modify (queue_call (QAdd (Name application))).

Definition cleanupDeletedApplication (now : Z) (key : string) : SM AM unit :=
  do! am <- sm_get ;
  do! _ <-
    (if (0 <? sessionLength (the_pool am key))%nat then cleanupSessionOfApplication now key
     else cleanupPodOfApplication now key) ;
  do! am <- sm_get ;
  let pool := the_pool am key in
  if (podLength pool =? 0)%nat && (sessionLength pool =? 0)%nat then deleteApplicationPool key
  else sm_ret ().

(** [int(math.Ceil(float64(z)))] and [int(math.Floor(float64(z)))] of an [int]. *)
Definition ceil_float (z : Z) : Z := float64_of_int z.
Definition floor_float (z : Z) : Z := float64_of_int z.

(** [int] is 64 bits wide and the operands are pod counts and 32-bit water marks, so the sums do not
    wrap.  A policy without its thresholds is a nil pointer: [None] is the panic. *)
Definition calculateDesiredIdlePods (application : Application)
    (occupiedPodNum idlePodNum sessionNum : Z) : option Z :=
  let policy := ScalingPolicy (Spec application) in
  let idleSessionNum := idlePodNum - sessionNum in
  let scaled :=
    match ScalingPolicyType policy with
    | ScalingPolicyTypeIdleSessionNum =>
      match IdleSessionNumThreshold policy with
      | None => None
      | Some w =>
        let desiredCount :=
          if idleSessionNum <? LowWaterMark w
          then idlePodNum + ceil_float (LowWaterMark w - idleSessionNum) else idlePodNum in
        Some (if HighWaterMark w <? idleSessionNum
              then idlePodNum - floor_float (idleSessionNum - HighWaterMark w) else desiredCount)
      end
    | ScalingPolicyTypeIdleSessionPercent =>
      match IdleSessionPercentThreshold policy with
      | None => None
      | Some w =>
        let lowThresholdNum := godiv (idlePodNum * LowWaterMark w) 100 in
        let desiredCount :=
          if idleSessionNum <? LowWaterMark w
          then idlePodNum + ceil_float (lowThresholdNum - idleSessionNum) else idlePodNum in
        let highThresholdNum := godiv (idlePodNum * HighWaterMark w) 100 in
        Some (if HighWaterMark w <? idleSessionNum
              then idlePodNum - floor_float (idleSessionNum - highThresholdNum) else desiredCount)
      end
    | ScalingPolicyTypeUnset => Some idlePodNum
    end in
  match scaled with
  | None => None
  | Some desiredCount =>
    let numOfDesiredPod := desiredCount + occupiedPodNum in
    Some (if numOfDesiredPod <=? MinimumInstance policy then MinimumInstance policy - occupiedPodNum
          else if MaximumInstance policy <=? numOfDesiredPod then
            let desiredCount := MaximumInstance policy - occupiedPodNum in
            if desiredCount <=? 0 then idlePodNum else desiredCount
          else desiredCount)
  end.

(** The action and the error only feed code that is commented out. *)
Definition calculateStatus (pool : ApplicationPool) (application : Application) (desiredCount : Z) :
    ApplicationStatus :=
  let s := Status application in
  let sum := summaryPod pool in
  if (DesiredInstances s =? i32 desiredCount) && (TotalInstances s =? totalCount sum) &&
     (IdleInstances s =? idleCount sum) && (DeletingInstances s =? deletingCount sum) &&
     (PendingInstances s =? pendingCount sum) && (AllocatedInstances s =? occupiedCount sum)
  then s
  else mkApplicationStatus (i32 desiredCount) (totalCount sum) (pendingCount sum) (deletingCount sum)
         (occupiedCount sum) (idleCount sum).

Definition pruneDeadPods (now : Z) (key : string) : SM AM unit :=
  do! am <- sm_get ;
  let pendingPods := podListOfState (the_pool am key) PodStatePending in
  let deletingPods := podListOfState (the_pool am key) PodStateDeleting in
  let pendingTimeoutCutoff := now - DefaultPodPendingTimeoutDuration in
  do! _ <- sm_for pendingPods (fun ap =>
    do! am <- sm_get ;
    match FindPod (world am) (podName ap) with
    | Some pod =>
      if PodIsRunning pod then sm_ret ()
      else
        match StartTime (Status pod) with
        | Some t =>
          if (t <? pendingTimeoutCutoff) && negb (String.eqb (HostIP (Status pod)) EmptyString)
          then do! _ <- sm_try (deleteApplicationPod now key (podName ap)) ; sm_ret ()
          else sm_ret ()
        | None => sm_ret ()
        end
    | None => on_pool key (fun pool => deletePod pool (podName ap))
    end) ;
  sm_for deletingPods (fun ap =>
    do! _ <- sm_try (deleteApplicationPod now key (podName ap)) ; sm_ret ()).

(** The branch of [syncApplication] for an application that is not being deleted: the number of pods
    wanted and the error. *)
Definition sync_live (now : Z) (seeds : nat -> PodSeed) (key : string) (application : Application) :
    SM AM (Z * result unit) :=
  do! r <- sm_try (deployApplicationSessions now key) ;
  match r with
  | Err e => sm_ret (0, Err e)
  | Ok _ =>
    do! am <- sm_get ;
    let pool := the_pool am key in
    let sessionSummary := summarySession pool (session_heap am) now in
    let '(numOfOccupiedPod, numOfPendingPod, numOfIdlePod) := activePodNums pool in
    let numOfUnoccupiedPod := numOfPendingPod + numOfIdlePod in
    match calculateDesiredIdlePods application numOfOccupiedPod numOfUnoccupiedPod
            (ss_pendingCount sessionSummary) with
    | None => sm_fail (OtherError "panic: nil pointer")
    | Some numOfDesiredUnoccupiedPod =>
      let desiredAddition := numOfDesiredUnoccupiedPod - numOfUnoccupiedPod in
      do! r <- sm_try (deployApplicationPods now seeds key application desiredAddition) ;
      do! _ <- pruneDeadPods now key ;
      sm_ret (numOfOccupiedPod + numOfDesiredUnoccupiedPod, r)
    end
  end.

Definition apierrors_IsNotFound (e : GoError) : bool := bool_decide (e = NotFoundError).

(** The last lines of [syncApplication]. *)
Definition requeue (key : string) (r : result unit) : SM AM unit :=
  match r with
  | Ok _ => sm_ret ()
  | Err e =>
    do! _ <- sm_modify (queue_call (QAddAfter key DefaultApplicationSyncErrorRecycleDuration)) ;
    sm_fail e
  end.

Definition syncApplication (now : Z) (seeds : nat -> PodSeed) (applicationKey : string) : SM AM unit :=
  do! am <- sm_get ;
  match getApplicationPool am applicationKey with
  | None => sm_ret ()
  | Some _ =>
    match GetApplicationCache (world am) applicationKey with
    | Err syncErr =>
      if apierrors_IsNotFound syncErr then
        do! r <- sm_try (cleanupDeletedApplication now applicationKey) ;
        match r with
        | Err _ =>
          sm_modify (queue_call (QAddAfter applicationKey DefaultApplicationSyncErrorRecycleDuration))
        | Ok _ => sm_ret ()
        end
      else requeue applicationKey (Err syncErr)
    | Ok None => sm_ret ()
    | Ok (Some application) =>
      do! r <-
        match DeletionTimestamp application with
        | None => sync_live now seeds applicationKey application
        | Some _ =>
          do! r <- sm_try (cleanupDeletedApplication now applicationKey) ; sm_ret (0, r)
        end ;
      let '(numOfDesiredPod, syncErr) := r in
      do! am <- sm_get ;
      let newStatus := calculateStatus (the_pool am applicationKey) application numOfDesiredPod in
      do! _ <- sm_try (call (UpdateApplicationStatus application newStatus)) ;
      requeue applicationKey syncErr
    end
  end.

(** [key] is what [am.applicationQueue.Get()] returned, [None] when the queue is shut down. *)
Definition processNextWorkItem (now : Z) (seeds : nat -> PodSeed) (key : option string) : SM AM bool :=
  match key with
  | None => sm_ret false
  | Some key =>
    do! r <- sm_try (syncApplication now seeds key) ;
    do! _ <- sm_modify (queue_call
      (match r with Ok _ => QForget key | Err _ => QAddRateLimited key end)) ;
    do! _ <- sm_modify (queue_call (QDone key)) ;
    sm_ret true
  end.

Definition HouseKeeping (now : Z) : SM AM unit :=
  do! am <- sm_get ;
  sm_for (range (applicationPools am)) (fun '(appKey, pool) =>
    let podSummary := summaryPod pool in
    let sessionSummary := summarySession pool (session_heap am) now in
    do! _ <-
      (if (0 <? ss_pendingCount sessionSummary) || (0 <? ss_startingCount sessionSummary) ||
          (0 <? ss_deletingCount sessionSummary)
       then enqueueApplication appKey else sm_ret ()) ;
    if (0 <? pendingCount podSummary) || (0 <? deletingCount podSummary)
    then enqueueApplication appKey else sm_ret ()).
End Manager.
