(* ===== verification/NodeStatus.v ===== *)
(** * The status a node reports

    [pkg/nodeagent/node/node_status.go] with [resource/types.go] and [network/network.go]: conditions,
    addresses, capacity and allocatable resources.  What the network, cAdvisor and the runtime answer are the
    fields of [Answers]; all conditions of one call carry the same time [now].  A nil map is [None], a
    failed dereference the error [nil_panic]. *)

From S2P Require Import Prelude GoStrings ApiTypes AppManager ContainerActor.
From Stdlib Require Import String.
#[local] Open Scope Z_scope.
#[local] Open Scope go_scope.

#[export] Instance NodeConditionType_countable : Countable NodeConditionType.
Proof.
  refine (inj_countable' (fun t => match t with NodeReady => None | NodeOtherCondition n => Some n end)
    (fun o => match o with None => NodeReady | Some n => NodeOtherCondition n end) _).
  by intros [].
Defined.
Definition NodeNetworkUnavailable : NodeConditionType := NodeOtherCondition "NetworkUnavailable".
(** The type of a condition nobody has filled in. *)
Definition NoConditionType : NodeConditionType := NodeOtherCondition "".

Record NodeCondition := mkNodeCondition {
  nc_Type : NodeConditionType;
  nc_Status : ConditionStatus;
  nc_Reason : string;
  LastHeartbeatTime : Z;
  LastTransitionTime : Z
}.
(** [&v1.NodeCondition{}]; its status is the empty string. *)
Definition empty_condition : NodeCondition := mkNodeCondition NoConditionType ConditionUnknown "" 0 0.

Inductive AddressType := NodeInternalIP | NodeExternalIP | NodeHostName.
(** [net.IP], what the code asks of it *)
Record IP := mkIP { ip_text : string; IsPrivate : bool; IsUnspecified : bool }.

Record MachineInfo := mkMachineInfo { NumCores : Z; MemoryCapacity : Z }.

Section NodeStatus.
Context {GR : GoRange} {QL : QuantityLib}.

(** [v1.NodeStatus], the fields this file writes *)
Record StatusT := mkStatusT {
  st_Conditions : list NodeCondition;
  st_Addresses : list (AddressType * string);
  st_Capacity : option ResourceList;
  st_Allocatable : option ResourceList
}.
Definition set_Conditions c s := mkStatusT c (st_Addresses s) (st_Capacity s) (st_Allocatable s).
Definition set_Addresses a s := mkStatusT (st_Conditions s) a (st_Capacity s) (st_Allocatable s).
Definition set_Capacity c s := mkStatusT (st_Conditions s) (st_Addresses s) (Some c) (st_Allocatable s).
Definition set_Allocatable a s := mkStatusT (st_Conditions s) (st_Addresses s) (st_Capacity s) (Some a).

(** ** Addresses ([network.go]) *)

Fixpoint pick_addresses (ips : list IP) (nodeIP secondaryNodeIP externalNodeIP : option IP) :
    option IP * option IP * option IP :=
  match ips with
  | [] => (nodeIP, secondaryNodeIP, externalNodeIP)
  | v :: ips =>
    if IsPrivate v && negb (IsUnspecified v) then
      match nodeIP with
      | None => pick_addresses ips (Some v) secondaryNodeIP externalNodeIP
      | Some _ => pick_addresses ips nodeIP (match secondaryNodeIP with None => Some v | s => s end) externalNodeIP
      end
    else pick_addresses ips nodeIP secondaryNodeIP (match externalNodeIP with None => Some v | e => e end)
  end.
Definition GetNetAddress (NodeIPs : result (list IP)) (Hostname : string) : result (list (AddressType * string)) :=
  let? ips := NodeIPs in
  match pick_addresses ips None None None with
  | (None, _, _) => Err (OtherError "host does not have a valid private ipv4 address")
  | (Some nodeIP, secondary, external) =>
    Ok ([(NodeInternalIP, ip_text nodeIP)]
        ++ match secondary with Some v => [(NodeInternalIP, ip_text v)] | None => [] end
        ++ match external with Some v => [(NodeExternalIP, ip_text v)] | None => [] end
        ++ [(NodeHostName, Hostname)])
  end.

(** ** Capacity *)

(** [ResourceListFromMachineInfo], without huge pages *)
Definition ResourceListFromMachineInfo (info : MachineInfo) : ResourceList :=
  <[ResourceMemory := ResourceQuantity (i64 (MemoryCapacity info)) ResourceMemory]>
  {[ResourceCPU := ResourceQuantity (i64 (NumCores info * 1000)) ResourceCPU]}.

Record NodeLimits := mkNodeLimits { PodsPerCore : Z; MaxPods : Z }.

(** [math.Min] of two numbers read as [float64] *)
Definition pod_capacity (nodeConfig : NodeLimits) (info : MachineInfo) : Z :=
  if 0 <? PodsPerCore nodeConfig
  then i64 (Z.min (float64_of_int (i64 (NumCores info * PodsPerCore nodeConfig))) (float64_of_int (MaxPods nodeConfig)))
  else MaxPods nodeConfig.

(** cAdvisor answers with an error or a pointer; the pointer is followed before it is compared with nil:
    [None] is the panic. *)
Definition UpdateNodeCapacity (cc : result (option MachineInfo)) (nodeConfig : NodeLimits) (s : StatusT) :
    option (result unit * StatusT) :=
  match cc with
  | Err e => Some (Err e, s)
  | Ok None => None
  | Ok (Some info) =>
    let capacity := ResourceListFromMachineInfo info ∪ default ∅ (st_Capacity s) in
    Some (Ok (), set_Capacity (<[ResourcePods := ResourceQuantity (pod_capacity nodeConfig info) ResourcePods]> capacity) s)
  end.

(** What is reserved is looked up under CPU for every resource. *)
Definition UpdateAllocatableResourceQuantity (resourceName : ResourceName) (reservedQuantity : ResourceList) (s : StatusT) :
    StatusT :=
  let zeroQuanity := ResourceQuantity 0 resourceName in
  let q := match st_Capacity s ≫= lookup resourceName with
           | Some capacity =>
             let value := qSub capacity (default zeroQuanity (reservedQuantity !! ResourceCPU)) in
             if qSign value <? 0 then NewQuantity 0 else value
           | None => zeroQuanity
           end in
  set_Allocatable (<[resourceName := q]> (default ∅ (st_Allocatable s))) s.

(** [GetReservedResource] of the CPU, memory and volume managers *)
Definition GetReservedResource : ResourceList := ∅.

(** ** Conditions *)

Definition UpdateNodeAddress (now : Z) (addresses : result (list (AddressType * string))) (s : StatusT) :
    result NodeCondition * StatusT :=
  match addresses with
  | Err e => (Err e, s)
  | Ok a => (Ok (mkNodeCondition NodeNetworkUnavailable ConditionFalse "Node network initialized" now now), set_Addresses a s)
  end.
Definition runtime_ready (conditions : list (string * bool)) : bool :=
  existsb (fun v => (v.1 =? "RuntimeReady")%string && v.2) conditions &&
  existsb (fun v => (v.1 =? "NetworkReady")%string && v.2) conditions.
Definition UpdateNodeReadyStatus (now : Z) (status : result (list (string * bool))) : result NodeCondition :=
  let? conditions := status in
  Ok (if runtime_ready conditions then mkNodeCondition NodeReady ConditionTrue "Node runtime ready" now now
      else mkNodeCondition NodeReady ConditionFalse "Node runtime not ready" now now).
(** [UpdateNodeCPUStatus], [UpdateNodeMemoryStatus] and [UpdateNodeVolumeStatus] *)
Definition UpdateNodeResourceStatus (resourceName : ResourceName) (s : StatusT) : NodeCondition * StatusT :=
  (empty_condition, UpdateAllocatableResourceQuantity resourceName GetReservedResource s).

Abbreviation conditions_t := (gmap NodeConditionType NodeCondition).
(** One entry of the node's list, and the map without what was used. *)
Definition merge_condition (conditions : conditions_t) (old : NodeCondition) : NodeCondition :=
  match conditions !! nc_Type old with
  | Some updated =>
    if bool_decide (nc_Status old <> nc_Status updated) then updated
    else mkNodeCondition (nc_Type old) (nc_Status old) (nc_Reason old) (LastHeartbeatTime updated) (LastTransitionTime old)
  | None => old
  end.
Fixpoint merge_conditions (l : list NodeCondition) (conditions : conditions_t) : list NodeCondition * conditions_t :=
  match l with
  | [] => ([], conditions)
  | old :: l =>
    let '(l', rest) := merge_conditions l (delete (nc_Type old) conditions) in
    (merge_condition conditions old :: l', rest)
  end.
Definition mergeNodeConditions (l : list NodeCondition) (conditions : conditions_t) : list NodeCondition :=
  let '(l', rest) := merge_conditions l conditions in l' ++ map snd (range rest).

(** ** [SetNodeStatus] *)

Record Answers := mkAnswers {
  an_addresses : result (list (AddressType * string));
  an_cadvisor : result (option MachineInfo);
  an_runtime : result (list (string * bool))
}.

(** [conditions[condition.Type] = condition]: a nil condition is dereferenced. *)
Definition put_condition (c : result NodeCondition) (conditions : conditions_t) : result conditions_t :=
  match c with Ok c => Ok (<[nc_Type c := c]> conditions) | Err _ => Err nil_panic end.

Definition SetNodeStatus (now : Z) (a : Answers) (nodeConfig : NodeLimits) (s : StatusT) : result StatusT :=
  let '(c, s) := UpdateNodeAddress now (an_addresses a) s in
  let? conditions := put_condition c ∅ in
  match UpdateNodeCapacity (an_cadvisor a) nodeConfig s with
  | None => Err nil_panic
  | Some (capacity, s) =>
    let? conditions := put_condition (UpdateNodeReadyStatus now (an_runtime a)) conditions in
    let '(c, s) := UpdateNodeResourceStatus ResourceMemory s in
    let conditions := <[nc_Type c := c]> conditions in
    let '(c, s) := UpdateNodeResourceStatus ResourceCPU s in
    let conditions := <[nc_Type c := c]> conditions in
    let '(c, s) := UpdateNodeResourceStatus ResourceStorage s in
    let conditions := <[nc_Type c := c]> conditions in
    let conditions := match capacity with
                      | Ok _ => <[NodeReady := mkNodeCondition NodeReady ConditionTrue "NodeRuntime Ready" now now]> conditions
                      | Err _ => conditions
                      end in
    Ok (set_Conditions (mergeNodeConditions (st_Conditions s) conditions) s)
  end.

(** ** Merging conditions *)

Abbreviation types l := (map nc_Type l).
(** Every condition is filed under its type. *)
Definition filed (conditions : conditions_t) : Prop := forall t c, conditions !! t = Some c -> nc_Type c = t.

Lemma types_inj l c1 c2 : NoDup (types l) -> c1 ∈ l -> c2 ∈ l -> nc_Type c1 = nc_Type c2 -> c1 = c2.
Proof using.
  intros Hnd (i & Hi)%list_elem_of_lookup (j & Hj)%list_elem_of_lookup Ht.
  assert (i = j) as <-; [|congruence]. eapply (NoDup_lookup (types l)); [done| |].
  - by rewrite list_lookup_fmap, Hi.
  - by rewrite list_lookup_fmap, Hj, Ht.
Qed.
Lemma merge_condition_type conditions old : filed conditions -> nc_Type (merge_condition conditions old) = nc_Type old.
Proof using.
  intros Hf. unfold merge_condition. destruct (conditions !! nc_Type old) as [u|] eqn:E; [|done].
  case_bool_decide; [by apply Hf|done].
Qed.
Lemma merge_conditions_spec l : forall conditions,
  NoDup (types l) ->
  (merge_conditions l conditions).1 = map (merge_condition conditions) l /\
  forall t, (merge_conditions l conditions).2 !! t = if decide (t ∈ types l) then None else conditions !! t.
Proof using.
  induction l as [|old l IH]; intros conditions Hnd; cbn [merge_conditions map].
  { split; [done|]. intros t. case_decide as Ht; [by apply elem_of_nil in Ht|done]. }
  apply NoDup_cons in Hnd as [Hnin Hnd]. destruct (IH (delete (nc_Type old) conditions) Hnd) as [H1 H2].
  destruct (merge_conditions l (delete (nc_Type old) conditions)) as [l' rest]. cbn [fst snd] in *. split.
  - f_equal. rewrite H1. apply map_ext_in. intros c Hc. unfold merge_condition. rewrite lookup_delete_ne; [done|].
    intros Heq. apply Hnin. rewrite Heq. apply list_elem_of_In, in_map, Hc.
  - intros t. rewrite H2. destruct (decide (t ∈ types l)); [by rewrite decide_True by set_solver|].
    destruct (decide (t = nc_Type old)) as [->|Hne].
    + rewrite decide_True by set_solver. apply lookup_delete_eq.
    + rewrite decide_False by set_solver. by apply lookup_delete_ne.
Qed.

Lemma elem_of_merge l conditions c :
  NoDup (types l) ->
  c ∈ mergeNodeConditions l conditions <->
  (exists old, old ∈ l /\ c = merge_condition conditions old) \/
  (exists t, conditions !! t = Some c /\ t ∉ types l).
Proof using.
  intros Hnd. unfold mergeNodeConditions. destruct (merge_conditions_spec l conditions Hnd) as [H1 H2].
  destruct (merge_conditions l conditions) as [l' rest]. cbn [fst snd] in *. subst l'.
  rewrite elem_of_app, !list_elem_of_fmap. split.
  - intros [(old & -> & Ho)|([t c'] & -> & Hin)]; [left; by exists old|]. right. apply elem_of_range in Hin.
    rewrite H2 in Hin. case_decide; [done|]. by exists t.
  - intros [(old & Ho & ->)|(t & Ht & Hn)]; [left; by exists old|]. right. exists (t, c). split; [done|].
    apply elem_of_range. rewrite H2. by rewrite decide_False.
Qed.
Lemma merge_NoDup l conditions : NoDup (types l) -> filed conditions -> NoDup (types (mergeNodeConditions l conditions)).
Proof using.
  intros Hnd Hf. unfold mergeNodeConditions. destruct (merge_conditions_spec l conditions Hnd) as [H1 H2].
  destruct (merge_conditions l conditions) as [l' rest]. cbn [fst snd] in *. subst l'.
  rewrite map_app, !map_map. rewrite (map_ext _ nc_Type) by (intros old; by apply merge_condition_type).
  assert (map (fun x => nc_Type x.2) (range rest) = map fst (range rest)) as ->.
  { apply map_ext_in. intros [t c] Hin. apply list_elem_of_In, elem_of_range in Hin. rewrite H2 in Hin.
    case_decide; [done|]. by apply Hf. }
  apply NoDup_app. split; [done|]. split.
  - intros t Ht Hin. apply list_elem_of_fmap in Hin as ([t' c] & -> & Hin). apply elem_of_range in Hin.
    rewrite H2 in Hin. by rewrite decide_True in Hin.
  - apply NoDup_range_keys.
Qed.

(** Conditions are merged by type.  There stays one condition of every type; an updated one has the new
    status and the new heartbeat, and keeps the time of its last transition unless its status changed; a
    condition that is not updated stays as it is, and one of a new type is added. *)
Theorem conditions_merged_by_type l conditions :
  NoDup (types l) -> filed conditions ->
  NoDup (types (mergeNodeConditions l conditions)) /\
  (forall t u, conditions !! t = Some u -> exists c, c ∈ mergeNodeConditions l conditions /\ nc_Type c = t /\
     nc_Status c = nc_Status u /\ LastHeartbeatTime c = LastHeartbeatTime u /\
     forall old, old ∈ l -> nc_Type old = t ->
       LastTransitionTime c = if bool_decide (nc_Status old = nc_Status u) then LastTransitionTime old else LastTransitionTime u) /\
  (forall c, c ∈ l -> conditions !! nc_Type c = None -> c ∈ mergeNodeConditions l conditions).
Proof using.
  intros Hnd Hf. split; [by apply merge_NoDup|]. split.
  - intros t u Hu. destruct (decide (t ∈ types l)) as [Hin|Hnin].
    + apply list_elem_of_fmap in Hin as (old & -> & Ho). exists (merge_condition conditions old).
      split; [apply elem_of_merge; [done|]; left; by exists old|]. split; [by apply merge_condition_type|].
      unfold merge_condition. rewrite Hu. case_bool_decide as Hs.
      * split_and!; [done|done|]. intros old' Ho' Ht. rewrite bool_decide_false; [done|].
        assert (old' = old) as ->; [|done]. by apply (types_inj l).
      * split_and!; [done|done|]. intros old' Ho' Ht.
        assert (old' = old) as -> by (by apply (types_inj l)). by rewrite bool_decide_true.
    + exists u. split; [apply elem_of_merge; [done|]; right; by exists t|]. split_and!; [by apply Hf|done|done|].
      intros old Ho Ht. destruct Hnin. apply list_elem_of_fmap. by exists old.
  - intros c Hc Hn. apply elem_of_merge; [done|]. left. exists c. split; [done|]. unfold merge_condition. by rewrite Hn.
Qed.

(** ** The status after a call *)

(** A status as the agent keeps it: one condition of every type; CPU, memory and storage are what pods may
    use, and no more of them than the node has. *)
Record status_wf (s : StatusT) : Prop := {
  wf_types : NoDup (types (st_Conditions s));
  wf_allocatable r q : default ∅ (st_Allocatable s) !! r = Some q ->
    (r = ResourceCPU \/ r = ResourceMemory \/ r = ResourceStorage) /\
    0 <= qval q <= Z.max 0 (qval (rl_get (default ∅ (st_Capacity s)) r))
}.

(** The resources that are updated after the capacity may have changed. *)
Definition allocatable_ok (fresh_rs : list ResourceName) (s : StatusT) : Prop :=
  forall r q, default ∅ (st_Allocatable s) !! r = Some q ->
    (r = ResourceCPU \/ r = ResourceMemory \/ r = ResourceStorage) /\
    (r ∈ fresh_rs -> 0 <= qval q <= Z.max 0 (qval (rl_get (default ∅ (st_Capacity s)) r))).
Lemma update_allocatable_ok rs r s :
  (r = ResourceCPU \/ r = ResourceMemory \/ r = ResourceStorage) ->
  allocatable_ok rs s -> allocatable_ok (r :: rs) (UpdateNodeResourceStatus r s).2.
Proof using.
  intros Hr Hs k q. unfold UpdateNodeResourceStatus, UpdateAllocatableResourceQuantity, GetReservedResource. cbn [snd].
  cbn [set_Allocatable st_Allocatable st_Capacity default from_option id]. rewrite lookup_insert_Some.
  intros [[<- <-]|[Hne Hq]].
  - split; [done|]. intros _. rewrite lookup_empty. cbn [default from_option id]. unfold ResourceQuantity, rl_get.
    destruct (st_Capacity s) as [cap|]; cbn [mbind option_bind default from_option id].
    + destruct (cap !! r) as [c|]; cbn [default from_option id].
      * unfold qSign. rewrite qval_sub, !qval_new, Z.mul_0_l, Z.sub_0_r. destruct (Z.ltb_spec (Z.sgn (qval c)) 0) as [Hn|Hn].
        -- rewrite qval_new. lia.
        -- rewrite qval_sub, qval_new. lia.
      * rewrite qval_new, qval_zero. lia.
    + rewrite lookup_empty. cbn. rewrite qval_new, qval_zero. lia.
  - destruct (Hs k q Hq) as [H1 H2]. split; [done|]. intros [->|Hin]%elem_of_cons; [done|]. by apply H2.
Qed.
Lemma filed_insert c conditions : filed conditions -> filed (<[nc_Type c := c]> conditions).
Proof using. intros Hf t c' [[<- <-]|[_ Ht]]%lookup_insert_Some; [done|by apply Hf]. Qed.

(** The two outcomes: a panic, or a status in which the ready condition is what [ready] says. *)
Lemma SetNodeStatus_spec now a cfg s s' :
  SetNodeStatus now a cfg s = Ok s' ->
  exists addresses conditions capacity conds r,
    an_addresses a = Ok addresses /\ an_runtime a = Ok conditions /\
    UpdateNodeCapacity (an_cadvisor a) cfg (set_Addresses addresses s) = Some (r, capacity) /\
    filed conds /\ (nc_Status <$> conds !! NodeReady) =
      Some (match r with Ok _ => ConditionTrue | Err _ => if runtime_ready conditions then ConditionTrue else ConditionFalse end) /\
    s' = (let s := (UpdateNodeResourceStatus ResourceStorage (UpdateNodeResourceStatus ResourceCPU
            (UpdateNodeResourceStatus ResourceMemory capacity).2).2).2 in
          set_Conditions (mergeNodeConditions (st_Conditions s) conds) s).
Proof using.
  unfold SetNodeStatus, UpdateNodeAddress. destruct (an_addresses a) as [addresses|e]; [|done].
  cbn [put_condition bind_result]. destruct (UpdateNodeCapacity _ _ _) as [[r capacity]|] eqn:Ecap; [|done].
  unfold UpdateNodeReadyStatus. destruct (an_runtime a) as [conditions|e]; [|done]. cbn [put_condition bind_result].
  set (ready := if runtime_ready conditions then _ else _). intros [= <-].
  eexists addresses, conditions, capacity, _, r. do 3 (split; [done|]). split_and!; [| |reflexivity].
  - assert (filed (∅ : conditions_t)) as H0 by done.
    destruct r; [apply (filed_insert (mkNodeCondition NodeReady _ _ _ _))|]; do 3 apply (filed_insert empty_condition);
      apply filed_insert, (filed_insert (mkNodeCondition NodeNetworkUnavailable _ _ _ _)), H0.
  - destruct r; [by rewrite lookup_insert_eq|].
    rewrite !(lookup_insert_ne _ NoConditionType) by done. assert (nc_Type ready = NodeReady) as <- by (unfold ready; by destruct (runtime_ready _)).
    rewrite lookup_insert_eq. unfold ready. by destruct (runtime_ready conditions).
Qed.

(** C31: Setting the status of a node keeps it well formed.  Whatever the network, cAdvisor and the runtime
    answer, if the call returns, the node has one condition of every type, and of CPU, memory and storage it
    offers at least nothing and at most what it has. *)
Theorem node_status_well_formed now a cfg s s' :
  status_wf s -> SetNodeStatus now a cfg s = Ok s' -> status_wf s'.
Proof using.
  intros [Ht Ha] Hs. destruct (SetNodeStatus_spec _ _ _ _ _ Hs) as (addresses & conditions & capacity & conds & r & _ & _ & Hc & Hf & _ & ->).
  assert (st_Conditions capacity = st_Conditions s /\ st_Allocatable capacity = st_Allocatable s) as [Hcc Hca].
  { unfold UpdateNodeCapacity in Hc. destruct (an_cadvisor a) as [[info|]|]; simplify_eq; done. }
  assert (allocatable_ok [] capacity) as H0.
  { intros k q. rewrite Hca. intros Hq. destruct (Ha k q Hq) as [H1 _]. split; [done|set_solver]. }
  pose proof (update_allocatable_ok _ ResourceMemory _ ltac:(tauto) H0) as H1.
  pose proof (update_allocatable_ok _ ResourceCPU _ ltac:(tauto) H1) as H2.
  pose proof (update_allocatable_ok _ ResourceStorage _ ltac:(tauto) H2) as H3.
  split.
  - cbn [set_Conditions st_Conditions]. apply merge_NoDup; [|done].
    unfold UpdateNodeResourceStatus, UpdateAllocatableResourceQuantity. cbn [snd set_Allocatable st_Conditions]. by rewrite Hcc.
  - intros k q Hq. destruct (H3 k q Hq) as [Hk Hin]. split; [done|]. apply Hin. set_solver.
Qed.

(** C32: When a node says it is ready.  After the status was set, the ready condition is true if cAdvisor
    answered, whatever the runtime says of itself, and otherwise exactly if the runtime and its network are
    ready; without an address or an answer of the runtime the call does not return. *)
Theorem node_ready_condition now a cfg s :
  NoDup (types (st_Conditions s)) ->
  match SetNodeStatus now a cfg s with
  | Ok s' => exists addresses conditions c,
      an_addresses a = Ok addresses /\ an_runtime a = Ok conditions /\
      c ∈ st_Conditions s' /\ nc_Type c = NodeReady /\
      nc_Status c = (match an_cadvisor a with Ok _ => ConditionTrue
                     | Err _ => if runtime_ready conditions then ConditionTrue else ConditionFalse end)
  | Err e => e = nil_panic /\ ((exists e, an_addresses a = Err e) \/ (exists e, an_runtime a = Err e) \/ an_cadvisor a = Ok None)
  end.
Proof using.
  intros Hnd. destruct (SetNodeStatus now a cfg s) as [s'|e] eqn:E.
  - destruct (SetNodeStatus_spec _ _ _ _ _ E) as (addresses & conditions & capacity & conds & r & Had & Hrt & Hc & Hf & Hready & ->).
    destruct (conds !! NodeReady) as [u|] eqn:Eu; [|done]. cbn in Hready. injection Hready as Hready.
    assert (st_Conditions capacity = st_Conditions s) as Hcc
      by (unfold UpdateNodeCapacity in Hc; destruct (an_cadvisor a) as [[info|]|]; by simplify_eq).
    set (l := st_Conditions _) in *.
    assert (exists c, c ∈ mergeNodeConditions (st_Conditions s) conds /\ nc_Type c = NodeReady /\ nc_Status c = nc_Status u) as (c & Hin & Hct & Hcs).
    { destruct (decide (NodeReady ∈ types (st_Conditions s))) as [Hin|Hnin].
      - apply list_elem_of_fmap in Hin as (old & Hold & Ho). exists (merge_condition conds old).
        split; [apply elem_of_merge; [done|]; left; by exists old|]. split; [by rewrite merge_condition_type|].
        unfold merge_condition. rewrite <- Hold, Eu. by case_bool_decide.
      - exists u. split; [apply elem_of_merge; [done|]; right; by exists NodeReady|]. split; [by apply Hf|done]. }
    exists addresses, conditions, c. do 2 (split; [done|]). split.
    { unfold l. cbn [set_Conditions st_Conditions]. unfold UpdateNodeResourceStatus, UpdateAllocatableResourceQuantity.
      cbn [snd set_Allocatable st_Conditions]. by rewrite Hcc. }
    split; [done|]. rewrite Hcs, Hready. unfold UpdateNodeCapacity in Hc. by destruct (an_cadvisor a) as [[info|]|]; simplify_eq.
  - unfold SetNodeStatus, UpdateNodeAddress in E. destruct (an_addresses a) as [addresses|e1] eqn:Ea; cbn in E.
    2: { injection E as <-. split; [done|]. left. by eexists. }
    unfold UpdateNodeCapacity in E. destruct (an_cadvisor a) as [[info|]|e2] eqn:Ec; cbn in E.
    + destruct (an_runtime a) as [conditions|e3] eqn:Er; [done|]. cbn in E. injection E as <-. split; [done|]. right. left. by eexists.
    + injection E as <-. split; [done|]. by right; right.
    + destruct (an_runtime a) as [conditions|e3] eqn:Er; [done|]. cbn in E. injection E as <-. split; [done|]. right. left. by eexists.
Qed.
End NodeStatus.

(** ** Witnesses and examples *)

Definition example_answers (ready : bool) : Answers :=
  mkAnswers (GetNetAddress (Ok [mkIP "203.0.113.5" false false; mkIP "10.0.0.1" true false]) "host")
    (Ok (Some (mkMachineInfo 4 (2 ^ 33)))) (Ok [("RuntimeReady"%string, ready); ("NetworkReady"%string, ready)]).
Definition example_status : StatusT := mkStatusT [mkNodeCondition NodeReady ConditionFalse "" 1 1] [] None None.
Definition example_limits : NodeLimits := mkNodeLimits 10 110.
Definition example_set (ready : bool) : result StatusT := SetNodeStatus 7 (example_answers ready) example_limits example_status.

Lemma example_status_wf : status_wf example_status.
Proof. split; [repeat constructor; set_solver|done]. Qed.
Lemma node_status_well_formed_witness : exists s', example_set true = Ok s' /\ status_wf s'.
Proof.
  destruct (example_set true) as [s'|e] eqn:E; [|vm_compute in E; discriminate].
  exists s'. split; [done|]. exact (node_status_well_formed 7 _ _ _ _ example_status_wf E).
Defined.
Lemma node_ready_condition_witness :
  exists s' c, example_set false = Ok s' /\ c ∈ st_Conditions s' /\ nc_Type c = NodeReady /\ nc_Status c = ConditionTrue.
Proof.
  pose proof (node_ready_condition 7 (example_answers false) example_limits example_status (wf_types _ example_status_wf)) as H.
  fold (example_set false) in H. destruct (example_set false) as [s'|e] eqn:E; [|vm_compute in E; discriminate].
  destruct H as (ad & cs & c & _ & _ & Hin & Ht & Hs). by exists s', c.
Defined.
Lemma conditions_merged_by_type_witness :
  let l := [mkNodeCondition NodeReady ConditionFalse "" 1 1] in
  let u := mkNodeCondition NodeReady ConditionFalse "" 9 9 in
  exists c, c ∈ mergeNodeConditions l {[NodeReady := u]} /\ LastHeartbeatTime c = 9 /\ LastTransitionTime c = 1.
Proof.
  cbn zeta. set (l := [mkNodeCondition NodeReady ConditionFalse "" 1 1]). set (u := mkNodeCondition NodeReady ConditionFalse "" 9 9).
  destruct (conditions_merged_by_type l {[NodeReady := u]}) as (_ & Hu & _).
  - repeat constructor; set_solver.
  - intros t c [<- <-]%lookup_singleton_Some. reflexivity.
  - destruct (Hu NodeReady u) as (c & Hin & Ht & Hs & Hh & Htr); [apply lookup_singleton_Some; by split|].
    exists c. split; [exact Hin|]. split; [exact Hh|]. exact (Htr _ (list_elem_of_here _ _) eq_refl).
Defined.

(** A node whose runtime says that it is not ready is reported ready. *)
Lemma ready_without_runtime :
  match example_set false with
  | Ok s => map (fun c => (nc_Status c, nc_Reason c)) (st_Conditions s) !! 0%nat = Some (ConditionTrue, "NodeRuntime Ready"%string)
  | Err _ => False
  end.
Proof. vm_compute. reflexivity. Qed.

(** The number of thousandths of CPUs is taken as a number of CPUs. *)
Lemma cpu_capacity_thousandfold {QL : QuantityLib} info :
  0 <= NumCores info < 2 ^ 50 ->
  qval (rl_get (ResourceListFromMachineInfo info) ResourceCPU) = 1000 * (NumCores info * 10 ^ 9).
Proof.
  intros Hn. unfold ResourceListFromMachineInfo, rl_get, ResourceQuantity.
  rewrite lookup_insert_ne by done. rewrite lookup_singleton_eq. cbn [default from_option id].
  rewrite qval_new, (wraps_small 64) by lia. lia.
Qed.

(** Reserved CPUs are taken from the memory. *)
Lemma reserved_cpu_taken_from_memory :
  let s := mkStatusT [] [] (Some {[ResourceMemory := NewQuantity 1024]}) None in
  qval <$> (st_Allocatable (UpdateAllocatableResourceQuantity ResourceMemory {[ResourceCPU := NewQuantity 24]} s)
            ≫= lookup ResourceMemory) = Some (1000 * 10 ^ 9).
Proof. vm_compute. reflexivity. Qed.
