(* ===== verification/SimNode.v ===== *)
(** * The simulated node

    [cmd/simulation/node/app/snode]: the agent of a node that only pretends to run pods, which load tests
    start by the thousand against a real control plane ([node_actor.go], [node.go], [node_status.go]).  It speaks
    the same protocol as the node agent ([NodeActor]) and shares its reports ([AgentTypes]), but where the
    agent is one actor, this one starts a goroutine for every command, and only the part of a goroutine
    that takes a new revision and sends the report holds the node's mutex.

    A goroutine is a program counter [sim_pc], one value per place where another goroutine can get in
    between: before and after every sleep, and around every part under the mutex or a lock of the pool
    of pods.  [sim_resume] lets one goroutine run to its next such place.  Creating and terminating pods
    waits for one of [PodConcurrency] permits.  A full report is built outside the mutex, with the
    revision read before.  The conditions of a pod are not part of the model's [PodStatus]; stopping the
    actor is left out. *)

From S2P Require Import Prelude GoStrings ApiTypes Interfaces Collection NodeManager NodeMonitor GrpcServer AgentTypes ContainerActor PodActor NodeActor NodeReports NodeStatus.
From Stdlib Require Import String.
#[local] Open Scope Z_scope.
#[local] Open Scope go_scope.

(** Where a goroutine is. *)
Inductive sim_pc {QL : QuantityLib} :=
  | AtRegister | AtRegistering (revision : Z)
  | AtReady | AtReadyReport | AtReadyDone
  | AtStateReport | AtReport (revision : Z)
  | AtCreate (podIdentifier : string) (pod : Pod) | AtAdd (pod : Pod) | AtAdded (l : nat) | AtCreating (l : nat)
  | AtRunning (l : nat)
  | AtTerminate (podIdentifier : string) | AtTerminating (podIdentifier : string) (l : nat)
  | AtTerminated (podIdentifier : string) (l : nat) | AtDelete (podIdentifier : string)
  | AtOpen (podIdentifier sessionData : string) | AtOpening (l : nat) (sess : ApplicationSession)
  | AtClose (sessId podId : string) | AtClosing (l s : nat).

(** [podsConcurrency]: a goroutine does without a permit, waits for one or holds one. *)
Inductive permit := NoPermit | WantsPermit | HoldsPermit.
#[export] Instance permit_eq_dec : EqDecision permit.
Proof. solve_decision. Defined.
Record goroutine {QL : QuantityLib} := mkGo { g_permit : permit; g_pc : sim_pc }.

Record sim_st {QL : QuantityLib} := mkSimNode {
  sn_state : agent_NodeState;
  sn_node : Node;
  sn_status : StatusT;
  sn_Revision : Z;
  sn_Pods : gmap string nat;
  sn_objs : gmap nat FornaxPod;
  sn_permits : Z;
  sn_go : list goroutine;
  sn_syncing : option Z;
  sn_mailbox : list MessageBody;
  sn_sent : list core_msg;
  sn_crashed : bool
}.

Section SimNode.
Context {GR : GoRange} {CG : ClientGo} {QL : QuantityLib} {SC : SessionCodec}.
Implicit Types n : sim_st.

Definition set_sn_state v n := mkSimNode _ v (sn_node n) (sn_status n) (sn_Revision n) (sn_Pods n) (sn_objs n)
  (sn_permits n) (sn_go n) (sn_syncing n) (sn_mailbox n) (sn_sent n) (sn_crashed n).
Definition set_sn_node v s n := mkSimNode _ (sn_state n) v s (sn_Revision n) (sn_Pods n) (sn_objs n)
  (sn_permits n) (sn_go n) (sn_syncing n) (sn_mailbox n) (sn_sent n) (sn_crashed n).
Definition set_sn_Revision v n := mkSimNode _ (sn_state n) (sn_node n) (sn_status n) v (sn_Pods n) (sn_objs n)
  (sn_permits n) (sn_go n) (sn_syncing n) (sn_mailbox n) (sn_sent n) (sn_crashed n).
Definition set_sn_Pods v n := mkSimNode _ (sn_state n) (sn_node n) (sn_status n) (sn_Revision n) v (sn_objs n)
  (sn_permits n) (sn_go n) (sn_syncing n) (sn_mailbox n) (sn_sent n) (sn_crashed n).
Definition set_sn_objs v n := mkSimNode _ (sn_state n) (sn_node n) (sn_status n) (sn_Revision n) (sn_Pods n) v
  (sn_permits n) (sn_go n) (sn_syncing n) (sn_mailbox n) (sn_sent n) (sn_crashed n).
Definition set_sn_go p v n := mkSimNode _ (sn_state n) (sn_node n) (sn_status n) (sn_Revision n) (sn_Pods n) (sn_objs n)
  p v (sn_syncing n) (sn_mailbox n) (sn_sent n) (sn_crashed n).
Definition set_sn_syncing v n := mkSimNode _ (sn_state n) (sn_node n) (sn_status n) (sn_Revision n) (sn_Pods n) (sn_objs n)
  (sn_permits n) (sn_go n) v (sn_mailbox n) (sn_sent n) (sn_crashed n).
Definition set_sn_mailbox v n := mkSimNode _ (sn_state n) (sn_node n) (sn_status n) (sn_Revision n) (sn_Pods n) (sn_objs n)
  (sn_permits n) (sn_go n) (sn_syncing n) v (sn_sent n) (sn_crashed n).
Definition set_sn_sent v n := mkSimNode _ (sn_state n) (sn_node n) (sn_status n) (sn_Revision n) (sn_Pods n) (sn_objs n)
  (sn_permits n) (sn_go n) (sn_syncing n) (sn_mailbox n) v (sn_crashed n).
Definition set_sn_crashed v n := mkSimNode _ (sn_state n) (sn_node n) (sn_status n) (sn_Revision n) (sn_Pods n) (sn_objs n)
  (sn_permits n) (sn_go n) (sn_syncing n) (sn_mailbox n) (sn_sent n) v.

Definition sim_get : SM sim_st sim_st := fun n => (Ok n, n).

(** ** The status of the node ([node_status.go]) *)

Definition SIXTY_FOUR_G_MEM : Z := 64 * 1024 * 1024 * 1024.

(** The machine is made up: 12 cores, 64 GB and a thousand pods. *)
Definition sim_UpdateNodeCapacity (s : StatusT) : StatusT :=
  let s := set_Capacity (<[ResourceCPU := ResourceQuantity 12000 ResourceCPU]> (default ∅ (st_Capacity s))) s in
  let s := set_Capacity (<[ResourceMemory := ResourceQuantity SIXTY_FOUR_G_MEM ResourceMemory]> (default ∅ (st_Capacity s))) s in
  let s := set_Capacity (<[ResourcePods := NewQuantity 1000]> (default ∅ (st_Capacity s))) s in
  let s := UpdateAllocatableResourceQuantity ResourceCPU ∅ s in
  UpdateAllocatableResourceQuantity ResourceMemory ∅ s.

(** The network counts as unavailable, for the reason that it is initialized. *)
Definition sim_conditions (now : Z) : gmap NodeConditionType NodeCondition :=
  <[ApiTypes.NodeReady := mkNodeCondition ApiTypes.NodeReady ConditionTrue "Node runtime ready" now now]>
  {[NodeNetworkUnavailable :=
      mkNodeCondition NodeNetworkUnavailable ConditionTrue "Node network initialized" now now]}.
Definition sim_status (now : Z) (s : StatusT) : StatusT :=
  let s := sim_UpdateNodeCapacity s in
  set_Conditions (mergeNodeConditions (st_Conditions s) (sim_conditions now)) s.

(** What a message says of the node's status. *)
Definition wire_status (phase : NodePhase) (s : StatusT) : NodeStatus :=
  mkNodeStatus _ phase (map (fun c => (nc_Type c, nc_Status c)) (st_Conditions s)) (default ∅ (st_Allocatable s)).
Definition sim_SetNodeStatus (now : Z) : SM sim_st unit := sm_modify (fun n =>
  let s := sim_status now (sn_status n) in
  set_sn_node (set_Status (wire_status (ns_Phase (Status (sn_node n))) s) (sn_node n)) s n).

Definition sim_IsNodeStatusReady n : bool :=
  let positive r := match st_Allocatable (sn_status n) ≫= lookup r with Some q => 0 <? qSign q | None => false end in
  let daemonReady := forallb (fun '(_, l) =>
    match sn_objs n !! l with
    | Some p => negb (Daemon p) || bool_decide (FornaxPodState p = PodStateRunning)
    | None => true
    end) (range (sn_Pods n)) in
  positive ResourceCPU && positive ResourceMemory && daemonReady && IsNodeCondtionReady (sn_node n).

(** ** Shared steps *)

Definition sim_notify (body : MessageBody) : SM sim_st unit :=
  sm_modify (fun n => set_sn_sent (sn_sent n ++ [ToCore body]) n).

Definition sim_incrementNodeRevision : SM sim_st Z := fun n =>
  let revision := i64 (sn_Revision n + 1) in
  (Ok revision, set_sn_node (map_om (om_set_ResourceVersion (FormatUint revision)) (sn_node n)) (sn_status n)
                  (set_sn_Revision revision n)).

Definition sim_pod (l : nat) : SM sim_st FornaxPod := fun n =>
  match sn_objs n !! l with Some p => (Ok p, n) | None => (Err nil_panic, n) end.
Definition sim_on_pod (l : nat) (f : FornaxPod -> FornaxPod) : SM sim_st unit :=
  sm_modify (fun n => set_sn_objs (alter f l (sn_objs n)) n).

Definition sim_pod_states (revision : Z) n : list PodState :=
  omap (fun '(_, l) => pod_state revision <$> sn_objs n !! l) (range (sn_Pods n)).

(** [sess] in the pod's map, through the pointer [s] *)
Definition sim_put_session (sessId : string) (fsess : FornaxSession) (p : FornaxPod) : FornaxPod :=
  let s := fresh (dom (session_heap p)) in
  set_fp_Sessions (<[sessId := s]> (fp_Sessions p)) (<[s := fsess]> (session_heap p)) p.
Definition sim_on_session (s : nat) (f : ApplicationSession -> ApplicationSession) (p : FornaxPod) : FornaxPod :=
  set_fp_Sessions (fp_Sessions p)
    (alter (fun v => mkFornaxSession (fs_Identifier v) (fs_PodIdentifier v) (f (fs_Session v))) s (session_heap p)) p.
Definition with_session_status (revision : Z) (st : SessionStatusT) (s : ApplicationSession) : ApplicationSession :=
  let s := map_om (om_set_ResourceVersion (FormatUint revision)) s in
  set_Status (set_SessionStatus st (Status s)) s.

Definition sim_phase (phase : PodPhase) (p : FornaxPod) : FornaxPod :=
  set_fp_Pod (set_Status (set_Phase phase (Status (fp_Pod p))) (fp_Pod p)) p.

(** [BuildFornaxcoreGrpcSessionState] returns nil for a session that cannot be encoded, and the actor
    of the control plane follows the pointer. *)
Definition sim_notify_session (revision : Z) (fsess : FornaxSession) : SM sim_st unit :=
  match BuildFornaxcoreGrpcSessionState revision fsess with
  | Some body => sim_notify body
  | None => sm_fail nil_panic
  end.

(** ** Pods *)

(** [ValidatePodSpec] and [ValidateConfigMapSpec] accept everything. *)
Definition sim_buildAFornaxPod (now : Z) (state : types_PodState) (v1pod : Pod) (isDaemon : bool) n : FornaxPod :=
  let fornaxPod := mkFornaxPod _ (Name v1pod) state isDaemon v1pod None ∅ ∅ ∅ ∅ in
  let fornaxPod := SetPodStatus now (snd <$> head (st_Addresses (sn_status n))) fornaxPod in
  set_fp_Pod (map_om (fun m => om_set_Labels (<[LabelFornaxCoreNode := Name (sn_node n)]> (om_Labels m)) m)
                (fp_Pod fornaxPod)) fornaxPod.

Definition sim_createPodAndActor (now : Z) (state : types_PodState) (v1Pod : Pod) (isDaemon : bool) : SM sim_st nat :=
  do! n <- sim_get;
  let fpod := sim_buildAFornaxPod now state v1Pod isDaemon n in
  let l := fresh (dom (sn_objs n)) in
  do! _ <- sm_modify (fun n =>
    set_sn_Pods (<[Identifier fpod := l]> (sn_Pods n)) (set_sn_objs (<[l := fpod]> (sn_objs n)) n));
  sm_ret l.

Definition sim_initializeNodeDaemons (now : Z) (pods : list Pod) : SM sim_st unit :=
  sm_for pods (fun p =>
    if negb (List.length (Containers (Spec p)) =? 1)%nat
    then sm_fail (OtherError "Daemon pod can only have one container")
    else if negb (HostNetwork (Spec p)) then sm_fail (OtherError "Daemon pod must use host network")
    else
      do! n <- sim_get;
      match sn_Pods n !! Name p with
      | Some _ => sm_ret ()
      | None => do! _ <- sim_createPodAndActor now PodStateRunning p true; sm_ret ()
      end).

(** The part of [onPodCreateCommand] and [onPodTerminateCommand] under the mutex *)
Definition sim_report_pod (l : nat) : SM sim_st unit :=
  do! revision <- sim_incrementNodeRevision;
  do! _ <- sim_on_pod l (with_resource_version revision);
  do! fpod <- sim_pod l;
  sim_notify (BuildFornaxcoreGrpcPodState revision fpod).

(** [onPodCreateCommand], one step at a time; so are the functions below.  The result is where the
    goroutine goes on, nothing when it has returned. *)
Definition sim_create (now : Z) (pc : sim_pc) : SM sim_st (list sim_pc) :=
  match pc with
  | AtCreate podIdentifier pod =>
    do! n <- sim_get;
    if bool_decide (sn_state n <> NodeStateReady) then sm_fail (OtherError "Node is not in ready state to create a new pod")
    else match sn_Pods n !! podIdentifier with
    | None => sm_ret [AtAdd pod]
    | Some _ => sm_fail (OtherError "Pod already exist")
    end
  | AtAdd pod => do! l <- sim_createPodAndActor now PodStateCreating pod false; sm_ret [AtAdded l]
  | AtAdded l => do! _ <- sim_on_pod l (sim_phase PodRunning); sm_ret [AtCreating l]
  | AtCreating l => do! _ <- sim_on_pod l (set_FornaxPodState PodStateRunning); sm_ret [AtRunning l]
  | AtRunning l => do! _ <- sim_report_pod l; sm_ret []
  | _ => sm_ret []
  end.

Definition sim_terminate (pc : sim_pc) : SM sim_st (list sim_pc) :=
  match pc with
  | AtTerminate podIdentifier =>
    do! n <- sim_get;
    match sn_Pods n !! podIdentifier with
    | None => sm_fail (OtherError "Pod does not exist, fornax core is not in sync")
    | Some l => sm_ret [AtTerminating podIdentifier l]
    end
  | AtTerminating podIdentifier l =>
    do! _ <- sim_on_pod l (fun p => set_FornaxPodState PodStateTerminated (sim_phase PodSucceeded p));
    sm_ret [AtTerminated podIdentifier l]
  | AtTerminated podIdentifier l => do! _ <- sim_report_pod l; sm_ret [AtDelete podIdentifier]
  | AtDelete podIdentifier =>
    do! _ <- sm_modify (fun n => set_sn_Pods (delete podIdentifier (sn_Pods n)) n); sm_ret []
  | _ => sm_ret []
  end.

(** ** Sessions *)

Definition sim_open (pc : sim_pc) : SM sim_st (list sim_pc) :=
  match pc with
  | AtOpen podIdentifier sessionData =>
    do! n <- sim_get;
    if bool_decide (sn_state n <> NodeStateReady) then sm_fail (OtherError "node is not in ready state to open a session")
    else
      match json_Unmarshal sessionData, sn_Pods n !! podIdentifier with
      | Err _, _ => sm_fail (OtherError "session data can not be decoded")
      | Ok _, None => sm_fail (OtherError "Pod does not exist, can not open session")
      | Ok sess, Some l => sm_ret [AtOpening l sess]
      end
  | AtOpening l sess =>
    do! fpod <- sim_pod l;
    do! revision <- sim_incrementNodeRevision;
    let fsess := mkFornaxSession (Name sess) (Identifier fpod) (with_session_status revision SessionStatusAvailable sess) in
    do! _ <- sim_on_pod l (sim_put_session (Name sess) fsess);
    do! _ <- sim_notify_session revision fsess; sm_ret []
  | _ => sm_ret []
  end.

(** A closed session stays in the pod's map. *)
Definition sim_close (pc : sim_pc) : SM sim_st (list sim_pc) :=
  match pc with
  | AtClose sessId podId =>
    do! n <- sim_get;
    match sn_Pods n !! podId with
    | None => sm_fail (OtherError "Pod does not exist, can not terminate session")
    | Some l =>
      do! fpod <- sim_pod l;
      match fp_Sessions fpod !! sessId with
      | None => sm_fail (OtherError "Session does not exist, can not terminate session")
      | Some s => sm_ret [AtClosing l s]
      end
    end
  | AtClosing l s =>
    do! revision <- sim_incrementNodeRevision;
    do! _ <- sim_on_pod l (sim_on_session s (with_session_status revision SessionStatusClosed));
    do! fpod <- sim_pod l;
    match session_heap fpod !! s with
    | Some fsess => do! _ <- sim_notify_session revision fsess; sm_ret []
    | None => sm_fail nil_panic
    end
  | _ => sm_ret []
  end.

(** ** Registering, becoming ready, reporting *)

(** The loop of [Start] *)
Definition sim_register (pc : sim_pc) : SM sim_st (list sim_pc) :=
  match pc with
  | AtRegister =>
    do! n <- sim_get;
    if bool_decide (sn_state n <> NodeStateRegistering) then sm_ret [] else sm_ret [AtRegistering (sn_Revision n)]
  | AtRegistering revision =>
    do! n <- sim_get;
    do! _ <- sim_notify (NodeRegistry (sn_node n) revision); sm_ret [AtRegister]
  | _ => sm_ret []
  end.

(** The goroutine of [onNodeConfigurationCommand]; [startStateReport] starts the last one. *)
Definition sim_ready (now : Z) (pc : sim_pc) : SM sim_st (list sim_pc) :=
  match pc with
  | AtReady =>
    do! n <- sim_get;
    if bool_decide (sn_state n <> NodeStateRegistered) then sm_ret []
    else
      do! _ <- sim_SetNodeStatus now;
      do! n <- sim_get;
      sm_ret [if sim_IsNodeStatusReady n then AtReadyReport else AtReady]
  | AtReadyReport =>
    do! revision <- sim_incrementNodeRevision;
    do! _ <- sm_modify (fun n =>
      let st := Status (sn_node n) in
      set_sn_node (set_Status (mkNodeStatus _ NodeRunning (Conditions st) (Allocatable st)) (sn_node n)) (sn_status n) n);
    do! n <- sim_get;
    do! _ <- sim_notify (NodeMonitor.NodeReady (sn_node n) revision (sim_pod_states revision n));
    sm_ret [AtReadyDone]
  | AtReadyDone => do! _ <- sm_modify (set_sn_state NodeStateReady); sm_ret [AtReady; AtStateReport]
  | _ => sm_ret []
  end.
Definition sim_send_state (revision : Z) : SM sim_st unit :=
  do! n <- sim_get; sim_notify (NodeState (sn_node n) revision (sim_pod_states revision n)).
Definition sim_state_report (now : Z) (pc : sim_pc) : SM sim_st (list sim_pc) :=
  match pc with
  | AtStateReport => do! _ <- sim_SetNodeStatus now; do! n <- sim_get; sm_ret [AtReport (sn_Revision n)]
  | AtReport revision => do! _ <- sim_send_state revision; sm_ret [AtStateReport]
  | _ => sm_ret []
  end.

Definition sim_run (now : Z) (pc : sim_pc) : SM sim_st (list sim_pc) :=
  match pc with
  | AtRegister | AtRegistering _ => sim_register pc
  | AtReady | AtReadyReport | AtReadyDone => sim_ready now pc
  | AtStateReport | AtReport _ => sim_state_report now pc
  | AtCreate _ _ | AtAdd _ | AtAdded _ | AtCreating _ | AtRunning _ => sim_create now pc
  | AtTerminate _ | AtTerminating _ _ | AtTerminated _ _ | AtDelete _ => sim_terminate pc
  | AtOpen _ _ | AtOpening _ _ => sim_open pc
  | AtClose _ _ | AtClosing _ _ => sim_close pc
  end.

(** ** The actor *)

Definition not_implemented : GoError := OtherError "panic: not implemented".
Definition is_panic {A} (r : result A) : bool :=
  match r with Err e => bool_decide (e = nil_panic) || bool_decide (e = not_implemented) | Ok _ => false end.

Definition sim_spawn (p : permit) (pc : sim_pc) : SM sim_st unit :=
  sm_modify (fun n => set_sn_go (sn_permits n) (sn_go n ++ [mkGo _ p pc]) n).

(** The daemons created before one of them is refused stay. *)
Definition sim_onNodeConfigurationCommand (now : Z) (apiNode : Node) (daemonPods : list Pod) : SM sim_st unit :=
  do! n <- sim_get;
  if bool_decide (sn_state n <> NodeStateRegistering)
  then sm_fail (OtherError "node is not in registering state")
  else
    do! _ <- sm_modify (fun n => set_sn_node (set_Spec (Spec apiNode) (sn_node n)) (sn_status n) n);
    do! _ <- sim_initializeNodeDaemons now daemonPods;
    do! _ <- sm_modify (set_sn_state NodeStateRegistered);
    sim_spawn NoPermit AtReady.

Definition sim_processFornaxCoreMessage (now : Z) (msg : MessageBody) : SM sim_st unit :=
  match msg with
  | NodeConfiguration _ node daemonPods => sim_onNodeConfigurationCommand now node daemonPods
  | NodeFullSync => sm_modify (fun n => set_sn_syncing (Some (sn_Revision n)) n)
  | PodCreate podIdentifier pod => sim_spawn WantsPermit (AtCreate podIdentifier pod)
  | PodTerminate podIdentifier => sim_spawn WantsPermit (AtTerminate podIdentifier)
  | PodHibernate _ => sm_fail not_implemented
  | SessionOpen _ podIdentifier sessionData => sim_spawn NoPermit (AtOpen podIdentifier sessionData)
  | SessionClose sessionIdentifier podIdentifier => sim_spawn NoPermit (AtClose sessionIdentifier podIdentifier)
  | SessionStateUpdate _ | PodStateUpdate _ | NodeState _ _ _ => sim_notify msg
  | _ => sm_ret ()
  end.

(** A panic ends the process, anything else an actor or a goroutine returns is ignored. *)
Definition sim_outcome {A} (c : result A * sim_st) : sim_st := set_sn_crashed (is_panic c.1) c.2.

Definition sim_actor_turn (now : Z) n : sim_st :=
  match sn_mailbox n with
  | [] => n
  | m :: rest => sim_outcome (sim_processFornaxCoreMessage now m (set_sn_mailbox rest n))
  end.

(** The [i]-th goroutine runs; [None] if it waits for a permit and there is none. *)
Definition sim_resume (now : Z) (i : nat) n : option sim_st :=
  match sn_go n !! i with
  | None => None
  | Some g =>
    match g_permit g with
    | WantsPermit =>
      if 0 <? sn_permits n
      then Some (set_sn_go (sn_permits n - 1) (<[i := mkGo _ HoldsPermit (g_pc g)]> (sn_go n)) n)
      else None
    | p =>
      let c := sim_run now (g_pc g) n in
      let next := match c.1 with Ok pcs => pcs | Err _ => [] end in
      let permits := if bool_decide (p = HoldsPermit) && bool_decide (List.length next = 0%nat)
                     then sn_permits n + 1 else sn_permits n in
      Some (set_sn_go permits (take i (sn_go n) ++ map (mkGo _ p) next ++ drop (S i) (sn_go n)) (sim_outcome c))
    end
  end.

Inductive sim_step n : sim_st -> Prop :=
  | sim_commanded body : sn_crashed n = false -> is_command body ->
    sim_step n (set_sn_mailbox (sn_mailbox n ++ [body]) n)
  | sim_turns now : sn_crashed n = false -> sn_syncing n = None -> sim_step n (sim_actor_turn now n)
  | sim_synced revision : sn_crashed n = false -> sn_syncing n = Some revision ->
    sim_step n (set_sn_syncing None (sim_send_state revision n).2)
  | sim_resumed now i n' : sn_crashed n = false -> sim_resume now i n = Some n' -> sim_step n n'.

(** ** The beginning ([node.go], [NewNodeActor], the first lines of [Start]) *)

Definition sim_InitV1Node (now : Z) (uid hostIp hostName goos goarch namespace : string) : Node * StatusT :=
  let conditions := [mkNodeCondition ApiTypes.NodeReady ConditionFalse "Node Initialiazing" 0 now;
                     mkNodeCondition NodeNetworkUnavailable ConditionTrue "Node Initialiazing" 0 now] in
  let status := mkStatusT conditions [(NodeInternalIP, hostIp); (NodeHostName, hostName)] (Some ∅) (Some ∅) in
  (mkObject (mkObjectMeta hostName namespace uid "0" now None (Some 0)
               (<["kubernetes.io/hostname"%string := hostName]>
                (<["kubernetes.io/os"%string := goos]> {["kubernetes.io/arch"%string := goarch]})) ∅ [])
     (mkNodeSpec "" []) (wire_status NodePending status), status).

Definition sim_NewNodeActor (now : Z) (uid hostIp hostName goos goarch namespace : string) (PodConcurrency : Z) : sim_st :=
  let '(v1node, status) := sim_InitV1Node now uid hostIp hostName goos goarch namespace in
  (sim_SetNodeStatus now (mkSimNode _ NodeStateInitializing v1node status 0 ∅ ∅ PodConcurrency [] None [] [] false)).2.

Definition sim_Start n : sim_st :=
  set_sn_go (sn_permits n) (sn_go n ++ [mkGo _ NoPermit AtRegister])
    (sim_incrementNodeRevision (set_sn_state NodeStateRegistering n)).2.
End SimNode.
