(* ===== verification/SimRuns.v ===== *)
(** * Runs of the simulated node

    What every interleaving of the goroutines of [SimNode] keeps: pointers lead somewhere, the permits add
    up, commands are carried out to their end, and the reports of a ready node follow each other for the
    node monitor of the control plane. *)

From S2P Require Import Prelude GoStrings ApiTypes Interfaces Collection NodeManager NodeMonitor GrpcServer AgentTypes ContainerActor PodActor NodeActor NodeReports NodeStatus SimNode.
From Stdlib Require Import String.
#[local] Open Scope Z_scope.
#[local] Open Scope go_scope.

Section SimRuns.
Context {GR : GoRange} {CG : ClientGo} {QL : QuantityLib} {SC : SessionCodec} {CO : SessionCodecOK}.
Implicit Types (n : sim_st) (pc : sim_pc) (objs : gmap nat FornaxPod).

(** ** Pointers *)

Definition ptr_ok objs pc : Prop :=
  match pc with
  | AtAdded l | AtCreating l | AtRunning l | AtTerminating _ l | AtTerminated _ l | AtOpening l _ => is_Some (objs !! l)
  | AtClosing l s => exists p, objs !! l = Some p /\ is_Some (session_heap p !! s)
  | _ => True
  end.
Record heap_ok n : Prop := {
  ho_pods id l : sn_Pods n !! id = Some l -> is_Some (sn_objs n !! l);
  ho_sessions l p id s : sn_objs n !! l = Some p -> fp_Sessions p !! id = Some s -> is_Some (session_heap p !! s)
}.
(** Objects are never forgotten. *)
Definition grows objs objs' : Prop := forall l p, objs !! l = Some p ->
  exists p', objs' !! l = Some p' /\ forall s, is_Some (session_heap p !! s) -> is_Some (session_heap p' !! s).

#[export] Instance grows_preorder : PreOrder grows.
Proof.
  split; [intros objs l p Hp; eauto|]. intros o1 o2 o3 H1 H2 l p Hp.
  destruct (H1 l p Hp) as (p2 & Hp2 & Hs2). destruct (H2 l p2 Hp2) as (p3 & Hp3 & Hs3). eauto.
Qed.
Lemma grows_ptr objs objs' pc : grows objs objs' -> ptr_ok objs pc -> ptr_ok objs' pc.
Proof.
  intros Hg. assert (forall l, is_Some (objs !! l) -> is_Some (objs' !! l)) as Hl.
  { intros l [p Hp]. destruct (Hg l p Hp) as (p' & Hp' & _). eauto. }
  destruct pc; simpl; auto. intros (p & Hp & Hs). destruct (Hg l p Hp) as (p' & Hp' & Hs'). eauto.
Qed.

(** A change of one pod that keeps its sessions, or adds to them. *)
Definition keeps_sessions (f : FornaxPod -> FornaxPod) : Prop := forall p,
  (forall s, is_Some (session_heap p !! s) -> is_Some (session_heap (f p) !! s)) /\
  ((forall id s, fp_Sessions p !! id = Some s -> is_Some (session_heap p !! s)) ->
   forall id s, fp_Sessions (f p) !! id = Some s -> is_Some (session_heap (f p) !! s)).
Lemma keeps_same f : (forall p, fp_Sessions (f p) = fp_Sessions p /\ session_heap (f p) = session_heap p) -> keeps_sessions f.
Proof. intros H p. destruct (H p) as [-> ->]. auto. Qed.
Lemma keeps_put sessId fsess : keeps_sessions (sim_put_session sessId fsess).
Proof.
  intros p. unfold sim_put_session. cbn. set (k := fresh (dom (session_heap p))). split.
  - intros s Hs. destruct (decide (s = k)) as [->|Hn]; [rewrite lookup_insert_eq; eauto|by rewrite lookup_insert_ne].
  - intros H id s [[_ <-]|[_ Hs]]%lookup_insert_Some; [rewrite lookup_insert_eq; eauto|].
    destruct (decide (s = k)) as [->|Hn]; [rewrite lookup_insert_eq; eauto|]. rewrite lookup_insert_ne by done. eauto.
Qed.
Lemma keeps_on_session s f : keeps_sessions (sim_on_session s f).
Proof.
  intros p. unfold sim_on_session. cbn. split; [intros s' Hs|intros H id s' Hs]; rewrite lookup_alter_is_Some; eauto.
Qed.
Lemma grows_alter f l objs : keeps_sessions f -> grows objs (alter f l objs).
Proof.
  intros Hf l' p Hp. destruct (decide (l = l')) as [->|Hn].
  - rewrite lookup_alter_eq, Hp. exists (f p). split; [done|]. apply Hf.
  - rewrite lookup_alter_ne by done. eauto.
Qed.

(** ** What a goroutine does in one step *)

(** How many steps a command takes at most from a place on. *)
Definition weight pc : nat :=
  match pc with
  | AtCreate _ _ => 5 | AtAdd _ => 4 | AtAdded _ => 3 | AtCreating _ => 2 | AtRunning _ => 1
  | AtTerminate _ => 4 | AtTerminating _ _ => 3 | AtTerminated _ _ => 2 | AtDelete _ => 1
  | AtOpen _ _ | AtClose _ _ => 2 | AtOpening _ _ | AtClosing _ _ => 1
  | _ => 0
  end.
(** The commands that need a permit. *)
Definition pod_pc pc : bool :=
  match pc with
  | AtCreate _ _ | AtAdd _ | AtAdded _ | AtCreating _ | AtRunning _
  | AtTerminate _ | AtTerminating _ _ | AtTerminated _ _ | AtDelete _ => true
  | _ => false
  end.
Definition next_pcs (r : result (list sim_pc)) : list sim_pc := match r with Ok pcs => pcs | Err _ => [] end.

(** Nothing is said, a new revision is announced, or a full report is sent with the revision read before. *)
Inductive speaks n pc n' : Prop :=
  | speaks_not : sn_sent n' = sn_sent n -> sn_Revision n' = sn_Revision n -> speaks n pc n'
  | speaks_next body : sn_sent n' = sn_sent n ++ [ToCore body] -> sn_Revision n' = i64 (sn_Revision n + 1) ->
    announces (i64 (sn_Revision n + 1)) body -> speaks n pc n'
  | speaks_full revision node states : sn_sent n' = sn_sent n ++ [ToCore (NodeState node revision states)] ->
    sn_Revision n' = sn_Revision n -> pc = AtReport revision -> speaks n pc n'
  | speaks_registry revision body : sn_sent n' = sn_sent n ++ [ToCore body] ->
    sn_Revision n' = sn_Revision n -> pc = AtRegistering revision -> speaks n pc n'.

(** The revision of a full report is the one of the moment it was begun. *)
Definition reads n pc : Prop :=
  match pc with
  | AtReport revision => revision = sn_Revision n
  | AtRegistering _ => sn_state n = NodeStateRegistering
  | _ => True
  end.

Record moves n pc (r : result (list sim_pc)) n' : Prop := {
  mv_frame : sn_go n' = sn_go n /\ sn_permits n' = sn_permits n /\ sn_syncing n' = sn_syncing n /\
             sn_mailbox n' = sn_mailbox n;
  mv_heap : heap_ok n';
  mv_grows : grows (sn_objs n) (sn_objs n');
  mv_calm : is_panic r = false;
  mv_next : Forall (ptr_ok (sn_objs n')) (next_pcs r);
  mv_weight : match next_pcs r with
              | [] => True
              | [pc'] => ((weight pc' = 0 /\ weight pc = 0) \/ weight pc' < weight pc)%nat /\ (pod_pc pc = true -> pod_pc pc' = true)
              | _ => weight pc = 0%nat /\ Forall (fun pc' => weight pc' = 0%nat) (next_pcs r)
              end;
  mv_state : sn_state n = NodeStateReady -> sn_state n' = NodeStateReady;
  mv_speaks : speaks n pc n';
  mv_reads : Forall (reads n) (next_pcs r)
}.

(** A step that leaves the state alone. *)
Lemma moves_still n pc r :
  heap_ok n -> is_panic r = false -> Forall (ptr_ok (sn_objs n)) (next_pcs r) ->
  match next_pcs r with
  | [] => True
  | [pc'] => ((weight pc' = 0 /\ weight pc = 0) \/ weight pc' < weight pc)%nat /\ (pod_pc pc = true -> pod_pc pc' = true)
  | _ => False
  end ->
  Forall (reads n) (next_pcs r) ->
  moves n pc r n.
Proof.
  intros Hh Hp Hn Hw Hr. split; try done; [by destruct (next_pcs r) as [|? []]|by apply speaks_not].
Qed.

Lemma heap_ok_alter f l n : keeps_sessions f -> heap_ok n -> heap_ok (set_sn_objs (alter f l (sn_objs n)) n).
Proof.
  intros Hf [H1 H2]. split; cbn.
  - intros id l' Hl. apply lookup_alter_is_Some. eauto.
  - intros l' p id s. destruct (decide (l = l')) as [->|Hn].
    + rewrite lookup_alter_eq. intros (p0 & Hp0 & ->)%fmap_Some. apply (proj2 (Hf p0)). eauto.
    + rewrite lookup_alter_ne by done. eauto.
Qed.
(** A step of a command that only changes a pod. *)
Lemma moves_on_pod f l n pc pc' :
  keeps_sessions f -> heap_ok n -> ptr_ok (sn_objs n) pc' -> (0 < weight pc' < weight pc)%nat ->
  (pod_pc pc = true -> pod_pc pc' = true) ->
  moves n pc (Ok [pc']) (set_sn_objs (alter f l (sn_objs n)) n).
Proof.
  intros Hf Hh Hp Hw Hpod. pose proof (grows_alter f l (sn_objs n) Hf) as Hg. split; try done.
  - by apply heap_ok_alter.
  - constructor; [|constructor]. by eapply grows_ptr.
  - split; [right; lia|done].
  - by apply speaks_not.
  - constructor; [|constructor]. destruct pc'; simpl in *; done || lia.
Qed.
(** The parts under the mutex: the pod changes, the revision is taken and announced. *)
Lemma moves_announce n pc r n' body :
  sn_go n' = sn_go n -> sn_permits n' = sn_permits n -> sn_syncing n' = sn_syncing n -> sn_mailbox n' = sn_mailbox n ->
  sn_state n' = sn_state n -> heap_ok n' -> grows (sn_objs n) (sn_objs n') -> is_panic r = false ->
  match next_pcs r with
  | [] => True
  | [pc'] => ptr_ok (sn_objs n') pc' /\ ((weight pc' = 0 /\ weight pc = 0) \/ weight pc' < weight pc)%nat /\
             (pod_pc pc = true -> pod_pc pc' = true) /\
             match pc' with AtReport _ | AtRegistering _ => False | _ => True end
  | _ => False
  end ->
  sn_sent n' = sn_sent n ++ [ToCore body] -> sn_Revision n' = i64 (sn_Revision n + 1) ->
  announces (i64 (sn_Revision n + 1)) body -> moves n pc r n'.
Proof.
  intros Hg Hp Hs Hm Hst Hh Hgr Hc Hn He Hr Ha. split; try done.
  - destruct (next_pcs r) as [|pc' []]; [constructor| |done]. constructor; [apply Hn|constructor].
  - destruct (next_pcs r) as [|pc' []]; [done| |done]. split; apply Hn.
  - congruence.
  - by eapply speaks_next.
  - destruct (next_pcs r) as [|pc' []]; [constructor| |done]. constructor; [|constructor].
    destruct Hn as (_ & _ & _ & Hn). by destruct pc'.
Qed.

Lemma sim_report_pod_eq n l p :
  sn_objs n !! l = Some p -> exists n',
  sim_report_pod l n = (Ok (), n') /\ sn_objs n' = alter (with_resource_version (i64 (sn_Revision n + 1))) l (sn_objs n) /\
  sn_Pods n' = sn_Pods n /\ sn_go n' = sn_go n /\ sn_permits n' = sn_permits n /\ sn_syncing n' = sn_syncing n /\
  sn_mailbox n' = sn_mailbox n /\ sn_state n' = sn_state n /\ sn_Revision n' = i64 (sn_Revision n + 1) /\
  sn_sent n' = sn_sent n ++ [ToCore (BuildFornaxcoreGrpcPodState (i64 (sn_Revision n + 1))
                               (with_resource_version (i64 (sn_Revision n + 1)) p))].
Proof.
  intros Hp. eexists. unfold sim_report_pod, sim_incrementNodeRevision, sim_on_pod, sim_pod, sim_notify.
  rewrite sm_bind_eq. cbn beta iota zeta. rewrite sm_bind_eq, sm_modify_eq, sm_bind_eq. cbn.
  rewrite lookup_alter_eq, Hp. cbn. by repeat split.
Qed.
Lemma keeps_version v : keeps_sessions (with_resource_version v).
Proof. by apply keeps_same. Qed.

(** A step that changes nothing: every side condition is about the literal list of places. *)
Ltac still := apply moves_still; cbn; [auto|done|repeat constructor; eauto|first [done|split; [lia|done]]|repeat constructor; auto].

Lemma sim_add_eq now state pod daemon n : exists n' l fpod,
  sim_createPodAndActor now state pod daemon n = (Ok l, n') /\ sn_objs n !! l = None /\
  fp_Sessions fpod = ∅ /\
  n' = set_sn_Pods (<[Identifier fpod := l]> (sn_Pods n)) (set_sn_objs (<[l := fpod]> (sn_objs n)) n).
Proof.
  unfold sim_createPodAndActor. rewrite sm_bind_eq. cbn [sim_get]. rewrite sm_bind_eq, sm_modify_eq, sm_ret_eq.
  eexists _, _, (sim_buildAFornaxPod now state pod daemon n). split; [done|].
  split; [apply not_elem_of_dom, is_fresh|done].
Qed.

Lemma added_grows n l fpod : sn_objs n !! l = None -> grows (sn_objs n) (<[l := fpod]> (sn_objs n)).
Proof. intros Hl l' p Hp. rewrite lookup_insert_ne by congruence. eauto. Qed.
Lemma added_heap n l fpod :
  sn_objs n !! l = None -> fp_Sessions fpod = ∅ -> heap_ok n ->
  heap_ok (set_sn_Pods (<[Identifier fpod := l]> (sn_Pods n)) (set_sn_objs (<[l := fpod]> (sn_objs n)) n)).
Proof.
  intros Hl Hs [H1 H2]. split; cbn.
  - intros id l' [[_ <-]|[_ Hl']]%lookup_insert_Some; [rewrite lookup_insert_eq; eauto|].
    destruct (H1 id l' Hl') as [p Hp]. destruct (added_grows n l fpod Hl l' p Hp) as (p' & Hp' & _). eauto.
  - intros l' p id s [[_ <-]|[_ Hp]]%lookup_insert_Some Hid; [by rewrite Hs, lookup_empty in Hid|eauto].
Qed.

Lemma sim_report_moves n l pc next :
  heap_ok n -> is_Some (sn_objs n !! l) ->
  match next with
  | [] => True
  | [pc'] => pod_pc pc' = true /\ (weight pc' < weight pc)%nat /\ ptr_ok (sn_objs n) pc'
  | _ => False
  end ->
  moves n pc ((do! _ <- sim_report_pod l; sm_ret next) n).1 ((do! _ <- sim_report_pod l; sm_ret next) n).2.
Proof.
  intros Hh [p Hp] Hn. destruct (sim_report_pod_eq n l p Hp) as (n' & E & Ho & Hpods & ? & ? & ? & ? & ? & Hr & Hs).
  rewrite sm_bind_eq, E, sm_ret_eq. cbn [fst snd].
  assert (grows (sn_objs n) (sn_objs n')) as Hg by (rewrite Ho; apply grows_alter, keeps_version).
  eapply moves_announce; [done|done|done|done|done| |done|done| |exact Hs|done|done].
  - destruct (heap_ok_alter (with_resource_version (i64 (sn_Revision n + 1))) l n (keeps_version _) Hh) as [Hh1 Hh2].
    cbn in Hh1, Hh2. rewrite <- Ho in Hh1, Hh2. split; [by rewrite Hpods|done].
  - destruct next as [|pc' [|]]; [done| |done]. destruct Hn as (Hp' & Hw & Hptr). cbn. split; [by eapply grows_ptr|].
    split; [by right|]. split; [done|]. by destruct pc'.
Qed.

Lemma sim_create_moves now pc n :
  pod_pc pc = true -> match pc with AtTerminate _ | AtTerminating _ _ | AtTerminated _ _ | AtDelete _ => False | _ => True end ->
  heap_ok n -> ptr_ok (sn_objs n) pc -> moves n pc (sim_create now pc n).1 (sim_create now pc n).2.
Proof.
  intros Hpc Hk Hh Hptr. destruct pc; try done; unfold sim_create.
  - rewrite sm_bind_eq. cbn [sim_get]. case_bool_decide; [still|].
    destruct (sn_Pods n !! podIdentifier); still.
  - destruct (sim_add_eq now PodStateCreating pod false n) as (n' & l & fpod & E & Hl & Hs & ->). rewrite sm_bind_eq, E, sm_ret_eq.
    pose proof (added_grows n l fpod Hl) as Hg. split; try done; cbn.
    + by apply added_heap.
    + repeat constructor. simpl. rewrite lookup_insert_eq. eauto.
    + split; [lia|done].
    + by apply speaks_not.
    + repeat constructor.
  - rewrite sm_bind_eq. unfold sim_on_pod. rewrite sm_modify_eq, sm_ret_eq.
    apply moves_on_pod; [by apply keeps_same|done|done|simpl; lia|done].
  - rewrite sm_bind_eq. unfold sim_on_pod. rewrite sm_modify_eq, sm_ret_eq.
    apply moves_on_pod; [by apply keeps_same|done|done|simpl; lia|done].
  - by apply sim_report_moves.
Qed.

Lemma sim_terminate_moves pc n :
  match pc with AtTerminate _ | AtTerminating _ _ | AtTerminated _ _ | AtDelete _ => True | _ => False end ->
  heap_ok n -> ptr_ok (sn_objs n) pc -> moves n pc (sim_terminate pc n).1 (sim_terminate pc n).2.
Proof.
  intros Hk Hh Hptr. destruct pc; try done; unfold sim_terminate.
  - rewrite sm_bind_eq. cbn [sim_get]. destruct (sn_Pods n !! podIdentifier) as [l|] eqn:Hl; still.
    apply (ho_pods n Hh _ _ Hl).
  - rewrite sm_bind_eq. unfold sim_on_pod. rewrite sm_modify_eq, sm_ret_eq.
    apply moves_on_pod; [by apply keeps_same|done|done|simpl; lia|done].
  - apply sim_report_moves; [done|done|]. cbn. split; [done|split; [lia|done]].
  - rewrite sm_bind_eq, sm_modify_eq, sm_ret_eq. split; cbn; try done; [|by apply speaks_not].
    destruct Hh as [H1 H2]. split; cbn; [|done]. intros id l [_ Hl]%lookup_delete_Some. eauto.
Qed.

Lemma announces_session v fsess :
  exists body, BuildFornaxcoreGrpcSessionState v fsess = Some body /\ announces v body.
Proof.
  unfold BuildFornaxcoreGrpcSessionState, session_state. destruct (codec_ok (fs_Session fsess)) as (data & s' & -> & Hs).
  eexists. split; [done|]. simpl. eauto.
Qed.

(** The pod [l] changes by [f], a new revision is announced. *)
Lemma moves_session f l n pc fsess :
  keeps_sessions f -> heap_ok n -> exists n',
  (do! _ <- sim_on_pod l f; do! _ <- sim_notify_session (i64 (sn_Revision n + 1)) fsess; sm_ret ([] : list sim_pc))
    (sim_incrementNodeRevision n).2 = (Ok [], n') /\ moves n pc (Ok []) n'.
Proof.
  intros Hf Hh. destruct (announces_session (i64 (sn_Revision n + 1)) fsess) as (body & E & Ha).
  eexists. split.
  - unfold sim_on_pod, sim_notify_session. rewrite E. rewrite sm_bind_eq, sm_modify_eq, sm_bind_eq.
    unfold sim_notify. by rewrite sm_modify_eq, sm_ret_eq.
  - eapply moves_announce; try done; cbn; [|by apply grows_alter].
    destruct (heap_ok_alter f l n Hf Hh). by split.
Qed.

Lemma sim_open_moves pc n :
  match pc with AtOpen _ _ | AtOpening _ _ => True | _ => False end ->
  heap_ok n -> ptr_ok (sn_objs n) pc -> moves n pc (sim_open pc n).1 (sim_open pc n).2.
Proof.
  intros Hk Hh Hptr. destruct pc; try done; unfold sim_open.
  - rewrite sm_bind_eq. cbn [sim_get]. case_bool_decide; [still|]. destruct (json_Unmarshal sessionData); [|still].
    destruct (sn_Pods n !! podIdentifier) as [l|] eqn:Hl; still. apply (ho_pods n Hh _ _ Hl).
  - destruct Hptr as [p Hp]. rewrite sm_bind_eq. unfold sim_pod. rewrite Hp, sm_bind_eq.
    change (sim_incrementNodeRevision n) with (Ok (i64 (sn_Revision n + 1)), (sim_incrementNodeRevision n).2) at 1 2.
    cbv beta iota zeta.
    match goal with |- context [sim_put_session ?x ?y] => destruct (moves_session (sim_put_session x y) l n (AtOpening l sess) y (keeps_put x y) Hh) as (n' & E & Hm) end.
    by rewrite E.
Qed.

Lemma sim_close_moves pc n :
  match pc with AtClose _ _ | AtClosing _ _ => True | _ => False end ->
  heap_ok n -> ptr_ok (sn_objs n) pc -> moves n pc (sim_close pc n).1 (sim_close pc n).2.
Proof.
  intros Hk Hh Hptr. destruct pc; try done; unfold sim_close.
  - rewrite sm_bind_eq. cbn [sim_get]. destruct (sn_Pods n !! podId) as [l|] eqn:Hl; [|still].
    destruct (ho_pods n Hh _ _ Hl) as [p Hp]. rewrite sm_bind_eq. unfold sim_pod. rewrite Hp.
    destruct (fp_Sessions p !! sessId) as [s|] eqn:Hs; still. exists p. split; [done|]. by eapply (ho_sessions n Hh).
  - destruct Hptr as (p & Hp & fsess & Hs). rewrite sm_bind_eq.
    change (sim_incrementNodeRevision n) with (Ok (i64 (sn_Revision n + 1)), (sim_incrementNodeRevision n).2).
    cbv beta iota zeta.
    pose (f := sim_on_session s (with_session_status (i64 (sn_Revision n + 1)) SessionStatusClosed)).
    pose (fsess' := mkFornaxSession (fs_Identifier fsess) (fs_PodIdentifier fsess)
                      (with_session_status (i64 (sn_Revision n + 1)) SessionStatusClosed (fs_Session fsess))).
    destruct (moves_session f l n (AtClosing l s) fsess' (keeps_on_session _ _) Hh) as (n' & E & Hm).
    rewrite sm_bind_eq in E. rewrite sm_bind_eq. fold f. unfold sim_on_pod in *. rewrite sm_modify_eq in *.
    rewrite sm_bind_eq. unfold sim_pod. cbn. rewrite lookup_alter_eq, Hp. cbn. rewrite lookup_alter_eq, Hs. cbn.
    fold fsess'. cbn in E. by rewrite E.
Qed.
(** A step that changes nothing of what a report or a goroutine depends on. *)
Lemma moves_quiet n pc pc' n' :
  sn_go n' = sn_go n -> sn_permits n' = sn_permits n -> sn_syncing n' = sn_syncing n -> sn_mailbox n' = sn_mailbox n ->
  sn_objs n' = sn_objs n -> sn_Pods n' = sn_Pods n -> sn_state n' = sn_state n ->
  heap_ok n -> weight pc = 0%nat -> pod_pc pc = false -> weight pc' = 0%nat -> ptr_ok (sn_objs n) pc' -> reads n pc' ->
  speaks n pc n' -> moves n pc (Ok [pc']) n'.
Proof.
  intros ? ? ? ? Ho Hp Hs [H1 H2] ? Hpc ? ? ? ?. split; cbn; try done.
  - split; rewrite Ho, ?Hp; auto.
  - by rewrite Ho.
  - constructor; [by rewrite Ho|constructor].
  - split; [by left|by rewrite Hpc].
  - congruence.
  - repeat constructor; done.
Qed.

Lemma sim_register_moves pc n :
  match pc with AtRegister | AtRegistering _ => True | _ => False end ->
  heap_ok n -> moves n pc (sim_register pc n).1 (sim_register pc n).2.
Proof.
  intros Hk Hh. destruct pc; try done; unfold sim_register.
  - rewrite sm_bind_eq. cbn [sim_get]. case_bool_decide as Hst; [still|].
    by apply moves_quiet; try done; apply speaks_not.
  - rewrite sm_bind_eq. cbn [sim_get]. rewrite sm_bind_eq. unfold sim_notify. rewrite sm_modify_eq, sm_ret_eq.
    by apply moves_quiet; try done; eapply speaks_registry.
Qed.

Lemma sim_ready_moves now pc n :
  match pc with AtReady | AtReadyReport | AtReadyDone => True | _ => False end ->
  heap_ok n -> moves n pc (sim_ready now pc n).1 (sim_ready now pc n).2.
Proof.
  intros Hk Hh. destruct pc; try done; unfold sim_ready.
  - rewrite sm_bind_eq. cbn [sim_get]. case_bool_decide; [still|].
    rewrite sm_bind_eq. unfold sim_SetNodeStatus. rewrite sm_modify_eq, sm_bind_eq. cbn [sim_get]. rewrite sm_ret_eq.
    apply moves_quiet; try done; try (by destruct (sim_IsNodeStatusReady _)). by apply speaks_not.
  - rewrite sm_bind_eq. unfold sim_incrementNodeRevision. cbv beta iota zeta. rewrite sm_bind_eq, sm_modify_eq, sm_bind_eq.
    cbn [sim_get]. rewrite sm_bind_eq. unfold sim_notify. rewrite sm_modify_eq, sm_ret_eq.
    eapply moves_announce; try done; cbn; [|by split; [|split; [left|]]]. by destruct Hh; split.
  - rewrite sm_bind_eq, sm_modify_eq, sm_ret_eq. destruct Hh.
    split; cbn; try done; [repeat constructor|by split; [|repeat constructor]|by apply speaks_not|repeat constructor].
Qed.

Lemma sim_state_report_moves now pc n :
  match pc with AtStateReport | AtReport _ => True | _ => False end ->
  heap_ok n -> moves n pc (sim_state_report now pc n).1 (sim_state_report now pc n).2.
Proof.
  intros Hk Hh. destruct pc; try done; unfold sim_state_report.
  - rewrite sm_bind_eq. unfold sim_SetNodeStatus. rewrite sm_modify_eq, sm_bind_eq. cbn [sim_get]. rewrite sm_ret_eq.
    by apply moves_quiet; try done; apply speaks_not.
  - rewrite sm_bind_eq. unfold sim_send_state. rewrite sm_bind_eq. cbn [sim_get]. unfold sim_notify.
    rewrite sm_modify_eq, sm_ret_eq. by apply moves_quiet; try done; eapply speaks_full.
Qed.

Lemma sim_run_moves now pc n :
  heap_ok n -> ptr_ok (sn_objs n) pc -> moves n pc (sim_run now pc n).1 (sim_run now pc n).2.
Proof.
  intros Hh Hptr. destruct pc; unfold sim_run;
    first [by apply sim_register_moves|by apply sim_ready_moves|by apply sim_state_report_moves
          |by apply sim_create_moves|by apply sim_terminate_moves|by apply sim_open_moves|by apply sim_close_moves].
Qed.

(** ** The whole node *)

(** Every goroutine holds valid pointers, only commands for pods use permits, and none is lost. *)
Definition go_ok objs (g : goroutine) : Prop :=
  ptr_ok objs (g_pc g) /\ (g_permit g <> NoPermit -> pod_pc (g_pc g) = true).
Definition holders (gs : list goroutine) : Z := Z.of_nat (List.length (filter (fun g => g_permit g = HoldsPermit) gs)).
Record sim_wf (PodConcurrency : Z) n : Prop := {
  wf_heap : heap_ok n;
  wf_go : Forall (go_ok (sn_objs n)) (sn_go n);
  wf_permits : sn_permits n + holders (sn_go n) = PodConcurrency;
  wf_available : 0 <= sn_permits n
}.

Lemma holders_app gs1 gs2 : holders (gs1 ++ gs2) = holders gs1 + holders gs2.
Proof. unfold holders. rewrite filter_app, length_app. lia. Qed.
Lemma holders_cons g gs : holders (g :: gs) = (if decide (g_permit g = HoldsPermit) then 1 else 0) + holders gs.
Proof. unfold holders. rewrite filter_cons. case_decide; cbn [List.length]; lia. Qed.
Lemma go_ok_grows objs objs' gs : grows objs objs' -> Forall (go_ok objs) gs -> Forall (go_ok objs') gs.
Proof. intros Hg. intros H. eapply Forall_impl; [exact H|]. intros g [H1 H2]. split; [by eapply grows_ptr|done]. Qed.

(** What remains to be done, waiting for a permit included. *)
Definition remaining (g : goroutine) : nat :=
  weight (g_pc g) + (if decide (g_permit g = WantsPermit) then 1 else 0).
Definition total (gs : list goroutine) : nat := sum_list_with remaining gs.

(** One goroutine in the middle of the others. *)
Inductive resumes n (g : goroutine) (gs1 gs2 : list goroutine) n' : Prop :=
  | resumes_acquire : g_permit g = WantsPermit -> 0 < sn_permits n ->
    n' = set_sn_go (sn_permits n - 1) (gs1 ++ mkGo _ HoldsPermit (g_pc g) :: gs2) n -> resumes n g gs1 gs2 n'
  | resumes_run r n1 : g_permit g <> WantsPermit -> moves n (g_pc g) r n1 ->
    n' = set_sn_go (if bool_decide (g_permit g = HoldsPermit) && bool_decide (List.length (next_pcs r) = 0%nat)
                    then sn_permits n + 1 else sn_permits n)
           (gs1 ++ map (mkGo _ (g_permit g)) (next_pcs r) ++ gs2) (set_sn_crashed false n1) -> resumes n g gs1 gs2 n'.

Lemma sim_resume_spec now i n n' :
  heap_ok n -> Forall (go_ok (sn_objs n)) (sn_go n) -> sim_resume now i n = Some n' ->
  exists g gs1 gs2, sn_go n = gs1 ++ g :: gs2 /\ List.length gs1 = i /\ resumes n g gs1 gs2 n'.
Proof.
  intros Hh Hgo. unfold sim_resume. destruct (sn_go n !! i) as [g|] eqn:Hi; [|done].
  pose proof (take_drop_middle _ _ _ Hi) as Hsplit. pose proof (lookup_lt_Some _ _ _ Hi) as Hlen.
  intros E. exists g, (take i (sn_go n)), (drop (Datatypes.S i) (sn_go n)).
  split; [done|]. split; [rewrite length_take; lia|].
  destruct (decide (g_permit g = WantsPermit)) as [Hw|Hw].
  - rewrite Hw in E. destruct (Z.ltb_spec 0 (sn_permits n)); [|done]. injection E as <-.
    apply resumes_acquire; auto. by rewrite insert_take_drop.
  - pose proof (Forall_lookup_1 _ _ _ _ Hgo Hi) as [Hptr _].
    pose proof (sim_run_moves now (g_pc g) n Hh Hptr) as Hm. apply (resumes_run _ _ _ _ _ _ _ Hw Hm).
    unfold sim_outcome in E. rewrite (mv_calm _ _ _ _ Hm) in E. destruct (g_permit g); [|done|]; by injection E as <-.
Qed.
(** A goroutine that does not wait for a permit, or finds one, can run. *)
Lemma sim_resume_can now n g gs1 gs2 :
  sn_go n = gs1 ++ g :: gs2 -> (g_permit g = WantsPermit -> 0 < sn_permits n) ->
  exists n', sim_resume now (List.length gs1) n = Some n'.
Proof.
  intros Hgo Hp. unfold sim_resume. rewrite Hgo, lookup_app_r, Nat.sub_diag by lia. cbn.
  destruct (g_permit g); [eauto| |eauto]. destruct (Z.ltb_spec 0 (sn_permits n)); [eauto|]. specialize (Hp eq_refl). lia.
Qed.
Lemma next_go_ok n p pc r n' :
  moves n pc r n' -> (p <> NoPermit -> pod_pc pc = true) -> Forall (go_ok (sn_objs n')) (map (mkGo _ p) (next_pcs r)).
Proof.
  intros Hm Hp. pose proof (mv_next _ _ _ _ Hm) as Hn. pose proof (mv_weight _ _ _ _ Hm) as Hw.
  destruct (next_pcs r) as [|pc1 [|pc2 l]].
  - constructor.
  - apply Forall_cons in Hn as [Hn _]. constructor; [|constructor]. split; [exact Hn|]. cbn. intros H. apply Hw. auto.
  - apply Forall_map. eapply Forall_impl; [exact Hn|]. intros pc' Hpc'. split; [done|]. cbn. intros H.
    exfalso. specialize (Hp H). destruct Hw as [Hw _]. destruct pc; done.
Qed.
Lemma next_holders n p pc r n' :
  moves n pc r n' -> (p <> NoPermit -> pod_pc pc = true) ->
  holders (map (mkGo _ p) (next_pcs r)) =
  if bool_decide (p = HoldsPermit) && negb (bool_decide (List.length (next_pcs r) = 0%nat)) then 1 else 0.
Proof.
  intros Hm Hp. pose proof (mv_weight _ _ _ _ Hm) as Hw. destruct (next_pcs r) as [|pc1 [|pc2 l]].
  - cbn. by rewrite andb_false_r.
  - cbn [map]. rewrite holders_cons. cbn. by destruct p.
  - assert (p = NoPermit) as ->.
    { destruct p; [done|exfalso..]; (assert (pod_pc pc = true) as H by auto); destruct Hw as [Hw _]; by destruct pc. }
    cbn [bool_decide andb]. clear. generalize (pc1 :: pc2 :: l) as pcs. intros pcs.
    induction pcs as [|pc0 pcs IH]; [done|]. cbn [map]. by rewrite holders_cons, IH.
Qed.

Lemma resumes_wf PodConcurrency n g gs1 gs2 n' :
  sim_wf PodConcurrency n -> sn_go n = gs1 ++ g :: gs2 -> sn_crashed n = false -> resumes n g gs1 gs2 n' ->
  sim_wf PodConcurrency n' /\ sn_crashed n' = false.
Proof.
  intros [Hh Hgo Hp Ha] E Hc Hr. rewrite E in Hgo, Hp. rewrite holders_app, holders_cons in Hp.
  apply Forall_app in Hgo as [Hgo1 [Hg Hgo2]%Forall_cons].
  destruct Hr as [Hw Hpos ->|r n1 Hw Hm ->].
  - split; [|done]. rewrite decide_False in Hp by congruence.
    split; cbn; [by destruct Hh|apply Forall_app; split; [done|]; constructor; [|done]| |lia].
    + split; [apply Hg|]. intros _. apply Hg. by rewrite Hw.
    + rewrite holders_app, holders_cons, decide_True by done. lia.
  - split; [|done]. pose proof (mv_grows _ _ _ _ Hm) as Hgr. pose proof (mv_heap _ _ _ _ Hm) as [H1 H2].
    split; cbn; [by split| | |by destruct (_ && _); lia].
    + apply Forall_app; split; [by eapply go_ok_grows|]. apply Forall_app; split; [|by eapply go_ok_grows].
      eapply next_go_ok; [done|]. apply Hg.
    + rewrite !holders_app, (next_holders _ _ _ _ _ Hm) by apply Hg.
      repeat case_bool_decide; cbn; destruct (decide (g_permit g = HoldsPermit)); try done; lia.
Qed.

Lemma sum_app gs1 gs2 : total (gs1 ++ gs2) = (total gs1 + total gs2)%nat.
Proof. apply sum_list_with_app. Qed.
Lemma total_cons g gs : total (g :: gs) = (remaining g + total gs)%nat.
Proof. done. Qed.
Lemma resumes_total n g gs1 gs2 n' :
  sn_go n = gs1 ++ g :: gs2 -> go_ok (sn_objs n) g -> weight (g_pc g) <> 0%nat -> resumes n g gs1 gs2 n' ->
  (total (sn_go n') < total (sn_go n))%nat.
Proof.
  intros E Hg Hw0 Hr. rewrite E. destruct Hr as [Hw Hpos ->|r n1 Hw Hm ->]; cbn [sn_go set_sn_go];
    rewrite !sum_app, !total_cons; unfold remaining; cbn [g_pc g_permit].
  - rewrite (decide_True (P := g_permit g = WantsPermit)), (decide_False (P := HoldsPermit = WantsPermit)) by done. lia.
  - pose proof (mv_weight _ _ _ _ Hm) as Hlt. destruct (next_pcs r) as [|pc1 [|pc2 l]]; cbn [map].
    + cbn [total sum_list_with]. lia.
    + rewrite total_cons. unfold remaining. cbn [g_pc g_permit total sum_list_with].
      rewrite (decide_False (P := g_permit g = WantsPermit)) by done. lia.
    + by destruct Hlt.
Qed.
Lemma total_zero gs : total gs = 0%nat -> Forall (fun g => weight (g_pc g) = 0%nat) gs.
Proof.
  unfold total. induction gs as [|g gs IH]; cbn; [constructor|]. unfold remaining at 1. intros H.
  constructor; [lia|apply IH; lia].
Qed.
(** Some command can go on: a waiting one finds a permit unless another command holds them all. *)
Lemma some_command_runs now PodConcurrency n :
  0 < PodConcurrency -> sim_wf PodConcurrency n -> (exists g, g ∈ sn_go n /\ weight (g_pc g) <> 0%nat) ->
  exists g gs1 gs2 n', sn_go n = gs1 ++ g :: gs2 /\ weight (g_pc g) <> 0%nat /\
    sim_resume now (List.length gs1) n = Some n'.
Proof.
  intros Hpos Hwf (g & Hg & Hw).
  destruct (decide (0 < sn_permits n)) as [Hp|Hp].
  - apply list_elem_of_split in Hg as (gs1 & gs2 & E).
    destruct (sim_resume_can now n g gs1 gs2 E) as [n' Hn']; [done|]. exists g, gs1, gs2, n'. done.
  - assert (exists h, h ∈ filter (fun g => g_permit g = HoldsPermit) (sn_go n)) as [h [Hh1 Hh2]%list_elem_of_filter].
    { pose proof (wf_permits _ _ Hwf) as Hs. unfold holders in Hs.
      destruct (filter _ (sn_go n)) as [|h l]; [cbn in Hs; lia|]. exists h. left. }
    pose proof (proj1 (Forall_forall _ _) (wf_go _ _ Hwf) h Hh2) as [_ Hpod].
    apply list_elem_of_split in Hh2 as (gs1 & gs2 & E).
    destruct (sim_resume_can now n h gs1 gs2 E) as [n' Hn']; [by rewrite Hh1|]. exists h, gs1, gs2, n'.
    split; [done|]. split; [|done]. rewrite Hh1 in Hpod. specialize (Hpod ltac:(done)). by destruct (g_pc h).
Qed.

Lemma idle_holders objs gs :
  Forall (go_ok objs) gs -> Forall (fun g => weight (g_pc g) = 0%nat) gs -> holders gs = 0.
Proof.
  induction gs as [|g gs IH]; [done|]. intros [[_ Hp] Hgo]%Forall_cons [Hw Hgs]%Forall_cons.
  rewrite holders_cons, IH, decide_False by done || (intros H; rewrite H in Hp; specialize (Hp ltac:(done)); by destruct (g_pc g)).
  done.
Qed.

Lemma commands_drain (now : Z) PodConcurrency n :
  0 < PodConcurrency -> sim_wf PodConcurrency n -> sn_crashed n = false ->
  exists n', rtc sim_step n n' /\ sim_wf PodConcurrency n' /\ sn_crashed n' = false /\
    Forall (fun g => weight (g_pc g) = 0%nat) (sn_go n').
Proof.
  intros Hpos. remember (total (sn_go n)) as k eqn:Ek. revert n Ek.
  induction (lt_wf k) as [k _ IH]. intros n -> Hwf Hc.
  destruct (decide (Forall (fun g => weight (g_pc g) = 0%nat) (sn_go n))) as [H|H]; [by exists n|].
  apply not_Forall_Exists in H; [|apply _]. apply Exists_exists in H.
  destruct (some_command_runs now PodConcurrency n Hpos Hwf H) as (g & gs1 & gs2 & n1 & E & Hw & Hrun).
  destruct (sim_resume_spec now _ n n1 (wf_heap _ _ Hwf) (wf_go _ _ Hwf) Hrun) as (g' & gs1' & gs2' & E' & Hl & Hr).
  rewrite E in E'. apply app_inj_1 in E' as [<- [= <- <-]]; [|done].
  destruct (resumes_wf _ _ _ _ _ _ Hwf E Hc Hr) as [Hwf1 Hc1].
  assert (go_ok (sn_objs n) g) as Hg.
  { pose proof (wf_go _ _ Hwf) as Hf. rewrite E in Hf. apply Forall_app in Hf as [_ [Hf _]%Forall_cons]. done. }
  destruct (IH _ (resumes_total _ _ _ _ _ E Hg Hw Hr) n1 eq_refl Hwf1 Hc1) as (n' & Hrun' & H').
  exists n'. split; [|done]. eapply rtc_l; [|exact Hrun']. by eapply sim_resumed.
Qed.
(** ** The actor *)

(** Only pods are added. *)
Record adds_pods n n' : Prop := {
  ap_go : sn_go n' = sn_go n /\ sn_permits n' = sn_permits n /\ sn_syncing n' = sn_syncing n /\ sn_mailbox n' = sn_mailbox n;
  ap_said : sn_sent n' = sn_sent n /\ sn_Revision n' = sn_Revision n /\ sn_crashed n' = sn_crashed n;
  ap_heap : heap_ok n -> heap_ok n';
  ap_grows : grows (sn_objs n) (sn_objs n')
}.
#[local] Instance adds_pods_preorder : PreOrder adds_pods.
Proof.
  split; [by intros n; split|]. intros n1 n2 n3 [(?&?&?&?) (?&?&?) ? ?] [(?&?&?&?) (?&?&?) ? ?].
  split; [split_and!; congruence|split_and!; congruence|auto|by etrans].
Qed.
Lemma daemons_add_pods now pods : within adds_pods (sim_initializeNodeDaemons now pods).
Proof.
  apply (within_for adds_pods). intros p n. destruct (negb _); [done|]. destruct (negb _); [done|].
  rewrite sm_bind_eq. cbn [sim_get]. destruct (sn_Pods n !! Name p); [done|].
  destruct (sim_add_eq now PodStateRunning p true n) as (n' & l & fpod & E & Hl & Hs & ->).
  rewrite sm_bind_eq, E, sm_ret_eq. split; cbn; [done|done|by apply added_heap|by apply added_grows].
Qed.

Lemma spawn_wf PodConcurrency n p pc :
  sim_wf PodConcurrency n -> p <> HoldsPermit -> ptr_ok (sn_objs n) pc -> (p <> NoPermit -> pod_pc pc = true) ->
  sim_wf PodConcurrency (sim_spawn p pc n).2.
Proof.
  intros [[H1 H2] Hgo Hp Ha] Hn Hptr Hpod. split; cbn; [by split| | |done].
  - apply Forall_app. split; [done|]. by repeat constructor.
  - rewrite holders_app, holders_cons, decide_False by done. change (holders []) with 0. lia.
Qed.
(** A change of anything but the pods, the goroutines and their permits. *)
Lemma wf_frame PodConcurrency n n' :
  sn_go n' = sn_go n -> sn_permits n' = sn_permits n -> sn_objs n' = sn_objs n -> sn_Pods n' = sn_Pods n ->
  sim_wf PodConcurrency n -> sim_wf PodConcurrency n'.
Proof. intros Eg Ep Eo Ec [[H1 H2] ? ? ?]. split; [split|..]; by rewrite ?Eg, ?Ep, ?Eo, ?Ec. Qed.

Lemma configuration_wf PodConcurrency now apiNode daemonPods n :
  sim_wf PodConcurrency n -> sim_wf PodConcurrency (sim_onNodeConfigurationCommand now apiNode daemonPods n).2.
Proof.
  intros Hwf. unfold sim_onNodeConfigurationCommand. rewrite sm_bind_eq. cbn [sim_get]. case_bool_decide; [done|].
  rewrite sm_bind_eq, sm_modify_eq, sm_bind_eq. set (n1 := set_sn_node _ _ n).
  assert (sim_wf PodConcurrency n1) as Hwf1 by by apply (wf_frame _ n).
  pose proof (daemons_add_pods now daemonPods n1) as [(Eg & Ep & _) _ Hh Hg].
  assert (sim_wf PodConcurrency (sim_initializeNodeDaemons now daemonPods n1).2) as Hwf2.
  { destruct Hwf1 as [H1 H2 H3 H4]. split; [auto| | |by rewrite Ep]; rewrite Eg, ?Ep; [|done]. by eapply go_ok_grows. }
  destruct (sim_initializeNodeDaemons now daemonPods n1) as [[[]|e] n2]; [|done].
  rewrite sm_bind_eq, sm_modify_eq. apply spawn_wf; [|done|done|done]. by apply (wf_frame _ n2).
Qed.
Lemma process_wf PodConcurrency now m n :
  sim_wf PodConcurrency n -> sim_wf PodConcurrency (sim_processFornaxCoreMessage now m n).2.
Proof.
  intros Hwf. destruct m; cbn [sim_processFornaxCoreMessage]; try done;
    first [by apply configuration_wf|by apply spawn_wf|by eapply wf_frame; [..|exact Hwf]].
Qed.
Lemma sim_step_wf PodConcurrency n n' : sim_step n n' -> sim_wf PodConcurrency n -> sim_wf PodConcurrency n'.
Proof.
  intros Hstep Hwf. destruct Hstep as [body Hc Hb|now Hc Hs|revision Hc Hs|now i n' Hc Hr].
  - by eapply wf_frame; [..|exact Hwf].
  - unfold sim_actor_turn. destruct (sn_mailbox n) as [|m rest]; [done|]. unfold sim_outcome.
    apply (wf_frame _ (sim_processFornaxCoreMessage now m (set_sn_mailbox rest n)).2); [done..|].
    apply process_wf. by apply (wf_frame _ n).
  - by eapply wf_frame; [..|exact Hwf].
  - destruct (sim_resume_spec now i n n' (wf_heap _ _ Hwf) (wf_go _ _ Hwf) Hr) as (g & gs1 & gs2 & E & _ & Hr').
    by apply (resumes_wf _ n g gs1 gs2).
Qed.
Lemma sim_run_wf PodConcurrency n n' : rtc sim_step n n' -> sim_wf PodConcurrency n -> sim_wf PodConcurrency n'.
Proof. induction 1; eauto using sim_step_wf. Qed.
Lemma start_wf now uid hostIp hostName goos goarch namespace PodConcurrency :
  0 <= PodConcurrency ->
  sim_wf PodConcurrency (sim_Start (sim_NewNodeActor now uid hostIp hostName goos goarch namespace PodConcurrency)).
Proof.
  intros H. split; cbn; [|by repeat constructor| |done].
  - by split; cbn; intros; simplify_map_eq.
  - change (holders [mkGo _ NoPermit AtRegister]) with 0. lia.
Qed.

(** C22: Commands are carried out to their end.  From every state the simulated node can reach and in
    which it has not crashed, the goroutines that create and terminate pods and open and close sessions
    can run until all of them have returned, although they wait for each other's permits; at most
    [PodConcurrency] of them work on pods at the same time, and in the end every permit is back. *)
Theorem sim_commands_finish now uid hostIp hostName goos goarch namespace PodConcurrency n :
  0 < PodConcurrency ->
  rtc sim_step (sim_Start (sim_NewNodeActor now uid hostIp hostName goos goarch namespace PodConcurrency)) n ->
  sn_crashed n = false ->
  holders (sn_go n) <= PodConcurrency /\
  exists n', rtc sim_step n n' /\ sn_crashed n' = false /\
    Forall (fun g => weight (g_pc g) = 0%nat) (sn_go n') /\ sn_permits n' = PodConcurrency.
Proof.
  intros Hpos Hrun Hc.
  pose proof (sim_run_wf _ _ _ Hrun (start_wf now uid hostIp hostName goos goarch namespace PodConcurrency ltac:(lia))) as Hwf.
  split; [pose proof (wf_permits _ _ Hwf); pose proof (wf_available _ _ Hwf); lia|].
  destruct (commands_drain now PodConcurrency n Hpos Hwf Hc) as (n' & Hrun' & Hwf' & Hc' & Hdone).
  exists n'. split_and!; [done..|]. rewrite <- (wf_permits _ _ Hwf'), (idle_holders _ _ (wf_go _ _ Hwf') Hdone). lia.
Qed.
(** ** Reports of a ready node *)

(** A full report in the making has a revision the node announced, and not the first one. *)
Definition pending (current : Z) pc : Prop :=
  match pc with AtReport revision => 1 < revision <= current | AtRegistering _ => False | _ => True end.
Lemma pending_later v v' pc : v <= v' -> pending v pc -> pending v' pc.
Proof. destruct pc; simpl; try done. lia. Qed.

Record sim_inv (PodConcurrency r0 : Z) n : Prop := {
  iv_wf : sim_wf PodConcurrency n;
  iv_state : sn_state n = NodeStateReady;
  iv_reported : reported r0 (sn_sent n) (sn_Revision n);
  iv_pending : Forall (fun g => pending (sn_Revision n) (g_pc g)) (sn_go n);
  iv_syncing revision : sn_syncing n = Some revision -> 1 < revision <= sn_Revision n;
  iv_commands : Forall is_command (sn_mailbox n);
  iv_revision : 1 < sn_Revision n
}.
Section Ready.
Context (PodConcurrency r0 : Z).
Hypothesis Hr0 : 0 <= r0.
Definition bounded n : Prop := r0 + Z.of_nat (List.length (sn_sent n)) < 2 ^ 63.

(** What a step says keeps the order. *)
Lemma speaks_reported n pc n' :
  sim_inv PodConcurrency r0 n -> pending (sn_Revision n) pc -> speaks n pc n' -> bounded n' ->
  reported r0 (sn_sent n') (sn_Revision n') /\ sn_Revision n <= sn_Revision n'.
Proof.
  intros Hi Hp Hs Hb. pose proof (iv_reported _ _ _ Hi) as Hrep. pose proof (iv_revision _ _ _ Hi) as Hrev.
  destruct Hs as [-> ->|body E Er Ha|revision node states E Er ->|revision body E Er ->]; unfold bounded in Hb.
  - split; [done|lia].
  - rewrite E, length_app in Hb. cbn [List.length] in Hb.
    pose proof (reported_bounds _ _ _ Hrep Hr0 ltac:(lia)) as Hle. rewrite E, Er.
    split; [eapply reported_app; [done|]; apply reported_next; [done|constructor]|]. rewrite wraps_small by lia. lia.
  - rewrite E, Er. split; [|lia]. eapply reported_app; [done|]. apply reported_late; [done|constructor].
  - done.
Qed.

Lemma resumed_inv n g gs1 gs2 n' :
  sim_inv PodConcurrency r0 n -> sn_crashed n = false -> sn_go n = gs1 ++ g :: gs2 -> resumes n g gs1 gs2 n' ->
  bounded n' -> sim_inv PodConcurrency r0 n'.
Proof.
  intros Hi Hc E Hr Hb. pose proof (resumes_wf _ _ _ _ _ _ (iv_wf _ _ _ Hi) E Hc Hr) as [Hwf' _].
  pose proof (iv_pending _ _ _ Hi) as Hp. rewrite E in Hp. apply Forall_app in Hp as [Hp1 [Hpg Hp2]%Forall_cons].
  destruct Hi as [Hwf Hst Hrep Hpend Hsync Hcmd Hrev] eqn:EHi.
  destruct Hr as [Hw Hpos ->|r n1 Hw Hm ->].
  - split; [done..| |done|done|done]. cbn. apply Forall_app. split; [done|]. by constructor.
  - destruct (speaks_reported n (g_pc g) n1 Hi Hpg (mv_speaks _ _ _ _ Hm) Hb) as [Hrep' Hle].
    pose proof (mv_frame _ _ _ _ Hm) as (Hgo & _ & Hsy & Hmb). pose proof (mv_reads _ _ _ _ Hm) as Hread.
    assert (forall gs, Forall (fun g => pending (sn_Revision n) (g_pc g)) gs ->
                       Forall (fun g => pending (sn_Revision n1) (g_pc g)) gs) as Hlater.
    { intros gs H. eapply Forall_impl; [exact H|]. intros g'. by apply pending_later. }
    split; cbn; [done|by apply (mv_state _ _ _ _ Hm)|done| | |by rewrite Hmb|lia].
    + apply Forall_app; split; [by apply Hlater|]. apply Forall_app; split; [|by apply Hlater].
      apply Forall_map. eapply Forall_impl; [exact Hread|]. intros pc Hpc. cbn.
      destruct pc; simpl in *; try done; [congruence|lia].
    + intros revision. rewrite Hsy. intros H%Hsync. lia.
Qed.

(** The node stays ready: a configuration that arrives now is refused. *)
Lemma process_inv now m n :
  is_command m -> sim_inv PodConcurrency r0 n -> sim_inv PodConcurrency r0 (sim_outcome (sim_processFornaxCoreMessage now m n)).
Proof.
  intros Hm Hi. assert (sim_wf PodConcurrency (sim_outcome (sim_processFornaxCoreMessage now m n))) as Hwf.
  { unfold sim_outcome. eapply wf_frame; [..|apply (process_wf _ now m n), (iv_wf _ _ _ Hi)]; done. }
  destruct Hi as [_ Hst Hrep Hpend Hsync Hcmd Hrev]. destruct m; try done.
  - revert Hwf. unfold sim_outcome. cbn [sim_processFornaxCoreMessage]. unfold sim_onNodeConfigurationCommand.
    rewrite sm_bind_eq. cbn [sim_get]. rewrite Hst. intros Hwf. by split.
  - split; cbn; try done. intros revision [= <-]. lia.
  - split; cbn; try done. apply Forall_app. split; [done|]. by repeat constructor.
  - split; cbn; try done. apply Forall_app. split; [done|]. by repeat constructor.
  - split; cbn; try done. apply Forall_app. split; [done|]. by repeat constructor.
  - split; cbn; try done. apply Forall_app. split; [done|]. by repeat constructor.
Qed.

Lemma sim_step_inv n n' :
  sim_step n n' -> bounded n' -> sim_inv PodConcurrency r0 n -> sim_inv PodConcurrency r0 n'.
Proof.
  intros Hstep Hb Hi. pose proof (sim_step_wf PodConcurrency _ _ Hstep (iv_wf _ _ _ Hi)) as Hwf'.
  destruct Hstep as [body Hc Hbody|now Hc Hs|revision Hc Hs|now i n' Hc Hr].
  - destruct Hi. split; cbn; try done. apply Forall_app. split; [done|]. by repeat constructor.
  - revert Hwf'. unfold sim_actor_turn. destruct (sn_mailbox n) as [|m rest] eqn:Em; [done|]. intros _.
    pose proof (iv_commands _ _ _ Hi) as Hcmd. rewrite Em in Hcmd. apply Forall_cons in Hcmd as [Hm Hrest].
    apply process_inv; [done|]. pose proof (wf_frame PodConcurrency n (set_sn_mailbox rest n) eq_refl eq_refl eq_refl eq_refl (iv_wf _ _ _ Hi)).
    by destruct Hi; split.
  - destruct Hi as [_ ? Hrep ? Hsync ? ?]. split; try done.
    cbn. eapply reported_app; [done|]. apply reported_late; [|constructor]. cbn. by apply Hsync.
  - destruct (sim_resume_spec now i n n' (wf_heap _ _ (iv_wf _ _ _ Hi)) (wf_go _ _ (iv_wf _ _ _ Hi)) Hr) as (g & gs1 & gs2 & E & _ & Hr').
    by apply (resumed_inv n g gs1 gs2).
Qed.

(** Messages are only ever added. *)
Lemma sim_step_sent n n' :
  sim_step n n' -> sim_wf PodConcurrency n -> (List.length (sn_sent n) <= List.length (sn_sent n'))%nat.
Proof.
  intros Hstep Hwf. destruct Hstep as [body Hc Hbody|now Hc Hs|revision Hc Hs|now i n' Hc Hr].
  - done.
  - unfold sim_actor_turn. destruct (sn_mailbox n) as [|m rest]; [done|]. unfold sim_outcome. cbn [sn_sent set_sn_crashed].
    destruct m; try (cbn; rewrite ?length_app; lia). cbn [sim_processFornaxCoreMessage].
    unfold sim_onNodeConfigurationCommand.
    rewrite sm_bind_eq. cbn [sim_get]. case_bool_decide; [done|]. rewrite sm_bind_eq, sm_modify_eq, sm_bind_eq.
    set (n1 := set_sn_node _ _ _). destruct (daemons_add_pods now daemonPods n1) as [_ (Es & _) _ _].
    destruct (sim_initializeNodeDaemons now daemonPods n1) as [[[]|e] n2]; cbn in Es |- *; by rewrite Es.
  - cbn. rewrite length_app. lia.
  - destruct (sim_resume_spec now i n n' (wf_heap _ _ Hwf) (wf_go _ _ Hwf) Hr) as (g & gs1 & gs2 & E & _ & Hr').
    destruct Hr' as [_ _ ->|r n1 _ Hm ->]; cbn; [done|].
    destruct (mv_speaks _ _ _ _ Hm) as [-> _|? -> _ _|? ? ? -> _ _|? ? -> _ _]; rewrite ?length_app; lia.
Qed.

Lemma sim_run_sent n n' :
  rtc sim_step n n' -> sim_wf PodConcurrency n -> (List.length (sn_sent n) <= List.length (sn_sent n'))%nat.
Proof.
  induction 1 as [n|n n1 n' Hstep _ IH]; intros Hwf; [done|].
  pose proof (sim_step_sent _ _ Hstep Hwf). specialize (IH (sim_step_wf _ _ _ Hstep Hwf)). lia.
Qed.
Lemma sim_run_inv n n' :
  rtc sim_step n n' -> bounded n' -> sim_inv PodConcurrency r0 n -> sim_inv PodConcurrency r0 n'.
Proof.
  induction 1 as [n|n n1 n' Hstep Hrun IH]; intros Hb Hi; [done|]. apply IH; [done|].
  apply (sim_step_inv n); [done| |done]. unfold bounded in *.
  pose proof (sim_run_sent n1 n' Hrun (sim_step_wf _ _ _ Hstep (iv_wf _ _ _ Hi))). lia.
Qed.
End Ready.

End SimRuns.

(** ** Concrete runs *)

Section Examples.
Definition sim_session : ApplicationSession :=
  mkObject (mkObjectMeta "s" "ns" "s" "1" 0 None None ∅ ∅ [])
    (mkSessionSpec "ns/app" "" false None 0) (mkSessionStatus None [] SessionStatusStarting [] None None 0).
(** Sessions are told apart by their status only. *)
#[local] Instance status_codec : SessionCodec := {|
  json_Marshal := fun s => Ok (if bool_decide (SessionStatus (Status s) = SessionStatusClosed) then "closed" else "open")%string;
  json_Unmarshal := fun _ => Ok sim_session
|}.
#[local] Instance status_codec_ok : SessionCodecOK.
Proof. split. intros s. by do 2 eexists. Defined.
#[local] Instance nobody : NodeCollaborators unit := {|
  nc_FindPod := fun _ _ => None;
  nc_FailPod := fun _ w => w;
  nc_AddOrUpdatePod := fun _ _ pod => sm_ret pod;
  nc_DeletePod := fun _ _ pod => sm_ret pod;
  nc_OnSessionStatusFromNode := fun _ _ _ _ => sm_ret ()
|}.

(** A schedule: who moves next. *)
Inductive sim_move := Command (body : MessageBody) | Turn | Sync | Resume (i : nat).
Definition sim_play (m : sim_move) (n : sim_st) : option sim_st :=
  if sn_crashed n then None else
  match m with
  | Command body =>
    match body with
    | SessionStateUpdate _ | PodStateUpdate _ | NodeState _ _ _ => None
    | _ => Some (set_sn_mailbox (sn_mailbox n ++ [body]) n)
    end
  | Turn => match sn_syncing n with None => Some (sim_actor_turn 0 n) | Some _ => None end
  | Sync => (fun revision => set_sn_syncing None (sim_send_state revision n).2) <$> sn_syncing n
  | Resume i => sim_resume 0 i n
  end.
Definition sim_play_all (l : list sim_move) (n : sim_st) : option sim_st :=
  foldl (fun o m => o ≫= sim_play m) (Some n) l.
Lemma sim_play_step m n n' : sim_play m n = Some n' -> sim_step n n'.
Proof.
  unfold sim_play. destruct (sn_crashed n) eqn:Hc; [done|]. destruct m as [body| | |i].
  - destruct body; intros [= <-]; by apply sim_commanded.
  - destruct (sn_syncing n) eqn:Hs; intros [= <-]. by apply sim_turns.
  - destruct (sn_syncing n) as [r|] eqn:Hs; intros [= <-]. by apply sim_synced.
  - intros H. by eapply sim_resumed.
Qed.
Lemma sim_play_steps l n n' : sim_play_all l n = Some n' -> rtc sim_step n n'.
Proof.
  unfold sim_play_all. revert n. induction l as [|m l IH]; intros n; cbn; [by intros [= ->]|].
  destruct (sim_play m n) as [n1|] eqn:E; [|].
  - intros H. eapply rtc_l; [by eapply sim_play_step|]. by apply IH.
  - intros H. exfalso. clear -H. induction l; cbn in H; [done|]. by apply IHl.
Qed.

Definition sim_pod_spec (name : string) : Pod :=
  mkObject (mkObjectMeta name "ns" name "1" 0 None None ∅ ∅ []) (mkPodSpec _ [] [] false)
    (mkPodStatus PodPending "" None "" "").
Definition sim_start : sim_st := sim_Start (sim_NewNodeActor 0 "u" "10.0.0.1" "node1" "linux" "amd64" "ns" 2).
(** The node registers, is configured, becomes ready and starts its periodic report. *)
Definition become_ready : list sim_move :=
  [Resume 0; Resume 0; Command (NodeConfiguration "" (sn_node sim_start) []); Turn; Resume 1; Resume 1; Resume 1; Resume 1; Resume 0].
Definition sim_ready_node : sim_st := set_sn_sent [] (default sim_start (sim_play_all become_ready sim_start)).
Definition sim_monitor : nodeMonitor unit :=
  mkMonitor {["ns/node1"%string := mkNodeWithRevision "ns/node1" 2]} ∅ (mkNM ∅ [] ()).

Definition played (l : list sim_move) (n : sim_st) : sim_st := default n (sim_play_all l n).
Lemma played_steps l n :
  match sim_play_all l n with Some _ => true | None => false end = true -> rtc sim_step n (played l n).
Proof. unfold played. destruct (sim_play_all l n) eqn:E; [|done]. intros _. by eapply sim_play_steps. Qed.

(** Pod [a] is created and reported while the periodic report is being built. *)
Definition overtaken_report : list sim_move :=
  [Command (PodCreate "ns/a" (sim_pod_spec "a")); Turn; Resume 0;
   Resume 1; Resume 1; Resume 1; Resume 1; Resume 1; Resume 1; Resume 0].

(** Both commands wait in the actor's mailbox, then one of them has its permit. *)
Definition busy_node : sim_st :=
  played (become_ready ++ [Command (PodCreate "ns/a" (sim_pod_spec "a")); Command (PodTerminate "ns/a"); Turn; Turn; Resume 2]) sim_start.
Lemma sim_commands_finish_witness :
  holders (sn_go busy_node) = 1 /\ exists n', rtc sim_step busy_node n' /\ sn_permits n' = 2.
Proof.
  split; [vm_compute; reflexivity|].
  destruct (sim_commands_finish 0 "u" "10.0.0.1" "node1" "linux" "amd64" "ns" 2 busy_node) as (_ & n' & Hrun & _ & _ & Hp).
  - reflexivity.
  - apply played_steps. vm_compute. reflexivity.
  - vm_compute. reflexivity.
  - exists n'. split; [exact Hrun|exact Hp].
Defined.

Definition revisions (l : list core_msg) : list Z :=
  omap (fun m => match m with
    | ToCore (NodeRegistry _ r) | ToCore (NodeState _ r _) | ToCore (NodeMonitor.NodeReady _ r _) => Some r
    | ToCore (PodStateUpdate p) => Some (psm_NodeRevision p)
    | ToCore (SessionStateUpdate s) => Some (ss_NodeRevision s)
    | _ => None
    end) l.

(** The exception of [late_at]: a full report asked for at revision 1 and sent after the node became
    ready takes the monitor back to revision 1, and the next report of a pod is refused. *)
Example first_report_overtaken :
  let n := played [Resume 0; Resume 0; Command (NodeConfiguration "" (sn_node sim_start) []); Turn; Command NodeFullSync; Turn;
                   Resume 1; Resume 1; Resume 1; Resume 0; Sync;
                   Command (PodCreate "ns/a" (sim_pod_spec "a")); Turn; Resume 2; Resume 2; Resume 2; Resume 2; Resume 2; Resume 2] sim_start in
  revisions (sn_sent n) = [1; 2; 1; 3] /\
  revision_of (monitor_after 0 "ns/node1" (take 3 (sn_sent n)) sim_monitor) "ns/node1" = Some 1 /\
  revision_of (monitor_after 0 "ns/node1" (sn_sent n) sim_monitor) "ns/node1" = Some 1.
Proof. vm_compute. split_and!; reflexivity. Qed.

Definition said (m : core_msg) : string :=
  match m with
  | ToCore (PodStateUpdate p) => if bool_decide (Phase (Status (psm_Pod p)) = PodSucceeded) then "terminated" else "pod"
  | ToCore (SessionStateUpdate s) => ss_SessionData s
  | _ => "other"
  end.
(** A session that is being opened while its pod is terminated is reported open last, on a pod the
    node no longer has. *)
Example session_opened_on_terminated_pod :
  let n := played [Command (PodCreate "ns/a" (sim_pod_spec "a")); Turn; Resume 1; Resume 1; Resume 1; Resume 1; Resume 1; Resume 1;
                   Command (PodTerminate "ns/a"); Command (SessionOpen "ns/s" "ns/a" "{}"); Turn; Turn;
                   Resume 2; Resume 1; Resume 1; Resume 1; Resume 1; Resume 1; Resume 1] sim_ready_node in
  map said (sn_sent n) = ["pod"; "terminated"; "open"]%string /\ sn_Pods n = ∅ /\
  List.length (sn_go n) = 1%nat.
Proof. vm_compute. split_and!; reflexivity. Qed.

(** Two requests for the same pod that arrive together both pass the test for an existing pod. *)
Example pod_created_twice :
  let n := played [Command (PodCreate "ns/a" (sim_pod_spec "a")); Command (PodCreate "ns/a" (sim_pod_spec "a")); Turn; Turn;
                   Resume 1; Resume 2; Resume 1; Resume 2; Resume 1; Resume 2; Resume 1; Resume 2; Resume 1; Resume 2; Resume 1; Resume 1] sim_ready_node in
  map said (sn_sent n) = ["pod"; "pod"]%string /\ sn_Pods n = {["ns/a" := 1%nat]}%string /\ dom (sn_objs n) = {[0%nat; 1%nat]}.
Proof. vm_compute. split_and!; reflexivity. Qed.
End Examples.
