(* ===== verification/AgentStart.v ===== *)
(** * What the agent starts from

    [pkg/nodeagent/cadvisor/cadvisor_provider.go] (the readings of the machine, kept and handed to receivers),
    [pkg/nodeagent/dependency/dependency.go] (the services of the agent, opened one after the other) and the
    first loop of [FornaxNodeActor.Start], which completes them until nothing fails.

    The cAdvisor library, the stores, the runtime, the image service and the container manager of the
    kubelet are other programs: what a reading or an attempt to open one returns is an argument. *)

From S2P Require Import Prelude GoStrings ApiTypes.
From Stdlib Require Import String.
#[local] Open Scope nat_scope.
#[local] Open Scope go_scope.

(** ** Readings of the machine *)

Section Provider.
Context {GR : GoRange} {Machine Version Fs : Type}.

Record NodeCAdvisorInfo := mkCAdvisorInfo { ci_MachineInfo : Machine; ci_VersionInfo : Version; ci_RootFsInfo : Fs }.
(** What cAdvisor answers when it is asked *)
Record reading := mkReading { rd_machine : result Machine; rd_version : result Version; rd_rootfs : result Fs }.

Record info_channel := mkInfoChannel { ic_closed : bool; ic_messages : list NodeCAdvisorInfo }.
Record cadvisorInfoProvider := mkProvider {
  nodeCAdvisorInfo : option NodeCAdvisorInfo;
  cp_done : bool;
  cp_receivers : gmap string nat;
  cp_channels : gmap nat info_channel
}.
Implicit Types c : cadvisorInfoProvider.
Definition info_channel_of c (i : nat) : info_channel := default (mkInfoChannel false []) (cp_channels c !! i).

Definition collectCAdvisorInfo (now : reading) : SM cadvisorInfoProvider NodeCAdvisorInfo :=
  do! c <- sm_get;
  do! machineInfo <- sm_lift (match nodeCAdvisorInfo c with Some i => Ok (ci_MachineInfo i) | None => rd_machine now end);
  do! versionInfo <- sm_lift (match nodeCAdvisorInfo c with Some i => Ok (ci_VersionInfo i) | None => rd_version now end);
  do! rootFsInfo <- sm_lift (rd_rootfs now);
  sm_ret (mkCAdvisorInfo machineInfo versionInfo rootFsInfo).
Definition set_info (i : NodeCAdvisorInfo) : SM cadvisorInfoProvider unit :=
  sm_modify (fun c => mkProvider (Some i) (cp_done c) (cp_receivers c) (cp_channels c)).

Definition GetNodeCAdvisorInfo (now : reading) : SM cadvisorInfoProvider NodeCAdvisorInfo :=
  do! c <- sm_get;
  match nodeCAdvisorInfo c with
  | Some i => sm_ret i
  | None => do! info <- collectCAdvisorInfo now; do! _ <- set_info info; sm_ret info
  end.
Definition cadvisor_Stop : SM cadvisorInfoProvider unit :=
  sm_modify (fun c => mkProvider (nodeCAdvisorInfo c) true (cp_receivers c) (cp_channels c)).
Definition ReceiveCAdvisorInfo (id : string) (receiver : nat) : SM cadvisorInfoProvider unit :=
  sm_modify (fun c => mkProvider (nodeCAdvisorInfo c) (cp_done c) (<[id := receiver]> (cp_receivers c)) (cp_channels c)).

(** [*r <- *event] with its recovery: whether the send panicked. *)
Definition send_info (event : NodeCAdvisorInfo) (r : nat) : SM cadvisorInfoProvider bool := fun c =>
  let ch := info_channel_of c r in
  if ic_closed ch then (Ok true, c)
  else (Ok false, mkProvider (nodeCAdvisorInfo c) (cp_done c) (cp_receivers c)
                    (<[r := mkInfoChannel false (ic_messages ch ++ [event])]> (cp_channels c))).
Fixpoint send_info_all (event : NodeCAdvisorInfo) (rs : list (string * nat)) : SM cadvisorInfoProvider (list string) :=
  match rs with
  | [] => sm_ret []
  | (n, r) :: rs =>
    do! panicked <- send_info event r;
    do! panicReceivers <- send_info_all event rs;
    sm_ret (if panicked : bool then n :: panicReceivers else panicReceivers)
  end.
(** One round of the goroutine of [Start] *)
Definition provider_round (now : reading) : SM cadvisorInfoProvider unit :=
  do! c <- sm_get;
  if cp_done c then sm_ret ()
  else
    do! r <- sm_try (collectCAdvisorInfo now);
    match r with
    | Err _ => sm_ret ()
    | Ok event =>
      do! _ <- set_info event;
      do! c <- sm_get;
      do! panicReceivers <- send_info_all event (range (cp_receivers c));
      sm_modify (fun c => mkProvider (nodeCAdvisorInfo c) (cp_done c) (foldr delete (cp_receivers c) panicReceivers) (cp_channels c))
    end.

(** What may happen to the provider *)
Inductive provider_step c : cadvisorInfoProvider -> Prop :=
  | ps_get now : provider_step c (GetNodeCAdvisorInfo now c).2
  | ps_round now : provider_step c (provider_round now c).2
  | ps_receive id receiver : provider_step c (ReceiveCAdvisorInfo id receiver c).2
  | ps_stop : provider_step c (cadvisor_Stop c).2.

(** The machine and the version of cAdvisor are those of the first complete reading. *)
Definition same_machine (i i' : NodeCAdvisorInfo) : Prop :=
  ci_MachineInfo i' = ci_MachineInfo i /\ ci_VersionInfo i' = ci_VersionInfo i.
Definition reading_kept c c' : Prop :=
  forall i, nodeCAdvisorInfo c = Some i -> exists i', nodeCAdvisorInfo c' = Some i' /\ same_machine i i'.
#[local] Instance reading_kept_preorder : PreOrder reading_kept.
Proof.
  split; [by intros c i Hi; exists i|]. intros c1 c2 c3 H1 H2 i Hi. destruct (H1 i Hi) as (i2 & Hi2 & E1 & E2).
  destruct (H2 i2 Hi2) as (i3 & Hi3 & E3 & E4). exists i3. by split; [|split; congruence].
Qed.
Lemma collect_keeps now c i :
  nodeCAdvisorInfo c = Some i ->
  (exists i', collectCAdvisorInfo now c = (Ok i', c) /\ same_machine i i') \/ exists e, collectCAdvisorInfo now c = (Err e, c).
Proof.
  intros Hi. unfold collectCAdvisorInfo. rewrite sm_bind_eq, sm_get_eq, Hi. sm_simpl.
  destruct (rd_rootfs now) as [fs|e]; [left; by eexists|right; by eexists].
Qed.
Lemma send_info_all_keeps event rs : forall c, exists ns c',
  send_info_all event rs c = (Ok ns, c') /\ nodeCAdvisorInfo c' = nodeCAdvisorInfo c.
Proof.
  induction rs as [|[n r] rs IH]; intros c; [by exists [], c|]. cbn [send_info_all]. rewrite sm_bind_eq. unfold send_info.
  destruct (ic_closed (info_channel_of c r)).
  - destruct (IH c) as (ns & c' & E & H). rewrite sm_bind_eq, E. by eexists _, c'.
  - rewrite sm_bind_eq.
    match goal with |- context [send_info_all event rs ?c1] => destruct (IH c1) as (ns & c' & E & H) end.
    rewrite E. by eexists _, c'.
Qed.
Lemma provider_step_keeps c c' : provider_step c c' -> reading_kept c c'.
Proof.
  intros Hs i Hi. destruct Hs as [now|now|id receiver|].
  - unfold GetNodeCAdvisorInfo. rewrite sm_bind_eq, sm_get_eq, Hi. by exists i.
  - unfold provider_round. rewrite sm_bind_eq, sm_get_eq. destruct (cp_done c); [by exists i|]. rewrite sm_bind_eq. unfold sm_try.
    destruct (collect_keeps now c i Hi) as [(i' & -> & Hsame)|[e ->]]; [|by exists i].
    unfold set_info. rewrite sm_bind_eq, sm_modify_eq, sm_bind_eq, sm_get_eq, sm_bind_eq.
    match goal with |- context [send_info_all i' ?rs ?c1] => destruct (send_info_all_keeps i' rs c1) as (ns & c2 & -> & H) end.
    rewrite sm_modify_eq. cbn in *. by exists i'.
  - by exists i.
  - by exists i.
Qed.
Lemma machine_read_once c c' : rtc provider_step c c' -> reading_kept c c'.
Proof. induction 1 as [|c1 c2 c3 H _ IH]; [done|]. etrans; [by apply provider_step_keeps|done]. Qed.
End Provider.

(** ** The services of the agent ([dependency.go]) *)

Inductive dep_field := PodStore | NodeStore | NetworkProvider | RuntimeService | ImageManager | CAdvisor | QosManager.
#[export] Instance dep_field_eq_dec : EqDecision dep_field.
Proof. solve_decision. Defined.
Definition dep_fields : list dep_field := [PodStore; NodeStore; NetworkProvider; RuntimeService; ImageManager; CAdvisor; QosManager].

Section Dependencies.
Context {Handle : Type}.

(** A field is nil, or holds a service, or [Some None]: an interface with a nil pointer in it, which is
    not equal to nil.  [d_opened] records which services were opened so far. *)
Record Dependencies := mkDependencies { d_fields : dep_field -> option (option Handle); d_opened : list dep_field }.
Implicit Types d : Dependencies.
Definition set_field (k : dep_field) (v : option Handle) (opened : list dep_field) d : Dependencies :=
  mkDependencies (fun k' => if decide (k' = k) then Some v else d_fields d k') (d_opened d ++ opened).

(** [n.X, err = InitX(...)]; [open] says what the attempt returns, given the service it is built on.  The
    provider of addresses is a value of this program and cannot fail.  [InitRuntimeService] converts the nil pointer of a failed
    attempt to an interface. *)
Definition needs (k : dep_field) : option dep_field :=
  match k with CAdvisor => Some RuntimeService | QosManager => Some CAdvisor | _ => None end.
Definition built_on d (k : dep_field) : option Handle :=
  match needs k with Some k' => default None (d_fields d k') | None => None end.
Definition init_field (open : dep_field -> option Handle -> result Handle) (k : dep_field) : SM Dependencies unit := fun d =>
  match open k (built_on d k) with
  | Ok h => (Ok (), set_field k (Some h) [k] d)
  | Err e => (Err e, if decide (k = RuntimeService) then set_field k None [] d else d)
  end.
(** [if n.X == nil { ... }] *)
Definition complete_field (open : dep_field -> option Handle -> result Handle) (k : dep_field) : SM Dependencies unit :=
  do! d <- sm_get;
  match d_fields d k with Some _ => sm_ret () | None => init_field open k end.

Definition Complete (open : dep_field -> option Handle -> result Handle) : SM Dependencies unit :=
  do! _ <- complete_field open PodStore;
  do! _ <- complete_field open NodeStore;
  do! _ <- complete_field open NetworkProvider;
  do! _ <- complete_field open RuntimeService;
  do! _ <- complete_field open ImageManager;
  do! _ <- complete_field open CAdvisor;
  complete_field open QosManager.

Definition no_dependencies : Dependencies := mkDependencies (fun _ => None) [].
(** [session] is what [sessionService.Run] returns. *)
Definition InitBasicDependencies (open : dep_field -> option Handle -> result Handle) (session : result unit) : SM Dependencies unit :=
  do! _ <- init_field open PodStore;
  do! _ <- init_field open NodeStore;
  do! _ <- init_field open NetworkProvider;
  do! _ <- init_field open RuntimeService;
  do! _ <- init_field open CAdvisor;
  sm_lift session.

(** The first loop of [FornaxNodeActor.Start]: the attempts until one succeeds; [load] is what
    [LoadPodsFromContainerRuntime] returns. *)
Fixpoint initialize {P} (attempts : list ((dep_field -> option Handle -> result Handle) * result P)) : SM Dependencies (option P) :=
  match attempts with
  | [] => sm_ret None
  | (open, load) :: attempts =>
    do! r <- sm_try (Complete open);
    match r, load with
    | Ok _, Ok pods => sm_ret (Some pods)
    | _, _ => initialize attempts
    end
  end.

(** ** Opened once *)

Definition has_service d (k : dep_field) : Prop := exists h, d_fields d k = Some (Some h).
Record opened_once d : Prop := {
  oo_nodup : NoDup (d_opened d);
  oo_field : forall k, has_service d k <-> k ∈ d_opened d
}.
(** Services that are open stay as they are. *)
Record extends d d' : Prop := {
  ex_once : opened_once d -> opened_once d';
  ex_opened : d_opened d `prefix_of` d_opened d';
  ex_field : forall k v, d_fields d k = Some v -> d_fields d' k = Some v
}.
#[local] Instance extends_preorder : PreOrder extends.
Proof. split; [by intros d; split|]. intros d1 d2 d3 [] []. split; [auto|by etrans|auto]. Qed.

Lemma set_field_extends k v d :
  d_fields d k = None -> extends d (set_field k v (match v with Some _ => [k] | None => [] end) d).
Proof.
  intros Hk. split; cbn.
  - intros [Hn Hf]. assert (k ∉ d_opened d) as Hnk by (rewrite <- Hf; intros [h Hh]; congruence). split; cbn.
    + destruct v; [|by rewrite app_nil_r]. apply NoDup_app. split_and!; [done| |apply NoDup_singleton].
      by intros k' Hk' ->%list_elem_of_singleton.
    + intros k'. unfold has_service. cbn. rewrite elem_of_app, <- Hf. unfold has_service. case_decide as E.
      * subst k'. destruct v as [h|]; [rewrite list_elem_of_singleton; split; [by right|by eexists]|].
        split; [intros [? ?]; congruence|]. intros [[h Hh]|[]%elem_of_nil]; congruence.
      * split; [by left|]. intros [?|Hin]; [done|]. destruct v; [by apply list_elem_of_singleton in Hin|by apply elem_of_nil in Hin].
  - by eexists.
  - intros k' h' Hh. rewrite decide_False by congruence. done.
Qed.
Lemma init_field_extends open k d : d_fields d k = None -> extends d (init_field open k d).2.
Proof.
  intros Hk. unfold init_field. destruct (open k _) as [h|e]; [by apply (set_field_extends k (Some h))|].
  cbn. case_decide; [by apply (set_field_extends k None)|done].
Qed.
Lemma init_field_other open k d k' : k' <> k -> d_fields (init_field open k d).2 k' = d_fields d k'.
Proof. intros Hne. unfold init_field. destruct (open k _); cbn; [by rewrite decide_False|]. case_decide; [cbn; by rewrite decide_False|done]. Qed.
Lemma init_field_ok open k d : (init_field open k d).1 = Ok () -> has_service (init_field open k d).2 k.
Proof. unfold init_field. destruct (open k _) as [h|]; [|done]. intros _. exists h. cbn. by rewrite decide_True. Qed.

Lemma complete_field_spec open k d :
  (k = RuntimeService -> has_service d k) -> d_fields d k <> Some None ->
  let '(r, d') := complete_field open k d in
  extends d d' /\ (forall k', d_fields d' k' = Some None -> d_fields d k' = Some None) /\
  (r = Ok () -> has_service d' k) /\ ((forall k o, exists h, open k o = Ok h) -> r = Ok ()).
Proof.
  intros Hrt Hnil. unfold complete_field. rewrite sm_bind_eq, sm_get_eq. destruct (d_fields d k) as [[h|]|] eqn:Hk; [| done |].
  - rewrite sm_ret_eq. split_and!; [done|done|by eexists|done].
  - pose proof (init_field_extends open k d Hk) as He. pose proof (init_field_ok open k d) as Hok.
    pose proof (init_field_other open k d) as Hoth. destruct (init_field open k d) as [r d'] eqn:E. cbn [fst snd] in *.
    split_and!; [done| |done|].
    + intros k' Hk'. destruct (decide (k' = k)) as [->|Hne]; [|by rewrite <- Hoth].
      unfold init_field in E. destruct (open k _); injection E as <- <-.
      * destruct (Hok eq_refl) as [h' Hh]. congruence.
      * case_decide; [|done]. destruct (Hrt ltac:(done)) as [h Hh]. congruence.
    + intros H. unfold init_field in E. destruct (H k (built_on d k)) as [h Hh]. rewrite Hh in E. congruence.
Qed.

(** Nothing is half open, and the runtime is there. *)
Definition usable d : Prop := has_service d RuntimeService /\ forall k, d_fields d k <> Some None.
Lemma complete_fields_spec open l : forall d, usable d ->
  let '(r, d') := sm_for l (complete_field open) d in
  usable d' /\ extends d d' /\ (r = Ok () -> Forall (has_service d') l) /\ ((forall k o, exists h, open k o = Ok h) -> r = Ok ()).
Proof.
  induction l as [|k l IH]; intros d Hu; [by split_and!|]. cbn [sm_for]. rewrite sm_bind_eq. destruct Hu as [Hrt Hnil].
  pose proof (complete_field_spec open k d ltac:(by intros ->) (Hnil k)) as Hk. destruct (complete_field open k d) as [[[]|e] d1].
  - destruct Hk as (H1 & Hn & H2 & _). assert (usable d1) as Hu1.
    { split; [|intros k' Hk'; by apply (Hnil k'), Hn]. destruct Hrt as [h Hh]. exists h. by apply (ex_field _ _ H1). }
    specialize (IH d1 Hu1). destruct (sm_for l (complete_field open) d1) as [r d2]. destruct IH as (Hu2 & H3 & H4 & H5).
    split_and!; [done|by etrans| |done]. intros Hr. constructor; [|by apply H4]. destruct (H2 eq_refl) as [h Hh].
    exists h. by apply (ex_field _ _ H3).
  - destruct Hk as (H1 & Hn & _ & H2). split_and!; [|done|done|done].
    split; [|intros k' Hk'; by apply (Hnil k'), Hn]. destruct Hrt as [h Hh]. exists h. by apply (ex_field _ _ H1).
Qed.
Lemma Complete_for open d : Complete open d = sm_for dep_fields (complete_field open) d.
Proof.
  unfold Complete, dep_fields. cbn [sm_for].
  repeat (rewrite !sm_bind_eq; match goal with |- context [complete_field open ?k ?d] =>
            destruct (complete_field open k d) as [[[]|?] ?]; [|done] end).
  done.
Qed.
Lemma dep_fields_all k : k ∈ dep_fields.
Proof. destruct k; set_solver. Qed.

(** The fields of a list are opened one after the other. *)
Lemma init_fields_spec open l : forall (d d' : Dependencies), NoDup l -> (forall k, k ∈ l -> d_fields d k = None) ->
  sm_for l (init_field open) d = (Ok (), d') ->
  extends d d' /\ Forall (has_service d') l /\ forall k, k ∉ l -> d_fields d' k = d_fields d k.
Proof.
  induction l as [|k l IH]; intros d d' Hnd Hl E; [by injection E as <-|]. apply NoDup_cons in Hnd as [Hk Hnd].
  cbn [sm_for] in E. rewrite sm_bind_eq in E. pose proof (init_field_extends open k d (Hl k ltac:(left))) as He.
  pose proof (init_field_other open k d) as Hoth. pose proof (init_field_ok open k d) as Hok.
  destruct (init_field open k d) as [[[]|e] d1]; [|done]. cbn [fst snd] in *.
  destruct (IH d1 d' Hnd) as (He' & Hall & Ho'); [|done|].
  { intros k' Hk'. rewrite Hoth; [by apply Hl; right|congruence]. }
  split_and!; [by etrans| |].
  - constructor; [|done]. destruct (Hok eq_refl) as [h Hh]. exists h. by apply (ex_field _ _ He').
  - intros k' [Hne Hk']%not_elem_of_cons. rewrite Ho' by done. by apply Hoth.
Qed.
Lemma basic_usable open session d :
  InitBasicDependencies open session no_dependencies = (Ok (), d) -> extends no_dependencies d /\ usable d.
Proof.
  intros E. destruct (init_fields_spec open [PodStore; NodeStore; NetworkProvider; RuntimeService; CAdvisor] no_dependencies d)
    as (He & Hall & Hoth).
  - apply (bool_decide_unpack _). vm_compute. exact I.
  - done.
  - unfold InitBasicDependencies in E. cbn [sm_for].
    repeat (rewrite !sm_bind_eq in E |- *; match goal with |- context [init_field open ?k ?d] =>
              destruct (init_field open k d) as [[[]|?] ?]; [|done] end).
    rewrite sm_lift_eq in E. destruct session as [[]|]; [|done]. exact E.
  - split; [done|]. rewrite !Forall_cons in Hall. destruct Hall as (H1 & H2 & H3 & H4 & H5 & _). split; [done|].
    intros k Hk. destruct k; try (by rewrite Hoth in Hk by set_solver);
      match goal with H : has_service d ?k |- _ => destruct H as [h Hh]; congruence end.
Qed.

(** Starting opens every service once.  After the first services were opened, however often opening another or
    loading the pods fails, no service is opened a second time and none that is open is replaced; when the
    loop ends all of them are open, and it ends as soon as one attempt meets no failure. *)
Theorem services_opened_once {P} (basic : dep_field -> option Handle -> result Handle) session d
    (attempts : list ((dep_field -> option Handle -> result Handle) * result P)) :
  InitBasicDependencies basic session no_dependencies = (Ok (), d) ->
  let '(r, d') := initialize attempts d in
  NoDup (d_opened d') /\ extends d d' /\
  (forall pods, r = Ok (Some pods) -> forall k, has_service d' k) /\
  ((exists open pods, (open, Ok pods) ∈ attempts /\ forall k o, exists h, open k o = Ok h) -> exists pods, r = Ok (Some pods)).
Proof.
  intros [He0 Hu]%basic_usable. assert (opened_once d) as Ho.
  { apply He0. split; [constructor|]. intros k. split; [by intros [? ?]|by intros ?%elem_of_nil]. }
  clear He0. revert d Hu Ho. induction attempts as [|[open load] attempts IH]; intros d Hu Ho; cbn [initialize].
  { rewrite sm_ret_eq. split_and!; [by apply Ho|done|done|]. by intros (? & ? & []%elem_of_nil & _). }
  rewrite sm_bind_eq. unfold sm_try. rewrite Complete_for.
  pose proof (complete_fields_spec open dep_fields d Hu) as Hc. destruct (sm_for dep_fields (complete_field open) d) as [[[]|e] d1].
  - destruct Hc as (Hu1 & He & Hall & _). destruct load as [pods|e].
    + rewrite sm_ret_eq. split_and!; [by apply He|done| |by eexists]. intros ? _ k.
      eapply Forall_forall in Hall; [exact Hall|done|apply dep_fields_all].
    + specialize (IH d1 Hu1 (ex_once _ _ He Ho)). destruct (initialize attempts d1) as [r d2]. destruct IH as (H1 & H2 & H3 & H4).
      split_and!; [done|by etrans|done|]. intros (o & p & [?|Hin]%elem_of_cons & Hok); [congruence|]. apply H4. by exists o, p.
  - destruct Hc as (Hu1 & He & _ & Hok'). specialize (IH d1 Hu1 (ex_once _ _ He Ho)). destruct (initialize attempts d1) as [r d2].
    destruct IH as (H1 & H2 & H3 & H4). split_and!; [done|by etrans|done|].
    intros (o & p & [[= -> <-]|Hin]%elem_of_cons & Hok); [by specialize (Hok' Hok)|]. apply H4. by exists o, p.
Qed.

(** Had the runtime not been opened first, a failed attempt to open it would pass for an open one. *)
Lemma failed_runtime_taken_for_open (d : Dependencies) (h : Handle) :
  d_fields d RuntimeService = None ->
  let d1 := (complete_field (fun _ _ => Err InternalError) RuntimeService d).2 in
  complete_field (fun _ _ => Ok h) RuntimeService d1 = (Ok (), d1) /\ ~ has_service d1 RuntimeService.
Proof.
  intros Hn. assert ((complete_field (fun _ _ => Err InternalError) RuntimeService d).2 = set_field RuntimeService None [] d) as E.
  { unfold complete_field. rewrite sm_bind_eq, sm_get_eq, Hn. done. }
  cbv zeta. rewrite E. split; [done|]. by intros [h' Hh].
Qed.
End Dependencies.
