(* ===== verification/ControlPlane.v ===== *)
(** * The control plane put together

    [cmd/fornaxcore/app] wires one pod manager, one session manager, the application and session stores
    and the gRPC server; here that is the state [cluster].  The file shows that it satisfies the
    interfaces the node manager and the application manager are verified against, and follows reports
    of the nodes from the wire to the stores.  The pod scheduler is a parameter ([PodSchedulerI]). *)

From S2P Require Import Prelude GoStrings ApiTypes Interfaces Collection ObjectVersion ObjStoreMap MemoryStore StoreInvariant StoreRefinement StatusUpdate NodePool PodScheduler PodManager NodeManager NodeEvents NodeMonitor GrpcServer SessionManager AppStatus AppManager.
From Stdlib Require Import String.
Import VersionedMap.
#[local] Open Scope Z_scope.
#[local] Open Scope go_scope.

Section ControlPlane.
Context {GR : GoRange} {GS : GoSort} {CG : ClientGo} {QL : QuantityLib} {SC : SessionCodec}
  {Sch : Type} {PS : PodSchedulerI Sch}.

(** The scheduler and the connections to the node agents, behind the pod manager. *)
Definition backend : Type := Sch * Network.

#[export] Instance backend_scheduler : PodSchedulerI backend := {|
  sched_AddPod := fun r t b => (sched_AddPod r t b.1, b.2);
  sched_RemovePod := fun n b => (sched_RemovePod n b.1, b.2)
|}.

(** A command to a node agent. *)
Definition command {A} (c : SM Network A) : SM backend A := fun b =>
  let '(r, net) := c b.2 in (r, (b.1, net)).

#[export] Instance backend_agents : NodeAgentClient backend := {|
  na_CreatePod := fun n p => command (na_CreatePod n p);
  na_TerminatePod := fun n p => command (na_TerminatePod n p);
  na_HibernatePod := fun n p => command (na_HibernatePod n p);
  na_OpenSession := fun n p s => command (na_OpenSession n p s);
  na_CloseSession := fun n p s => command (na_CloseSession n p s)
|}.

Record cluster := mkCluster {
  cl_pods : podManager (W := backend);
  cl_sessions : SessionStore;
  cl_apps : MemoryStore ApplicationSpec ApplicationStatus
}.

Definition cl_net (c : cluster) : Network := (pm_world (cl_pods c)).2.
Definition set_cl_net (net : Network) (c : cluster) : cluster :=
  mkCluster (set_pm_world ((pm_world (cl_pods c)).1, net) (cl_pods c)) (cl_sessions c) (cl_apps c).

Definition pods {A} (k : SM podManager A) : SM cluster A := fun c =>
  let '(r, pm) := k (cl_pods c) in (r, mkCluster pm (cl_sessions c) (cl_apps c)).
(** The session manager works on the session store and the connections. *)
Definition sessions {A} (k : SM (sessionManager Network) A) : SM cluster A := fun c =>
  let '(r, sm) := k (mkSessionManager (cl_sessions c) (cl_net c)) in
  (r, let c := set_cl_net (nodeAgentClient sm) c in mkCluster (cl_pods c) (sessionStore sm) (cl_apps c)).
Definition apps {A} (k : SM (MemoryStore ApplicationSpec ApplicationStatus) A) : SM cluster A := fun c =>
  let '(r, a) := k (cl_apps c) in (r, mkCluster (cl_pods c) (cl_sessions c) a).

#[export] Instance cluster_network : HasNetwork cluster.
Proof.
  refine {| get_net := cl_net; put_net := set_cl_net |}; [done|].
  by intros [[] ? ?]; unfold set_cl_net, cl_net, set_pm_world; simpl; destruct pm_world.
Defined.

#[export] Instance cluster_nodes : NodeCollaborators cluster := {|
  nc_FindPod := fun c n => pm_FindPod (cl_pods c) n;
  nc_FailPod := fun n c => mkCluster (PodManager.FailPod n (cl_pods c)) (cl_sessions c) (cl_apps c);
  nc_AddOrUpdatePod := fun now nodeId pod => pods (pm_AddOrUpdatePod now nodeId pod);
  nc_DeletePod := fun now nodeId pod => pods (DeletePod now nodeId pod);
  nc_OnSessionStatusFromNode := fun now nodeId pod s =>
    sessions (SessionManager.OnSessionStatusFromNode now (fun _ => []) nodeId pod s)
|}.

(** The application manager reads the clock through the collaborators, so the instance has it. *)
Definition cluster_collaborators (now : Z) : Collaborators cluster := {|
  FindPod := fun c n => pm_FindPod (cl_pods c) n;
  TerminatePod := fun n => pods (pm_TerminatePod now n);
  AddOrUpdatePod := fun nodeId pod => pods (pm_AddOrUpdatePod now nodeId pod);
  ClearDeletionTimestamp := fun n c =>
    let pm := cl_pods c in
    match findPod pm n with
    | Some (st, pod) =>
      mkCluster (set_pm_heap (<[v1pod st := map_om (om_set_DeletionTimestamp None) pod]> (pm_heap pm)) pm)
        (cl_sessions c) (cl_apps c)
    | None => c
    end;
  OpenSession := fun pod s => sessions (sm_OpenSession pod s);
  CloseSession := fun pod s => sessions (sm_CloseSession pod s);
  UpdateSessionStatus := fun s st => sessions (sm_UpdateSessionStatus (fun _ => []) s st);
  AppManager.GetApplicationCache := fun c key => StatusUpdate.GetApplicationCache (cl_apps c) key;
  UpdateApplicationStatus := fun app st => apps (asm_UpdateApplicationStatus (fun _ => []) app st)
|}.

(** ** The interfaces hold *)

Lemma pods_eq {A} (k : SM podManager A) c :
  pods k c = ((k (cl_pods c)).1, mkCluster (k (cl_pods c)).2 (cl_sessions c) (cl_apps c)).
Proof. unfold pods. by destruct (k (cl_pods c)). Qed.

Lemma sessions_pods {A} (k : SM (sessionManager Network) A) c :
  exists net, cl_pods (sessions k c).2 = set_pm_world net (cl_pods c).
Proof. unfold sessions. destruct (k _) as [r sm]. by eexists. Qed.

#[export] Instance cluster_nodes_ok : NodeCollaboratorsOK cluster.
Proof.
  refine {| nc_ok := fun c => pm_inv (cl_pods c) |}.
  - intros c n pod Hi Hf. simpl in Hf. unfold pm_FindPod in Hf.
    destruct (findPod (cl_pods c) n) as [[st p]|] eqn:E; simplify_eq/=.
    destruct (findPod_Some _ _ _ _ Hi E) as (_ & _ & _ & Ht). unfold PodNotTerminated. by rewrite Ht.
  - intros c now nodeId pod Hi. simpl. rewrite pods_eq. simpl.
    split; [by apply AddOrUpdatePod_inv|by apply AddOrUpdatePod_kept].
  - intros c now nodeId n pod Hi Hf. simpl. rewrite pods_eq. simpl.
    destruct (fail_delete_spec now nodeId n pod (cl_pods c) Hi Hf) as (H1 & H2 & H3). done.
  - intros c now nodeId pod s Hi. simpl.
    destruct (sessions_pods (SessionManager.OnSessionStatusFromNode now (fun _ => []) nodeId pod s) c) as [net Hp].
    rewrite Hp. split; [by apply pm_inv_world|]. intros n. done.
Defined.

(** ** A session report, from the wire to the store *)

Lemma session_update_cluster now nodeId sess podName pod (nm : nodeManager cluster) :
  PodReference (Status sess) = Some podName ->
  nc_FindPod (nm_world nm) podName = Some pod ->
  nm_world (nm_UpdateSessionState now nodeId sess nm).2 =
  (nc_OnSessionStatusFromNode now nodeId pod sess (nm_world nm)).2.
Proof.
  intros Hr Hf. unfold nm_UpdateSessionState. rewrite Hr, sm_bind_eq, sm_get_eq, Hf, sm_bind_eq, sm_try_eq.
  by rewrite on_world_eq.
Qed.

Lemma handle_session_cluster now g m sessionState sess :
  msg_Body m = SessionStateUpdate sessionState -> json_Unmarshal (ss_SessionData sessionState) = Ok sess ->
  ~ out_of_order (srv_monitor g) (msg_NodeIdentifier m) (ss_NodeRevision sessionState) ->
  PodReference (Status sess) <> None ->
  mon_nodeManager (srv_monitor (handleMessages now m g).2) =
  (nm_UpdateSessionState now (msg_NodeIdentifier m) sess (mon_nodeManager (srv_monitor g))).2.
Proof.
  intros Hb Hs Ho Hp. destruct (session_state_in_order now _ sessionState sess _ Hs Ho) as [_ Hnm].
  assert ((OnSessionUpdate now (msg_NodeIdentifier m) sessionState (srv_monitor g)).1 = Ok None) as Hr.
  { unfold OnSessionUpdate. rewrite sm_bind_eq, sm_lift_eq, Hs, sm_bind_eq, sm_get_eq.
    unfold out_of_order, revision_of in Ho.
    destruct (mon_nodes (srv_monitor g) !! msg_NodeIdentifier m) as [n|]; [|by destruct Ho].
    rewrite sm_bind_eq, sm_lift_eq, validate_spec, decide_False by done.
    rewrite sm_bind_eq. unfold set_revision. rewrite sm_modify_eq, sm_bind_eq. unfold manager. simpl.
    unfold nm_UpdateSessionState. destruct (PodReference (Status sess)) as [pn|]; [|done].
    rewrite sm_bind_eq, sm_get_eq. destruct (nc_FindPod _ pn); [|done].
    rewrite sm_bind_eq, sm_try_eq. done. }
  unfold handleMessages. rewrite sm_bind_eq. unfold sm_try at 1, monitor, dispatch. rewrite Hb.
  destruct (OnSessionUpdate _ _ _ _) as [r mon1]. simpl in Hr, Hnm. by subst r.
Qed.

Context (depth : nat) (Hdepth : depth <> 0%nat).

(** C15: a session report reaches the store.  When a node reports, in order, a session of a pod the pod
    manager knows, the handler leaves the session store with the reported status applied (created if it
    was unknown, its finalizer and removal decided by the status), and the node gets a close command
    exactly if the session was to be deleted. *)
Theorem session_report_reaches_store now (g : grpcServer cluster) m sessionState sess podName pod a :
  let w := nm_world (mon_nodeManager (srv_monitor g)) in
  let w' := nm_world (mon_nodeManager (srv_monitor (handleMessages now m g).2)) in
  msg_Body m = SessionStateUpdate sessionState -> json_Unmarshal (ss_SessionData sessionState) = Ok sess ->
  ~ out_of_order (srv_monitor g) (msg_NodeIdentifier m) (ss_NodeRevision sessionState) ->
  PodReference (Status sess) = Some podName -> pm_FindPod (cl_pods w) podName = Some pod ->
  refines depth (cl_sessions w) a -> MemoryRev (cl_sessions w) + 2 <= MaxUint64 ->
  key_ok depth (store_key ApplicationSessionGrvKey (Name sess)) ->
  (forall s, objects a !! store_key ApplicationSessionGrvKey (Name sess) = Some s -> Name s = Name sess) ->
  refines depth (cl_sessions w') (report_applied now sess a) /\
  cl_net w' = report_answered pod sess a (cl_net w).
Proof.
  intros w w' Hb Hs Ho Hp Hf Hrf Hr Hk Hn. subst w'.
  rewrite (handle_session_cluster now g m sessionState sess) by congruence.
  rewrite (session_update_cluster now (msg_NodeIdentifier m) sess podName pod) by done.
  fold w. cbn [nc_OnSessionStatusFromNode cluster_nodes].
  destruct (report_refines depth Hdepth now (msg_NodeIdentifier m) pod sess
    (mkSessionManager (cl_sessions w) (cl_net w)) a Hrf Hr Hk Hn) as (sm' & Hsm & H1 & H2).
  unfold sessions. rewrite Hsm. done.
Qed.
End ControlPlane.
Arguments cluster {QL} Sch.

(** ** A concrete cluster *)

Section Example.
(** A codec that knows one session. *)
#[local] Instance example_codec : SessionCodec := {|
  json_Marshal := fun s => Ok (Name s);
  json_Unmarshal := fun d =>
    if String.eqb d "s1" then Ok (example_session "" SessionStatusAvailable)
    else Err (OtherError "unexpected end of JSON input")
|}.

(** Node "node1" is connected, has reported revision 3 and a running pod with an open session. *)
Definition example_net : Network := {["node1"%string := mkConnection _ [] 0 []]}.
Definition example_pods : podManager (W := backend (Sch := list string)) :=
  (pm_AddOrUpdatePod 1 "node1" example_node_pod (NewPodManager ([], example_net))).2.
Definition example_cluster : cluster (list string) :=
  mkCluster example_pods example_session_store example_app_store.
Definition example_node : Node :=
  mkObject (mkObjectMeta "node1" "" "" "1" 0 None None ∅ ∅ []) (mkNodeSpec "" [])
    (mkNodeStatus _ NodeRunning [(ApiTypes.NodeReady, ConditionTrue)] ∅).
Definition example_nws : FornaxNodeWithState :=
  mkNodeWS _ "node1" example_node NodeWorkingStateRunning {["ns/pod1"%string; "ns/gone"%string]} ∅ 0.
Definition example_nm : nodeManager (cluster (list string)) :=
  mkNM {["node1"%string := example_nws]} [] example_cluster.
Definition example_server : grpcServer (cluster (list string)) :=
  mkServer (mkMonitor {["node1"%string := mkNodeWithRevision "node1" 3]} ∅ example_nm) ∅ (replicate 4 []).

(** The stores have thousands of slots: unfold them last. *)
#[local] Strategy 1000 [example_session_store example_session_map example_app_store].

Lemma example_pods_inv : pm_inv example_pods.
Proof. apply AddOrUpdatePod_inv, NewPodManager_inv. Qed.

(** The node reports that it has no pods left. *)
Lemma sync_removes_unreported_witness :
  exists nm', nm_SyncNodePodStates 5 "node1" [] example_nm = (Ok (), nm') /\
    pm_FindPod (cl_pods (nm_world example_nm)) "ns/pod1" <> None /\
    pm_FindPod (cl_pods (nm_world nm')) "ns/pod1" = None.
Proof.
  destruct (sync_removes_unreported (OK := cluster_nodes_ok) 5 "node1" [] example_nm example_nws
    example_pods_inv (lookup_singleton_eq _ _)) as (nm' & ws' & H1 & _ & _ & H2 & _).
  exists nm'. split; [exact H1|]. split; [vm_compute; discriminate|].
  apply H2; [|apply not_elem_of_empty].
  change ("ns/pod1"%string ∈ ({["ns/pod1"%string; "ns/gone"%string]} : gset string)). set_solver.
Defined.

Definition example_pod_message (revision : Z) : FornaxCoreMessage :=
  mkMessage _ "" "node1" (PodStateUpdate (mkPodStateMsg _ revision example_node_pod [])).

(** Revision 5 does not follow revision 3. *)
Lemma pod_report_in_order_witness :
  cl_net (nm_world (mon_nodeManager (srv_monitor
    (handleMessages 5 (example_pod_message 5) example_server).2))) !! "node1"%string =
  Some (mkConnection _ [NodeFullSync] 0 []).
Proof.
  assert (mon_net (srv_monitor example_server) !! "node1"%string = Some (mkConnection _ [] 0 [])) as Hc
    by (vm_compute; reflexivity).
  pose proof (pod_report_in_order 5 example_server (example_pod_message 5) "node1" _
    (mkConnection _ [] 0 []) eq_refl eq_refl Hc) as H.
  destruct (decide (out_of_order (srv_monitor example_server) "node1" 5)) as [Ho|Ho].
  - rewrite decide_True in H by exact Ho. rewrite H. vm_compute. reflexivity.
  - exfalso. apply Ho. vm_compute. split; discriminate.
Defined.

Definition example_session_message : FornaxCoreMessage :=
  mkMessage _ "" "node1" (SessionStateUpdate (mkSessionState 4 "s1")).

(** The session is still open on the node although its deletion was requested. *)
Lemma session_report_reaches_store_witness :
  cl_net (nm_world (mon_nodeManager (srv_monitor
    (handleMessages 77 example_session_message example_server).2))) !! "node1"%string =
  Some (mkConnection _ [SessionClose "ns/s1" "ns/pod1"] 0 []).
Proof.
  pose proof (session_report_reaches_store (Sch := list string) 5 ltac:(discriminate) 77 example_server example_session_message
    (mkSessionState 4 "s1") (example_session "" SessionStatusAvailable) "ns/pod1" example_node_pod
    example_session_map eq_refl eq_refl) as H. cbv zeta in H.
  specialize (H ltac:(intros [_ Ho]; apply Ho; vm_compute; reflexivity) eq_refl
    ltac:(vm_compute; reflexivity) example_session_refines ltac:(vm_compute; discriminate) eq_refl).
  rewrite (proj2 (H ltac:(intros s Hs; vm_compute in Hs; injection Hs as <-; reflexivity))).
  vm_compute. reflexivity.
Defined.

(** Two messages of the node, the first one handled. *)
Lemma node_messages_in_order_witness :
  let g := (PutMessage 2 example_session_message
    (PutMessage 1 (example_pod_message 4) (NewGrpcServer (srv_monitor example_server))).2).2 in
  exists m g', serve 5 1 g = (Some m, g') /\ of_node "node1" [m] ++ waiting g' "node1" =
    [example_pod_message 4; example_session_message].
Proof.
  set (g := (PutMessage 2 _ _).2).
  assert ((serve 5 1 g).1 <> None) as Hn by (vm_compute; discriminate).
  destruct (serve 5 1 g) as [[m|] g'] eqn:E; [|by destruct Hn].
  exists m, g'. split; [exact E|].
  change (of_node "node1" [m]) with (of_node "node1" ([] ++ [m])).
  rewrite <- (node_messages_in_order g' ([] ++ [example_pod_message 4] ++ [example_session_message]) ([] ++ [m]) "node1").
  - reflexivity.
  - eapply served_handle; [|exact E]. rewrite app_assoc. apply served_put, served_put, served_new.
Defined.

(** The node reported that it runs, then its connection broke. *)
Definition example_announced : nodeManager (cluster (list string)) :=
  mkNM (nm_nodes example_nm) [mkNodeEvent _ "node1" example_node NodeEventTypeCreate] example_cluster.

Lemma disconnected_node_not_offered_witness :
  let ps := set_nodePool ∅ (example_scheduler None []) in
  let l := zip [1; 2] (nodeUpdates (nm_DisconnectNode "node1" example_announced).2) in
  nodePool (deliver_all (take 1 l) ps) !! "node1"%string <> None /\
  nodePool (deliver_all l ps) !! "node1"%string = None.
Proof.
  split; [vm_compute; discriminate|].
  exact (proj1 (disconnected_node_not_offered example_announced "node1" example_nws
    (set_nodePool ∅ (example_scheduler None [])) (zip [1; 2] (nodeUpdates (nm_DisconnectNode "node1"
    example_announced).2)) eq_refl (lookup_singleton_eq _ _) eq_refl)).
Defined.

(** Revision 4 follows revision 3; revision 7 does not and is refused. *)
Lemma revision_moves_in_order_witness :
  revision_of (dispatch 5 (example_pod_message 4) (srv_monitor example_server)).2 "node1" = Some 4 /\
  dispatch 5 (example_pod_message 7) (srv_monitor example_server) =
    (Err NodeRevisionOutOfOrderError, srv_monitor example_server).
Proof.
  split.
  - exact (proj1 (revision_moves_in_order 5 (example_pod_message 4) (srv_monitor example_server) "node1" 3 eq_refl)).
  - apply (revision_moves_in_order 5 (example_pod_message 7) (srv_monitor example_server) "node1" 3 eq_refl);
      [reflexivity|]. split; vm_compute; discriminate.
Defined.
End Example.
