(* ===== verification/Placement.v ===== *)
(** * A new pod, from the pod manager to the wire

    The pod manager and the pod scheduler together, as [cmd/fornaxcore/main.go] wires them: the scheduler of [PodScheduler] is the
    scheduler behind the pod manager of [ControlPlane].  Both work on one heap of pod objects, the manager's, and
    on one network, so the state [core] of the scheduler is seen through [view], which fills in the heap and the network
    of the moment.  [clock] is the time the scheduler reads when a pod is queued. *)

From S2P Require Import Prelude GoStrings ApiTypes Interfaces Collection ScheduleQueue NodePool PodScheduler PodManager NodeManager NodeMonitor GrpcServer ControlPlane.
From Stdlib Require Import String.
#[local] Open Scope Z_scope.
#[local] Open Scope go_scope.

(** ** A pod alone in the queue *)

Section Queue.
Context {P : Type} `{!Inhabited P} (podName : P -> string).

Lemma elems_nil (pq : PriorityQueue (PodScheduleItem P)) : pq_elems pq = [] -> pq_queue pq = [].
Proof using. unfold pq_elems. by destruct (pq_queue pq). Qed.
Lemma RemovePod_empty (pq : PriorityQueue (PodScheduleItem P)) p :
  pq_valid PodRequestTimeLess (PodName podName) pq -> pq_elems pq = [] -> (spq_RemovePod podName pq p).2 = pq.
Proof using.
  intros Hv He. pose proof (spq_RemovePod_spec podName pq p Hv) as H. destruct (spq_RemovePod podName pq p) as [[r|] pq'].
  - destruct H as (_ & _ & t & Hperm). rewrite He in Hperm. by apply Permutation_nil_cons in Hperm.
  - by destruct H as [-> _].
Qed.
Lemma AddPod_alone now q p d :
  sq_inv podName q -> pq_elems (activeQueue q) = [] ->
  pq_elems (activeQueue (q_AddPod podName now q p d)) = [mkPodScheduleItem p (now + d)].
Proof using.
  intros [Ha Hb Hd] He. assert (forall pq, pq = activeQueue q -> pq_elems (spq_AddPod podName now pq p d) = [mkPodScheduleItem p (now + d)]) as Hadd.
  { intros pq ->. destruct (spq_AddPod_spec podName now (activeQueue q) p d Ha) as (_ & _ & Hnew).
    rewrite He in Hnew. apply Permutation_length_1_inv. symmetry. apply Hnew.
    unfold names. rewrite He. apply not_elem_of_nil. }
  unfold q_AddPod. destruct (spq_RemovePod podName (backoffRetryQueue q) p) as [[r|] b]; cbn; apply Hadd; [done|].
  by apply RemovePod_empty.
Qed.
Lemma NextPod_alone q p t :
  sq_inv podName q -> q_stop q = false -> pq_elems (activeQueue q) = [mkPodScheduleItem p t] ->
  exists q', q_NextPod podName q = (Some p, q') /\ HasMore q' = false /\ pq_elems (activeQueue q') = [].
Proof using.
  intros Hi Hs He. unfold q_NextPod. rewrite Hs. unfold spq_NextPod.
  pose proof (spq_nextItem_spec podName (activeQueue q) (inv_active _ _ Hi)) as H.
  destruct (spq_nextItem podName (activeQueue q)) as [[x|] a]; [|destruct H as [_ H]; congruence].
  destruct H as (_ & Hperm & _). rewrite He in Hperm. apply Permutation_length_1_inv in Hperm.
  injection Hperm as -> Ha. eexists. split; [done|]. split; [|done]. unfold HasMore, spq_PeakPod, pq_Peak. cbn.
  rewrite (elems_nil a Ha). done.
Qed.
End Queue.

Section Placement.
Context {GR : GoRange} {GS : GoSort} {CG : ClientGo} {QL : QuantityLib} {SC : SessionCodec} (clock : Z).

Abbreviation core := (podScheduler (W := Network)).

#[export] Instance core_scheduler : PodSchedulerI core := {|
  sched_AddPod := fun r duration ps => (AddPod clock r duration ps).2;
  sched_RemovePod := fun name ps => (RemovePod (mkPodRef 0 name) ps).2
|}.

Abbreviation manager := (podManager (W := backend (Sch := core))).
Implicit Types (pm : manager) (ps : core).

Definition view pm : core := set_pod_objs (pm_heap pm) (set_ps_world (pm_world pm).2 (pm_world pm).1).
Definition scheduling {A} (c : SM core A) : SM manager A := fun pm =>
  let '(r, ps) := c (view pm) in (r, set_pm_heap (pod_objs ps) (set_pm_world (ps, ps_world ps) pm)).

(** The goroutines of the polled pods, one after the other. *)
Fixpoint schedule_all (now : Z) (index : nat) (pods : list PodRef) : SM core unit :=
  match pods with
  | [] => sm_ret ()
  | pod :: pods => do! _ <- schedule_routine now index pod; schedule_all now (S index) pods
  end.
(** A turn of the polling loop: at most one pod per chunk is taken, and each is scheduled. *)
Definition polling_turn (now : Z) : SM core (list PodRef) :=
  do! ps <- sm_get;
  if ps_stop ps then sm_ret []
  else
    do! _ <- match schedulers ps with [] => initializeChunkSchedulers | _ => sm_ret () end;
    do! ps <- sm_get;
    match schedulers ps with
    | [] => sm_ret []
    | schedulers =>
      do! pods <- poll_pods (List.length schedulers);
      do! _ <- schedule_all now 0 pods;
      sm_ret pods
    end.

Lemma view_scheduling {A} (c : SM core A) pm : view (scheduling c pm).2 = (c (view pm)).2.
Proof. unfold scheduling. destruct (c (view pm)) as [r ps]. by destruct ps. Qed.

(** ** Placing on connected nodes *)

(** The node has room for the pod. *)
Definition fits (p : Pod) (n : SchedulableNode) : bool :=
  forallb (fun c => Apply c (GetAllocatableResources n)) (CalculateScheduleConditions ScheduleConditionBuilders p).
Definition connected ps : Prop := forall ptr n, node_objs ps !! ptr = Some n -> is_Some (ps_world ps !! NodeId n).

Definition after_bind (now : Z) (ptr : nat) (pod : PodRef) (n : SchedulableNode) (p : Pod) (c : Connection) ps : core :=
  set_ps_world (<[NodeId n := mkConnection _ (conn_queue c ++ [PodCreate (Name p) (scheduled_pod now (NodeId n) p)]) (conn_seq c) (conn_sent c)]> (ps_world ps))
    (set_pod_objs (<[ref_ptr pod := scheduled_pod now (NodeId n) p]> (pod_objs ps))
      (set_node_objs (<[ptr := set_LastUsed now (AdmitPodOccupiedResourceList n (GetPodResourceList p))]> (node_objs ps)) ps)).

Lemma bindNode_connected now ptr pod n p c ps :
  node_objs ps !! ptr = Some n -> pod_objs ps !! ref_ptr pod = Some p -> ps_world ps !! NodeId n = Some c ->
  bindNode now ptr pod ps = (Ok (), after_bind now ptr pod n p c ps).
Proof.
  intros Hn Hp Hc. unfold bindNode, load_node, load_pod, agent_call, store_node, store_pod. sm_simpl. rewrite Hn. sm_simpl.
  rewrite Hp. sm_simpl. cbn [na_CreatePod grpc_agents]. unfold grpc_CreatePod, DispatchNodeMessage. cbn. by rewrite Hc.
Qed.

Lemma available_found h conds limit cands : forall acc, (0 < limit)%nat ->
  (acc <> [] \/ exists ptr n, ptr ∈ cands /\ h !! ptr = Some n /\ forallb (fun c => Apply c (GetAllocatableResources n)) conds = true) ->
  available_nodes h conds limit cands acc <> [].
Proof.
  induction cands as [|q cands IH]; intros acc Hl Hc.
  - destruct Hc as [|(ptr & n & Hin & _)]; [done|]. by apply elem_of_nil in Hin.
  - cbn. set (good := match h !! q with Some n => _ | None => false end).
    assert ((if good then acc ++ [q] else acc) <> [] \/
      exists ptr n, ptr ∈ cands /\ h !! ptr = Some n /\ forallb (fun c => Apply c (GetAllocatableResources n)) conds = true) as Hnext.
    { destruct Hc as [Hne|(ptr & n & [->|Hin]%elem_of_cons & Hn & Hg)].
      - left. destruct good; [|done]. intros E. by apply app_nil in E as [? _].
      - left. unfold good. rewrite Hn, Hg. intros E. by apply app_nil in E as [_ ?].
      - right. by exists ptr, n. }
    destruct (Nat.leb_spec limit (List.length (if good then acc ++ [q] else acc))) as [Hle|]; [|by apply IH].
    intros E. rewrite E in Hle. cbn in Hle. lia.
Qed.

(** A pod goes to a node that has room as soon as there is one, or nothing happens. *)
Lemma schedulePod_connected now pod cands ps p :
  pod_objs ps !! ref_ptr pod = Some p -> DeletionTimestamp p = None -> connected ps -> (0 < NumOfEvaluatedNodes (policy ps))%nat ->
  (exists ptr n c, ptr ∈ cands /\ node_objs ps !! ptr = Some n /\ fits p n = true /\ ps_world ps !! NodeId n = Some c /\
     schedulePod now pod cands ps = (Ok (), after_bind now ptr pod n p c ps)) \/
  (forall ptr n, ptr ∈ cands -> node_objs ps !! ptr = Some n -> fits p n = false) /\
  schedulePod now pod cands ps = (Err InsufficientResourceError, ps).
Proof.
  intros Hp Hd Hconn Hlim. unfold schedulePod, load_pod. sm_simpl. rewrite Hp. sm_simpl. rewrite Hd. sm_simpl.
  set (conds := CalculateScheduleConditions ScheduleConditionBuilders p).
  pose proof (fun ptr => available_nodes_spec (node_objs ps) conds (NumOfEvaluatedNodes (policy ps)) cands [] ptr) as Hav.
  pose proof (available_found (node_objs ps) conds (NumOfEvaluatedNodes (policy ps)) cands [] Hlim) as Hfound.
  destruct (available_nodes _ _ _ _ _) as [|a0 av] eqn:Eav.
  - right. split; [|done]. intros ptr n Hin Hn. destruct (fits p n) eqn:Ef; [|done].
    by destruct Hfound; [right; exists ptr, n|].
  - left. rewrite sm_bind_eq. set (sorted := sort_nodes ps _ _).
    assert (forall ptr, ptr ∈ sorted -> ptr ∈ a0 :: av) as Hsorted by (intros ptr; unfold sorted, sort_nodes; by rewrite gosort_perm).
    destruct sorted as [|ptr rest] eqn:Es.
    { exfalso. assert (a0 ∈ sorted) as Hin by (unfold sorted, sort_nodes; rewrite gosort_perm; left). rewrite Es in Hin. by apply elem_of_nil in Hin. }
    destruct (Hav ptr) as [Hx|(Hin & n & Hn & Hg)]; [apply Hsorted; left|by apply elem_of_nil in Hx|].
    destruct (Hconn ptr n Hn) as [c Hc]. exists ptr, n, c. split; [done|]. split; [done|]. split; [done|]. split; [done|].
    cbn [bind_first]. rewrite sm_bind_eq. unfold sm_try. by rewrite (bindNode_connected now ptr pod n p c ps).
Qed.

Lemma try_chunks_connected now pod p ps cs err :
  pod_objs ps !! ref_ptr pod = Some p -> DeletionTimestamp p = None -> connected ps -> (0 < NumOfEvaluatedNodes (policy ps))%nat ->
  (exists ch ptr n, ch ∈ cs /\ ptr ∈ ck_nodes ch /\ node_objs ps !! ptr = Some n /\ fits p n = true) ->
  exists ptr n c, ptr ∈ cs ≫= ck_nodes /\ node_objs ps !! ptr = Some n /\ fits p n = true /\ ps_world ps !! NodeId n = Some c /\
    try_chunks now pod cs err ps = (Ok None, after_bind now ptr pod n p c ps).
Proof.
  intros Hp Hd Hconn Hlim. revert err. induction cs as [|ch cs IH]; intros err (ch0 & ptr0 & n0 & Hch & Hrest).
  { by apply elem_of_nil in Hch. }
  cbn [try_chunks]. rewrite sm_bind_eq. unfold sm_try.
  destruct (schedulePod_connected now pod (ck_nodes ch) ps p Hp Hd Hconn Hlim) as [(ptr & n & c & Hin & Hn & Hf & Hc & ->)|[Hno ->]].
  - exists ptr, n, c. split; [|done]. rewrite bind_cons. apply elem_of_app. by left.
  - destruct (IH (Some InsufficientResourceError)) as (ptr & n & c & Hin & Hothers).
    { apply elem_of_cons in Hch as [->|Hch]; [|by exists ch0, ptr0, n0].
      destruct Hrest as (Hin & Hn & Hf). rewrite (Hno ptr0 n0 Hin Hn) in Hf. done. }
    exists ptr, n, c. split; [|done]. rewrite bind_cons. apply elem_of_app. by right.
Qed.

(** The state of the scheduler in which a new pod can be placed at once. *)
Record ready_for (pod : Pod) ps : Prop := {
  rf_connected : connected ps;
  rf_free : load_free ps;
  rf_capacity : within_capacity ps;
  rf_queue : sq_inv ref_name (scheduleQueue ps);
  rf_started : ps_stop ps = false;
  rf_running : q_stop (scheduleQueue ps) = false;
  rf_empty : pq_elems (activeQueue (scheduleQueue ps)) = [];
  rf_limit : (0 < NumOfEvaluatedNodes (policy ps))%nat;
  rf_room : exists ch ptr n, ch ∈ schedulers ps /\ ptr ∈ ck_nodes ch /\ node_objs ps !! ptr = Some n /\ fits pod n = true
}.

Lemma new_pod_queued t pod pm :
  pm_inv pm -> pm_FindPod pm (Name pod) = None -> PodIsPending pod = true ->
  exists pm1, pm_AddOrUpdatePod t "" pod pm = (Ok pod, pm1) /\
    podStateMap pm1 = <[Name pod := mkPodState (pm_next pm) ""]> (podStateMap pm) /\
    view pm1 = set_queue (q_AddPod ref_name clock (scheduleQueue (view pm)) (mkPodRef (pm_next pm) (Name pod)) 0)
      (set_pod_objs (<[pm_next pm := pod]> (pm_heap pm)) (view pm)).
Proof.
  intros Hi Hf Hp. unfold pm_AddOrUpdatePod. rewrite sm_bind_eq, sm_get_eq.
  assert (findPod pm (Name pod) = None) as -> by (unfold pm_FindPod in Hf; by destruct (findPod pm (Name pod))).
  assert (PodIsTerminated pod = false) as ->.
  { unfold PodIsPending in Hp. apply bool_decide_eq_true in Hp. unfold PodIsTerminated. rewrite Hp. done. }
  rewrite sm_bind_eq. unfold new_pod. rewrite sm_bind_eq. unfold createPodAndSendEvent, map_addPod, send_update. sm_simpl.
  rewrite Hp. cbn [String.eqb andb negb]. unfold scheduler_call. sm_simpl. eexists. split; [reflexivity|]. split; [done|].
  unfold view. cbn. by destruct (pm_world pm) as [[] net].
Qed.

Lemma polling_turn_places now pod ref t ps :
  ready_for pod ps -> pod_objs ps !! ref_ptr ref = Some pod -> DeletionTimestamp pod = None ->
  pq_elems (activeQueue (q_AddPod ref_name t (scheduleQueue ps) ref 0)) = [mkPodScheduleItem ref (t + 0)] ->
  exists ptr n c q', ptr ∈ schedulers ps ≫= ck_nodes /\ node_objs ps !! ptr = Some n /\ fits pod n = true /\
    ps_world ps !! NodeId n = Some c /\ pq_elems (activeQueue q') = [] /\
    polling_turn now (set_queue (q_AddPod ref_name t (scheduleQueue ps) ref 0) ps) =
      (Ok [ref], after_bind now ptr ref n pod c (set_queue q' ps)).
Proof.
  intros R Hp Hd He. destruct R as [Rc Rf Rcap Rq Rst Rs Re Rl (ch & ptr0 & n0 & Hch & Hptr & Hn0 & Hfit)].
  set (q := q_AddPod ref_name t (scheduleQueue ps) ref 0) in *.
  assert (sq_inv ref_name q) as Hq by (by apply q_AddPod_spec).
  assert (q_stop q = false) as Hs by (unfold q, q_AddPod; destruct (spq_RemovePod _ _ _) as [[]]; done).
  destruct (NextPod_alone ref_name q ref (t + 0) Hq Hs He) as (q' & En & Hm & Ha).
  unfold polling_turn. rewrite sm_bind_eq, sm_get_eq. cbn [schedulers set_queue ps_stop]. rewrite Rst.
  destruct (schedulers ps) as [|ch0 chs] eqn:Esch; [by apply elem_of_nil in Hch|].
  rewrite sm_bind_eq, sm_ret_eq, sm_bind_eq, sm_get_eq. cbn [schedulers set_queue]. rewrite Esch.
  cbn [List.length]. rewrite sm_bind_eq. cbn [poll_pods scheduleQueue set_queue]. rewrite En, Hm. cbv beta iota zeta.
  change (set_queue q' (set_queue q ps)) with (set_queue q' ps).
  rewrite sm_bind_eq. cbn [schedule_all]. rewrite sm_bind_eq. unfold schedule_routine. rewrite sm_bind_eq, sm_get_eq.
  cbn [schedulers set_queue]. rewrite Esch.
  destruct (try_chunks_connected now ref pod (set_queue q' ps) (rotate_from 0 (ch0 :: chs)) None) as (ptr & n & c & Hin & Hn & Hf & Hc & Et);
    [done..| |].
  { exists ch, ptr0, n0. split; [by apply rotate_from_elem|done]. }
  exists ptr, n, c, q'. split; [|repeat (split; [done|])].
  - apply list_elem_of_bind in Hin as (x & Hx1 & Hx2). apply rotate_from_elem in Hx2. apply list_elem_of_bind. by exists x.
  - by rewrite sm_bind_eq, Et.
Qed.

(** C13: A new pod reaches a node.  A pending pod that is handed to the pod manager is queued by the scheduler; if
    the queue was empty and a node of some chunk has room, the next polling turn puts the pod on a node that
    has room: the object in the pod manager's cache carries the node, the connection of this node and no other
    has the command to create the pod, the node is charged with its request and no node is overcommitted. *)
Theorem new_pod_reaches_node t now pod pm :
  pm_inv pm -> pm_FindPod pm (Name pod) = None -> PodIsPending pod = true -> DeletionTimestamp pod = None ->
  ready_for pod (view pm) ->
  let pm1 := (pm_AddOrUpdatePod t "" pod pm).2 in
  let pm2 := (scheduling (polling_turn now) pm1).2 in
  exists ptr n c pod', ptr ∈ schedulers (view pm) ≫= ck_nodes /\ node_objs (view pm) !! ptr = Some n /\ fits pod n = true /\
    pm_FindPod pm2 (Name pod) = Some pod' /\ same_pod pod pod' /\ HostIP (Status pod') = NodeId n /\ StartTime (Status pod') = Some now /\
    (pm_world pm).2 !! NodeId n = Some c /\
    (pm_world pm2).2 = <[NodeId n := mkConnection _ (conn_queue c ++ [PodCreate (Name pod) pod']) (conn_seq c) (conn_sent c)]> (pm_world pm).2 /\
    usage_shift (placed ptr pod) (view pm) (view pm2) /\ within_capacity (view pm2) /\
    pq_elems (activeQueue (scheduleQueue (view pm2))) = [].
Proof.
  intros Hi Hf Hpend Hd R pm1 pm2. destruct (new_pod_queued t pod pm Hi Hf Hpend) as (pm1' & E1 & Hmap & Hview).
  assert (pm1 = pm1') as E by (unfold pm1; by rewrite E1). clearbody pm1. subst pm1'.
  set (ref := mkPodRef (pm_next pm) (Name pod)) in *. set (ps := set_pod_objs (<[pm_next pm := pod]> (pm_heap pm)) (view pm)) in *.
  assert (ready_for pod ps) as R' by (destruct R as [Rc Rf Rcap Rq Rst Rs Re Rl Rr]; by split).
  assert (pod_objs ps !! ref_ptr ref = Some pod) as Hp by (apply lookup_insert_eq).
  destruct (polling_turn_places now pod ref clock ps R' Hp Hd) as (ptr & n & c & q' & Hin & Hn & Hfit & Hc & Ha & Et).
  { apply AddPod_alone; [apply R'|apply R']. }
  set (ps2 := set_queue q' ps) in *.
  pose proof (bindNode_effect now ptr ref ps2 n pod (rf_free _ _ R') Hn Hp) as Hb.
  rewrite (bindNode_connected now ptr ref n pod c ps2 Hn Hp Hc) in Hb. cbn [snd] in Hb. destruct Hb as (Hshift & Hfree & _ & _).
  assert (scheduling (polling_turn now) pm1 = (Ok [ref], pm2)) as E2.
  { unfold pm2, scheduling. rewrite Hview. change (scheduleQueue (view pm)) with (scheduleQueue ps). by rewrite Et. }
  assert (view pm2 = after_bind now ptr ref n pod c ps2) as Hview2.
  { pose proof (view_scheduling (polling_turn now) pm1) as H. rewrite E2, Hview in H. cbn [snd] in H. rewrite H.
    change (scheduleQueue (view pm)) with (scheduleQueue ps). by rewrite Et. }
  exists ptr, n, c, (scheduled_pod now (NodeId n) pod). split; [done|]. split; [done|]. split; [done|].
  assert (podStateMap pm2 = podStateMap pm1 /\ pm_heap pm2 = pod_objs (view pm2) /\ (pm_world pm2).2 = ps_world (view pm2)) as (Hm2 & Hh2 & Hw2).
  { unfold view. cbn. split; [|done]. unfold pm2, scheduling. by destruct (polling_turn now (view pm1)). }
  split.
  { unfold pm_FindPod, findPod. rewrite Hm2, Hmap, lookup_insert_eq, Hh2, Hview2. cbn. by rewrite lookup_insert_eq. }
  repeat (split; [done|]). split; [by rewrite Hw2, Hview2|]. rewrite Hview2. split; [exact Hshift|]. split; [|exact Ha].
  apply (within_shift _ ps2 _ (rf_capacity _ _ R') Hshift). intros q m res Hm Hres. unfold placed. case_decide as Hq; [|lia].
  subst q. assert (m = n) as -> by (change (node_objs ps2) with (node_objs ps) in Hm; congruence). by apply fits_request.
Qed.
End Placement.

(** ** A concrete placement *)

Section Example.
#[local] Instance no_codec : SessionCodec :=
  {| json_Marshal := fun s => Ok (Name s); json_Unmarshal := fun _ => Err (OtherError "unexpected end of JSON input") |}.

Definition example_core : podScheduler (W := Network) :=
  mkPS false ∅ {[ 0%nat := PodScheduler.example_node "n1" ]} 1 {[ "n1"%string := 0%nat ]}
    NewScheduleQueue [mkChunk [0%nat] NodeSortingMethodLessLastUse] (mkSchedulePolicy 5 5 NodeSortingMethodLessLastUse) ∅.
Definition example_manager : podManager (W := backend (Sch := podScheduler (W := Network))) :=
  NewPodManager (example_core, {["n1"%string := mkConnection _ [] 0 []]}).

Lemma example_ready : ready_for (waiting_pod None) (view example_manager).
Proof.
  destruct (example_scheduler_ok None []) as (Hf & Hc & Hq).
  split; [|exact Hf|exact Hc|exact Hq|reflexivity|reflexivity|reflexivity|cbn; lia|].
  - intros ptr n Hn. change (node_objs (view example_manager)) with ({[0%nat := PodScheduler.example_node "n1"]} : gmap nat SchedulableNode) in Hn.
    apply lookup_singleton_Some in Hn as [<- <-]. eexists. vm_compute. reflexivity.
  - exists (mkChunk [0%nat] NodeSortingMethodLessLastUse), 0%nat, (PodScheduler.example_node "n1").
    split; [left|]. split; [left|]. split; vm_compute; reflexivity.
Qed.

Lemma new_pod_reaches_node_witness :
  let pm1 := (pm_AddOrUpdatePod (PS := backend_scheduler (PS := core_scheduler 3)) 3 "" (waiting_pod None) example_manager).2 in
  let pm2 := (scheduling (polling_turn 7) pm1).2 in
  exists pod', pm_FindPod pm2 "ns/p" = Some pod' /\ HostIP (Status pod') = "n1"%string /\
    conn_queue <$> (pm_world pm2).2 !! "n1"%string = Some [PodCreate "ns/p" pod'].
Proof.
  intros pm1 pm2.
  destruct (new_pod_reaches_node 3 3 7 (waiting_pod None) example_manager (NewPodManager_inv _) eq_refl eq_refl eq_refl example_ready)
    as (ptr & n & c & pod' & _ & Hn & _ & Hf & _ & Hip & _ & Hc & Hw & _).
  change (node_objs (view example_manager)) with ({[0%nat := PodScheduler.example_node "n1"]} : gmap nat SchedulableNode) in Hn.
  apply lookup_singleton_Some in Hn as [<- <-]. exists pod'. split; [exact Hf|]. split; [exact Hip|].
  vm_compute in Hc. injection Hc as <-. change ((pm_world pm2).2) with ((pm_world (scheduling (polling_turn 7) pm1).2).2).
  unfold pm1. rewrite Hw. cbn [NodeId PodScheduler.example_node]. rewrite lookup_insert_eq. reflexivity.
Defined.
End Example.
