(* ===== verification/AppInvariant.v ===== *)
(** * The invariant of the application manager

    Whatever the order of store events, node events, worker runs and housekeeping, and whatever the
    pod manager, the session manager and the store answer, every pool keeps the bookkeeping that
    [AppPool] describes: it is filed under its own application, and each session id in it leads to
    the session object with that id, of that application. *)

From S2P Require Import Prelude GoStrings ApiTypes Interfaces AppPool AppManager.
From Stdlib Require Import String.
#[local] Open Scope Z_scope.

(** What no handler changes in a session object: its id and its application. *)
Definition same_session (s1 s2 : ApplicationSession) : Prop :=
  UID s1 = UID s2 /\ getSessionApplicationKey s1 = getSessionApplicationKey s2.

#[export] Instance same_session_equiv : Equivalence same_session.
Proof.
  unfold same_session. split; [done| |].
  - intros x y [-> ->]. done.
  - intros x y z [-> ->] [-> ->]. done.
Qed.

(** The objects of a heap stay allocated and keep their identity. *)
Definition heap_le (h1 h2 : SessionHeap) : Prop :=
  forall ptr s1, h1 !! ptr = Some s1 -> exists s2, h2 !! ptr = Some s2 /\ same_session s1 s2.

#[export] Instance heap_le_preorder : PreOrder heap_le.
Proof.
  split.
  - intros h ptr s Hs. by exists s.
  - intros h1 h2 h3 H12 H23 ptr s1 Hs1. destruct (H12 _ _ Hs1) as (s2 & Hs2 & E12).
    destruct (H23 _ _ Hs2) as (s3 & Hs3 & E23). exists s3. split; [done|]. by etrans.
Qed.

Lemma heap_le_insert h ptr s1 s2 :
  h !! ptr = Some s1 -> same_session s1 s2 -> heap_le h (<[ptr := s2]> h).
Proof.
  intros Hp Hs p s Hps. rewrite lookup_insert. case_decide; [|by exists s].
  subst. simplify_eq. by exists s2.
Qed.

(** A pointer to a session of the application [key]. *)
Definition points_to (h : SessionHeap) (key : string) (ptr : nat) : Prop :=
  exists session, h !! ptr = Some session /\ getSessionApplicationKey session = key.

Lemma points_to_le h1 h2 key ptr : heap_le h1 h2 -> points_to h1 key ptr -> points_to h2 key ptr.
Proof.
  intros Hle (s & Hs & <-). destruct (Hle _ _ Hs) as (s2 & Hs2 & _ & E). by exists s2.
Qed.

Record pool_ok (h : SessionHeap) (key : string) (pool : ApplicationPool) : Prop := {
  po_name : appName pool = key;
  po_repr : exists M N, pool_repr pool M N /\
    forall id s, N !! id = Some s ->
      exists session, h !! ps_session s = Some session /\ UID session = id /\
        getSessionApplicationKey session = key
}.

Lemma pool_ok_le h1 h2 key pool : heap_le h1 h2 -> pool_ok h1 key pool -> pool_ok h2 key pool.
Proof.
  intros Hle [Hn (M & N & Hr & HN)]. split; [done|]. exists M, N. split; [done|].
  intros id s Hs. destruct (HN _ _ Hs) as (session & Hp & Hid & Hk).
  destruct (Hle _ _ Hp) as (s2 & Hs2 & E1 & E2). exists s2. by rewrite <- E1, <- E2.
Qed.

Lemma NewApplicationPool_ok h key : pool_ok h key (NewApplicationPool key).
Proof.
  split; [done|]. exists ∅, ∅. split; [apply NewApplicationPool_repr|].
  intros id s. by rewrite lookup_empty.
Qed.

Section PoolOk.
Context {GR : GoRange}.
Implicit Types (pool : ApplicationPool) (h : SessionHeap).

Lemma appName_addOrUpdatePodNoLock pool n st ids :
  appName (addOrUpdatePodNoLock pool n st ids).2 = appName pool.
Proof. unfold addOrUpdatePodNoLock. by repeat (case_match; simpl). Qed.

Lemma appName_deleteSession pool session : appName (deleteSession pool session) = appName pool.
Proof. unfold deleteSession, deleteSessionNoLock. by repeat (case_match; simpl). Qed.

Lemma addOrUpdatePod_ok h key pool n st ids :
  pool_ok h key pool -> pool_ok h key (addOrUpdatePod pool n st ids).2.
Proof.
  intros [Hn (M & N & Hr & HN)]. split.
  - rewrite <- Hn. unfold addOrUpdatePod.
    repeat (case_match; simpl); auto using appName_addOrUpdatePodNoLock.
  - eexists _, N. split; [by apply addOrUpdatePod_repr|done].
Qed.

Lemma deletePod_ok h key pool n : pool_ok h key pool -> pool_ok h key (deletePod pool n).
Proof.
  intros [Hn (M & N & Hr & HN)]. split; [done|]. eexists _, N. split; [by apply deletePod_repr|done].
Qed.

Lemma deleteSession_ok h key pool session :
  pool_ok h key pool -> pool_ok h key (deleteSession pool session).
Proof.
  intros [Hn (M & N & Hr & HN)]. split; [by rewrite appName_deleteSession|].
  eexists _, _. split; [by apply deleteSession_repr|].
  intros id s [_ Hs]%lookup_delete_Some. by apply HN.
Qed.

Lemma addSession_ok h key pool ptr session :
  pool_ok h key pool -> h !! ptr = Some session -> getSessionApplicationKey session = key ->
  pool_ok h key (addSession pool (UID session) ptr session).
Proof.
  intros [Hn (M & N & Hr & HN)] Hp Hk. split.
  - rewrite <- Hn. unfold addSession.
    repeat (case_match; simpl); rewrite ?appName_addOrUpdatePodNoLock; auto using appName_deleteSession.
  - pose proof (addSession_repr pool M N (UID session) ptr session Hr) as Ha.
    destruct (session_pool_state session) as [st|]; eexists _, _; (split; [exact Ha|]).
    + intros id s [[<- <-]|[_ Hs]]%lookup_insert_Some; [|by apply HN]. by exists session.
    + intros id s [_ Hs]%lookup_delete_Some. by apply HN.
Qed.

Lemma updateSessionPool_ok now h key pool ptr :
  pool_ok h key pool -> points_to h key ptr ->
  let '(pool', h') := updateSessionPool now pool h ptr in pool_ok h' key pool' /\ heap_le h h'.
Proof.
  intros Hok (session & Hp & Hk). unfold updateSessionPool. rewrite Hp.
  destruct (SessionInTerminalState session); [by split; [apply deleteSession_ok|]|].
  set (s' := map_om (om_set_CreationTimestamp now) session).
  assert (heap_le h (<[ptr := s']> h)) as Hle by (by eapply heap_le_insert).
  split; [|done]. apply addSession_ok; [by eapply pool_ok_le|by rewrite lookup_insert_eq|done].
Qed.
End PoolOk.

Record am_inv {W} (am : ApplicationManager W) : Prop := {
  ai_pools : forall key pool, applicationPools am !! key = Some pool -> pool_ok (session_heap am) key pool;
  ai_fresh : forall ptr, (next_session am <= ptr)%nat -> session_heap am !! ptr = None
}.

Section Evolves.
Context {GR : GoRange} {GS : GoSort} {CG : ClientGo} {QL : QuantityLib} {W : Type}
  {CO : Collaborators W}.
Abbreviation AM := (ApplicationManager W).
Implicit Types am : AM.

(** What every handler guarantees of the state it leaves. *)
Definition evolves am am' : Prop :=
  am_inv am -> am_inv am' /\ heap_le (session_heap am) (session_heap am').

#[local] Instance evolves_preorder : PreOrder evolves.
Proof.
  split.
  - intros am Hi. by split.
  - intros a b c Hab Hbc Hi. destruct (Hab Hi) as [Hi' Hle]. destruct (Hbc Hi') as [Hi'' Hle'].
    split; [done|by etrans].
Qed.

Lemma evolves_le am am' : am_inv am -> evolves am am' -> heap_le (session_heap am) (session_heap am').
Proof. intros Hi He. by apply He. Qed.

(** [keeps am c]: running [c] from [am] keeps the invariant. *)
Definition keeps {A} am (c : SM AM A) : Prop := evolves am (c am).2.

Lemma keeps_ret {A} am (a : A) : keeps am (sm_ret a).
Proof. unfold keeps. by simpl. Qed.
Lemma keeps_fail {A} am e : keeps am (@sm_fail AM A e).
Proof. unfold keeps. by simpl. Qed.
Lemma keeps_get am : keeps am sm_get.
Proof. unfold keeps. by simpl. Qed.

Lemma keeps_bind {A B} am (c : SM AM A) (k : A -> SM AM B) :
  keeps am c ->
  (forall a am', c am = (Ok a, am') -> am_inv am ->
     heap_le (session_heap am) (session_heap am') -> keeps am' (k a)) ->
  keeps am (sm_bind c k).
Proof.
  intros Hc Hk Hi. unfold sm_bind, keeps in *. destruct (Hc Hi) as [Hi' Hle].
  destruct (c am) as [[a|e] am'] eqn:E; simpl in *; [|done].
  destruct (Hk a am' eq_refl Hi Hle Hi') as [Hi'' Hle']. split; [done|by etrans].
Qed.

Lemma keeps_get_bind {B} am (k : AM -> SM AM B) : keeps am (k am) -> keeps am (sm_bind sm_get k).
Proof. done. Qed.

Lemma keeps_try {A} am (c : SM AM A) : keeps am c -> keeps am (sm_try c).
Proof. unfold keeps, sm_try. by destruct (c am). Qed.

Lemma keeps_call {A} am (c : SM W A) : keeps am (call c).
Proof.
  unfold keeps, call. destruct (c (world am)) as [r w]. simpl. intros Hi. by split; [destruct Hi|].
Qed.

(** Loops whose body keeps the invariant as long as a fact that only depends on identities holds. *)
Lemma keeps_for {A} (P : SessionHeap -> A -> Prop) (l : list A) body am :
  (forall h1 h2 x, heap_le h1 h2 -> P h1 x -> P h2 x) ->
  (forall x am, P (session_heap am) x -> keeps am (body x)) ->
  Forall (P (session_heap am)) l -> keeps am (sm_for l body).
Proof.
  intros Hmono Hbody. revert am. induction l as [|x l IH]; intros am Hl; [apply keeps_ret|].
  apply Forall_cons in Hl as [Hx Hl]. simpl. apply keeps_bind; [by apply Hbody|].
  intros _ am' _ _ Hle. apply IH. eapply Forall_impl; [exact Hl|]. by intros y; apply Hmono.
Qed.

Lemma keeps_collect {A} (P : SessionHeap -> A -> Prop) (l : list A) body am :
  (forall h1 h2 x, heap_le h1 h2 -> P h1 x -> P h2 x) ->
  (forall x am, P (session_heap am) x -> keeps am (body x)) ->
  Forall (P (session_heap am)) l -> keeps am (sm_collect l body).
Proof.
  intros Hmono Hbody. revert am. induction l as [|x l IH]; intros am Hl; [apply keeps_ret|].
  apply Forall_cons in Hl as [Hx Hl]. simpl. apply keeps_bind; [by apply keeps_try, Hbody|].
  intros r am' _ _ Hle. apply keeps_bind; [|intros; apply keeps_ret].
  apply IH. eapply Forall_impl; [exact Hl|]. by intros y; apply Hmono.
Qed.

(** *** The primitive state changes *)

Lemma the_pool_ok am key : am_inv am -> pool_ok (session_heap am) key (the_pool am key).
Proof.
  intros [Hp _]. unfold the_pool. destruct (applicationPools am !! key) as [pool|] eqn:E; simpl.
  - by apply Hp.
  - apply NewApplicationPool_ok.
Qed.

Lemma am_inv_insert am key pool h q (w : W) :
  am_inv am -> pool_ok h key pool -> heap_le (session_heap am) h ->
  (forall ptr, (next_session am <= ptr)%nat -> h !! ptr = None) ->
  am_inv (mkAM (<[key := pool]> (applicationPools am)) h (next_session am) q w).
Proof.
  intros [Hp Hf] Hok Hle Hh. split; simpl; [|done].
  intros k p [[<- <-]|[_ Hk]]%lookup_insert_Some; [done|]. by eapply pool_ok_le, Hp.
Qed.

Lemma keeps_on_pool am key f :
  (forall h pool, pool_ok h key pool -> pool_ok h key (f pool)) -> keeps am (on_pool key f).
Proof.
  intros Hf Hi. split; [|done]. simpl. apply am_inv_insert; [done| |done|apply Hi].
  by apply Hf, the_pool_ok.
Qed.

Lemma keeps_queue am c : keeps am (sm_modify (queue_call c)).
Proof. intros Hi. split; [by destruct Hi|done]. Qed.

Lemma keeps_set_world am f : keeps am (sm_modify (fun am => set_world (f am) am)).
Proof. intros Hi. split; [by destruct Hi|done]. Qed.

Lemma keeps_getOrCreate am key : keeps am (getOrCreateApplicationPool key).
Proof.
  intros Hi. unfold getOrCreateApplicationPool, getApplicationPool. simpl.
  destruct (applicationPools am !! key); [done|]. split; [|done].
  apply am_inv_insert; [done|apply NewApplicationPool_ok|done|apply Hi].
Qed.

Lemma keeps_delete_pool am key : keeps am (deleteApplicationPool key).
Proof.
  intros [Hp Hf]. split; [|done]. split; simpl; [|done].
  intros k p [_ Hk]%lookup_delete_Some. by apply Hp.
Qed.

Lemma keeps_load am ptr : keeps am (load ptr).
Proof. unfold keeps, load. by destruct (session_heap am !! ptr). Qed.

Lemma load_Ok am am' ptr session :
  load ptr am = (Ok session, am') -> am' = am /\ session_heap am !! ptr = Some session.
Proof. unfold load. destruct (session_heap am !! ptr); naive_solver. Qed.

(** Writing through a pointer whose object is known to be the same session. *)
Definition holds (h : SessionHeap) (ptr : nat) (session : ApplicationSession) : Prop :=
  exists s, h !! ptr = Some s /\ same_session s session.

Lemma holds_le h1 h2 ptr session : heap_le h1 h2 -> holds h1 ptr session -> holds h2 ptr session.
Proof.
  intros Hle (s & Hs & E). destruct (Hle _ _ Hs) as (s2 & Hs2 & E2). exists s2.
  split; [done|]. by etrans; [symmetry|].
Qed.

Lemma holds_load am am' ptr session :
  load ptr am = (Ok session, am') -> holds (session_heap am') ptr session.
Proof. intros [-> Hs]%load_Ok. by exists session. Qed.

Lemma holds_same h ptr s1 s2 : same_session s1 s2 -> holds h ptr s1 -> holds h ptr s2.
Proof. intros E (s & Hs & E'). exists s. split; [done|by etrans]. Qed.

Lemma keeps_store am ptr session :
  holds (session_heap am) ptr session -> keeps am (store_session ptr session).
Proof.
  intros (s & Hs & E) [Hp Hf]. assert (heap_le (session_heap am) (<[ptr := session]> (session_heap am))) as Hle
    by (by eapply heap_le_insert).
  split; [|done]. split; simpl.
  - intros k p Hk. by eapply pool_ok_le, Hp.
  - intros q Hq. rewrite lookup_insert_ne; [by apply Hf|]. intros ->. by rewrite Hf in Hs.
Qed.

Lemma keeps_new_session am session : keeps am (new_session session).
Proof.
  intros [Hp Hf]. assert (heap_le (session_heap am) (<[next_session am := session]> (session_heap am))) as Hle.
  { intros p s Hs. exists s. split; [|done]. rewrite lookup_insert_ne; [done|].
    intros <-. by rewrite Hf in Hs. }
  split; [|done]. split; simpl.
  - intros k p Hk. by eapply pool_ok_le, Hp.
  - intros q Hq. rewrite lookup_insert_ne by lia. apply Hf. lia.
Qed.

Lemma keeps_update_session_pool am now key ptr :
  points_to (session_heap am) key ptr -> keeps am (update_session_pool now key ptr).
Proof.
  intros Hpt Hi. unfold update_session_pool. simpl.
  pose proof (updateSessionPool_ok now (session_heap am) key (the_pool am key) ptr
    (the_pool_ok am key Hi) Hpt) as Hu.
  destruct (updateSessionPool now (the_pool am key) (session_heap am) ptr) as [pool h] eqn:E.
  destruct Hu as [Hok Hle]. split; [|done]. simpl.
  apply (am_inv_insert am key pool h); [done..|]. intros q Hq.
  unfold updateSessionPool in E. destruct Hi as [_ Hf].
  destruct Hpt as (session & Hp & _). rewrite Hp in E.
  destruct (SessionInTerminalState session); simplify_eq; [by apply Hf|].
  rewrite lookup_insert_ne; [by apply Hf|]. intros ->. by rewrite Hf in Hp.
Qed.

(** *** The handlers *)

#[local] Hint Resolve addOrUpdatePod_ok deletePod_ok deleteSession_ok : core.

(** Walks through a handler; what is left are the writes through session pointers. *)
Ltac keep_step :=
  match goal with
  | |- keeps _ (sm_ret _) => apply keeps_ret
  | |- keeps _ (sm_fail _) => apply keeps_fail
  | |- keeps _ sm_get => apply keeps_get
  | |- keeps _ (call _) => apply keeps_call
  | |- keeps _ (sm_try _) => apply keeps_try
  | |- keeps _ (sm_modify (queue_call _)) => apply keeps_queue
  | |- keeps _ (enqueueApplication _) => apply keeps_queue
  | |- keeps _ (sm_modify (fun _ => set_world _ _)) => apply keeps_set_world
  | |- keeps _ (load _) => apply keeps_load
  | |- keeps _ (on_pool _ _) => apply keeps_on_pool; by auto
  | |- keeps _ (getOrCreateApplicationPool _) => apply keeps_getOrCreate
  | |- keeps _ (deleteApplicationPool _) => apply keeps_delete_pool
  | |- keeps _ (sm_bind sm_get _) => apply keeps_get_bind
  | |- keeps _ (sm_bind _ _) =>
    apply keeps_bind; [|let E := fresh "E" in let Hle := fresh "Hle" in intros ? ? E ? Hle]
  | |- keeps _ (match ?x with _ => _ end) => destruct x eqn:?
  end.
Ltac keep := repeat (cbv zeta; keep_step).

Lemma keeps_changeSessionStatus am ptr status : keeps am (changeSessionStatus ptr status).
Proof.
  unfold changeSessionStatus. keep. apply keeps_store.
  eapply holds_same; [|by eapply holds_load]. done.
Qed.

Lemma keeps_bindSessionToPod am now key pod ptr :
  points_to (session_heap am) key ptr -> keeps am (bindSessionToPod now key pod ptr).
Proof.
  intros Hpt. unfold bindSessionToPod. apply keeps_bind; [keep|].
  intros session am1 E1%holds_load _ Hle1. cbv zeta.
  apply keeps_bind; [by apply keeps_store; eapply holds_same, E1|]. intros _ am2 _ _ Hle2.
  apply keeps_bind; [keep|]. intros r am3 _ _ Hle3. destruct r.
  - apply keeps_update_session_pool. eapply points_to_le; [|exact Hpt]. by etrans; [|etrans].
  - keep. apply keeps_store. eapply holds_le; [|exact E1]. by etrans.
Qed.

Lemma keeps_deleteApplicationSession am now key s : keeps am (deleteApplicationSession now key s).
Proof.
  unfold deleteApplicationSession. apply keeps_bind; [keep|].
  intros session am1 E1%holds_load _ _. cbv zeta.
  apply keeps_bind.
  { apply keeps_store. eapply holds_same, E1. by destruct (DeletionTimestamp session). }
  intros _ am2 _ _ _. keep; apply keeps_changeSessionStatus.
Qed.

Lemma keeps_assign_sessions now key idlePods pending am :
  Forall (fun s => points_to (session_heap am) key (ps_session s)) pending ->
  keeps am (assign_sessions now key idlePods pending).
Proof.
  revert pending am. induction idlePods as [|ap idlePods IH]; intros pending am Hp; [apply keeps_ret|].
  destruct pending as [|s pending]; [apply keeps_ret|]. simpl. apply keeps_get_bind.
  destruct (FindPod _ _) as [pod|]; [|by apply IH].
  pose proof Hp as [Hs Hrest]%Forall_cons.
  apply keeps_bind; [by apply keeps_try, keeps_bindSessionToPod|]. intros r am1 _ _ Hle1.
  assert (forall am2 l, heap_le (session_heap am) (session_heap am2) ->
    Forall (fun s => points_to (session_heap am) key (ps_session s)) l ->
    Forall (fun s => points_to (session_heap am2) key (ps_session s)) l) as Hmono.
  { intros am2 l Hle Hl. eapply Forall_impl; [exact Hl|]. intros x. by apply points_to_le. }
  destruct r as [[]|e]; keep; apply IH, Hmono; try done. by etrans; [|etrans].
Qed.

Lemma pool_sessions_point am key s :
  am_inv am -> (exists st, s ∈ (range (sessions_in (the_pool am key) st)).*2) ->
  points_to (session_heap am) key (ps_session s).
Proof.
  intros Hi (st & Hs). destruct (the_pool_ok am key Hi) as [_ (M & N & [_ HS _] & HN)].
  apply list_elem_of_fmap in Hs as ([id s'] & -> & Hid%elem_of_range).
  apply (lookup_bucket ps_state _ N) in Hid as [Hid _]; [|done].
  destruct (HN _ _ Hid) as (session & Hp & _ & Hk). by exists session.
Qed.

Lemma keeps_deployApplicationSessions am now key : keeps am (deployApplicationSessions now key).
Proof.
  unfold deployApplicationSessions. apply keeps_get_bind. cbv zeta. unfold getNonRunningSessions.
  apply keeps_bind.
  - intros Hi. apply keeps_assign_sessions; [|done]. rewrite gosort_perm, Forall_forall.
    intros s Hs. apply pool_sessions_point; [done|]. rewrite elem_of_app in Hs. unfold non_running in Hs.
    rewrite !list_elem_of_filter in Hs. naive_solver.
  - intros errs am1 _ _ _. keep;
      apply (keeps_collect (fun _ _ => True)); auto using keeps_deleteApplicationSession, Forall_true.
Qed.

Lemma keeps_collect_sessions am now key l : keeps am (sm_collect l (deleteApplicationSession now key)).
Proof.
  apply (keeps_collect (fun _ _ => True)); auto using keeps_deleteApplicationSession, Forall_true.
Qed.

Lemma keeps_onSessionUpdate am now ptr :
  keeps am (onApplicationSessionUpdateEvent now ptr).
Proof.
  unfold onApplicationSessionUpdateEvent. apply keeps_bind; [keep|].
  intros session am1 [-> E1]%load_Ok _ _. cbv zeta.
  assert (points_to (session_heap am) (getSessionApplicationKey session) ptr) as Hpt by (by exists session).
  apply keeps_bind; [keep|]. intros _ am2 _ _ Hle.
  keep; apply keeps_update_session_pool; by eapply points_to_le.
Qed.

Lemma keeps_onSessionDelete am now session : keeps am (onApplicationSessionDeleteEvent now session).
Proof.
  unfold onApplicationSessionDeleteEvent. cbv zeta. apply keeps_get_bind.
  destruct (getApplicationPool am _) as [pool|] eqn:Hpool; [|keep].
  apply keeps_bind; [|intros; keep].
  destruct (getSession pool (UID session)) as [old|] eqn:Hold; [|keep].
  intros Hi.
  assert (points_to (session_heap am) (getSessionApplicationKey session) (ps_session old)) as Hpt.
  { destruct (ai_pools am Hi _ _ Hpool) as [_ (M & N & Hr & HN)].
    rewrite (getSession_repr _ _ _ _ Hr) in Hold. destruct (HN _ _ Hold) as (s & Hs & _ & Hk).
    by exists s. }
  revert Hi. apply keeps_bind; [keep|]. intros s am1 E1 _ Hle1. apply keeps_bind.
  - apply holds_load in E1. keep. apply keeps_store. by eapply holds_same, E1.
  - intros _ am2 _ _ Hle2. apply keeps_update_session_pool. eapply points_to_le, Hpt. by etrans.
Qed.

Lemma keeps_onSessionAdd am now ptr : keeps am (onApplicationSessionAddEvent now ptr).
Proof.
  unfold onApplicationSessionAddEvent. apply keeps_bind; [keep|].
  intros session am1 [-> E1]%load_Ok _ _. cbv zeta.
  assert (points_to (session_heap am) (getSessionApplicationKey session) ptr) as Hpt by (by exists session).
  destruct (DeletionTimestamp session); [apply keeps_onSessionDelete|].
  apply keeps_bind; [keep|]. intros _ am2 _ _ Hle.
  keep; [apply keeps_onSessionUpdate|apply keeps_update_session_pool; by eapply points_to_le].
Qed.

Lemma keeps_onSessionEvent am now t session : keeps am (onSessionEventFromStorage now t session).
Proof.
  unfold onSessionEventFromStorage. destruct t; keep; try apply keeps_new_session;
    auto using keeps_onSessionAdd, keeps_onSessionUpdate, keeps_onSessionDelete.
Qed.

Lemma keeps_deleteApplicationPod am now key n : keeps am (deleteApplicationPod now key n).
Proof. unfold deleteApplicationPod, request_termination. keep. Qed.

Lemma keeps_handlePodAddUpdate am now pod : keeps am (handlePodAddUpdateFromNode now pod).
Proof. unfold handlePodAddUpdateFromNode. keep; apply keeps_deleteApplicationPod. Qed.

Lemma keeps_onPodEvent am now t pod : keeps am (onPodEventFromNode now t pod).
Proof.
  unfold onPodEventFromNode, handlePodDeleteFromNode, cleanupSessionOnDeletedPod.
  keep; auto using keeps_handlePodAddUpdate, keeps_collect_sessions.
Qed.

Lemma keeps_create_pods now key application standby seeds am :
  keeps am (create_pods now key application standby seeds).
Proof.
  revert am. induction seeds as [|seed seeds IH]; intros am; simpl; unfold createApplicationPod;
    keep; apply IH.
Qed.

Lemma keeps_delete_pods now key l am : keeps am (delete_pods now key l).
Proof.
  revert am. induction l as [|ap l IH]; intros am; simpl; keep; auto using keeps_deleteApplicationPod.
Qed.

Lemma keeps_deployApplicationPods am now seeds key application n :
  keeps am (deployApplicationPods now seeds key application n).
Proof. unfold deployApplicationPods. keep; auto using keeps_create_pods, keeps_delete_pods. Qed.

Lemma keeps_cleanupDeletedApplication am now key : keeps am (cleanupDeletedApplication now key).
Proof.
  unfold cleanupDeletedApplication, cleanupSessionOfApplication, cleanupPodOfApplication.
  keep; auto using keeps_collect_sessions.
  apply (keeps_collect (fun _ _ => True)); auto using keeps_deleteApplicationPod, Forall_true.
Qed.

Lemma keeps_pruneDeadPods am now key : keeps am (pruneDeadPods now key).
Proof.
  unfold pruneDeadPods. keep; (apply (keeps_for (fun _ _ => True)); [done| |by apply Forall_true]);
    intros ap am1 _; keep; apply keeps_deleteApplicationPod.
Qed.

Lemma keeps_syncApplication am now seeds key : keeps am (syncApplication now seeds key).
Proof.
  unfold syncApplication, sync_live, requeue.
  keep; auto using keeps_cleanupDeletedApplication, keeps_deployApplicationSessions,
    keeps_deployApplicationPods, keeps_pruneDeadPods.
Qed.

Lemma keeps_processNextWorkItem am now seeds key : keeps am (processNextWorkItem now seeds key).
Proof. unfold processNextWorkItem. keep; apply keeps_syncApplication. Qed.

Lemma keeps_HouseKeeping am now : keeps am (HouseKeeping now).
Proof.
  unfold HouseKeeping. keep. apply (keeps_for (fun _ _ => True)); [done| |by apply Forall_true].
  intros [appKey pool] am1 _. keep.
Qed.

(** *** All executions *)

(** One event: a store or node event, a run of a worker, a turn of the ticker, or a change behind
    the interfaces. *)
Inductive am_step : AM -> AM -> Prop :=
  | step_session am now t session : am_step am (onSessionEventFromStorage now t session am).2
  | step_pod am now t pod : am_step am (onPodEventFromNode now t pod am).2
  | step_app_add am application : am_step am (onApplicationAddEvent application am).2
  | step_app_update am b old new : am_step am (onApplicationUpdateEvent b old new am).2
  | step_app_delete am application : am_step am (onApplicationDeleteEvent application am).2
  | step_worker am now seeds key : am_step am (processNextWorkItem now seeds key am).2
  | step_house am now : am_step am (HouseKeeping now am).2
  | step_world am w : am_step am (set_world w am).

Definition NewApplicationManager (w : W) : AM := mkAM ∅ ∅ 0 [] w.

Lemma am_step_evolves am am' : am_step am am' -> evolves am am'.
Proof.
  destruct 1.
  - apply keeps_onSessionEvent.
  - apply keeps_onPodEvent.
  - change (keeps am (onApplicationAddEvent application)). unfold onApplicationAddEvent. keep.
  - change (keeps am (onApplicationUpdateEvent b old new)). unfold onApplicationUpdateEvent. keep.
  - apply keeps_queue.
  - apply keeps_processNextWorkItem.
  - apply keeps_HouseKeeping.
  - intros Hi. by split; [destruct Hi|].
Qed.

Lemma NewApplicationManager_inv w : am_inv (NewApplicationManager w).
Proof. split; simpl; [intros key pool; by rewrite lookup_empty|intros; apply lookup_empty]. Qed.

Lemma am_reachable_inv w am : rtc am_step (NewApplicationManager w) am -> am_inv am.
Proof.
  intros Hr. pose proof (NewApplicationManager_inv w) as Hi. revert Hi.
  induction Hr as [|a b c Hs _ IH]; [done|]. intros Hi. apply IH. by apply (am_step_evolves _ _ Hs).
Qed.

(** C6: however store events, node reports, workers and the ticker interleave, and whatever the pod
    manager, the session manager and the store answer, every pool is filed under the name of its
    application, keeps each pod and each session under exactly one state, the one it is in, and
    each session id in it leads to the live session object with that id and of that application. *)
Theorem manager_pools_consistent w am key pool :
  rtc am_step (NewApplicationManager w) am -> applicationPools am !! key = Some pool ->
  appName pool = key /\
  (forall st n p, pods_in pool st !! n = Some p -> podName p = n /\ pod_state p = st) /\
  (forall st1 st2 n, is_Some (pods_in pool st1 !! n) -> is_Some (pods_in pool st2 !! n) -> st1 = st2) /\
  (forall st id s, sessions_in pool st !! id = Some s -> ps_state s = st /\
     exists session, session_heap am !! ps_session s = Some session /\ UID session = id /\
       getSessionApplicationKey session = key) /\
  (forall st1 st2 id, is_Some (sessions_in pool st1 !! id) -> is_Some (sessions_in pool st2 !! id) ->
     st1 = st2).
Proof.
  intros Hr Hp. destruct (ai_pools am (am_reachable_inv w am Hr) key pool Hp) as [Hn (M & N & [HB HS Hnm] & HN)].
  split; [done|]. split; [|split; [|split]].
  - intros st n p [Hm Hst]%(lookup_bucket pod_state _ M); [|done]. split; [by apply Hnm|done].
  - intros st1 st2 n [p1 [H1 <-]%(lookup_bucket pod_state _ M)] [p2 [H2 <-]%(lookup_bucket pod_state _ M)];
      [congruence|done..].
  - intros st id s [Hs Hst]%(lookup_bucket ps_state _ N); [|done]. split; [done|]. by apply HN.
  - intros st1 st2 id [s1 [H1 <-]%(lookup_bucket ps_state _ N)] [s2 [H2 <-]%(lookup_bucket ps_state _ N)];
      [congruence|done..].
Qed.
End Evolves.

(** ** A concrete run

    Collaborators that keep pods and applications in maps, accept every session and record which
    sessions they were asked to open and to close. *)
Record ExampleWorld := mkExampleWorld {
  ew_pods : gmap string Pod; ew_apps : gmap string Application;
  ew_opened : list string; ew_closed : list string
}.

#[export] Instance example_collaborators : Collaborators ExampleWorld := {|
  FindPod := fun w n => ew_pods w !! n;
  TerminatePod := fun n w =>
    match ew_pods w !! n with Some _ => (Ok (), w) | None => (Err PodNotFoundError, w) end;
  AddOrUpdatePod := fun _ pod w =>
    (Ok pod, mkExampleWorld (<[Name pod := pod]> (ew_pods w)) (ew_apps w) (ew_opened w) (ew_closed w));
  ClearDeletionTimestamp := fun n w =>
    mkExampleWorld (alter (map_om (om_set_DeletionTimestamp None)) n (ew_pods w)) (ew_apps w) (ew_opened w)
      (ew_closed w);
  OpenSession := fun pod s w =>
    (Ok (), mkExampleWorld (ew_pods w) (ew_apps w) (ew_opened w ++ [UID s]) (ew_closed w));
  CloseSession := fun _ s w =>
    (Ok (), mkExampleWorld (ew_pods w) (ew_apps w) (ew_opened w) (ew_closed w ++ [UID s]));
  UpdateSessionStatus := fun _ _ w => (Ok (), w);
  GetApplicationCache := fun w n => Ok (ew_apps w !! n);
  UpdateApplicationStatus := fun _ _ w => (Ok (), w)
|}.

Definition example_app (sp : ScalingPolicyR) : Application :=
  mkObject (mkObjectMeta "app" "ns" "a1" "1" 0 None None ∅ ∅ [])
    (mkApplicationSpec _ [mkContainer _ "c" "image" [] [] ∅ no_hooks] false ∅ sp)
    (mkApplicationStatus 0 0 0 0 0 0).
Definition example_policy : ScalingPolicyR :=
  mkScalingPolicy 0 10 2 ScalingPolicyTypeIdleSessionNum (Some (mkWaterMarks 3 1)) None.
Definition example_pod (n : string) (ports : list ContainerPort) : Pod :=
  mkObject (mkObjectMeta n "ns" n "1" 0 None None
      {[ LabelFornaxCoreApplication := "ns/app"%string ]} ∅ [])
    (mkPodSpec _ [mkContainer _ "c" "image" ports [] ∅ no_hooks] [] false) (mkPodStatus PodRunning "10.0.0.1" (Some 0) "" "").

Definition example_world : ExampleWorld :=
  mkExampleWorld {[ "ns/p1" := example_pod "p1" []; "ns/p2" := example_pod "p2" [] ]}
    {[ "ns/app" := example_app example_policy ]} [] [].

(** An application, one running pod and a pending session arrive. *)
Definition example_am : ApplicationManager ExampleWorld :=
  let am := (onApplicationAddEvent (example_app example_policy) (NewApplicationManager example_world)).2 in
  let am := (onPodEventFromNode 1 PodEventTypeCreate (example_pod "p1" []) am).2 in
  (onSessionEventFromStorage 2 EventAdded (example_session "s2" SessionStatusPending None) am).2.

Lemma example_am_reachable : rtc am_step (NewApplicationManager example_world) example_am.
Proof.
  eapply rtc_r; [|apply step_session]. eapply rtc_r; [|apply step_pod].
  eapply rtc_r; [|apply step_app_add]. apply rtc_refl.
Qed.

Definition example_am_pods : gmap string ApplicationPod :=
  {[ "ns/p1" := mkApplicationPod "ns/p1" PodStateIdle ∅ ]}.
Definition example_am_sessions : gmap string PoolSession :=
  {[ "s2" := mkPoolSession 0 SessionStatePending ]}.

Lemma example_am_repr : pool_repr (the_pool example_am "ns/app") example_am_pods example_am_sessions.
Proof.
  split; [intros []; vm_compute; reflexivity|intros []; vm_compute; reflexivity|].
  intros n p. unfold example_am_pods. by intros [<- <-]%lookup_singleton_Some.
Qed.

Lemma manager_pools_consistent_witness :
  exists pool, applicationPools example_am !! "ns/app" = Some pool /\ appName pool = "ns/app"%string.
Proof.
  eexists. split; [vm_compute; reflexivity|].
  refine (proj1 (manager_pools_consistent example_world example_am "ns/app" _ example_am_reachable _)).
  vm_compute. reflexivity.
Defined.
