(* ===== verification/AppScaling.v ===== *)
(** * Scaling: how many pods an application gets, and which ones it loses

    The arithmetic of [calculateDesiredIdlePods], the choice of [getPodsToBeDelete] and what
    [deployApplicationPods] does to the pods of a pool. *)

From S2P Require Import Prelude GoStrings ApiTypes Interfaces AppPool AppManager AppInvariant.
From Stdlib Require Import String.
#[local] Open Scope Z_scope.

(** ** The number of pods *)

(** The ranges of the fields: [uint32] water marks and instance counts, and pod counts that an
    [int32] status can hold. *)
Definition marks_u32 (w : option WaterMarks) : Prop :=
  match w with
  | Some w => 0 <= LowWaterMark w < 2 ^ 32 /\ 0 <= HighWaterMark w < 2 ^ 32
  | None => True
  end.
Record PolicyRange (sp : ScalingPolicyR) : Prop := {
  pg_min : 0 <= MinimumInstance sp < 2 ^ 32;
  pg_max : 0 <= MaximumInstance sp < 2 ^ 32;
  pg_num : marks_u32 (IdleSessionNumThreshold sp);
  pg_pct : marks_u32 (IdleSessionPercentThreshold sp)
}.
Definition pod_count (n : Z) : Prop := 0 <= n < 2 ^ 31.

Section Arithmetic.
Context {QL : QuantityLib}.
Implicit Types (app : Application) (sp : ScalingPolicyR).

(** The number the water marks ask for, before the instance limits; the floats are exact here. *)
Definition watermark_target sp (idle pending : Z) : option Z :=
  match ScalingPolicyType sp with
  | ScalingPolicyTypeUnset => Some idle
  | ScalingPolicyTypeIdleSessionNum =>
    (fun w => if HighWaterMark w <? idle - pending then pending + HighWaterMark w
              else if idle - pending <? LowWaterMark w then pending + LowWaterMark w else idle)
    <$> IdleSessionNumThreshold sp
  | ScalingPolicyTypeIdleSessionPercent =>
    (fun w => if HighWaterMark w <? idle - pending then pending + godiv (idle * HighWaterMark w) 100
              else if idle - pending <? LowWaterMark w then pending + godiv (idle * LowWaterMark w) 100
              else idle)
    <$> IdleSessionPercentThreshold sp
  end.

Definition clamp_instances sp (occupied idle target : Z) : Z :=
  if target + occupied <=? MinimumInstance sp then MinimumInstance sp - occupied
  else if MaximumInstance sp <=? target + occupied then
    if MaximumInstance sp - occupied <=? 0 then idle else MaximumInstance sp - occupied
  else target.

Lemma percent_bound i w : 0 <= i -> 0 <= w <= 100 -> 0 <= godiv (i * w) 100 <= i.
Proof. intros. rewrite Z.quot_div_nonneg by nia. split; [apply Z.div_pos; nia|]. apply Z.div_le_upper_bound; nia. Qed.

Lemma calculateDesiredIdlePods_spec app occupied idle pending :
  ValidPolicy (ScalingPolicy (Spec app)) -> PolicyRange (ScalingPolicy (Spec app)) ->
  pod_count occupied -> pod_count idle -> pod_count pending ->
  calculateDesiredIdlePods app occupied idle pending =
    clamp_instances (ScalingPolicy (Spec app)) occupied idle <$>
    watermark_target (ScalingPolicy (Spec app)) idle pending.
Proof.
  intros Hv Hr Ho Hi Hp. unfold calculateDesiredIdlePods, watermark_target, ceil_float, floor_float.
  set (sp := ScalingPolicy (Spec app)) in *. unfold pod_count in *.
  destruct (ScalingPolicyType sp) eqn:Ht; [done| |].
  - destruct (IdleSessionPercentThreshold sp) as [w|] eqn:Hw; [|done]. simpl.
    pose proof (vp_pct_marks sp Hv w Hw) as Hm. pose proof (pg_pct sp Hr) as Hg. rewrite Hw in Hg.
    destruct Hg as [Hl Hh].
    pose proof (percent_bound idle (LowWaterMark w)). pose proof (percent_bound idle (HighWaterMark w)).
    rewrite !float64_of_int_exact by lia.
    replace (idle - (idle - pending - godiv (idle * HighWaterMark w) 100)) with (pending + godiv (idle * HighWaterMark w) 100) by lia.
    by replace (idle + (godiv (idle * LowWaterMark w) 100 - (idle - pending))) with (pending + godiv (idle * LowWaterMark w) 100) by lia.
  - destruct (IdleSessionNumThreshold sp) as [w|] eqn:Hw; [|done]. simpl.
    pose proof (vp_num_marks sp Hv w Hw) as Hm. pose proof (pg_num sp Hr) as Hg. rewrite Hw in Hg.
    destruct Hg as [Hl Hh]. rewrite !float64_of_int_exact by lia.
    replace (idle - (idle - pending - HighWaterMark w)) with (pending + HighWaterMark w) by lia.
    by replace (idle + (LowWaterMark w - (idle - pending))) with (pending + LowWaterMark w) by lia.
Qed.

(** C9: an application whose policy passed validation gets a number of pods for every load: never
    fewer than the minimum, never more than the maximum unless that many are already there (then no
    pod is added), and never a negative number of unoccupied ones. *)
Theorem desired_pods_within_limits app occupied idle pending :
  Application_Validate app = [] -> PolicyRange (ScalingPolicy (Spec app)) ->
  pod_count occupied -> pod_count idle -> pod_count pending ->
  exists d, calculateDesiredIdlePods app occupied idle pending = Some d /\
    0 <= d /\ MinimumInstance (ScalingPolicy (Spec app)) <= occupied + d /\
    (occupied + d <= MaximumInstance (ScalingPolicy (Spec app)) \/ d = idle).
Proof.
  intros [_ Hv]%Application_Validate_sound Hr Ho Hi Hp.
  rewrite calculateDesiredIdlePods_spec by done. set (sp := ScalingPolicy (Spec app)) in *.
  pose proof (vp_min_max sp Hv). pose proof (pg_min sp Hr). pose proof (pg_max sp Hr).
  unfold pod_count in *.
  assert (exists t, watermark_target sp idle pending = Some t /\ 0 <= t) as (t & -> & Ht0).
  { unfold watermark_target. destruct (ScalingPolicyType sp) eqn:Ht; [exists idle; split; [done|lia]| |].
    - destruct (vp_pct sp Hv Ht) as [w Hw]. rewrite Hw. simpl. eexists. split; [done|].
      pose proof (vp_pct_marks sp Hv w Hw). pose proof (pg_pct sp Hr) as Hg. rewrite Hw in Hg.
      destruct Hg. pose proof (percent_bound idle (LowWaterMark w)).
      pose proof (percent_bound idle (HighWaterMark w)). repeat match goal with |- context [?a <? ?b] => destruct (Z.ltb_spec a b) end; lia.
    - destruct (vp_num sp Hv Ht) as [w Hw]. rewrite Hw. simpl. eexists. split; [done|].
      pose proof (pg_num sp Hr) as Hg. rewrite Hw in Hg. destruct Hg. repeat match goal with |- context [?a <? ?b] => destruct (Z.ltb_spec a b) end; lia. }
  eexists. split; [done|]. unfold clamp_instances.
  destruct (Z.leb_spec (t + occupied) (MinimumInstance sp)); [lia|].
  destruct (Z.leb_spec (MaximumInstance sp) (t + occupied)); [|lia].
  destruct (Z.leb_spec (MaximumInstance sp - occupied) 0); lia.
Qed.

(** Under the idle-number policy the unoccupied pods cover every pending session and keep the low
    water mark of spare ones, as far as the maximum allows, and stay under the high water mark of
    spare ones, as far as the minimum allows; at the maximum the count stays as it is. *)
Theorem idle_number_policy_tracks_load app w occupied idle pending :
  let sp := ScalingPolicy (Spec app) in
  Application_Validate app = [] -> PolicyRange sp ->
  ScalingPolicyType sp = ScalingPolicyTypeIdleSessionNum -> IdleSessionNumThreshold sp = Some w ->
  pod_count occupied -> pod_count idle -> pod_count pending ->
  exists d, calculateDesiredIdlePods app occupied idle pending = Some d /\
    Z.min (MaximumInstance sp) (occupied + pending + LowWaterMark w) <= occupied + d /\
    (occupied + d <= Z.max (MinimumInstance sp) (occupied + pending + HighWaterMark w) \/
     MaximumInstance sp <= occupied /\ d = idle).
Proof.
  intros sp [_ Hv]%Application_Validate_sound Hr Ht Hw Ho Hi Hp.
  rewrite calculateDesiredIdlePods_spec by done. fold sp in Hv |- *. unfold watermark_target.
  rewrite Ht, Hw. simpl. eexists. split; [done|]. unfold clamp_instances, pod_count in *.
  pose proof (vp_num_marks sp Hv w Hw). pose proof (vp_min_max sp Hv).
  pose proof (pg_num sp Hr) as Hg. rewrite Hw in Hg. destruct Hg. pose proof (pg_max sp Hr).
  destruct (Z.ltb_spec (HighWaterMark w) (idle - pending));
    [|destruct (Z.ltb_spec (idle - pending) (LowWaterMark w))].
  all: repeat match goal with |- context [?a <=? ?b] => destruct (Z.leb_spec a b) end; lia.
Qed.

(** The percent policy compares the number of idle pods with the percentage itself: with no pending
    session and fewer idle pods than the percentage, the branch that should add pods keeps only
    that percentage of them, so an application below the mark shrinks at every sync. *)
Theorem percent_policy_shrinks app w idle :
  let sp := ScalingPolicy (Spec app) in
  ValidPolicy sp -> PolicyRange sp ->
  ScalingPolicyType sp = ScalingPolicyTypeIdleSessionPercent ->
  IdleSessionPercentThreshold sp = Some w -> MinimumInstance sp = 0 ->
  0 < idle < LowWaterMark w -> LowWaterMark w < 100 -> idle < MaximumInstance sp ->
  exists d, calculateDesiredIdlePods app 0 idle 0 = Some d /\ d < idle.
Proof.
  intros sp Hv Hr Ht Hw Hmin Hi Hl Hmax. unfold pod_count in *.
  assert (pod_count idle) by (unfold pod_count; lia).
  rewrite calculateDesiredIdlePods_spec; [|by unfold pod_count..]. fold sp. unfold watermark_target.
  rewrite Ht, Hw. simpl. eexists. split; [done|]. unfold clamp_instances.
  pose proof (vp_pct_marks sp Hv w Hw). pose proof (pg_pct sp Hr) as Hg. rewrite Hw in Hg.
  assert (godiv (idle * LowWaterMark w) 100 < idle).
  { rewrite Z.quot_div_nonneg by nia. apply Z.div_lt_upper_bound; nia. }
  destruct Hg. pose proof (percent_bound idle (LowWaterMark w)).
  replace (idle - 0) with idle by lia.
  destruct (Z.ltb_spec (HighWaterMark w) idle); [lia|].
  destruct (Z.ltb_spec idle (LowWaterMark w)); [|lia].
  repeat match goal with |- context [?a <=? ?b] => destruct (Z.leb_spec a b) end; lia.
Qed.
End Arithmetic.

(** ** Which pods go *)

Section Pick.
Implicit Types (l acc : list ApplicationPod).

Lemma pick_pods_sub ok l desired acc p :
  p ∈ (pick_pods ok l desired acc).1 -> p ∈ acc \/ p ∈ l.
Proof.
  revert acc. induction l as [|q l IH]; intros acc; simpl; [auto|].
  destruct (ok q); [case_match; simpl|].
  - rewrite elem_of_app, list_elem_of_singleton, elem_of_cons. naive_solver.
  - intros [Hp|Hp]%IH; [|rewrite elem_of_cons; by auto].
    apply elem_of_app in Hp as [Hp|Hp%list_elem_of_singleton]; [by left|subst; right; left].
  - intros [Hp|Hp]%IH; [by left|right; by right].
Qed.

(** A round stops at the quota, and says so. *)
Lemma pick_pods_length ok l desired acc :
  Z.of_nat (List.length acc) < desired ->
  let '(acc', full) := pick_pods ok l desired acc in
  Z.of_nat (List.length acc') <= desired /\ (full = false -> Z.of_nat (List.length acc') < desired).
Proof.
  revert acc. induction l as [|q l IH]; intros acc Hacc; simpl; [split; [lia|done]|].
  destruct (ok q); [|by apply IH]. rewrite length_app. simpl.
  destruct (Z.eqb_spec (Z.of_nat (List.length acc + 1)) desired); [rewrite length_app; simpl; split; [lia|done]|].
  apply IH. rewrite length_app. simpl. lia.
Qed.

Lemma pick_rounds_sub rounds desired acc p :
  p ∈ pick_rounds rounds desired acc -> p ∈ acc \/ exists r, r ∈ rounds /\ p ∈ r.2.
Proof.
  revert acc. induction rounds as [|[ok l] rounds IH]; intros acc; simpl; [auto|].
  destruct (pick_pods ok l desired acc) as [acc' full] eqn:E.
  pose proof (pick_pods_sub ok l desired acc p) as Hsub. rewrite E in Hsub. simpl in Hsub.
  destruct full; [|intros [Hp|(r & Hr & Hp)]%IH].
  - intros [Hp|Hp]%Hsub; [by left|]. right. exists (ok, l). split; [left|done].
  - apply Hsub in Hp as [Hp|Hp]; [by left|]. right. exists (ok, l). split; [left|done].
  - right. exists r. split; [by right|done].
Qed.

Lemma pick_rounds_length rounds desired acc :
  Z.of_nat (List.length acc) < desired -> Z.of_nat (List.length (pick_rounds rounds desired acc)) <= desired.
Proof.
  revert acc. induction rounds as [|[ok l] rounds IH]; intros acc Hacc; simpl; [lia|].
  pose proof (pick_pods_length ok l desired acc Hacc) as Hlen.
  destruct (pick_pods ok l desired acc) as [acc' []]; [lia|]. apply IH. by apply Hlen.
Qed.

(** A round that does not fill the quota leaves no eligible pod out, and forgets none of those picked
    before. *)
Lemma pick_pods_complete ok l desired acc :
  let '(acc', full) := pick_pods ok l desired acc in
  (forall p, p ∈ acc -> p ∈ acc') /\
  (full = true -> Z.of_nat (List.length acc') = desired) /\
  (full = false -> forall p, p ∈ l -> ok p = true -> p ∈ acc').
Proof.
  revert acc. induction l as [|q l IH]; intros acc; simpl.
  { split; [done|]. split; [done|]. intros _ p Hp. by apply elem_of_nil in Hp. }
  destruct (ok q) eqn:Hq; [destruct (Z.eqb_spec (Z.of_nat (List.length (acc ++ [q]))) desired)|].
  - split; [intros p Hp; apply elem_of_app; by left|done].
  - specialize (IH (acc ++ [q])). destruct (pick_pods ok l desired (acc ++ [q])) as [acc' full].
    destruct IH as (Hk & Hf & Hc). split; [intros p Hp; apply Hk, elem_of_app; by left|]. split; [done|].
    intros Hn p [->|Hp]%elem_of_cons Hok; [|by apply Hc].
    apply Hk, elem_of_app. right. by apply list_elem_of_singleton.
  - specialize (IH acc). destruct (pick_pods ok l desired acc) as [acc' full].
    destruct IH as (Hk & Hf & Hc). split; [done|]. split; [done|].
    intros Hn p [->|Hp]%elem_of_cons Hok; [congruence|by apply Hc].
Qed.

Lemma pick_rounds_complete rounds desired acc :
  let res := pick_rounds rounds desired acc in
  (forall p, p ∈ acc -> p ∈ res) /\
  (Z.of_nat (List.length res) < desired ->
   forall r p, r ∈ rounds -> p ∈ r.2 -> r.1 p = true -> p ∈ res).
Proof.
  revert acc. induction rounds as [|[ok l] rounds IH]; intros acc; simpl.
  { split; [done|]. intros _ r p Hr. by apply elem_of_nil in Hr. }
  pose proof (pick_pods_complete ok l desired acc) as Hc.
  destruct (pick_pods ok l desired acc) as [acc' []]; destruct Hc as (Hk & Hf & Hc).
  - split; [done|]. rewrite Hf by done. lia.
  - destruct (IH acc') as [Hk' Hc']. split; [by auto|].
    intros Hlen r p [->|Hr]%elem_of_cons Hp Hok; [by apply Hk', Hc|by eapply Hc'].
Qed.
End Pick.

Section Deploy.
Context {GR : GoRange} {GS : GoSort} {CG : ClientGo} {QL : QuantityLib} {W : Type}
  {CO : Collaborators W}.
Abbreviation AM := (ApplicationManager W).
Implicit Types am : AM.

(** The pool of [key] in [am] represents the pods [M] and the sessions [N]. *)
Definition pool_at am (key : string) (M : gmap string ApplicationPod) (N : gmap string PoolSession) : Prop :=
  pool_repr (the_pool am key) M N.

Lemma getPodsToBeDelete_state am key M N n p :
  pool_at am key M N -> p ∈ getPodsToBeDelete am (the_pool am key) n ->
  M !! podName p = Some p /\ (pod_state p = PodStatePending \/ pod_state p = PodStateIdle).
Proof.
  intros [HB _ Hn] Hp. unfold getPodsToBeDelete in Hp.
  apply pick_rounds_sub in Hp as [Hp|(r & Hr & Hp)]; [by apply elem_of_nil in Hp|].
  assert (exists st, (st = PodStatePending \/ st = PodStateIdle) /\
    p ∈ podListOfState (the_pool am key) st) as (st & Hst & Hin).
  { repeat (apply elem_of_cons in Hr as [->|Hr]; [by eauto|]). by apply elem_of_nil in Hr. }
  unfold podListOfState in Hin. apply list_elem_of_fmap in Hin as ([k q] & -> & Hk%elem_of_range).
  apply (lookup_bucket pod_state _ M) in Hk as [Hk Hq]; [|done]. simpl.
  rewrite (Hn k q Hk), Hq. done.
Qed.

Lemma getPodsToBeDelete_length am pool n :
  0 < n -> Z.of_nat (List.length (getPodsToBeDelete am pool n)) <= n.
Proof. intros Hn. by apply pick_rounds_length. Qed.

Lemma the_pool_on_pool am key f : the_pool (on_pool key f am).2 key = f (the_pool am key).
Proof. unfold the_pool at 1. simpl. by rewrite lookup_insert_eq. Qed.

Lemma the_pool_call {A} am key (c : SM W A) : the_pool (call c am).2 key = the_pool am key.
Proof. unfold call. by destruct (c (world am)). Qed.

(** The pods a scale-down may take: the pending ones, and the idle ones that the pod manager does not
    know, or knows as running or as lost. *)
Definition may_be_given_up am (p : ApplicationPod) : Prop :=
  pod_state p = PodStatePending \/
  pod_state p = PodStateIdle /\
    match FindPod (world am) (podName p) with
    | None => True
    | Some pod => Phase (Status pod) = PodUnknown \/ Phase (Status pod) = PodRunning
    end.

(** When fewer pods are picked than were asked for, no other pod could be given up. *)
Lemma getPodsToBeDelete_complete am key M N n m p :
  pool_at am key M N -> Z.of_nat (List.length (getPodsToBeDelete am (the_pool am key) n)) < n ->
  M !! m = Some p -> may_be_given_up am p ->
  m ∈ podName <$> getPodsToBeDelete am (the_pool am key) n.
Proof.
  intros [HB _ Hn] Hlen Hm Hmay. rewrite <- (Hn m p Hm). apply list_elem_of_fmap_2.
  assert (forall st, pod_state p = st -> p ∈ podListOfState (the_pool am key) st) as Hin.
  { intros st Hst. unfold podListOfState. apply list_elem_of_fmap. exists (m, p). split; [done|].
    apply elem_of_range. by apply (lookup_bucket pod_state _ M). }
  unfold getPodsToBeDelete in *. cbv zeta in *.
  match goal with |- p ∈ pick_rounds ?rounds _ _ =>
    pose proof (proj2 (pick_rounds_complete rounds n []) Hlen) as Hc end.
  destruct Hmay as [Hst|[Hst Hph]].
  - eapply (Hc (_, _)); [do 2 right; left|by apply Hin|]. simpl. by destruct (FindPod _ _).
  - destruct (FindPod (world am) (podName p)) as [pod|] eqn:Hf.
    + destruct Hph as [Hph|Hph].
      * eapply (Hc (_, _)); [do 3 right; left|by apply Hin|]. simpl. rewrite Hf. by apply bool_decide_eq_true.
      * eapply (Hc (_, _)); [do 4 right; left|by apply Hin|]. simpl. rewrite Hf. by apply bool_decide_eq_true.
    + eapply (Hc (_, _)); [do 3 right; left|by apply Hin|]. simpl. by rewrite Hf.
Qed.

(** A pod that was given up is gone from the pool, or marked as being deleted. *)
Definition given_up (p : option ApplicationPod) : Prop :=
  match p with None => True | Some q => pod_state q = PodStateDeleting end.

Definition deleted_at (am' : AM) (key n : string) (M : gmap string ApplicationPod) (N : gmap string PoolSession) : Prop :=
  exists M', pool_at am' key M' N /\ (forall m, m <> n -> M' !! m = M !! m) /\ given_up (M' !! n).

Lemma request_termination_effect am key n M N :
  pool_at am key M N -> deleted_at (request_termination key n am).2 key n M N.
Proof.
  intros Hat. unfold request_termination. sm_simpl.
  pose proof (addOrUpdatePod_repr _ M N n PodStateDeleting [] Hat) as Hr.
  set (mark := fun pool => (addOrUpdatePod pool n PodStateDeleting []).2).
  set (am2 := (on_pool key mark am).2). change (on_pool key mark am) with (Ok (), am2).
  cbv iota. rewrite sm_bind_eq. unfold sm_try. destruct (call (TerminatePod n) am2) as [r am3] eqn:Hc.
  set (M2 := put_pod n PodStateDeleting [] M).
  assert (pool_at am3 key M2 N) as Hat3.
  { unfold pool_at. pose proof (the_pool_call am2 key (TerminatePod n)) as Heq. rewrite Hc in Heq.
    simpl in Heq. rewrite Heq. subst am2. rewrite the_pool_on_pool.
    destruct (M !! n) as [p|]; [|done]. by destruct (pod_state p). }
  assert (forall m, m <> n -> M2 !! m = M !! m) as Hne.
  { intros m Hm. subst M2. unfold put_pod. by rewrite lookup_insert_ne. }
  assert (given_up (M2 !! n)) as Hn.
  { subst M2. unfold put_pod. by rewrite lookup_insert_eq. }
  destruct r as [[]|e]; simpl; [by exists M2|]. case_decide; simpl; [|by exists M2].
  exists (delete n M2). split; [|split].
  - unfold pool_at. change (set_pools _ am3) with (on_pool key (fun pool => deletePod pool n) am3).2.
    rewrite the_pool_on_pool. by apply deletePod_repr.
  - intros m Hm. rewrite lookup_delete_ne by done. by apply Hne.
  - by rewrite lookup_delete_eq.
Qed.

Lemma deleteApplicationPod_effect am now key n M N :
  pool_at am key M N -> deleted_at (deleteApplicationPod now key n am).2 key n M N.
Proof.
  intros Hat. unfold deleteApplicationPod. sm_simpl. rewrite (getPod_repr _ _ _ _ Hat).
  destruct (M !! n) as [p|] eqn:Hp; [|exists M; by rewrite Hp].
  case_decide as Hst; [|by apply request_termination_effect].
  assert (deleted_at am key n M N) as Hret by (exists M; by rewrite Hp).
  destruct (FindPod (world am) n) as [pod|]; [|done].
  destruct (DeletionTimestamp pod) as [t|]; [|done].
  destruct (t <? _); [|done]. rewrite sm_bind_eq, sm_modify_eq. by apply request_termination_effect.
Qed.

(** The loop gives up the pods of the list up to and with the first failed request, and no others. *)
Lemma delete_pods_effect now key l am M N :
  pool_at am key M N ->
  exists M' taken left, l = taken ++ left /\ pool_at (delete_pods now key l am).2 key M' N /\
    (forall m, m ∉ podName <$> taken -> M' !! m = M !! m) /\
    (forall m, m ∈ podName <$> taken -> given_up (M' !! m)) /\
    match (delete_pods now key l am).1 with Ok _ => left = [] | Err _ => taken <> [] end.
Proof.
  revert am M. induction l as [|ap l IH]; intros am M Hat.
  { exists M, [], []. split; [done|]. split; [done|]. split; [done|]. split; [|done].
    intros m Hm. by apply elem_of_nil in Hm. }
  simpl. rewrite sm_bind_eq. unfold sm_try.
  destruct (deleteApplicationPod_effect am now key (podName ap) M N Hat) as (M1 & Hat1 & Hne & Hd).
  destruct (deleteApplicationPod now key (podName ap) am) as [r am1]. simpl in Hat1.
  destruct r as [[]|e].
  - destruct (IH am1 M1 Hat1) as (M2 & taken & left & -> & Hat2 & Hne2 & Hd2 & Hres).
    exists M2, (ap :: taken), left. split; [done|]. split; [done|]. csimpl. split; [|split].
    + intros m [Hm1 Hm2]%not_elem_of_cons. by rewrite Hne2, Hne.
    + intros m Hm. destruct (decide (m ∈ podName <$> taken)) as [Ht|Ht]; [by apply Hd2|].
      apply elem_of_cons in Hm as [->|Hm]; [|done]. by rewrite Hne2.
    + by destruct (delete_pods now key (taken ++ left) am1) as [[] ?].
  - exists M1, [ap], l. split; [done|]. split; [done|]. csimpl. split; [|split; [|done]].
    + intros m [Hm _]%not_elem_of_cons. by apply Hne.
    + by intros m ->%list_elem_of_singleton.
Qed.


Lemma create_pods_effect now key application standby seeds am M N :
  pool_at am key M N ->
  exists M', pool_at (create_pods now key application standby seeds am).2 key M' N /\
    M ⊆ M' /\ (size M' <= size M + List.length seeds)%nat /\
    (forall m p, M' !! m = Some p -> M !! m = None -> pod_state p = PodStatePending).
Proof.
  revert am M. induction seeds as [|seed seeds IH]; intros am M Hat.
  { exists M. split; [done|]. split; [done|]. split; [simpl; lia|]. naive_solver. }
  simpl. rewrite sm_bind_eq. unfold sm_try, createApplicationPod.
  match goal with |- context [call ?c am] => pose proof (the_pool_call am key c) as Hp;
    destruct (call c am) as [r am1] end.
  simpl in Hp. assert (pool_at am1 key M N) as Hat1 by (unfold pool_at; by rewrite Hp).
  destruct r as [pod|e].
  - rewrite sm_bind_eq.
    pose proof (addOrUpdatePod_repr _ M N (Name pod) PodStatePending [] Hat1) as Hr.
    match type of Hr with pool_repr _ ?m _ => set (M1 := m) in Hr end.
    set (add := fun pool => (addOrUpdatePod pool (Name pod) PodStatePending []).2) in *.
    set (am2 := (on_pool key add am1).2). change (on_pool key add am1) with (Ok (), am2). cbv iota.
    assert (pool_at am2 key M1 N) as Hat2 by (unfold pool_at, am2; by rewrite the_pool_on_pool).
    destruct (IH am2 M1 Hat2) as (M' & Hat' & Hsub & Hsz & Hnew).
    assert (M1 = M \/ M !! Name pod = None /\ M1 = put_pod (Name pod) PodStatePending [] M) as HM1.
    { subst M1. destruct (M !! Name pod) as [p|] eqn:Hpod; [|by right]. left.
      destruct (may_move (pod_state p) PodStatePending) eqn:Hm; [|done].
      unfold put_pod, sessions_of. rewrite Hpod. apply insert_id. rewrite Hpod. f_equal.
      destruct p as [pn [] ps]; try done. simpl. rewrite (left_id_L ∅ (∪)).
      by rewrite <- (pr_names _ _ _ Hat _ _ Hpod). }
    exists M'. split; [done|]. destruct HM1 as [HM1|[Hnone HM1]]; rewrite HM1 in *.
    + split; [done|]. split; [lia|done].
    + assert (M ⊆ put_pod (Name pod) PodStatePending [] M) by (by apply insert_subseteq).
      split; [by etrans|]. unfold put_pod in Hsz, Hnew. rewrite map_size_insert_None in Hsz by done.
      split; [lia|]. intros m p Hm HMm. destruct (decide (m = Name pod)) as [->|Hmn].
      * assert (M' !! Name pod = Some (mkApplicationPod (Name pod) PodStatePending
          (list_to_set [] ∪ sessions_of M (Name pod)))) as Hm'.
        { eapply lookup_weaken; [|exact Hsub]. unfold put_pod. apply lookup_insert_eq. }
        simplify_eq. done.
      * apply (Hnew m p Hm). by rewrite lookup_insert_ne.
  - case_decide; [exists M; split; [done|]; split; [done|]; split; [simpl; lia|naive_solver]|].
    rewrite sm_bind_eq. destruct (IH am1 M Hat1) as (M' & Hat' & Hsub & Hsz & Hnew). exists M'.
    destruct (create_pods now key application standby seeds am1) as [[] ?]; simpl in *;
      (split; [done|]; split; [done|]; split; [lia|done]).
Qed.

(** Scaling up adds pending pods only, at most the shortage and at most the burst of the
    application, and leaves every pod that was there exactly as it was. *)
Theorem scale_up_bounded am now seeds key application n M N :
  pool_at am key M N -> 0 < n ->
  exists M', pool_at (deployApplicationPods now seeds key application n am).2 key M' N /\
    (forall m p, M !! m = Some p -> M' !! m = Some p) /\
    (forall m p, M' !! m = Some p -> M !! m = None -> pod_state p = PodStatePending) /\
    Z.of_nat (size M') <= Z.of_nat (size M) + Z.max 0 (Z.min n (ApplicationScalingBurst application)).
Proof.
  intros Hat Hn. unfold deployApplicationPods. destruct (Z.ltb_spec 0 n); [|lia]. sm_simpl.
  match goal with |- context [create_pods ?a ?b ?c ?d ?e am] =>
    destruct (create_pods_effect a b c d e am M N Hat) as (M' & Hat' & Hsub & Hsz & Hnew);
    destruct (create_pods a b c d e am) as [r am'] end.
  rewrite length_fmap, length_seq in Hsz. simpl in Hat'. exists M'.
  split; [by destruct r as [[[]|]|]|]. split; [|split; [done|lia]].
  intros m p Hm. by eapply lookup_weaken.
Qed.
End Deploy.

(** ** Concrete inputs *)

Lemma example_policy_range : PolicyRange example_policy.
Proof. split; simpl; lia. Qed.

Lemma desired_pods_within_limits_witness :
  exists d, calculateDesiredIdlePods (example_app example_policy) 4 2 3 = Some d /\
    (4 + d <= 10 \/ d = 2).
Proof.
  destruct (desired_pods_within_limits (example_app example_policy) 4 2 3) as (d & Hd & _ & _ & Hmax);
    [reflexivity|exact example_policy_range|unfold pod_count; lia..|].
  exists d. split; [exact Hd|exact Hmax].
Defined.

Lemma idle_number_policy_tracks_load_witness :
  exists d, calculateDesiredIdlePods (example_app example_policy) 4 2 3 = Some d /\
    Z.min 10 (4 + 3 + 1) <= 4 + d.
Proof.
  destruct (idle_number_policy_tracks_load (example_app example_policy) (mkWaterMarks 3 1) 4 2 3)
    as (d & Hd & Hlow & _);
    [reflexivity|exact example_policy_range|reflexivity|reflexivity|unfold pod_count; lia..|].
  exists d. split; [exact Hd|exact Hlow].
Defined.

Definition percent_policy : ScalingPolicyR :=
  mkScalingPolicy 0 100 10 ScalingPolicyTypeIdleSessionPercent None (Some (mkWaterMarks 80 50)).

Lemma percent_policy_valid : ValidPolicy percent_policy.
Proof. apply (Application_Validate_sound (example_app percent_policy)). reflexivity. Qed.

Lemma percent_policy_shrinks_witness :
  exists d, calculateDesiredIdlePods (example_app percent_policy) 0 10 0 = Some d /\ d < 10.
Proof.
  apply (percent_policy_shrinks (example_app percent_policy) (mkWaterMarks 80 50) 10);
    [exact percent_policy_valid|split; simpl; lia|reflexivity|reflexivity|reflexivity|simpl; lia..].
Defined.

Definition example_seeds (i : nat) : PodSeed := mkPodSeed "uid" "r" (Z.of_nat i).


Lemma scale_up_bounded_witness :
  exists M', pool_at (deployApplicationPods 5 example_seeds "ns/app" (example_app example_policy) 7
      example_am).2 "ns/app" M' example_am_sessions /\ Z.of_nat (size M') <= 3.
Proof.
  destruct (scale_up_bounded example_am 5 example_seeds "ns/app" (example_app example_policy) 7
    example_am_pods example_am_sessions example_am_repr) as (M' & Hat & _ & _ & Hsz); [lia|].
  exists M'. split; [exact Hat|exact Hsz].
Defined.

(** A single pending pod is picked again by each of the three loops over pending pods, so it fills
    the quota and no idle pod is given up: asking for three deletions deletes one pod. *)
Theorem pending_pod_picked_repeatedly :
  let w := mkExampleWorld {[ "ns/p9" := example_pod "p9" [] ]} ∅ [] [] in
  let pool := (addOrUpdatePod (the_pool example_am "ns/app") "ns/p8" PodStatePending []).2 in
  podName <$> getPodsToBeDelete (set_world w example_am) pool 3 = ["ns/p8"; "ns/p8"; "ns/p8"]%string.
Proof. vm_compute. reflexivity. Qed.
