(* ===== verification/AppSync.v ===== *)
(** * Syncing an application: serving sessions, cleaning up, reporting

    What one run of a worker achieves: pending sessions are served in the order they were created,
    one per idle pod; an application under deletion loses its sessions before its pods and its pool
    last; a failed sync is always queued again; the reported status counts the pool. *)

From S2P Require Import Prelude GoStrings ApiTypes Interfaces AppPool AppManager AppInvariant AppScaling.
From Stdlib Require Import String.
#[local] Open Scope Z_scope.

Section Sync.
Context {GR : GoRange} {GS : GoSort} {CG : ClientGo} {QL : QuantityLib} {W : Type}
  {CO : Collaborators W}.
Abbreviation AM := (ApplicationManager W).
Implicit Types am : AM.

(** ** Sessions are served in order *)

(** The object of a session while [pod] is asked to open it, and after. *)
Definition starting_session (pod : Pod) (session : ApplicationSession) : ApplicationSession :=
  set_Status
    (set_PodReference (Some (Name pod))
      (set_AccessEndPoints (bind_endpoints pod (AccessEndPoints (Status session)))
        (set_SessionStatus SessionStatusStarting (Status session)))) session.
Definition bound_session (now : Z) (pod : Pod) (session : ApplicationSession) : ApplicationSession :=
  map_om (om_set_CreationTimestamp now) (starting_session pod session).

Lemma bindSessionToPod_Ok am now key pod ptr session M N w' :
  session_heap am !! ptr = Some session -> pool_at am key M N ->
  OpenSession pod (starting_session pod session) (world am) = (Ok (), w') ->
  exists am' N', bindSessionToPod now key pod ptr am = (Ok (), am') /\ world am' = w' /\
    session_heap am' = <[ptr := bound_session now pod session]> (session_heap am) /\
    pool_at am' key (put_pod (Name pod) PodStateAllocated [UID session] M) N'.
Proof.
  intros Hs Hat Hopen. unfold bindSessionToPod, load. sm_simpl. rewrite Hs. cbv iota zeta.
  change (set_Status _ session) with (starting_session pod session).
  set (bound := starting_session pod session) in *. set (am1 := set_heap (<[ptr := bound]> (session_heap am)) am).
  rewrite sm_bind_eq. unfold store_session at 1. rewrite sm_modify_eq. cbv iota. fold am1. rewrite sm_bind_eq. unfold sm_try, call.
  change (world am1) with (world am). rewrite Hopen. cbv iota zeta.
  unfold update_session_pool. rewrite sm_modify_eq. unfold updateSessionPool.
  cbn [session_heap set_world am1 set_heap]. rewrite lookup_insert_eq.
  change (SessionInTerminalState bound) with false. cbv iota zeta.
  change (the_pool (set_world w' am1) key) with (the_pool am key).
  pose proof (addSession_repr _ M N (UID bound) ptr (map_om (om_set_CreationTimestamp now) bound) Hat) as Hr.
  assert (exists st, session_pool_state (map_om (om_set_CreationTimestamp now) bound) = Some st) as [st Hst].
  { rewrite session_pool_state_filed. unfold filed_under. simpl. destruct (DeletionTimestamp _); eauto. }
  rewrite Hst in Hr. eexists _, _. split; [done|]. cbn [world session_heap set_heap set_pools set_world].
  split; [done|]. split; [by rewrite insert_insert_eq|].
  unfold pool_at, the_pool. cbn [applicationPools set_heap set_pools].
  rewrite lookup_insert_eq. exact Hr.
Qed.

(** A run in which the pods are there and the node agents take the sessions. *)
Section Served.
Context (good : W -> Prop) (live : string -> Prop) (now : Z) (key : string).
Hypothesis good_find : forall w n, good w -> live n -> exists pod, FindPod w n = Some pod /\ Name pod = n.
Hypothesis good_open : forall w pod s, good w -> live (Name pod) ->
  exists w', OpenSession pod s w = (Ok (), w') /\ good w'.

Lemma assign_step am ap session ptr M N :
  good (world am) -> live (podName ap) -> session_heap am !! ptr = Some session -> pool_at am key M N ->
  exists pod am1 N1, FindPod (world am) (podName ap) = Some pod /\ Name pod = podName ap /\
    bindSessionToPod now key pod ptr am = (Ok (), am1) /\
    session_heap am1 !! ptr = Some (bound_session now pod session) /\
    let am2 := (on_pool key (fun pool => (addOrUpdatePod pool (podName ap) PodStateAllocated [UID session]).2) am1).2 in
    good (world am2) /\
    session_heap am2 = <[ptr := bound_session now pod session]> (session_heap am) /\
    pool_at am2 key (put_pod (podName ap) PodStateAllocated [UID session]
      (put_pod (podName ap) PodStateAllocated [UID session] M)) N1.
Proof.
  intros Hg Hl Hs Hat. destruct (good_find _ _ Hg Hl) as (pod & Hf & Hn).
  destruct (good_open (world am) pod (starting_session pod session) Hg) as (w' & Ho & Hg');
    [by rewrite Hn|].
  destruct (bindSessionToPod_Ok am now key pod ptr session M N w' Hs Hat Ho)
    as (am1 & N1 & Hb & Hw & Hh & Hat1).
  exists pod, am1, N1. rewrite Hn in Hat1.
  split; [done|]. split; [done|]. split; [done|]. split; [by rewrite Hh, lookup_insert_eq|].
  split; [simpl; by rewrite Hw|]. split; [done|]. unfold pool_at. rewrite the_pool_on_pool.
  pose proof (addOrUpdatePod_repr _ _ _ (podName ap) PodStateAllocated [UID session] Hat1) as Hr.
  unfold put_pod at 1 in Hr. rewrite lookup_insert_eq in Hr. exact Hr.
Qed.

Lemma assign_sessions_served idle pending am M N :
  good (world am) -> pool_at am key M N ->
  Forall (fun ap => live (podName ap)) idle -> NoDup (podName <$> idle) ->
  Forall (fun s => is_Some (session_heap am !! ps_session s)) pending -> NoDup (ps_session <$> pending) ->
  exists am' M' N', assign_sessions now key idle pending am = (Ok [], am') /\ pool_at am' key M' N' /\
    (forall k s ap session, pending !! k = Some s -> idle !! k = Some ap ->
       session_heap am !! ps_session s = Some session ->
       exists pod p, Name pod = podName ap /\
         session_heap am' !! ps_session s = Some (bound_session now pod session) /\
         M' !! podName ap = Some p /\ pod_state p = PodStateAllocated /\ UID session ∈ pod_sessions p) /\
    (forall ptr, ptr ∉ take (List.length idle) (ps_session <$> pending) ->
       session_heap am' !! ptr = session_heap am !! ptr) /\
    (forall n, n ∉ podName <$> idle -> M' !! n = M !! n).
Proof.
  revert pending am M N. induction idle as [|ap idle IH]; intros pending am M N Hg Hat Hi Hnd Hp Hndp.
  { exists am, M, N. split; [by destruct pending|]. split; [done|]. split; [done|]. by split. }
  destruct pending as [|s pending].
  { exists am, M, N. split; [done|]. split; [done|]. split; [done|]. by split. }
  apply Forall_cons in Hi as [Hl Hi], Hp as [[session Hs] Hp].
  csimpl in *. apply NoDup_cons in Hnd as [Hna Hnd], Hndp as [Hns Hndp].
  destruct (assign_step am ap session (ps_session s) M N Hg Hl Hs Hat)
    as (pod & am1 & N1 & Hf & Hn & Hb & Hs1 & Hg2 & Hh2 & Hat2).
  set (am2 := (on_pool key _ am1).2) in *.
  destruct (IH pending am2 _ N1 Hg2 Hat2 Hi Hnd) as (am' & M' & N' & Ha & Hat' & Hbound & Hrest & Hpods).
  { rewrite Hh2. eapply Forall_impl; [exact Hp|]. intros x [y Hy]. rewrite lookup_insert.
    case_decide; by eexists. }
  { done. }
  exists am', M', N'. split; [|split; [done|split; [|split]]].
  - simpl. rewrite sm_bind_eq, sm_get_eq, Hf. cbv iota beta. rewrite sm_bind_eq. unfold sm_try.
    rewrite Hb. cbv iota beta. rewrite sm_bind_eq. unfold load. rewrite Hs1. cbv iota beta.
    rewrite sm_bind_eq. change (UID (bound_session now pod session)) with (UID session).
    rewrite (surjective_pairing (on_pool _ _ am1)). exact Ha.
  - intros [|k] s' ap' session' Hk1 Hk2 Hs'; simpl in Hk1, Hk2.
    + simplify_eq. exists pod, (mkApplicationPod (podName ap') PodStateAllocated
        (list_to_set [UID session] ∪ sessions_of (put_pod (podName ap') PodStateAllocated [UID session] M)
           (podName ap'))).
      split; [done|]. split; [|split; [|split; [done|set_solver]]].
      * rewrite Hrest, Hh2, lookup_insert_eq; [done|]. intros Hin. apply Hns.
        by eapply subseteq_take, Hin.
      * rewrite Hpods by done. unfold put_pod at 1. by rewrite lookup_insert_eq.
    + apply (Hbound k); [done|done|]. rewrite Hh2, lookup_insert_ne; [done|].
      intros Heq. apply Hns. apply list_elem_of_lookup. exists k. by rewrite list_lookup_fmap, Hk1, Heq.
  - intros ptr Hptr. apply not_elem_of_cons in Hptr as [Hne Hptr]. rewrite Hrest by done.
    by rewrite Hh2, lookup_insert_ne.
  - intros n Hni. apply not_elem_of_cons in Hni as [Hne Hni]. rewrite Hpods by done.
    unfold put_pod. by rewrite !lookup_insert_ne.
Qed.

(** The pending sessions of a pool are different objects. *)
Lemma pending_pointers am pend M N :
  am_inv am -> pool_at am key M N ->
  getNonRunningSessions (the_pool am key) (session_heap am) now = (pend, [], []) ->
  NoDup (ps_session <$> pend) /\ Forall (fun s => is_Some (session_heap am !! ps_session s)) pend.
Proof.
  intros Hi _ Hnr. destruct (the_pool_ok am key Hi) as [_ (M0 & N0 & [_ HS _] & HN)].
  injection Hnr as Hpend _ _.
  set (R := fun st => range (sessions_in (the_pool am key) st)).
  assert (forall st x, x ∈ R st -> N0 !! x.1 = Some x.2 /\ ps_state x.2 = st) as HR.
  { intros st [id s] Hx%elem_of_range. by apply (lookup_bucket ps_state _ N0) in Hx. }
  set (L := R SessionStatePending ++ R SessionStateStarting).
  assert (forall x, x ∈ L -> N0 !! x.1 = Some x.2) as HL.
  { intros x [Hx|Hx]%elem_of_app; by apply HR in Hx as [? _]. }
  assert (NoDup (ps_session <$> L.*2)) as HndL.
  { rewrite <- list_fmap_compose. apply NoDup_fmap_2_strong.
    - intros [i1 s1] [i2 s2] H1%HL H2%HL Heq. simpl in *.
      destruct (HN _ _ H1) as (x1 & E1 & <- & _), (HN _ _ H2) as (x2 & E2 & <- & _).
      rewrite Heq in E1. by simplify_eq.
    - apply NoDup_app. split; [apply NoDup_range|]. split; [|apply NoDup_range].
      intros x [_ H1]%HR [_ H2]%HR. congruence. }
  assert (pend `sublist_of` L.*2) as Hsub.
  { rewrite <- Hpend. subst L. rewrite fmap_app. apply sublist_app; apply sublist_filter. }
  split; [eapply sublist_NoDup; [exact HndL|by apply sublist_fmap]|].
  apply Forall_forall. intros s Hs. apply (elem_of_sublist _ _ _) with (2 := Hsub) in Hs.
  apply list_elem_of_fmap in Hs as ([id s'] & -> & Hx). destruct (HN _ _ (HL _ Hx)) as (x & Hx' & _).
  by exists x.
Qed.

(** The pods offered to the sessions: different ones, all idle, as many as asked for if possible. *)
Lemma getSomeIdlePods_spec am M N n :
  pool_at am key M N ->
  let idle := getSomeIdlePods (the_pool am key) n in
  NoDup (podName <$> idle) /\
  (forall ap, ap ∈ idle -> M !! podName ap = Some ap /\ pod_state ap = PodStateIdle) /\
  List.length idle = Nat.min n (size (pods_in (the_pool am key) PodStateIdle)).
Proof.
  intros Hat idle. set (R := range (pods_in (the_pool am key) PodStateIdle)).
  assert (forall x, x ∈ R -> M !! x.1 = Some x.2 /\ pod_state x.2 = PodStateIdle /\ podName x.2 = x.1) as HR.
  { intros [m p] Hx%elem_of_range. destruct Hat as [HB _ Hn].
    apply (lookup_bucket pod_state _ M) in Hx as [Hx Hst]; [|done]. by auto. }
  assert (idle `sublist_of` R.*2) as Hsub by apply sublist_take.
  assert (podName <$> R.*2 = R.*1) as HR1.
  { rewrite <- list_fmap_compose. apply list_fmap_ext. intros k x Hx. apply list_elem_of_lookup_2 in Hx.
    by apply HR. }
  split; [|split].
  - eapply sublist_NoDup; [apply (NoDup_range_keys (pods_in (the_pool am key) PodStateIdle))|].
    fold R. rewrite <- HR1. by apply sublist_fmap.
  - intros ap Hap0. pose proof (elem_of_sublist _ _ _ Hap0 Hsub) as Hap.
    apply list_elem_of_fmap in Hap as (x & -> & Hx). destruct (HR x Hx) as (? & ? & ->). done.
  - unfold idle, getSomeIdlePods. by rewrite length_take, length_fmap, length_range.
Qed.

(** C7: sessions are served in the order they were created.  When nothing is timed out or deleting and
    the pods and their nodes answer, one sync gives the oldest pending sessions to the idle pods,
    one session each, as many as there are of both: each served session is starting and refers to
    its pod, each such pod is allocated to it, the younger sessions wait untouched, and pods that
    were not idle keep their state and their sessions. *)
Theorem pending_sessions_first_come_first_served am M N pend :
  am_inv am -> good (world am) -> pool_at am key M N ->
  getNonRunningSessions (the_pool am key) (session_heap am) now = (pend, [], []) ->
  (forall n p, M !! n = Some p -> pod_state p = PodStateIdle -> live n) ->
  let idle := getSomeIdlePods (the_pool am key) (List.length pend) in
  let queue := gosort (PendingSessions_Less (session_heap am)) pend in
  exists am' M' N', deployApplicationSessions now key am = (Ok (), am') /\ pool_at am' key M' N' /\
    List.length idle = Nat.min (List.length pend) (size (pods_in (the_pool am key) PodStateIdle)) /\
    (forall i j s1 s2, (i < j)%nat -> queue !! i = Some s1 -> queue !! j = Some s2 ->
       creation_of (session_heap am) s1 <= creation_of (session_heap am) s2) /\
    (forall k s ap session, queue !! k = Some s -> idle !! k = Some ap ->
       session_heap am !! ps_session s = Some session ->
       exists pod p, Name pod = podName ap /\
         session_heap am' !! ps_session s = Some (bound_session now pod session) /\
         M' !! podName ap = Some p /\ pod_state p = PodStateAllocated /\ UID session ∈ pod_sessions p) /\
    (forall k s, queue !! k = Some s -> (List.length idle <= k)%nat ->
       session_heap am' !! ps_session s = session_heap am !! ps_session s) /\
    (forall n p, M !! n = Some p -> pod_state p <> PodStateIdle -> M' !! n = Some p).
Proof.
  intros Hi Hg Hat Hnr Hlive idle queue.
  destruct (pending_pointers am pend M N Hi Hat Hnr) as [Hnd Hval].
  assert (queue ≡ₚ pend) as Hq by apply gosort_perm.
  assert (NoDup (ps_session <$> queue)) as Hndq by (by rewrite Hq).
  destruct (getSomeIdlePods_spec am M N (List.length pend) Hat) as (Hndi & Hidle & Hlen).
  fold idle in Hndi, Hidle, Hlen.
  destruct (assign_sessions_served idle queue am M N Hg Hat)
    as (am' & M' & N' & Ha & Hat' & Hbound & Hrest & Hpods).
  { apply Forall_forall. intros ap [? ?]%Hidle. eauto. }
  { done. }
  { by rewrite Hq. }
  { done. }
  exists am', M', N'. split; [|split; [done|split; [|split; [|split; [done|split]]]]].
  - unfold deployApplicationSessions. sm_simpl. rewrite Hnr. cbv iota zeta. fold idle queue.
    rewrite sm_bind_eq, Ha. by sm_simpl.
  - done.
  - intros i j s1 s2 Hij H1 H2.
    assert (le_of (PendingSessions_Less (session_heap am)) s1 s2) as Hle.
    { eapply StronglySorted_lookup; [|exact Hij|exact H1|exact H2]. apply Sorted_StronglySorted.
      - intros x y z. unfold le_of, PendingSessions_Less. rewrite !Z.ltb_ge. lia.
      - apply gosort_sorted, strict_weak_rank. }
    unfold le_of, PendingSessions_Less in Hle. by apply Z.ltb_ge in Hle.
  - intros k s Hk Hle. apply Hrest. intros (k' & Hk')%list_elem_of_lookup.
    apply lookup_take_Some in Hk' as [Hk' Hlt].
    assert ((ps_session <$> queue) !! k = Some (ps_session s)) as Hk2 by (by rewrite list_lookup_fmap, Hk).
    pose proof (NoDup_lookup _ _ _ _ Hndq Hk' Hk2). lia.
  - intros n p Hn Hst. rewrite Hpods; [done|]. intros (ap & -> & Hap)%list_elem_of_fmap.
    destruct (Hidle ap Hap) as [Hm Hi']. by simplify_eq.
Qed.
End Served.

(** ** Deleting an application *)

(** The pods stay, except that an allocated one may become idle. *)
Definition only_freed (M M' : gmap string ApplicationPod) : Prop :=
  forall n, match M !! n, M' !! n with
            | None, None => True
            | Some p, Some p' => pod_sessions p' ⊆ pod_sessions p /\
                (pod_state p' = pod_state p \/ pod_state p = PodStateAllocated /\ pod_state p' = PodStateIdle)
            | _, _ => False
            end.

#[local] Instance only_freed_preorder : PreOrder only_freed.
Proof.
  split.
  - intros M n. destruct (M !! n); [|done]. split; [done|by left].
  - intros M1 M2 M3 H12 H23 n. specialize (H12 n). specialize (H23 n).
    destruct (M1 !! n), (M2 !! n), (M3 !! n); try done.
    destruct H12 as [S12 D12], H23 as [S23 D23]. split; [by etrans|].
    destruct D12 as [E12|[E12 E12']], D23 as [E23|[E23 E23']]; rewrite ?E12, ?E12', ?E23, ?E23' in *;
      try (by left); try (by right); try (right; split; congruence).
Qed.

Lemma release_only_freed session M : only_freed M (release session M).
Proof.
  intros n. unfold release. destruct (PodReference (Status session)) as [m|].
  - rewrite lookup_alter. case_decide; [subst|].
    + destruct (M !! n) as [p|]; [|done]. unfold release_pod. simpl. split; [set_solver|].
      case_decide as Hd; [right; by destruct Hd|by left].
    + destruct (M !! n); [|done]. split; [done|by left].
  - destruct (M !! n); [|done]. split; [done|by left].
Qed.

Lemma pool_repr_sessions_unique pool M M0 N N0 :
  pool_repr pool M N -> pool_repr pool M0 N0 -> N = N0.
Proof.
  intros [_ H _] [_ H0 _]. apply map_eq. intros id. apply option_eq. intros s.
  pose proof (lookup_bucket ps_state _ _ (ps_state s) id s H) as Hl.
  pose proof (lookup_bucket ps_state _ _ (ps_state s) id s H0) as Hl0. naive_solver.
Qed.

(** The sessions a loop over the pool visits are those of the pool, each once. *)
Lemma length_sessionList pool : List.length (sessionList pool) = sessionLength pool.
Proof.
  unfold sessionList, sessionLength.
  assert (forall (l : list (ApplicationSessionState * gmap string PoolSession)) n,
    foldl (fun num v => (num + size v.2)%nat) n l =
    (n + List.length (v ← l; (range v.2).*2))%nat) as Hf.
  { induction l as [|v l IH]; intros n; csimpl; [lia|].
    rewrite IH, length_app, length_fmap, range_perm, length_map_to_list. lia. }
  by rewrite Hf.
Qed.

Lemma sessionList_repr pool M N :
  pool_repr pool M N -> NoDup (ps_session <$> (map_to_list N).*2) ->
  sessionList pool ≡ₚ (map_to_list N).*2.
Proof.
  intros Hr Hnd. symmetry. apply submseteq_length_Permutation.
  - apply NoDup_submseteq; [by eapply NoDup_fmap_1|].
    intros s ([id s'] & -> & Hid%elem_of_map_to_list)%list_elem_of_fmap. simpl.
    unfold sessionList. apply list_elem_of_bind. destruct Hr as [_ HS _].
    exists (ps_state s', bucket (sessions pool) (ps_state s')). split.
    + apply list_elem_of_fmap. exists (id, s'). split; [done|]. apply elem_of_range. simpl.
      by apply (lookup_bucket ps_state _ N).
    + apply elem_of_range. unfold bucket. by rewrite HS.
  - rewrite length_sessionList, (sessionLength_repr _ _ _ Hr), length_fmap, length_map_to_list. done.
Qed.

Section Cleanup.
(** [asked w id]: in [w] the node of session [id] was asked to close it.  The session manager and the
    pod manager are objects of their own: its calls change no pod. *)
Context (asked : W -> string -> Prop) (now : Z) (key : string).
Hypothesis asked_close : forall pod s w, asked (CloseSession pod s w).2 (UID s).
Hypothesis close_keeps : forall pod s w,
  (forall n, FindPod (CloseSession pod s w).2 n = FindPod w n) /\
  (forall id, asked w id -> asked (CloseSession pod s w).2 id).
Hypothesis update_keeps : forall s st w,
  (forall n, FindPod (UpdateSessionStatus s st w).2 n = FindPod w n) /\
  (forall id, asked w id -> asked (UpdateSessionStatus s st w).2 id).

Definition world_le (w w' : W) : Prop :=
  (forall n, FindPod w' n = FindPod w n) /\ (forall id, asked w id -> asked w' id).
#[local] Instance world_le_preorder : PreOrder world_le.
Proof.
  split; [done|]. intros a b c [F1 A1] [F2 A2]. split; [intros n; by rewrite F2|auto].
Qed.

(** What a visit makes of an open session [x]: a session that is not closing already is closing
    afterwards and its node was asked to close it; it is closed when its pod is not known any more. *)
Definition closed_on_visit (w w' : W) (x x' : ApplicationSession) : Prop :=
  if SessionIsClosing x then SessionIsClosing x'
  else match PodReference (Status x) with
       | None => SessionStatus (Status x') = SessionStatus (Status x)
       | Some n =>
         match FindPod w n with
         | Some _ => SessionIsClosing x' /\ asked w' (UID x)
         | None => SessionIsClosed x'
         end
       end.

Lemma closed_on_visit_le w0 w w' w1 x x' :
  (forall n, FindPod w0 n = FindPod w n) -> world_le w' w1 ->
  closed_on_visit w w' x x' -> closed_on_visit w0 w1 x x'.
Proof.
  intros Hf [_ Ha]. unfold closed_on_visit. destruct (SessionIsClosing x); [done|].
  destruct (PodReference (Status x)) as [n|]; [|done]. rewrite Hf.
  destruct (FindPod w n); [|done]. intros [Hc Hk]. split; [done|by apply Ha].
Qed.

Lemma changeSessionStatus_effect am ptr x status :
  session_heap am !! ptr = Some x ->
  exists x' r w', changeSessionStatus ptr status am =
      (r, set_world w' (set_heap (<[ptr := x']> (session_heap am)) am)) /\
    UID x' = UID x /\ SessionStatus (Status x') = status /\
    PodReference (Status x') = PodReference (Status x) /\ world_le (world am) w'.
Proof.
  intros Hx. unfold changeSessionStatus. rewrite sm_bind_eq. unfold load. rewrite Hx. cbv iota zeta.
  rewrite sm_bind_eq. unfold store_session. rewrite sm_modify_eq. cbv iota. unfold call.
  match goal with |- context [UpdateSessionStatus ?y ?st ?w] =>
    pose proof (update_keeps y st w) as Hk; destruct (UpdateSessionStatus y st w) as [r w'] eqn:E;
    exists y, r, w' end.
  split; [done|]. split; [done|]. split; [by case_decide|]. split; [by case_decide|].
  split; [intros n; by apply Hk|]. intros id. by apply Hk.
Qed.

(** One visit, on every branch. *)
Lemma deleteApplicationSession_effect am s x :
  session_heap am !! ps_session s = Some x ->
  exists r x' am', deleteApplicationSession now key s am = (r, am') /\
    session_heap am' = <[ps_session s := x']> (session_heap am) /\
    UID x' = UID x /\ world_le (world am) (world am') /\
    if SessionIsOpen x then
      applicationPools am' = applicationPools am /\ closed_on_visit (world am) (world am') x x'
    else match r with
         | Ok _ => applicationPools am' =
             <[key := deleteSession (the_pool am key) x']> (applicationPools am)
         | Err _ => applicationPools am' = applicationPools am
         end.
Proof.
  intros Hx. unfold deleteApplicationSession. rewrite sm_bind_eq. unfold load at 1. rewrite Hx.
  cbv iota zeta. set (y := match DeletionTimestamp x with Some _ => _ | None => x end).
  assert (UID y = UID x /\ Status y = Status x) as [Hid Hst] by (unfold y; by destruct (DeletionTimestamp x)).
  assert (SessionIsOpen y = SessionIsOpen x) as Ho by (unfold SessionIsOpen; by rewrite Hst).
  assert (SessionIsClosing y = SessionIsClosing x) as Hcl by (unfold SessionIsClosing; by rewrite Hst).
  rewrite sm_bind_eq. unfold store_session at 1. rewrite sm_modify_eq. cbv iota.
  set (am0 := set_heap (<[ps_session s := y]> (session_heap am)) am).
  assert (session_heap am0 !! ps_session s = Some y) as Hy by apply lookup_insert_eq.
  assert (forall z, <[ps_session s := z]> (session_heap am0) = <[ps_session s := z]> (session_heap am))
    as Hins by (intros z; apply insert_insert_eq).
  rewrite Hcl, Ho, Hst.
  assert (forall z, closed_on_visit (world am) (world am0) x z <-> closed_on_visit (world am) (world am) x z)
    as Hsame by done.
  unfold closed_on_visit. destruct (SessionIsClosing x) eqn:Hc.
  { eexists _, y, am0. split; [done|]. split; [done|]. split; [done|]. split; [done|].
    assert (SessionIsOpen x = true) as ->; [|by rewrite Hcl].
    unfold SessionIsClosing in Hc. apply bool_decide_eq_true in Hc. unfold SessionIsOpen. by rewrite Hc. }
  destruct (SessionIsOpen x) eqn:Hop.
  - destruct (PodReference (Status x)) as [n|] eqn:Hn.
    2:{ eexists _, y, am0. split; [done|]. split; [done|]. split; [done|]. split; [done|]. by rewrite Hst. }
    rewrite sm_bind_eq, sm_get_eq. cbv iota. change (world am0) with (world am).
    destruct (FindPod (world am) n) as [pod|] eqn:Hf.
    + destruct (changeSessionStatus_effect am0 (ps_session s) y SessionStatusClosing Hy)
        as (x' & r & w' & E & Hid' & Hst' & _ & Hle).
      rewrite sm_bind_eq. unfold sm_try. rewrite E. cbv iota. rewrite sm_bind_eq. unfold load.
      cbn [session_heap set_world set_heap]. rewrite lookup_insert_eq. cbv iota. unfold call. cbn [world set_world].
      pose proof (asked_close pod x' w') as Ha. pose proof (close_keeps pod x' w') as Hk.
      destruct (CloseSession pod x' w') as [r' w''] eqn:Ecl. simpl in Ha, Hk.
      eexists r', x', _. split; [done|]. cbn [world set_world session_heap set_heap applicationPools].
      split; [apply Hins|]. split; [congruence|]. split; [by etrans|]. split; [done|].
      split; [|by rewrite <- Hid, <- Hid']. unfold SessionIsClosing. by rewrite Hst'.
    + destruct (changeSessionStatus_effect am0 (ps_session s) y SessionStatusClosed Hy)
        as (x' & r & w' & E & Hid' & Hst' & _ & Hle).
      rewrite sm_bind_eq. unfold sm_try. rewrite E. cbv iota. rewrite sm_ret_eq.
      eexists _, x', _. split; [done|]. cbn [world set_world session_heap set_heap applicationPools].
      split; [apply Hins|]. split; [congruence|]. split; [done|]. split; [done|].
      unfold SessionIsClosed. by rewrite Hst'.
  - destruct (SessionIsPending y).
    + destruct (changeSessionStatus_effect am0 (ps_session s) y SessionStatusTimeout Hy)
        as (x' & r & w' & E & Hid' & Hst' & _ & Hle).
      rewrite sm_bind_eq, E. destruct r as [[]|e].
      * cbv iota. rewrite sm_bind_eq. unfold load. cbn [session_heap set_world set_heap].
        rewrite lookup_insert_eq. cbv iota. eexists _, x', _. split; [done|].
        cbn [world set_world session_heap set_heap applicationPools on_pool sm_modify snd set_pools].
        split; [apply Hins|]. split; [congruence|]. by split.
      * cbv iota. eexists _, x', _. split; [done|].
        cbn [world set_world session_heap set_heap applicationPools].
        split; [apply Hins|]. split; [congruence|]. by split.
    + rewrite sm_bind_eq, sm_ret_eq. cbv iota. rewrite sm_bind_eq. unfold load. rewrite Hy. cbv iota.
      eexists _, y, _. split; [done|]. by split.
Qed.

(** A loop over distinct sessions of the pool: the open ones stay and are closed, the others leave
    unless a request failed; pods are at most freed. *)
Lemma cleanup_loop l am M N :
  pool_at am key M N -> is_Some (applicationPools am !! key) -> NoDup (ps_session <$> l) ->
  (forall s, s ∈ l -> exists x, session_heap am !! ps_session s = Some x /\ N !! UID x = Some s) ->
  exists errs am1 M' N', sm_collect l (deleteApplicationSession now key) am = (Ok errs, am1) /\
    pool_at am1 key M' N' /\ is_Some (applicationPools am1 !! key) /\ only_freed M M' /\ N' ⊆ N /\
    world_le (world am) (world am1) /\
    (forall ptr, ptr ∉ ps_session <$> l -> session_heap am1 !! ptr = session_heap am !! ptr) /\
    (forall id s, N !! id = Some s -> s ∉ l -> N' !! id = Some s) /\
    (forall s x, s ∈ l -> session_heap am !! ps_session s = Some x ->
       if SessionIsOpen x then N' !! UID x = Some s /\
         exists x', session_heap am1 !! ps_session s = Some x' /\ closed_on_visit (world am) (world am1) x x'
       else errs = [] -> N' !! UID x = None).
Proof.
  revert am M N. induction l as [|s l IH]; intros am M N Hat Hsome Hnd Hl.
  { exists [], am, M, N. repeat (split; [done|]). intros s x Hs. by apply elem_of_nil in Hs. }
  csimpl in Hnd. apply NoDup_cons in Hnd as [Hns Hnd].
  destruct (Hl s) as (x & Hx & HNx); [left|].
  destruct (deleteApplicationSession_effect am s x Hx) as (r & x' & am2 & E & Hh & Hid & Hw & Hcase).
  assert (exists M2 N2, pool_at am2 key M2 N2 /\ is_Some (applicationPools am2 !! key) /\
    only_freed M M2 /\ N2 ⊆ N /\ (forall id, id <> UID x -> N2 !! id = N !! id) /\
    if SessionIsOpen x then N2 !! UID x = Some s else match r with Ok _ => N2 !! UID x = None | Err _ => True end)
    as (M2 & N2 & Hat2 & Hsome2 & HM2 & HN2 & Hne2 & Hx2).
  { destruct (SessionIsOpen x); [|destruct r as [[]|e]].
    - destruct Hcase as [Hp _]. exists M, N. unfold pool_at, the_pool. by rewrite Hp.
    - exists (release x' M), (delete (UID x) N). unfold pool_at, the_pool. rewrite Hcase, lookup_insert_eq.
      split; [rewrite <- Hid; by apply deleteSession_repr|]. split; [done|]. split; [apply release_only_freed|].
      split; [apply delete_subseteq|]. split; [intros id Hne; by rewrite lookup_delete_ne|apply lookup_delete_eq].
    - exists M, N. unfold pool_at, the_pool. by rewrite Hcase. }
  assert (forall t, t ∈ l -> ps_session t <> ps_session s) as Hptr.
  { intros t Ht Heq. apply Hns. rewrite <- Heq. by apply list_elem_of_fmap_2. }
  assert (forall t, t ∈ l -> session_heap am2 !! ps_session t = session_heap am !! ps_session t) as Hheap.
  { intros t Ht. rewrite Hh, lookup_insert_ne; [done|]. intros Heq. by apply (Hptr t Ht). }
  destruct (IH am2 M2 N2 Hat2 Hsome2 Hnd) as
    (errs & am1 & M' & N' & E1 & Hat1 & Hsome1 & HM1 & HN1 & Hw1 & Hh1 & Hkeep & Hvis).
  { intros t Ht. destruct (Hl t) as (y & Hy & HNy); [by right|]. exists y. rewrite Hheap by done.
    split; [done|]. rewrite Hne2; [done|]. intros Heq. rewrite Heq, HNx in HNy. simplify_eq.
    by apply (Hptr t Ht). }
  exists (match r with Ok _ => errs | Err e => e :: errs end), am1, M', N'. split.
  { simpl. rewrite sm_bind_eq. unfold sm_try. rewrite E. cbv iota. rewrite sm_bind_eq, E1. done. }
  split; [done|]. split; [done|]. split; [by etrans|]. split; [by etrans|]. split; [by etrans|].
  split; [|split].
  - csimpl. intros ptr [Hp1 Hp2]%not_elem_of_cons. by rewrite Hh1, Hh, lookup_insert_ne.
  - intros id t Ht [Hts Htl]%not_elem_of_cons. apply Hkeep; [|done]. rewrite Hne2; [done|].
    intros ->. congruence.
  - intros t y [->|Ht]%elem_of_cons Hy.
    + simplify_eq. destruct (SessionIsOpen x) eqn:Ho.
      * split; [apply Hkeep; [done|]; intros Hin; by apply (Hptr s Hin)|].
        exists x'. rewrite Hh1, Hh, lookup_insert_eq by done. split; [done|].
        eapply closed_on_visit_le; [|exact Hw1|apply Hcase]. done.
      * intros Herr. destruct r as [[]|]; [|done].
        destruct (N' !! UID x) as [t|] eqn:Ht; [|done].
        rewrite (lookup_weaken _ _ _ _ Ht HN1) in Hx2. done.
    + rewrite <- (Hheap t Ht) in Hy. specialize (Hvis t y Ht Hy). destruct (SessionIsOpen y).
      * destruct Hvis as (HNt & y' & Hy' & Hc). split; [done|]. exists y'. split; [done|].
        eapply closed_on_visit_le; [|reflexivity|exact Hc]. intros n. symmetry. apply Hw.
      * intros Herr. apply Hvis. by destruct r.
Qed.

(** Sessions of different identifiers are different objects. *)
Lemma session_pointers_distinct (h : SessionHeap) (N : gmap string PoolSession) :
  (forall id s, N !! id = Some s -> exists x, h !! ps_session s = Some x /\ UID x = id) ->
  NoDup (ps_session <$> (map_to_list N).*2).
Proof.
  intros HN. rewrite <- list_fmap_compose. apply NoDup_fmap_2_strong; [|apply NoDup_map_to_list].
  intros [i s] [j t] Hi%elem_of_map_to_list Hj%elem_of_map_to_list Heq. simpl in Heq.
  destruct (HN i s Hi) as (x & Hx & Hix), (HN j t Hj) as (y & Hy & Hjy).
  rewrite Heq, Hy in Hx. by simplify_eq.
Qed.

(** C10: an application under deletion closes its sessions before it terminates a pod.  As long as
    the pool has a session, a cleanup run removes no pod and marks none for deletion, it only frees
    pods.  Every open session stays in the pool and is closing afterwards, its node having been
    asked to close it (it is marked closed when its pod is not known any more, and left alone when
    it was never given a pod); unless a request fails, every other session leaves the pool.  The
    pool is dropped from the manager exactly when the run succeeded and then neither pods nor
    sessions are left in it. *)
Theorem cleanup_closes_sessions_first am pool M N :
  am_inv am -> applicationPools am !! key = Some pool -> pool_repr pool M N -> N <> ∅ ->
  let am1 := (cleanupSessionOfApplication now key am).2 in
  let r := (cleanupDeletedApplication now key am).1 in
  let am' := (cleanupDeletedApplication now key am).2 in
  exists M' N', pool_at am1 key M' N' /\ is_Some (applicationPools am1 !! key) /\
    only_freed M M' /\ N' ⊆ N /\
    (forall id s, N !! id = Some s -> exists x, session_heap am !! ps_session s = Some x /\
       if SessionIsOpen x then N' !! id = Some s /\
         exists x', session_heap am1 !! ps_session s = Some x' /\ closed_on_visit (world am) (world am1) x x'
       else r = Ok () -> N' !! id = None) /\
    (r = Ok () /\ M' = ∅ /\ N' = ∅ /\ applicationPools am' = delete key (applicationPools am1) \/
     ~ (r = Ok () /\ M' = ∅ /\ N' = ∅) /\ am' = am1).
Proof.
  intros Hi Hpool Hr HN.
  assert (the_pool am key = pool) as Htp by (unfold the_pool; by rewrite Hpool).
  assert (forall id s, N !! id = Some s -> exists x, session_heap am !! ps_session s = Some x /\ UID x = id)
    as Hptr.
  { intros id s Hs. destruct (ai_pools am Hi key pool Hpool) as [_ (M0 & N0 & Hr0 & HN0)].
    rewrite (pool_repr_sessions_unique pool M M0 N N0 Hr Hr0) in Hs.
    destruct (HN0 id s Hs) as (x & Hx & Hid & _). by exists x. }
  pose proof (session_pointers_distinct _ N Hptr) as Hnd.
  pose proof (sessionList_repr pool M N Hr Hnd) as Hperm.
  assert (forall s, s ∈ sessionList pool <-> exists id, N !! id = Some s) as Hin.
  { intros s. rewrite Hperm, list_elem_of_fmap. split.
    - intros ([id t] & -> & Hid%elem_of_map_to_list). by exists id.
    - intros [id Hid%elem_of_map_to_list]. by exists (id, s). }
  destruct (cleanup_loop (sessionList pool) am M N) as
    (errs & am1 & M' & N' & E & Hat1 & Hsome1 & HM1 & HN1 & _ & _ & _ & Hvis);
    [unfold pool_at; by rewrite Htp|by rewrite Hpool|by rewrite Hperm| |].
  { intros s [id Hs]%Hin. destruct (Hptr id s Hs) as (x & Hx & <-). by exists x. }
  unfold cleanupDeletedApplication, cleanupSessionOfApplication. cbv zeta. sm_simpl.
  rewrite Htp, (sessionLength_repr pool M N Hr).
  destruct (Nat.ltb_spec 0 (size N)) as [_|Hle]; [|destruct HN; apply map_size_empty_inv; lia].
  sm_simpl. rewrite Htp, E. sm_simpl. exists M', N'.
  destruct errs as [|e errs]; sm_simpl.
  - split; [done|]. split; [done|]. split; [done|]. split; [done|]. split.
    { intros id s Hs. destruct (Hptr id s Hs) as (x & Hx & <-). exists x. split; [done|].
      specialize (Hvis s x). rewrite Hin in Hvis. specialize (Hvis (ex_intro _ _ Hs) Hx).
      destruct (SessionIsOpen x); [done|]. intros _. by apply Hvis. }
    rewrite (podLength_repr _ _ _ Hat1), (sessionLength_repr _ _ _ Hat1).
    destruct (Nat.eqb_spec (size M') 0) as [HM0|HM0]; [destruct (Nat.eqb_spec (size N') 0) as [HN0|HN0]|];
      cbn [andb].
    + left. split; [done|]. split; [by apply map_size_empty_inv|]. split; [by apply map_size_empty_inv|done].
    + right. split; [|done]. intros (_ & _ & ->). by rewrite map_size_empty in HN0.
    + right. split; [|done]. intros (_ & -> & _). by rewrite map_size_empty in HM0.
  - split; [done|]. split; [done|]. split; [done|]. split; [done|]. split.
    { intros id s Hs. destruct (Hptr id s Hs) as (x & Hx & <-). exists x. split; [done|].
      specialize (Hvis s x). rewrite Hin in Hvis. specialize (Hvis (ex_intro _ _ Hs) Hx).
      by destruct (SessionIsOpen x). }
    right. split; [|done]. by intros [? _].
Qed.
End Cleanup.

(** ** The reported status *)

(** The status of an application counts its pool: pending, deleting, idle and allocated instances
    are the pods in those states, their total is the number of pods, and the desired number is the
    one the sync computed. *)
Theorem status_counts_pool pool M N application desired :
  pool_repr pool M N -> Z.of_nat (size M) < 2 ^ 31 -> 0 <= desired < 2 ^ 31 ->
  let s := calculateStatus pool application desired in
  DesiredInstances s = desired /\ TotalInstances s = Z.of_nat (podLength pool) /\
  PendingInstances s = Z.of_nat (size (pods_in pool PodStatePending)) /\
  DeletingInstances s = Z.of_nat (size (pods_in pool PodStateDeleting)) /\
  AllocatedInstances s = Z.of_nat (size (pods_in pool PodStateAllocated)) /\
  IdleInstances s = Z.of_nat (size (pods_in pool PodStateIdle)).
Proof.
  intros Hr Hsz Hd. rewrite (podLength_repr _ _ _ Hr).
  assert (size M = (size (pods_in pool PodStatePending) + size (pods_in pool PodStateAllocated) +
    size (pods_in pool PodStateDeleting) + size (pods_in pool PodStateIdle))%nat) as HM.
  { destruct Hr as [HB _ _]. unfold pods_in. rewrite !(bucket_eq pod_state _ M) by done.
    rewrite <- (size_buckets pod_state _ M (proj1 pod_states_all) (fun a => proj2 pod_states_all _)).
    csimpl. lia. }
  unfold calculateStatus, summaryPod. cbv zeta. cbn [totalCount pendingCount deletingCount idleCount occupiedCount].
  assert (forall z, 0 <= z < 2 ^ 31 -> i32 z = z) as Hw by (intros; apply wraps_small; lia).
  rewrite (Hw desired), !(Hw (Z.of_nat _)) by lia.
  rewrite (Hw (Z.of_nat (size (pods_in pool PodStatePending)) + Z.of_nat (size (pods_in pool PodStateDeleting))))
    by lia.
  rewrite (Hw (_ + Z.of_nat (size (pods_in pool PodStateIdle)))) by lia.
  rewrite (Hw (_ + Z.of_nat (size (pods_in pool PodStateAllocated)))) by lia.
  case_match eqn:E; [|simpl; split_and!; lia].
  rewrite !andb_true_iff, !Z.eqb_eq in E. destruct E as (((((-> & ->) & ->) & ->) & ->) & ->).
  split_and!; lia.
Qed.

(** ** Where the handlers depart from their comments *)

(** When the store fails, the pod of a known application is not kept under the application of its
    label, as the log message says: the label is only used if it is missing, so the key stays empty
    and the pod is terminated. *)
Theorem store_error_terminates_pod am now pod key e :
  om_Labels (om pod) !! LabelFornaxCoreApplication = Some key ->
  GetApplicationCache (world am) key = Err e ->
  handlePodAddUpdateFromNode now pod am = (Ok (), (call (TerminatePod (Name pod)) am).2).
Proof.
  intros Hl He. unfold handlePodAddUpdateFromNode, application_key_or_label, getPodApplicationKey.
  sm_simpl. rewrite Hl, He. cbv iota. cbn [String.eqb]. sm_simpl. unfold sm_try.
  by destruct (call (TerminatePod (Name pod)) am).
Qed.

(** A deleting pod that the pod manager no longer knows is never dropped: the request to delete it
    again returns at once, although the comment of [pruneDeadPods] says that any pod that cannot be
    found is deleted; its pool stays until an event for the pod arrives. *)
Theorem deleting_pod_unknown_to_pod_manager_stays am now key n p :
  getPod (the_pool am key) n = Some p -> pod_state p = PodStateDeleting -> FindPod (world am) n = None ->
  deleteApplicationPod now key n am = (Ok (), am).
Proof.
  intros Hp Hst Hf. unfold deleteApplicationPod. sm_simpl. rewrite Hp. by rewrite decide_True, Hf.
Qed.

(** Of all the ports of a pod only the last one becomes an access point of the session: every turn
    of the loop starts again from the old list. *)
Theorem bind_endpoints_last_port pod old port ports :
  (Containers (Spec pod) ≫= c_Ports) = ports ++ [port] ->
  bind_endpoints pod old = old ++ [mkAccessEndPoint (cp_Protocol port) (cp_HostIP port) (cp_HostPort port)].
Proof.
  unfold bind_endpoints. intros Hp.
  assert (forall (f : list AccessEndPoint -> ContainerPort -> list AccessEndPoint) cs acc,
    foldl (fun acc cont => foldl f acc (c_Ports cont)) acc cs = foldl f acc (cs ≫= c_Ports)) as Hflat.
  { intros f. induction cs as [|c cs IH]; intros acc; [done|]. csimpl. by rewrite IH, foldl_app. }
  by rewrite Hflat, Hp, foldl_app.
Qed.
End Sync.

(** ** Concrete inputs *)

Lemma example_am_inv : am_inv example_am.
Proof. apply (am_reachable_inv example_world), example_am_reachable. Qed.

Lemma pending_sessions_first_come_first_served_witness :
  exists am' M' N', deployApplicationSessions 3 "ns/app" example_am = (Ok (), am') /\
    pool_at am' "ns/app" M' N' /\
    exists pod p, Name pod = "ns/p1"%string /\
      session_heap am' !! 0%nat = Some (bound_session 3 pod
        (map_om (om_set_CreationTimestamp 2) (example_session "s2" SessionStatusPending None))) /\
      M' !! "ns/p1" = Some p /\ pod_state p = PodStateAllocated /\ "s2" ∈ pod_sessions p.
Proof.
  destruct (pending_sessions_first_come_first_served
    (fun w => ew_pods w = ew_pods example_world) (fun n => n = "ns/p1"%string) 3 "ns/app"
    ltac:(intros w n Hw ->; exists (example_pod "p1" []); unfold FindPod; simpl; rewrite Hw; split; reflexivity)
    ltac:(intros w pod s Hw _; eexists; split; [reflexivity|exact Hw])
    example_am example_am_pods example_am_sessions [mkPoolSession 0 SessionStatePending]
    example_am_inv)
    as (am' & M' & N' & Hd & Hat & _ & _ & Hb & _);
    [reflexivity|exact example_am_repr|vm_compute; reflexivity| |].
  - intros n p. unfold example_am_pods. by intros [<- _]%lookup_singleton_Some.
  - exists am', M', N'. split; [exact Hd|]. split; [exact Hat|].
    exact (Hb 0%nat (mkPoolSession 0 SessionStatePending) (mkApplicationPod "ns/p1" PodStateIdle ∅)
      (map_om (om_set_CreationTimestamp 2) (example_session "s2" SessionStatusPending None))
      ltac:(vm_compute; reflexivity) ltac:(vm_compute; reflexivity) ltac:(vm_compute; reflexivity)).
Defined.

(** The session "s1" is open on the pod, "s2" still waits for one. *)
Definition open_am : ApplicationManager ExampleWorld :=
  (onSessionEventFromStorage 2 EventAdded (example_session "s1" SessionStatusAvailable (Some "ns/p1"%string))
    example_am).2.
Definition open_am_pods : gmap string ApplicationPod :=
  {[ "ns/p1" := mkApplicationPod "ns/p1" PodStateAllocated {[ "s1" ]} ]}.
Definition open_am_sessions : gmap string PoolSession :=
  {[ "s1" := mkPoolSession 1 SessionStateRunning; "s2" := mkPoolSession 0 SessionStatePending ]}.

Lemma open_am_inv : am_inv open_am.
Proof.
  apply (am_reachable_inv example_world). eapply rtc_r; [exact example_am_reachable|apply step_session].
Qed.
Lemma open_am_repr : pool_repr (the_pool open_am "ns/app") open_am_pods open_am_sessions.
Proof.
  split; [intros []; vm_compute; reflexivity|intros []; vm_compute; reflexivity|].
  intros n p. unfold open_am_pods. by intros [<- <-]%lookup_singleton_Some.
Qed.

Definition asked_to_close (w : ExampleWorld) (id : string) : Prop := id ∈ ew_closed w.

Lemma asked_to_close_asked pod s (w : ExampleWorld) : asked_to_close (CloseSession pod s w).2 (UID s).
Proof. apply elem_of_app. right. by apply list_elem_of_singleton. Qed.
Lemma asked_to_close_kept pod s (w : ExampleWorld) :
  (forall n, FindPod (CloseSession pod s w).2 n = FindPod w n) /\
  (forall id, asked_to_close w id -> asked_to_close (CloseSession pod s w).2 id).
Proof. split; [done|]. intros id Hid. apply elem_of_app. by left. Qed.

(** The node is asked to close "s1", which stays in the pool; "s2" leaves it; the pool stays. *)
Lemma cleanup_closes_sessions_first_witness :
  let am' := (cleanupDeletedApplication 3 "ns/app" open_am).2 in
  ew_closed (world am') = ["s1"%string] /\
  exists M' N', pool_at am' "ns/app" M' N' /\ only_freed open_am_pods M' /\
    N' !! "s1" = Some (mkPoolSession 1 SessionStateRunning) /\ N' !! "s2" = None.
Proof.
  intros am'. split; [vm_compute; reflexivity|].
  destruct (cleanup_closes_sessions_first asked_to_close 3 "ns/app"
    asked_to_close_asked asked_to_close_kept ltac:(by split)
    open_am (the_pool open_am "ns/app") open_am_pods open_am_sessions open_am_inv)
    as (M' & N' & Hat & _ & HM & _ & Hs & Hdrop);
    [vm_compute; reflexivity|exact open_am_repr|vm_compute; discriminate|].
  destruct (Hs "s1"%string (mkPoolSession 1 SessionStateRunning)) as (x & Hx & Hc1); [reflexivity|].
  destruct (Hs "s2"%string (mkPoolSession 0 SessionStatePending)) as (y & Hy & Hc2); [reflexivity|].
  vm_compute in Hx, Hy. injection Hx as <-. injection Hy as <-.
  destruct Hc1 as [H1 _]. specialize (Hc2 ltac:(vm_compute; reflexivity)).
  exists M', N'. split; [|split; [exact HM|split; [exact H1|exact Hc2]]].
  destruct Hdrop as [(_ & _ & HN & _)|[_ Heq]]; [|unfold am'; rewrite Heq; exact Hat].
  rewrite HN in H1. discriminate.
Defined.

Lemma status_counts_pool_witness :
  TotalInstances (calculateStatus (the_pool example_am "ns/app") (example_app example_policy) 4) = 1.
Proof.
  destruct (status_counts_pool (the_pool example_am "ns/app") example_am_pods example_am_sessions
    (example_app example_policy) 4 example_am_repr) as (_ & H & _); [reflexivity|lia|exact H].
Defined.

(** Collaborators whose store is down. *)
Definition broken_store : Collaborators ExampleWorld := {|
  FindPod := FindPod; TerminatePod := TerminatePod; AddOrUpdatePod := AddOrUpdatePod;
  ClearDeletionTimestamp := ClearDeletionTimestamp; OpenSession := OpenSession;
  CloseSession := CloseSession; UpdateSessionStatus := UpdateSessionStatus;
  GetApplicationCache := fun _ _ => Err InternalError; UpdateApplicationStatus := UpdateApplicationStatus
|}.

Lemma store_error_terminates_pod_witness :
  handlePodAddUpdateFromNode (CO := broken_store) 3 (example_pod "p1" []) example_am =
  (Ok (), (call (TerminatePod "ns/p1") example_am).2).
Proof.
  apply (store_error_terminates_pod (CO := broken_store) example_am 3 (example_pod "p1" []) "ns/app" InternalError);
    reflexivity.
Defined.

Lemma deleting_pod_unknown_to_pod_manager_stays_witness :
  let am := (on_pool "ns/app" (fun pool => (addOrUpdatePod pool "ns/p8" PodStateDeleting []).2) example_am).2 in
  deleteApplicationPod 99 "ns/app" "ns/p8" am = (Ok (), am).
Proof.
  intros am. apply (deleting_pod_unknown_to_pod_manager_stays am 99 "ns/app" "ns/p8"
    (mkApplicationPod "ns/p8" PodStateDeleting ∅)); [vm_compute; reflexivity|reflexivity|vm_compute; reflexivity].
Defined.

Lemma bind_endpoints_last_port_witness :
  let port n := mkContainerPort "" n n "TCP" "10.0.0.1" in
  bind_endpoints (example_pod "p1" [port 80; port 443]) [] = [mkAccessEndPoint "TCP" "10.0.0.1" 443].
Proof.
  intros port. apply (bind_endpoints_last_port (example_pod "p1" [port 80; port 443]) [] (port 443) [port 80]).
  reflexivity.
Defined.
